(* ===== verification/_CoqProject ===== *)
-Q . S2P
Prelude.v
CString.v
HttpContext.v
LruCache.v
TaskQueue.v
ProcLock.v
MemoryCache.v
EventLoops.v
TcpServer.v
ServerTypes.v
ConnLife.v
Tunnel.v
RedisCache.v
CacheStack.v
ProxyServer.v
JobSteps.v
JobFacts.v
Pipeline.v
Isolation.v
Answers.v
Served.v
Throughput.v
Races.v
Workers.v
MemoryChecker.v
System.v
Interleaving.v
