(* ===== verification/Prelude.v ===== *)
(** * EnhancedProxy: a verification development

    EnhancedProxy is an HTTP reverse proxy on muduo.  A master process forks
    workers that share a listening address; a lock byte in shared memory and
    one event descriptor per worker decide which of them accepts.  In a
    worker, a [TcpServer] deals connections to I/O threads, an I/O thread puts
    the bytes it read into a task ring, and a pool thread frames them into HTTP
    requests, asks a two-level cache, and forwards what it does not answer
    through a [Tunnel] to the web server.

    ** The files

    - [Prelude]: outcomes of a C++ computation, loops with fuel, machine
      integers, lemmas on lists.  [CString]: [std::find], [std::search],
      [isspace], [atoi], [to_string], C strings.
    - [HttpContext]: src/Http/_HttpContext.{h,cpp}.  [parse_step] is one
      iteration of [parseRequest]'s loop, iterators are positions in the buffer.
    - [LruCache]: src/cache/LRU.h, a list of identified nodes and a map of
      iterators; [entries] is the abstract cache its operations refine.
    - [MemoryCache]: src/cache/memoryCache.h, threads over a heap of [Lru]s.
    - [RedisCache]: src/Cache/Redis.h and src/cache/cache.h; the client of the
      memory cache is stated over the class [ResponseStore].
    - [CacheStack]: a whole call of [MemoryCache] by one thread, as an
      implementation of [ResponseStore], and [Cache] on top of it.
    - [TaskQueue]: src/ThreadPool/: [CircleQueue], [Producer], [Consumer],
      [MyThreadPool], and [Pool], any number of them on one ring.
    - [ProcLock]: src/Process/ProcessMutex.h, any number of processes.
    - [EventLoops]: src/ModifiedMuduo/EventLoopThread and EventLoopThreadPool.
    - [TcpServer]: src/ModifiedMuduo/Acceptor and TcpServer.  [ServerTypes]: its
      operations as values, and the ranges of its fields.  [ConnLife]: the
      functors it queues on its own loop and on the I/O loops, run in any order.
    - [Tunnel]: src/ProxyServer/Tunnel.h.
    - [ProxyServer]: src/ProxyServer/ProxyServer.{h,cpp}.  [solve_step] is one
      iteration of the loop of [solveOnMessage].
    - [JobSteps]: the same [solveOnMessage] one access to shared state at a time
      ([job_step]), over a [Connection] with all the tunnels its jobs made.
      [JobFacts]: what one access or one callback of a tunnel does.
    - [Pipeline]: I/O threads, the ring, the pool and the tunnels of a worker
      together; an event ([pl_event]) is one access of one thread.
      [Isolation], [Answers], [Throughput] and [Races] are about its runs: whose
      bytes go where, what a browser hears, who waits, and what stops the
      process.  [Served]: the same with the [Cache] of the code.
    - [Workers]: src/Process/MasterProcess, WorkerProcess.  [MemoryChecker]:
      src/Process/SystemChecker.h.
    - [System]: all workers together, over the lock byte, the array of event
      descriptors and their counters; [token_step] is their specification.
      [Interleaving]: the same workers, one access at a time ([fine_step]),
      and the simulation of their runs by runs of [System].

    A class is a Record with the source's members; a method is a function that
    returns the new record, in [outcome] where it can fail.  Names are the
    source's, with the class as a prefix where two classes use the same one.
    Where threads or processes share state, a step relation ([pool_step],
    [lock_step], [mc_step], [elt_step], [destroy_step], [life_step], [sup_step],
    [sys_step], [pl_step])
    interleaves the critical sections and the accesses made outside them;
    muduo's callbacks arrive as events ([tunnel_step], [server_step],
    [acceptor_step], [typed_step], [session_handle]).

    ** What is shown

    - Across components.  C1: under every interleaving of a worker's threads,
      what is sent to a web server for a connection is whole requests of that
      connection.  C4: all a browser ever hears is what Redis holds for a URL it
      has asked for, and nothing is ever cached.  C2: the workers share one
      accept token; C3, C11: so they do when their accesses interleave, and at
      most one listens at any instant; C8: the token is never handed on.  C6,
      C36: the shared cache implements [Lru], and [Cache] reads back what it
      wrote.  C38: as written no request reaches the task ring.
    - [Pipeline], C5, C9, C10 and C40: a connection that sends a second request
      early is never served; how jobs fail; how the pool starves; how long the
      first requests wait.  [Pipeline_new] gives each I/O thread the producer that
      [threadInitCallback] is meant to give it; as the program is it has none
      (C38), so C1, C4 and these say what the threads do once it has.
    - [ProxyServer], C7 and C37: what [solveOnMessage] sends when others interfere
      between its iterations; how it waits for a tunnel, and what then
      becomes of it.  [JobSteps], C39: what the accesses of an undisturbed job do on
      a connection whose tunnel is up, by [job_alone_solves], which makes
      [solveOnMessage] the sum of its accesses.
    - [HttpContext], C13 and C18-C22: the request parser terminates, stays in its
      buffer, accepts every well-formed request whole and nothing shorter, is
      undisturbed by what follows, and fails in one way only.
    - [LruCache], C14 and C23-C25: the LRU cache refines the abstract cache, with
      the invariant over all operations and copies; an insertion into a full
      one is undefined.
    - [TaskQueue], C12, C26 and C27: the task ring delivers exactly once on its
      first lap; the grant test, and deliveries repeated after the first lap.
    - [ProcLock], C15: mutual exclusion.
    - [MemoryCache], C28-C30: the shared cache never fails an assertion, a reader
      answers from what it found, and the two data races of [get].
    - [EventLoops], C31: the destructor waits for its thread, unless the thread
      has not yet published its loop.
    - [ConnLife], C16, and [ServerTypes], C32: the life of a connection, the
      ranges of the fields.
    - [Tunnel], C33 and C34: back-pressure in both directions, and what is left
      of it after [teardown]; which callbacks fail.
    - [RedisCache], C35: the two cache levels.
    - [Workers], C17: supervision that multiplies the supervisors instead of
      replacing workers, whichever child dies first and whether or not [fork]
      succeeds.

    The files hold further theorems on the way to these: parsing again without
    a reset ([parseRequest_without_reset]), the cookie flag that never changes
    ([context_never_gotAll]), a producer that is stuck after the first lap
    ([producer_stuck_forever]), the clock set back
    ([Lru_get_clock_back]), copies ([Lru_copy_refines]), reading back
    ([Lru_put_get]), the ring's first block and its overwriting, calls as runs of
    the pool ([calls_are_pool_steps]), the lock's uninitialised flag, the map of
    producers, [startLoop], round robin ([getNextLoop_round_robin]), the acceptor
    and its hand-off ([newConnection_hand_off]), connection names
    ([connections_distinct]), the tunnel that never answers
    ([tunnel_never_responds]), what a browser hears with any cache
    ([browser_hears_only_cache]), a job on an established
    connection ([solve_established]), the array of descriptors
    ([worker_hand_over]), a status line read back.

    ** Fuel

    A [while] loop is [run_loop body fuel]: [None] means only that the fuel was
    not enough.  [parseRequest] gives its loop [length buf + 3] iterations and
    [Lru_put] the length of the list plus two, which are proved to be enough;
    [solveOnMessage] and [checkWorkerExit] can run for ever, so their fuel is
    an argument and the theorems say for which inputs some fuel ends them.
    [job_alone] counts iterations as [solveOnMessage] does: one iteration is at
    most nine accesses and the end at most three.

    ** Not modelled

    Logging, the shared-memory and descriptor calls themselves, muduo, hiredis
    and boost (what they return is an argument; what they are asked to do is
    recorded), the memory model of unlocked accesses, freeing of memory, timers,
    and the test program.  [ProcessMutex::owner], which the workers' constructor
    leaves indeterminate, starts false in [System] and [Interleaving]: a worker
    reads it only in [unlock], after a [tryLock] that succeeded has written it.
    A call of the shared cache, of a [Tunnel] method or of the map
    [tunnels] is one access of [Pipeline]: that the map is changed by
    several threads without a lock is not modelled, and the shared cache's own
    interleavings are in [MemoryCache] only.  In [System] a callback runs to its
    end before another worker moves, which [Interleaving] justifies.  Of muduo's
    [TcpConnection], [ConnLife] relies on the close callback coming after
    [connectEstablished], once; [TcpServer]'s destructor is a function there, not
    an event: it runs when the loops have ended.  [Pipeline] starts a connection
    where [ConnLife] has established it.
    The build defines no [NDEBUG], so a failed [assert] stops the process. *)

From stdpp Require Export base gmap strings list fin_maps relations.
From Stdlib Require Export ZArith Ascii.
From Stdlib Require Import Lia.

#[export] Set Default Goal Selector "!".
#[export] Set Warnings "-clear-no-such-hyp".
Open Scope Z_scope.

(** ** Outcomes of a C++ computation

    A piece of C++ either produces a value or stops the process: it runs
    into undefined behaviour, fails an [assert] (the makefile builds without
    [NDEBUG]), calls [abort()], or throws an exception nobody catches. *)
Inductive fault :=
  | UndefinedBehaviour
  | AssertionFailed
  | Aborted
  | BadFunctionCall
  | BadAnyCast
  | LengthError.

#[export] Instance fault_eq_dec : EqDecision fault.
Proof. solve_decision. Defined.

Inductive outcome (A : Type) :=
  | Ret (a : A)
  | Fault (f : fault).
Arguments Ret {A} a.
Arguments Fault {A} f.

#[export] Instance outcome_ret : MRet outcome := @Ret.
#[export] Instance outcome_bind : MBind outcome := λ A B k m,
  match m with Ret a => k a | Fault f => Fault f end.
#[export] Instance outcome_fmap : FMap outcome := λ A B g m,
  match m with Ret a => Ret (g a) | Fault f => Fault f end.

(** [assert(b)]. *)
Definition cassert (b : bool) : outcome unit :=
  if b then Ret () else Fault AssertionFailed.

(** Dereferencing something that may not be there. *)
Definition deref {A} (o : option A) : outcome A :=
  match o with Some a => Ret a | None => Fault UndefinedBehaviour end.

Definition is_ret {A} (m : outcome A) : bool :=
  match m with Ret _ => true | Fault _ => false end.

Section outcome.
Context {A B : Type}.
Implicit Types (m : outcome A) (k : A → outcome B).

Lemma bind_Ret_inv m k b : m ≫= k = Ret b → ∃ a, m = Ret a ∧ k a = Ret b.
Proof. destruct m; simpl; [eauto | discriminate]. Qed.

Lemma bind_Fault_inv m k f :
  m ≫= k = Fault f → m = Fault f ∨ ∃ a, m = Ret a ∧ k a = Fault f.
Proof. destruct m; simpl; [eauto | left; congruence]. Qed.

Lemma deref_Ret_inv (o : option A) a : deref o = Ret a → o = Some a.
Proof. destruct o; simpl; congruence. Qed.
End outcome.

Lemma cassert_Ret_inv b u : cassert b = Ret u → b = true.
Proof. destruct b; simpl; congruence. Qed.

(** Breaks a successful computation into its successful steps. *)
Ltac simplify_outcome :=
  repeat match goal with
  | H : mbind _ _ = Ret _ |- _ =>
      apply bind_Ret_inv in H; destruct H as (? & ? & H)
  | H : deref _ = Ret _ |- _ => apply deref_Ret_inv in H
  | H : cassert _ = Ret _ |- _ => apply cassert_Ret_inv in H
  | H1 : ?m = Ret _, H2 : ?m = _ |- _ => rewrite H1 in H2
  | H : Ret _ = Ret _ |- _ => injection H as H
  | H : Fault _ = Ret _ |- _ => discriminate H
  | H : Ret _ = Fault _ |- _ => discriminate H
  | _ => progress simplify_eq/=
  end.

(** ** Loops

    [run_loop body fuel s] runs a [while] loop whose one iteration is [body]:
    [inl] is the state of the next iteration and [inr] leaves the loop.
    [None] says only that [fuel] iterations were not enough. *)
Section loops.
Context {St R : Type} (body : St → outcome (St + R)).

Fixpoint run_loop (fuel : nat) (s : St) : option (outcome R) :=
  match fuel with
  | O => None
  | S n =>
      match body s with
      | Fault f => Some (Fault f)
      | Ret (inr r) => Some (Ret r)
      | Ret (inl s') => run_loop n s'
      end
  end.

(** The loop never leaves: no number of iterations ends it. *)
Definition diverges (s : St) : Prop := ∀ fuel, run_loop fuel s = None.

Lemma run_loop_mono n m s o :
  run_loop n s = Some o → (n ≤ m)%nat → run_loop m s = Some o.
Proof.
  revert m s. induction n as [|n IH]; intros m s Hrun Hle; [done|].
  destruct m as [|m]; [lia|]. simpl in *.
  destruct (body s) as [[s'|r]|f]; [|done|done].
  apply IH; [done | lia].
Qed.

(** Enough fuel: a measure that every iteration decreases bounds it. *)
Lemma run_loop_terminates (I : St → Prop) (μ : St → nat) :
  (∀ s s', I s → body s = Ret (inl s') → I s' ∧ (μ s' < μ s)%nat) →
  ∀ fuel s, I s → (μ s < fuel)%nat → is_Some (run_loop fuel s).
Proof.
  intros Hstep fuel. induction fuel as [|n IH]; intros s HI Hlt; [lia|].
  simpl. destruct (body s) as [[s'|r]|f] eqn:E; [|eauto|eauto].
  destruct (Hstep s s' HI E). apply IH; [done | lia].
Qed.

(** The invariant rule of partial correctness, for both kinds of exit. *)
Lemma run_loop_invariant (I : St → Prop) (Q : outcome R → Prop) :
  (∀ s, I s → match body s with
              | Ret (inl s') => I s'
              | Ret (inr r) => Q (Ret r)
              | Fault f => Q (Fault f)
              end) →
  ∀ fuel s o, I s → run_loop fuel s = Some o → Q o.
Proof.
  intros Hbody fuel. induction fuel as [|n IH]; intros s o HI Hrun; [done|].
  simpl in Hrun. specialize (Hbody s HI).
  destruct (body s) as [[s'|r]|f]; [eauto|simplify_eq; done|simplify_eq; done].
Qed.

Lemma run_loop_diverges (I : St → Prop) :
  (∀ s, I s → ∃ s', body s = Ret (inl s') ∧ I s') →
  ∀ s, I s → diverges s.
Proof.
  intros Hstep s HI fuel. revert s HI.
  induction fuel as [|n IH]; intros s HI; [done|]. simpl.
  destruct (Hstep s HI) as (s' & -> & HI'). by apply IH.
Qed.

Lemma run_loop_det n m s o1 o2 :
  run_loop n s = Some o1 → run_loop m s = Some o2 → o1 = o2.
Proof.
  intros H1 H2. destruct (decide (n ≤ m)%nat).
  - apply run_loop_mono with (m := m) in H1; [congruence | lia].
  - apply run_loop_mono with (m := n) in H2; [congruence | lia].
Qed.

(** The same loop as a step relation. *)
Definition loop_step (s s' : St) : Prop := body s = Ret (inl s').

Lemma run_loop_reaches s s' m o :
  rtc loop_step s s' → run_loop m s' = Some o → ∃ n, run_loop n s = Some o.
Proof.
  intros Hsteps Hlast. induction Hsteps as [s|s s1 s2 Hstep _ IH]; [by exists m|].
  destruct (IH Hlast) as [n Hn]. exists (S n). simpl. by rewrite Hstep.
Qed.

Lemma run_loop_steps s s' r :
  rtc loop_step s s' → body s' = Ret (inr r) → ∃ n, run_loop n s = Some (Ret r).
Proof. intros Hsteps Hlast. apply (run_loop_reaches s s' 1); [done|]. simpl. by rewrite Hlast. Qed.
End loops.

(** Two loops that take the same steps, up to exits that are not [G]ood. *)
Lemma run_loop_transfer {St R} (body1 body2 : St → outcome (St + R))
    (I : St → Prop) (G : R → Prop) :
  (∀ s s', I s → body1 s = Ret (inl s') → body2 s = Ret (inl s') ∧ I s') →
  (∀ s r, I s → body1 s = Ret (inr r) → G r → body2 s = Ret (inr r)) →
  ∀ n s r, I s → run_loop body1 n s = Some (Ret r) → G r →
    run_loop body2 n s = Some (Ret r).
Proof.
  intros Hl Hr n. induction n as [|n IH]; intros s r HI Hrun HG; [done|].
  simpl in *. destruct (body1 s) as [[s'|r']|f] eqn:E; [| |done].
  - destruct (Hl s s' HI E) as [-> ?]. by apply IH.
  - simplify_eq. by rewrite (Hr s r).
Qed.

(** ** Automation

    [proxy] holds the lemmas that close the common side conditions of the
    components' invariants. *)
Create HintDb proxy.
#[export] Hint Resolve Forall_insert delete_subseteq rtc_once : proxy.

(** ** Machine integers *)
Definition u16 (z : Z) : Z := z mod 2 ^ 16.
Definition u32 (z : Z) : Z := z mod 2 ^ 32.
Definition u64 (z : Z) : Z := z mod 2 ^ 64.
(** Conversion to a 32-bit [int], two's complement. *)
Definition i32 (z : Z) : Z := (z + 2 ^ 31) mod 2 ^ 32 - 2 ^ 31.
Definition INT_MAX : Z := 2 ^ 31 - 1.
Definition INT_MIN : Z := - 2 ^ 31.
Definition LONG_MAX : Z := 2 ^ 63 - 1.

Lemma u32_small z : 0 ≤ z < 2 ^ 32 → u32 z = z.
Proof. apply Z.mod_small. Qed.
Lemma u64_small z : 0 ≤ z < 2 ^ 64 → u64 z = z.
Proof. apply Z.mod_small. Qed.
Lemma i32_small z : INT_MIN ≤ z ≤ INT_MAX → i32 z = z.
Proof.
  unfold i32, INT_MIN, INT_MAX. intros. rewrite Z.mod_small by lia. lia.
Qed.
Lemma u32_range z : 0 ≤ u32 z < 2 ^ 32.
Proof. apply Z.mod_pos_bound. lia. Qed.
Lemma u64_range z : 0 ≤ u64 z < 2 ^ 64.
Proof. apply Z.mod_pos_bound. lia. Qed.
Lemma u64_le z : 0 ≤ z → u64 z ≤ z.
Proof. intros. apply Z.mod_le; lia. Qed.
Lemma i32_range z : INT_MIN ≤ i32 z ≤ INT_MAX.
Proof.
  unfold i32, INT_MIN, INT_MAX.
  pose proof (Z.mod_pos_bound (z + 2 ^ 31) (2 ^ 32)). lia.
Qed.

(** ** Bytes: the representation of [std::string] and [std::vector<char>] *)
Abbreviation bytes := (list ascii).
Definition str (s : string) : bytes := String.list_ascii_of_string s.
Arguments str s%_string.

(** Arithmetic over the lengths of concatenations. *)
Ltac solve_length :=
  repeat first [ rewrite length_app in * | rewrite length_drop in *
               | rewrite length_take in * | progress simpl in * ]; lia.

(** ** Lists *)
Section lists.
Context {A B : Type}.
Implicit Types (l : list A) (f : A → B).

(** Keys without duplicates identify the elements. *)
Lemma NoDup_fmap_unique f l x y :
  NoDup (f <$> l) → x ∈ l → y ∈ l → f x = f y → x = y.
Proof.
  induction l as [|z l IH]; intros Hnd Hx Hy Hf; [by apply not_elem_of_nil in Hx|].
  rewrite fmap_cons in Hnd. apply NoDup_cons in Hnd as [Hz Hnd].
  apply elem_of_cons in Hx as [->|Hx]; apply elem_of_cons in Hy as [->|Hy]; [done| | |auto].
  - destruct Hz. rewrite Hf. by apply list_elem_of_fmap_2.
  - destruct Hz. rewrite <-Hf. by apply list_elem_of_fmap_2.
Qed.

Lemma filter_ext_in (P Q : A → Prop) `{∀ x, Decision (P x), ∀ x, Decision (Q x)} l :
  (∀ x, x ∈ l → P x ↔ Q x) → filter P l = filter Q l.
Proof.
  induction l as [|x l IH]; intros HPQ; [done|].
  rewrite !filter_cons, IH by (intros; by apply HPQ, list_elem_of_further).
  by apply decide_ext, HPQ, list_elem_of_here.
Qed.

Lemma NoDup_fmap_filter f (P : A → Prop) `{∀ x, Decision (P x)} l :
  NoDup (f <$> l) → NoDup (f <$> filter P l).
Proof.
  induction l as [|x l IH]; intros Hnd; [done|].
  rewrite fmap_cons in Hnd. apply NoDup_cons in Hnd as [Hx Hnd].
  rewrite filter_cons. case_decide; [|auto]. rewrite fmap_cons.
  apply NoDup_cons. split; [|auto]. intros Hin. destruct Hx.
  apply list_elem_of_fmap in Hin as (y & -> & Hy).
  apply list_elem_of_filter in Hy as [_ Hy]. by apply list_elem_of_fmap_2.
Qed.

Lemma list_filter_all (P : A → Prop) `{∀ x, Decision (P x)} l :
  Forall P l → filter P l = l.
Proof.
  induction 1 as [|x l Hx _ IH]; [done|]. by rewrite filter_cons_True, IH.
Qed.

Lemma list_filter_fmap f (P : B → Prop) `{∀ y, Decision (P y)} l :
  filter P (f <$> l) = f <$> filter (λ x, P (f x)) l.
Proof.
  induction l as [|x l IH]; [done|].
  rewrite fmap_cons, !filter_cons. case_decide; [|done]. by rewrite fmap_cons, IH.
Qed.

(** Replacing one element changes a concatenation in one place. *)
Lemma bind_insert_perm (f : A → list B) l i x y :
  l !! i = Some x →
  ∃ k, (l ≫= f) ≡ₚ f x ++ k ∧ (<[i:=y]> l ≫= f) ≡ₚ f y ++ k.
Proof.
  intros Hi. pose proof (lookup_lt_Some _ _ _ Hi).
  exists ((take i l ≫= f) ++ (drop (S i) l ≫= f)). split.
  - rewrite <-(take_drop_middle l i x) at 1 by done. rewrite bind_app, bind_cons.
    solve_Permutation.
  - rewrite insert_take_drop by done. rewrite bind_app, bind_cons. solve_Permutation.
Qed.

Lemma elem_of_insert_inv l i x y : y ∈ <[i:=x]> l → y = x ∨ y ∈ l.
Proof.
  intros (j & Hj)%list_elem_of_lookup. apply list_lookup_insert_Some in Hj as [(_ & -> & _)|[_ Hj]];
    [by left|right]. by eapply list_elem_of_lookup_2.
Qed.
End lists.

(** ** Counting the elements that satisfy a test *)
Section tally.
Context {A : Type} (f : A → bool).
Implicit Types (l : list A).

Definition tally l : nat := length (filter (λ x, f x = true) l).

Lemma tally_cons x l : tally (x :: l) = ((if f x then 1 else 0) + tally l)%nat.
Proof.
  unfold tally. rewrite filter_cons. destruct (f x); [by rewrite decide_True|by rewrite decide_False].
Qed.

Lemma tally_app l k : tally (l ++ k) = (tally l + tally k)%nat.
Proof. unfold tally. by rewrite filter_app, length_app. Qed.

Lemma tally_insert l i x y :
  l !! i = Some x →
  (tally (<[i := y]> l) + (if f x then 1 else 0) = tally l + (if f y then 1 else 0))%nat.
Proof.
  intros Hi. pose proof (lookup_lt_Some _ _ _ Hi).
  rewrite insert_take_drop by done. rewrite <-(take_drop_middle l i x Hi) at 3.
  rewrite !tally_app, !tally_cons. lia.
Qed.

Lemma tally_ge l i x : l !! i = Some x → ((if f x then 1 else 0) ≤ tally l)%nat.
Proof.
  intros Hi. rewrite <-(take_drop_middle l i x Hi), tally_app, tally_cons. lia.
Qed.

(** Two of them count for two. *)
Lemma tally_two_lt l i j x y :
  l !! i = Some x → l !! j = Some y → f x = true → f y = true → (i < j)%nat → (2 ≤ tally l)%nat.
Proof.
  intros Hi Hj Hx Hy Hlt.
  assert (drop (S i) l !! (j - S i)%nat = Some y) as Hd
    by (rewrite lookup_drop, <-Hj; f_equal; lia).
  pose proof (tally_ge _ _ _ Hd) as Hge. rewrite Hy in Hge.
  rewrite <-(take_drop_middle l i x Hi), tally_app, tally_cons, Hx. lia.
Qed.

Lemma tally_two l i j x y :
  l !! i = Some x → l !! j = Some y → f x = true → f y = true → i ≠ j → (2 ≤ tally l)%nat.
Proof.
  intros Hi Hj Hx Hy Hne. destruct (decide (i < j)%nat).
  - by apply (tally_two_lt l i j x y).
  - apply (tally_two_lt l j i y x); [done..|lia].
Qed.
End tally.
