(* ===== verification/CString.v ===== *)
(** * The parts of the C and C++ string libraries the program calls

    [std::find] and [std::search] over byte ranges, [atoi], and the decimal
    conversions [std::to_string] and [snprintf("%d")].  Ranges and strings
    are byte lists; an iterator is an offset and [last] is the length. *)

From S2P Require Import Prelude.
From stdpp Require Import pretty.
From Stdlib Require Import Lia.

(** ** C strings *)

(** [c_str()]: what a C function sees of a string. *)
Fixpoint c_str (b : bytes) : bytes :=
  match b with
  | [] => []
  | c :: b' => if decide (c = "000"%char) then [] else c :: c_str b'
  end.

(** [std::string] made of a pointer to [b]: it stops at the first NUL, and
    reads past the end of [b] if there is none. *)
Definition c_string (b : bytes) : outcome bytes :=
  if decide ("000"%char ∈ b) then Ret (c_str b) else Fault UndefinedBehaviour.

(** ** Searching *)

Fixpoint find_char (c : ascii) (s : bytes) : nat :=
  match s with
  | [] => 0
  | x :: s' => if decide (x = c) then 0 else S (find_char c s')
  end.

Fixpoint search (pat s : bytes) : nat :=
  if decide (pat `prefix_of` s) then 0
  else match s with
       | [] => 0
       | _ :: s' => S (search pat s')
       end.

Section searching.
Implicit Types (s t pat : bytes) (c : ascii).

Lemma find_char_le c s : (find_char c s ≤ length s)%nat.
Proof. induction s; simpl; [lia|]. case_decide; lia. Qed.

Lemma find_char_not_in c s : c ∉ s → find_char c s = length s.
Proof.
  induction s as [|x s IH]; intros Hin; simpl; [done|].
  apply not_elem_of_cons in Hin as [? ?]. rewrite decide_False by congruence.
  by rewrite IH.
Qed.

Lemma find_char_app c s t : c ∉ s → find_char c (s ++ c :: t) = length s.
Proof.
  induction s as [|x s IH]; intros Hin; simpl; [by rewrite decide_True|].
  apply not_elem_of_cons in Hin as [? ?]. rewrite decide_False by congruence.
  by rewrite IH.
Qed.

Lemma find_char_lt_in c s : (find_char c s < length s)%nat → c ∈ s.
Proof.
  induction s as [|x s IH]; simpl; [lia|]. case_decide; [set_solver|].
  intros. right. apply IH. lia.
Qed.

Lemma find_char_at c s :
  (find_char c s < length s)%nat → s !! find_char c s = Some c.
Proof.
  induction s as [|x s IH]; simpl; [lia|]. case_decide; [by subst|].
  intros. apply IH. lia.
Qed.

Lemma search_le pat s : (search pat s ≤ length s)%nat.
Proof. induction s; simpl; case_decide; simpl in *; lia. Qed.

(** A match that is not [last] is a real occurrence of a nonempty pattern. *)
Lemma search_found pat s :
  pat ≠ [] → (search pat s < length s)%nat → pat `prefix_of` drop (search pat s) s.
Proof.
  intros Hne. induction s as [|x s IH]; simpl.
  - case_decide; simpl; lia.
  - case_decide; simpl; [by rewrite ?drop_0|]. intros. apply IH. lia.
Qed.

Lemma search_found_fits pat s :
  pat ≠ [] → (search pat s < length s)%nat →
  (search pat s + length pat ≤ length s)%nat.
Proof.
  intros Hne Hlt. pose proof (prefix_length _ _ (search_found _ _ Hne Hlt)) as H.
  rewrite length_drop in H. lia.
Qed.

(** It is the first one. *)
Lemma search_first pat s i :
  (i < search pat s)%nat → ¬ pat `prefix_of` drop i s.
Proof.
  revert i. induction s as [|x s IH]; intros i; simpl.
  - case_decide; lia.
  - case_decide; [lia|]. destruct i as [|i]; simpl; [done|].
    intros. apply IH. lia.
Qed.

(** Appending input does not move a match that was already there. *)
Lemma search_app pat s t :
  pat ≠ [] → (search pat s < length s)%nat → search pat (s ++ t) = search pat s.
Proof.
  intros Hne. induction s as [|x s IH]; simpl; [case_decide; simpl; lia|].
  case_decide as H1; case_decide as H2; simpl; [done| | |].
  - intros _. exfalso. apply H2. by apply (prefix_app_r _ (x :: s)).
  - intros Hlt. exfalso. apply H1.
    pose proof (search_found_fits pat s Hne ltac:(lia)).
    destruct (prefix_weak_total pat (x :: s) (x :: s ++ t)) as [?|Hp];
      [done | by apply (prefix_app_r _ (x :: s)) | done |].
    apply prefix_length in Hp. simpl in Hp. lia.
  - intros. f_equal. apply IH. lia.
Qed.
End searching.

(** ** [atoi] *)

#[local] Open Scope Z_scope.

(** [isspace] in the C locale. *)
Definition isspace (c : ascii) : bool :=
  let n := N_of_ascii c in ((9 <=? n)%N && (n <=? 13)%N) || (n =? 32)%N.

Definition digit_value (c : ascii) : option Z :=
  let n := Z.of_N (N_of_ascii c) in
  if (48 <=? n) && (n <=? 57) then Some (n - 48) else None.

Fixpoint digits_value (acc : Z) (s : bytes) : Z :=
  match s with
  | [] => acc
  | c :: s' =>
      match digit_value c with
      | Some d => digits_value (10 * acc + d) s'
      | None => acc
      end
  end.

Fixpoint skip_isspace (s : bytes) : bytes :=
  match s with
  | c :: s' => if isspace c then skip_isspace s' else s
  | [] => []
  end.

(** The integer the subject sequence denotes, before any range check. *)
Definition atoi_value (s : bytes) : Z :=
  match skip_isspace s with
  | "-"%char :: s' => - digits_value 0 s'
  | "+"%char :: s' => digits_value 0 s'
  | s' => digits_value 0 s'
  end.

(** The behaviour of [atoi] is undefined when the value is not an [int]. *)
Definition atoi (s : bytes) : outcome Z :=
  let v := atoi_value s in
  if (INT_MIN <=? v) && (v <=? INT_MAX) then Ret v else Fault UndefinedBehaviour.

(** ** Decimal conversion: [std::to_string] and the conversion [%d] *)
Definition to_string (z : Z) : bytes := str (pretty z).

Section decimal.
Implicit Types (s t : bytes) (x : N).

Lemma str_cons c (s : string) : str (String c s) = c :: str s.
Proof. done. Qed.

Lemma digit_value_pretty x :
  (x < 10)%N → digit_value (pretty_N_char x) = Some (Z.of_N x).
Proof.
  intros Hx. assert (x = 0 ∨ x = 1 ∨ x = 2 ∨ x = 3 ∨ x = 4 ∨ x = 5 ∨ x = 6
    ∨ x = 7 ∨ x = 8 ∨ x = 9)%N as Hcases by lia.
  by destruct_or! Hcases; subst.
Qed.

Lemma digits_value_pretty_go x (s : string) :
  digits_value 0 (str (pretty_N_go x s)) = digits_value (Z.of_N x) (str s).
Proof.
  revert s. induction (N.lt_wf_0 x) as [x _ IH]; intros s.
  destruct (decide (x = 0)%N) as [->|Hx]; [by rewrite pretty_N_go_0|].
  rewrite pretty_N_go_step by lia.
  rewrite IH by (apply N.div_lt; lia).
  rewrite str_cons. simpl. rewrite digit_value_pretty by (apply N.mod_lt; lia).
  f_equal. rewrite (N.div_mod' x 10) at 3. lia.
Qed.

(** No sign, no space: the first character of a printed number is a digit. *)
Definition digit_char c : Prop := ∃ x, (x < 10)%N ∧ c = pretty_N_char x.

Lemma pretty_go_digits x (s : string) :
  Forall digit_char (str s) → Forall digit_char (str (pretty_N_go x s)).
Proof.
  revert s. induction (N.lt_wf_0 x) as [x _ IH]; intros s Hs.
  destruct (decide (x = 0)%N) as [->|Hx]; [by rewrite pretty_N_go_0|].
  rewrite pretty_N_go_step by lia. apply IH; [apply N.div_lt; lia|].
  rewrite str_cons. constructor; [|done].
  exists (x `mod` 10)%N. split; [apply N.mod_lt; lia | done].
Qed.

Lemma pretty_N_digits x : Forall digit_char (str (pretty x)).
Proof.
  unfold pretty, pretty_N. case_decide; simpl.
  - constructor; [|constructor]. by exists 0%N.
  - apply pretty_go_digits. constructor.
Qed.

Lemma digit_char_not_space c : digit_char c → isspace c = false.
Proof.
  intros (x & Hx & ->). assert (x = 0 ∨ x = 1 ∨ x = 2 ∨ x = 3 ∨ x = 4 ∨ x = 5
    ∨ x = 6 ∨ x = 7 ∨ x = 8 ∨ x = 9)%N as Hcases by lia.
  by destruct_or! Hcases; subst.
Qed.

Lemma digit_char_ne c d : digit_char c → digit_value d = None → c ≠ d.
Proof. intros (x & Hx & ->) Hd <-. by rewrite digit_value_pretty in Hd. Qed.

(** A number ends at the first character that is not a digit. *)
Lemma digits_value_stop a s t :
  match t with [] => True | c :: _ => digit_value c = None end →
  digits_value a (s ++ t) = digits_value a s.
Proof.
  intros Ht. revert a. induction s as [|c s IH]; intros a; simpl.
  - destruct t as [|c t]; simpl; [done|]. by rewrite Ht.
  - destruct (digit_value c); [apply IH | done].
Qed.

Lemma to_string_nonneg z : 0 ≤ z → to_string z = str (pretty (Z.to_N z)).
Proof. by destruct z. Qed.

Lemma to_string_digits z : 0 ≤ z → Forall digit_char (to_string z).
Proof. intros. rewrite to_string_nonneg by done. apply pretty_N_digits. Qed.

Lemma digits_value_to_string z : 0 ≤ z → digits_value 0 (to_string z) = z.
Proof.
  intros. rewrite to_string_nonneg by done. unfold pretty, pretty_N. case_decide.
  - simpl. lia.
  - rewrite digits_value_pretty_go. simpl. lia.
Qed.

Lemma to_string_nonempty z : to_string z ≠ [].
Proof.
  destruct z as [|p|p]; [done| |done]. intros H.
  pose proof (digits_value_to_string (Z.pos p) ltac:(lia)) as E. by rewrite H in E.
Qed.

Lemma to_string_inj z1 z2 : to_string z1 = to_string z2 → z1 = z2.
Proof.
  unfold to_string, str. intros H.
  apply (f_equal String.string_of_list_ascii) in H.
  rewrite !String.string_of_list_ascii_of_string in H. by apply (inj pretty).
Qed.

Lemma skip_isspace_pad s t :
  Forall (λ c, isspace c = true) s →
  match t with [] => True | c :: _ => isspace c = false end →
  skip_isspace (s ++ t) = t.
Proof.
  intros Hs Ht. induction Hs as [|c s Hc _ IH]; simpl.
  - destruct t; simpl; [done|]. by rewrite Ht.
  - by rewrite Hc.
Qed.

(** [atoi] reads back what was printed, after leading white space and up to
    the first character that is not a digit. *)
Lemma atoi_to_string pad z t :
  Forall (λ c, isspace c = true) pad → 0 ≤ z ≤ INT_MAX →
  match t with [] => True | c :: _ => digit_value c = None end →
  atoi (pad ++ to_string z ++ t) = Ret z.
Proof.
  intros Hpad Hz Ht. unfold atoi, atoi_value.
  pose proof (to_string_digits z ltac:(lia)) as Hd.
  pose proof (to_string_nonempty z) as Hne.
  pose proof (digits_value_to_string z ltac:(lia)) as Hv.
  destruct (to_string z) as [|c s]; [done|].
  apply Forall_cons in Hd as [Hc _].
  rewrite skip_isspace_pad; [|done| by apply digit_char_not_space]. simpl.
  assert (c ≠ "-"%char ∧ c ≠ "+"%char) as [Hm Hp]
    by (split; by apply digit_char_ne).
  replace (match c with "-"%char => _ | "+"%char => _ | _ => _ end)
    with (digits_value 0 ((c :: s) ++ t)).
  - rewrite digits_value_stop by auto. rewrite Hv.
    replace (INT_MIN <=? z) with true by (unfold INT_MIN; lia).
    by replace (z <=? INT_MAX) with true by lia.
  - destruct c as [[] [] [] [] [] [] [] []]; done.
Qed.
End decimal.

Lemma str_length (s : string) : length (str s) = String.length s.
Proof. induction s as [|c s IH]; [done|]. simpl. by rewrite <-IH. Qed.

Lemma pretty_N_go_length k n s :
  (n < 10 ^ N.of_nat k)%N → (String.length (pretty_N_go n s) ≤ k + String.length s)%nat.
Proof.
  revert n s. induction k as [|k IH]; intros n s Hn.
  { assert (n = 0%N) as -> by (simpl in Hn; lia). by rewrite pretty_N_go_0. }
  destruct (N.eq_dec n 0%N) as [->|Hz]; [rewrite pretty_N_go_0; lia|].
  rewrite pretty_N_go_step by lia. etrans; [apply IH|simpl; lia].
  apply N.Div0.div_lt_upper_bound. rewrite Nat2N.inj_succ, N.pow_succ_r' in Hn. lia.
Qed.

(** An [int] has at most ten digits. *)
Lemma to_string_short id : 0 ≤ id ≤ INT_MAX → (length (to_string id) ≤ 10)%nat.
Proof.
  intros Hid. rewrite to_string_nonneg by lia.
  rewrite str_length. unfold pretty, pretty_N. case_decide; [simpl; lia|].
  etrans; [apply (pretty_N_go_length 10)|simpl; lia].
  unfold INT_MAX in Hid. change (10 ^ N.of_nat 10)%N with 10000000000%N. lia.
Qed.
