(* ===== verification/HttpContext.v ===== *)
(** * [_HttpContext]: framing HTTP requests out of a byte buffer

    Models src/Http/_HttpContext.h and src/Http/_HttpContext.cpp.  The class
    is the record [HttpContext]; iterators into the buffer are offsets.
    [praseRequestLine] (the source's spelling) is written over the suffix of
    the buffer that starts at the scanning pointer, so that reading past the
    buffer is visible as undefined behaviour; [parseRequest] is the source's
    state machine, one [parse_step] per iteration of its [while (hasMore)]. *)

From S2P Require Import Prelude CString.
From Stdlib Require Import Lia.

#[local] Open Scope Z_scope.

(** ** The class *)

Inductive HttpRequestParseState :=
  | kExpectRequestLine
  | kExpectHeaders
  | kExpectBody
  | kGotAll.

#[export] Instance HttpRequestParseState_eq_dec : EqDecision HttpRequestParseState.
Proof. solve_decision. Defined.

Record HttpContext := mkHttpContext {
  state_ : HttpRequestParseState;
  request_method : bytes;
  request_url : bytes;
  hasCookie_ : bool;
}.

Definition HttpContext_new : HttpContext :=
  mkHttpContext kExpectRequestLine [] [] true.

Definition set_state (st : HttpRequestParseState) (c : HttpContext) : HttpContext :=
  mkHttpContext st (request_method c) (request_url c) (hasCookie_ c).
Definition set_method (m : bytes) (c : HttpContext) : HttpContext :=
  mkHttpContext (state_ c) m (request_url c) (hasCookie_ c).
Definition set_url (u : bytes) (c : HttpContext) : HttpContext :=
  mkHttpContext (state_ c) (request_method c) u (hasCookie_ c).

Definition reset (c : HttpContext) : HttpContext :=
  mkHttpContext kExpectRequestLine [] [] (hasCookie_ c).

Definition gotAll (c : HttpContext) : bool := bool_decide (state_ c = kGotAll).
Definition getRequestMethod (c : HttpContext) : bytes := request_method c.
Definition getRequestUrl (c : HttpContext) : bytes := request_url c.
Definition hasCookie (c : HttpContext) : bool := hasCookie_ c.
Definition GetMethod : bytes := str "Get".
Definition isResponseCompelete (buf : bytes) : bool := false.
Definition createResponse (content : bytes) : bytes := content.

(** ** The request line

    [s] is the buffer from [start] on; [tail] is how many bytes of it lie at
    or after [end], so [start == end] reads [length s = tail]. *)
Section request_line.
Context (tail : nat).

(** [while (start != end && *start != ' ') { token += *start; ++start; }] *)
Fixpoint scan_token (token s : bytes) : outcome (bytes * bytes) :=
  if decide (length s = tail) then Ret (token, s)
  else match s with
       | [] => Fault UndefinedBehaviour
       | x :: s' =>
           if decide (x = " "%char) then Ret (token, s)
           else scan_token (token ++ [x]) s'
       end.

(** [while ( *start == ' ') ++start;] *)
Fixpoint skip_spaces (s : bytes) : outcome bytes :=
  match s with
  | [] => Fault UndefinedBehaviour
  | x :: s' => if decide (x = " "%char) then skip_spaces s' else Ret s
  end.
End request_line.

Definition praseRequestLine (c : HttpContext) (buf : bytes) (stop : nat)
    : outcome (HttpContext * bool) :=
  let tail := (length buf - stop)%nat in
  '(m, s1) ← scan_token tail (request_method c) buf;
  let c := set_method m c in
  if decide (length s1 = tail) then Ret (c, false)
  else
    s2 ← skip_spaces s1;
    if decide (length s2 = tail) then Ret (c, false)
    else
      '(u, _) ← scan_token tail (request_url c) s2;
      Ret (set_url u c, true).

(** ** The parser's loop *)

Definition CRLF : bytes := ["013"; "010"]%char.
Definition SP : ascii := " "%char.
Definition COLON : ascii := ":"%char.
Definition ContentLength : bytes := str "Content-Length".

Record parse_state := mkParse {
  p_ctx : HttpContext;
  p_ok : bool;
  p_bodySize : Z;        (* unsigned int *)
  p_it : nat;            (* it - buf.begin() *)
}.

(** One header line: an updated [bodySize], or [None] for a line without a
    colon, which ends the headers. *)
Definition parse_header (line : bytes) (bodySize : Z) : outcome (option Z) :=
  let colon := find_char COLON line in
  if decide (colon = length line) then Ret None
  else if decide (take colon line = ContentLength) then
    n ← atoi (drop (S colon) line); Ret (Some (u32 n))
  else Ret (Some bodySize).

Definition parse_step (buf : bytes) (s : parse_state)
    : outcome (parse_state + parse_state) :=
  let c := p_ctx s in
  let it := p_it s in
  match state_ c with
  | kExpectRequestLine =>
      let it := (it + search CRLF (drop it buf))%nat in
      if decide (it = length buf) then Ret (inr (mkParse c false (p_bodySize s) it))
      else
        '(c, ok) ← praseRequestLine c buf it;
        if (ok : bool)
        then Ret (inl (mkParse (set_state kExpectHeaders c) true (p_bodySize s) (it + 2)))
        else Ret (inr (mkParse c false (p_bodySize s) it))
  | kExpectHeaders =>
      let n := search CRLF (drop it buf) in
      if decide ((it + n)%nat = length buf)
      then Ret (inr (mkParse c false (p_bodySize s) it))
      else
        h ← parse_header (take n (drop it buf)) (p_bodySize s);
        match h with
        | Some b => Ret (inl (mkParse c (p_ok s) b (it + n + 2)))
        | None => Ret (inl (mkParse (set_state kExpectBody c) (p_ok s)
                              (p_bodySize s) (it + n + 2)))
        end
  | kExpectBody =>
      let ok :=
        if decide (p_bodySize s ≠ 0 ∧
                   p_bodySize s ≤ u64 (Z.of_nat (length buf) - Z.of_nat it))
        then true
        else bool_decide (p_bodySize s = 0) in
      Ret (inr (mkParse c ok (p_bodySize s) it))
  | kGotAll => Ret (inl s)
  end.

Definition parse_start (c : HttpContext) : parse_state :=
  mkParse (set_state kExpectRequestLine c) false 0 0.

(** [std::pair<bool,int>(ok, it - buf.begin() + bodySize)] *)
Definition parse_result (s : parse_state) : HttpContext * (bool * Z) :=
  (p_ctx s, (p_ok s, i32 (Z.of_nat (p_it s) + p_bodySize s))).

Definition parseRequest_fuel (fuel : nat) (c : HttpContext) (buf : bytes)
    : option (outcome (HttpContext * (bool * Z))) :=
  fmap (M:=outcome) parse_result <$> run_loop (parse_step buf) fuel (parse_start c).

(** [length buf + 3] iterations always suffice ([parseRequest_terminates]):
    each line read moves [it] by two, and the two state changes need one. *)
Definition parseRequest (c : HttpContext) (buf : bytes)
    : option (outcome (HttpContext * (bool * Z))) :=
  parseRequest_fuel (length buf + 3) c buf.

#[global] Arguments CRLF : simpl never.
#[global] Arguments ContentLength : simpl never.
Ltac crlf_length := unfold CRLF in *; solve_length.

(** ** Rendering: the requests the parser is meant to accept *)

Definition render_header (h : bytes * bytes) : bytes := h.1 ++ [COLON] ++ h.2 ++ CRLF.

Definition render_request (method url version : bytes)
    (headers : list (bytes * bytes)) (body : bytes) : bytes :=
  method ++ [SP] ++ url ++ [SP] ++ version ++ CRLF
  ++ mjoin (render_header <$> headers)
  ++ (if decide (body = []) then []
      else render_header (ContentLength, SP :: to_string (Z.of_nat (length body))))
  ++ CRLF ++ body.

(** ** The request line: functional description *)

(** The bytes up to the first space, and the rest from that space on. *)
Definition first_word (s : bytes) : bytes := take (find_char SP s) s.
Definition after_word (s : bytes) : bytes := drop (find_char SP s) s.

Fixpoint ltrim (s : bytes) : bytes :=
  match s with
  | [] => []
  | x :: s' => if decide (x = SP) then ltrim s' else s
  end.

(** What [praseRequestLine] computes when the line is followed by a
    non-space byte, as the carriage return is. *)
Definition request_line_spec (c : HttpContext) (line : bytes) : HttpContext * bool :=
  let c1 := set_method (request_method c ++ first_word line) c in
  if decide (after_word line = []) then (c1, false)
  else if decide (ltrim (after_word line) = []) then (c1, false)
  else (set_url (request_url c ++ first_word (ltrim (after_word line))) c1, true).

Section request_line_facts.
Context (x : ascii) (rest : bytes) (Hx : x ≠ SP).
Abbreviation tail := (S (length rest)).

Lemma length_is_tail line : length (line ++ x :: rest) = tail ↔ line = [].
Proof.
  rewrite length_app. simpl. destruct line; simpl; [split; [done|lia]|].
  split; [lia | done].
Qed.

Lemma scan_token_spec token line :
  scan_token tail token (line ++ x :: rest)
  = Ret (token ++ first_word line, after_word line ++ x :: rest).
Proof.
  unfold first_word, after_word. revert token.
  induction line as [|y line IH]; intros token.
  - simpl. rewrite decide_True by done. by rewrite app_nil_r.
  - cbn [scan_token app]. rewrite decide_False by (simpl; rewrite length_app; simpl; lia).
    simpl. fold SP. case_decide; subst; simpl; [by rewrite app_nil_r|].
    rewrite IH. by rewrite <-app_assoc.
Qed.

Lemma skip_spaces_spec line :
  skip_spaces (line ++ x :: rest) = Ret (ltrim line ++ x :: rest).
Proof.
  induction line as [|y line IH]; simpl; fold SP; [by rewrite decide_False|].
  by case_decide.
Qed.

Lemma praseRequestLine_spec c line :
  praseRequestLine c (line ++ x :: rest) (length line)
  = Ret (request_line_spec c line).
Proof.
  unfold praseRequestLine, request_line_spec.
  replace (length (line ++ x :: rest) - length line)%nat with tail
    by (rewrite length_app; simpl; lia).
  rewrite scan_token_spec. simpl.
  rewrite (decide_ext _ _ _ _ (length_is_tail (after_word line))).
  case_decide; [done|]. rewrite skip_spaces_spec. simpl.
  rewrite (decide_ext _ _ _ _ (length_is_tail (ltrim (after_word line)))).
  case_decide; [done|]. by rewrite scan_token_spec.
Qed.
End request_line_facts.

(** A found CRLF splits the buffer. *)
Lemma search_CRLF_split (s : bytes) :
  search CRLF s ≠ length s →
  ∃ line rest, s = line ++ CRLF ++ rest ∧ search CRLF s = length line.
Proof.
  intros Hne. pose proof (search_le CRLF s).
  destruct (search_found CRLF s) as [rest Hrest]; [done|lia|].
  exists (take (search CRLF s) s), rest. split.
  - by rewrite <-Hrest, take_drop.
  - rewrite length_take. lia.
Qed.

Lemma search_CRLF_app (line rest : bytes) :
  "013"%char ∉ line → search CRLF (line ++ CRLF ++ rest) = length line.
Proof.
  induction line as [|y line IH]; intros Hin; [done|].
  apply not_elem_of_cons in Hin as [? ?]. cbn [app search].
  rewrite decide_False.
  - cbn [length]. f_equal. by apply IH.
  - intros Hp. by apply prefix_cons_inv_1 in Hp.
Qed.

(** ** The loop: invariant, measure, and the shape of one step *)

Section parser.
Context (buf : bytes).

(** A state after the request line has read one CRLF, the body state two. *)
Definition read_at_least (st : HttpRequestParseState) : nat :=
  match st with kExpectHeaders => 2 | kExpectBody => 4 | _ => 0 end.

Definition parse_inv (s : parse_state) : Prop :=
  (read_at_least (state_ (p_ctx s)) ≤ p_it s ≤ length buf)%nat ∧
  state_ (p_ctx s) ≠ kGotAll ∧ 0 ≤ p_bodySize s < 2 ^ 32.

Definition parse_rank (st : HttpRequestParseState) : nat :=
  match st with kExpectRequestLine => 2 | kExpectHeaders => 1 | _ => 0 end.

Definition parse_measure (s : parse_state) : nat :=
  (length buf - p_it s + parse_rank (state_ (p_ctx s)))%nat.

Definition next_crlf (it : nat) : nat := (it + search CRLF (drop it buf))%nat.

Lemma next_crlf_found it :
  (it ≤ length buf)%nat → next_crlf it ≠ length buf →
  (next_crlf it + 2 ≤ length buf)%nat ∧ buf !! next_crlf it = Some "013"%char.
Proof.
  unfold next_crlf. intros Hit Hne.
  destruct (search_CRLF_split (drop it buf)) as (line & rest & E & ->).
  { rewrite length_drop. lia. }
  pose proof (f_equal length E) as L.
  rewrite length_drop, !length_app in L. simpl in L. split; [lia|].
  rewrite <-lookup_drop, E.
  change (CRLF ++ rest) with ("013"%char :: "010"%char :: rest).
  by rewrite list_lookup_middle.
Qed.

Lemma praseRequestLine_at_CR c stop :
  buf !! stop = Some "013"%char →
  praseRequestLine c buf stop = Ret (request_line_spec c (take stop buf)).
Proof.
  intros Hcr. pose proof (lookup_lt_Some _ _ _ Hcr).
  pose proof (praseRequestLine_spec "013"%char (drop (S stop) buf) ltac:(done)
    c (take stop buf)) as E.
  rewrite take_drop_middle in E by done. by rewrite length_take_le in E by lia.
Qed.

Lemma request_line_spec_state c line :
  state_ (request_line_spec c line).1 = state_ c ∧
  hasCookie_ (request_line_spec c line).1 = hasCookie_ c.
Proof. unfold request_line_spec. by repeat case_decide. Qed.

Lemma parse_step_request_line s :
  state_ (p_ctx s) = kExpectRequestLine → (p_it s ≤ length buf)%nat →
  let stop := next_crlf (p_it s) in
  let r := request_line_spec (p_ctx s) (take stop buf) in
  parse_step buf s =
    if decide (stop = length buf)
    then Ret (inr (mkParse (p_ctx s) false (p_bodySize s) stop))
    else if r.2
    then Ret (inl (mkParse (set_state kExpectHeaders r.1) true (p_bodySize s) (stop + 2)))
    else Ret (inr (mkParse r.1 false (p_bodySize s) stop)).
Proof.
  intros Hst Hit stop r. unfold parse_step. rewrite Hst.
  fold (next_crlf (p_it s)). fold stop. case_decide; [done|].
  rewrite praseRequestLine_at_CR by (by apply next_crlf_found). simpl.
  fold r. by destruct r as [? []].
Qed.

Lemma parse_header_range line b b' :
  0 ≤ b < 2 ^ 32 → parse_header line b = Ret (Some b') → 0 ≤ b' < 2 ^ 32.
Proof.
  unfold parse_header. repeat case_decide; intros; simplify_outcome; [|done].
  apply u32_range.
Qed.

(** Every iteration keeps the invariant and decreases the measure; a final
    state satisfies it too. *)
Lemma parse_step_inl s s' :
  parse_inv s → parse_step buf s = Ret (inl s') →
  parse_inv s' ∧ (parse_measure s' < parse_measure s)%nat.
Proof.
  intros (Hit & Hst & Hb) Hstep. unfold parse_inv, parse_measure.
  destruct (state_ (p_ctx s)) eqn:Est.
  - rewrite parse_step_request_line in Hstep by (done || lia).
    repeat case_decide; [done|].
    destruct (next_crlf_found (p_it s)) as [? _]; [lia|done|].
    case_match; simplify_eq/=. unfold next_crlf in *.
    split; [split; [|split]; [lia|done|done]|]. lia.
  - unfold parse_step in Hstep. rewrite Est in Hstep. fold (next_crlf (p_it s)) in Hstep.
    case_decide; [done|].
    destruct (next_crlf_found (p_it s)) as [? _]; [lia|done|].
    unfold next_crlf in *. simpl in *.
    simplify_outcome. case_match; simplify_outcome; rewrite ?Est; simpl.
    + split; [split; [|split]; [lia|done|by eapply parse_header_range]|]. lia.
    + split; [split; [|split]; [lia|done|done]|]. lia.
  - unfold parse_step in Hstep. rewrite Est in Hstep. repeat case_decide; simplify_eq.
  - done.
Qed.

Lemma parse_step_inr s s' :
  parse_inv s → parse_step buf s = Ret (inr s') →
  p_ok s' = true →
  s' = mkParse (p_ctx s) true (p_bodySize s) (p_it s) ∧
  state_ (p_ctx s) = kExpectBody ∧
  Z.of_nat (p_it s) + p_bodySize s ≤ Z.of_nat (length buf).
Proof.
  intros (Hit & Hst & Hb) Hstep Hok. destruct (state_ (p_ctx s)) eqn:Est.
  - rewrite parse_step_request_line in Hstep by (done || lia).
    repeat case_decide; [by simplify_eq|]. by case_match; simplify_eq.
  - unfold parse_step in Hstep. rewrite Est in Hstep. case_decide; simplify_outcome.
    by case_match; simplify_eq.
  - unfold parse_step in Hstep. rewrite Est in Hstep. simplify_outcome.
    case_decide as D; simpl in *.
    + split; [done|]. split; [done|].
      pose proof (u64_le (Z.of_nat (length buf) - Z.of_nat (p_it s))). lia.
    + split; [by rewrite Hok|]. apply bool_decide_eq_true in Hok. split; [done|lia].
  - done.
Qed.
End parser.

Lemma parse_start_inv buf c : parse_inv buf (parse_start c).
Proof. split; [simpl; lia|]. split; [done|simpl; lia]. Qed.

(** No iteration enters [kGotAll] or touches the cookie flag. *)
Lemma parse_step_context buf s r :
  parse_inv buf s → parse_step buf s = Ret r →
  let s' := match r with inl s' => s' | inr s' => s' end in
  state_ (p_ctx s') ≠ kGotAll ∧ hasCookie_ (p_ctx s') = hasCookie_ (p_ctx s).
Proof.
  intros (Hit & Hst & Hb) Hstep. destruct (state_ (p_ctx s)) eqn:Est.
  - rewrite parse_step_request_line in Hstep by (done || lia).
    destruct (request_line_spec_state (p_ctx s) (take (next_crlf buf (p_it s)) buf))
      as [E1 E2].
    repeat case_decide; simplify_eq/=; [by rewrite Est|].
    case_match; simplify_eq/=; [done|]. by rewrite E1, Est.
  - unfold parse_step in Hstep. rewrite Est in Hstep. case_decide; simplify_outcome.
    + by rewrite Est.
    + case_match; simplify_eq/=; [by rewrite Est|done].
  - unfold parse_step in Hstep. rewrite Est in Hstep. simplify_outcome. by rewrite Est.
  - done.
Qed.

Lemma parse_keeps_context buf n c s' :
  run_loop (parse_step buf) n (parse_start c) = Some (Ret s') → hasCookie_ c = true →
  state_ (p_ctx s') ≠ kGotAll ∧ hasCookie_ (p_ctx s') = true.
Proof.
  intros Hrun Hck.
  refine (run_loop_invariant (parse_step buf)
    (λ s, parse_inv buf s ∧ hasCookie_ (p_ctx s) = true)
    (λ o, match o with Ret s => state_ (p_ctx s) ≠ kGotAll ∧ hasCookie_ (p_ctx s) = true
          | Fault _ => True end) _ _ _ _ _ Hrun);
    [|split; [apply parse_start_inv|done]].
  intros s [HI Hs]. destruct (parse_step buf s) as [[s1|s1]|] eqn:E; [| |done];
    destruct (parse_step_context _ _ _ HI E) as [Hst Heq]; simpl in *.
  - split; [by apply (parse_step_inl buf s)|congruence].
  - split; [done|congruence].
Qed.

(** How a run ends: in the exit of one step taken from a good state, or in the
    fault of one. *)
Lemma parse_loop_end buf n c o :
  run_loop (parse_step buf) n (parse_start c) = Some o →
  ∃ s, parse_inv buf s ∧
    match o with
    | Ret s' => parse_step buf s = Ret (inr s')
    | Fault f => parse_step buf s = Fault f
    end.
Proof.
  intros Hrun. revert Hrun.
  apply (run_loop_invariant (parse_step buf) (parse_inv buf)
    (λ o, ∃ s, parse_inv buf s ∧ match o with
      | Ret s' => parse_step buf s = Ret (inr s')
      | Fault f => parse_step buf s = Fault f end)); [|apply parse_start_inv].
  intros s HI. destruct (parse_step buf s) as [[s'|r]|f] eqn:E.
  - by apply (parse_step_inl buf s s').
  - by exists s.
  - by exists s.
Qed.

Lemma parseRequest_fuel_Ret fuel c buf c' ok n :
  parseRequest_fuel fuel c buf = Some (Ret (c', (ok, n))) →
  ∃ s', run_loop (parse_step buf) fuel (parse_start c) = Some (Ret s') ∧
    p_ctx s' = c' ∧ p_ok s' = ok ∧ n = i32 (Z.of_nat (p_it s') + p_bodySize s').
Proof.
  unfold parseRequest_fuel, parse_result.
  destruct (run_loop _ _ _) as [[s'|f]|] eqn:E; simpl; intros; simplify_eq. eauto.
Qed.

Lemma parse_total (c : HttpContext) (buf : bytes) :
  ∃ o, parseRequest c buf = Some o ∧
       ∀ fuel, (length buf + 3 ≤ fuel)%nat → parseRequest_fuel fuel c buf = Some o.
Proof.
  destruct (run_loop_terminates (parse_step buf) (parse_inv buf) (parse_measure buf))
    with (fuel := (length buf + 3)%nat) (s := parse_start c) as [o Ho].
  - intros s s' HI Hstep. by apply parse_step_inl.
  - apply parse_start_inv.
  - unfold parse_measure. simpl. lia.
  - exists (fmap (M:=outcome) parse_result o).
    unfold parseRequest, parseRequest_fuel. rewrite Ho. split; [done|].
    intros fuel Hle. by rewrite (run_loop_mono _ _ _ _ _ Ho Hle).
Qed.

(** C18. [parseRequest] always terminates: on every buffer and whatever state
    the context was left in, [length buf + 3] iterations of its
    [while (hasMore)] loop end it, and more fuel changes nothing. *)
Theorem parseRequest_terminates (c : HttpContext) (buf : bytes) :
  ∃ o, parseRequest c buf = Some o ∧
       ∀ fuel, (length buf + 3 ≤ fuel)%nat → parseRequest_fuel fuel c buf = Some o.
Proof. apply parse_total. Qed.

(** Whatever fuel produced an answer, it is [parseRequest]'s. *)
Lemma parseRequest_fuel_eq fuel c buf o :
  parseRequest_fuel fuel c buf = Some o → parseRequest c buf = Some o.
Proof.
  destruct (parse_total c buf) as (o' & Ho' & Hmore). intros Ho.
  unfold parseRequest_fuel in Ho.
  destruct (run_loop _ _ _) as [m|] eqn:E; [|done].
  specialize (Hmore (Nat.max fuel (length buf + 3)) ltac:(lia)).
  unfold parseRequest_fuel in Hmore.
  apply run_loop_mono with (m := Nat.max fuel (length buf + 3)) in E; [|lia].
  rewrite E in Hmore. simpl in *. congruence.
Qed.

Lemma parse_in_bounds (c c' : HttpContext) (buf : bytes) (n : Z) :
  Z.of_nat (length buf) ≤ INT_MAX →
  parseRequest c buf = Some (Ret (c', (true, n))) →
  4 ≤ n ≤ Z.of_nat (length buf).
Proof.
  intros Hlen (s' & Hrun & _ & Hok & ->)%parseRequest_fuel_Ret.
  destruct (parse_loop_end _ _ _ _ Hrun) as (s & HI & Hstep).
  destruct (parse_step_inr buf s s' HI Hstep Hok) as (-> & Hbody & Hle).
  destruct HI as (H4 & _ & Hb). rewrite Hbody in H4. simpl in *.
  rewrite i32_small; unfold INT_MIN, INT_MAX in *; lia.
Qed.

(** C19. Framing is in bounds: when [parseRequest] reports a complete request
    in a buffer whose size an [int] can hold, the length it returns is
    positive and at most the size of the buffer, so the callers' [retrieve],
    [erase] and [send] stay inside it. *)
Theorem parseRequest_in_bounds (c c' : HttpContext) (buf : bytes) (n : Z) :
  Z.of_nat (length buf) ≤ INT_MAX →
  parseRequest c buf = Some (Ret (c', (true, n))) →
  4 ≤ n ≤ Z.of_nat (length buf).
Proof.
  apply parse_in_bounds.
Qed.

(** ** More input does not disturb a complete request *)

Lemma next_crlf_app buf t it :
  (it ≤ length buf)%nat → next_crlf buf it ≠ length buf →
  next_crlf (buf ++ t) it = next_crlf buf it ∧ next_crlf buf it ≠ length (buf ++ t).
Proof.
  intros Hit Hne. pose proof (search_le CRLF (drop it buf)) as Hle.
  rewrite length_drop in Hle. unfold next_crlf in *.
  rewrite drop_app_le by lia. rewrite search_app; [|done|].
  - split; [done|]. rewrite length_app. lia.
  - rewrite length_drop. lia.
Qed.

Lemma parse_step_app buf t s r :
  parse_inv buf s → Z.of_nat (length (buf ++ t)) < 2 ^ 64 →
  parse_step buf s = Ret r →
  match r with inl _ => True | inr s' => p_ok s' = true end →
  parse_step (buf ++ t) s = Ret r.
Proof.
  intros HI Hlen Hstep Hok. pose proof HI as (Hit & Hst & Hb).
  destruct (state_ (p_ctx s)) eqn:Est.
  - rewrite parse_step_request_line in Hstep by (done || lia).
    rewrite parse_step_request_line by (done || (rewrite length_app; lia)).
    case_decide; [by simplify_eq|].
    destruct (next_crlf_app buf t (p_it s)) as [-> Hne]; [lia|done|].
    rewrite decide_False by done. destruct (next_crlf_found buf (p_it s)); [lia|done|].
    by rewrite take_app_le by lia.
  - unfold parse_step in *. rewrite Est in *.
    fold (next_crlf buf (p_it s)) in Hstep. fold (next_crlf (buf ++ t) (p_it s)).
    case_decide; [by simplify_eq|].
    destruct (next_crlf_app buf t (p_it s)) as [E Hne]; [lia|done|].
    rewrite E, decide_False by done.
    destruct (next_crlf_found buf (p_it s)) as [Hfit _]; [lia|done|].
    assert (search CRLF (drop (p_it s) (buf ++ t)) = search CRLF (drop (p_it s) buf)) as ->
      by (unfold next_crlf in E; lia).
    unfold next_crlf in Hfit.
    rewrite drop_app_le, take_app_le; [done| |lia]. rewrite length_drop. lia.
  - destruct r as [s'|s'].
    { unfold parse_step in Hstep. rewrite Est in Hstep. simplify_eq. }
    destruct (parse_step_inr buf s s' HI Hstep Hok) as (-> & _ & Hle).
    unfold parse_step. rewrite Est. do 3 f_equal. case_decide as D; [done|].
    apply bool_decide_eq_true. rewrite length_app, u64_small in D;
      rewrite length_app in Hlen; lia.
  - done.
Qed.

Lemma parse_stable (c c' : HttpContext) (buf more : bytes) (n : Z) :
  Z.of_nat (length (buf ++ more)) ≤ INT_MAX →
  parseRequest c buf = Some (Ret (c', (true, n))) →
  parseRequest c (buf ++ more) = Some (Ret (c', (true, n))).
Proof.
  intros Hlen (s' & Hrun & <- & Hok & ->)%parseRequest_fuel_Ret. unfold INT_MAX in Hlen.
  apply parseRequest_fuel_eq with (fuel := (length buf + 3)%nat).
  unfold parseRequest_fuel.
  rewrite (run_loop_transfer (parse_step buf) _ (parse_inv buf) (λ s, p_ok s = true)
    ) with (r := s') (s := parse_start c); [| | |apply parse_start_inv|done|done].
  - simpl. unfold parse_result. by rewrite Hok.
  - intros s s1 HI Hstep. split; [|by apply (parse_step_inl buf s)].
    apply parse_step_app; (done || lia).
  - intros s r HI Hstep Hr. apply parse_step_app; (done || lia).
Qed.

(** C20. A framing decision is stable: once a request is complete, bytes that
    arrive behind it change neither what was parsed nor where it ends.  This
    is what lets [solveOnMessage] parse one request at a time out of a buffer
    that may already hold the next ones. *)
Theorem parseRequest_stable (c c' : HttpContext) (buf more : bytes) (n : Z) :
  Z.of_nat (length (buf ++ more)) ≤ INT_MAX →
  parseRequest c buf = Some (Ret (c', (true, n))) →
  parseRequest c (buf ++ more) = Some (Ret (c', (true, n))).
Proof.
  apply parse_stable.
Qed.

(** ** Parsing again without [reset]

    [request_method +=] and [request_url +=] append to what is there. *)
Definition carry (c c' : HttpContext) : HttpContext :=
  mkHttpContext (state_ c') (request_method c ++ request_method c')
    (request_url c ++ request_url c') (hasCookie_ c).
Definition carry_state (c : HttpContext) (s : parse_state) : parse_state :=
  mkParse (carry c (p_ctx s)) (p_ok s) (p_bodySize s) (p_it s).
Definition carry_result (c : HttpContext) (r : HttpContext * (bool * Z)) : HttpContext * (bool * Z) :=
  (carry c r.1, r.2).

Lemma scan_token_carry tail m token s :
  scan_token tail (m ++ token) s = (λ r, (m ++ r.1, r.2)) <$> scan_token tail token s.
Proof.
  revert token. induction s as [|x s IH]; intros token; simpl; case_decide; try done.
  case_decide; [done|]. by rewrite <-app_assoc, IH.
Qed.

Lemma praseRequestLine_carry c c' buf stop :
  praseRequestLine (carry c c') buf stop =
    (λ r, (carry c r.1, r.2)) <$> praseRequestLine c' buf stop.
Proof.
  unfold praseRequestLine. simpl. rewrite scan_token_carry.
  destruct (scan_token _ (request_method c') buf) as [[m s1]|f]; simpl; [|done].
  case_decide; [done|]. destruct (skip_spaces s1) as [s2|f]; simpl; [|done].
  case_decide; [done|]. rewrite scan_token_carry. by destruct (scan_token _ _ s2) as [[u ?]|f].
Qed.

Lemma parse_step_carry c buf s :
  parse_step buf (carry_state c s) = sum_map (carry_state c) (carry_state c) <$> parse_step buf s.
Proof.
  unfold parse_step. simpl. destruct (state_ (p_ctx s)) eqn:E; simpl.
  - case_decide; [done|]. rewrite praseRequestLine_carry.
    by destruct (praseRequestLine (p_ctx s) buf _) as [[c' []]|f].
  - case_decide; [done|]. by destruct (parse_header _ _) as [[b|]|f].
  - done.
  - done.
Qed.

Lemma parse_loop_carry c buf n s :
  run_loop (parse_step buf) n (carry_state c s) =
    fmap (M := outcome) (carry_state c) <$> run_loop (parse_step buf) n s.
Proof.
  revert s. induction n as [|n IH]; intros s; [done|]. simpl. rewrite parse_step_carry.
  by destruct (parse_step buf s) as [[s'|r]|f]; simpl.
Qed.

Lemma parse_carry c buf :
  parseRequest c buf =
    fmap (M := outcome) (carry_result c) <$> parseRequest HttpContext_new buf.
Proof.
  unfold parseRequest, parseRequest_fuel.
  assert (parse_start c = carry_state c (parse_start HttpContext_new)) as ->
    by (unfold parse_start, carry_state, carry; simpl; by rewrite !app_nil_r).
  rewrite parse_loop_carry. by destruct (run_loop _ _ _) as [[s|f]|].
Qed.

(** A context that is used again without [reset] frames as a fresh one
    does: the same answer, the same length and the same failures, whatever was
    parsed before; but the method and the URL are appended to the old ones. *)
Theorem parseRequest_without_reset (c : HttpContext) (buf : bytes) :
  parseRequest c buf =
    fmap (M := outcome) (carry_result c) <$> parseRequest HttpContext_new buf.
Proof.
  apply parse_carry.
Qed.

(** ** Rendering and parsing back *)

Definition valid_header (h : bytes * bytes) : Prop :=
  (COLON ∉ h.1) ∧ h.1 ≠ ContentLength ∧ ("013"%char ∉ h.1) ∧ ("013"%char ∉ h.2).

Record valid_request (method url version : bytes) (headers : list (bytes * bytes)) := {
  valid_method : (SP ∉ method) ∧ ("013"%char ∉ method);
  valid_url : url ≠ [] ∧ (SP ∉ url) ∧ ("013"%char ∉ url);
  valid_version : "013"%char ∉ version;
  valid_headers : Forall valid_header headers;
}.

Lemma parse_header_other k v b :
  COLON ∉ k → k ≠ ContentLength → parse_header (k ++ COLON :: v) b = Ret (Some b).
Proof.
  intros Hk Hne. unfold parse_header. rewrite find_char_app by done.
  rewrite decide_False by (rewrite length_app; simpl; lia).
  rewrite take_app_length. by rewrite decide_False.
Qed.

Lemma parse_header_length z b :
  0 ≤ z ≤ INT_MAX →
  parse_header (ContentLength ++ COLON :: SP :: to_string z) b = Ret (Some z).
Proof.
  intros Hz. unfold parse_header.
  rewrite find_char_app by (apply (bool_decide_unpack _); vm_compute; done).
  rewrite decide_False by (rewrite length_app; simpl; lia).
  rewrite take_app_length. rewrite decide_True by done.
  change (S (length ContentLength)) with (length ContentLength + 1)%nat.
  rewrite drop_app_add. simpl.
  pose proof (atoi_to_string [SP] z []) as E. rewrite app_nil_r in E. simpl in E.
  rewrite E; [|by repeat constructor|done|done]. simpl.
  rewrite u32_small; [done|]. unfold INT_MAX in Hz. lia.
Qed.

Lemma request_line_render c method url version :
  SP ∉ method → url ≠ [] → SP ∉ url →
  request_line_spec c (method ++ [SP] ++ url ++ [SP] ++ version) =
  (set_url (request_url c ++ url) (set_method (request_method c ++ method) c), true).
Proof.
  intros Hm Hne Hu. unfold request_line_spec, first_word, after_word. cbn [app].
  rewrite find_char_app, take_app_length, drop_app_length by done. simpl.
  assert (ltrim (url ++ SP :: version) = url ++ SP :: version) as ->.
  { destruct url as [|y url]; [done|]. simpl.
    apply not_elem_of_cons in Hu as [? _]. by rewrite decide_False. }
  rewrite decide_False by (by destruct url).
  by rewrite find_char_app, take_app_length by done.
Qed.

(** Each piece of a rendered request is one or more iterations; [buf] is the
    whole buffer and [before] what the parser has already consumed. *)
Section render_steps.
Context (buf : bytes).

Lemma request_line_step c line rest :
  buf = line ++ CRLF ++ rest →
  "013"%char ∉ line → (request_line_spec c line).2 = true →
  state_ c = kExpectRequestLine →
  loop_step (parse_step buf) (mkParse c false 0 0)
    (mkParse (set_state kExpectHeaders (request_line_spec c line).1) true 0
       (length (line ++ CRLF))).
Proof.
  intros -> Hcr Hok Hst. unfold loop_step.
  rewrite parse_step_request_line by (done || (simpl; lia)). cbn [p_it p_ctx p_bodySize].
  unfold next_crlf. rewrite drop_0, search_CRLF_app by done. cbn [Nat.add].
  rewrite decide_False by crlf_length. rewrite take_app_length, Hok.
  do 3 f_equal. crlf_length.
Qed.

(** The loop reads one rendered header line per iteration. *)
Lemma header_step before k v rest c ok b b' :
  buf = before ++ render_header (k, v) ++ rest →
  state_ c = kExpectHeaders → "013"%char ∉ k → "013"%char ∉ v →
  parse_header (k ++ COLON :: v) b = Ret (Some b') →
  loop_step (parse_step buf) (mkParse c ok b (length before))
    (mkParse c ok b' (length (before ++ render_header (k, v)))).
Proof.
  intros -> Hst Hk Hv Hh. unfold loop_step, parse_step, render_header.
  cbn [p_it p_ctx p_bodySize p_ok fst snd]. rewrite Hst, drop_app_length.
  replace ((k ++ [COLON] ++ v ++ CRLF) ++ rest) with ((k ++ COLON :: v) ++ CRLF ++ rest)
    by (rewrite <-!app_assoc; done).
  rewrite search_CRLF_app.
  2: { apply not_elem_of_app. split; [done|]. apply not_elem_of_cons. done. }
  rewrite decide_False by crlf_length.
  rewrite take_app_length, Hh. cbn. do 3 f_equal. crlf_length.
Qed.

Lemma headers_steps before headers rest c ok b :
  buf = before ++ mjoin (render_header <$> headers) ++ rest →
  state_ c = kExpectHeaders → Forall valid_header headers →
  rtc (loop_step (parse_step buf)) (mkParse c ok b (length before))
    (mkParse c ok b (length (before ++ mjoin (render_header <$> headers)))).
Proof.
  intros Hbuf Hst Hall. revert before Hbuf.
  induction Hall as [|[k v] hs (Hcol & Hcl & Hk & Hv) _ IH]; intros before Hbuf; csimpl in *.
  { by rewrite app_nil_r. }
  eapply rtc_l.
  - eapply header_step; [by rewrite Hbuf, <-app_assoc|done..|]. by apply parse_header_other.
  - rewrite app_assoc. apply IH. by rewrite Hbuf, <-!app_assoc.
Qed.

Definition render_length (body : bytes) : bytes :=
  if decide (body = []) then []
  else render_header (ContentLength, SP :: to_string (Z.of_nat (length body))).

Lemma content_length_steps before body rest c ok :
  buf = before ++ render_length body ++ rest →
  state_ c = kExpectHeaders → Z.of_nat (length body) ≤ INT_MAX →
  rtc (loop_step (parse_step buf)) (mkParse c ok 0 (length before))
    (mkParse c ok (Z.of_nat (length body)) (length (before ++ render_length body))).
Proof.
  unfold render_length. intros Hbuf Hst Hlen.
  case_decide as D; [by rewrite D, app_nil_r|].
  apply rtc_once. eapply header_step; [done|done| | |].
  - apply (bool_decide_unpack _). by vm_compute.
  - apply not_elem_of_cons. split; [done|]. intros Hin.
    pose proof (to_string_digits (Z.of_nat (length body)) ltac:(lia)) as Hd.
    rewrite Forall_forall in Hd. apply Hd in Hin.
    by apply (digit_char_ne _ "013"%char) in Hin.
  - apply parse_header_length. lia.
Qed.

Lemma blank_line_step before rest c ok b :
  buf = before ++ CRLF ++ rest → state_ c = kExpectHeaders →
  loop_step (parse_step buf) (mkParse c ok b (length before))
    (mkParse (set_state kExpectBody c) ok b (length (before ++ CRLF))).
Proof.
  intros -> Hst. unfold loop_step, parse_step. cbn [p_it p_ctx p_bodySize p_ok].
  pose proof (search_CRLF_app [] rest (not_elem_of_nil _)) as E. cbn [app length] in E.
  rewrite Hst, drop_app_length, E.
  rewrite decide_False by crlf_length.
  change (parse_header _ _) with (Ret (A:=option Z) None). cbn.
  do 3 f_equal. crlf_length.
Qed.

Lemma body_exit before body rest c ok :
  buf = before ++ body ++ rest → state_ c = kExpectBody →
  Z.of_nat (length buf) ≤ INT_MAX →
  parse_step buf (mkParse c ok (Z.of_nat (length body)) (length before))
  = Ret (inr (mkParse c true (Z.of_nat (length body)) (length before))).
Proof.
  intros -> Hst Hlen. unfold parse_step, INT_MAX in *. simpl. rewrite Hst. do 3 f_equal.
  case_decide as D; [done|]. apply bool_decide_eq_true.
  rewrite u64_small in D; solve_length.
Qed.
End render_steps.

Lemma not_in_app3 {A} (x : A) (l k m : list A) (y : A) :
  x ≠ y → (x ∉ l) → (x ∉ k) → (x ∉ m) → x ∉ l ++ [y] ++ k ++ [y] ++ m.
Proof.
  intros ????. rewrite !not_elem_of_app, !list_elem_of_singleton. done.
Qed.

Lemma parseRequest_render_eq (c : HttpContext) (method url version : bytes)
    (headers : list (bytes * bytes)) (body rest : bytes) :
  valid_request method url version headers →
  request_method c = [] → request_url c = [] →
  Z.of_nat (length (render_request method url version headers body ++ rest)) ≤ INT_MAX →
  parseRequest c (render_request method url version headers body ++ rest)
  = Some (Ret (mkHttpContext kExpectBody method url (hasCookie_ c),
      (true, Z.of_nat (length (render_request method url version headers body))))).
Proof.
  intros [[Hm Hmr] (Hune & Hu & Hur) Hv Hh] Ec Eu Hlen. unfold render_request in *.
  fold (render_length body) in *.
  set (line := method ++ [SP] ++ url ++ [SP] ++ version).
  set (hs := mjoin (render_header <$> headers)) in *.
  set (cl := render_length body) in *.
  replace (method ++ _) with (line ++ CRLF ++ hs ++ cl ++ CRLF ++ body) in *
    by (unfold line; by rewrite <-!app_assoc).
  set (buf := _ ++ rest) in *.
  set (c1 := set_state kExpectHeaders (request_line_spec (parse_start c).(p_ctx) line).1).
  destruct (run_loop_steps (parse_step buf) (parse_start c)
    (mkParse (set_state kExpectBody c1) true (Z.of_nat (length body))
       (length ((((line ++ CRLF) ++ hs) ++ cl) ++ CRLF)))
    (mkParse (set_state kExpectBody c1) true (Z.of_nat (length body))
       (length ((((line ++ CRLF) ++ hs) ++ cl) ++ CRLF)))) as [n Hn].
  - assert (Z.of_nat (length body) ≤ INT_MAX) by (unfold buf in Hlen; solve_length).
    assert ("013"%char ∉ line) by (by apply not_in_app3).
    assert ((request_line_spec (parse_start c).(p_ctx) line).2 = true)
      by (unfold line; by rewrite request_line_render).
    eapply rtc_l.
    { by apply (request_line_step buf _ line (hs ++ cl ++ CRLF ++ body ++ rest));
        [unfold buf; rewrite <-!app_assoc|..]. }
    etrans.
    { by apply (headers_steps buf _ headers (cl ++ CRLF ++ body ++ rest));
        [unfold buf; rewrite <-!app_assoc|..]. }
    etrans.
    { by apply (content_length_steps buf _ body (CRLF ++ body ++ rest));
        [unfold buf; rewrite <-!app_assoc|..]. }
    by apply rtc_once, (blank_line_step buf _ (body ++ rest));
      [unfold buf; rewrite <-!app_assoc|..].
  - by apply (body_exit buf _ body rest); [unfold buf; rewrite <-!app_assoc|..].
  - apply parseRequest_fuel_eq with (fuel := n). unfold parseRequest_fuel. rewrite Hn.
    unfold c1, line, parse_result. rewrite request_line_render by done. cbn.
    rewrite Ec, Eu. unfold buf, line in *. rewrite i32_small; [|unfold INT_MIN; solve_length].
    do 5 f_equal. solve_length.
Qed.

(** C13. Round trip: a request rendered in the wire format -- request line,
    headers, a [Content-Length] when there is a body, blank line, body -- is
    parsed back exactly: the method and URL are recovered, and the length
    returned is the length of the rendered request, whatever follows it in the
    buffer. *)
Theorem parseRequest_render (c : HttpContext) (method url version : bytes)
    (headers : list (bytes * bytes)) (body rest : bytes) :
  valid_request method url version headers →
  request_method c = [] → request_url c = [] →
  Z.of_nat (length (render_request method url version headers body ++ rest)) ≤ INT_MAX →
  parseRequest c (render_request method url version headers body ++ rest)
  = Some (Ret (mkHttpContext kExpectBody method url (hasCookie_ c),
      (true, Z.of_nat (length (render_request method url version headers body))))).
Proof.
  apply parseRequest_render_eq.
Qed.

(** C21. No strict prefix of a well-formed request is ever taken for a complete
    one: [parseRequest] keeps asking for more input until the last byte. *)
Theorem parseRequest_prefix_incomplete (c c' : HttpContext) (method url version : bytes)
    (headers : list (bytes * bytes)) (body part more : bytes) (n : Z) :
  valid_request method url version headers →
  request_method c = [] → request_url c = [] →
  Z.of_nat (length (render_request method url version headers body)) ≤ INT_MAX →
  render_request method url version headers body = part ++ more → more ≠ [] →
  parseRequest c part ≠ Some (Ret (c', (true, n))).
Proof.
  intros Hvalid Hm Hu Hlen Hreq Hmore Hpart.
  pose proof (parseRequest_render_eq c method url version headers body []
    Hvalid Hm Hu) as Hfull. rewrite app_nil_r, Hreq in Hfull.
  rewrite Hreq in Hlen. specialize (Hfull Hlen).
  assert (Z.of_nat (length part) ≤ INT_MAX) as Hpl by solve_length.
  pose proof (parse_in_bounds _ _ _ _ Hpl Hpart).
  rewrite (parse_stable _ _ _ _ _ Hlen Hpart) in Hfull. simplify_eq.
  destruct more; [done|]. rewrite length_app in *. simpl in *. lia.
Qed.

(** ** Faults *)

(** C22. The parser has one undefined behaviour only: [atoi] on the value of a
    [Content-Length] header that no [int] can hold.  In particular the scan of
    the request line, which does not test for the end of the buffer while it
    skips spaces, never reads outside the buffer. *)
Theorem parseRequest_fault (c : HttpContext) (buf : bytes) (f : fault) :
  parseRequest c buf = Some (Fault f) →
  ∃ i value, ContentLength ++ [COLON] ++ value ++ CRLF `prefix_of` drop i buf ∧
    ¬ (INT_MIN ≤ atoi_value value ≤ INT_MAX) ∧ f = UndefinedBehaviour.
Proof.
  unfold parseRequest, parseRequest_fuel.
  destruct (run_loop _ _ _) as [[s'|f']|] eqn:Hrun; simpl; intros; simplify_eq.
  destruct (parse_loop_end _ _ _ _ Hrun) as (s & HI & Hstep). clear Hrun.
  pose proof HI as (Hit & Hst & Hb). destruct (state_ (p_ctx s)) eqn:Est.
  - rewrite parse_step_request_line in Hstep by (done || lia).
    repeat case_decide; [done|]. by case_match.
  - unfold parse_step in Hstep. rewrite Est in Hstep. case_decide as Hd; [done|].
    destruct (search_CRLF_split (drop (p_it s) buf)) as (line & rest & E & El).
    { rewrite length_drop. lia. }
    rewrite El, E, take_app_length in Hstep.
    apply bind_Fault_inv in Hstep as [Hh|(h & _ & Hk)]; [|by destruct h].
    unfold parse_header in Hh. case_decide as D1; [done|].
    case_decide as D2; [|done].
    apply bind_Fault_inv in Hh as [Ha|(h & _ & Hk)]; [|done].
    exists (p_it s), (drop (S (find_char COLON line)) line).
    unfold atoi in Ha. destruct (_ && _) eqn:Hr; simplify_eq.
    split; [|split; [lia|done]]. rewrite E.
    pose proof (find_char_le COLON line).
    pose proof (take_drop_middle _ _ _ (find_char_at COLON line ltac:(lia))) as Hline.
    rewrite D2 in Hline. set (value := drop _ line) in *. clearbody value.
    exists rest. rewrite <-Hline. cbn. by rewrite <-!app_assoc.
  - unfold parse_step in Hstep. by rewrite Est in Hstep.
  - done.
Qed.

(** ** What never happens to a context

    The operations of the class, as its clients interleave them. *)
Inductive context_step : HttpContext → HttpContext → Prop :=
  | context_parse c buf c' r :
      parseRequest c buf = Some (Ret (c', r)) → context_step c c'
  | context_reset c : context_step c (reset c).

(** No sequence of [parseRequest] and [reset] ever makes a context say it
    has got all of a request ([kGotAll] is never entered) or that the request
    carries no cookie ([hasCookie_] is never cleared).  So [!hasCookie()], the
    flag the proxy passes to [pushCache], is always false. *)
Theorem context_never_gotAll (c : HttpContext) :
  rtc context_step HttpContext_new c → gotAll c = false ∧ hasCookie c = true.
Proof.
  intros Hsteps. unfold gotAll, hasCookie. rewrite bool_decide_eq_false.
  refine (rtc_ind_r (λ c, state_ c ≠ kGotAll ∧ hasCookie_ c = true) _ _ _ _ Hsteps);
    [done|].
  clear. intros c c' _ Hstep [Hst Hck]. inversion Hstep as [? buf ? [ok n] Hp|]; subst; [|done].
  apply parseRequest_fuel_Ret in Hp as (s' & Hrun & <- & _).
  by apply (parse_keeps_context _ _ _ _ Hrun).
Qed.

(** ** Witnesses: the hypotheses above hold on concrete requests *)

Definition sample_headers : list (bytes * bytes) := [(str "Host", str " a.b")].
Definition sample_request : bytes :=
  render_request (str "POST") (str "/x") (str "HTTP/1.1") sample_headers (str "hey").

Lemma sample_request_valid :
  valid_request (str "POST") (str "/x") (str "HTTP/1.1") sample_headers.
Proof.
  split; [| | |repeat constructor]; repeat split; (apply (bool_decide_unpack _); by vm_compute).
Qed.

Lemma parseRequest_in_bounds_witness : 4 ≤ 53 ≤ Z.of_nat (length sample_request).
Proof.
  apply (parseRequest_in_bounds HttpContext_new
    (mkHttpContext kExpectBody (str "POST") (str "/x") true)); by vm_compute.
Defined.

Lemma parseRequest_stable_witness :
  parseRequest HttpContext_new (sample_request ++ str "Get /")
  = Some (Ret (mkHttpContext kExpectBody (str "POST") (str "/x") true, (true, 53))).
Proof. apply parseRequest_stable; by vm_compute. Defined.

Lemma parseRequest_render_witness :
  parseRequest HttpContext_new (sample_request ++ str "Get /")
  = Some (Ret (mkHttpContext kExpectBody (str "POST") (str "/x") true,
      (true, Z.of_nat (length sample_request)))).
Proof.
  apply (parseRequest_render HttpContext_new _ _ (str "HTTP/1.1") sample_headers (str "hey"));
    [apply sample_request_valid|by vm_compute..].
Defined.

Lemma parseRequest_prefix_incomplete_witness :
  parseRequest HttpContext_new (take 52 sample_request)
  ≠ Some (Ret (HttpContext_new, (true, 52))).
Proof.
  apply (parseRequest_prefix_incomplete _ _ (str "POST") (str "/x") (str "HTTP/1.1")
    sample_headers (str "hey") _ (str "y")); [apply sample_request_valid|by vm_compute..].
Defined.

Lemma parseRequest_fault_witness :
  let buf := str "Get / x" ++ CRLF ++ str "Content-Length: 99999999999" ++ CRLF in
  ∃ i value, ContentLength ++ [COLON] ++ value ++ CRLF `prefix_of` drop i buf ∧
    ¬ (INT_MIN ≤ atoi_value value ≤ INT_MAX) ∧ UndefinedBehaviour = UndefinedBehaviour.
Proof. intros buf. apply (parseRequest_fault HttpContext_new buf). by vm_compute. Defined.

Lemma context_never_gotAll_witness :
  let c := mkHttpContext kExpectBody (str "POST") (str "/x") true in
  gotAll c = false ∧ hasCookie c = true.
Proof.
  apply context_never_gotAll. apply rtc_once.
  apply (context_parse _ sample_request _ (true, 53)). by vm_compute.
Defined.
