(* ===== verification/LruCache.v ===== *)
(** * [Lru]: the in-memory least-recently-used cache

    Models src/cache/LRU.h.  [std::list] is modelled with the identity of its
    nodes: a list of [(node, (url, content))] with the node numbers standing
    for iterators, so that [map_], which stores iterators, can be dangling in
    the model as it could be in the code.  [time(nullptr)] is an argument.
    [entries] is the abstract cache: the pairs from the least to the most
    recently used; the theorems are refinements of operations on it. *)

From S2P Require Import Prelude.
From Stdlib Require Import Lia.

#[local] Open Scope Z_scope.

(** ** Data *)

Record Node := mkNode {
  time : Z;             (* unsigned long *)
  position : nat;       (* PairList::iterator *)
}.

Record Lru := mkLru {
  maxSize_ : Z;         (* size_t *)
  expiredTime_ : Z;     (* size_t *)
  size_ : option Z;     (* size_t; [None] while it has never been assigned *)
  list_ : list (nat * (bytes * bytes));
  map_ : gmap bytes Node;
  fresh_ : nat;         (* the node the next [push_back] allocates *)
}.

(** [Lru(size_t size)]; the argument arrives as an [int]. *)
Definition Lru_new (size : Z) : Lru := mkLru (u64 size) INT_MAX None [] ∅ 0.

(** ** [std::list] through its nodes *)

Definition node_lookup (id : nat) (l : list (nat * (bytes * bytes))) : option (bytes * bytes) :=
  (list_to_map l : gmap nat (bytes * bytes)) !! id.

(** [it->second = content] *)
Definition node_assign (id : nat) (content : bytes)
    (l : list (nat * (bytes * bytes))) : list (nat * (bytes * bytes)) :=
  (λ c, if decide (c.1 = id) then (c.1, (c.2.1, content)) else c) <$> l.

(** [list_.erase(it)] *)
Definition node_erase (id : nat) (l : list (nat * (bytes * bytes)))
    : list (nat * (bytes * bytes)) :=
  filter (λ c, c.1 ≠ id) l.

(** [list_.splice(list_.end(), list_, it)] *)
Definition node_splice (id : nat) (l : list (nat * (bytes * bytes)))
    : outcome (list (nat * (bytes * bytes))) :=
  kv ← deref (node_lookup id l);
  Ret (node_erase id l ++ [(id, kv)]).

(** ** Operations *)

(** The loop of [put] after a [push_back]: [sizeNow] is read once before it. *)
Definition evict_step (sizeNow : Z) (lru : Lru) : outcome (Lru + Lru) :=
  if maxSize_ lru <? u64 sizeNow then
    match list_ lru with
    | [] => Fault UndefinedBehaviour
    | (_, (url, _)) :: rest =>
        Ret (inl (mkLru (maxSize_ lru) (expiredTime_ lru) (size_ lru)
                    rest (delete url (map_ lru)) (fresh_ lru)))
    end
  else Ret (inr lru).

Definition Lru_put_new (now : Z) (url content : bytes) (lru : Lru) : Lru :=
  mkLru (maxSize_ lru) (expiredTime_ lru) (size_ lru)
    (list_ lru ++ [(fresh_ lru, (url, content))])
    (<[url := mkNode now (fresh_ lru)]> (map_ lru)) (S (fresh_ lru)).

Definition Lru_put (now : Z) (url content : bytes) (lru : Lru) : option (outcome Lru) :=
  match map_ lru !! url with
  | None =>
      let lru := Lru_put_new now url content lru in
      run_loop (evict_step (i32 (Z.of_nat (length (list_ lru)))))
        (length (list_ lru) + 2) lru
  | Some n =>
      Some (_ ← deref (node_lookup (position n) (list_ lru));
            l ← node_splice (position n) (node_assign (position n) content (list_ lru));
            Ret (mkLru (maxSize_ lru) (expiredTime_ lru) (Some (Z.of_nat (length l))) l
                   (<[url := mkNode now (position n)]> (map_ lru)) (fresh_ lru)))
  end.

Definition Lru_erase (url : bytes) (lru : Lru) : outcome Lru :=
  match map_ lru !! url with
  | None => Ret lru
  | Some n =>
      _ ← deref (node_lookup (position n) (list_ lru));
      Ret (mkLru (maxSize_ lru) (expiredTime_ lru) (size_ lru)
             (node_erase (position n) (list_ lru)) (delete url (map_ lru)) (fresh_ lru))
  end.

(** [time(nullptr) - map_[url].time > expiredTime_] *)
Definition expired (now : Z) (n : Node) (lru : Lru) : bool :=
  expiredTime_ lru <? u64 (now - time n).

Definition Lru_get (now : Z) (url : bytes) (lru : Lru) : outcome (Lru * bytes) :=
  match map_ lru !! url with
  | None => Ret (lru, [])
  | Some n =>
      if expired now n lru then
        lru ← Lru_erase url lru; Ret (lru, [])
      else
        l ← node_splice (position n) (list_ lru);
        kv ← deref (node_lookup (position n) l);
        Ret (mkLru (maxSize_ lru) (expiredTime_ lru) (size_ lru) l (map_ lru) (fresh_ lru),
             kv.2)
  end.

Definition getSize (lru : Lru) : option Z := size_ lru.
Definition getMaxSize (lru : Lru) : Z := maxSize_ lru.

(** The copy constructor: the list is copied into new nodes, and the map is
    rebuilt from it, each node stamped with the time of its iteration. *)
Fixpoint rebuild_map (clock : nat → Z) (i : nat) (l : list (bytes * bytes))
    (m : gmap bytes Node) : gmap bytes Node :=
  match l with
  | [] => m
  | (url, _) :: l' => rebuild_map clock (S i) l' (<[url := mkNode (clock i) i]> m)
  end.

Definition Lru_copy (clock : nat → Z) (lru : Lru) : Lru :=
  let es := (list_ lru).*2 in
  mkLru (getMaxSize lru) INT_MAX (getSize lru)
    (imap (λ i e, (i, e)) es) (rebuild_map clock 0 es ∅) (length es).

(** ** The abstract cache *)

Definition entries (lru : Lru) : list (bytes * bytes) := (list_ lru).*2.
Definition find_entry (url : bytes) (es : list (bytes * bytes)) : option bytes :=
  (list_to_map es : gmap bytes bytes) !! url.
Definition remove_entry (url : bytes) (es : list (bytes * bytes)) : list (bytes * bytes) :=
  filter (λ e, e.1 ≠ url) es.
(** Insert or overwrite, as the most recently used entry. *)
Definition touch (url content : bytes) (es : list (bytes * bytes)) : list (bytes * bytes) :=
  remove_entry url es ++ [(url, content)].

(** The representation invariant: iterators and nodes correspond one to one. *)
Record lru_wf (lru : Lru) : Prop := {
  wf_nodes : NoDup (list_ lru).*1;
  wf_urls : NoDup (entries lru).*1;
  wf_fresh : ∀ id, id ∈ (list_ lru).*1 → (id < fresh_ lru)%nat;
  wf_map : ∀ url n, map_ lru !! url = Some n →
    ∃ content, (position n, (url, content)) ∈ list_ lru;
  wf_list : ∀ id url content, (id, (url, content)) ∈ list_ lru →
    ∃ n, map_ lru !! url = Some n ∧ position n = id;
}.

(** ** Lists of nodes *)

Section nodes.
Implicit Types (l : list (nat * (bytes * bytes))) (id : nat) (url content : bytes).

Lemma node_lookup_Some id l kv :
  NoDup l.*1 → node_lookup id l = Some kv ↔ (id, kv) ∈ l.
Proof. intros. symmetry. by apply elem_of_list_to_map. Qed.

(** Erasing a node erases its entry. *)
Lemma node_erase_entries id url content l :
  NoDup l.*1 → NoDup l.*2.*1 → (id, (url, content)) ∈ l →
  (node_erase id l).*2 = remove_entry url l.*2.
Proof.
  intros Hids Hurls Hin. unfold remove_entry, node_erase.
  rewrite list_filter_fmap. f_equal. apply filter_ext_in.
  intros [id' [url' c']] Hin'. simpl. rewrite <-list_fmap_compose in Hurls. split.
  - intros Hne ->. destruct Hne.
    by apply (NoDup_fmap_unique _ _ _ (id, (url, content)) Hurls) in Hin'; simplify_eq.
  - intros Hne ->. destruct Hne.
    by apply (NoDup_fmap_unique _ _ _ (id, (url, content)) Hids) in Hin'; simplify_eq.
Qed.

(** Moving a node to the end permutes the list. *)
Lemma node_splice_perm id kv l :
  NoDup l.*1 → (id, kv) ∈ l → node_erase id l ++ [(id, kv)] ≡ₚ l.
Proof.
  intros Hnd Hin. apply list_elem_of_split in Hin as (l1 & l2 & ->).
  rewrite fmap_app, fmap_cons in Hnd. simpl in Hnd.
  apply NoDup_app in Hnd as (_ & Hdisj & [Hni _]%NoDup_cons).
  assert (∀ l', (id ∉ l'.*1) → node_erase id l' = l') as Hkeep.
  { intros l' Hl'. apply list_filter_all, Forall_forall. intros [i e] Hi. simpl.
    intros ->. destruct Hl'. apply list_elem_of_fmap. by exists (id, e). }
  unfold node_erase in *. rewrite filter_app, filter_cons_False by (simpl; by intros []).
  rewrite !Hkeep; [by rewrite <-app_assoc, (Permutation_app_comm l2 [_])|done|].
  intros Hin. apply (Hdisj id); [done|]. by left.
Qed.

Lemma node_splice_last id kv l :
  NoDup l.*1 → node_lookup id (node_erase id l ++ [(id, kv)]) = Some kv.
Proof.
  intros Hnd. apply node_lookup_Some; [|set_solver].
  rewrite fmap_app. apply NoDup_app. split; [by apply NoDup_fmap_filter|].
  split; [|by apply NoDup_singleton]. intros x Hx Hin.
  apply list_elem_of_singleton in Hin as ->. simpl in Hx.
  apply list_elem_of_fmap in Hx as ([i e] & Hi & Hx). simpl in Hi. subst.
  by apply list_elem_of_filter in Hx as [[] _].
Qed.

Lemma node_assign_ids id content l : (node_assign id content l).*1 = l.*1.
Proof.
  unfold node_assign. rewrite <-list_fmap_compose. apply list_fmap_ext.
  intros _ [i e] _. simpl. by case_decide.
Qed.

Lemma node_assign_urls id content l : (node_assign id content l).*2.*1 = l.*2.*1.
Proof.
  unfold node_assign. rewrite <-!list_fmap_compose. apply list_fmap_ext.
  intros _ [i e] _. simpl. by case_decide.
Qed.

Lemma node_assign_length id content l : length (node_assign id content l) = length l.
Proof. apply length_fmap. Qed.

Lemma node_assign_elem id content l i u c :
  (i, (u, c)) ∈ node_assign id content l →
  (∃ c', (i, (u, c')) ∈ l) ∧ (i = id → c = content).
Proof.
  intros ([i' [u' c']] & E & Hin)%list_elem_of_fmap. simpl in E.
  case_decide; simplify_eq; eauto. split; [eauto|done].
Qed.

Lemma node_assign_in id content l url c :
  (id, (url, c)) ∈ l → (id, (url, content)) ∈ node_assign id content l.
Proof.
  intros Hin. apply list_elem_of_fmap. exists (id, (url, c)). simpl.
  by rewrite decide_True.
Qed.

Lemma node_assign_in_other id content l i e :
  i ≠ id → (i, e) ∈ l → (i, e) ∈ node_assign id content l.
Proof.
  intros Hne Hin. apply list_elem_of_fmap. exists (i, e). simpl.
  by rewrite decide_False.
Qed.

Lemma node_erase_assign id content l :
  node_erase id (node_assign id content l) = node_erase id l.
Proof.
  unfold node_erase, node_assign. rewrite list_filter_fmap.
  induction l as [|[i e] l IH]; [done|]. rewrite !filter_cons. simpl.
  destruct (decide (i = id)) as [->|]; simpl.
  - rewrite !decide_False by (by intros []). done.
  - rewrite !decide_True by done. csimpl. by rewrite decide_False, IH by done.
Qed.
End nodes.

(** ** The invariant is a fact about the set of nodes *)

Lemma lru_wf_perm lru lru' :
  lru_wf lru → list_ lru' ≡ₚ list_ lru → map_ lru' = map_ lru → fresh_ lru' = fresh_ lru →
  lru_wf lru'.
Proof.
  intros [H1 H2 H3 H4 H5] Hp Hm Hf. split.
  - by rewrite Hp.
  - unfold entries in *. by rewrite Hp.
  - intros id. rewrite Hp, Hf. apply H3.
  - intros url n. rewrite Hm. setoid_rewrite Hp. apply H4.
  - intros id url c. rewrite Hp, Hm. apply H5.
Qed.

Lemma lru_wf_entry lru url n :
  lru_wf lru → map_ lru !! url = Some n →
  ∃ content, (position n, (url, content)) ∈ list_ lru ∧
    node_lookup (position n) (list_ lru) = Some (url, content) ∧
    find_entry url (entries lru) = Some content.
Proof.
  intros Hwf Hn. destruct (wf_map _ Hwf _ _ Hn) as [content Hin]. exists content.
  split; [done|]. split; [by apply node_lookup_Some, Hin; apply Hwf|].
  apply elem_of_list_to_map; [apply Hwf|]. apply list_elem_of_fmap.
  by exists (position n, (url, content)).
Qed.

Lemma find_entry_None lru url :
  lru_wf lru → map_ lru !! url = None ↔ find_entry url (entries lru) = None.
Proof.
  intros Hwf. unfold find_entry. rewrite <-not_elem_of_list_to_map. split.
  - intros Hn ([u c] & -> & Hin)%list_elem_of_fmap. simpl in *.
    apply list_elem_of_fmap in Hin as ([id [u' c']] & E & Hin). simpl in E. simplify_eq.
    destruct (wf_list _ Hwf _ _ _ Hin) as (n & Hn' & _). congruence.
  - intros Hni. apply eq_None_not_Some. intros [n Hn]. destruct Hni.
    destruct (lru_wf_entry _ _ _ Hwf Hn) as (c & Hin & _).
    unfold entries. rewrite <-list_fmap_compose. apply list_elem_of_fmap. by exists (position n, (url, c)).
Qed.

Lemma entries_length lru : length (entries lru) = length (list_ lru).
Proof. apply length_fmap. Qed.

(** ** Each operation on a well-formed cache *)

Lemma Lru_put_new_wf now url content lru :
  lru_wf lru → map_ lru !! url = None → lru_wf (Lru_put_new now url content lru).
Proof.
  intros Hwf Hn. pose proof Hwf as [H1 H2 H3 H4 H5].
  assert (∀ c, (fresh_ lru, c) ∉ list_ lru) as Hfresh.
  { intros c Hin. apply (list_elem_of_fmap_2 fst) in Hin. apply H3 in Hin. simpl in *. lia. }
  assert (∀ id c, (id, (url, c)) ∉ list_ lru) as Hurl.
  { intros id c Hin. destruct (H5 _ _ _ Hin) as (n & Hn' & _). congruence. }
  unfold entries, Lru_put_new in *. split; simpl.
  - rewrite fmap_app. apply NoDup_app. split; [done|]. split; [|apply NoDup_singleton].
    intros id Hid Hin. apply list_elem_of_singleton in Hin as ->. apply H3 in Hid.
    simpl in Hid. lia.
  - unfold entries. simpl. rewrite !fmap_app. apply NoDup_app.
    split; [done|]. split; [|apply NoDup_singleton].
    intros u Hu Hin. apply list_elem_of_singleton in Hin as ->. simpl in *.
    rewrite <-list_fmap_compose in Hu. apply list_elem_of_fmap in Hu as ([id [u c]] & E & Hin).
    simpl in E. simplify_eq. by apply Hurl in Hin.
  - intros id. rewrite fmap_app, elem_of_app. intros [Hid|Hid]; [apply H3 in Hid; lia|].
    apply list_elem_of_singleton in Hid as ->. simpl. lia.
  - intros u n. setoid_rewrite elem_of_app. destruct (decide (u = url)) as [->|Hne].
    + rewrite lookup_insert_eq. intros [= <-]. exists content. right. by left.
    + rewrite lookup_insert_ne by done. intros Hu. destruct (H4 u n Hu) as [c ?]. eauto.
  - intros id u c. rewrite elem_of_app. intros [Hin|Hin].
    + rewrite lookup_insert_ne; [by eapply H5|]. intros <-. by apply Hurl in Hin.
    + apply list_elem_of_singleton in Hin. simplify_eq. rewrite lookup_insert_eq. eauto.
Qed.

Lemma Lru_erase_spec url lru :
  lru_wf lru → ∃ lru', Lru_erase url lru = Ret lru' ∧ lru_wf lru' ∧
    maxSize_ lru' = maxSize_ lru ∧
    entries lru' = remove_entry url (entries lru).
Proof.
  intros Hwf. unfold Lru_erase. destruct (map_ lru !! url) as [n|] eqn:Hn.
  - destruct (lru_wf_entry _ _ _ Hwf Hn) as (c & Hin & Hl & _). rewrite Hl. simpl.
    eexists. split; [done|]. pose proof Hwf as [H1 H2 H3 H4 H5].
    assert ((node_erase (position n) (list_ lru)).*2 = remove_entry url (entries lru)) as Hes
      by (by eapply node_erase_entries).
    split; [|done]. unfold node_erase in *. split; simpl.
    + by apply NoDup_fmap_filter.
    + unfold entries at 1. simpl. rewrite Hes. by apply NoDup_fmap_filter.
    + intros id Hid. apply list_elem_of_fmap in Hid as (e & -> & He).
      apply list_elem_of_filter in He as [_ He]. by apply H3, list_elem_of_fmap_2.
    + intros u m. rewrite lookup_delete_Some. intros [Hne Hm].
      destruct (H4 _ _ Hm) as [c' Hc']. exists c'. apply list_elem_of_filter.
      split; [|done]. simpl. intros E. rewrite <-E in Hin.
      by apply (NoDup_fmap_unique fst _ _ _ H1 Hc') in Hin; simplify_eq.
    + intros id u c'. rewrite list_elem_of_filter. simpl. intros [Hne Hin'].
      destruct (H5 _ _ _ Hin') as (m & Hm & Hp). exists m. split; [|done].
      rewrite lookup_delete_ne; [done|]. intros <-. congruence.
  - exists lru. split; [done|]. split; [done|]. split; [done|].
    unfold remove_entry. symmetry. apply list_filter_all, Forall_forall.
    intros [u c] Hin Hu. simpl in Hu. subst u. apply find_entry_None in Hn; [|done].
    unfold find_entry in Hn. rewrite <-not_elem_of_list_to_map in Hn. destruct Hn.
    by apply (list_elem_of_fmap_2 fst) in Hin.
Qed.

Lemma Lru_put_hit_spec now url content lru n :
  lru_wf lru → map_ lru !! url = Some n →
  ∃ lru', Lru_put now url content lru = Some (Ret lru') ∧ lru_wf lru' ∧
    maxSize_ lru' = maxSize_ lru ∧ expiredTime_ lru' = expiredTime_ lru ∧
    getSize lru' = Some (Z.of_nat (length (entries lru))) ∧
    entries lru' = touch url content (entries lru) ∧
    map_ lru' !! url = Some (mkNode now (position n)).
Proof.
  intros Hwf Hn. destruct (lru_wf_entry _ _ _ Hwf Hn) as (c & Hin & Hl & _).
  pose proof Hwf as [H1 H2 H3 H4 H5].
  set (l := node_assign (position n) content (list_ lru)).
  assert (NoDup l.*1) as Hnd by (unfold l; by rewrite node_assign_ids).
  assert ((position n, (url, content)) ∈ l) as Hin' by (by eapply node_assign_in).
  pose proof (node_splice_perm _ _ _ Hnd Hin') as Hp.
  unfold Lru_put. rewrite Hn, Hl. simpl. fold l. unfold node_splice.
  rewrite (proj2 (node_lookup_Some _ _ _ Hnd) Hin'). simpl.
  eexists. split; [done|]. simpl. split; [|split; [done|]; split; [done|]; split].
  - split; simpl.
    + by rewrite Hp.
    + unfold entries. simpl. rewrite Hp. unfold l. by rewrite node_assign_urls.
    + intros id. rewrite Hp. unfold l. rewrite node_assign_ids. apply H3.
    + intros u m. setoid_rewrite Hp. rewrite lookup_insert_Some.
      intros [[<- <-]|[Hne Hm]]; [eauto|].
      destruct (H4 _ _ Hm) as [c' Hc']. exists c'.
      apply node_assign_in_other; [|done]. intros E. rewrite <-E in Hin.
      by apply (NoDup_fmap_unique fst _ _ _ H1 Hc') in Hin; simplify_eq.
    + intros id u c'. rewrite Hp. intros [[c0 Hc0] _]%node_assign_elem.
      destruct (H5 _ _ _ Hc0) as (m & Hm & Hpm). destruct (decide (url = u)) as [<-|Hne].
      * rewrite lookup_insert_eq. simplify_eq. eauto.
      * rewrite lookup_insert_ne by done. eauto.
  - unfold getSize. simpl. rewrite (Permutation_length Hp), entries_length.
    unfold l. by rewrite node_assign_length.
  - split; [|by rewrite lookup_insert_eq].
    unfold entries, touch. simpl. rewrite fmap_app. simpl. f_equal.
    unfold l. rewrite node_erase_assign. by eapply node_erase_entries.
Qed.

Lemma Lru_get_hit_spec now url lru n :
  lru_wf lru → map_ lru !! url = Some n → expired now n lru = false →
  ∃ lru' content, Lru_get now url lru = Ret (lru', content) ∧ lru_wf lru' ∧
    maxSize_ lru' = maxSize_ lru ∧
    find_entry url (entries lru) = Some content ∧
    entries lru' = touch url content (entries lru).
Proof.
  intros Hwf Hn Hx. destruct (lru_wf_entry _ _ _ Hwf Hn) as (c & Hin & Hl & Hf).
  pose proof Hwf as [H1 H2 _ _ _].
  unfold Lru_get, node_splice. rewrite Hn, Hx, Hl. simpl.
  rewrite node_splice_last by done. simpl.
  eexists _, c. split; [done|]. split; [|split; [done|]; split; [done|]].
  - apply (lru_wf_perm lru); [done| |done|done]. by apply node_splice_perm.
  - unfold entries, touch. simpl. rewrite fmap_app. simpl. f_equal.
    by eapply node_erase_entries.
Qed.

(** A fresh URL is not among the entries. *)
Lemma remove_entry_absent url es :
  find_entry url es = None → remove_entry url es = es.
Proof.
  unfold find_entry. intros Hf. apply list_filter_all, Forall_forall.
  intros [u c] Hin Hu. simpl in Hu. subst u.
  rewrite <-not_elem_of_list_to_map in Hf. destruct Hf.
  by apply (list_elem_of_fmap_2 fst) in Hin.
Qed.

Lemma touch_length url content es :
  NoDup es.*1 →
  length (touch url content es)
  = match find_entry url es with Some _ => length es | None => S (length es) end.
Proof.
  intros Hnd. unfold touch. rewrite length_app. simpl.
  destruct (find_entry url es) as [c|] eqn:Hf.
  - unfold find_entry in Hf. apply elem_of_list_to_map in Hf; [|done].
    apply list_elem_of_split in Hf as (es1 & es2 & ->).
    rewrite fmap_app, fmap_cons in Hnd. simpl in Hnd.
    apply NoDup_app in Hnd as (_ & Hdisj & [Hni _]%NoDup_cons).
    unfold remove_entry. rewrite filter_app, filter_cons_False by (simpl; by intros []).
    rewrite !list_filter_all; [rewrite !length_app; simpl; lia| |].
    + apply Forall_forall. intros e He Heq. apply Hni. rewrite <-Heq. by apply list_elem_of_fmap_2.
    + apply Forall_forall. intros e He Heq. apply (Hdisj e.1).
      * by apply list_elem_of_fmap_2.
      * rewrite Heq. by left.
  - rewrite remove_entry_absent by done. lia.
Qed.

Lemma evict_step_room sizeNow lru n :
  u64 sizeNow ≤ maxSize_ lru → run_loop (evict_step sizeNow) (S n) lru = Some (Ret lru).
Proof. intros Hle. simpl. unfold evict_step. by rewrite (proj2 (Z.ltb_ge _ _) Hle). Qed.

(** [sizeNow] does not change in the loop: once it is entered it erases every
    node and then dereferences [list_.end()]. *)
Lemma evict_step_overrun sizeNow lru n :
  maxSize_ lru < u64 sizeNow → (length (list_ lru) < n)%nat →
  run_loop (evict_step sizeNow) n lru = Some (Fault UndefinedBehaviour).
Proof.
  revert lru. induction n as [|n IH]; intros lru Hlt Hn; [lia|]. simpl.
  unfold evict_step at 1. rewrite (proj2 (Z.ltb_lt _ _) Hlt).
  destruct (list_ lru) as [|[id [u c]] l] eqn:El; [done|]. apply IH; simpl in *; [done|lia].
Qed.

Lemma Lru_put_miss_spec now url content lru :
  lru_wf lru → map_ lru !! url = None → Z.of_nat (length (entries lru)) < INT_MAX →
  (Z.of_nat (length (entries lru)) < maxSize_ lru →
     Lru_put now url content lru = Some (Ret (Lru_put_new now url content lru))) ∧
  (maxSize_ lru ≤ Z.of_nat (length (entries lru)) →
     Lru_put now url content lru = Some (Fault UndefinedBehaviour)).
Proof.
  intros Hwf Hn Hlen. rewrite entries_length in *. unfold Lru_put. rewrite Hn.
  replace (length (list_ (Lru_put_new now url content lru))) with (S (length (list_ lru)))
    by (simpl; rewrite length_app; simpl; lia).
  unfold INT_MAX in *. rewrite i32_small by (unfold INT_MIN, INT_MAX; lia). split; intros Hm.
  - apply evict_step_room. rewrite u64_small by lia. simpl. lia.
  - apply evict_step_overrun; simpl; [rewrite u64_small; lia|].
    rewrite length_app. simpl. lia.
Qed.

Lemma entries_put_new now url content lru :
  entries (Lru_put_new now url content lru) = entries lru ++ [(url, content)].
Proof. unfold entries. simpl. by rewrite fmap_app. Qed.

Lemma Lru_put_room_spec now url content lru :
  lru_wf lru → Z.of_nat (length (entries lru)) < INT_MAX →
  (find_entry url (entries lru) = None → Z.of_nat (length (entries lru)) < maxSize_ lru) →
  ∃ lru' id, Lru_put now url content lru = Some (Ret lru') ∧ lru_wf lru' ∧
    maxSize_ lru' = maxSize_ lru ∧ expiredTime_ lru' = expiredTime_ lru ∧
    entries lru' = touch url content (entries lru) ∧
    map_ lru' !! url = Some (mkNode now id).
Proof.
  intros Hwf Hlen Hroom. destruct (map_ lru !! url) as [n|] eqn:Hn.
  - destruct (Lru_put_hit_spec now url content lru n Hwf Hn) as (lru' & ?&?&?&?&?&?&?).
    by exists lru', (position n).
  - pose proof (proj1 (find_entry_None _ _ Hwf) Hn) as Hf.
    destruct (Lru_put_miss_spec now url content lru) as [Hput _]; [done..|].
    exists (Lru_put_new now url content lru), (fresh_ lru). split; [by apply Hput, Hroom|].
    split; [by apply Lru_put_new_wf|]. split; [done|]. split; [done|].
    split; [|simpl; by rewrite lookup_insert_eq].
    rewrite entries_put_new. unfold touch. by rewrite remove_entry_absent.
Qed.

(** ** Copying *)

Lemma rebuild_map_lookup clock i es m url :
  NoDup es.*1 →
  rebuild_map clock i es m !! url =
  match list_find (λ e, e.1 = url) es with
  | Some (j, _) => Some (mkNode (clock (i + j)%nat) (i + j))
  | None => m !! url
  end.
Proof.
  revert i m. induction es as [|[u c] es IH]; intros i m Hnd; [done|].
  apply NoDup_cons in Hnd as [Hni Hnd]. simpl in *. rewrite IH by done.
  case_decide as Hu; subst.
  - destruct (list_find _ es) as [[j e]|] eqn:E; simpl.
    + apply list_find_Some in E as (Hj & He & _). destruct Hni. rewrite <-He.
      apply list_elem_of_fmap_2. by eapply list_elem_of_lookup_2.
    + rewrite lookup_insert_eq. by rewrite Nat.add_0_r.
  - destruct (list_find _ es) as [[j e]|]; simpl.
    + by rewrite Nat.add_succ_r.
    + by rewrite lookup_insert_ne.
Qed.

Lemma entries_copy clock lru : entries (Lru_copy clock lru) = entries lru.
Proof.
  unfold entries, Lru_copy. simpl. generalize ((list_ lru).*2) as es. clear.
  intros es. apply list_eq. intros i. rewrite list_lookup_fmap, list_lookup_imap.
  by destruct (es !! i).
Qed.

Lemma copy_ids clock lru : (list_ (Lru_copy clock lru)).*1 = seq 0 (length (entries lru)).
Proof.
  unfold entries, Lru_copy. simpl. generalize ((list_ lru).*2) as es. clear.
  intros es. apply list_eq. intros i. rewrite list_lookup_fmap, list_lookup_imap.
  destruct (es !! i) eqn:E; simpl.
  - symmetry. apply lookup_seq. split; [done|]. by eapply lookup_lt_Some.
  - symmetry. apply lookup_seq_ge. by apply lookup_ge_None.
Qed.

Lemma Lru_copy_wf clock lru : lru_wf lru → lru_wf (Lru_copy clock lru).
Proof.
  intros Hwf. pose proof (wf_urls _ Hwf) as Hnd. split.
  - rewrite copy_ids. apply NoDup_seq.
  - by rewrite entries_copy.
  - intros id. rewrite copy_ids. simpl. rewrite elem_of_seq, entries_length, length_fmap. lia.
  - intros url n. simpl. rewrite rebuild_map_lookup by done.
    destruct (list_find _ _) as [[j [u c]]|] eqn:E; [|by rewrite lookup_empty].
    apply list_find_Some in E as (Hj & He & _). simpl in *. subst u. intros [= <-].
    exists c. simpl. apply elem_of_lookup_imap. eauto.
  - intros id url c. simpl. rewrite elem_of_lookup_imap.
    intros (i & e & E & Hi). simplify_eq. rewrite rebuild_map_lookup by done.
    destruct (list_find _ _) as [[j [u c']]|] eqn:Ef.
    + apply list_find_Some in Ef as (Hj & He & _). simpl in *. subst u.
      eexists. split; [done|]. simpl. apply (NoDup_lookup _ _ _ url Hnd);
        unfold entries; rewrite list_lookup_fmap; [by rewrite Hj|by rewrite Hi].
    + apply list_find_None in Ef. rewrite Forall_forall in Ef.
      by destruct (Ef (url, c) (list_elem_of_lookup_2 _ _ _ Hi)).
Qed.

(** ** Reachable caches *)

Inductive lru_step : Lru → Lru → Prop :=
  | lru_step_put now url content lru lru' :
      Lru_put now url content lru = Some (Ret lru') → lru_step lru lru'
  | lru_step_get now url lru lru' v :
      Lru_get now url lru = Ret (lru', v) → lru_step lru lru'
  | lru_step_erase url lru lru' : Lru_erase url lru = Ret lru' → lru_step lru lru'
  | lru_step_copy clock lru : lru_step lru (Lru_copy clock lru).

(** The entry [get] finds is out of date. *)
Definition stale (now : Z) (url : bytes) (lru : Lru) : bool :=
  match map_ lru !! url with Some n => expired now n lru | None => false end.

Lemma Lru_get_spec now url lru :
  lru_wf lru →
  ∃ lru' v, Lru_get now url lru = Ret (lru', v) ∧ lru_wf lru' ∧
    maxSize_ lru' = maxSize_ lru ∧
    match find_entry url (entries lru) with
    | None => v = [] ∧ entries lru' = entries lru
    | Some content =>
        if stale now url lru
        then v = [] ∧ entries lru' = remove_entry url (entries lru)
        else v = content ∧ entries lru' = touch url content (entries lru)
    end.
Proof.
  intros Hwf. unfold stale. destruct (map_ lru !! url) as [n|] eqn:Hn.
  - destruct (lru_wf_entry _ _ _ Hwf Hn) as (c & _ & _ & Hf). rewrite Hf.
    destruct (expired now n lru) eqn:Hx.
    + destruct (Lru_erase_spec url lru Hwf) as (lru' & He & ? & ? & ?).
      exists lru', []. unfold Lru_get. by rewrite Hn, Hx, He.
    + destruct (Lru_get_hit_spec now url lru n) as (lru' & c' & ?&?&?&?&?); [done..|].
      exists lru', c'. by simplify_eq.
  - exists lru, []. unfold Lru_get. rewrite Hn.
    by rewrite (proj1 (find_entry_None _ _ Hwf) Hn).
Qed.

Lemma touch_bound url content es m :
  NoDup es.*1 → Z.of_nat (length es) ≤ m →
  (find_entry url es = None → Z.of_nat (length es) < m) →
  Z.of_nat (length (touch url content es)) ≤ m.
Proof.
  intros Hnd Hle Hlt. rewrite touch_length by done.
  destruct (find_entry url es); [done|]. specialize (Hlt eq_refl). lia.
Qed.

Lemma Lru_new_wf size : lru_wf (Lru_new size).
Proof.
  split; simpl; [constructor|constructor|..].
  - intros id Hid. by apply not_elem_of_nil in Hid.
  - intros url n Hn. by rewrite lookup_empty in Hn.
  - intros id url c Hin. by apply not_elem_of_nil in Hin.
Qed.

Definition lru_bounded (size : Z) (lru : Lru) : Prop :=
  lru_wf lru ∧ maxSize_ lru = size ∧ Z.of_nat (length (entries lru)) ≤ size.

Lemma remove_entry_length url es : (length (remove_entry url es) ≤ length es)%nat.
Proof. apply length_filter. Qed.

Lemma Lru_put_bounded size now url content lru lru' :
  size < INT_MAX → lru_bounded size lru →
  Lru_put now url content lru = Some (Ret lru') → lru_bounded size lru'.
Proof.
  intros Hsize (Hwf & Hmax & Hlen) Hput. pose proof (wf_urls _ Hwf) as Hnd.
  destruct (map_ lru !! url) as [n|] eqn:Hn.
  - destruct (Lru_put_hit_spec now url content lru n Hwf Hn) as (l&E&?&?&?&?&Hes&?).
    simplify_eq. split; [done|]. split; [congruence|]. rewrite Hes.
    apply touch_bound; [done..|].
    destruct (lru_wf_entry _ _ _ Hwf Hn) as (c & _ & _ & Hf). congruence.
  - destruct (Lru_put_miss_spec now url content lru Hwf Hn) as [Hroom Hfull]; [lia|].
    destruct (Z.lt_ge_cases (Z.of_nat (length (entries lru))) (maxSize_ lru)) as [Hlt|Hge];
      [rewrite Hroom in Hput by done|by rewrite Hfull in Hput by done]. simplify_eq.
    split; [by apply Lru_put_new_wf|]. split; [done|].
    rewrite entries_put_new, length_app. simpl. lia.
Qed.

Lemma Lru_get_bounded size now url lru lru' v :
  lru_bounded size lru → Lru_get now url lru = Ret (lru', v) → lru_bounded size lru'.
Proof.
  intros (Hwf & Hmax & Hlen) Hget. pose proof (wf_urls _ Hwf) as Hnd.
  destruct (Lru_get_spec now url lru Hwf) as (l & c & E & ? & ? & Hes).
  simplify_outcome.
  split; [done|]. split; [congruence|].
  destruct (find_entry url (entries lru)) as [c'|] eqn:Hf; [|by destruct Hes as [_ ->]].
  destruct (stale now url lru); destruct Hes as [_ ->].
  - pose proof (remove_entry_length url (entries lru)). lia.
  - apply touch_bound; [done..|]. congruence.
Qed.

Lemma Lru_copy_bounded size clock lru :
  lru_bounded size lru → lru_bounded size (Lru_copy clock lru).
Proof.
  intros (Hwf & Hmax & Hlen).
  split; [by apply Lru_copy_wf|]. split; [done|]. by rewrite entries_copy.
Qed.

(** [put] either succeeds or meets a full cache and a new URL. *)
Lemma Lru_put_total size now url content lru :
  size < INT_MAX → lru_bounded size lru →
  (∃ lru', Lru_put now url content lru = Some (Ret lru') ∧
     entries lru' = touch url content (entries lru)) ∨
  Lru_put now url content lru = Some (Fault UndefinedBehaviour) ∧
    find_entry url (entries lru) = None ∧ Z.of_nat (length (entries lru)) = size.
Proof.
  intros Hsize (Hwf & Hmax & Hlen).
  destruct (decide (find_entry url (entries lru) = None ∧
    Z.of_nat (length (entries lru)) = size)) as [[Hf Hfull]|Hno]; [right|left].
  - split; [|done]. apply Lru_put_miss_spec; [done|by apply find_entry_None|lia|lia].
  - destruct (Lru_put_room_spec now url content lru Hwf) as (l & id & E & _ & _ & _ & ? & _);
      [lia| |eauto].
    intros Hf. rewrite Hmax. apply Z.le_neq. naive_solver.
Qed.

Lemma lru_step_bounded size lru lru' :
  size < INT_MAX → lru_bounded size lru → lru_step lru lru' → lru_bounded size lru'.
Proof.
  intros Hsize Hb Hstep. destruct Hstep as
    [now url content lru lru' Hput|now url lru lru' v Hget|url lru lru' Herase|clock lru].
  - by eapply Lru_put_bounded.
  - by eapply Lru_get_bounded.
  - destruct Hb as (Hwf & Hmax & Hlen).
    destruct (Lru_erase_spec url lru Hwf) as (l & E & ? & ? & Hes).
    simplify_outcome.
    split; [done|]. split; [congruence|]. rewrite Hes.
    pose proof (remove_entry_length url (entries lru)). lia.
  - by apply Lru_copy_bounded.
Qed.

Lemma lru_reachable_bounded size lru :
  0 ≤ size < INT_MAX → rtc lru_step (Lru_new size) lru → lru_bounded size lru.
Proof.
  intros Hsize. apply (rtc_ind_r (lru_bounded size)).
  - split; [apply Lru_new_wf|]. unfold INT_MAX in Hsize. simpl.
    split; [apply u64_small; lia|lia].
  - intros l l' _ Hstep Hb. eapply lru_step_bounded; [lia|done..].
Qed.

Lemma put_then_get (now now' : Z) (url content : bytes) (lru lru' : Lru) :
  lru_wf lru → Z.of_nat (length (entries lru)) < INT_MAX →
  Lru_put now url content lru = Some (Ret lru') →
  0 ≤ now' - now ≤ expiredTime_ lru → now' - now < 2 ^ 64 →
  ∃ lru'', Lru_get now' url lru' = Ret (lru'', content).
Proof.
  intros Hwf Hlen Hput Hnow Hsmall.
  destruct (Lru_put_room_spec now url content lru Hwf Hlen)
    as (l & id & E & Hwf' & _ & Hx & Hes & Hmap).
  { intros Hf. apply Znot_ge_lt. intros Hge.
    destruct (Lru_put_miss_spec now url content lru Hwf) as [_ Hfull];
      [by apply find_entry_None|done|]. by rewrite Hfull in Hput by lia. }
  simplify_eq. destruct (Lru_get_hit_spec now' url lru' (mkNode now id))
    as (l & c & Hget & _ & _ & Hf & _); [done|done| |].
  - unfold expired. rewrite Hx. simpl. apply Z.ltb_ge. rewrite u64_small; lia.
  - exists l. rewrite Hget. do 2 f_equal.
    assert (find_entry url (entries lru') = Some content) as Hc; [|congruence].
    apply elem_of_list_to_map; [apply Hwf'|]. rewrite Hes. apply elem_of_app. right. by left.
Qed.

(** No operation changes the age at which entries expire. *)
Lemma Lru_put_expiredTime now url content lru lru' :
  Lru_put now url content lru = Some (Ret lru') → expiredTime_ lru' = expiredTime_ lru.
Proof.
  unfold Lru_put. destruct (map_ lru !! url) as [n|].
  - intros E. injection E as E. apply bind_Ret_inv in E as (_ & _ & E).
    apply bind_Ret_inv in E as (l & _ & E). by injection E as <-.
  - intros E.
    assert (∀ o, o = Ret lru' → match o with
      | Ret r => expiredTime_ r = expiredTime_ lru | Fault _ => True end →
      expiredTime_ lru' = expiredTime_ lru) as Hret by by intros _ ->.
    apply (Hret _ eq_refl). revert E. apply (run_loop_invariant _
      (λ l, expiredTime_ l = expiredTime_ lru)
      (λ o, match o with Ret r => expiredTime_ r = expiredTime_ lru | Fault _ => True end)); [|done].
    intros l Hl. unfold evict_step. destruct (_ <? _); [|done].
    by destruct (list_ l) as [|[i [u c]] rest].
Qed.

Lemma lru_step_expiredTime lru lru' :
  lru_step lru lru' → expiredTime_ lru = INT_MAX → expiredTime_ lru' = INT_MAX.
Proof.
  intros Hstep Hlru. destruct Hstep as [now url content lru lru' E|now url lru lru' v E|url lru lru' E|];
    [| | |done].
  - by rewrite (Lru_put_expiredTime _ _ _ _ _ E).
  - unfold Lru_get in E. destruct (map_ lru !! url) as [n|] eqn:Hn; [|by simplify_eq].
    destruct (expired now n lru).
    + apply bind_Ret_inv in E as (l & E & E2). injection E2 as <- _. unfold Lru_erase in E.
      rewrite Hn in E. apply bind_Ret_inv in E as (_ & _ & E). by injection E as <-.
    + apply bind_Ret_inv in E as (l & _ & E). apply bind_Ret_inv in E as (kv & _ & E).
      by injection E as <- _.
  - unfold Lru_erase in E. destruct (map_ lru !! url) as [n|]; [|by simplify_eq].
    apply bind_Ret_inv in E as (_ & _ & E). by injection E as <-.
Qed.

(** ** Properties *)

(** C23. [Lru::get] refines lookup in the abstract cache.  On a well-formed
    cache it never follows a dangling iterator; a missing URL leaves the cache
    alone; a hit returns the stored content and makes it the most recently used
    entry; an entry older than [expiredTime_] is erased and reported missing. *)
Theorem Lru_get_refines (now : Z) (url : bytes) (lru : Lru) :
  lru_wf lru →
  ∃ lru' v, Lru_get now url lru = Ret (lru', v) ∧ lru_wf lru' ∧
    maxSize_ lru' = maxSize_ lru ∧
    match find_entry url (entries lru) with
    | None => v = [] ∧ entries lru' = entries lru
    | Some content =>
        if stale now url lru
        then v = [] ∧ entries lru' = remove_entry url (entries lru)
        else v = content ∧ entries lru' = touch url content (entries lru)
    end.
Proof. apply Lru_get_spec. Qed.

(** C14. [Lru::put] refines insertion as the most recently used entry: it
    overwrites a URL that is present, or appends one while there is room. *)
Theorem Lru_put_refines (now : Z) (url content : bytes) (lru : Lru) :
  lru_wf lru → Z.of_nat (length (entries lru)) < INT_MAX →
  (find_entry url (entries lru) = None → Z.of_nat (length (entries lru)) < maxSize_ lru) →
  ∃ lru', Lru_put now url content lru = Some (Ret lru') ∧ lru_wf lru' ∧
    maxSize_ lru' = maxSize_ lru ∧ entries lru' = touch url content (entries lru) ∧
    find_entry url (entries lru') = Some content ∧
    ∀ url', url' ≠ url →
      find_entry url' (entries lru') = find_entry url' (entries lru).
Proof.
  intros Hwf Hlen Hroom.
  destruct (Lru_put_room_spec now url content lru Hwf Hlen Hroom)
    as (lru' & id & Hput & Hwf' & Hmax & _ & Hes & _).
  exists lru'. split; [done|]. split; [done|]. split; [done|]. split; [done|].
  pose proof (wf_urls _ Hwf') as Hnd. split.
  - apply elem_of_list_to_map; [done|]. rewrite Hes. apply elem_of_app. right. by left.
  - intros url' Hne. apply option_eq. intros c. unfold find_entry.
    rewrite <-!elem_of_list_to_map by (done || apply Hwf). rewrite Hes.
    unfold touch, remove_entry. rewrite elem_of_app, list_elem_of_filter,
      list_elem_of_singleton. simpl. naive_solver.
Qed.

(** C24. [put] has no eviction.  Its loop tests [sizeNow], a variable read once
    before the loop, so a URL that is not in a full cache makes it erase every
    node and then dereference [list_.end()]: undefined behaviour, always. *)
Theorem Lru_put_full_undefined (now : Z) (url content : bytes) (lru : Lru) :
  lru_wf lru → Z.of_nat (length (entries lru)) < INT_MAX →
  find_entry url (entries lru) = None → maxSize_ lru ≤ Z.of_nat (length (entries lru)) →
  Lru_put now url content lru = Some (Fault UndefinedBehaviour).
Proof.
  intros Hwf Hlen Hf Hfull. apply Lru_put_miss_spec; [done| |done|done].
  by apply find_entry_None.
Qed.

(** C25. Over every sequence of operations on a cache of capacity [size], copies
    included, the representation invariant holds, the capacity is respected,
    lookups and erasures are defined -- and an insertion is undefined in
    exactly one situation: a new URL when the cache is full. *)
Theorem Lru_reachable (size : Z) (lru : Lru) :
  0 ≤ size < INT_MAX → rtc lru_step (Lru_new size) lru →
  lru_wf lru ∧ Z.of_nat (length (entries lru)) ≤ size ∧
  (∀ now url, is_ret (Lru_get now url lru) = true) ∧
  (∀ url, is_ret (Lru_erase url lru) = true) ∧
  (∀ now url content,
     Lru_put now url content lru = Some (Fault UndefinedBehaviour) ↔
     find_entry url (entries lru) = None ∧ Z.of_nat (length (entries lru)) = size).
Proof.
  intros Hsize Hreach.
  destruct (lru_reachable_bounded size lru Hsize Hreach) as (Hwf & Hmax & Hlen).
  split; [done|]. split; [done|]. split; [|split].
  - intros now url. by destruct (Lru_get_spec now url lru Hwf) as (? & ? & -> & _).
  - intros url. by destruct (Lru_erase_spec url lru Hwf) as (? & -> & _).
  - intros now url content. split.
    + intros Hput. destruct (Lru_put_total size now url content lru) as [(l & E & _)|[_ Hf]];
        [lia|done|by rewrite E in Hput|done].
    + intros [Hf Hfull]. apply Lru_put_miss_spec; [done|by apply find_entry_None|lia|lia].
Qed.

(** Write then read: what [put] stored is what [get] returns, at any later
    time within [expiredTime_] seconds. *)
Theorem Lru_put_get (now now' : Z) (url content : bytes) (lru lru' : Lru) :
  lru_wf lru → Z.of_nat (length (entries lru)) < INT_MAX →
  Lru_put now url content lru = Some (Ret lru') →
  0 ≤ now' - now ≤ expiredTime_ lru → now' - now < 2 ^ 64 →
  ∃ lru'', Lru_get now' url lru' = Ret (lru'', content).
Proof. apply put_then_get. Qed.

(** The age of an entry is an unsigned difference: if the clock has been
    set back since the entry was written, by however little, the difference
    wraps, [get] reports the URL missing and drops it. *)
Theorem Lru_get_clock_back (now : Z) (url : bytes) (lru : Lru) (n : Node) :
  lru_wf lru → expiredTime_ lru = INT_MAX → map_ lru !! url = Some n →
  0 ≤ now < time n → time n < 2 ^ 63 →
  ∃ lru', Lru_get now url lru = Ret (lru', []) ∧ find_entry url (entries lru') = None.
Proof.
  intros Hwf Hx Hn Hnow Htime.
  assert (expired now n lru = true) as Hexp.
  { unfold expired, u64, INT_MAX in *. rewrite Hx. apply Z.ltb_lt.
    rewrite <-(Z_mod_plus_full _ 1), Z.mod_small; lia. }
  destruct (Lru_erase_spec url lru Hwf) as (lru' & He & Hwf' & _ & Hes).
  exists lru'. unfold Lru_get. rewrite Hn, Hexp, He. split; [done|].
  unfold find_entry. apply not_elem_of_list_to_map. rewrite Hes.
  intros ([u c] & Hu & Hin)%list_elem_of_fmap. simpl in Hu. subst u.
  by apply list_elem_of_filter in Hin as [[] _].
Qed.

(** Copying keeps the contents and their order and gives a well-formed
    cache with the same capacity; every copied entry is as fresh as the copy. *)
Theorem Lru_copy_refines (clock : nat → Z) (lru : Lru) :
  lru_wf lru →
  lru_wf (Lru_copy clock lru) ∧ entries (Lru_copy clock lru) = entries lru ∧
  getMaxSize (Lru_copy clock lru) = getMaxSize lru ∧
  ∀ url n, map_ (Lru_copy clock lru) !! url = Some n → time n = clock (position n).
Proof.
  intros Hwf. split; [by apply Lru_copy_wf|]. split; [apply entries_copy|].
  split; [done|]. intros url n. simpl. rewrite rebuild_map_lookup by apply Hwf.
  destruct (list_find _ _) as [[j e]|]; [|by rewrite lookup_empty]. by intros [= <-].
Qed.

(** ** Witnesses *)

Definition run_put (now : Z) (url content : bytes) (lru : Lru) : Lru :=
  match Lru_put now url content lru with Some (Ret lru') => lru' | _ => lru end.
Definition sample_lru1 : Lru := run_put 5 (str "/a") (str "A") (Lru_new 2).
Definition sample_lru2 : Lru := run_put 6 (str "/b") (str "B") sample_lru1.

Lemma sample_lru_reachable : rtc lru_step (Lru_new 2) sample_lru2.
Proof.
  eapply rtc_l; [apply (lru_step_put 5 (str "/a") (str "A") _ sample_lru1); by vm_compute|].
  apply rtc_once. apply (lru_step_put 6 (str "/b") (str "B")). by vm_compute.
Qed.

Lemma sample_lru_wf : lru_wf sample_lru2.
Proof. apply (lru_reachable_bounded 2); [by vm_compute|apply sample_lru_reachable]. Qed.

Lemma Lru_get_refines_witness :
  ∃ lru' v, Lru_get 9 (str "/a") sample_lru2 = Ret (lru', v) ∧ lru_wf lru' ∧
    maxSize_ lru' = 2 ∧ v = str "A" ∧
    entries lru' = [(str "/b", str "B"); (str "/a", str "A")].
Proof. apply (Lru_get_refines 9 (str "/a") sample_lru2 sample_lru_wf). Defined.

Lemma Lru_put_refines_witness :
  ∃ lru', Lru_put 9 (str "/a") (str "C") sample_lru2 = Some (Ret lru') ∧ lru_wf lru' ∧
    maxSize_ lru' = 2 ∧
    entries lru' = [(str "/b", str "B"); (str "/a", str "C")] ∧
    find_entry (str "/a") (entries lru') = Some (str "C") ∧
    ∀ url', url' ≠ str "/a" →
      find_entry url' (entries lru') = find_entry url' (entries sample_lru2).
Proof.
  apply (Lru_put_refines 9 (str "/a") (str "C") sample_lru2 sample_lru_wf);
    [by vm_compute|by vm_compute].
Defined.

Lemma Lru_put_full_undefined_witness :
  Lru_put 9 (str "/c") (str "C") sample_lru2 = Some (Fault UndefinedBehaviour).
Proof.
  apply (Lru_put_full_undefined _ _ _ _ sample_lru_wf); by vm_compute.
Defined.

Lemma Lru_reachable_witness :
  lru_wf sample_lru2 ∧ Z.of_nat (length (entries sample_lru2)) ≤ 2 ∧
  (∀ now url, is_ret (Lru_get now url sample_lru2) = true) ∧
  (∀ url, is_ret (Lru_erase url sample_lru2) = true) ∧
  (∀ now url content,
     Lru_put now url content sample_lru2 = Some (Fault UndefinedBehaviour) ↔
     find_entry url (entries sample_lru2) = None ∧
     Z.of_nat (length (entries sample_lru2)) = 2).
Proof. apply (Lru_reachable 2); [by vm_compute|apply sample_lru_reachable]. Defined.

Lemma Lru_put_get_witness :
  ∃ lru'', Lru_get 20 (str "/a") (run_put 9 (str "/a") (str "C") sample_lru2)
           = Ret (lru'', str "C").
Proof.
  apply (Lru_put_get 9 20 (str "/a") (str "C") sample_lru2); [apply sample_lru_wf|by vm_compute..].
Defined.

Lemma Lru_get_clock_back_witness :
  ∃ lru', Lru_get 4 (str "/a") sample_lru2 = Ret (lru', []) ∧
          find_entry (str "/a") (entries lru') = None.
Proof.
  apply (Lru_get_clock_back 4 (str "/a") sample_lru2 (mkNode 5 0));
    [apply sample_lru_wf|by vm_compute..].
Defined.

Lemma Lru_copy_refines_witness :
  let copy := Lru_copy (λ i, 100 + Z.of_nat i) sample_lru2 in
  lru_wf copy ∧ entries copy = entries sample_lru2 ∧
  getMaxSize copy = getMaxSize sample_lru2 ∧
  ∀ url n, map_ copy !! url = Some n → time n = 100 + Z.of_nat (position n).
Proof.
  apply (Lru_copy_refines (λ i, 100 + Z.of_nat i) sample_lru2 sample_lru_wf).
Defined.
