(* ===== verification/TaskQueue.v ===== *)
(** * The thread pool's task ring: [CircleQueue], [Producer], [Consumer]

    Models src/ThreadPool/CircleQueue.h, CircleQueue.cpp, Producer.h,
    Consumer.h and the worker loop of MyThreadPool.cpp.  A slot identifier is a
    64-bit [long] that only grows; the ring holds identifier [i] in slot
    [i % size].  [Producer] asks for blocks of [try_size] identifiers and hands
    the previous, full block over to the readers with the same call;
    [Consumer] takes one block and reads it slot by slot.

    The critical sections are atomic functions.  [Pool] puts any number of
    producers and consumers on one ring, with ghost logs of what was stored and
    of what was delivered; its steps are the critical sections and the accesses
    to a slot, which the code makes outside the lock. *)

From S2P Require Import Prelude.
From Stdlib Require Import Lia.

#[local] Open Scope Z_scope.

(** ** [std::set<std::pair<long,long>>]: a strictly increasing list *)

Definition pair_lt (x y : Z * Z) : bool :=
  (x.1 <? y.1) || ((x.1 =? y.1) && (x.2 <? y.2)).

Fixpoint set_insert (x : Z * Z) (l : list (Z * Z)) : list (Z * Z) :=
  match l with
  | [] => [x]
  | y :: l' =>
      if decide (x = y) then l
      else if pair_lt x y then x :: l
      else y :: set_insert x l'
  end.

Section ring.
Context {T : Type} (dflt : T).   (* [T()] *)

(** ** [CircleQueue] *)

Record CircleQueue := mkCircleQueue {
  queue_size : Z;                      (* size_t *)
  circle_array : gmap Z T;             (* absent: still [T()] *)
  readable_queue : list (Z * Z);
  try_size : Z;                        (* uint16_t *)
  writeId : Z;                         (* long *)
}.

Definition CircleQueue_new : CircleQueue :=
  mkCircleQueue (1024 * 1024 * 16) ∅ [] (u16 1024) 0.

Definition set_readable (l : list (Z * Z)) (q : CircleQueue) : CircleQueue :=
  mkCircleQueue (queue_size q) (circle_array q) l (try_size q) (writeId q).
Definition set_writeId (w : Z) (q : CircleQueue) : CircleQueue :=
  mkCircleQueue (queue_size q) (circle_array q) (readable_queue q) (try_size q) w.

(** [index % size]: the [long] is converted to [size_t] first. *)
Definition slot (q : CircleQueue) (index : Z) : Z := u64 index mod queue_size q.

Definition CircleQueue_read (q : CircleQueue) (index : Z) : T :=
  default dflt (circle_array q !! slot q index).

Definition CircleQueue_write (q : CircleQueue) (index : Z) (obj : T) : CircleQueue :=
  mkCircleQueue (queue_size q) (<[slot q index := obj]> (circle_array q))
    (readable_queue q) (try_size q) (writeId q).

Definition tryReadSpace (q : CircleQueue) : CircleQueue * (Z * Z) :=
  match readable_queue q with
  | [] => (q, (-1, -1))
  | res :: rest => (set_readable rest q, res)
  end.

(** [writable_id & (size - 1) < readable_queue.begin()->first & (size - 1)] as
    the grammar groups it: [<] binds tighter than [&]. *)
Definition behind_reader (q : CircleQueue) (writable_id first : Z) : bool :=
  negb (Z.land (Z.land writable_id (Z.b2z (queue_size q - 1 <? u64 first)))
               (queue_size q - 1) =? 0).

Definition may_write (q : CircleQueue) (writable_id : Z) : bool :=
  match readable_queue q with
  | [] => true
  | (first, _) :: _ =>
      (u64 writable_id <? queue_size q) || behind_reader q writable_id first
  end.

(** [if (hasWriteEnd != 0) readable_queue.insert(...)] *)
Definition publish (q : CircleQueue) (hasWriteStart hasWriteEnd : Z) : CircleQueue :=
  if decide (hasWriteEnd ≠ 0)
  then set_readable (set_insert (hasWriteStart, hasWriteEnd) (readable_queue q)) q
  else q.

Definition tryWriteSpace (q : CircleQueue) (hasWriteStart hasWriteEnd : Z)
    : outcome (CircleQueue * (Z * Z)) :=
  let q := publish q hasWriteStart hasWriteEnd in
  let writable_id := writeId q + try_size q in
  (* signed overflow *)
  if LONG_MAX <? writable_id then Fault UndefinedBehaviour
  else if may_write q writable_id
  then Ret (set_writeId writable_id q, (writeId q, writable_id))
  else Ret (q, (-1, -1)).

(** [tryReadSpaceByCV]: [None] while the caller waits on the condition. *)
Definition tryReadSpaceByCV (q : CircleQueue) : option (CircleQueue * (Z * Z)) :=
  match readable_queue q with
  | [] => None
  | res :: rest => Some (set_readable rest q, res)
  end.

(** ** [Producer] *)

Record Producer := mkProducer {
  p_writeId : Z;
  p_curWriteId : Z;
  p_writableId : Z;
}.

Definition Producer_new : Producer := mkProducer 0 0 0.

(** The part of [write] that asks for space; [false] if there is none. *)
Definition Producer_refill (q : CircleQueue) (p : Producer)
    : outcome (CircleQueue * Producer * bool) :=
  '(q', space) ← tryWriteSpace q (p_writeId p) (p_writableId p);
  if decide (space.1 ≠ -1)
  then Ret (q', mkProducer space.1 space.1 space.2, true)
  else Ret (q', p, false).

(** [circleArray.write(curWriteId++, obj)] *)
Definition Producer_store (q : CircleQueue) (p : Producer) (obj : T)
    : CircleQueue * Producer :=
  (CircleQueue_write q (p_curWriteId p) obj,
   mkProducer (p_writeId p) (p_curWriteId p + 1) (p_writableId p)).

Definition Producer_write (q : CircleQueue) (p : Producer) (obj : T)
    : outcome (CircleQueue * Producer * bool) :=
  if p_writableId p <=? p_curWriteId p then
    '(q', p', ok) ← Producer_refill q p;
    if (ok : bool) then Ret (Producer_store q' p' obj, true) else Ret (q', p', false)
  else Ret (Producer_store q p obj, true).

(** ** [Consumer] *)

Record Consumer := mkConsumer {
  c_readId : Z;
  c_readableId : Z;
}.

Definition Consumer_new : Consumer := mkConsumer 0 0.

(** [circleArray.read(readId++)] *)
Definition Consumer_fetch (q : CircleQueue) (c : Consumer) : Consumer * T :=
  (mkConsumer (c_readId c + 1) (c_readableId c), CircleQueue_read q (c_readId c)).

(** The part of [read] that takes a block: [None] while it waits. *)
Definition Consumer_claim (q : CircleQueue) (c : Consumer)
    : option (CircleQueue * Consumer * bool) :=
  '(q', space) ← tryReadSpaceByCV q;
  if decide (space.1 ≠ -1)
  then Some (q', mkConsumer space.1 space.2, true)
  else Some (q', c, false).

Definition Consumer_read (q : CircleQueue) (c : Consumer)
    : option (CircleQueue * Consumer * (T * bool)) :=
  if c_readableId c <=? c_readId c then
    '(q', c', ok) ← Consumer_claim q c;
    if (ok : bool) then
      let '(c'', v) := Consumer_fetch q' c' in Some (q', c'', (v, true))
    else Some (q', c', (dflt, false))
  else
    let '(c', v) := Consumer_fetch q c in Some (q, c', (v, true)).

(** ** [MyThreadPool] *)

Record MyThreadPool := mkMyThreadPool {
  running : bool;
  circleArray : CircleQueue;
  threads : list Consumer;      (* one [runInMyThread], with its consumer, each *)
}.

Definition MyThreadPool_new : MyThreadPool := mkMyThreadPool false CircleQueue_new [].

(** Four threads are started on every call. *)
Definition MyThreadPool_start (m : MyThreadPool) : MyThreadPool :=
  mkMyThreadPool true (circleArray m) (threads m ++ replicate 4 Consumer_new).

(** One iteration of thread [i]'s [while (running)]: the entry it ran, if any.
    [None] while it waits for a block or when there is no such thread. *)
Definition runInMyThread (i : nat) (m : MyThreadPool) : option (MyThreadPool * option T) :=
  c ← threads m !! i;
  if running m then
    '(q, c', entry) ← Consumer_read (circleArray m) c;
    Some (mkMyThreadPool (running m) q (<[i := c']> (threads m)),
          if (entry.2 : bool) then Some entry.1 else None)
  else None.

(** ** Producers and consumers sharing a ring *)

Record Pool := mkPool {
  ring : CircleQueue;
  producers : list Producer;
  consumers : list Consumer;
  stored : gmap Z T;        (* ghost: what was last stored under an identifier *)
  delivered : list (Z * T); (* ghost: what the consumers read, oldest first *)
}.

Definition Pool_new (q : CircleQueue) : Pool := mkPool q [] [] ∅ [].

Inductive pool_step : Pool → Pool → Prop :=
  | pool_new_producer q ps cs w d :
      pool_step (mkPool q ps cs w d) (mkPool q (ps ++ [Producer_new]) cs w d)
  | pool_new_consumer q ps cs w d :
      pool_step (mkPool q ps cs w d) (mkPool q ps (cs ++ [Consumer_new]) w d)
  | pool_refill i p q ps cs w d q' p' ok :
      ps !! i = Some p → p_writableId p ≤ p_curWriteId p →
      Producer_refill q p = Ret (q', p', ok) →
      pool_step (mkPool q ps cs w d) (mkPool q' (<[i := p']> ps) cs w d)
  | pool_store i p q ps cs w d obj q' p' :
      ps !! i = Some p → p_curWriteId p < p_writableId p →
      Producer_store q p obj = (q', p') →
      pool_step (mkPool q ps cs w d)
        (mkPool q' (<[i := p']> ps) cs (<[p_curWriteId p := obj]> w) d)
  | pool_claim j c q ps cs w d q' c' ok :
      cs !! j = Some c → c_readableId c ≤ c_readId c →
      Consumer_claim q c = Some (q', c', ok) →
      pool_step (mkPool q ps cs w d) (mkPool q' ps (<[j := c']> cs) w d)
  | pool_fetch j c q ps cs w d c' v :
      cs !! j = Some c → c_readId c < c_readableId c →
      Consumer_fetch q c = (c', v) →
      pool_step (mkPool q ps cs w d)
        (mkPool q ps (<[j := c']> cs) w (d ++ [(c_readId c, v)])).

(** Where an identifier is: written and not read yet (in a producer's block, a
    published block or a consumer's block), or granted and not written yet. *)
Definition block_ids (b : Z * Z) : list Z := seqZ b.1 (b.2 - b.1).
Definition written_ids (p : Producer) : list Z := block_ids (p_writeId p, p_curWriteId p).
Definition unwritten_ids (p : Producer) : list Z :=
  block_ids (p_curWriteId p, p_writableId p).
Definition consumer_ids (c : Consumer) : list Z := block_ids (c_readId c, c_readableId c).
Definition pending_ids (s : Pool) : list Z :=
  (producers s ≫= written_ids) ++ (readable_queue (ring s) ≫= block_ids)
  ++ (consumers s ≫= consumer_ids).
Definition free_ids (s : Pool) : list Z := producers s ≫= unwritten_ids.

(** A ring as the constructor makes it and the operations keep it. *)
Record queue_wf (q : CircleQueue) : Prop := {
  wf_size : 0 < queue_size q ≤ LONG_MAX;
  wf_try : 0 < try_size q;
  wf_try_even : Z.even (try_size q) = true;
  wf_write : 0 ≤ writeId q ≤ LONG_MAX;
  wf_write_even : Z.even (writeId q) = true;
}.

(** ** The set of readable blocks *)

Lemma set_insert_perm x l : (x ∉ l) → set_insert x l ≡ₚ x :: l.
Proof.
  induction l as [|y l IH]; intros Hx; simpl; [done|].
  apply not_elem_of_cons in Hx as [Hne Hx]. rewrite decide_False by done.
  case_match; [done|]. by rewrite IH, (Permutation_swap x y l).
Qed.

Lemma set_insert_elem x y l : y ∈ set_insert x l ↔ y = x ∨ y ∈ l.
Proof.
  induction l as [|z l IH]; simpl; [by rewrite list_elem_of_singleton, elem_of_nil; naive_solver|].
  case_decide; subst; [rewrite elem_of_cons; naive_solver|].
  case_match; rewrite !elem_of_cons; [done|]. rewrite IH. naive_solver.
Qed.

Lemma set_insert_nonempty x l : set_insert x l ≠ [].
Proof.
  intros E. apply (not_elem_of_nil x). rewrite <-E. apply set_insert_elem. by left.
Qed.

(** ** The grant test *)

Lemma behind_reader_even q w first :
  Z.even w = true → behind_reader q w first = false.
Proof.
  intros Hw. unfold behind_reader.
  assert (Z.land w (Z.b2z (queue_size q - 1 <? u64 first)) = 0) as ->; [|done].
  destruct (_ <? _); simpl; [|by rewrite Z.land_0_r].
  change 1 with (Z.ones 1). rewrite Z.land_ones by lia. rewrite Zeven_mod in Hw. by apply Z.eqb_eq in Hw.
Qed.

Lemma publish_fields q a b :
  queue_size (publish q a b) = queue_size q ∧ try_size (publish q a b) = try_size q ∧
  writeId (publish q a b) = writeId q ∧ circle_array (publish q a b) = circle_array q.
Proof. unfold publish. by case_decide. Qed.

(** What the three disjuncts amount to on a ring whose identifiers are even. *)
Lemma tryWriteSpace_spec q a b :
  queue_wf q → writeId q + try_size q ≤ LONG_MAX →
  tryWriteSpace q a b =
    let q' := publish q a b in
    if decide (readable_queue q' = [] ∨ writeId q + try_size q < queue_size q)
    then Ret (set_writeId (writeId q + try_size q) q', (writeId q, writeId q + try_size q))
    else Ret (q', (-1, -1)).
Proof.
  intros [Hsz Hts Hte Hw Hwe] Hmax. unfold tryWriteSpace. simpl.
  destruct (publish_fields q a b) as (Es & Et & Ew & _). rewrite Et, Ew.
  rewrite (proj2 (Z.ltb_ge _ _)) by done.
  assert (Z.even (writeId q + try_size q) = true) by (by rewrite Z.even_add, Hwe, Hte).
  assert (may_write (publish q a b) (writeId q + try_size q)
    = bool_decide (readable_queue (publish q a b) = [] ∨
                   writeId q + try_size q < queue_size q)) as ->.
  { unfold may_write. destruct (readable_queue _) as [|[f e] l].
    - by rewrite bool_decide_eq_true_2 by (by left).
    - rewrite behind_reader_even, orb_false_r, Es by done.
      unfold LONG_MAX in *. rewrite u64_small by lia.
      destruct (Z.ltb_spec (writeId q + try_size q) (queue_size q)).
      + rewrite bool_decide_eq_true_2; [done|by right].
      + rewrite bool_decide_eq_false_2; [done|]. intros [|]; [done|lia]. }
  by case_bool_decide; case_decide.
Qed.

(** ** The first lap: every identifier has its own slot *)

Definition first_lap (q : CircleQueue) : Prop := writeId q + try_size q < queue_size q.

(** A producer's block is being filled from its start. *)
Definition producer_wf (p : Producer) : Prop :=
  0 ≤ p_writeId p ≤ p_curWriteId p ∧ p_curWriteId p ≤ p_writableId p ∧
  (p_writableId p ≠ 0 → p_writeId p < p_writableId p).

Record pool_inv (s : Pool) : Prop := {
  inv_queue : queue_wf (ring s);
  inv_producers : Forall producer_wf (producers s);
  inv_blocks : Forall (λ b, 0 ≤ b.1 < b.2) (readable_queue (ring s));
  inv_ids : pending_ids s ++ (delivered s).*1 ++ free_ids s ≡ₚ seqZ 0 (writeId (ring s));
  inv_pending : ∀ id, id ∈ pending_ids s →
    stored s !! id = Some (CircleQueue_read (ring s) id);
  inv_delivered : ∀ id v, (id, v) ∈ delivered s → stored s !! id = Some v;
  inv_stored : ∀ id, is_Some (stored s !! id) → id ∈ pending_ids s ++ (delivered s).*1;
}.

Lemma block_ids_nil a b : b ≤ a → block_ids (a, b) = [].
Proof. intros. apply seqZ_nil. simpl. lia. Qed.

Lemma block_ids_cons a b : a < b → block_ids (a, b) = a :: block_ids (a + 1, b).
Proof.
  intros. unfold block_ids. simpl. rewrite seqZ_cons by lia.
  replace (Z.succ a) with (a + 1) by lia. by replace (Z.pred (b - a)) with (b - (a + 1)) by lia.
Qed.

Lemma block_ids_snoc a b : a ≤ b → block_ids (a, b + 1) = block_ids (a, b) ++ [b].
Proof.
  intros. unfold block_ids. simpl. replace (b + 1 - a) with ((b - a) + 1) by lia.
  rewrite seqZ_app by lia. by replace (a + (b - a)) with b by lia.
Qed.

Lemma seqZ_block a n : seqZ a n = block_ids (a, a + n).
Proof. unfold block_ids. simpl. f_equal. lia. Qed.

Lemma pool_inv_range s id :
  pool_inv s → id ∈ pending_ids s ++ (delivered s).*1 ++ free_ids s →
  0 ≤ id < writeId (ring s).
Proof. intros Hinv. rewrite (inv_ids _ Hinv), elem_of_seqZ. lia. Qed.

Lemma pool_inv_NoDup s :
  pool_inv s → NoDup (pending_ids s ++ (delivered s).*1 ++ free_ids s).
Proof. intros Hinv. rewrite (inv_ids _ Hinv). apply NoDup_seqZ. Qed.

(** On the first lap slots do not collide. *)
Lemma slot_first_lap q id : queue_wf q → 0 ≤ id < queue_size q → slot q id = id.
Proof.
  intros [Hsz _ _ _ _] Hid. unfold slot, LONG_MAX in *.
  rewrite u64_small, Z.mod_small; lia.
Qed.

Lemma read_write_same q id v : CircleQueue_read (CircleQueue_write q id v) id = v.
Proof. unfold CircleQueue_read, CircleQueue_write, slot. simpl. by rewrite lookup_insert_eq. Qed.

Lemma read_write_other q id id' v :
  queue_wf q → 0 ≤ id < queue_size q → 0 ≤ id' < queue_size q → id ≠ id' →
  CircleQueue_read (CircleQueue_write q id v) id' = CircleQueue_read q id'.
Proof.
  intros Hwf H1 H2 Hne. unfold CircleQueue_read, CircleQueue_write.
  change (slot (mkCircleQueue _ _ _ _ _)) with (slot q). simpl.
  rewrite !slot_first_lap by done. by rewrite lookup_insert_ne.
Qed.

(** On the first lap space is always granted. *)
Lemma Producer_refill_first_lap q p :
  queue_wf q → first_lap q →
  Producer_refill q p =
    Ret (set_writeId (writeId q + try_size q) (publish q (p_writeId p) (p_writableId p)),
         mkProducer (writeId q) (writeId q) (writeId q + try_size q), true).
Proof.
  intros Hwf Hlap. pose proof Hwf as [Hsz Hts _ Hw _]. unfold first_lap in Hlap.
  unfold Producer_refill. rewrite tryWriteSpace_spec by (done || lia).
  rewrite decide_True by (by right). simpl. by rewrite decide_True by lia.
Qed.

(** ** The invariant is preserved *)

Lemma publish_ids q a b :
  0 ≤ a → (b ≠ 0 → (a, b) ∉ readable_queue q) →
  (readable_queue (publish q a b) ≫= block_ids)
  ≡ₚ block_ids (a, b) ++ (readable_queue q ≫= block_ids).
Proof.
  intros Ha Hfresh. unfold publish. case_decide as Hb; simpl.
  - rewrite set_insert_perm by auto. by rewrite bind_cons.
  - by rewrite block_ids_nil by lia.
Qed.

(** A full block that its producer still holds has not been published. *)
Lemma held_block_fresh i p q ps cs w d :
  pool_inv (mkPool q ps cs w d) → ps !! i = Some p →
  p_curWriteId p = p_writableId p → p_writeId p < p_writableId p →
  (p_writeId p, p_writableId p) ∉ readable_queue q.
Proof.
  intros Hinv Hi Hcur Hlt Hin. pose proof (pool_inv_NoDup _ Hinv) as Hnd.
  unfold pending_ids in Hnd. simpl in Hnd.
  destruct (bind_insert_perm written_ids ps i p p Hi) as (k & Hk & _).
  rewrite Hk in Hnd. unfold written_ids in Hnd at 1. rewrite Hcur in Hnd.
  rewrite <-!app_assoc, (block_ids_cons (p_writeId p)) in Hnd by lia. simpl in Hnd.
  apply NoDup_cons in Hnd as [Hnin _]. apply Hnin. rewrite !elem_of_app. do 2 right. left.
  apply list_elem_of_bind. exists (p_writeId p, p_writableId p).
  split; [|done]. rewrite block_ids_cons by lia. by left.
Qed.

Lemma inv_refill i p q ps cs w d :
  pool_inv (mkPool q ps cs w d) → ps !! i = Some p → p_writableId p ≤ p_curWriteId p →
  first_lap q →
  pool_inv (mkPool
    (set_writeId (writeId q + try_size q) (publish q (p_writeId p) (p_writableId p)))
    (<[i := mkProducer (writeId q) (writeId q) (writeId q + try_size q)]> ps) cs w d).
Proof.
  intros Hinv Hi Hfull Hlap.
  pose proof Hinv as [Hq Hps Hbs Hids Hpend Hdel Hst]. simpl in *.
  pose proof Hq as [Hsz Hts Hte Hw Hwe]. unfold first_lap in Hlap.
  pose proof (Forall_lookup_1 _ _ _ _ Hps Hi) as (Hp1 & Hp2 & Hp3).
  assert (p_curWriteId p = p_writableId p) as Ecur by lia.
  set (p' := mkProducer _ _ _). set (q' := set_writeId _ _).
  assert (written_ids p' = [] ∧ unwritten_ids p = []) as [E1 E2].
  { unfold written_ids, unwritten_ids. by rewrite !block_ids_nil by (simpl; lia). }
  destruct (bind_insert_perm written_ids ps i p p' Hi) as (k & Hk & Hk').
  destruct (bind_insert_perm unwritten_ids ps i p p' Hi) as (u & Hu & Hu').
  assert ((readable_queue q' ≫= block_ids)
    ≡ₚ written_ids p ++ (readable_queue q ≫= block_ids)) as Hr.
  { unfold written_ids. rewrite Ecur. apply publish_ids; [lia|]. intros.
    eapply held_block_fresh; [done..|]. auto. }
  assert (pending_ids (mkPool q' (<[i:=p']> ps) cs w d) ≡ₚ pending_ids (mkPool q ps cs w d))
    as Hpeq.
  { unfold pending_ids. cbn [ring producers consumers]. rewrite Hk', Hr, Hk, E1. solve_Permutation. }
  destruct (publish_fields q (p_writeId p) (p_writableId p)) as (F1 & F2 & F3 & F4).
  assert (∀ id, CircleQueue_read q' id = CircleQueue_read q id) as Hread.
  { intros id. unfold CircleQueue_read, slot, q'. simpl. by rewrite F1, F4. }
  split; simpl.
  - split; simpl; rewrite ?F1, ?F2; try done; [lia|]. by rewrite Z.even_add, Hwe, Hte.
  - apply Forall_insert; [done|]. unfold producer_wf. simpl. lia.
  - unfold publish. case_decide; [|done]. simpl.
    apply Forall_forall. intros b [->|Hb]%set_insert_elem; simpl; [split; [lia|auto]|].
    by apply (proj1 (Forall_forall _ _) Hbs).
  - rewrite Hpeq. unfold free_ids in *. simpl in *.
    rewrite Hu'. rewrite Hu, E2 in Hids. rewrite seqZ_app, <-Hids by lia.
    rewrite (seqZ_block (0 + writeId q)). unfold unwritten_ids. simpl. solve_Permutation.
  - intros id. rewrite Hpeq, Hread. apply Hpend.
  - done.
  - intros id Hid. rewrite Hpeq. by apply Hst.
Qed.

Lemma inv_store i p q ps cs w d obj :
  pool_inv (mkPool q ps cs w d) → ps !! i = Some p → p_curWriteId p < p_writableId p →
  writeId q ≤ queue_size q →
  pool_inv (mkPool (CircleQueue_write q (p_curWriteId p) obj)
    (<[i := mkProducer (p_writeId p) (p_curWriteId p + 1) (p_writableId p)]> ps) cs
    (<[p_curWriteId p := obj]> w) d).
Proof.
  intros Hinv Hi Hroom Hlap. pose proof (pool_inv_NoDup _ Hinv) as Hnd.
  pose proof Hinv as [Hq Hps Hbs Hids Hpend Hdel Hst]. simpl in *.
  pose proof (Forall_lookup_1 _ _ _ _ Hps Hi) as (Hp1 & Hp2 & Hp3).
  set (p' := mkProducer _ _ _). set (id0 := p_curWriteId p) in *.
  destruct (bind_insert_perm written_ids ps i p p' Hi) as (k & Hk & Hk').
  destruct (bind_insert_perm unwritten_ids ps i p p' Hi) as (u & Hu & Hu').
  assert (written_ids p' = written_ids p ++ [id0]) as E1
    by (apply block_ids_snoc; unfold id0 in *; simpl; lia).
  assert (unwritten_ids p = id0 :: unwritten_ids p') as E2 by (by apply block_ids_cons).
  set (s := mkPool q ps cs w d) in *. set (s' := mkPool _ _ _ _ _).
  assert (pending_ids s' ≡ₚ id0 :: pending_ids s) as Hpeq.
  { unfold pending_ids. simpl. rewrite Hk', Hk, E1. solve_Permutation. }
  assert (free_ids s ≡ₚ id0 :: free_ids s') as Hfeq.
  { unfold free_ids. simpl. rewrite Hu', Hu, E2. solve_Permutation. }
  assert (∀ id, id ∈ pending_ids s ++ (delivered s).*1 ++ free_ids s →
    0 ≤ id < queue_size q) as Hrange.
  { intros id Hid. apply (pool_inv_range s id Hinv) in Hid. simpl in Hid. lia. }
  assert (id0 ∈ free_ids s) as Hid0 by (rewrite Hfeq; by left).
  assert (∀ id, id ∈ pending_ids s ++ d.*1 → id ≠ id0) as Hother.
  { intros id Hid ->. rewrite app_assoc in Hnd. apply NoDup_app in Hnd as (_ & Hd & _).
    by apply (Hd id0). }
  split; simpl.
  - by destruct Hq.
  - apply Forall_insert; [done|]. unfold producer_wf. simpl. lia.
  - done.
  - rewrite Hpeq, <-Hids, Hfeq. solve_Permutation.
  - intros id. rewrite Hpeq, elem_of_cons. intros [->|Hid].
    + by rewrite lookup_insert_eq, read_write_same.
    + pose proof (Hother id ltac:(rewrite elem_of_app; by left)).
      rewrite lookup_insert_ne, read_write_other; [by apply Hpend|done| | |done|done].
      * apply Hrange. rewrite !elem_of_app. by do 2 right.
      * apply Hrange. rewrite !elem_of_app. by left.
  - intros id v Hin. rewrite lookup_insert_ne; [by apply Hdel|]. intros <-.
    apply (Hother id0); [|done]. rewrite elem_of_app. right.
    by apply (list_elem_of_fmap_2 fst) in Hin.
  - intros id. rewrite lookup_insert_is_Some'. intros Hid. rewrite Hpeq. simpl.
    rewrite elem_of_cons. destruct Hid as [->|Hid]; [by left|right; by apply Hst].
Qed.

Lemma inv_claim j c q ps cs w d b rest :
  pool_inv (mkPool q ps cs w d) → cs !! j = Some c → c_readableId c ≤ c_readId c →
  readable_queue q = b :: rest →
  pool_inv (mkPool (set_readable rest q) ps (<[j := mkConsumer b.1 b.2]> cs) w d).
Proof.
  intros Hinv Hj Hdone Hq. pose proof Hinv as [Hwf Hps Hbs Hids Hpend Hdel Hst].
  set (c' := mkConsumer b.1 b.2).
  destruct (bind_insert_perm consumer_ids cs j c c' Hj) as (k & Hk & Hk').
  set (s := mkPool q ps cs w d) in *. set (s' := mkPool _ _ _ _ _).
  assert (pending_ids s' ≡ₚ pending_ids s) as Hpeq.
  { unfold pending_ids. cbn [ring producers consumers s s' readable_queue set_readable].
    rewrite Hk', Hk, Hq, bind_cons. unfold consumer_ids at 2.
    rewrite block_ids_nil by done. unfold consumer_ids. destruct b. simpl. solve_Permutation. }
  simpl in Hbs. rewrite Hq in Hbs. apply Forall_cons in Hbs as [Hb Hrest].
  split; simpl; [by destruct Hwf|done|done| | |done|].
  - by rewrite Hpeq.
  - intros id. rewrite Hpeq. apply Hpend.
  - intros id Hid. rewrite Hpeq. by apply Hst.
Qed.

Lemma inv_fetch j c q ps cs w d :
  pool_inv (mkPool q ps cs w d) → cs !! j = Some c → c_readId c < c_readableId c →
  pool_inv (mkPool q ps (<[j := mkConsumer (c_readId c + 1) (c_readableId c)]> cs) w
    (d ++ [(c_readId c, CircleQueue_read q (c_readId c))])).
Proof.
  intros Hinv Hj Hmore. pose proof Hinv as [Hwf Hps Hbs Hids Hpend Hdel Hst].
  set (c' := mkConsumer _ _).
  destruct (bind_insert_perm consumer_ids cs j c c' Hj) as (k & Hk & Hk').
  assert (consumer_ids c = c_readId c :: consumer_ids c') as E by (by apply block_ids_cons).
  set (s := mkPool q ps cs w d) in *. set (s' := mkPool _ _ _ _ _).
  assert (pending_ids s ≡ₚ c_readId c :: pending_ids s') as Hpeq.
  { unfold pending_ids. cbn [ring producers consumers s s'].
    rewrite Hk', Hk, E. solve_Permutation. }
  assert (w !! c_readId c = Some (CircleQueue_read q (c_readId c))) as Hv.
  { apply (Hpend (c_readId c)). rewrite Hpeq. by left. }
  split; simpl; [done|done|done| | | |].
  - change (writeId q) with (writeId (ring s)). rewrite <-Hids. simpl. rewrite Hpeq, fmap_app. simpl.
    unfold free_ids. simpl.
    solve_Permutation.
  - intros id Hid. apply (Hpend id). rewrite Hpeq. by right.
  - intros id v [Hin|Hin]%elem_of_app; [by apply Hdel|].
    apply list_elem_of_singleton in Hin. by simplify_eq.
  - intros id Hid%Hst. rewrite Hpeq in Hid. rewrite fmap_app. simpl in *.
    rewrite elem_of_cons, !elem_of_app in *. rewrite list_elem_of_singleton. naive_solver.
Qed.

(** ** Every interleaving of the first lap *)

Lemma pool_new_inv q :
  queue_wf q → writeId q = 0 → readable_queue q = [] → pool_inv (Pool_new q).
Proof.
  intros Hq Hw Hr. split; simpl; [done|constructor|by rewrite Hr| | | |].
  - unfold pending_ids, free_ids. simpl. rewrite Hr. simpl. by rewrite Hw.
  - unfold pending_ids. simpl. rewrite Hr. simpl. intros id Hid.
    by apply not_elem_of_nil in Hid.
  - intros id v Hid. by apply not_elem_of_nil in Hid.
  - intros id. rewrite lookup_empty. by intros [? ?].
Qed.

Lemma Producer_refill_mono q p q' p' ok :
  0 ≤ try_size q → Producer_refill q p = Ret (q', p', ok) →
  writeId q ≤ writeId q' ∧ queue_size q' = queue_size q ∧ try_size q' = try_size q.
Proof.
  unfold Producer_refill, tryWriteSpace. intros Hts Hr.
  destruct (publish_fields q (p_writeId p) (p_writableId p)) as (E1 & E2 & E3 & _).
  case_match; [done|]. case_match; simpl in Hr; repeat case_decide; simplify_outcome; lia.
Qed.

(** Asking for space writes to no slot. *)
Lemma Producer_refill_array q p q' p' ok :
  Producer_refill q p = Ret (q', p', ok) → circle_array q' = circle_array q.
Proof.
  unfold Producer_refill, tryWriteSpace. intros Hr.
  destruct (publish_fields q (p_writeId p) (p_writableId p)) as (_ & _ & _ & E).
  case_match; [done|]. case_match; simpl in Hr; repeat case_decide; by simplify_outcome.
Qed.

Lemma Consumer_claim_array q c q' c' ok :
  Consumer_claim q c = Some (q', c', ok) → circle_array q' = circle_array q.
Proof.
  unfold Consumer_claim, tryReadSpaceByCV. destruct (readable_queue q); [done|simpl].
  case_decide; intros; by simplify_eq.
Qed.

(** The ring moves forward only, and keeps its dimensions. *)
Lemma pool_step_mono s s' :
  0 ≤ try_size (ring s) → pool_step s s' →
  writeId (ring s) ≤ writeId (ring s') ∧ queue_size (ring s') = queue_size (ring s) ∧
  try_size (ring s') = try_size (ring s).
Proof.
  intros Hts Hstep. destruct Hstep as [| | | i p q ps cs w d obj q' p' Hi Hlt Hs
    | j c q ps cs w d q' c' ok Hj Hle Hc |]; simpl in *; [lia|lia| | | |lia].
  - by eapply Producer_refill_mono.
  - unfold Producer_store in Hs. by simplify_eq.
  - unfold Consumer_claim, tryReadSpaceByCV in Hc. destruct (readable_queue q); [done|].
    simpl in Hc. by case_decide; simplify_eq.
Qed.

Lemma pool_step_inv s s' :
  pool_inv s → first_lap (ring s) → pool_step s s' → pool_inv s'.
Proof.
  intros Hinv Hlap Hstep. destruct Hstep as [q ps cs w d|q ps cs w d
    | i p q ps cs w d q' p' ok Hi Hle Hr | i p q ps cs w d obj q' p' Hi Hlt Hs
    | j c q ps cs w d q' c' ok Hj Hle Hc | j c q ps cs w d c' v Hj Hlt Hf].
  - destruct Hinv as [Hq Hps Hbs Hids Hpend Hdel Hst].
    unfold pending_ids, free_ids in *. simpl in *.
    split; unfold pending_ids, free_ids; simpl; rewrite ?bind_app; simpl;
      rewrite ?app_nil_r; try done.
    apply Forall_app. split; [done|]. constructor; [|constructor].
    unfold producer_wf. simpl. lia.
  - destruct Hinv as [Hq Hps Hbs Hids Hpend Hdel Hst].
    unfold pending_ids, free_ids in *. simpl in *.
    by split; unfold pending_ids, free_ids; simpl; rewrite ?bind_app; simpl;
      rewrite ?app_nil_r.
  - rewrite Producer_refill_first_lap in Hr by (done || apply (inv_queue _ Hinv)).
    simplify_outcome. by apply inv_refill.
  - unfold Producer_store in Hs. simplify_eq. apply inv_store; [done..|].
    pose proof (wf_try _ (inv_queue _ Hinv)). unfold first_lap in Hlap. simpl in *. lia.
  - unfold Consumer_claim, tryReadSpaceByCV in Hc.
    destruct (readable_queue q) as [|b rest] eqn:Eq; [done|]. simpl in Hc.
    pose proof (inv_blocks _ Hinv) as Hbs. simpl in Hbs. rewrite Eq in Hbs.
    apply Forall_cons in Hbs as [Hb _]. rewrite decide_True in Hc by lia. simplify_eq.
    by eapply inv_claim.
  - unfold Consumer_fetch in Hf. simplify_eq. by apply inv_fetch.
Qed.

Lemma pool_reachable_inv q s :
  queue_wf q → writeId q = 0 → readable_queue q = [] →
  rtc pool_step (Pool_new q) s →
  try_size (ring s) = try_size q ∧ (first_lap (ring s) → pool_inv s).
Proof.
  intros Hq Hw Hr. pose proof (wf_try _ Hq) as Hts.
  apply (rtc_ind_r (λ s, try_size (ring s) = try_size q ∧ (first_lap (ring s) → pool_inv s))).
  - split; [done|]. intros _. by apply pool_new_inv.
  - intros s1 s2 _ Hstep [Et IH]. destruct (pool_step_mono s1 s2) as (H1 & H2 & H3);
      [lia|done|]. split; [congruence|]. intros Hlap.
    assert (first_lap (ring s1)) by (unfold first_lap in *; lia).
    eapply pool_step_inv; eauto.
Qed.

(** ** After the first lap *)

(** A producer that has filled a block of its own. *)
Definition established (p : Producer) : Prop :=
  p_writableId p ≠ 0 ∧ p_writableId p ≤ p_curWriteId p.

Lemma publish_own_block q a b :
  b ≠ 0 → (a, b) ∈ readable_queue (publish q a b).
Proof.
  intros Hb. unfold publish. rewrite decide_True by done. apply set_insert_elem. by left.
Qed.

(** Its own block is in the set when the emptiness of the set is tested. *)
Lemma Producer_refill_stuck q p :
  queue_wf q → ¬ first_lap q → writeId q + try_size q ≤ LONG_MAX → established p →
  Producer_refill q p = Ret (publish q (p_writeId p) (p_writableId p), p, false).
Proof.
  intros Hq Hlap Hmax [Hne Hfull]. unfold Producer_refill.
  rewrite tryWriteSpace_spec by done. simpl. rewrite decide_False; [done|].
  intros [E|E]; [|by apply Hlap].
  apply (not_elem_of_nil (p_writeId p, p_writableId p)). rewrite <-E.
  by apply publish_own_block.
Qed.

Lemma Producer_refill_wf q p q' p' ok :
  queue_wf q → Producer_refill q p = Ret (q', p', ok) →
  queue_wf q' ∧ writeId q + try_size q ≤ LONG_MAX.
Proof.
  intros Hq Hr. pose proof Hq as [Hsz Hts Hte Hw Hwe].
  destruct (publish_fields q (p_writeId p) (p_writableId p)) as (E1 & E2 & E3 & _).
  assert (writeId q + try_size q ≤ LONG_MAX) as Hmax.
  { unfold Producer_refill, tryWriteSpace in Hr. rewrite E2, E3 in Hr.
    destruct (Z.ltb_spec LONG_MAX (writeId q + try_size q)); [done|lia]. }
  split; [|done]. unfold Producer_refill in Hr. rewrite tryWriteSpace_spec in Hr by done.
  cbn zeta in Hr. case_decide; simpl in Hr; [rewrite decide_True in Hr by lia|];
    simplify_outcome; split; simpl; rewrite ?E1, ?E2, ?E3; try done; [lia|].
  by rewrite Z.even_add, Hwe, Hte.
Qed.

(** What makes a producer unable to go on, for good. *)
Definition stuck (i : nat) (p : Producer) (s : Pool) : Prop :=
  queue_wf (ring s) ∧ ¬ first_lap (ring s) ∧ producers s !! i = Some p ∧ established p.

Lemma stuck_step i p s s' : stuck i p s → pool_step s s' → stuck i p s'.
Proof.
  intros (Hq & Hlap & Hi & Hp) Hstep. unfold stuck.
  destruct (pool_step_mono s s') as (Hw & Es & Et);
    [pose proof (wf_try _ Hq); lia|done|].
  assert (¬ first_lap (ring s')) as Hlap' by (unfold first_lap in *; lia).
  split; [|split; [done|split; [|done]]].
  - clear Hlap'. destruct Hstep as [| |? ? ? ? ? ? ? ? ? ? ? ? Hr|? ? ? ? ? ? ? ? ? ? ? ? Hs
      |? ? ? ? ? ? ? ? ? ? ? ? Hc|]; simpl in *; [done|done| | | |done].
    + by apply (Producer_refill_wf _ _ _ _ _ Hq Hr).
    + unfold Producer_store in Hs. simplify_eq. by destruct Hq.
    + unfold Consumer_claim, tryReadSpaceByCV in Hc. destruct (readable_queue _); [done|].
      simpl in Hc. by case_decide; simplify_eq; destruct Hq.
  - destruct Hstep as [| |i' p1 q ps cs w d q' p' ok Hi' Hle Hr|i' p1 q ps cs w d obj q' p' Hi' Hlt Hs
      |? ? ? ? ? ? ? ? ? ? ? ? Hc|]; simpl in *; [by apply lookup_app_l_Some|done| | |done|done];
      (destruct (decide (i' = i)) as [->|Hne]; [|by rewrite list_lookup_insert_ne]);
      simplify_eq; rewrite list_lookup_insert_eq by (by eapply lookup_lt_Some).
    + destruct (Producer_refill_wf _ _ _ _ _ Hq Hr) as [_ Hmax].
      rewrite Producer_refill_stuck in Hr by done. by simplify_outcome.
    + destruct Hp. lia.
Qed.

(** ** Calls are sequences of steps *)

Lemma Producer_refill_room q p q' p' :
  0 < try_size q → Producer_refill q p = Ret (q', p', true) →
  p_curWriteId p' < p_writableId p'.
Proof.
  unfold Producer_refill, tryWriteSpace. intros Hts Hr.
  destruct (publish_fields q (p_writeId p) (p_writableId p)) as (_ & E2 & _).
  case_match; [done|]. case_match; simpl in Hr; repeat case_decide; simplify_outcome; lia.
Qed.

Lemma Producer_write_steps i p obj q ps cs w d q' p' ok :
  0 < try_size q → ps !! i = Some p → Producer_write q p obj = Ret (q', p', ok) →
  ∃ w', rtc pool_step (mkPool q ps cs w d) (mkPool q' (<[i := p']> ps) cs w' d).
Proof.
  intros Hts Hi. unfold Producer_write.
  destruct (Z.leb_spec (p_writableId p) (p_curWriteId p)) as [Hle|Hlt]; intros Hw.
  - apply bind_Ret_inv in Hw as ([[q1 p1] ok1] & Hr & Hw).
    destruct ok1; simplify_outcome.
    + eexists. eapply rtc_l; [by eapply pool_refill|]. apply rtc_once.
      rewrite <-(list_insert_insert_eq ps i
        (mkProducer (p_writeId p1) (p_curWriteId p1 + 1) (p_writableId p1)) p1).
      eapply pool_store; [by apply list_lookup_insert_eq; eapply lookup_lt_Some| |done].
      by eapply Producer_refill_room.
    + exists w. apply rtc_once. by eapply pool_refill.
  - simplify_outcome. eexists. apply rtc_once. by eapply pool_store.
Qed.

Lemma Consumer_read_steps j c q ps cs w d q' c' v ok :
  cs !! j = Some c → Forall (λ b, 0 ≤ b.1 < b.2) (readable_queue q) →
  Consumer_read q c = Some (q', c', (v, ok)) →
  ok = true ∧ ∃ id, rtc pool_step (mkPool q ps cs w d)
    (mkPool q' ps (<[j := c']> cs) w (d ++ [(id, v)])).
Proof.
  intros Hj Hbs. unfold Consumer_read.
  destruct (Z.leb_spec (c_readableId c) (c_readId c)) as [Hle|Hlt]; intros Hr.
  - destruct (Consumer_claim q c) as [[[q1 c1] ok1]|] eqn:Hc; [|done]. simpl in Hr.
    pose proof Hc as Hc'. unfold Consumer_claim, tryReadSpaceByCV in Hc'.
    destruct (readable_queue q) as [|b rest]; [done|]. simpl in Hc'.
    apply Forall_cons in Hbs as [Hb _]. rewrite decide_True in Hc' by lia. simplify_eq.
    split; [done|]. eexists. eapply rtc_l; [by eapply pool_claim|]. apply rtc_once.
    simpl. rewrite <-(list_insert_insert_eq cs j (mkConsumer (b.1 + 1) b.2) (mkConsumer b.1 b.2)).
    eapply pool_fetch; [by apply list_lookup_insert_eq; eapply lookup_lt_Some|simpl; lia|done].
  - simpl in Hr. simplify_eq. split; [done|]. eexists. apply rtc_once. by eapply pool_fetch.
Qed.

(** ** One producer and one consumer going round the ring *)

Definition same_counters (q q' : CircleQueue) : Prop :=
  queue_size q' = queue_size q ∧ try_size q' = try_size q ∧ writeId q' = writeId q ∧
  readable_queue q' = readable_queue q.

Lemma solo_refill p q cs w d q' p' ok :
  p_writableId p ≤ p_curWriteId p → Producer_refill q p = Ret (q', p', ok) →
  pool_step (mkPool q [p] cs w d) (mkPool q' [p'] cs w d).
Proof. intros Hle Hr. exact (pool_refill 0 p q [p] cs w d q' p' ok eq_refl Hle Hr). Qed.

Lemma solo_store a cur e q cs w d obj :
  cur < e →
  pool_step (mkPool q [mkProducer a cur e] cs w d)
    (mkPool (CircleQueue_write q cur obj) [mkProducer a (cur + 1) e] cs (<[cur := obj]> w) d).
Proof.
  intros Hlt.
  exact (pool_store 0 _ q [mkProducer a cur e] cs w d obj _ _ eq_refl Hlt eq_refl).
Qed.

Lemma solo_claim c q ps w d q' c' ok :
  c_readableId c ≤ c_readId c → Consumer_claim q c = Some (q', c', ok) →
  pool_step (mkPool q ps [c] w d) (mkPool q' ps [c'] w d).
Proof. intros Hle Hc. exact (pool_claim 0 c q ps [c] w d q' c' ok eq_refl Hle Hc). Qed.

Lemma solo_fetch r e q ps w d :
  r < e →
  pool_step (mkPool q ps [mkConsumer r e] w d)
    (mkPool q ps [mkConsumer (r + 1) e] w (d ++ [(r, CircleQueue_read q r)])).
Proof.
  intros Hlt. exact (pool_fetch 0 _ q ps [mkConsumer r e] w d _ _ eq_refl Hlt eq_refl).
Qed.

(** The producer fills what is left of its block. *)
Lemma fill_block n : ∀ a cur e q c w d,
  e - cur = Z.of_nat n →
  ∃ q' w', rtc pool_step (mkPool q [mkProducer a cur e] [c] w d)
                         (mkPool q' [mkProducer a e e] [c] w' d) ∧ same_counters q q'.
Proof.
  induction n as [|n IH]; intros a cur e q c w d Hn.
  - replace cur with e by lia. by exists q, w.
  - destruct (IH a (cur + 1) e (CircleQueue_write q cur dflt) c (<[cur:=dflt]> w) d)
      as (q' & w' & Hsteps & Hsame); [lia|].
    exists q', w'. split; [|done]. eapply rtc_l; [|exact Hsteps].
    apply solo_store. lia.
Qed.

(** The consumer reads what is left of its block. *)
Lemma drain_block n : ∀ r e q ps w d,
  e - r = Z.of_nat n →
  ∃ d', rtc pool_step (mkPool q ps [mkConsumer r e] w d) (mkPool q ps [mkConsumer e e] w d') ∧
    d'.*1 = d.*1 ++ block_ids (r, e).
Proof.
  induction n as [|n IH]; intros r e q ps w d Hn.
  - replace r with e by lia. exists d. by rewrite block_ids_nil, app_nil_r by lia.
  - destruct (IH (r + 1) e q ps w (d ++ [(r, CircleQueue_read q r)])) as (d' & Hsteps & Hd);
      [lia|].
    exists d'. split.
    + eapply rtc_l; [|exact Hsteps]. apply solo_fetch. lia.
    + rewrite Hd, fmap_app, <-app_assoc, (block_ids_cons r) by lia. done.
Qed.

(** It takes the only published block and reads all of it. *)
Lemma claim_and_drain a e r q ps w d :
  readable_queue q = [(a, e)] → 0 ≤ a ≤ e →
  ∃ d', rtc pool_step (mkPool q ps [mkConsumer r r] w d)
          (mkPool (set_readable [] q) ps [mkConsumer e e] w d') ∧
    d'.*1 = d.*1 ++ block_ids (a, e).
Proof.
  intros Hq Ha.
  destruct (drain_block (Z.to_nat (e - a)) a e (set_readable [] q) ps w d)
    as (d' & Hsteps & Hd); [lia|].
  exists d'. split; [|done]. eapply rtc_l; [|exact Hsteps].
  eapply solo_claim; [done|].
  unfold Consumer_claim, tryReadSpaceByCV. rewrite Hq. simpl. by rewrite decide_True by lia.
Qed.

(** After [k] blocks: the last one is full, the others have been read. *)
Record round_state (size try k : Z) (s : Pool) : Prop := {
  round_wf : queue_wf (ring s);
  round_size : queue_size (ring s) = size ∧ try_size (ring s) = try;
  round_writeId : writeId (ring s) = k * try;
  round_readable : readable_queue (ring s) = [];
  round_producer : producers s = [mkProducer (k * try - try) (k * try) (k * try)];
  round_consumer : ∃ r, consumers s = [mkConsumer r r];
}.

Lemma publish_empty q a b :
  b ≠ 0 → readable_queue q = [] → readable_queue (publish q a b) = [(a, b)].
Proof. intros Hb Hq. unfold publish. rewrite decide_True by done. simpl. by rewrite Hq. Qed.

Lemma round_next size try k s :
  1 ≤ k → round_state size try k s → (k + 1) * try < size →
  ∃ s', rtc pool_step s s' ∧ round_state size try (k + 1) s'.
Proof.
  intros Hk [Hwf [Hs Ht] Hw Hr Hp [r Hc]] Hlt. destruct s as [q ps cs w d]. simpl in *. subst.
  set (try := try_size q) in *. set (p := mkProducer _ _ _).
  pose proof (wf_try _ Hwf) as Hpos. fold try in Hpos.
  assert (first_lap q) as Hlap by (unfold first_lap; fold try; lia).
  pose proof (Producer_refill_first_lap q p Hwf Hlap) as Hrefill.
  destruct (Producer_refill_wf _ _ _ _ _ Hwf Hrefill) as [Hwf' _]. revert Hrefill Hwf'.
  simpl. rewrite Hw. fold try. set (q1 := set_writeId _ _). intros Hrefill Hwf'.
  destruct (publish_fields q (k * try - try) (k * try)) as (E1 & E2 & E3 & _).
  assert (readable_queue q1 = [(k * try - try, k * try)]) as Hr1
    by (apply publish_empty; [lia|done]).
  set (p1 := mkProducer (k * try) (k * try) (k * try + try)).
  destruct (claim_and_drain (k * try - try) (k * try) r q1 [p1] w d)
    as (d' & Hdrain & _); [done|nia|].
  destruct (fill_block (Z.to_nat try) (k * try) (k * try) (k * try + try)
    (set_readable [] q1) (mkConsumer (k * try) (k * try)) w d')
    as (q2 & w' & Hfill & F1 & F2 & F3 & F4); [lia|].
  eexists. split.
  - eapply rtc_l; [eapply solo_refill; [done|exact Hrefill]|].
    etrans; [exact Hdrain|exact Hfill].
  - replace (k * try + try) with ((k + 1) * try) by lia. split; simpl.
    + destruct Hwf' as [? ? ? ? ?]. by split; rewrite ?F1, ?F2, ?F3.
    + by rewrite F1, F2.
    + rewrite F3. simpl. lia.
    + by rewrite F4.
    + do 2 f_equal. lia.
    + eauto.
Qed.

Lemma round_first q :
  queue_wf q → writeId q = 0 → readable_queue q = [] → try_size q < queue_size q →
  ∃ s, rtc pool_step (Pool_new q) s ∧ round_state (queue_size q) (try_size q) 1 s.
Proof.
  intros Hwf Hw Hr Hlt. pose proof (wf_try _ Hwf) as Hpos.
  assert (first_lap q) as Hlap by (unfold first_lap; lia).
  pose proof (Producer_refill_first_lap q Producer_new Hwf Hlap) as Hrefill.
  destruct (Producer_refill_wf _ _ _ _ _ Hwf Hrefill) as [Hwf' _].
  rewrite Hw in *. simpl in *.
  destruct (fill_block (Z.to_nat (try_size q)) 0 0 (try_size q) (set_writeId (try_size q) q)
    Consumer_new ∅ []) as (q2 & w' & Hfill & F1 & F2 & F3 & F4); [lia|].
  eexists. split.
  - eapply rtc_l; [apply pool_new_producer|]. eapply rtc_l; [apply pool_new_consumer|].
    eapply rtc_l; [eapply solo_refill; [done|exact Hrefill]|]. exact Hfill.
  - split; simpl.
    + destruct Hwf' as [? ? ? ? ?]. by split; rewrite ?F1, ?F2, ?F3.
    + by rewrite F1, F2.
    + rewrite F3. simpl. lia.
    + by rewrite F4.
    + do 2 f_equal; lia.
    + by exists 0.
Qed.

Lemma round_reach q n :
  queue_wf q → writeId q = 0 → readable_queue q = [] →
  (Z.of_nat n + 1) * try_size q < queue_size q →
  ∃ s, rtc pool_step (Pool_new q) s ∧
       round_state (queue_size q) (try_size q) (Z.of_nat n + 1) s.
Proof.
  intros Hwf Hw Hr. pose proof (wf_try _ Hwf). induction n as [|n IH]; intros Hlt.
  - apply round_first; [done..|]. lia.
  - destruct IH as (s & Hs & Hround); [nia|].
    destruct (round_next (queue_size q) (try_size q) (Z.of_nat n + 1) s) as (s' & Hs' & Hround');
      [lia|done|lia|].
    exists s'. split; [by etrans|]. by replace (Z.of_nat (S n)) with (Z.of_nat n + 1) by lia.
Qed.

(** At the end of the lap the producer publishes its last block on every
    attempt to write, and the consumer runs it on every publication. *)
Lemma redeliver a e r q w d :
  queue_wf q → ¬ first_lap q → writeId q + try_size q ≤ LONG_MAX →
  readable_queue q = [] → 0 ≤ a < e →
  ∃ q' d', rtc pool_step (mkPool q [mkProducer a e e] [mkConsumer r r] w d)
             (mkPool q' [mkProducer a e e] [mkConsumer e e] w d') ∧
    queue_wf q' ∧ ¬ first_lap q' ∧ writeId q' + try_size q' ≤ LONG_MAX ∧
    readable_queue q' = [] ∧ d'.*1 = d.*1 ++ block_ids (a, e).
Proof.
  intros Hwf Hlap Hmax Hr Hae. set (p := mkProducer a e e).
  assert (established p) as Hp by (split; simpl; lia).
  pose proof (Producer_refill_stuck q p Hwf Hlap Hmax Hp) as Hrefill.
  destruct (Producer_refill_wf _ _ _ _ _ Hwf Hrefill) as [Hwf' _]. simpl in *.
  destruct (publish_fields q a e) as (E1 & E2 & E3 & _).
  destruct (claim_and_drain a e r (publish q a e) [p] w d) as (d' & Hdrain & Hd);
    [by apply publish_empty; [lia|]|lia|].
  eexists _, d'. split; [eapply rtc_l; [eapply solo_refill; [done|exact Hrefill]|exact Hdrain]|].
  unfold first_lap in *. simpl. rewrite E1, E2, E3.
  split; [|done]. by destruct Hwf'.
Qed.

Lemma ring_redelivers q n :
  queue_wf q → writeId q = 0 → readable_queue q = [] →
  queue_size q = (Z.of_nat n + 2) * try_size q → queue_size q + try_size q ≤ LONG_MAX →
  ∃ s, rtc pool_step (Pool_new q) s ∧ ¬ NoDup (delivered s).*1.
Proof.
  intros Hwf Hw Hr Hsize Hmax. pose proof (wf_try _ Hwf) as Hpos.
  destruct (round_reach q n Hwf Hw Hr ltac:(lia)) as (s & Hs & Hround).
  destruct Hround as [Hwf1 [Es Et] Ew Er Ep [r Ec]], s as [q1 ps cs w d]. simpl in *. subst.
  set (e := (Z.of_nat n + 1) * try_size q) in *. assert (0 ≤ e - try_size q < e) by lia.
  destruct (redeliver (e - try_size q) e r q1 w d) as (q2 & d2 & H2 & Hwf2 & Hl2 & Hm2 & Hr2 & Hd2);
    [done|unfold first_lap; lia|lia|done|lia|].
  destruct (redeliver (e - try_size q) e e q2 w d2) as (q3 & d3 & H3 & _ & _ & _ & _ & Hd3);
    [done..|lia|].
  eexists. split; [etrans; [exact Hs|]; etrans; [exact H2|exact H3]|].
  simpl. rewrite Hd3, Hd2, block_ids_cons by lia. intros Hnd.
  apply NoDup_app in Hnd as (_ & Hdisj & _). apply (Hdisj (e - try_size q)); [|by left].
  apply elem_of_app. right. by left.
Qed.

Lemma CircleQueue_new_wf : queue_wf CircleQueue_new.
Proof. by split; vm_compute. Qed.

(** ** A sequence of writes by one producer *)

Fixpoint Producer_writes (q : CircleQueue) (p : Producer) (objs : list T)
    : outcome (CircleQueue * Producer * list bool) :=
  match objs with
  | [] => Ret (q, p, [])
  | obj :: objs' =>
      '(q', p', ok) ← Producer_write q p obj;
      '(q'', p'', oks) ← Producer_writes q' p' objs';
      Ret (q'', p'', ok :: oks)
  end.

Lemma Producer_writes_in_block objs : ∀ q p,
  p_curWriteId p + Z.of_nat (length objs) ≤ p_writableId p →
  ∃ q' p', Producer_writes q p objs = Ret (q', p', replicate (length objs) true) ∧
    readable_queue q' = readable_queue q.
Proof.
  induction objs as [|obj objs IH]; intros q p Hroom; simpl in *; [eauto|].
  unfold Producer_write. rewrite (proj2 (Z.leb_gt _ _)) by lia. simpl.
  destruct (IH (CircleQueue_write q (p_curWriteId p) obj)
    (mkProducer (p_writeId p) (p_curWriteId p + 1) (p_writableId p)))
    as (q' & p' & -> & Hr); [simpl; lia|]. simpl. eauto.
Qed.

(** ** Properties *)

(** C12. Exactly once, on the first lap.  Whatever the number of producers and
    consumers and however their critical sections and slot accesses interleave,
    as long as the ring has not been granted out once, no identifier is
    delivered twice, what is delivered is what was stored, and everything
    stored has been delivered or is still in its slot, in a block that a
    producer, the set or a consumer holds. *)
Theorem ring_exactly_once (q : CircleQueue) (s : Pool) :
  queue_wf q → writeId q = 0 → readable_queue q = [] →
  rtc pool_step (Pool_new q) s → first_lap (ring s) →
  NoDup (delivered s).*1 ∧
  (∀ id v, (id, v) ∈ delivered s → stored s !! id = Some v) ∧
  (∀ id v, stored s !! id = Some v →
     (id, v) ∈ delivered s ∨ (id ∈ pending_ids s ∧ CircleQueue_read (ring s) id = v)).
Proof.
  intros Hq Hw Hr Hsteps Hlap.
  pose proof (proj2 (pool_reachable_inv q s Hq Hw Hr Hsteps) Hlap) as Hinv.
  pose proof (pool_inv_NoDup _ Hinv) as Hnd. apply NoDup_app in Hnd as (_ & _ & Hnd).
  apply NoDup_app in Hnd as (Hnd & _ & _).
  split; [done|]. split; [apply Hinv|]. intros id v Hv.
  destruct (proj1 (elem_of_app _ _ _) (inv_stored _ Hinv id (mk_is_Some _ _ Hv))) as [Hp|Hd].
  - right. split; [done|]. pose proof (inv_pending _ Hinv id Hp). congruence.
  - left. apply list_elem_of_fmap in Hd as ([id' v'] & -> & Hin). simpl in *.
    pose proof (inv_delivered _ Hinv _ _ Hin). by simplify_eq.
Qed.

(** The calls are runs of the pool: a [Producer_write] and a
    [Consumer_read] that return are each a sequence of pool steps with the same
    effect, and a [Consumer_read] that returns has really read an entry. *)
Theorem calls_are_pool_steps (i : nat) (q : CircleQueue) (ps : list Producer)
    (cs : list Consumer) (w : gmap Z T) (d : list (Z * T)) :
  0 < try_size q → Forall (λ b, 0 ≤ b.1 < b.2) (readable_queue q) →
  (∀ p obj q' p' ok, ps !! i = Some p → Producer_write q p obj = Ret (q', p', ok) →
     ∃ w', rtc pool_step (mkPool q ps cs w d) (mkPool q' (<[i := p']> ps) cs w' d)) ∧
  (∀ c q' c' v ok, cs !! i = Some c → Consumer_read q c = Some (q', c', (v, ok)) →
     ok = true ∧ ∃ id, rtc pool_step (mkPool q ps cs w d)
       (mkPool q' ps (<[i := c']> cs) w (d ++ [(id, v)]))).
Proof.
  intros Hts Hbs. split.
  - intros p obj q' p' ok Hi Hw. by eapply Producer_write_steps.
  - intros c q' c' v ok Hi Hr. by eapply Consumer_read_steps.
Qed.

(** C26. The grant test.  Because [<] binds tighter than [&] and identifiers
    are even, the third disjunct of [tryWriteSpace] is always false: space is
    granted exactly when no block is readable or the new block ends inside the
    first lap.  The position of the readers plays no part. *)
Theorem tryWriteSpace_grants (q : CircleQueue) (a b : Z) :
  queue_wf q → writeId q + try_size q ≤ LONG_MAX →
  tryWriteSpace q a b =
    let q' := publish q a b in
    if decide (readable_queue q' = [] ∨ writeId q + try_size q < queue_size q)
    then Ret (set_writeId (writeId q + try_size q) q', (writeId q, writeId q + try_size q))
    else Ret (q', (-1, -1)).
Proof. apply tryWriteSpace_spec. Qed.

(** After the first lap an established producer is stuck for ever: whatever
    any thread does next, each of its writes fails (the entry is dropped, for
    the callers ignore the result) and publishes its last block again. *)
Theorem producer_stuck_forever (i : nat) (p : Producer) (obj : T) (s s' : Pool) :
  queue_wf (ring s) → ¬ first_lap (ring s) → producers s !! i = Some p → established p →
  rtc pool_step s s' → writeId (ring s') + try_size (ring s') ≤ LONG_MAX →
  producers s' !! i = Some p ∧
  ∃ q', Producer_write (ring s') p obj = Ret (q', p, false) ∧
        (p_writeId p, p_writableId p) ∈ readable_queue q'.
Proof.
  intros Hq Hlap Hi Hp Hsteps Hmax.
  assert (stuck i p s') as (Hq' & Hlap' & Hi' & _).
  { revert Hsteps. apply (rtc_ind_r (stuck i p)); [done|].
    intros s1 s2 _ Hstep Hs. by eapply stuck_step. }
  split; [done|]. exists (publish (ring s') (p_writeId p) (p_writableId p)).
  destruct Hp as [Hne Hfull]. split; [|by apply publish_own_block].
  unfold Producer_write. rewrite (proj2 (Z.leb_le _ _)) by done.
  by rewrite Producer_refill_stuck.
Qed.

(** C27. So entries are run more than once: from the ring as [MyThreadPool]
    constructs it, one producer and one consumer reach a state in which the
    same identifier has been delivered twice. *)
Theorem entries_delivered_twice :
  ∃ s, rtc pool_step (Pool_new CircleQueue_new) s ∧ ¬ NoDup (delivered s).*1.
Proof.
  apply (ring_redelivers CircleQueue_new (16 * 1024 - 2)); [apply CircleQueue_new_wf|done..| |].
  - rewrite Nat2Z.inj_sub by (apply Nat.leb_le; by vm_compute).
    rewrite Nat2Z.inj_mul. by vm_compute.
  - by vm_compute.
Qed.

(** A block is only published by the call that finds it full, so nothing a
    fresh producer writes can be read before its [try_size + 1]st write: the
    first [try_size] writes all succeed and a consumer that waits keeps
    waiting. *)
Theorem first_block_invisible (q : CircleQueue) (objs : list T) (c : Consumer) :
  queue_wf q → first_lap q → Z.of_nat (length objs) ≤ try_size q →
  Consumer_read q c = None →
  ∃ q' p', Producer_writes q Producer_new objs
             = Ret (q', p', replicate (length objs) true) ∧
    readable_queue q' = readable_queue q ∧ Consumer_read q' c = None.
Proof.
  intros Hq Hlap Hlen Hwait.
  assert (∀ q', readable_queue q' = readable_queue q → Consumer_read q' c = None) as Hkeep.
  { intros q' Hr. unfold Consumer_read, Consumer_claim, tryReadSpaceByCV in *. rewrite Hr.
    destruct (c_readableId c <=? c_readId c); [|done].
    by destruct (readable_queue q); [|simpl in *; repeat case_decide]. }
  destruct objs as [|obj objs]; [by exists q, Producer_new|].
  pose proof (Producer_refill_first_lap q Producer_new Hq Hlap) as Hrefill.
  simpl in *. unfold Producer_write. simpl. rewrite Hrefill. simpl.
  edestruct Producer_writes_in_block as (q' & p' & -> & Hr); [|simpl].
  2: { exists q', p'. split; [done|]. split; [done|]. by apply Hkeep. }
  simpl. lia.
Qed.

(** Nothing protects a slot that a consumer has not read yet: when no block
    is waiting, a new producer is granted the next identifiers, and its first
    write replaces whatever every older identifier of that slot held. *)
Theorem grant_overwrites_unread (q : CircleQueue) (obj : T) (id : Z) :
  queue_wf q → readable_queue q = [] → writeId q + try_size q ≤ LONG_MAX →
  0 ≤ id < 2 ^ 64 → id mod queue_size q = writeId q mod queue_size q →
  ∃ q' p', Producer_write q Producer_new obj = Ret (q', p', true) ∧
    CircleQueue_read q' id = obj.
Proof.
  intros Hq Hr Hmax Hid Hmod. pose proof Hq as [Hsz Hts _ Hw _]. unfold LONG_MAX in *.
  unfold Producer_write. simpl. unfold Producer_refill.
  rewrite tryWriteSpace_spec by done. simpl. rewrite decide_True by (by left). simpl.
  rewrite decide_True by lia. simpl. do 2 eexists. split; [done|].
  change (publish q 0 0) with q. unfold CircleQueue_read, CircleQueue_write, slot. simpl.
  rewrite !u64_small, Hmod by lia. by rewrite lookup_insert_eq.
Qed.
End ring.

(** ** Witnesses, on a ring of eight slots granted two at a time *)

Definition small_ring : @CircleQueue nat := mkCircleQueue 8 ∅ [] 2 0.

Lemma small_ring_wf : queue_wf small_ring.
Proof. by split; vm_compute. Qed.

Lemma ring_exactly_once_witness :
  let s := mkPool (CircleQueue_write (set_writeId 2 small_ring) 0 7%nat)
    [mkProducer 0 1 2] [] {[0 := 7%nat]} [] in
  NoDup (delivered s).*1 ∧
  (∀ id v, (id, v) ∈ delivered s → stored s !! id = Some v) ∧
  (∀ id v, stored s !! id = Some v →
     (id, v) ∈ delivered s ∨ (id ∈ pending_ids s ∧ CircleQueue_read 0%nat (ring s) id = v)).
Proof.
  apply (ring_exactly_once 0%nat small_ring); [apply small_ring_wf|done|done| |by vm_compute].
  eapply rtc_l; [apply pool_new_producer|].
  eapply rtc_l; [by eapply (solo_refill 0%nat Producer_new)|].
  apply rtc_once. by apply (solo_store 0%nat 0 0 2).
Defined.

Lemma calls_are_pool_steps_witness :
  ∃ w', rtc (pool_step 0%nat) (mkPool small_ring [Producer_new] [] ∅ [])
    (mkPool (CircleQueue_write (set_writeId 2 small_ring) 0 7%nat) [mkProducer 0 1 2] [] w' []).
Proof.
  apply (proj1 (calls_are_pool_steps 0%nat 0 small_ring [Producer_new] [] ∅ []
    ltac:(by vm_compute) (List.Forall_nil _)) Producer_new 7%nat _ _ true); by vm_compute.
Defined.

Lemma tryWriteSpace_grants_witness :
  tryWriteSpace small_ring 0 0 = Ret (set_writeId 2 small_ring, (0, 2)).
Proof. by rewrite (tryWriteSpace_grants small_ring 0 0 small_ring_wf ltac:(by vm_compute)). Defined.

Lemma producer_stuck_forever_witness :
  let p := mkProducer 4 6 6 in
  let s := mkPool (mkCircleQueue 8 (∅ : gmap Z nat) [] 2 6) [p] [] ∅ [] in
  producers s !! 0%nat = Some p ∧
  ∃ q', Producer_write (ring s) p 9%nat = Ret (q', p, false) ∧ (4, 6) ∈ readable_queue q'.
Proof.
  intros p s. apply (producer_stuck_forever 0%nat 0 p 9%nat s s);
    [by split; vm_compute|by vm_compute|done|by split; vm_compute|done|by vm_compute].
Defined.

Lemma first_block_invisible_witness :
  ∃ q' p', Producer_writes small_ring Producer_new [3%nat; 4%nat]
             = Ret (q', p', [true; true]) ∧
    readable_queue q' = [] ∧ Consumer_read 0%nat q' Consumer_new = None.
Proof.
  apply (first_block_invisible 0%nat small_ring [3%nat; 4%nat] Consumer_new small_ring_wf);
    by vm_compute.
Defined.

Lemma grant_overwrites_unread_witness :
  let q := mkCircleQueue 8 ({[0 := 5%nat]} : gmap Z nat) [] 2 8 in
  ∃ q' p', Producer_write q Producer_new 9%nat = Ret (q', p', true) ∧
    CircleQueue_read 0%nat q' 0 = 9%nat.
Proof.
  intros q. apply (grant_overwrites_unread 0%nat q 9%nat 0);
    [by split; vm_compute|by vm_compute..].
Defined.
