(* ===== verification/ProcLock.v ===== *)
(** * [ProcessMutex]: a compare-and-swap lock in shared memory

    Models src/Process/ProcessMutex.h.  The byte behind [shmAddr] is shared by
    every process; [owner] is a member of each process's own object.  Each
    method is a function of the two; [lock_step] interleaves the methods of any
    number of processes, with [unlock]'s store and compare-and-swap apart. *)

From S2P Require Import Prelude.
From Stdlib Require Import Lia.

#[local] Open Scope Z_scope.

(** ** One process *)

(** [__sync_bool_compare_and_swap(shmAddr, old, new)] *)
Definition compare_and_swap (old new shm : Z) : Z * bool :=
  if decide (shm = old) then (new, true) else (shm, false).

(** The constructor of the master: zeroes the byte, owns nothing. *)
Definition ProcessMutex_master : Z * bool := (0, false).

(** The constructor of the workers does not initialise [owner]: its value is
    whatever the memory held. *)
Definition ProcessMutex_worker (indeterminate : bool) : bool := indeterminate.

(** One evaluation of [lock]'s loop condition: [Some] when [lock] returns. *)
Definition lock_iter (shm : Z) (owner : bool) : option (Z * bool) :=
  if owner then Some (shm, true)
  else let '(shm', ok) := compare_and_swap 0 1 shm in
       if (ok : bool) then Some (shm', true) else None.

Definition tryLock (shm : Z) (owner : bool) : Z * bool * bool :=
  let '(shm', ok) := compare_and_swap 0 1 shm in
  if (ok : bool) then (shm', true, true) else (shm', owner, false).

(** [unlock] up to and including [owner = false]. *)
Definition unlock_begin (shm : Z) (owner : bool) : outcome bool :=
  _ ← cassert (owner && (shm =? 1));
  Ret false.

Definition unlock_end (shm : Z) : Z := (compare_and_swap 1 0 shm).1.

Definition unlock (shm : Z) (owner : bool) : outcome (Z * bool) :=
  owner' ← unlock_begin shm owner;
  Ret (unlock_end shm, owner').

(** ** Processes sharing the byte *)

Record process := mkProcess {
  owner : bool;
  releasing : bool;      (* between [owner = false] and the swap of [unlock] *)
}.

Record lock_state := mkLockState {
  shm : Z;
  processes : list process;
}.

(** The byte after the master's constructor, and the workers' objects. *)
Definition lock_init (owners : list bool) : lock_state :=
  mkLockState ProcessMutex_master.1
    ((λ o, mkProcess (ProcessMutex_worker o) false) <$> owners).

Inductive lock_step : lock_state → lock_state → Prop :=
  | step_lock i o m ps m' o' :
      ps !! i = Some (mkProcess o false) → lock_iter m o = Some (m', o') →
      lock_step (mkLockState m ps) (mkLockState m' (<[i := mkProcess o' false]> ps))
  | step_tryLock i o m ps m' o' r :
      ps !! i = Some (mkProcess o false) → tryLock m o = (m', o', r) →
      lock_step (mkLockState m ps) (mkLockState m' (<[i := mkProcess o' false]> ps))
  | step_unlock_begin i o m ps o' :
      ps !! i = Some (mkProcess o false) → unlock_begin m o = Ret o' →
      lock_step (mkLockState m ps) (mkLockState m (<[i := mkProcess o' true]> ps))
  | step_unlock_end i o m ps :
      ps !! i = Some (mkProcess o true) →
      lock_step (mkLockState m ps)
        (mkLockState (unlock_end m) (<[i := mkProcess o false]> ps)).

(** ** The invariant: the byte counts the holders *)

Definition holding (p : process) : bool := owner p || releasing p.

Definition lock_inv (s : lock_state) : Prop :=
  shm s = Z.of_nat (tally holding (processes s)) ∧ shm s ≤ 1 ∧
  Forall (λ p, releasing p = true → owner p = false) (processes s).

(** The effect of a step on the count, for the process it moves. *)
Ltac count_step Hi q :=
  pose proof (tally_insert holding _ _ _ q Hi) as Hcount;
  pose proof (tally_ge holding _ _ _ Hi) as Hge; cbn [holding owner releasing orb] in Hcount, Hge.

Lemma lock_step_inv s s' : lock_inv s → lock_step s s' → lock_inv s'.
Proof.
  intros (Hm & Hle & Hr) Hstep.
  destruct Hstep as [i o m ps m' o' Hi Hl|i o m ps m' o' r Hi Hl|i o m ps o' Hi Hu|i o m ps Hi];
    unfold lock_inv; simpl in *.
  - count_step Hi (mkProcess o' false). unfold lock_iter, compare_and_swap in Hl.
    destruct o; [|case_decide]; simplify_eq; simpl in *;
      (split; [lia|split; [lia|auto with proxy]]).
  - count_step Hi (mkProcess o' false). unfold tryLock, compare_and_swap in Hl.
    case_decide; simplify_eq; [destruct o|destruct o']; simpl in *;
      (split; [lia|split; [lia|auto with proxy]]).
  - count_step Hi (mkProcess o' true). unfold unlock_begin in Hu. simplify_outcome.
    destruct o; [|done]. simpl in *. split; [lia|split; [lia|auto with proxy]].
  - pose proof (Forall_lookup_1 _ _ _ _ Hr Hi eq_refl) as Ho. simpl in Ho. subst o.
    count_step Hi (mkProcess false false). unfold unlock_end, compare_and_swap.
    case_decide; simpl; (split; [lia|split; [lia|auto with proxy]]).
Qed.

Lemma lock_init_inv owners :
  Forall (λ o, o = false) owners → lock_inv (lock_init owners).
Proof.
  intros Hall. unfold lock_inv, lock_init. simpl.
  induction Hall as [|o owners -> _ (IH1 & IH2 & IH3)]; simpl; [by repeat constructor|].
  split; [done|split; [done|]]. by constructor.
Qed.

(** ** Properties *)

(** C15. Mutual exclusion.  If no worker starts out believing it owns the lock,
    then in every interleaving of [lock], [tryLock] and [unlock] at most one
    process owns it; an owner's [unlock] never fails its assertion and leaves
    the byte free for the next [tryLock]. *)
Theorem mutual_exclusion (owners : list bool) (s : lock_state) :
  Forall (λ o, o = false) owners → rtc lock_step (lock_init owners) s →
  (∀ i j p q, processes s !! i = Some p → processes s !! j = Some q →
     owner p = true → owner q = true → i = j) ∧
  (∀ i p, processes s !! i = Some p → owner p = true →
     unlock (shm s) (owner p) = Ret (0, false) ∧ tryLock 0 false = (1, true, true)) ∧
  (∀ i p, processes s !! i = Some p → owner p = true →
     ∀ o, tryLock (shm s) o = (shm s, o, false)).
Proof.
  intros Hinit Hsteps.
  assert (lock_inv s) as (Hm & Hle & _).
  { revert Hsteps. apply (rtc_ind_r lock_inv); [by apply lock_init_inv|].
    intros s1 s2 _ Hstep Hinv. by eapply lock_step_inv. }
  assert (∀ p, owner p = true → holding p = true) as Hhold by (by intros [[] r]).
  assert (∀ i p, processes s !! i = Some p → owner p = true → shm s = 1) as Hone
    by (intros i p Hi Ho; pose proof (tally_ge holding _ _ _ Hi) as Hge;
        rewrite (Hhold p Ho) in Hge; lia).
  split; [|split].
  - intros i j p q Hi Hj Hp Hq. destruct (decide (i = j)) as [|Hne]; [done|exfalso].
    pose proof (tally_two _ _ i j p q Hi Hj (Hhold p Hp) (Hhold q Hq) Hne). lia.
  - intros i p Hi Ho. by rewrite (Hone i p Hi Ho), Ho.
  - intros i p Hi Ho o. by rewrite (Hone i p Hi Ho).
Qed.

(** The hypothesis of mutual exclusion is not guaranteed by the code: the
    constructor the workers use leaves [owner] indeterminate.  A worker that
    happens to start with [owner] true leaves [lock] at once without touching
    the byte, while another takes the lock: two owners. *)
Theorem indeterminate_owner_breaks_exclusion :
  ∃ s, rtc lock_step (lock_init [ProcessMutex_worker true; ProcessMutex_worker false]) s ∧
    owner <$> processes s = [true; true] ∧
    lock_iter 0 (ProcessMutex_worker true) = Some (0, true).
Proof.
  exists (mkLockState 1 [mkProcess true false; mkProcess true false]).
  split; [|done]. eapply rtc_l.
  { by apply (step_lock 0 true 0 [mkProcess true false; mkProcess false false] 0 true). }
  apply rtc_once.
  by apply (step_tryLock 1 false 0 [mkProcess true false; mkProcess false false] 1 true true).
Qed.

Lemma mutual_exclusion_witness :
  let s := mkLockState 1 [mkProcess false false; mkProcess true false] in
  unlock (shm s) true = Ret (0, false) ∧ tryLock 0 false = (1, true, true).
Proof.
  intros s.
  apply (proj1 (proj2 (mutual_exclusion [false; false] s ltac:(by repeat constructor)
    (rtc_once _ _ (step_tryLock 1 false 0 [mkProcess false false; mkProcess false false]
       1 true true eq_refl eq_refl)))) 1%nat (mkProcess true false) eq_refl eq_refl).
Defined.
