(* ===== verification/MemoryCache.v ===== *)
(** * [MemoryCache]: the LRU cache shared between threads

    Models src/cache/memoryCache.h.  [lru_cache] is a [shared_ptr] protected by
    the mutex [mx]; a reader copies it under the lock and looks the URL up
    after releasing the lock, a writer copies the whole cache first if anybody
    else refers to it.  The state is a heap of [Lru] objects, the location
    [lru_cache] points to, the holder of [mx] and one program counter per
    thread; [use_count] is computed from the references the threads hold.
    Objects nobody refers to stay in the heap: nothing can tell. *)

From S2P Require Import Prelude LruCache.
From Stdlib Require Import Lia.

#[local] Open Scope Z_scope.

(** ** State *)

(** Where a thread is in [readCache] or [writeCache]; the location in a
    constructor is the one its local [lru_cache_temp] refers to. *)
Inductive mc_pc :=
  | McIdle
  | ReadLocked (url : bytes)                      (* [mx.lock()] returned *)
  | ReadCopied (l : nat) (url : bytes)            (* [lru_cache_temp = lru_cache] *)
  | ReadGetting (l : nat) (url : bytes)           (* in [lru_cache_temp->get(url)] *)
  | ReadDone (l : nat) (v : bytes)                (* returning *)
  | WriteLocked (url respond : bytes)             (* [mx.lock()] returned *)
  | WriteReady (url respond : bytes)              (* past the [if] *)
  | WriteDone.                                    (* past [put] *)

Record MemoryCache := mkMemoryCache {
  heap : gmap nat Lru;
  lru_cache : nat;
  mx : option nat;            (* the thread that holds the mutex *)
  pcs : list mc_pc;
}.

Definition MemoryCache_new (n : Z) (nthreads : nat) : MemoryCache :=
  mkMemoryCache {[ 0%nat := Lru_new n ]} 0 None (replicate nthreads McIdle).

Definition pc_ref (p : mc_pc) : list nat :=
  match p with
  | ReadCopied l _ | ReadGetting l _ | ReadDone l _ => [l]
  | _ => []
  end.

(** The reference count of [lru_cache], and [lru_cache.unique()]. *)
Definition use_count (s : MemoryCache) : nat :=
  length (filter (λ l, l = lru_cache s) (lru_cache s :: (pcs s ≫= pc_ref))).
Definition unique (s : MemoryCache) : bool := (use_count s =? 1)%nat.

Definition goto (i : nat) (p : mc_pc) (s : MemoryCache) : MemoryCache :=
  mkMemoryCache (heap s) (lru_cache s) (mx s) (<[i := p]> (pcs s)).
Definition set_mx (m : option nat) (s : MemoryCache) : MemoryCache :=
  mkMemoryCache (heap s) (lru_cache s) m (pcs s).
Definition set_object (l : nat) (lru : Lru) (s : MemoryCache) : MemoryCache :=
  mkMemoryCache (<[l := lru]> (heap s)) (lru_cache s) (mx s) (pcs s).
(** [lru_cache.reset(new Lru(...))] *)
Definition reset_ptr (lru : Lru) (s : MemoryCache) : MemoryCache :=
  let l := fresh (dom (heap s)) in
  mkMemoryCache (<[l := lru]> (heap s)) l (mx s) (pcs s).

(** ** Operations *)

(** Entering [readCache] or [writeCache]: [None] while [mx.lock()] blocks. *)
Definition mc_call (i : nat) (p : mc_pc) (s : MemoryCache) : option MemoryCache :=
  match pcs s !! i, mx s with
  | Some McIdle, None => Some (goto i p (set_mx (Some i) s))
  | _, _ => None
  end.

Definition readCache (i : nat) (url : bytes) := mc_call i (ReadLocked url).
Definition writeCache (i : nat) (url respond : bytes) := mc_call i (WriteLocked url respond).

(** [lru_cache_temp = lru_cache] *)
Definition read_copy (i : nat) (url : bytes) (s : MemoryCache) : MemoryCache :=
  goto i (ReadCopied (lru_cache s) url) s.

(** [assert(!lru_cache.unique()); mx.unlock();] *)
Definition read_unlock (i l : nat) (url : bytes) (s : MemoryCache) : outcome MemoryCache :=
  _ ← cassert (negb (unique s));
  Ret (goto i (ReadGetting l url) (set_mx None s)).

(** [return lru_cache_temp->get(url);], outside the lock *)
Definition read_get (now : Z) (i l : nat) (url : bytes) (s : MemoryCache) : outcome MemoryCache :=
  lru ← deref (heap s !! l);
  '(lru', v) ← Lru_get now url lru;
  Ret (goto i (ReadDone l v) (set_object l lru' s)).

(** [if (!lru_cache.unique()) lru_cache.reset(new Lru( *lru_cache));] *)
Definition write_detach (clock : nat → Z) (i : nat) (url respond : bytes) (s : MemoryCache)
    : outcome MemoryCache :=
  if unique s then Ret (goto i (WriteReady url respond) s)
  else
    lru ← deref (heap s !! lru_cache s);
    Ret (goto i (WriteReady url respond) (reset_ptr (Lru_copy clock lru) s)).

(** [assert(lru_cache.unique()); lru_cache->put(url, respond);]; [None] would be
    a [put] that does not return. *)
Definition write_put (now : Z) (i : nat) (url respond : bytes) (s : MemoryCache)
    : option (outcome MemoryCache) :=
  match cassert (unique s), heap s !! lru_cache s with
  | Fault f, _ => Some (Fault f)
  | Ret _, None => Some (Fault UndefinedBehaviour)
  | Ret _, Some lru =>
      put ← Lru_put now url respond lru;
      Some (lru' ← put; Ret (goto i WriteDone (set_object (lru_cache s) lru' s)))
  end.

(** The next step of thread [i]; [None] outside the two methods. *)
Definition mc_next (now : Z) (clock : nat → Z) (i : nat) (s : MemoryCache)
    : option (outcome MemoryCache) :=
  p ← pcs s !! i;
  match p with
  | McIdle => None
  | ReadLocked url => Some (Ret (read_copy i url s))
  | ReadCopied l url => Some (read_unlock i l url s)
  | ReadGetting l url => Some (read_get now i l url s)
  | ReadDone _ _ => Some (Ret (goto i McIdle s))
  | WriteLocked url r => Some (write_detach clock i url r s)
  | WriteReady url r => write_put now i url r s
  | WriteDone => Some (Ret (goto i McIdle (set_mx None s)))
  end.

Inductive mc_step : MemoryCache → MemoryCache → Prop :=
  | mc_step_read i url s s' : readCache i url s = Some s' → mc_step s s'
  | mc_step_write i url r s s' : writeCache i url r s = Some s' → mc_step s s'
  | mc_step_next now clock i s s' : mc_next now clock i s = Some (Ret s') → mc_step s s'.

(** Threads [i] and [j] are both in [get] on one object: [get] moves list nodes
    and may erase, so this is a data race. *)
Definition racing (i j : nat) (s : MemoryCache) : Prop :=
  i ≠ j ∧ ∃ l url url', pcs s !! i = Some (ReadGetting l url) ∧
                        pcs s !! j = Some (ReadGetting l url').

(** Thread [i] is in [get] on the object that thread [j] is about to copy, node by
    node, with [new Lru( *lru_cache)]: a data race too. *)
Definition copy_racing (i j : nat) (s : MemoryCache) : Prop :=
  i ≠ j ∧ unique s = false ∧ ∃ url url' r, pcs s !! i = Some (ReadGetting (lru_cache s) url) ∧
                                           pcs s !! j = Some (WriteLocked url' r).

(** ** Invariant *)

Definition in_lock (p : mc_pc) : bool :=
  match p with
  | ReadLocked _ | ReadCopied _ _ | WriteLocked _ _ | WriteReady _ _ | WriteDone => true
  | _ => false
  end.

(** What a thread knows of the shared pointer. *)
Definition pc_ok (s : MemoryCache) (p : mc_pc) : Prop :=
  match p with
  | ReadCopied l _ => l = lru_cache s
  | WriteReady _ _ => lru_cache s ∉ (pcs s ≫= pc_ref)
  | _ => True
  end.

Record mc_inv (size : Z) (s : MemoryCache) : Prop := {
  mc_lock : ∀ i p, pcs s !! i = Some p → in_lock p = true → mx s = Some i;
  mc_cur : lru_cache s ∈ dom (heap s);
  mc_refs : ∀ l, l ∈ pcs s ≫= pc_ref → l ∈ dom (heap s);
  mc_objects : ∀ l lru, heap s !! l = Some lru → lru_bounded size lru;
  mc_pcs : ∀ i p, pcs s !! i = Some p → pc_ok s p;
}.

Lemma unique_spec s : unique s = true ↔ lru_cache s ∉ (pcs s ≫= pc_ref).
Proof.
  unfold unique, use_count. rewrite Nat.eqb_eq, filter_cons_True by done. simpl. split.
  - intros Hlen Hin. assert (filter (λ l, l = lru_cache s) (pcs s ≫= pc_ref) = []) as E
      by (apply nil_length_inv; lia).
    apply (not_elem_of_nil (lru_cache s)). rewrite <-E. by apply list_elem_of_filter.
  - intros Hin. f_equal. apply length_zero_iff_nil.
    destruct (filter _ _) as [|l ls] eqn:E; [done|]. destruct Hin.
    assert (l ∈ l :: ls) as Hl by by left. rewrite <-E in Hl.
    by apply list_elem_of_filter in Hl as [-> Hl].
Qed.

Lemma pc_ref_elem (ps : list mc_pc) (i : nat) (p : mc_pc) l :
  ps !! i = Some p → l ∈ pc_ref p → l ∈ ps ≫= pc_ref.
Proof.
  intros Hi Hl. apply list_elem_of_bind. exists p. split; [done|]. by eapply list_elem_of_lookup_2.
Qed.

(** Moving one thread changes at most its own references. *)
Lemma refs_insert (ps : list mc_pc) i p l :
  l ∈ <[i := p]> ps ≫= pc_ref → l ∈ pc_ref p ∨ l ∈ ps ≫= pc_ref.
Proof.
  intros (q & Hl & [->|Hq]%elem_of_insert_inv)%list_elem_of_bind; [by left|right].
  apply list_elem_of_bind. eauto.
Qed.

(** No other thread is in its critical section. *)
Definition alone (s : MemoryCache) (i : nat) : Prop :=
  ∀ j q, j ≠ i → pcs s !! j = Some q → in_lock q = false.

Lemma inv_alone size s i : mc_inv size s → mx s = None ∨ mx s = Some i → alone s i.
Proof.
  intros Hinv Hmx j q Hne Hj. destruct (in_lock q) eqn:E; [|done].
  pose proof (mc_lock _ _ Hinv j q Hj E). destruct Hmx; congruence.
Qed.

Lemma pc_ok_outside s q : in_lock q = false → pc_ok s q.
Proof. by destruct q. Qed.

(** The shape of every step: thread [i] moves to [p], either by itself in the
    critical section or without touching what the section protects. *)
Lemma mc_inv_move size s s' i p :
  mc_inv size s → pcs s' = <[i := p]> (pcs s) →
  alone s i ∨ mx s' = mx s ∧ lru_cache s' = lru_cache s ∧
              (∀ l, l ∈ pc_ref p → l ∈ pcs s ≫= pc_ref) →
  (in_lock p = true → mx s' = Some i) →
  dom (heap s) ⊆ dom (heap s') → lru_cache s' ∈ dom (heap s') →
  (∀ l, l ∈ pc_ref p → l ∈ dom (heap s')) →
  (∀ l lru, heap s' !! l = Some lru → lru_bounded size lru) →
  pc_ok s' p →
  mc_inv size s'.
Proof.
  intros Hinv Hpcs Hwho Hlock Hdom Hcur Href Hobj Hp.
  assert (∀ j q, j ≠ i → pcs s !! j = Some q →
            (in_lock q = true → mx s' = Some j) ∧ pc_ok s' q) as Hothers.
  { intros j q Hne Hj. destruct (in_lock q) eqn:Hq.
    - destruct Hwho as [Ha|(Hm & Hc & Hr)]; [by rewrite (Ha j q) in Hq|].
      pose proof (mc_pcs _ _ Hinv j q Hj) as Hok.
      split; [intros _; rewrite Hm; by apply (mc_lock _ _ Hinv j q)|].
      destruct q; simpl in *; [done|done|congruence|done|done|done| |done].
      rewrite Hc, Hpcs. intros [?|?]%refs_insert; auto.
    - split; [done|]. by apply pc_ok_outside. }
  split; [| done | |done|].
  - intros j q. rewrite Hpcs. intros [(<- & <- & _)|[Hne Hj]]%list_lookup_insert_Some; [done|].
    apply Hothers; done.
  - intros l. rewrite Hpcs. intros [Hl|Hl]%refs_insert; [auto|].
    apply Hdom. by apply (mc_refs _ _ Hinv).
  - intros j q. rewrite Hpcs. intros [(<- & <- & _)|[Hne Hj]]%list_lookup_insert_Some; [done|].
    apply (Hothers j q); done.
Qed.

Lemma set_object_bounded size (h : gmap nat Lru) l lru :
  (∀ k x, h !! k = Some x → lru_bounded size x) → lru_bounded size lru →
  ∀ k x, <[l := lru]> h !! k = Some x → lru_bounded size x.
Proof. intros Hh Hl k x [[<- <-]|[_ ?]]%lookup_insert_Some; eauto. Qed.

Lemma mc_call_inv size i p s s' :
  pc_ref p = [] → (∀ s, pc_ok s p) → mc_inv size s → mc_call i p s = Some s' → mc_inv size s'.
Proof.
  intros Hr Hok Hinv Hcall. unfold mc_call in Hcall.
  destruct (pcs s !! i) as [[]|] eqn:Hi; try done. destruct (mx s) eqn:Hm; [done|]. simplify_eq.
  apply (mc_inv_move size s _ i p Hinv); simpl; [done| |done|done| | | |done].
  - left. apply (inv_alone size); auto.
  - by apply (mc_cur _ _ Hinv).
  - rewrite Hr. intros l Hl. by apply not_elem_of_nil in Hl.
  - by apply (mc_objects _ _ Hinv).
Qed.

Lemma read_get_inv size now i l url s s' :
  mc_inv size s → pcs s !! i = Some (ReadGetting l url) →
  read_get now i l url s = Ret s' → mc_inv size s'.
Proof.
  intros Hinv Hi Hget. unfold read_get in Hget. simplify_outcome.
  destruct x0 as [lru' v]. simplify_outcome.
  pose proof (mc_objects _ _ Hinv _ _ H) as Hb.
  apply (mc_inv_move size s _ i (ReadDone l v) Hinv); simpl; [done| |done| | | | |done].
  - right. split; [done|]. split; [done|]. intros k Hk. by apply (pc_ref_elem _ _ _ _ Hi).
  - rewrite dom_insert. set_solver.
  - rewrite dom_insert. apply elem_of_union_r, (mc_cur _ _ Hinv).
  - intros k Hk. apply list_elem_of_singleton in Hk as ->. rewrite dom_insert. set_solver.
  - apply set_object_bounded; [apply (mc_objects _ _ Hinv)|by eapply Lru_get_bounded].
Qed.

Lemma write_detach_inv size clock i url r s s' :
  mc_inv size s → pcs s !! i = Some (WriteLocked url r) →
  write_detach clock i url r s = Ret s' → mc_inv size s'.
Proof.
  intros Hinv Hi Hd. pose proof (mc_lock _ _ Hinv i _ Hi eq_refl) as Hm.
  assert (alone s i) as Ha by (apply (inv_alone size); auto).
  unfold write_detach in Hd. destruct (unique s) eqn:Hu.
  - simplify_outcome. apply unique_spec in Hu.
    apply (mc_inv_move size s _ i (WriteReady url r) Hinv); simpl;
      [done|by left|done|done|apply (mc_cur _ _ Hinv)|set_solver|apply (mc_objects _ _ Hinv)|].
    intros [Hin|Hin]%refs_insert; [by apply not_elem_of_nil in Hin|done].
  - simplify_outcome. set (l := fresh (dom (heap s))).
    pose proof (is_fresh (dom (heap s))) as Hfresh. fold l in Hfresh.
    apply (mc_inv_move size s _ i (WriteReady url r) Hinv); simpl;
      [done|by left|done|rewrite dom_insert; set_solver|rewrite dom_insert; set_solver|set_solver| |].
    + apply set_object_bounded; [apply (mc_objects _ _ Hinv)|].
      apply Lru_copy_bounded. by eapply mc_objects.
    + intros [Hin|Hin]%refs_insert; [by apply not_elem_of_nil in Hin|].
      by apply Hfresh, (mc_refs _ _ Hinv).
Qed.

Lemma write_put_inv size now i url r s s' :
  size < INT_MAX → mc_inv size s → pcs s !! i = Some (WriteReady url r) →
  write_put now i url r s = Some (Ret s') → mc_inv size s'.
Proof.
  intros Hsize Hinv Hi Hput. pose proof (mc_lock _ _ Hinv i _ Hi eq_refl) as Hm.
  assert (alone s i) as Ha by (apply (inv_alone size); auto).
  unfold write_put in Hput. destruct (cassert _); [|done].
  destruct (heap s !! lru_cache s) as [lru|] eqn:Hl; [|done]. simpl in Hput.
  pose proof (mc_objects _ _ Hinv _ _ Hl) as Hb.
  destruct (Lru_put now url r lru) as [[lru'|f]|] eqn:Hp; simplify_eq/=.
  apply (mc_inv_move size s _ i WriteDone Hinv); simpl;
    [done|by left|done|rewrite dom_insert; set_solver|rewrite dom_insert; set_solver
    |set_solver| |done].
  apply set_object_bounded; [apply (mc_objects _ _ Hinv)|by eapply Lru_put_bounded].
Qed.

(** The steps that move the program counter and the mutex only. *)
Lemma mc_inv_goto size s i p0 p m :
  mc_inv size s → pcs s !! i = Some p0 → in_lock p0 = true → in_lock p = false ∨ m = Some i →
  (∀ l, l ∈ pc_ref p → l ∈ dom (heap s)) → pc_ok (goto i p (set_mx m s)) p →
  mc_inv size (goto i p (set_mx m s)).
Proof.
  intros Hinv Hi Hp0 Hp Hr Hok.
  apply (mc_inv_move size s _ i p Hinv); simpl; [done| | |done| |done| |done].
  - left. apply (inv_alone size); [done|]. right. by apply (mc_lock _ _ Hinv i p0).
  - destruct Hp; congruence.
  - apply (mc_cur _ _ Hinv).
  - apply (mc_objects _ _ Hinv).
Qed.

Lemma set_mx_same s : set_mx (mx s) s = s.
Proof. by destruct s. Qed.

Lemma mc_next_inv size now clock i s s' :
  size < INT_MAX → mc_inv size s → mc_next now clock i s = Some (Ret s') → mc_inv size s'.
Proof.
  intros Hsize Hinv Hnext. unfold mc_next in Hnext.
  destruct (pcs s !! i) as [p|] eqn:Hi; [|done]. simpl in Hnext.
  destruct p as [|url|l url|l url|l v|url r|url r|]; simplify_eq.
  - pose proof (mc_lock _ _ Hinv i _ Hi eq_refl) as Hm. unfold read_copy.
    rewrite <-(set_mx_same s), Hm. apply (mc_inv_goto size s i (ReadLocked url)); [done..|by right| |done].
    intros l Hl. simpl in Hl. apply list_elem_of_singleton in Hl as ->. apply (mc_cur _ _ Hinv).
  - unfold read_unlock in Hnext. simplify_outcome.
    apply (mc_inv_goto size s i (ReadCopied l url)); [done..|by left| |done].
    intros k Hk. apply (mc_refs _ _ Hinv). by apply (pc_ref_elem _ _ _ _ Hi).
  - by eapply read_get_inv.
  - apply (mc_inv_move size s _ i McIdle Hinv); simpl;
      [done|right; set_solver|done|done|apply (mc_cur _ _ Hinv)|set_solver
      |apply (mc_objects _ _ Hinv)|done].
  - by eapply write_detach_inv.
  - by eapply write_put_inv.
  - apply (mc_inv_goto size s i WriteDone); [done..|by left|set_solver|done].
Qed.

Lemma mc_step_inv size s s' : size < INT_MAX → mc_inv size s → mc_step s s' → mc_inv size s'.
Proof.
  intros Hsize Hinv Hstep. destruct Hstep as [i url s s' Hc|i url r s s' Hc|now clock i s s' Hn].
  - by apply (mc_call_inv size i (ReadLocked url) s s').
  - by apply (mc_call_inv size i (WriteLocked url r) s s').
  - by eapply mc_next_inv.
Qed.

Lemma refs_idle n : replicate n McIdle ≫= pc_ref = [].
Proof. by induction n. Qed.

Lemma mc_new_inv size n : 0 ≤ size < INT_MAX → mc_inv size (MemoryCache_new size n).
Proof.
  intros Hsize. split; simpl.
  - intros i p [-> _]%lookup_replicate_1. done.
  - rewrite dom_singleton. set_solver.
  - intros l. rewrite refs_idle. set_solver.
  - intros l lru [<- <-]%lookup_singleton_Some. by apply (lru_reachable_bounded size).
  - intros i p [-> _]%lookup_replicate_1. done.
Qed.

Lemma mc_reachable_inv size n s :
  0 ≤ size < INT_MAX → rtc mc_step (MemoryCache_new size n) s → mc_inv size s.
Proof.
  intros Hsize. apply (rtc_ind_r (mc_inv size)); [by apply mc_new_inv|].
  intros s1 s2 _ Hstep Hinv. eapply mc_step_inv; [lia|done..].
Qed.

#[export] Instance mc_pc_eq_dec : EqDecision mc_pc.
Proof. solve_decision. Defined.

(** The outcome of the next step of a thread at [p]. *)
Definition mc_next_ok (size now : Z) (clock : nat → Z) (i : nat) (p : mc_pc)
    (s : MemoryCache) : Prop :=
  (∃ s', mc_next now clock i s = Some (Ret s')) ∨
  mc_next now clock i s = Some (Fault UndefinedBehaviour) ∧
  ∃ url r lru, p = WriteReady url r ∧ heap s !! lru_cache s = Some lru ∧
    find_entry url (entries lru) = None ∧ Z.of_nat (length (entries lru)) = size.

Lemma inv_object size s l : mc_inv size s → l ∈ dom (heap s) →
  ∃ lru, heap s !! l = Some lru ∧ lru_bounded size lru.
Proof.
  intros Hinv [lru Hl]%elem_of_dom. exists lru. split; [done|]. by eapply mc_objects.
Qed.

Lemma mc_next_total size now clock i p s :
  size < INT_MAX → mc_inv size s → pcs s !! i = Some p → p ≠ McIdle →
  mc_next_ok size now clock i p s.
Proof.
  intros Hsize Hinv Hi Hne. unfold mc_next_ok, mc_next. rewrite Hi. simpl.
  pose proof (inv_object size s _ Hinv (mc_cur _ _ Hinv)) as (lru & Hl & Hb).
  destruct p as [|url|l url|l url|l v|url r|url r|]; [done|left; eauto|..|left; eauto].
  - left. pose proof (mc_pcs _ _ Hinv i _ Hi) as Hc. simpl in Hc. subst l. unfold read_unlock.
    destruct (unique s) eqn:Hu; [|simpl; eauto]. apply unique_spec in Hu. destruct Hu.
    apply (pc_ref_elem _ _ _ _ Hi). by left.
  - left. unfold read_get. destruct (inv_object size s l Hinv) as (x & -> & Hx & _).
    { apply (mc_refs _ _ Hinv), (pc_ref_elem _ _ _ _ Hi). by left. }
    destruct (Lru_get_spec now url x Hx) as (x' & v & E & _). simpl. rewrite E. simpl. eauto.
  - left. eauto.
  - left. unfold write_detach. rewrite Hl. destruct (unique s); simpl; eauto.
  - unfold write_put. rewrite (proj2 (unique_spec s) (mc_pcs _ _ Hinv i _ Hi)), Hl. simpl.
    destruct (Lru_put_total size now url r lru Hsize Hb) as [(lru' & -> & _)|[-> Hf]].
    + left. simpl. eauto.
    + right. split; [done|]. exists url, r, lru. done.
Qed.

(** ** What a reader sees of its object *)

(** Every entry of [lru'] was one of [lru], with the same content. *)
Definition survives (lru lru' : Lru) : Prop :=
  ∀ url c, find_entry url (entries lru') = Some c → find_entry url (entries lru) = Some c.

#[export] Instance survives_preorder : PreOrder survives.
Proof.
  split; [by intros lru url c|]. intros l1 l2 l3 H1 H2 url c Hc. by apply H1, H2.
Qed.

Lemma find_entry_elem es url c :
  NoDup es.*1 → find_entry url es = Some c ↔ (url, c) ∈ es.
Proof. intros. symmetry. by apply elem_of_list_to_map. Qed.

Lemma get_survives now url lru lru' v :
  lru_wf lru → Lru_get now url lru = Ret (lru', v) →
  survives lru lru' ∧ (v = [] ∨ find_entry url (entries lru) = Some v).
Proof.
  intros Hwf Hget. destruct (Lru_get_spec now url lru Hwf) as (x & c & E & Hwf' & _ & Hes).
  rewrite Hget in E. injection E as <- <-.
  pose proof (wf_urls _ Hwf) as Hnd. pose proof (wf_urls _ Hwf') as Hnd'.
  unfold survives. setoid_rewrite (λ u c, find_entry_elem (entries lru') u c Hnd').
  destruct (find_entry url (entries lru)) as [c'|] eqn:Hf.
  - destruct (stale now url lru); destruct Hes as [-> ->]; (split; [|by auto]).
    + intros u d Hd. apply find_entry_elem; [done|]. by apply list_elem_of_filter in Hd as [_ Hd].
    + intros u d [Hd|Hd]%elem_of_app.
      * apply find_entry_elem; [done|]. by apply list_elem_of_filter in Hd as [_ Hd].
      * apply list_elem_of_singleton in Hd. by simplify_eq.
  - destruct Hes as [-> ->]. split; [|by auto]. intros u d. by apply find_entry_elem.
Qed.

(** A step changes an object other threads refer to only through [get]. *)
Lemma mc_step_object size s s' i p l lru :
  mc_inv size s → mc_step s s' → pcs s !! i = Some p → l ∈ pc_ref p → heap s !! l = Some lru →
  ∃ lru', heap s' !! l = Some lru' ∧ survives lru lru'.
Proof.
  intros Hinv Hstep Hi Hp Hl. pose proof (pc_ref_elem _ _ _ _ Hi Hp) as Href.
  destruct Hstep as [j url s s' Hc|j url r s s' Hc|now clock j s s' Hn].
  1-2: unfold readCache, writeCache, mc_call in Hc; repeat case_match; simplify_eq; by exists lru.
  unfold mc_next in Hn. destruct (pcs s !! j) as [q|] eqn:Hj; [|done]. simpl in Hn.
  destruct q as [|url|k url|k url|k v|url r|url r|]; simplify_eq; try by exists lru.
  - unfold read_unlock in Hn. simplify_outcome. by exists lru.
  - unfold read_get in Hn. simplify_outcome. destruct x0 as [x' v]. simplify_outcome.
    destruct (decide (k = l)) as [->|]; [|exists lru; by rewrite lookup_insert_ne].
    exists x'. rewrite lookup_insert_eq. split; [done|]. simplify_eq.
    eapply get_survives; [|done]. by apply (mc_objects _ _ Hinv l).
  - unfold write_detach in Hn. destruct (unique s); simplify_outcome; [by exists lru|].
    exists lru. rewrite lookup_insert_ne; [done|]. intros E.
    apply (is_fresh (dom (heap s))). rewrite E. apply elem_of_dom. eauto.
  - unfold write_put in Hn. pose proof (mc_pcs _ _ Hinv j _ Hj) as Hu. simpl in Hu.
    destruct (cassert _); [|done]. destruct (heap s !! lru_cache s) as [x|]; [|done]. simpl in Hn.
    destruct (Lru_put now url r x) as [[x'|]|]; simplify_eq/=.
    exists lru. rewrite lookup_insert_ne; [done|]. by intros <-.
Qed.

(** Other threads' steps leave a thread where it is. *)
Lemma mc_next_move now clock i s s' :
  mc_next now clock i s = Some (Ret s') → ∃ p, pcs s' = <[i := p]> (pcs s).
Proof.
  unfold mc_next. destruct (pcs s !! i) as [q|]; [|done]. simpl.
  destruct q as [|url|k url|k url|k v|url r|url r|]; intros Hn; simplify_eq; try by eexists.
  - unfold read_unlock in Hn. simplify_outcome. by eexists.
  - unfold read_get in Hn. simplify_outcome. destruct x0. simplify_outcome. by eexists.
  - unfold write_detach in Hn. destruct (unique s); simplify_outcome; by eexists.
  - unfold write_put in Hn. destruct (cassert _); [|done].
    destruct (heap s !! _); [|done]. simpl in Hn.
    destruct (Lru_put _ _ _ _) as [[|]|]; simplify_eq/=. by eexists.
Qed.

(** A run during which thread [i] keeps its reference to [l]. *)
Definition holds_step (i l : nat) (s s' : MemoryCache) : Prop :=
  mc_step s s' ∧ ∃ p, pcs s' !! i = Some p ∧ l ∈ pc_ref p.

(** Thread [i], which found [lru0] at [l], is looking [url] up or has done so. *)
Definition reading (i l : nat) (url : bytes) (lru0 : Lru) (s : MemoryCache) : Prop :=
  (∃ lru, heap s !! l = Some lru ∧ survives lru0 lru) ∧
  ∃ p, pcs s !! i = Some p ∧
    (p = ReadCopied l url ∨ p = ReadGetting l url ∨
     ∃ v, p = ReadDone l v ∧ (v = [] ∨ find_entry url (entries lru0) = Some v)).

Lemma reading_call i j l url lru0 q s s' :
  mc_call j q s = Some s' → reading i l url lru0 s → reading i l url lru0 s'.
Proof.
  intros Hc [Hobj (p & Hi & Hp)]. unfold mc_call in Hc.
  destruct (pcs s !! j) as [[]|] eqn:Hj; try done. destruct (mx s); [done|]. simplify_eq.
  split; [done|]. exists p. split; [|done]. simpl.
  rewrite list_lookup_insert_ne; [done|]. intros <-. destruct Hp as [?|[?|(?&?&_)]]; simplify_eq.
Qed.

Lemma reading_step size i l url lru0 s s' :
  mc_inv size s → reading i l url lru0 s → holds_step i l s s' → reading i l url lru0 s'.
Proof.
  intros Hinv [(lru & Hl & Hs) (p & Hi & Hp)] [Hstep (p' & Hi' & Hp')].
  assert (l ∈ pc_ref p) as Hlp by (destruct Hp as [->|[->|(v & -> & _)]]; by left).
  destruct (mc_step_object size s s' i p l lru Hinv Hstep Hi Hlp Hl) as (lru' & Hl' & Hs').
  assert (reading i l url lru0 s) as Hread by (split; [by exists lru|by exists p]).
  assert (∃ lru', heap s' !! l = Some lru' ∧ survives lru0 lru') as Hobj
    by (exists lru'; split; [done|]; by etrans).
  destruct Hstep as [j u s s' Hc|j u r s s' Hc|now clock j s s' Hn].
  1-2: by eapply reading_call.
  split; [done|]. destruct (decide (j = i)) as [->|Hne].
  2: { destruct (mc_next_move _ _ _ _ _ Hn) as [q E].
       exists p. by rewrite E, list_lookup_insert_ne by done. }
  pose proof (lookup_lt_Some _ _ _ Hi) as Hlt.
  unfold mc_next in Hn. rewrite Hi in Hn. simpl in Hn.
  destruct Hp as [->|[->|(v & -> & Hv)]].
  - unfold read_unlock in Hn. simplify_outcome. eexists. split; [by apply list_lookup_insert_eq|]. auto.
  - unfold read_get in Hn. rewrite Hl in Hn. simpl in Hn.
    injection Hn as Hn. apply bind_Ret_inv in Hn as ([x' v] & Hget & Hn). simplify_eq.
    exists (ReadDone l v). split; [by apply list_lookup_insert_eq|]. right. right. exists v.
    split; [done|]. apply get_survives in Hget as [_ [?|?]]; [by auto|by auto|].
    apply (mc_objects _ _ Hinv _ _ Hl).
  - simplify_eq. simpl in Hi'. rewrite list_lookup_insert_eq in Hi' by done. simplify_eq.
    by apply not_elem_of_nil in Hp'.
Qed.

(** Every object of the heap comes from one operation on an object, or none. *)
Lemma mc_step_heap s s' l lru' :
  mc_step s s' → heap s' !! l = Some lru' →
  ∃ k lru, heap s !! k = Some lru ∧ (lru' = lru ∨ lru_step lru lru').
Proof.
  intros Hstep Hl.
  destruct Hstep as [j url s s' Hc|j url r s s' Hc|now clock j s s' Hn].
  1-2: unfold readCache, writeCache, mc_call in Hc; repeat case_match; simplify_eq; by eauto.
  unfold mc_next in Hn. destruct (pcs s !! j) as [q|] eqn:Hj; [|done]. simpl in Hn.
  destruct q as [|url|k url|k url|k v|url r|url r|]; simplify_eq; try by eauto.
  - unfold read_unlock in Hn. simplify_outcome. by eauto.
  - unfold read_get in Hn. simplify_outcome. destruct x0 as [x' v]. simplify_outcome.
    apply lookup_insert_Some in Hl as [[<- <-]|[_ Hl]]; [|by eauto].
    eexists k, _. split; [done|]. right. by eapply lru_step_get.
  - unfold write_detach in Hn. destruct (unique s); simplify_outcome; [by eauto|].
    apply lookup_insert_Some in Hl as [[<- <-]|[_ Hl]]; [|by eauto].
    eexists _, _. split; [done|]. right. constructor.
  - unfold write_put in Hn. destruct (cassert _); [|done].
    destruct (heap s !! lru_cache s) as [x|] eqn:Hx; [|done]. simpl in Hn.
    destruct (Lru_put now url r x) as [[x'|]|] eqn:Hp; simplify_eq/=.
    apply lookup_insert_Some in Hl as [[<- <-]|[_ Hl]]; [|by eauto].
    eexists _, _. split; [done|]. right. by eapply lru_step_put.
Qed.

Lemma mc_reachable_expiredTime size n s l lru :
  rtc mc_step (MemoryCache_new size n) s → heap s !! l = Some lru → expiredTime_ lru = INT_MAX.
Proof.
  intros Hreach. revert l lru. revert Hreach.
  apply (rtc_ind_r (λ s, ∀ l lru, heap s !! l = Some lru → expiredTime_ lru = INT_MAX)).
  - intros l lru Hl. simpl in Hl. by apply lookup_singleton_Some in Hl as [_ <-].
  - intros s1 s2 _ Hstep IH l lru Hl.
    destruct (mc_step_heap _ _ _ _ Hstep Hl) as (k & x & Hk & [->|Hs]); [by eapply IH|].
    eapply lru_step_expiredTime; [done|by eapply IH].
Qed.

(** A thread left alone goes from its call to [get] in three steps. *)
Lemma enter_get size s i url :
  size < INT_MAX → mc_inv size s → mx s = None → pcs s !! i = Some McIdle →
  ∃ s', rtc mc_step s s' ∧ mc_inv size s' ∧ mx s' = None ∧ lru_cache s' = lru_cache s ∧
    pcs s' = <[i := ReadGetting (lru_cache s) url]> (pcs s).
Proof.
  intros Hsize Hinv Hm Hi. pose proof (lookup_lt_Some _ _ _ Hi) as Hlt.
  set (s1 := goto i (ReadLocked url) (set_mx (Some i) s)).
  assert (readCache i url s = Some s1) as H1 by (unfold readCache, mc_call; by rewrite Hi, Hm).
  set (s2 := read_copy i url s1).
  assert (mc_next 0 (λ _, 0) i s1 = Some (Ret s2)) as H2
    by (unfold mc_next; simpl; by rewrite list_lookup_insert_eq).
  assert (mc_inv size s2) as Hinv2.
  { eapply (mc_next_inv size); [done| |done]. by eapply (mc_step_inv size), mc_step_read. }
  assert (pcs s2 !! i = Some (ReadCopied (lru_cache s) url)) as Hi2
    by (simpl; apply list_lookup_insert_eq; by rewrite length_insert).
  destruct (mc_next_total size 0 (λ _, 0) i _ s2 Hsize Hinv2 Hi2) as [[s3 H3]|[_ Hbad]];
    [done| |by destruct Hbad as (? & ? & ? & ? & _)].
  exists s3. split; [|split; [by eapply mc_next_inv|]].
  - eapply rtc_l; [by eapply mc_step_read|].
    eapply rtc_l; [by eapply mc_step_next|]. by eapply rtc_once, mc_step_next.
  - unfold mc_next in H3. rewrite Hi2 in H3. simpl in H3. injection H3 as H3.
    unfold read_unlock in H3. apply bind_Ret_inv in H3 as (_ & _ & H3). simplify_eq. simpl.
    split; [done|]. split; [done|]. by rewrite !list_insert_insert_eq.
Qed.

(** ** Properties *)

(** C28. [MemoryCache] never fails either of its assertions, and a writer's [put]
    never touches a cache another thread refers to: whatever the interleaving,
    the only step that can fail is the [put] of a new URL in a full cache
    (which [Lru] does not survive), and [put] always returns. *)
Theorem memory_cache_safe (size : Z) (nthreads : nat) (s : MemoryCache) :
  0 ≤ size < INT_MAX → rtc mc_step (MemoryCache_new size nthreads) s →
  (∀ now clock i p, pcs s !! i = Some p → p ≠ McIdle → is_Some (mc_next now clock i s)) ∧
  (∀ now clock i f, mc_next now clock i s = Some (Fault f) →
     f = UndefinedBehaviour ∧
     ∃ url r lru, pcs s !! i = Some (WriteReady url r) ∧ heap s !! lru_cache s = Some lru ∧
       find_entry url (entries lru) = None ∧ Z.of_nat (length (entries lru)) = size) ∧
  (∀ i url r, pcs s !! i = Some (WriteReady url r) → lru_cache s ∉ (pcs s ≫= pc_ref)).
Proof.
  intros Hsize Hreach. pose proof (mc_reachable_inv _ _ _ Hsize Hreach) as Hinv.
  assert (∀ now clock i p, pcs s !! i = Some p → p ≠ McIdle →
    mc_next_ok size now clock i p s) as Hok by (intros; eapply mc_next_total; [lia|done..]).
  split; [|split].
  - intros now clock i p Hi Hne. destruct (Hok now clock i p Hi Hne) as [(s' & ->)|[-> _]]; eauto.
  - intros now clock i f Hf. destruct (pcs s !! i) as [p|] eqn:Hi;
      [|by unfold mc_next in Hf; rewrite Hi in Hf].
    destruct (decide (p = McIdle)) as [->|Hne]; [by unfold mc_next in Hf; rewrite Hi in Hf|].
    destruct (Hok now clock i p Hi Hne) as [(s' & E)|[E Hfull]]; rewrite E in Hf; simplify_eq.
    split; [done|]. destruct Hfull as (url & r & lru & -> & ?). eauto.
  - intros i url r Hi. apply (mc_pcs _ _ Hinv i _ Hi).
Qed.

(** C29. Readers are isolated from writers.  From the moment [readCache] has
    copied the pointer until it returns, whatever other threads do, the answer
    it computes is nothing or what the URL held at that moment. *)
Theorem readCache_snapshot (size : Z) (nthreads : nat) (s s' : MemoryCache)
    (i l : nat) (url v : bytes) (lru : Lru) :
  0 ≤ size < INT_MAX → rtc mc_step (MemoryCache_new size nthreads) s →
  pcs s !! i = Some (ReadCopied l url) → heap s !! l = Some lru →
  rtc (holds_step i l) s s' → pcs s' !! i = Some (ReadDone l v) →
  v = [] ∨ find_entry url (entries lru) = Some v.
Proof.
  intros Hsize Hreach Hi Hl Hrun Hdone.
  assert (mc_inv size s' ∧ reading i l url lru s') as [_ [_ (p & Hp & Hc)]].
  { revert Hrun. apply (rtc_ind_r (λ s, mc_inv size s ∧ reading i l url lru s)).
    - split; [by eapply mc_reachable_inv|]. split; [by exists lru|eauto].
    - intros s1 s2 _ Hstep [Hinv Hread]. split; [|by eapply reading_step].
      eapply mc_step_inv; [lia|done|apply Hstep]. }
  simplify_eq. by destruct Hc as [?|[?|(? & ? & ?)]]; simplify_eq.
Qed.

(** C30. Readers are not isolated from each other, nor writers from readers.
    [get] runs outside the lock and moves list nodes, and readers share one
    object, the one a writer copies: from every state in which the lock is free,
    two idle threads can both get inside [get] on the same cache, or one inside
    [get] while the other copies the same cache -- data races both. *)
Theorem readers_race (size : Z) (nthreads : nat) (s : MemoryCache) (i j : nat)
    (url url' : bytes) :
  0 ≤ size < INT_MAX → rtc mc_step (MemoryCache_new size nthreads) s →
  mx s = None → i ≠ j → pcs s !! i = Some McIdle → pcs s !! j = Some McIdle →
  (∃ s', rtc mc_step s s' ∧ racing i j s') ∧ (∃ s', rtc mc_step s s' ∧ copy_racing i j s').
Proof.
  intros Hsize Hreach Hm Hne Hi Hj. assert (size < INT_MAX) as Hs by lia.
  pose proof (mc_reachable_inv _ _ _ Hsize Hreach) as Hinv.
  destruct (enter_get size s i url Hs Hinv Hm Hi) as (s1 & Hr1 & Hinv1 & Hm1 & Hc1 & Hp1).
  assert (pcs s1 !! j = Some McIdle) as Hj1 by (by rewrite Hp1, list_lookup_insert_ne).
  assert (pcs s1 !! i = Some (ReadGetting (lru_cache s) url)) as Hi1
    by (rewrite Hp1; apply list_lookup_insert_eq; by eapply lookup_lt_Some).
  split.
  - destruct (enter_get size s1 j url' Hs Hinv1 Hm1 Hj1) as (s2 & Hr2 & _ & _ & Hc2 & Hp2).
    exists s2. split; [by etrans|]. split; [done|]. exists (lru_cache s), url, url'.
    apply lookup_lt_Some in Hj1. rewrite Hp2, Hc1. split; [by rewrite list_lookup_insert_ne|].
    by apply list_lookup_insert_eq.
  - exists (goto j (WriteLocked url' []) (set_mx (Some j) s1)).
    split; [eapply rtc_r; [done|]; eapply (mc_step_write j); unfold writeCache, mc_call;
            by rewrite Hj1, Hm1|].
    apply lookup_lt_Some in Hj1. assert (pcs (goto j (WriteLocked url' []) (set_mx (Some j) s1)) !! i
      = Some (ReadGetting (lru_cache s) url)) as Hi2 by (simpl; by rewrite list_lookup_insert_ne).
    split; [done|]. split.
    + apply not_true_iff_false. rewrite unique_spec. intros Hu. apply Hu, list_elem_of_bind.
      exists (ReadGetting (lru_cache s) url). split; [simpl; rewrite Hc1; by left|].
      by eapply list_elem_of_lookup_2.
    + exists url, url', []. simpl in *. rewrite Hc1. split; [done|]. by apply list_lookup_insert_eq.
Qed.

(** ** Witnesses *)

(** Thread 0 has written; thread 1 is about to look the URL up. *)
Definition mc_after (moves : list (nat * option mc_pc)) (s : MemoryCache) : MemoryCache :=
  foldl (λ s m, match m.2 with
                | Some p => default s (mc_call m.1 p s)
                | None => match mc_next 7 (λ _, 7) m.1 s with
                          | Some (Ret s') => s' | _ => s end
                end) s moves.
Definition sample_moves : list (nat * option mc_pc) :=
  [(0%nat, Some (WriteLocked (str "/a") (str "A"))); (0%nat, None); (0%nat, None); (0%nat, None);
   (1%nat, Some (ReadLocked (str "/a"))); (1%nat, None)].

Definition call_of (m : mc_pc) : bool :=
  match m with ReadLocked _ | WriteLocked _ _ => true | _ => false end.

Lemma mc_after_reach moves s :
  Forall (λ m, match m.2 with Some p => call_of p = true | None => True end) moves →
  rtc mc_step s (mc_after moves s).
Proof.
  intros Hall. revert s. induction Hall as [|[i [p|]] moves Hm _ IH]; intros s; [done| |];
    simpl in *; (etrans; [|apply IH]).
  - destruct (mc_call i p s) as [s'|] eqn:Hc; [|done]. apply rtc_once. simpl.
    destruct p; try done; [by eapply mc_step_read|by eapply mc_step_write].
  - destruct (mc_next 7 (λ _, 7) i s) as [[s'|]|] eqn:Hn; [|done..].
    by eapply rtc_once, mc_step_next.
Qed.

Lemma memory_cache_safe_witness :
  let s := mc_after (take 2 sample_moves) (MemoryCache_new 2 2) in
  pcs s !! 0%nat = Some (WriteReady (str "/a") (str "A")) ∧ lru_cache s ∉ (pcs s ≫= pc_ref).
Proof.
  intros s. assert (rtc mc_step (MemoryCache_new 2 2) s) as Hs
    by (apply mc_after_reach; by repeat constructor). split; [reflexivity|].
  apply (proj2 (proj2 (memory_cache_safe 2 2 s ltac:(unfold INT_MAX; lia)
    Hs)) 0%nat (str "/a") (str "A")). reflexivity.
Defined.

Lemma readCache_snapshot_witness :
  let s := mc_after sample_moves (MemoryCache_new 2 2) in
  let s' := mc_after [(1%nat, None); (1%nat, None)] s in
  pcs s' !! 1%nat = Some (ReadDone 0 (str "A")) ∧
  (str "A" = [] ∨ find_entry (str "/a") (default [] (entries <$> heap s !! 0%nat)) = Some (str "A")).
Proof.
  intros s s'. assert (rtc mc_step (MemoryCache_new 2 2) s) as Hs
    by (apply mc_after_reach; by repeat constructor). split; [vm_compute; reflexivity|].
  assert (∃ lru, heap s !! 0%nat = Some lru) as [lru Hl] by (eexists; vm_compute; reflexivity).
  rewrite Hl. simpl.
  apply (readCache_snapshot 2 2 s s' 1 0 (str "/a") (str "A") lru ltac:(unfold INT_MAX; lia)
    Hs);
    [vm_compute; reflexivity|done| |vm_compute; reflexivity].
  apply rtc_l with (mc_after [(1%nat, None)] s).
  { split; [apply (mc_step_next 7 (λ _, 7) 1); vm_compute; reflexivity|].
    exists (ReadGetting 0 (str "/a")). split; [vm_compute; reflexivity|by left]. }
  apply rtc_once. split; [apply (mc_step_next 7 (λ _, 7) 1); vm_compute; reflexivity|].
  exists (ReadDone 0 (str "A")). split; [vm_compute; reflexivity|by left].
Defined.

Lemma readers_race_witness :
  (∃ s', rtc mc_step (MemoryCache_new 2 2) s' ∧ racing 0 1 s') ∧
  ∃ s', rtc mc_step (MemoryCache_new 2 2) s' ∧ copy_racing 0 1 s'.
Proof.
  apply (readers_race 2 2 (MemoryCache_new 2 2) 0 1 (str "/a") (str "/b"));
    [unfold INT_MAX; lia|done|reflexivity|lia|reflexivity|reflexivity].
Defined.
