(* ===== verification/EventLoops.v ===== *)
(** * The I/O threads: [EventLoopThread] and [EventLoopThreadPool]

    Models src/ModifiedMuduo/EventLoopThread.{h,cpp} and
    EventLoopThreadPool.{h,cpp}.  An [EventLoop] and a [Producer] are known to
    this code by their addresses only.  A member that no constructor
    initialises starts with a value that is an argument of the model.
    [startLoop] and the thread it starts run concurrently: [elt_step]
    interleaves them, and [destroy_step] the destructor with both. *)

From S2P Require Import Prelude CString.
From Stdlib Require Import Lia.

#[local] Open Scope Z_scope.

(** Addresses: [EventLoop *] and [Producer<...> *], the latter 0 for null. *)
Abbreviation Loop := nat.
Abbreviation ProducerPtr := Z.

Section threads.
Context {W : Type}.    (* the state the callbacks work on *)

(** The callback receives the producer pointer by value. *)
Definition ThreadInitWithProducerCallback : Type := ProducerPtr → Loop → W → W.

(** ** [EventLoopThread] *)

Record EventLoopThread := mkEventLoopThread {
  loop_ : option Loop;
  producer_ : ProducerPtr;
  exiting_ : bool;
  thread_started : bool;
  initCallback_ : option ThreadInitWithProducerCallback;
}.

(** [producer_] is in no initialiser list. *)
Definition EventLoopThread_new (indeterminate : ProducerPtr)
    (cb : option ThreadInitWithProducerCallback) : EventLoopThread :=
  mkEventLoopThread None indeterminate false false cb.

Definition getProducer_of (t : EventLoopThread) : ProducerPtr := producer_ t.

Definition set_loop (l : option Loop) (t : EventLoopThread) : EventLoopThread :=
  mkEventLoopThread l (producer_ t) (exiting_ t) (thread_started t) (initCallback_ t).
Definition set_exiting (t : EventLoopThread) : EventLoopThread :=
  mkEventLoopThread (loop_ t) (producer_ t) true (thread_started t) (initCallback_ t).
Definition set_started (t : EventLoopThread) : EventLoopThread :=
  mkEventLoopThread (loop_ t) (producer_ t) (exiting_ t) true (initCallback_ t).

(** [if (initCallback_) initCallback_(producer_, &loop);] *)
Definition run_initCallback (t : EventLoopThread) (loop : Loop) (w : W) : W :=
  match initCallback_ t with Some cb => cb (producer_ t) loop w | None => w end.

(** Where [startLoop] is: about to start the thread, testing [loop_ == NULL]
    under the mutex, past the block, returned. *)
Inductive start_pc := SEntry | SWait | SReturning | SReturned (r : option Loop).
(** Where [threadFunc] is: not started, about to run the callback, about to
    publish its loop, looping, past its last access to the members with the
    [EventLoop] still there, ended. *)
Inductive thread_pc := TNone | TInit | TPublish | TLooping | TLeaving | TExited.

#[export] Instance thread_pc_eq_dec : EqDecision thread_pc.
Proof. solve_decision. Defined.

Record elt_state := mkEltState {
  elt : EventLoopThread;
  elt_world : W;
  start_at : start_pc;
  thread_at : thread_pc;
}.

(** [thread_.start()]; the assertion in front of it. *)
Definition startLoop_begin (t : EventLoopThread) : outcome EventLoopThread :=
  _ ← cassert (negb (thread_started t));
  Ret (set_started t).

(** [loop] is the address of the [EventLoop] on the thread's own stack. *)
Inductive elt_step (loop : Loop) : elt_state → elt_state → Prop :=
  | elt_start t w t' :
      startLoop_begin t = Ret t' →
      elt_step loop (mkEltState t w SEntry TNone) (mkEltState t' w SWait TInit)
  | elt_init t w p :
      elt_step loop (mkEltState t w p TInit)
        (mkEltState t (run_initCallback t loop w) p TPublish)
  | elt_publish t w p :
      elt_step loop (mkEltState t w p TPublish)
        (mkEltState (set_loop (Some loop) t) w p TLooping)
  | elt_leave t w p :     (* [loop.loop()] returned; no lock is taken *)
      elt_step loop (mkEltState t w p TLooping) (mkEltState (set_loop None t) w p TLeaving)
  | elt_exit t w p :      (* the [EventLoop] on its stack is destroyed *)
      elt_step loop (mkEltState t w p TLeaving) (mkEltState t w p TExited)
  | elt_test t w q :
      loop_ t ≠ None →
      elt_step loop (mkEltState t w SWait q) (mkEltState t w SReturning q)
  | elt_return t w q :    (* [return loop_], outside the lock *)
      elt_step loop (mkEltState t w SReturning q) (mkEltState t w (SReturned (loop_ t)) q).

(** Where the destructor is: about to test [loop_ != NULL], about to read
    [loop_] again, about to call [quit] on what it read, joining, done. *)
Inductive destroy_pc :=
  | DTest
  | DQuit
  | DCall (l : option Loop)
  | DJoin
  | DDone
  | DFault (f : fault).

(** The destructor is called, wherever the thread and [startLoop] are. *)
Definition destroy_called (s : elt_state) : elt_state * destroy_pc :=
  (mkEltState (set_exiting (elt s)) (elt_world s) (start_at s) (thread_at s), DTest).

(** The destructor, with the thread and a [startLoop] that was entered before;
    [quit] needs an [EventLoop] that has not been destroyed. *)
Inductive destroy_step (loop : Loop) : elt_state * destroy_pc → elt_state * destroy_pc → Prop :=
  | destroy_meanwhile s s' d :
      elt_step loop s s' → start_at s ≠ SEntry → destroy_step loop (s, d) (s', d)
  | destroy_test s :
      destroy_step loop (s, DTest) (s, if decide (loop_ (elt s) = None) then DDone else DQuit)
  | destroy_read s : destroy_step loop (s, DQuit) (s, DCall (loop_ (elt s)))
  | destroy_null s : destroy_step loop (s, DCall None) (s, DFault UndefinedBehaviour)
  | destroy_quit s l :
      destroy_step loop (s, DCall (Some l))
        (s, if decide (thread_at s = TExited) then DFault UndefinedBehaviour else DJoin)
  | destroy_join s : thread_at s = TExited → destroy_step loop (s, DJoin) (s, DDone).

(** ** [EventLoopThreadPool] *)

Record EventLoopThreadPool := mkEventLoopThreadPool {
  baseLoop_ : Loop;
  pool_started : bool;
  numThreads_ : Z;           (* int *)
  next_ : Z;                 (* int *)
  loops_ : list Loop;
  ProducerMap_ : gmap Loop ProducerPtr;
}.

Definition EventLoopThreadPool_new (baseLoop : Loop) : EventLoopThreadPool :=
  mkEventLoopThreadPool baseLoop false 0 0 [] ∅.

Definition pool_setThreadNum (numThreads : Z) (p : EventLoopThreadPool) : EventLoopThreadPool :=
  mkEventLoopThreadPool (baseLoop_ p) (pool_started p) numThreads (next_ p) (loops_ p)
    (ProducerMap_ p).

(** One iteration of [start]'s loop.  [mem] gives the loop the new thread
    publishes and what its [producer_] happens to contain. *)
Definition pool_add (cb : option ThreadInitWithProducerCallback) (mem : Loop * ProducerPtr)
    (pw : EventLoopThreadPool * W) : EventLoopThreadPool * W :=
  let '(p, w) := pw in
  let t := EventLoopThread_new mem.2 cb in
  (mkEventLoopThreadPool (baseLoop_ p) (pool_started p) (numThreads_ p) (next_ p)
     (loops_ p ++ [mem.1]) (<[mem.1 := getProducer_of t]> (ProducerMap_ p)),
   run_initCallback t mem.1 w).

(** [start(const ThreadInitCallback &)]: the threads store the callback in
    [callback_], which [threadFunc] does not look at. *)
Definition pool_start_plain (cb : option (Loop → W → W)) (mem : nat → Loop)
    (p : EventLoopThreadPool) (w : W) : outcome (EventLoopThreadPool * W) :=
  _ ← cassert (negb (pool_started p));
  let n := numThreads_ p in
  Ret (mkEventLoopThreadPool (baseLoop_ p) true n (next_ p)
         (loops_ p ++ (mem <$> seq 0 (Z.to_nat n))) (ProducerMap_ p),
       match cb with
       | Some f => if n =? 0 then f (baseLoop_ p) w else w
       | None => w
       end).

(** [start(const ThreadInitWithProducerCallback &)] *)
Definition pool_start (cb : option ThreadInitWithProducerCallback)
    (mem : nat → Loop * ProducerPtr) (p : EventLoopThreadPool) (w : W)
    : outcome (EventLoopThreadPool * W) :=
  _ ← cassert (negb (pool_started p));
  let p := mkEventLoopThreadPool (baseLoop_ p) true (numThreads_ p) (next_ p) (loops_ p)
             (ProducerMap_ p) in
  Ret (foldl (λ pw i, pool_add cb (mem i) pw) (p, w) (seq 0 (Z.to_nat (numThreads_ p)))).

Definition getNextLoop (p : EventLoopThreadPool) : outcome (EventLoopThreadPool * Loop) :=
  _ ← cassert (pool_started p);
  if decide (loops_ p = []) then Ret (p, baseLoop_ p)
  else
    loop ← deref (loops_ p !! Z.to_nat (next_ p));
    let next := next_ p + 1 in
    let next := if Z.of_nat (length (loops_ p)) <=? u64 next then 0 else next in
    Ret (mkEventLoopThreadPool (baseLoop_ p) (pool_started p) (numThreads_ p) next (loops_ p)
           (ProducerMap_ p), loop).

Definition getLoopForHash (p : EventLoopThreadPool) (hashCode : Z) : outcome Loop :=
  if decide (loops_ p = []) then Ret (baseLoop_ p)
  else deref (loops_ p !! Z.to_nat (hashCode mod Z.of_nat (length (loops_ p)))).

Definition getAllLoops (p : EventLoopThreadPool) : outcome (list Loop) :=
  _ ← cassert (pool_started p);
  Ret (if decide (loops_ p = []) then [baseLoop_ p] else loops_ p).

(** [nullptr] for a loop that is not in the map. *)
Definition pool_getProducer (p : EventLoopThreadPool) (ioLoop : Loop) : ProducerPtr :=
  default 0 (ProducerMap_ p !! ioLoop).

(** [k] calls of [getNextLoop], and the loops they returned. *)
Fixpoint getNextLoops (k : nat) (p : EventLoopThreadPool)
    : outcome (EventLoopThreadPool * list Loop) :=
  match k with
  | O => Ret (p, [])
  | S k =>
      '(p, l) ← getNextLoop p;
      '(p, ls) ← getNextLoops k p;
      Ret (p, l :: ls)
  end.
End threads.
Arguments EventLoopThread : clear implicits.
Arguments elt_state : clear implicits.

(** ** Round robin *)

(** The index of [getNextLoop] is in range. *)
Definition pool_wf (p : EventLoopThreadPool) : Prop :=
  pool_started p = true ∧ Z.of_nat (length (loops_ p)) ≤ INT_MAX ∧
  (loops_ p ≠ [] → 0 ≤ next_ p < Z.of_nat (length (loops_ p))).

(** The loop that serves the [j]-th connection from now. *)
Definition nth_loop (p : EventLoopThreadPool) (j : nat) : Loop :=
  if decide (loops_ p = []) then baseLoop_ p
  else nth (Z.to_nat ((next_ p + Z.of_nat j) mod Z.of_nat (length (loops_ p)))) (loops_ p)
         (baseLoop_ p).

Lemma getNextLoop_spec p :
  pool_wf p →
  ∃ p', getNextLoop p = Ret (p', nth_loop p 0) ∧ pool_wf p' ∧
    ∀ j, nth_loop p' j = nth_loop p (S j).
Proof.
  intros (Hst & Hlen & Hnext). unfold getNextLoop, nth_loop. rewrite Hst. simpl.
  destruct (decide (loops_ p = [])) as [E|Hne]; simpl.
  { exists p. split; [done|]. split; [done|]. intros j. by rewrite decide_True. }
  specialize (Hnext Hne). set (n := Z.of_nat (length (loops_ p))) in *.
  rewrite Z.add_0_r, (Z.mod_small (next_ p)) by done.
  destruct (lookup_lt_is_Some_2 (loops_ p) (Z.to_nat (next_ p))) as [l Hl]; [lia|].
  rewrite Hl, (nth_lookup_Some _ _ _ _ Hl). simpl. eexists. split; [done|].
  unfold INT_MAX in *. rewrite u64_small by lia. unfold pool_wf. simpl. fold n.
  split.
  - split; [done|]. split; [done|]. intros _. destruct (Z.leb_spec n (next_ p + 1)); lia.
  - intros j. rewrite !decide_False by done. do 2 f_equal.
    destruct (Z.leb_spec n (next_ p + 1)) as [Hw|]; [|f_equal; lia].
    assert (next_ p + 1 = n) as Hn by lia.
    replace (next_ p + Z.of_nat (S j)) with (Z.of_nat j + 1 * n) by lia.
    rewrite Z_mod_plus_full. by f_equal.
Qed.

Lemma getNextLoops_spec k p :
  pool_wf p → ∃ p', getNextLoops k p = Ret (p', nth_loop p <$> seq 0 k) ∧ pool_wf p'.
Proof.
  revert p. induction k as [|k IH]; intros p Hwf; [by exists p|]. simpl.
  destruct (getNextLoop_spec p Hwf) as (p1 & -> & Hwf1 & Hnth).
  destruct (IH p1 Hwf1) as (p2 & E & Hwf2). simpl. rewrite E. simpl.
  exists p2. split; [|done]. do 3 f_equal. rewrite <-(fmap_S_seq 0 k), <-list_fmap_compose.
  apply list_fmap_ext. intros _ j _. apply Hnth.
Qed.

(** ** What [start] builds *)

Section start.
Context {W : Type} (cb : option (@ThreadInitWithProducerCallback W))
        (mem : nat → Loop * ProducerPtr).

Lemma pool_add_all k p w :
  ∃ w', foldl (λ pw i, pool_add cb (mem i) pw) (p, w) (seq 0 k) =
    (mkEventLoopThreadPool (baseLoop_ p) (pool_started p) (numThreads_ p) (next_ p)
       (loops_ p ++ ((λ i, (mem i).1) <$> seq 0 k))
       (foldl (λ m i, <[(mem i).1 := (mem i).2]> m) (ProducerMap_ p) (seq 0 k)), w').
Proof.
  induction k as [|k (w' & IH)]; [exists w; destruct p; simpl; by rewrite app_nil_r|].
  rewrite seq_S, !foldl_app, IH, fmap_app. simpl. eexists. rewrite app_assoc. done.
Qed.

(** [start] succeeds on a pool that has not started, and keeps what every call
    of the callback keeps. *)
Lemma pool_start_total p w (I : W → Prop) :
  pool_started p = false → (∀ f q l v, cb = Some f → I v → I (f q l v)) → I w →
  ∃ p' w', pool_start cb mem p w = Ret (p', w') ∧ pool_started p' = true ∧ I w'.
Proof.
  intros Hp Hcb Hw. unfold pool_start. rewrite Hp. simpl.
  set (p0 := mkEventLoopThreadPool _ _ _ _ _ _).
  assert (∀ k, I (foldl (λ pw i, pool_add cb (mem i) pw) (p0, w) (seq 0 k)).2) as HI.
  { intros k. induction k as [|k IH]; [done|]. rewrite seq_S, foldl_app. simpl.
    destruct (foldl _ _ (seq 0 k)) as [p1 w1]. simpl in *. unfold run_initCallback. simpl.
    destruct cb as [f|]; [by apply Hcb|done]. }
  specialize (HI (Z.to_nat (numThreads_ p))).
  destruct (pool_add_all (Z.to_nat (numThreads_ p)) p0 w) as [w' E]. rewrite E in *.
  by do 2 eexists.
Qed.

Lemma pool_start_spec base n w p w' :
  pool_start cb mem (pool_setThreadNum n (EventLoopThreadPool_new base)) w = Ret (p, w') →
  baseLoop_ p = base ∧ pool_started p = true ∧ next_ p = 0 ∧
  loops_ p = (λ i, (mem i).1) <$> seq 0 (Z.to_nat n) ∧
  ProducerMap_ p = foldl (λ m i, <[(mem i).1 := (mem i).2]> m) ∅ (seq 0 (Z.to_nat n)).
Proof.
  unfold pool_start. simpl. intros E. injection E as E.
  destruct (pool_add_all (Z.to_nat n)
    (mkEventLoopThreadPool base true n 0 [] ∅) w) as [w'' E'].
  rewrite E' in E. simpl in E. by injection E as <- <-.
Qed.
End start.

(** ** Starting a thread *)

Section start_thread.
Context {W : Type} (loop : Loop) (t0 : EventLoopThread W) (w0 : W).

Definition elt_init_state : elt_state W := mkEltState t0 w0 SEntry TNone.

(** How far the thread has got determines what the starter can have seen. *)
Definition elt_inv (s : elt_state W) : Prop :=
  (∀ w, run_initCallback (elt s) loop w = run_initCallback t0 loop w) ∧
  match thread_at s with
  | TNone => start_at s = SEntry ∧ elt_world s = w0 ∧ loop_ (elt s) = None
  | TInit => start_at s = SWait ∧ elt_world s = w0 ∧ loop_ (elt s) = None
  | TPublish => start_at s = SWait ∧ elt_world s = run_initCallback t0 loop w0 ∧
      loop_ (elt s) = None
  | TLooping => (start_at s = SWait ∨ start_at s = SReturning ∨
                 start_at s = SReturned (Some loop)) ∧
      elt_world s = run_initCallback t0 loop w0 ∧ loop_ (elt s) = Some loop
  | TLeaving | TExited => (start_at s = SWait ∨ start_at s = SReturning ∨
                start_at s = SReturned (Some loop) ∨ start_at s = SReturned None) ∧
      elt_world s = run_initCallback t0 loop w0 ∧ loop_ (elt s) = None
  end.

Lemma elt_step_inv s s' : elt_inv s → elt_step loop s s' → elt_inv s'.
Proof.
  intros [Hcb Hinv] Hstep. destruct Hstep as [t w t' Hb|t w p|t w p|t w p|t w p|t w q Hl|t w q];
    cbn [elt elt_world start_at thread_at] in *.
  - unfold startLoop_begin in Hb. destruct (thread_started t); simplify_eq/=.
    split; [done|]. by destruct Hinv as (_ & -> & Hl).
  - split; [done|]. destruct Hinv as (-> & -> & Hl). simpl. by rewrite <-Hcb.
  - split; [done|]. destruct Hinv as (-> & -> & _). simpl. auto.
  - split; [done|]. destruct Hinv as (Hp & -> & _). simpl. intuition.
  - done.
  - split; [done|]. destruct q; cbn [start_at elt_world elt thread_at] in *; intuition congruence.
  - split; [done|]. destruct q; cbn [start_at elt_world elt thread_at] in *; intuition congruence.
Qed.

Lemma elt_reachable_inv s :
  loop_ t0 = None → rtc (elt_step loop) elt_init_state s → elt_inv s.
Proof.
  intros Hnull. apply (rtc_ind_r elt_inv); [by repeat split|].
  intros s1 s2 _ Hstep Hinv. by eapply elt_step_inv.
Qed.

(** How far the thread has got. *)
Definition progress (s : elt_state W) : nat :=
  match thread_at s with
  | TNone => 0 | TInit => 1 | TPublish => 2 | TLooping => 3 | TLeaving => 4 | TExited => 5
  end.
(** It has been started and has not published its loop. *)
Definition starting (s : elt_state W) : Prop := (1 ≤ progress s ≤ 2)%nat.
(** It does not touch the members any more. *)
Definition finished (s : elt_state W) : Prop := progress s = 0%nat ∨ (4 ≤ progress s)%nat.

Lemma set_exiting_inv (t : EventLoopThread W) w p q :
  elt_inv (mkEltState t w p q) → elt_inv (mkEltState (set_exiting t) w p q).
Proof. intros [Hcb Hinv]. split; [done|]. by destruct q. Qed.

(** The thread goes forward only, and is not started again. *)
Lemma elt_step_progress (s s' : elt_state W) :
  elt_step loop s s' → start_at s ≠ SEntry →
  (progress s ≤ progress s' ≤ S (progress s))%nat ∧ (progress s = 0 → progress s' = 0)%nat.
Proof. unfold progress. intros Hstep Hse. destruct Hstep; simpl in *; first [done|lia]. Qed.

Lemma loop_progress s : elt_inv s → loop_ (elt s) = if decide (progress s = 3%nat) then Some loop else None.
Proof. intros [_ Hinv]. unfold progress. destruct (thread_at s); simpl; tauto. Qed.

Lemma exited_progress s : thread_at s = TExited ↔ progress s = 5%nat.
Proof. unfold progress. by destruct (thread_at s). Qed.

(** What the destructor knows of the thread, which had got to [p0] when it was
    called. *)
Record destroy_inv (p0 : nat) (sd : elt_state W * destroy_pc) : Prop := {
  destroy_elt : elt_inv sd.1;
  destroy_since : (p0 ≤ progress sd.1)%nat ∧ (p0 = 0 → progress sd.1 = 0)%nat;
  destroy_running : ¬ starting sd.1;
  destroy_at :
    match sd.2 with
    | DTest => True
    | DDone => finished sd.1
    | DQuit | DJoin | DCall (Some _) => (p0 ≤ 3 ≤ progress sd.1)%nat
    | DCall None => (p0 ≤ 3)%nat ∧ (4 ≤ progress sd.1)%nat
    | DFault f => f = UndefinedBehaviour ∧ (p0 ≤ 3)%nat ∧ (4 ≤ progress sd.1)%nat
    end;
}.

Lemma destroy_step_inv p0 sd sd' :
  destroy_inv p0 sd → destroy_step loop sd sd' → destroy_inv p0 sd'.
Proof.
  intros [Hinv Hp Hns Hd] Hstep. unfold finished, starting in *.
  destruct Hstep as [s s' d He Hse|s|s|s|s l|s Hx]; cbn [fst snd] in *.
  - pose proof (elt_step_inv _ _ Hinv He). apply elt_step_progress in He as [Hle H0]; [|done].
    split; unfold finished, starting; simpl; [done|lia|lia|].
    destruct d as [| |[l|]| | |f]; [done|lia..|split; [apply Hd|lia]].
  - rewrite (loop_progress s Hinv).
    split; unfold finished; simpl; [done..|]. repeat case_decide; try done; lia.
  - rewrite (loop_progress s Hinv). split; simpl; [done..|]. case_decide; lia.
  - by split.
  - split; simpl; [done..|]. case_decide as E; [|lia].
    apply exited_progress in E. split; [done|lia].
  - apply exited_progress in Hx. split; unfold finished; simpl; [done..|lia].
Qed.

Lemma destroy_called_inv s : elt_inv s → ¬ starting s → destroy_inv (progress s) (destroy_called s).
Proof. destruct s as [t w p q]. intros Hinv Hs. by split; [apply set_exiting_inv| | |]. Qed.

(** ** The join ends *)

(** A [startLoop] that is entered has started the thread. *)
Lemma progress_entered s : elt_inv s → (1 ≤ progress s)%nat → start_at s ≠ SEntry.
Proof. intros [_ Hinv]. unfold progress. destruct (thread_at s); intuition (congruence || lia). Qed.

Lemma join_ends s :
  elt_inv s → (3 ≤ progress s)%nat → ∃ s', rtc (destroy_step loop) (s, DJoin) (s', DDone).
Proof.
  intros Hinv Hp. pose proof (progress_entered s Hinv ltac:(lia)) as Hse.
  destruct s as [t w p q]. unfold progress in Hp. simpl in Hp, Hse. destruct q; simpl in Hp; try lia.
  - eexists. eapply rtc_l; [by apply destroy_meanwhile; [apply elt_leave|]|].
    eapply rtc_l; [by apply destroy_meanwhile; [apply elt_exit|]|]. by apply rtc_once, destroy_join.
  - eexists. eapply rtc_l; [by apply destroy_meanwhile; [apply elt_exit|]|].
    by apply rtc_once, destroy_join.
  - eexists. by apply rtc_once, destroy_join.
Qed.

(** Once the destructor has begun it can come to an end. *)
Lemma destroy_ends p0 s d :
  destroy_inv p0 (s, d) →
  ∃ s' d', rtc (destroy_step loop) (s, d) (s', d') ∧ (d' = DDone ∨ d' = DFault UndefinedBehaviour).
Proof.
  assert (∀ s r, destroy_inv p0 (s, DCall r) → ∃ s' d', rtc (destroy_step loop) (s, DCall r) (s', d') ∧
    (d' = DDone ∨ d' = DFault UndefinedBehaviour)) as Hcall.
  { intros s1 [l|] [Hinv _ _ Hp]; simpl in *.
    - destruct (decide (thread_at s1 = TExited)) as [Hx|Hx].
      + eexists _, _. split; [apply rtc_once, destroy_quit|]. rewrite decide_True by done. by right.
      + destruct (join_ends s1 Hinv ltac:(lia)) as [s' Hs']. exists s', DDone. split; [|by left].
        eapply rtc_l; [apply destroy_quit|]. by rewrite decide_False.
    - eexists _, _. split; [apply rtc_once, destroy_null|by right]. }
  assert (∀ s, destroy_inv p0 (s, DQuit) → ∃ s' d', rtc (destroy_step loop) (s, DQuit) (s', d') ∧
    (d' = DDone ∨ d' = DFault UndefinedBehaviour)) as Hquit.
  { intros s1 H1. pose proof (destroy_step_inv _ _ _ H1 (destroy_read loop s1)) as H2.
    destruct (Hcall _ _ H2) as (s' & d' & Hr & Hd'). exists s', d'. split; [|done].
    eapply rtc_l; [apply destroy_read|done]. }
  intros H. destruct d as [| |r| | |f].
  - pose proof (destroy_step_inv _ _ _ H (destroy_test loop s)) as H2.
    pose proof (destroy_test loop s) as Ht. case_decide.
    + exists s, DDone. split; [by apply rtc_once|by left].
    + destruct (Hquit _ H2) as (s' & d' & Hr & Hd'). exists s', d'. split; [|done].
      by eapply rtc_l.
  - by apply Hquit.
  - by apply Hcall.
  - destruct H as [Hinv _ _ Hp]. destruct (join_ends s) as [s' Hs']; [done|simpl in Hp; lia|].
    exists s', DDone. by split; [|left].
  - exists s, DDone. by split; [|left].
  - destruct H as [_ _ _ [-> _]]. eexists _, _. by split; [|right].
Qed.
End start_thread.

(** ** Properties *)

(** Connections are dealt to the I/O loops in turn: after [start] with [n]
    threads the [j]-th [getNextLoop] returns loop [j mod n], for ever, and the
    base loop when there are no threads; the index is always in range. *)
Theorem getNextLoop_round_robin {W} cb mem (base : Loop) (n : Z) (w w' : W) p (k : nat) :
  pool_start cb mem (pool_setThreadNum n (EventLoopThreadPool_new base)) w = Ret (p, w') →
  0 ≤ n ≤ INT_MAX →
  ∃ p', getNextLoops k p =
    Ret (p', (λ j, if decide (n = 0) then base else (mem (j mod Z.to_nat n)%nat).1) <$> seq 0 k).
Proof.
  intros (Hb & Hst & Hn & Hl & _)%pool_start_spec Hrange.
  assert (length (loops_ p) = Z.to_nat n) as Hlen by (by rewrite Hl, length_fmap, length_seq).
  destruct (getNextLoops_spec k p) as (p' & E & _).
  { split; [done|]. split; [lia|]. rewrite Hn. intros Hne. rewrite Hlen.
    destruct (loops_ p); [done|simpl in Hlen; lia]. }
  exists p'. rewrite E. do 2 f_equal. apply list_fmap_ext. intros _ j _. unfold nth_loop.
  rewrite Hb, Hn, Hlen. destruct (decide (n = 0)) as [->|Hnz]; [by rewrite decide_True|].
  rewrite decide_False by (intros E'; rewrite E' in Hlen; simpl in Hlen; lia).
  rewrite Z.add_0_l, <-Nat2Z.inj_mod, Nat2Z.id.
  apply nth_lookup_Some. rewrite Hl, list_lookup_fmap, lookup_seq_lt; [done|].
  apply Nat.mod_upper_bound. lia.
Qed.

(** No I/O loop gets a usable producer.  Whatever the initialisation
    callback does, it is handed [producer_] by value: after [start] the map holds
    under each loop the indeterminate value [producer_] had, and a loop
    outside the pool -- the base loop -- has none. *)
Theorem producers_indeterminate {W} cb mem (base : Loop) (n : Z) (w w' : W) p :
  pool_start cb mem (pool_setThreadNum n (EventLoopThreadPool_new base)) w = Ret (p, w') →
  NoDup ((λ i, (mem i).1) <$> seq 0 (Z.to_nat n)) →
  (∀ i, (i < Z.to_nat n)%nat → pool_getProducer p (mem i).1 = (mem i).2) ∧
  (∀ loop, loop ∉ (λ i, (mem i).1) <$> seq 0 (Z.to_nat n) → pool_getProducer p loop = 0).
Proof.
  intros (_ & _ & _ & _ & Hm)%pool_start_spec Hnd. unfold pool_getProducer. rewrite Hm. clear Hm.
  induction (Z.to_nat n) as [|k IH]; [split; [lia|done]|].
  rewrite seq_S, fmap_app in Hnd. apply NoDup_app in Hnd as (Hnd & Hdisj & _).
  destruct (IH Hnd) as [IHin IHout]. rewrite seq_S, foldl_app, fmap_app. simpl.
  split.
  - intros i Hi. destruct (decide (i = k)) as [->|Hne]; [by rewrite lookup_insert_eq|].
    rewrite lookup_insert_ne; [apply IHin; lia|]. intros E. apply (Hdisj (mem i).1).
    + apply list_elem_of_fmap. exists i. split; [done|]. apply elem_of_seq. lia.
    + rewrite <-E. by left.
  - intros loop Hout. apply not_elem_of_app in Hout as [Hout Hk].
    rewrite lookup_insert_ne; [by apply IHout|]. intros <-. apply Hk. by left.
Qed.

(** [startLoop] returns after the initialisation callback has run, once, and
    what it returns is the loop of the thread it started, or null if that
    thread has left its loop already.  A thread that leaves its loop before the
    starter has looked makes [startLoop] wait for ever. *)
Theorem startLoop_returns {W} (loop : Loop) (indeterminate : ProducerPtr)
    (cb : option (@ThreadInitWithProducerCallback W)) (w : W) (s : elt_state W) :
  let t := EventLoopThread_new indeterminate cb in
  rtc (elt_step loop) (elt_init_state t w) s →
  (∀ r, start_at s = SReturned r →
     elt_world s = run_initCallback t loop w ∧
     (r = Some loop ∨ r = None ∧ (thread_at s = TLeaving ∨ thread_at s = TExited))) ∧
  (start_at s = SWait → thread_at s = TExited → ∀ s', ¬ elt_step loop s s').
Proof.
  intros t Hreach. destruct (elt_reachable_inv loop t w s eq_refl Hreach) as [_ Hinv].
  split.
  - intros r Hr. destruct (thread_at s); intuition congruence.
  - intros Hw Hx s' Hstep. rewrite Hx in Hinv. destruct Hstep;
      cbn [elt elt_world start_at thread_at] in *; intuition congruence.
Qed.

(** C31. Destroying a thread waits for it, if the thread has published its loop.
    The destructor may be called at any moment and its two reads of [loop_]
    and the call of [quit] fall anywhere between the thread's own steps.  Called
    when the thread is not between its start and the publication of its loop --
    so in particular before [startLoop] or after it has returned -- it is done
    only when the thread was never started or touches the members no more; it
    fails only when the thread has left its loop since the first read, [quit]
    then being called on a null pointer or on a destroyed [EventLoop]; and it
    can always come to an end.  Called while the thread is starting, as when it
    runs the callback, it can be done at once with the thread running on.  (What
    a [startLoop] that has not returned does with the members is not part of it.) *)
Theorem destructor_waits {W} (loop : Loop) (indeterminate : ProducerPtr)
    (cb : option (@ThreadInitWithProducerCallback W)) (w : W) (s0 : elt_state W) :
  rtc (elt_step loop) (elt_init_state (EventLoopThread_new indeterminate cb) w) s0 →
  (start_at s0 = SEntry ∨ (∃ r, start_at s0 = SReturned r) → ¬ starting s0) ∧
  (¬ starting s0 → ∀ s d, rtc (destroy_step loop) (destroy_called s0) (s, d) →
     (d = DDone → finished s) ∧
     (∀ f, d = DFault f → f = UndefinedBehaviour ∧ thread_at s0 = TLooping ∧
        loop_ (elt s) = None) ∧
     ∃ s' d', rtc (destroy_step loop) (s, d) (s', d') ∧
       (d' = DDone ∨ d' = DFault UndefinedBehaviour)) ∧
  (starting s0 → destroy_step loop (destroy_called s0) ((destroy_called s0).1, DDone) ∧
     ∃ s, rtc (destroy_step loop) (destroy_called s0) (s, DDone) ∧ ¬ finished s).
Proof.
  intros Hreach. set (t := EventLoopThread_new indeterminate cb) in *.
  pose proof (elt_reachable_inv loop t w s0 eq_refl Hreach) as Hinv0. split; [|split].
  - destruct Hinv0 as [_ Hinv]. unfold starting, progress. intros Hs.
    destruct (thread_at s0); try lia; destruct Hinv as [Hw _]; rewrite Hw in Hs; naive_solver.
  - intros Hs s d Hd. assert (destroy_inv loop t w (progress s0) (s, d)) as H.
    { revert Hd. apply (rtc_ind_r (destroy_inv loop t w (progress s0)));
        [by apply destroy_called_inv|].
      intros sd1 sd2 _ Hstep H. by eapply destroy_step_inv. }
    pose proof (destroy_ends _ _ _ _ _ _ H) as Hend.
    destruct H as [Hinv Hp Hr Hat]. simpl in *. split; [by intros ->|]. split; [|done].
    intros f ->. destruct Hat as (-> & H3 & H4). split; [done|]. split.
    + assert (progress s0 = 3)%nat as E by (unfold starting in *; lia).
      unfold progress in E. by destruct (thread_at s0).
    + rewrite (loop_progress loop t w s Hinv). by rewrite decide_False by lia.
  - intros Hs. assert (destroy_step loop (destroy_called s0) ((destroy_called s0).1, DDone)) as H1.
    { pose proof (destroy_test loop (destroy_called s0).1) as Ht. simpl in Ht.
      rewrite (loop_progress loop t w s0 Hinv0) in Ht. unfold starting in Hs.
      by rewrite (decide_False (P := progress s0 = 3%nat)) in Ht by lia. }
    split; [done|]. exists (destroy_called s0).1. split; [by apply rtc_once|].
    unfold finished, starting, progress in *. simpl. lia.
Qed.

(** ** Witnesses *)

(** A callback that behaves as the proxy's does: it counts its calls. *)
Definition count_calls : option (@ThreadInitWithProducerCallback nat) := Some (λ _ _ w, S w).
Definition sample_mem (i : nat) : Loop * ProducerPtr := ((10 + i)%nat, 7).
Definition sample_pool : EventLoopThreadPool * nat :=
  match pool_start count_calls sample_mem (pool_setThreadNum 2 (EventLoopThreadPool_new 1)) 0%nat with
  | Ret pw => pw | Fault _ => (EventLoopThreadPool_new 1, 0%nat) end.

Lemma getNextLoop_round_robin_witness :
  ∃ p', getNextLoops 5 sample_pool.1 = Ret (p', [10; 11; 10; 11; 10]%nat).
Proof.
  apply (getNextLoop_round_robin count_calls sample_mem 1 2 0%nat 2%nat sample_pool.1 5);
    [reflexivity|unfold INT_MAX; lia].
Defined.

Lemma producers_indeterminate_witness :
  pool_getProducer sample_pool.1 10%nat = 7 ∧ pool_getProducer sample_pool.1 1%nat = 0.
Proof.
  destruct (producers_indeterminate count_calls sample_mem 1 2 0%nat 2%nat sample_pool.1
    eq_refl ltac:(apply (bool_decide_unpack _); vm_compute; reflexivity)) as [Hin Hout].
  split; [apply (Hin 0%nat); vm_compute; lia|apply Hout].
  apply (bool_decide_unpack _). vm_compute. reflexivity.
Defined.

(** A thread that loops, [startLoop] having returned. *)
Definition sample_looping : elt_state nat :=
  mkEltState (set_loop (Some 10%nat) (set_started (EventLoopThread_new 7 count_calls))) 1%nat
    (SReturned (Some 10%nat)) TLooping.
(** A thread that runs the callback. *)
Definition sample_starting : elt_state nat :=
  mkEltState (set_started (EventLoopThread_new 7 count_calls)) 0%nat SWait TInit.

Lemma sample_starting_reach :
  rtc (elt_step 10) (elt_init_state (EventLoopThread_new 7 count_calls) 0%nat) sample_starting.
Proof. apply rtc_once. by apply elt_start. Qed.

Lemma sample_looping_reach :
  rtc (elt_step 10) (elt_init_state (EventLoopThread_new 7 count_calls) 0%nat) sample_looping.
Proof.
  etrans; [apply sample_starting_reach|]. eapply rtc_l; [apply elt_init|].
  eapply rtc_l; [apply elt_publish|]. eapply rtc_l; [by apply elt_test|].
  apply rtc_once. apply elt_return.
Qed.

Lemma startLoop_returns_witness :
  elt_world sample_looping = 1%nat ∧ (Some 10%nat = Some 10%nat ∨ Some 10%nat = None ∧
    (thread_at sample_looping = TLeaving ∨ thread_at sample_looping = TExited)).
Proof.
  apply (proj1 (startLoop_returns 10 7 count_calls 0%nat _ sample_looping_reach) (Some 10%nat) eq_refl).
Defined.

(** The thread leaves its loop between the second read and [quit], and the
    destructor fails; and one that is called while the callback runs does not wait. *)
Lemma destructor_waits_witness :
  (∃ s : elt_state nat,
    rtc (destroy_step 10) (destroy_called sample_looping) (s, DFault UndefinedBehaviour) ∧
    loop_ (elt s) = None) ∧
  ∃ s : elt_state nat, rtc (destroy_step 10) (destroy_called sample_starting) (s, DDone) ∧ ¬ finished s.
Proof.
  destruct (destructor_waits 10 7 count_calls 0%nat sample_looping sample_looping_reach)
    as (Hret & Hwait & _).
  destruct (destructor_waits 10 7 count_calls 0%nat sample_starting sample_starting_reach)
    as (_ & _ & Hearly).
  split; [|apply Hearly; unfold starting, progress; simpl; lia].
  exists (mkEltState (set_exiting (set_loop None (elt sample_looping))) 1%nat
    (SReturned (Some 10%nat)) TExited).
  assert (rtc (destroy_step 10) (destroy_called sample_looping)
    (mkEltState (set_exiting (set_loop None (elt sample_looping))) 1%nat
       (SReturned (Some 10%nat)) TExited, DFault UndefinedBehaviour)) as Hr.
  { eapply rtc_l; [apply destroy_test|]. eapply rtc_l; [apply destroy_read|].
    eapply rtc_l; [apply destroy_meanwhile; [apply elt_leave|discriminate]|].
    eapply rtc_l; [apply destroy_meanwhile; [apply elt_exit|discriminate]|].
    apply rtc_once. apply (destroy_quit 10). }
  split; [exact Hr|].
  assert (¬ starting sample_looping) as Hns
    by (apply Hret; right; exists (Some 10%nat); reflexivity).
  apply (proj1 (proj2 (Hwait Hns _ _ Hr)) UndefinedBehaviour eq_refl).
Defined.
