(* ===== verification/TcpServer.v ===== *)
(** * Accepting connections: [Acceptor] and [TcpServer]

    Models src/ModifiedMuduo/Acceptor.{h,cpp} and TcpServer.{h,cpp}.  Sockets,
    channels, event loops and [TcpConnection]s belong to muduo: the model keeps
    what this code asks of them -- the last interest it registered, and the
    calls it queues on other loops as a list of [loop_call]s.  What the
    operating system answers ([accept], [open], [time]) is an argument. *)

From S2P Require Import Prelude CString EventLoops.
From Stdlib Require Import Lia.

#[local] Open Scope Z_scope.

(** ** [Acceptor] *)

Record Acceptor := mkAcceptor {
  listenning_ : bool;
  acceptor_startListenTime : Z;     (* long *)
  idleFd_ : Z;
  newConnectionCallback_ : bool;    (* whether one is set *)
  listen_calls : nat;               (* of [acceptSocket_.listen()] *)
  reading : bool;                   (* what [acceptChannel_] was last told *)
}.

Definition Acceptor_new (idleFd : Z) : outcome Acceptor :=
  _ ← cassert (0 <=? idleFd);
  Ret (mkAcceptor false (-1) idleFd false 0 false).

Definition setNewConnectionCallback (a : Acceptor) : Acceptor :=
  mkAcceptor (listenning_ a) (acceptor_startListenTime a) (idleFd_ a) true (listen_calls a)
    (reading a).

Definition Acceptor_listen (now : Z) (a : Acceptor) : Acceptor :=
  mkAcceptor true now (idleFd_ a) (newConnectionCallback_ a)
    (if acceptor_startListenTime a =? -1 then S (listen_calls a) else listen_calls a) true.

Definition Acceptor_enableListen (a : Acceptor) : Acceptor :=
  mkAcceptor true (acceptor_startListenTime a) (idleFd_ a) (newConnectionCallback_ a)
    (listen_calls a) true.

Definition Acceptor_disableListen (a : Acceptor) : Acceptor :=
  mkAcceptor false (acceptor_startListenTime a) (idleFd_ a) (newConnectionCallback_ a)
    (listen_calls a) false.

Inductive fd_event :=
  | FdCallback (connfd : Z)     (* [newConnectionCallback_(connfd, ...)] *)
  | FdClose (fd : Z).

(** [connfd] is what [accept] returned, [emfile] whether [errno] is [EMFILE],
    [spare] and [idle] what the [accept] and the [open] of the fallback return. *)
Definition handleRead (connfd : Z) (emfile : bool) (spare idle : Z) (a : Acceptor)
    : Acceptor * list fd_event :=
  if 0 <=? connfd then
    (a, [if newConnectionCallback_ a then FdCallback connfd else FdClose connfd])
  else if emfile then
    (mkAcceptor (listenning_ a) (acceptor_startListenTime a) idle (newConnectionCallback_ a)
       (listen_calls a) (reading a),
     [FdClose (idleFd_ a); FdClose spare])
  else (a, []).

Inductive acceptor_step : Acceptor → Acceptor → Prop :=
  | acceptor_callback a : acceptor_step a (setNewConnectionCallback a)
  | acceptor_listen now a : 0 ≤ now → acceptor_step a (Acceptor_listen now a)
  | acceptor_enable a : acceptor_step a (Acceptor_enableListen a)
  | acceptor_disable a : acceptor_step a (Acceptor_disableListen a)
  | acceptor_read connfd emfile spare idle a :
      acceptor_step a (handleRead connfd emfile spare idle a).1.

(** ** [TcpServer] *)

(** Which function a callback member holds; [None] is what muduo supplies, or
    the empty function for the write-complete callback. *)
Record Callbacks := mkCallbacks {
  connectionCallback_ : option string;
  messageCallback_ : option string;
  writeCompleteCallback_ : option string;
}.

Definition default_callbacks : Callbacks := mkCallbacks None None None.

(** A [TcpConnection] as [newConnection] sets it up. *)
Record Conn := mkConn {
  conn_loop : Loop;
  conn_name : bytes;
  conn_sockfd : Z;
  conn_callbacks : Callbacks;
}.

(** Functors handed to another loop. *)
Inductive loop_call :=
  | ConnectEstablished (ioLoop : Loop) (conn : Conn)
  | ConnectDestroyed (ioLoop : Loop) (conn : Conn)
  | RemoveConnectionInLoop (conn : Conn).      (* on the server's own loop *)

Definition MAX_CONNECTIONS_NUM : Z := 512.

(** [long] subtraction. *)
Definition long_sub (a b : Z) : outcome Z :=
  if (- LONG_MAX - 1 <=? a - b) && (a - b <=? LONG_MAX)
  then Ret (a - b) else Fault UndefinedBehaviour.

Section server.
Context {W : Type}.    (* what the callbacks work on *)

Record TcpServer := mkTcpServer {
  ipPort_ : bytes;
  name_ : bytes;
  acceptor_ : Acceptor;
  threadPool_ : EventLoopThreadPool;
  connections_ : gmap bytes Conn;
  nextConnId_ : Z;                        (* int *)
  started_ : bool;
  startListenTime : Z;                    (* long *)
  threadInitWithProducerCallback_ : option (@ThreadInitWithProducerCallback W);
  notifyOtherWorkerToListen : option (W → outcome W);
  callbacks_ : Callbacks;
}.

(** [startListenTime] is in no initialiser list. *)
Definition TcpServer_new (loop : Loop) (ipPort name : bytes) (idleFd indeterminate : Z)
    : outcome TcpServer :=
  acceptor ← Acceptor_new idleFd;
  Ret (mkTcpServer ipPort name (setNewConnectionCallback acceptor) (EventLoopThreadPool_new loop)
         ∅ 1 false indeterminate None None default_callbacks).

Definition set_acceptor (a : Acceptor) (sv : TcpServer) : TcpServer :=
  mkTcpServer (ipPort_ sv) (name_ sv) a (threadPool_ sv) (connections_ sv) (nextConnId_ sv)
    (started_ sv) (startListenTime sv) (threadInitWithProducerCallback_ sv)
    (notifyOtherWorkerToListen sv) (callbacks_ sv).
Definition set_pool (started : bool) (p : EventLoopThreadPool) (sv : TcpServer) : TcpServer :=
  mkTcpServer (ipPort_ sv) (name_ sv) (acceptor_ sv) p (connections_ sv) (nextConnId_ sv)
    started (startListenTime sv) (threadInitWithProducerCallback_ sv)
    (notifyOtherWorkerToListen sv) (callbacks_ sv).
Definition set_connections (m : gmap bytes Conn) (id : Z) (sv : TcpServer) : TcpServer :=
  mkTcpServer (ipPort_ sv) (name_ sv) (acceptor_ sv) (threadPool_ sv) m id
    (started_ sv) (startListenTime sv) (threadInitWithProducerCallback_ sv)
    (notifyOtherWorkerToListen sv) (callbacks_ sv).
Definition set_startListenTime (t : Z) (sv : TcpServer) : TcpServer :=
  mkTcpServer (ipPort_ sv) (name_ sv) (acceptor_ sv) (threadPool_ sv) (connections_ sv)
    (nextConnId_ sv) (started_ sv) t (threadInitWithProducerCallback_ sv)
    (notifyOtherWorkerToListen sv) (callbacks_ sv).

Definition setSchedulCallback (cb : W → outcome W) (sv : TcpServer) : TcpServer :=
  mkTcpServer (ipPort_ sv) (name_ sv) (acceptor_ sv) (threadPool_ sv) (connections_ sv)
    (nextConnId_ sv) (started_ sv) (startListenTime sv) (threadInitWithProducerCallback_ sv)
    (Some cb) (callbacks_ sv).

Definition setThreadInitCallback (cb : @ThreadInitWithProducerCallback W) (sv : TcpServer)
    : TcpServer :=
  mkTcpServer (ipPort_ sv) (name_ sv) (acceptor_ sv) (threadPool_ sv) (connections_ sv)
    (nextConnId_ sv) (started_ sv) (startListenTime sv) (Some cb)
    (notifyOtherWorkerToListen sv) (callbacks_ sv).

Definition set_callbacks (c : Callbacks) (sv : TcpServer) : TcpServer :=
  mkTcpServer (ipPort_ sv) (name_ sv) (acceptor_ sv) (threadPool_ sv) (connections_ sv)
    (nextConnId_ sv) (started_ sv) (startListenTime sv) (threadInitWithProducerCallback_ sv)
    (notifyOtherWorkerToListen sv) c.
Definition setConnectionCallback (cb : string) (sv : TcpServer) : TcpServer :=
  set_callbacks (mkCallbacks (Some cb) (messageCallback_ (callbacks_ sv))
                   (writeCompleteCallback_ (callbacks_ sv))) sv.
Definition setMessageCallback (cb : string) (sv : TcpServer) : TcpServer :=
  set_callbacks (mkCallbacks (connectionCallback_ (callbacks_ sv)) (Some cb)
                   (writeCompleteCallback_ (callbacks_ sv))) sv.
Definition Server_setWriteCompleteCallback (cb : string) (sv : TcpServer) : TcpServer :=
  set_callbacks (mkCallbacks (connectionCallback_ (callbacks_ sv))
                   (messageCallback_ (callbacks_ sv)) (Some cb)) sv.

Definition setThreadNum (numThreads : Z) (sv : TcpServer) : outcome TcpServer :=
  _ ← cassert (0 <=? numThreads);
  Ret (set_pool (started_ sv) (pool_setThreadNum numThreads (threadPool_ sv)) sv).

Definition TcpServer_start (mem : nat → Loop * ProducerPtr) (now : Z) (sv : TcpServer) (w : W)
    : outcome (TcpServer * W) :=
  if started_ sv then Ret (sv, w)
  else
    '(p, w) ← pool_start (threadInitWithProducerCallback_ sv) mem (threadPool_ sv) w;
    let sv := set_pool true p sv in
    _ ← cassert (negb (listenning_ (acceptor_ sv)));
    Ret (set_acceptor (Acceptor_listen now (acceptor_ sv)) sv, w).

(** [snprintf(buf, sizeof buf, "-%s#%d", ...)] with [char buf[64]], and
    [name_ + buf]. *)
Definition connName (sv : TcpServer) (id : Z) : bytes :=
  name_ sv ++ take 63 (str "-" ++ ipPort_ sv ++ str "#" ++ to_string id).

Definition acceptorSchedulingHandler (now : Z) (sv : TcpServer) : TcpServer :=
  if listenning_ (acceptor_ sv)
  then set_acceptor (Acceptor_disableListen (acceptor_ sv)) sv
  else set_startListenTime now (set_acceptor (Acceptor_enableListen (acceptor_ sv)) sv).

(** The load-balancing end of [newConnection]. *)
Definition scheduling_due (now : Z) (sv : TcpServer) : outcome bool :=
  if MAX_CONNECTIONS_NUM <? Z.of_nat (size (connections_ sv))
  then d ← long_sub now (startListenTime sv); Ret (10 <? d)
  else Ret false.

Definition hand_off (now : Z) (sv : TcpServer) (w : W) : outcome (TcpServer * W) :=
  due ← scheduling_due now sv;
  if (due : bool) then
    let sv := acceptorSchedulingHandler now sv in
    match notifyOtherWorkerToListen sv with
    | None => Fault BadFunctionCall
    | Some cb => w ← cb w; Ret (sv, w)
    end
  else Ret (sv, w).

(** Everything [newConnection] does before that. *)
Definition addConnection (sockfd : Z) (sv : TcpServer) : outcome (TcpServer * Conn) :=
  '(p, ioLoop) ← getNextLoop (threadPool_ sv);
  let sv := set_pool (started_ sv) p sv in
  let name := connName sv (nextConnId_ sv) in
  if INT_MAX <=? nextConnId_ sv then Fault UndefinedBehaviour
  else
    let conn := mkConn ioLoop name sockfd (callbacks_ sv) in
    Ret (set_connections (<[name := conn]> (connections_ sv)) (nextConnId_ sv + 1) sv, conn).

Definition newConnection (sockfd now : Z) (sv : TcpServer) (w : W)
    : outcome (TcpServer * W * list loop_call) :=
  '(sv, conn) ← addConnection sockfd sv;
  '(sv, w) ← hand_off now sv w;
  Ret (sv, w, [ConnectEstablished (conn_loop conn) conn]).

Definition removeConnectionInLoop (conn : Conn) (sv : TcpServer)
    : outcome (TcpServer * list loop_call) :=
  let n := if decide (is_Some (connections_ sv !! conn_name conn)) then 1 else 0 in
  let sv := set_connections (delete (conn_name conn) (connections_ sv)) (nextConnId_ sv) sv in
  _ ← cassert (n =? 1);
  Ret (sv, [ConnectDestroyed (conn_loop conn) conn]).

(** The close callback of a connection, called on its I/O loop. *)
Definition removeConnection (conn : Conn) : list loop_call := [RemoveConnectionInLoop conn].

(** The destructor's loop. *)
Definition TcpServer_destroy (sv : TcpServer) : list loop_call :=
  (λ nc, ConnectDestroyed (conn_loop nc.2) nc.2) <$> map_to_list (connections_ sv).

Inductive server_step : TcpServer * W → TcpServer * W → Prop :=
  | server_new sockfd now sv w sv' w' calls :
      newConnection sockfd now sv w = Ret (sv', w', calls) → server_step (sv, w) (sv', w')
  | server_remove conn sv w sv' calls :
      removeConnectionInLoop conn sv = Ret (sv', calls) → server_step (sv, w) (sv', w)
  | server_schedule now sv w : server_step (sv, w) (acceptorSchedulingHandler now sv, w)
  | server_start mem now sv w sv' w' :
      TcpServer_start mem now sv w = Ret (sv', w') → server_step (sv, w) (sv', w')
  | server_callback cb sv w : server_step (sv, w) (setSchedulCallback cb sv, w).
End server.
Arguments TcpServer : clear implicits.

(** ** Connection names *)

Section server_facts.
Context {W : Type}.
Implicit Types (sv : TcpServer W) (w : W).

Lemma connName_inj sv id id' :
  (length (ipPort_ sv) ≤ 51)%nat → 0 ≤ id ≤ INT_MAX → 0 ≤ id' ≤ INT_MAX →
  connName sv id = connName sv id' → id = id'.
Proof.
  intros Hip Hid Hid' E. unfold connName in E. apply app_inv_head in E.
  pose proof (to_string_short id Hid). pose proof (to_string_short id' Hid').
  rewrite !take_ge in E by solve_length.
  apply app_inv_head, app_inv_head, app_inv_head in E. by apply to_string_inj in E.
Qed.

(** Every entry is filed under its own name, which carries a number already
    given out. *)
Record server_inv sv : Prop := {
  inv_ids : 1 ≤ nextConnId_ sv ≤ INT_MAX;
  inv_names : ∀ name c, connections_ sv !! name = Some c →
    conn_name c = name ∧ ∃ id, 1 ≤ id < nextConnId_ sv ∧ name = connName sv id;
}.

(** What an operation may do to the table. *)
Lemma server_inv_shrink sv sv' :
  server_inv sv → ipPort_ sv' = ipPort_ sv → name_ sv' = name_ sv →
  nextConnId_ sv' = nextConnId_ sv → connections_ sv' ⊆ connections_ sv → server_inv sv'.
Proof.
  intros [Hids Hnames] Hip Hname Hid Hsub. split; [by rewrite Hid|].
  intros name c Hc. rewrite Hid. unfold connName. rewrite Hip, Hname.
  apply (Hnames name c). by eapply lookup_weaken.
Qed.

Lemma addConnection_spec sockfd sv sv' conn :
  addConnection sockfd sv = Ret (sv', conn) →
  ∃ p l, getNextLoop (threadPool_ sv) = Ret (p, l) ∧ nextConnId_ sv < INT_MAX ∧
    conn = mkConn l (connName sv (nextConnId_ sv)) sockfd (callbacks_ sv) ∧
    sv' = set_connections (<[conn_name conn := conn]> (connections_ sv)) (nextConnId_ sv + 1)
            (set_pool (started_ sv) p sv).
Proof.
  unfold addConnection. intros E. apply bind_Ret_inv in E as ([p l] & Hp & E).
  exists p, l. split; [done|]. simpl in E.
  destruct (Z.leb_spec INT_MAX (nextConnId_ sv)); [done|]. by injection E as <- <-.
Qed.

Lemma addConnection_inv sockfd sv sv' conn :
  server_inv sv → addConnection sockfd sv = Ret (sv', conn) → server_inv sv'.
Proof.
  intros [Hids Hnames] (p & l & _ & Hlt & -> & ->)%addConnection_spec.
  split; simpl; [lia|]. intros name c [[<- <-]|[_ Hc]]%lookup_insert_Some; simpl.
  - split; [done|]. exists (nextConnId_ sv). split; [lia|done].
  - destruct (Hnames name c Hc) as [? (id & ? & ->)]. split; [done|].
    exists id. split; [lia|done].
Qed.

Lemma scheduling_due_true now sv :
  MAX_CONNECTIONS_NUM < Z.of_nat (size (connections_ sv)) →
  10 < now - startListenTime sv ≤ LONG_MAX → scheduling_due now sv = Ret true.
Proof.
  intros Hmax [Ht1 Ht2]. unfold scheduling_due. rewrite (proj2 (Z.ltb_lt _ _) Hmax).
  unfold long_sub, LONG_MAX in *.
  rewrite (proj2 (Z.leb_le _ _)), (proj2 (Z.leb_le _ _)) by lia. simpl.
  by rewrite (proj2 (Z.ltb_lt _ _)).
Qed.

(** Handing the acceptor off does not touch the table. *)
Lemma hand_off_frame now sv w sv' w' :
  hand_off now sv w = Ret (sv', w') →
  ipPort_ sv' = ipPort_ sv ∧ name_ sv' = name_ sv ∧ nextConnId_ sv' = nextConnId_ sv ∧
  connections_ sv' = connections_ sv.
Proof.
  unfold hand_off. intros E. apply bind_Ret_inv in E as ([] & _ & E); [|by simplify_eq].
  unfold acceptorSchedulingHandler in E.
  destruct (listenning_ _), (notifyOtherWorkerToListen _) as [cb|]; try done;
    apply bind_Ret_inv in E as (w1 & _ & E); by simplify_eq.
Qed.

Lemma start_frame mem now sv w sv' w' :
  TcpServer_start mem now sv w = Ret (sv', w') →
  ipPort_ sv' = ipPort_ sv ∧ name_ sv' = name_ sv ∧ nextConnId_ sv' = nextConnId_ sv ∧
  connections_ sv' = connections_ sv.
Proof.
  unfold TcpServer_start. destruct (started_ sv); intros E; [by simplify_eq|].
  apply bind_Ret_inv in E as ([p w1] & _ & E). apply bind_Ret_inv in E as (_ & _ & E).
  by simplify_eq.
Qed.

Lemma server_step_inv (s s' : TcpServer W * W) :
  server_inv s.1 → server_step s s' → server_inv s'.1.
Proof.
  intros Hinv Hstep.
  destruct Hstep as [sockfd now sv w sv' w' calls E|conn sv w sv' calls E|now sv w
                    |mem now sv w sv' w' E|cb sv w]; simpl in *.
  - unfold newConnection in E. apply bind_Ret_inv in E as ([sv1 conn] & Hadd & E).
    apply bind_Ret_inv in E as ([sv2 w2] & Hoff & E). simplify_eq.
    apply hand_off_frame in Hoff as (? & ? & ? & Hc).
    apply (server_inv_shrink sv1); [by eapply addConnection_inv|done..|by rewrite Hc].
  - unfold removeConnectionInLoop in E. apply bind_Ret_inv in E as (_ & _ & E). simplify_eq.
    apply (server_inv_shrink sv); [done..|apply delete_subseteq].
  - apply (server_inv_shrink sv); [done|unfold acceptorSchedulingHandler; by case_match..].
  - apply start_frame in E as (? & ? & ? & Hc).
    apply (server_inv_shrink sv); [done..|by rewrite Hc].
  - by apply (server_inv_shrink sv).
Qed.

Lemma server_step_ipPort (s s' : TcpServer W * W) :
  server_step s s' → ipPort_ s'.1 = ipPort_ s.1.
Proof.
  intros Hstep.
  destruct Hstep as [sockfd now sv w sv' w' calls E|conn sv w sv' calls E|now sv w
                    |mem now sv w sv' w' E|cb sv w]; simpl in *; [| | | |done].
  - unfold newConnection in E. apply bind_Ret_inv in E as ([sv1 conn] & Hadd & E).
    apply bind_Ret_inv in E as ([sv2 w2] & Hoff & E). simplify_eq.
    apply hand_off_frame in Hoff as (-> & _).
    by apply addConnection_spec in Hadd as (? & ? & _ & _ & _ & ->).
  - unfold removeConnectionInLoop in E. apply bind_Ret_inv in E as (_ & _ & E). by simplify_eq.
  - unfold acceptorSchedulingHandler. by case_match.
  - by apply start_frame in E as (-> & _).
Qed.
End server_facts.

(** ** The acceptor *)

Definition acceptor_inv (a : Acceptor) : Prop :=
  reading a = listenning_ a ∧ (listen_calls a ≤ 1)%nat ∧
  (acceptor_startListenTime a = -1 ↔ listen_calls a = 0%nat) ∧
  -1 ≤ acceptor_startListenTime a.

Lemma acceptor_step_inv a a' : acceptor_inv a → acceptor_step a a' → acceptor_inv a'.
Proof.
  intros (Hr & Hl & Ht & Hm) Hstep.
  destruct Hstep as [a|now a Hnow|a|a|connfd emfile spare idle a]; unfold acceptor_inv; simpl;
    [done| |done|done|].
  - split; [done|]. destruct (Z.eqb_spec (acceptor_startListenTime a) (-1)); naive_solver lia.
  - unfold handleRead. by repeat case_match.
Qed.

(** ** Properties *)

(** Connection names are never reused: in every reachable state a new
    connection is filed under a name that is not in the table, so no live
    connection is dropped; removing a connection that is in the table removes
    exactly it and queues its destruction, and removing it again fails the
    assertion. *)
Theorem connections_distinct {W} (loop : Loop) (ipPort name : bytes) (idleFd indeterminate : Z)
    (sv0 : TcpServer W) (w0 : W) (s : TcpServer W * W) :
  TcpServer_new loop ipPort name idleFd indeterminate = Ret sv0 →
  (length ipPort ≤ 51)%nat → rtc server_step (sv0, w0) s →
  (∀ sockfd sv' conn, addConnection sockfd s.1 = Ret (sv', conn) →
     connections_ s.1 !! conn_name conn = None ∧
     size (connections_ sv') = S (size (connections_ s.1))) ∧
  (∀ n c, connections_ s.1 !! n = Some c →
     ∃ sv', removeConnectionInLoop c s.1 = Ret (sv', [ConnectDestroyed (conn_loop c) c]) ∧
       connections_ sv' = delete n (connections_ s.1) ∧
       removeConnectionInLoop c sv' = Fault AssertionFailed).
Proof.
  intros Hnew Hip Hreach.
  assert (server_inv s.1 ∧ ipPort_ s.1 = ipPort) as [[Hids Hnames] Hips].
  { revert Hreach. apply (rtc_ind_r (λ s, server_inv s.1 ∧ ipPort_ s.1 = ipPort)).
    - unfold TcpServer_new in Hnew. apply bind_Ret_inv in Hnew as (a & _ & E). simplify_eq.
      split; [|done]. by split.
    - intros s1 s2 _ Hstep [Hinv Hi]. split; [by eapply server_step_inv|].
      by rewrite (server_step_ipPort _ _ Hstep). }
  split.
  - intros sockfd sv' conn (p & l & _ & Hlt & -> & ->)%addConnection_spec. simpl.
    assert (connections_ s.1 !! connName s.1 (nextConnId_ s.1) = None) as Hfresh.
    { apply eq_None_not_Some. intros [c (_ & id & Hid & E)%Hnames].
      apply connName_inj in E; [lia|by rewrite Hips|lia|lia]. }
    split; [done|]. by rewrite map_size_insert_None.
  - intros n c Hc. destruct (Hnames n c Hc) as [Hn _]. unfold removeConnectionInLoop.
    rewrite Hn, decide_True by eauto. simpl. eexists. split; [done|]. split; [done|].
    simpl. by rewrite lookup_delete_eq, decide_False by (by intros []).
Qed.

(** Handing the acceptor off.  While at most 512 connections are open a new
    connection changes neither the acceptor nor the scheduling state.  Beyond
    that, and more than ten seconds after [startListenTime], it stops the
    listening acceptor and calls the notification callback once -- and if
    nobody has set one, as before the worker's first wake-up, the empty
    [std::function] throws. *)
Theorem newConnection_hand_off {W} (sockfd now : Z) (sv sv1 : TcpServer W) (w : W) (conn : Conn) :
  addConnection sockfd sv = Ret (sv1, conn) →
  let due := MAX_CONNECTIONS_NUM < Z.of_nat (size (connections_ sv1)) ∧
             10 < now - startListenTime sv ≤ LONG_MAX in
  (Z.of_nat (size (connections_ sv1)) ≤ MAX_CONNECTIONS_NUM →
     newConnection sockfd now sv w = Ret (sv1, w, [ConnectEstablished (conn_loop conn) conn]) ∧
     acceptor_ sv1 = acceptor_ sv) ∧
  (due → notifyOtherWorkerToListen sv = None →
     newConnection sockfd now sv w = Fault BadFunctionCall) ∧
  (∀ cb, due → notifyOtherWorkerToListen sv = Some cb → listenning_ (acceptor_ sv) = true →
     newConnection sockfd now sv w =
       (w' ← cb w;
        Ret (set_acceptor (Acceptor_disableListen (acceptor_ sv)) sv1, w',
             [ConnectEstablished (conn_loop conn) conn]))).
Proof.
  intros Hadd due. unfold newConnection. rewrite Hadd. simpl. unfold hand_off.
  pose proof Hadd as (p & l & _ & _ & Hconn & Hsv1)%addConnection_spec.
  assert (acceptor_ sv1 = acceptor_ sv ∧ startListenTime sv1 = startListenTime sv ∧
    notifyOtherWorkerToListen sv1 = notifyOtherWorkerToListen sv) as (Ea & Et & En)
    by (by rewrite Hsv1).
  assert (due → scheduling_due now sv1 = Ret true) as Hdue
    by (intros [Hmax Ht]; apply scheduling_due_true; [done|by rewrite Et]).
  split; [|split].
  - intros Hle. unfold scheduling_due. by rewrite (proj2 (Z.ltb_ge _ _) Hle).
  - intros Hd Hn. rewrite (Hdue Hd). simpl. unfold acceptorSchedulingHandler.
    destruct (listenning_ _); simpl; by rewrite En, Hn.
  - intros cb Hd Hn Hlist. rewrite (Hdue Hd). simpl. unfold acceptorSchedulingHandler.
    rewrite Ea, Hlist. simpl. rewrite En, Hn. by destruct (cb w).
Qed.

(** In every state the acceptor can reach, its channel is registered for
    reading exactly while [listenning_] is true, the socket has been told to
    listen at most once, and [handleRead] gives an accepted descriptor to the
    callback or closes it, once. *)
Theorem acceptor_reachable (idleFd : Z) (a0 a : Acceptor) :
  Acceptor_new idleFd = Ret a0 → rtc acceptor_step a0 a →
  reading a = listenning_ a ∧ (listen_calls a ≤ 1)%nat ∧
  (∀ now, 0 ≤ now → listen_calls (Acceptor_listen now a) = 1%nat) ∧
  (∀ connfd emfile spare idle, 0 ≤ connfd →
     handleRead connfd emfile spare idle a =
       (a, [if newConnectionCallback_ a then FdCallback connfd else FdClose connfd])).
Proof.
  intros Hnew Hreach. assert (acceptor_inv a) as (Hr & Hl & Ht & _).
  { revert Hreach. apply (rtc_ind_r acceptor_inv).
    - unfold Acceptor_new in Hnew. apply bind_Ret_inv in Hnew as (_ & _ & E). simplify_eq.
      unfold acceptor_inv. simpl. intuition lia.
    - intros a1 a2 _ Hstep Hinv. by eapply acceptor_step_inv. }
  split; [done|]. split; [done|]. split.
  - intros now _. simpl. destruct (Z.eqb_spec (acceptor_startListenTime a) (-1)); [f_equal|]; [tauto|].
    assert (listen_calls a ≠ 0%nat) by tauto. lia.
  - intros connfd emfile spare idle Hfd. unfold handleRead. by rewrite (proj2 (Z.leb_le _ _) Hfd).
Qed.

(** ** Witnesses *)

Definition sample_server : TcpServer nat :=
  match TcpServer_new 1 (str "127.0.0.1:6666") (str "proxy") 3 0 with
  | Ret sv =>
      match TcpServer_start (λ i, ((10 + i)%nat, 0)) 100 sv 0%nat with
      | Ret (sv, _) => sv | Fault _ => sv end
  | Fault _ => mkTcpServer [] [] (mkAcceptor false 0 0 false 0 false)
      (EventLoopThreadPool_new 0) ∅ 1 false 0 None None default_callbacks
  end.
(** [n] more connections. *)
Definition crowd {W} (n : nat) (sv : TcpServer W) : TcpServer W :=
  Nat.iter n (λ sv, match addConnection 9 sv with Ret (sv', _) => sv' | Fault _ => sv end) sv.
Definition crowded (n : nat) : TcpServer nat := crowd n sample_server.

Lemma connections_distinct_witness :
  ∃ sv' : TcpServer nat, ∃ c,
    connections_ sv' !! str "proxy-127.0.0.1:6666#1" = Some c ∧
    ∃ sv'', removeConnectionInLoop c sv' = Ret (sv'', [ConnectDestroyed (conn_loop c) c]) ∧
      connections_ sv'' = delete (str "proxy-127.0.0.1:6666#1") (connections_ sv') ∧
      removeConnectionInLoop c sv'' = Fault AssertionFailed.
Proof.
  exists (crowded 1). eexists. split; [vm_compute; reflexivity|].
  assert (∃ sv0, TcpServer_new 1 (str "127.0.0.1:6666") (str "proxy") 3 0 = Ret sv0 ∧
    rtc server_step (sv0, 0%nat) (crowded 1, 0%nat)) as (sv0 & Hnew & Hreach).
  { eexists. split; [reflexivity|]. eapply rtc_l.
    - apply (server_start (λ i, ((10 + i)%nat, 0)) 100). reflexivity.
    - apply rtc_once, (server_new 9 105 _ _ _ _ [ConnectEstablished 1
        (mkConn 1 (str "proxy-127.0.0.1:6666#1") 9 default_callbacks)]). vm_compute. reflexivity. }
  apply (proj2 (connections_distinct 1 _ _ 3 0 sv0 0%nat (crowded 1, 0%nat) Hnew
    ltac:(vm_compute; lia) Hreach)). vm_compute. reflexivity.
Defined.

Lemma newConnection_hand_off_witness :
  newConnection 9 111 (crowded 512) 0%nat = Fault BadFunctionCall.
Proof.
  assert (is_ret (addConnection 9 (crowded 512)) = true) as Hret by (vm_compute; reflexivity).
  destruct (addConnection 9 (crowded 512)) as [[sv1 conn]|] eqn:E; [|discriminate Hret].
  apply (newConnection_hand_off 9 111 _ sv1 0%nat conn E); [|vm_compute; reflexivity].
  assert (match addConnection 9 (crowded 512) with
    | Ret (sv, _) => Z.of_nat (size (connections_ sv)) = 513 | Fault _ => False end) as Hsize
    by (vm_compute; reflexivity).
  rewrite E in Hsize. rewrite Hsize.
  assert (startListenTime (crowded 512) = 0) as -> by (vm_compute; reflexivity).
  unfold MAX_CONNECTIONS_NUM, LONG_MAX. lia.
Defined.

Lemma acceptor_reachable_witness :
  ∃ a0, Acceptor_new 3 = Ret a0 ∧
    listen_calls (Acceptor_listen 100 (Acceptor_disableListen a0)) = 1%nat.
Proof.
  eexists. split; [reflexivity|].
  apply (acceptor_reachable 3 _ (Acceptor_disableListen _) eq_refl
    (rtc_once _ _ (acceptor_disable _)) ). lia.
Defined.
