(* ===== verification/ServerTypes.v ===== *)
(** * The machine integers of [TcpServer]

    Every operation of src/ModifiedMuduo/TcpServer.{h,cpp} as a value
    ([server_op]) and its effect ([server_exec]), and the ranges its fields
    keep: [int] connection numbers, descriptors and thread counts, [long]
    times, an index that is always inside the vector of loops. *)

From S2P Require Import Prelude CString EventLoops TcpServer.
From Stdlib Require Import Lia.

#[local] Open Scope Z_scope.

Definition in_int (z : Z) : Prop := INT_MIN ≤ z ≤ INT_MAX.
Definition in_long (z : Z) : Prop := - LONG_MAX - 1 ≤ z ≤ LONG_MAX.

Section types.
Context {W : Type}.
Implicit Types (sv : TcpServer W) (w : W).

(** ** The operations *)

Inductive server_op :=
  | OpAccept (sockfd now : Z)                   (* [newConnection] *)
  | OpRemove (conn : Conn)                      (* [removeConnectionInLoop] *)
  | OpSchedule (now : Z)                        (* [acceptorSchedulingHandler] *)
  | OpStart (mem : nat → Loop * ProducerPtr) (now : Z)
  | OpThreadNum (numThreads : Z)
  | OpReadable (connfd : Z) (emfile : bool) (spare idle : Z)   (* [Acceptor::handleRead] *)
  | OpSchedulCallback (cb : W → outcome W)
  | OpThreadInit (cb : @ThreadInitWithProducerCallback W)
  | OpConnection (cb : string)
  | OpMessage (cb : string)
  | OpWriteComplete (cb : string).

Definition server_exec (op : server_op) (sv : TcpServer W) (w : W) : outcome (TcpServer W * W) :=
  match op with
  | OpAccept sockfd now => '(sv, w, _) ← newConnection sockfd now sv w; Ret (sv, w)
  | OpRemove conn => '(sv, _) ← removeConnectionInLoop conn sv; Ret (sv, w)
  | OpSchedule now => Ret (acceptorSchedulingHandler now sv, w)
  | OpStart mem now => TcpServer_start mem now sv w
  | OpThreadNum n => sv ← setThreadNum n sv; Ret (sv, w)
  | OpReadable connfd emfile spare idle =>
      Ret (set_acceptor (handleRead connfd emfile spare idle (acceptor_ sv)).1 sv, w)
  | OpSchedulCallback cb => Ret (setSchedulCallback cb sv, w)
  | OpThreadInit cb => Ret (setThreadInitCallback cb sv, w)
  | OpConnection cb => Ret (setConnectionCallback cb sv, w)
  | OpMessage cb => Ret (setMessageCallback cb sv, w)
  | OpWriteComplete cb => Ret (Server_setWriteCompleteCallback cb sv, w)
  end.

(** Arguments of their C++ types. *)
Definition op_typed (op : server_op) : Prop :=
  match op with
  | OpAccept sockfd now => in_int sockfd ∧ in_long now
  | OpSchedule now => in_long now
  | OpStart _ now => in_long now
  | OpThreadNum n => in_int n
  | OpReadable connfd _ spare idle => in_int connfd ∧ in_int spare ∧ in_int idle
  | _ => True
  end.

Definition typed_step (s s' : TcpServer W * W) : Prop :=
  ∃ op, op_typed op ∧ server_exec op s.1 s.2 = Ret s'.

(** ** The ranges *)

Definition acceptor_typed (a : Acceptor) : Prop :=
  in_long (acceptor_startListenTime a) ∧ in_int (idleFd_ a).

Record pool_typed (p : EventLoopThreadPool) : Prop := {
  pt_threads : 0 ≤ numThreads_ p ≤ INT_MAX;
  pt_loops : Z.of_nat (length (loops_ p)) ≤ INT_MAX;
  pt_stopped : pool_started p = false → loops_ p = [] ∧ next_ p = 0;
  pt_next : in_int (next_ p);
  pt_index : loops_ p ≠ [] → 0 ≤ next_ p < Z.of_nat (length (loops_ p));
}.

Record server_typed (sv : TcpServer W) : Prop := {
  st_connId : 1 ≤ nextConnId_ sv ≤ INT_MAX;
  st_time : in_long (startListenTime sv);
  st_acceptor : acceptor_typed (acceptor_ sv);
  st_pool : pool_typed (threadPool_ sv);
  st_started : started_ sv = pool_started (threadPool_ sv);
  st_conns : map_Forall (λ _ c, in_int (conn_sockfd c)) (connections_ sv);
}.

(** ** Every operation keeps them *)

Lemma getNextLoop_typed p p' l :
  pool_typed p → getNextLoop p = Ret (p', l) →
  pool_typed p' ∧ pool_started p' = pool_started p.
Proof.
  intros [Ht Hl Hs Hn Hi] E. unfold getNextLoop in E.
  apply bind_Ret_inv in E as (_ & _ & E). case_decide as Hnil; [by simplify_eq|].
  apply bind_Ret_inv in E as (l' & _ & E). injection E as <- _. split; [|done].
  specialize (Hi Hnil). unfold INT_MAX, INT_MIN, in_int in *. rewrite u64_small by lia.
  destruct (Z.leb_spec (Z.of_nat (length (loops_ p))) (next_ p + 1));
    (split; simpl; [done|done|by intros [? _]%Hs|unfold in_int, INT_MAX, INT_MIN; lia|lia]).
Qed.

Lemma getNextLoop_progress p :
  pool_typed p → pool_started p = true → ∃ p' l, getNextLoop p = Ret (p', l).
Proof.
  intros Hp Hs. destruct (getNextLoop_spec p) as (p' & E & _); [|by eauto].
  split; [done|]. split; apply Hp.
Qed.

Lemma addConnection_typed sockfd sv sv' conn :
  server_typed sv → in_int sockfd → addConnection sockfd sv = Ret (sv', conn) → server_typed sv'.
Proof.
  intros [Hid Ht Ha Hp Hs Hc] Hfd (p & l & Hnext & Hlt & -> & ->)%addConnection_spec.
  apply getNextLoop_typed in Hnext as [Hp' Hs']; [|done].
  split; simpl; [lia|done..|congruence|]. by apply map_Forall_insert_2.
Qed.

Lemma scheduling_typed now sv :
  in_long now → server_typed sv → server_typed (acceptorSchedulingHandler now sv).
Proof.
  intros Hnow [Hid Ht [Ha1 Ha2] Hp Hs Hc]. unfold acceptorSchedulingHandler.
  by destruct (listenning_ _).
Qed.

Lemma newConnection_typed sockfd now sv w sv' w' calls :
  server_typed sv → in_int sockfd → in_long now →
  newConnection sockfd now sv w = Ret (sv', w', calls) → server_typed sv'.
Proof.
  intros Hsv Hfd Hnow E. unfold newConnection in E.
  apply bind_Ret_inv in E as ([sv1 conn] & Hadd & E).
  apply bind_Ret_inv in E as ([sv2 w2] & Hoff & E). injection E as <- _ _.
  apply addConnection_typed in Hadd; [|done..]. unfold hand_off in Hoff.
  apply bind_Ret_inv in Hoff as ([] & _ & Hoff); [|by simplify_eq].
  destruct (notifyOtherWorkerToListen _) as [cb|]; [|done].
  apply bind_Ret_inv in Hoff as (w3 & _ & E). injection E as <- _. by apply scheduling_typed.
Qed.

Lemma start_typed mem now sv w sv' w' :
  server_typed sv → in_long now → TcpServer_start mem now sv w = Ret (sv', w') → server_typed sv'.
Proof.
  intros Hsv Hnow E. unfold TcpServer_start in E.
  destruct (started_ sv) eqn:Est; [by simplify_eq|].
  destruct Hsv as [Hid Ht [Ha1 Ha2] Hp Hs Hc]. rewrite Est in Hs.
  apply bind_Ret_inv in E as ([p w1] & Hstart & E). apply bind_Ret_inv in E as (_ & _ & E).
  injection E as <- _. unfold pool_start in Hstart. rewrite <-Hs in Hstart. simpl in Hstart.
  injection Hstart as Hstart.
  destruct Hp as [Hn Hl Hstop Hnext _]. symmetry in Hs. destruct (Hstop Hs) as [Hnil Hz].
  match type of Hstart with foldl _ (?p0, _) _ = _ =>
    destruct (pool_add_all (threadInitWithProducerCallback_ sv) mem
      (Z.to_nat (numThreads_ (threadPool_ sv))) p0 w) as [w2 Hall] end.
  simpl in Hall. rewrite Hall in Hstart. injection Hstart as <- _.
  split; simpl; [done|done|done| |done|done].
  rewrite Hnil, Hz in *. split; simpl; [done| |done|done|]; rewrite length_fmap, length_seq; [lia|].
  intros Hne. destruct (Z.to_nat (numThreads_ (threadPool_ sv))); [done|lia].
Qed.

Lemma server_exec_typed op sv w sv' w' :
  server_typed sv → op_typed op → server_exec op sv w = Ret (sv', w') → server_typed sv'.
Proof.
  intros Hsv Hop E. destruct op as [sockfd now|conn|now|mem now|n|connfd emfile spare idle|cb|cb|cb|cb|cb];
    simpl in *.
  - apply bind_Ret_inv in E as ([[sv1 w1] calls] & E & E2). injection E2 as <- _.
    destruct Hop as [Hfd Hnow]. exact (newConnection_typed _ _ _ _ _ _ _ Hsv Hfd Hnow E).
  - apply bind_Ret_inv in E as ([sv1 calls] & E & E2). injection E2 as <- _.
    unfold removeConnectionInLoop in E. apply bind_Ret_inv in E as (_ & _ & E). injection E as <- _.
    destruct Hsv as [Hid Ht Ha Hp Hs Hc]. split; simpl; [done..|]. by apply map_Forall_delete.
  - injection E as <- _. by apply scheduling_typed.
  - by eapply start_typed.
  - apply bind_Ret_inv in E as (sv1 & E & E2). injection E2 as <- _. unfold setThreadNum in E.
    apply bind_Ret_inv in E as (u & Hn%cassert_Ret_inv%Z.leb_le & E). injection E as <-.
    destruct Hsv as [Hid Ht Ha [? ? ? ? ?] Hs Hc]. split; simpl; [done|done|done| |done|done].
    split; simpl; [|done..]. unfold in_int in Hop. lia.
  - injection E as <- _. destruct Hsv as [Hid Ht [Ha1 Ha2] Hp Hs Hc]. destruct Hop as (_ & _ & Hi).
    split; simpl; [done|done| |done|done|done]. unfold handleRead, acceptor_typed.
    destruct (0 <=? connfd), emfile; simpl; by split.
  - injection E as <- _. by destruct Hsv.
  - injection E as <- _. by destruct Hsv.
  - injection E as <- _. by destruct Hsv.
  - injection E as <- _. by destruct Hsv.
  - injection E as <- _. by destruct Hsv.
Qed.

Lemma TcpServer_new_typed loop ipPort name idleFd indeterminate sv :
  in_int idleFd → in_long indeterminate →
  TcpServer_new loop ipPort name idleFd indeterminate = Ret sv → server_typed sv.
Proof.
  intros Hfd Ht E. unfold TcpServer_new, Acceptor_new in E.
  apply bind_Ret_inv in E as (a & Ha & E). apply bind_Ret_inv in Ha as (_ & _ & Ha).
  injection Ha as <-. injection E as <-.
  split; simpl; [done|done| | |done|apply map_Forall_empty].
  - split; [|done]. by unfold in_long, LONG_MAX; simpl.
  - by split.
Qed.
End types.
Arguments server_op : clear implicits.

(** ** Properties *)

(** C32. The server's fields keep their C++ types' ranges.  After the constructor,
    through any sequence of operations with arguments of their types,
    connection numbers, descriptors and thread counts stay in [int], times in
    [long], and the round-robin index inside the vector of loops.  So a started
    server always finds a loop for a new connection, and adding one fails in
    one case only: when [nextConnId_] is [INT_MAX], it overflows. *)
Theorem server_types {W} (loop : Loop) (ipPort name : bytes) (idleFd indeterminate : Z)
    (sv0 : TcpServer W) (w0 : W) (s : TcpServer W * W) :
  TcpServer_new loop ipPort name idleFd indeterminate = Ret sv0 →
  in_int idleFd → in_long indeterminate → rtc typed_step (sv0, w0) s →
  server_typed s.1 ∧
  (started_ s.1 = true → ∀ sockfd,
     if decide (nextConnId_ s.1 = INT_MAX)
     then addConnection sockfd s.1 = Fault UndefinedBehaviour
     else ∃ sv' conn, addConnection sockfd s.1 = Ret (sv', conn) ∧
            nextConnId_ sv' = nextConnId_ s.1 + 1).
Proof.
  intros Hnew Hfd Ht Hreach. assert (server_typed s.1) as Hs.
  { revert Hreach. apply (rtc_ind_r (λ s, server_typed s.1)).
    - by eapply TcpServer_new_typed.
    - intros s1 [sv2 w2] _ (op & Hop & E) H1. by eapply server_exec_typed. }
  split; [done|]. intros Hst sockfd. destruct Hs as [Hid _ _ Hp Hps _].
  destruct (getNextLoop_progress (threadPool_ s.1) Hp) as (p & l & E); [by rewrite <-Hps|].
  unfold addConnection. rewrite E. simpl. case_decide as Hmax.
  - by rewrite (proj2 (Z.leb_le _ _)) by lia.
  - rewrite (proj2 (Z.leb_gt _ _)) by lia. eauto.
Qed.

(** ** Witness *)

(** Set up, started with two threads, one connection accepted and closed. *)
Definition sample_ops : list (server_op nat) :=
  [OpThreadNum 2; OpThreadInit (λ _ _ w, S w); OpMessage "onServerMessage";
   OpStart (λ i, ((10 + i)%nat, 0)) 100; OpAccept 9 105; OpReadable (-1) true 4 5].
Fixpoint exec_all (ops : list (server_op nat)) (s : TcpServer nat * nat)
    : outcome (TcpServer nat * nat) :=
  match ops with
  | [] => Ret s
  | op :: ops => s ← server_exec op s.1 s.2; exec_all ops s
  end.

Lemma exec_all_steps ops s s' :
  Forall op_typed ops → exec_all ops s = Ret s' → rtc typed_step s s'.
Proof.
  intros Hall. revert s. induction Hall as [|op ops Hop _ IH]; intros s E; simpl in E;
    [by simplify_eq|].
  apply bind_Ret_inv in E as (s1 & E1 & E). eapply rtc_l; [by exists op|by apply IH].
Qed.

Lemma server_types_witness :
  ∃ s : TcpServer nat * nat, server_typed s.1 ∧
    ∃ sv' conn, addConnection 11 s.1 = Ret (sv', conn) ∧ nextConnId_ sv' = 3.
Proof.
  assert (∃ sv0, TcpServer_new (W := nat) 1 (str "127.0.0.1:6666") (str "proxy") 3 0 = Ret sv0 ∧
    ∃ s, exec_all sample_ops (sv0, 0%nat) = Ret s ∧ nextConnId_ s.1 = 2 ∧ started_ s.1 = true)
    as (sv0 & E0 & s & E1 & Hid & Hst).
  { eexists. split; [reflexivity|]. eexists. split; [vm_compute; reflexivity|]. by split. }
  assert (rtc typed_step (sv0, 0%nat) s) as Hr.
  { apply (exec_all_steps sample_ops); [|exact E1].
    repeat constructor; vm_compute; discriminate. }
  destruct (server_types 1 _ _ 3 0 sv0 0%nat s E0 ltac:(by vm_compute) ltac:(by vm_compute) Hr)
    as [Hs Hadd].
  exists s. split; [exact Hs|]. specialize (Hadd Hst 11). rewrite Hid in Hadd. exact Hadd.
Defined.
