(* ===== verification/ConnLife.v ===== *)
(** * The life of a connection

    Over [TcpServer]: the calls it queues on the I/O loops and on its own --
    [connectEstablished], [removeConnectionInLoop], [connectDestroyed] -- wait in
    a bag and are run in any order, which covers a loop that runs its own call
    at once.  Of muduo's [TcpConnection] this relies on one thing: the close
    callback comes after [connectEstablished], once. *)

From S2P Require Import Prelude EventLoops TcpServer.
From Stdlib Require Import Lia.

#[local] Open Scope Z_scope.

#[export] Instance Callbacks_eq_dec : EqDecision Callbacks.
Proof. solve_decision. Defined.
#[export] Instance Conn_eq_dec : EqDecision Conn.
Proof. solve_decision. Defined.

(** What has happened to a connection. *)
Inductive stage := Accepted | Established | Closed | Removed | Destroyed.

#[export] Instance stage_eq_dec : EqDecision stage.
Proof. solve_decision. Defined.

(** In this order. *)
Definition stages : list stage := [Accepted; Established; Closed; Removed; Destroyed].

Definition call_conn (call : loop_call) : Conn :=
  match call with
  | ConnectEstablished _ c | ConnectDestroyed _ c | RemoveConnectionInLoop c => c
  end.

Section life.
Context {W : Type}.

Record Life := mkLife {
  lf_server : TcpServer W;
  lf_world : W;
  lf_calls : list loop_call;               (* queued, not run yet *)
  lf_log : list (Conn * stage);            (* ghost *)
}.
Implicit Types s : Life.

(** A loop runs [call]: what becomes of the server, what is queued, what happened. *)
Definition run_call (call : loop_call) (sv : TcpServer W)
    : outcome (TcpServer W * list loop_call * stage) :=
  match call with
  | ConnectEstablished _ _ => Ret (sv, [], Established)
  | RemoveConnectionInLoop c => '(sv, calls) ← removeConnectionInLoop c sv; Ret (sv, calls, Removed)
  | ConnectDestroyed _ _ => Ret (sv, [], Destroyed)
  end.

Inductive life_event :=
  | LfAccept (sockfd now : Z)              (* the acceptor's callback *)
  | LfRun (k : nat)                        (* a loop runs the [k]-th queued call *)
  | LfClose (c : Conn)                     (* the close callback of [c] *)
  | LfSchedule (now : Z)
  | LfStart (mem : nat → Loop * ProducerPtr) (now : Z)
  | LfCallback (cb : W → outcome W).

Definition with_server (sv : TcpServer W) s : Life := mkLife sv (lf_world s) (lf_calls s) (lf_log s).

(** [None]: it cannot happen now. *)
Definition life_exec (e : life_event) s : option (outcome Life) :=
  let sv := lf_server s in
  match e with
  | LfAccept sockfd now => Some (
      '(sv, w, calls) ← newConnection sockfd now sv (lf_world s);
      Ret (mkLife sv w (lf_calls s ++ calls)
             (lf_log s ++ ((λ call, (call_conn call, Accepted)) <$> calls))))
  | LfRun k =>
      call ← lf_calls s !! k;
      Some ('(sv, calls, st) ← run_call call sv;
            Ret (mkLife sv (lf_world s) (delete k (lf_calls s) ++ calls)
                   (lf_log s ++ [(call_conn call, st)])))
  | LfClose c =>
      if bool_decide ((c, Established) ∈ lf_log s) && bool_decide ((c, Closed) ∉ lf_log s)
      then Some (Ret (mkLife sv (lf_world s) (lf_calls s ++ removeConnection c)
                        (lf_log s ++ [(c, Closed)])))
      else None
  | LfSchedule now => Some (Ret (with_server (acceptorSchedulingHandler now sv) s))
  | LfStart mem now => Some (
      '(sv, w) ← TcpServer_start mem now sv (lf_world s);
      Ret (mkLife sv w (lf_calls s) (lf_log s)))
  | LfCallback cb => Some (Ret (with_server (setSchedulCallback cb sv) s))
  end.

Definition life_step s s' : Prop := ∃ e, life_exec e s = Some (Ret s').
(** Only queued calls are run. *)
Definition life_run s s' : Prop := ∃ k, life_exec (LfRun k) s = Some (Ret s').

Definition Life_new (sv : TcpServer W) (w : W) : Life := mkLife sv w [] [].

(** ** One connection *)

Definition entries (name : bytes) s : list (Conn * stage) :=
  filter (λ e, conn_name e.1 = name) (lf_log s).
Definition history (name : bytes) s : list stage := (entries name s).*2.
Definition pending (name : bytes) s : list loop_call :=
  filter (λ call, conn_name (call_conn call) = name) (lf_calls s).

(** The call that is queued for a connection at its [k]-th stage. *)
Definition awaited (c : Conn) (k : nat) : list loop_call :=
  match k with
  | 1%nat => [ConnectEstablished (conn_loop c) c]
  | 3%nat => [RemoveConnectionInLoop c]
  | 4%nat => [ConnectDestroyed (conn_loop c) c]
  | _ => []
  end.

Definition filed (c : Conn) (k : nat) : option Conn := if decide (k ≤ 3)%nat then Some c else None.

(** The connection [name] is [c], at its [k]-th stage. *)
Record lives (name : bytes) s (c : Conn) (k : nat) : Prop := {
  lives_name : conn_name c = name;
  lives_stage : (1 ≤ k ≤ 5)%nat;
  lives_entries : entries name s = (c,.) <$> take k stages;
  lives_pending : pending name s = awaited c k;
  lives_filed : connections_ (lf_server s) !! name = filed c k;
  lives_id : ∃ id, 1 ≤ id < nextConnId_ (lf_server s) ∧ name = connName (lf_server s) id;
}.

Record unborn (name : bytes) s : Prop := {
  unborn_entries : entries name s = [];
  unborn_pending : pending name s = [];
  unborn_filed : connections_ (lf_server s) !! name = None;
}.

Record life_inv s : Prop := {
  inv_next : 1 ≤ nextConnId_ (lf_server s) ≤ INT_MAX;
  inv_lives : ∀ name, unborn name s ∨ ∃ c k, lives name s c k;
}.

(** Names stay what they are. *)
Record renames (sv sv' : TcpServer W) : Prop := {
  rn_ip : ipPort_ sv' = ipPort_ sv;
  rn_name : name_ sv' = name_ sv;
  rn_next : nextConnId_ sv ≤ nextConnId_ sv';
}.

Lemma connName_renames sv sv' id : renames sv sv' → connName sv' id = connName sv id.
Proof. intros [Hip Hn _]. unfold connName. by rewrite Hip, Hn. Qed.

Lemma lives_id_renames sv sv' name :
  renames sv sv' →
  (∃ id, 1 ≤ id < nextConnId_ sv ∧ name = connName sv id) →
  ∃ id, 1 ≤ id < nextConnId_ sv' ∧ name = connName sv' id.
Proof.
  intros Hr (id & Hid & ->). exists id. rewrite (connName_renames sv sv') by done.
  destruct Hr. split; [lia|done].
Qed.

(** A connection that a step does not concern. *)
Lemma lives_frame name s s' :
  renames (lf_server s) (lf_server s') → entries name s' = entries name s →
  pending name s' = pending name s →
  connections_ (lf_server s') !! name = connections_ (lf_server s) !! name →
  unborn name s ∨ (∃ c k, lives name s c k) → unborn name s' ∨ ∃ c k, lives name s' c k.
Proof.
  intros Hr He Hp Hc [[]|(c & k & [])]; [left; by split; rewrite ?He, ?Hp, ?Hc|right].
  exists c, k. split; [done|done|by rewrite He|by rewrite Hp|by rewrite Hc|].
  by eapply lives_id_renames.
Qed.

(** A step from one stage of [c] to the next. *)
Lemma lives_next s s' c k :
  life_inv s → lives (conn_name c) s c k → (k < 5)%nat →
  renames (lf_server s) (lf_server s') → nextConnId_ (lf_server s') = nextConnId_ (lf_server s) →
  (∀ st, stages !! k = Some st → lf_log s' = lf_log s ++ [(c, st)]) →
  pending (conn_name c) s' = awaited c (S k) →
  (∀ name, name ≠ conn_name c → pending name s' = pending name s) →
  connections_ (lf_server s') =
    (if decide (k = 3)%nat then delete (conn_name c) (connections_ (lf_server s))
     else connections_ (lf_server s)) →
  life_inv s'.
Proof.
  intros [Hnext Hlives] [_ Hk He Hp Hf Hid] Hk5 Hr Hn Hlog Hp' Hpo Hconns.
  destruct (lookup_lt_is_Some_2 stages k) as [st Hst]; [simpl; lia|].
  specialize (Hlog st Hst). split; [by rewrite Hn|]. intros name.
  destruct (decide (name = conn_name c)) as [->|Hne].
  - right. exists c, (S k). split; [done|lia| |done| |by eapply lives_id_renames].
    + unfold entries in *. rewrite Hlog, filter_app, He, (take_S_r _ _ _ Hst), fmap_app.
      by rewrite filter_cons_True.
    + rewrite Hconns. unfold filed in *. case_decide as H3.
      * subst k. by rewrite lookup_delete_eq.
      * rewrite Hf. repeat case_decide; [done|lia|lia|done].
  - apply (lives_frame name s); [done| |by apply Hpo| |done].
    + unfold entries. rewrite Hlog, filter_app, filter_cons_False by (by simpl).
      by rewrite filter_nil, app_nil_r.
    + rewrite Hconns. case_decide; [by rewrite lookup_delete_ne|done].
Qed.

(** ** A queued call is run *)

Lemma split_singleton {A} (l1 l2 : list A) x y : l1 ++ x :: l2 = [y] → l1 = [] ∧ x = y ∧ l2 = [].
Proof. destruct l1 as [|z [|w l1]]; intros E; by simplify_eq/=. Qed.

(** The [i]-th call is the one its connection waits for, and the only one. *)
Lemma pending_call s i call :
  life_inv s → lf_calls s !! i = Some call →
  ∃ k, lives (conn_name (call_conn call)) s (call_conn call) k ∧
    awaited (call_conn call) k = [call] ∧
    filter (λ x, conn_name (call_conn x) = conn_name (call_conn call)) (delete i (lf_calls s)) = [] ∧
    ∀ name, name ≠ conn_name (call_conn call) →
      filter (λ x, conn_name (call_conn x) = name) (delete i (lf_calls s)) = pending name s.
Proof.
  intros [_ Hlives] Hi. unfold pending. rewrite delete_take_drop.
  set (name := conn_name (call_conn call)).
  assert (∀ n, pending n s = filter (λ x, conn_name (call_conn x) = n) (take i (lf_calls s)) ++
    filter (λ x, conn_name (call_conn x) = n) (call :: drop (S i) (lf_calls s))) as Hsplit.
  { intros n. unfold pending. rewrite <-filter_app. by rewrite take_drop_middle. }
  pose proof (Hsplit name) as E. rewrite filter_cons_True in E by done.
  destruct (Hlives name) as [[_ Hp _]|(c & k & H)]; [rewrite Hp in E; by destruct (filter _ _)|].
  pose proof (lives_pending _ _ _ _ H) as Hp. rewrite Hp in E.
  assert (∃ y, awaited c k = [y] ∧ call_conn y = c) as (y & Hy & Hyc).
  { destruct k as [|[|[|[|[|k]]]]]; simpl in *; try by destruct (filter _ _).
    all: by eexists. }
  rewrite Hy in E. symmetry in E. apply split_singleton in E as (E1 & -> & E2).
  exists k. rewrite Hyc. split; [done|]. split; [done|]. rewrite filter_app. split.
  - fold name. by rewrite E1, E2.
  - intros n Hn. fold (pending n s). rewrite Hsplit, filter_app. by rewrite filter_cons_False.
Qed.

Lemma removeConnectionInLoop_filed c (sv : TcpServer W) :
  connections_ sv !! conn_name c = Some c →
  removeConnectionInLoop c sv =
    Ret (set_connections (delete (conn_name c) (connections_ sv)) (nextConnId_ sv) sv,
         [ConnectDestroyed (conn_loop c) c]).
Proof. intros Hc. unfold removeConnectionInLoop. by rewrite decide_True by eauto. Qed.

(** Running it does not fail, and is the next stage of its connection. *)
Lemma run_call_next s i call :
  life_inv s → lf_calls s !! i = Some call →
  ∃ s', life_exec (LfRun i) s = Some (Ret s') ∧ life_inv s' ∧
    lf_calls s' = delete i (lf_calls s) ++
      match call with
      | RemoveConnectionInLoop c => [ConnectDestroyed (conn_loop c) c]
      | _ => []
      end.
Proof.
  intros Hinv Hi. destruct (pending_call s i call Hinv Hi) as (k & Hl & Hcall & Hgone & Hothers).
  unfold life_exec. rewrite Hi. cbn [mbind option_bind].
  pose proof (lives_stage _ _ _ _ Hl). pose proof (lives_filed _ _ _ _ Hl) as Hfiled.
  destruct k as [|[|[|[|[|k]]]]]; try done.
  all: injection Hcall as <-; simpl in *.
  2: rewrite (removeConnectionInLoop_filed _ _ Hfiled); simpl.
  all: eexists; split; [done|]; split; [|done];
    (eapply (lives_next s); [done|exact Hl|lia|done|done| | | |done]); simpl.
  all: try (by intros st [= <-]).
  all: unfold pending; simpl; rewrite ?app_nil_r; try done.
  all: try (intros name Hne; rewrite ?filter_app, ?filter_cons_False by (by simpl);
            rewrite ?filter_nil, ?app_nil_r; by apply Hothers).
  rewrite filter_app, Hgone, filter_cons_True by done. done.
Qed.

(** ** The other events *)

Lemma accept_inv sockfd now s sv w calls :
  life_inv s → newConnection sockfd now (lf_server s) (lf_world s) = Ret (sv, w, calls) →
  (length (ipPort_ (lf_server s)) ≤ 51)%nat →
  life_inv (mkLife sv w (lf_calls s ++ calls)
              (lf_log s ++ ((λ call, (call_conn call, Accepted)) <$> calls))).
Proof.
  intros [Hnext Hlives] E Hip. unfold newConnection in E.
  apply bind_Ret_inv in E as ([sv1 c] & Hadd & E).
  apply bind_Ret_inv in E as ([sv2 w2] & Hoff & E). simplify_eq.
  apply hand_off_frame in Hoff as (Eip & En & Eid & Ec).
  apply addConnection_spec in Hadd as (p & l & _ & Hlt & Hc & ->). simpl in *.
  assert (renames (lf_server s) sv) as Hr by (split; [done|done|rewrite Eid; lia]).
  assert (∀ n, n ≠ conn_name c → unborn n s ∨ (∃ c k, lives n s c k)) as Hothers by eauto.
  assert (unborn (conn_name c) s) as [He Hp Hf].
  { destruct (Hlives (conn_name c)) as [|(c0 & k & H)]; [done|exfalso].
    destruct (lives_id _ _ _ _ H) as (id & Hid & E). rewrite Hc in E. simpl in E.
    apply connName_inj in E; lia. }
  split; [simpl; rewrite Eid; lia|]. intros name. destruct (decide (name = conn_name c)) as [->|Hne].
  - right. exists c, 1%nat. split; simpl; [done|lia| | |by rewrite Ec, lookup_insert_eq|].
    + unfold entries in *. simpl. by rewrite filter_app, He, filter_cons_True.
    + unfold pending in *. simpl. by rewrite filter_app, Hp, filter_cons_True.
    + exists (nextConnId_ (lf_server s)). rewrite (connName_renames (lf_server s)) by done.
      split; [rewrite Eid; lia|by rewrite Hc].
  - apply (lives_frame name s); simpl; [done| | |by rewrite Ec, lookup_insert_ne|by apply Hothers].
    + unfold entries. simpl. rewrite filter_app, filter_cons_False by (by simpl).
      by rewrite filter_nil, app_nil_r.
    + unfold pending. simpl. rewrite filter_app, filter_cons_False by (by simpl).
      by rewrite filter_nil, app_nil_r.
Qed.

(** What the log says of [c] is what it says of its name. *)
Lemma log_entries c st s : (c, st) ∈ lf_log s ↔ (c, st) ∈ entries (conn_name c) s.
Proof. unfold entries. rewrite list_elem_of_filter. naive_solver. Qed.

Lemma close_inv c s :
  life_inv s → (c, Established) ∈ lf_log s → (c, Closed) ∉ lf_log s →
  life_inv (mkLife (lf_server s) (lf_world s) (lf_calls s ++ removeConnection c)
              (lf_log s ++ [(c, Closed)])).
Proof.
  intros Hinv Hup Hdown. rewrite log_entries in Hup, Hdown.
  destruct (inv_lives _ Hinv (conn_name c)) as [[He _ _]|(c0 & k & H)];
    [rewrite He in Hup; by apply not_elem_of_nil in Hup|].
  rewrite (lives_entries _ _ _ _ H) in Hup, Hdown.
  assert (c0 = c ∧ k = 2%nat) as [-> ->].
  { pose proof (lives_stage _ _ _ _ H).
    destruct k as [|[|[|[|[|[|k]]]]]]; simpl in *; try lia; set_solver. }
  unfold removeConnection.
  apply (lives_next s _ c 2); simpl; [done|done|lia|done|done|by intros st [= <-]| | |done].
  - pose proof (lives_pending _ _ _ _ H) as Hp. unfold pending in *. simpl.
    by rewrite filter_app, Hp, filter_cons_True.
  - intros name Hne. unfold pending. simpl. rewrite filter_app, filter_cons_False by (by simpl).
    by rewrite filter_nil, app_nil_r.
Qed.

(** An operation of the server that leaves the table alone. *)
Lemma server_same_inv s (sv : TcpServer W) w :
  life_inv s → ipPort_ sv = ipPort_ (lf_server s) → name_ sv = name_ (lf_server s) →
  nextConnId_ sv = nextConnId_ (lf_server s) → connections_ sv = connections_ (lf_server s) →
  life_inv (mkLife sv w (lf_calls s) (lf_log s)).
Proof.
  intros [Hnext Hlives] Hip Hn Hid Hc. split; simpl; [by rewrite Hid|]. intros name.
  apply (lives_frame name s); simpl; [split; [done|done|by rewrite Hid]|done|done|by rewrite Hc|done].
Qed.

Lemma life_step_inv s s' :
  life_inv s → (length (ipPort_ (lf_server s)) ≤ 51)%nat → life_step s s' →
  life_inv s' ∧ ipPort_ (lf_server s') = ipPort_ (lf_server s).
Proof.
  intros Hinv Hip [e E]. destruct e as [sockfd now|k|c|now|mem now|cb]; simpl in E.
  - injection E as E. apply bind_Ret_inv in E as ([[sv w] calls] & Hnew & E). simplify_eq.
    split; [by eapply accept_inv|]. simpl.
    by apply (server_step_ipPort (_, _) (_, _) (server_new _ _ _ _ _ _ _ Hnew)).
  - destruct (lf_calls s !! k) as [call|] eqn:Hk; [|done].
    destruct (run_call_next s k call Hinv Hk) as (s1 & E1 & Hinv1 & _). simpl in E1. rewrite Hk in E1.
    rewrite E1 in E. injection E as ->. split; [done|].
    cbn [mbind option_bind] in E1. injection E1 as E1.
    apply bind_Ret_inv in E1 as ([[sv calls] st] & Hrun & E1). simplify_eq. simpl.
    destruct call; simpl in Hrun; [by simplify_eq..|].
    apply bind_Ret_inv in Hrun as ([sv1 calls1] & Hrm & E1). simplify_eq.
    by apply (server_step_ipPort (_, lf_world s) (_, _) (server_remove _ _ _ _ _ Hrm)).
  - destruct (bool_decide _) eqn:H1; [|done]. destruct (bool_decide (_ ∉ _)) eqn:H2; [|done].
    apply bool_decide_eq_true in H1, H2. simplify_eq/=. split; [by apply close_inv|done].
  - simplify_eq. split.
    + apply server_same_inv; [done|unfold acceptorSchedulingHandler; by case_match..].
    + apply (server_step_ipPort (_, lf_world s) (_, _) (server_schedule now _ _)).
  - injection E as E. apply bind_Ret_inv in E as ([sv w] & Hst & E). simplify_eq.
    apply start_frame in Hst as (? & ? & ? & ?). split; [by apply server_same_inv|done].
  - simplify_eq. split; [by apply server_same_inv|done].
Qed.

Lemma life_reachable_inv s s' :
  life_inv s → (length (ipPort_ (lf_server s)) ≤ 51)%nat → rtc life_step s s' → life_inv s'.
Proof.
  intros Hinv Hip Hreach. induction Hreach as [|s1 s2 s3 Hstep _ IH]; [done|].
  destruct (life_step_inv s1 s2 Hinv Hip Hstep) as [Hinv' E]. apply IH; [done|by rewrite E].
Qed.

Lemma Life_new_inv loop ipPort name idleFd indeterminate (sv : TcpServer W) w :
  TcpServer_new loop ipPort name idleFd indeterminate = Ret sv →
  life_inv (Life_new sv w) ∧ ipPort_ (lf_server (Life_new sv w)) = ipPort.
Proof.
  intros Hnew. apply bind_Ret_inv in Hnew as (a & _ & E). simplify_eq.
  split; [|done]. split; simpl; [unfold INT_MAX; lia|]. intros n. by left.
Qed.

(** ** The queue empties *)

(** A removal queues one more call. *)
Definition weight (call : loop_call) : nat :=
  match call with RemoveConnectionInLoop _ => 2 | _ => 1 end.
Definition work (calls : list loop_call) : nat := sum_list_with weight calls.

Lemma drains s : life_inv s → ∃ s', rtc life_run s s' ∧ life_inv s' ∧ lf_calls s' = [].
Proof.
  assert (∀ n s, (work (lf_calls s) ≤ n)%nat → life_inv s →
    ∃ s', rtc life_run s s' ∧ life_inv s' ∧ lf_calls s' = []) as Hn; [|by eapply Hn].
  clear s. intros n. induction n as [|n IH]; intros s Hn Hinv;
    (destruct (lf_calls s) as [|call calls] eqn:Ec; [by exists s|]).
  { unfold work in Hn. simpl in Hn. destruct call; simpl in Hn; lia. }
  destruct (run_call_next s 0 call Hinv) as (s1 & E & Hinv1 & E1); [by rewrite Ec|].
  rewrite Ec in E1. simpl in E1. destruct (IH s1) as (s2 & Hrun & Hinv2 & E2); [|done|].
  - unfold work in *. rewrite E1, sum_list_with_app. destruct call; simpl in *; lia.
  - exists s2. split; [|done]. eapply rtc_l; [by exists 0%nat|done].
Qed.

(** ** What the invariant says of a connection's history *)

Lemma lives_history name s c k : lives name s c k → history name s = take k stages.
Proof. intros []. unfold history. rewrite lives_entries0, <-list_fmap_compose. apply list_fmap_id. Qed.

Lemma history_of s name :
  life_inv s →
  ∃ k, history name s = take k stages ∧
    (is_Some (connections_ (lf_server s) !! name) ↔ (1 ≤ k ≤ 3)%nat) ∧
    (pending name s = [] → k ∈ [0; 2; 5]%nat) ∧ (k ≤ 5)%nat.
Proof.
  intros [_ Hlives]. destruct (Hlives name) as [[He Hp Hf]|(c & k & H)].
  - exists 0%nat. unfold history. rewrite He, Hf. split; [done|]. split; [|split; [set_solver|lia]].
    split; [by intros []|lia].
  - exists k. split; [by eapply lives_history|]. destruct H as [_ Hk _ Hp Hf _].
    rewrite Hp, Hf. unfold filed. split; [|split; [|lia]].
    + case_decide; [|split; [by intros []|lia]]. split; [lia|by eexists].
    + destruct k as [|[|[|[|[|[|k]]]]]]; simpl; intros; try done; try set_solver. lia.
Qed.
End life.
Arguments Life : clear implicits.

(** ** Properties *)

(** C16. The life of a connection.  However the queued calls and the closing
    of connections interleave: what happens to a connection is accepting,
    [connectEstablished], the close callback, [removeConnectionInLoop],
    [connectDestroyed] -- each once and in this order, as far as it has come;
    [connections_] holds exactly the connections accepted and not removed;
    no queued call fails, so [removeConnectionInLoop] always erases one entry;
    and running the queued calls ends, with no connection half established or
    half destroyed. *)
Theorem connection_lifecycle {W} (loop : Loop) (ipPort name : bytes) (idleFd indeterminate : Z)
    (sv0 : TcpServer W) (w0 : W) (s : Life W) :
  TcpServer_new loop ipPort name idleFd indeterminate = Ret sv0 →
  (length ipPort ≤ 51)%nat → rtc life_step (Life_new sv0 w0) s →
  (∀ n, history n s `prefix_of` stages) ∧
  (∀ n, is_Some (connections_ (lf_server s) !! n) ↔
     Accepted ∈ history n s ∧ Removed ∉ history n s) ∧
  (∀ k f, life_exec (LfRun k) s ≠ Some (Fault f)) ∧
  (∃ s', rtc life_run s s' ∧ lf_calls s' = []) ∧
  (lf_calls s = [] → ∀ n, history n s = [] ∨ history n s = [Accepted; Established] ∨
     history n s = stages).
Proof.
  intros Hnew Hip Hreach. destruct (Life_new_inv _ _ _ _ _ _ w0 Hnew) as [Hinv0 Hip0].
  assert (life_inv s) as Hinv by (eapply life_reachable_inv; [done|by rewrite Hip0|done]).
  split; [|split; [|split; [|split]]].
  - intros n. destruct (history_of s n Hinv) as (k & -> & _). apply prefix_take.
  - intros n. destruct (history_of s n Hinv) as (k & -> & -> & _ & Hk).
    destruct k as [|[|[|[|[|[|k]]]]]]; simpl; [| | | | | |lia]; set_solver by lia.
  - intros k f E. simpl in E. destruct (lf_calls s !! k) as [call|] eqn:Hk; [|done].
    destruct (run_call_next s k call Hinv Hk) as (s' & E' & _). simpl in E'. rewrite Hk in E'.
    by rewrite E' in E.
  - destruct (drains s Hinv) as (s' & Hrun & _ & E). by exists s'.
  - intros Hcalls n. destruct (history_of s n Hinv) as (k & -> & _ & Hp & _).
    assert (pending n s = []) as Hpend by (unfold pending; by rewrite Hcalls).
    specialize (Hp Hpend). repeat (apply elem_of_cons in Hp as [->|Hp]; [by auto|]).
    by apply not_elem_of_nil in Hp.
Qed.

(** ** Witness *)

Fixpoint life_exec_all {W} (es : list life_event) (s : Life W) : option (Life W) :=
  match es with
  | [] => Some s
  | e :: es =>
      match life_exec e s with
      | Some (Ret s) => life_exec_all es s
      | _ => None
      end
  end.

Lemma life_exec_all_steps {W} es (s s' : Life W) : life_exec_all es s = Some s' → rtc life_step s s'.
Proof.
  revert s. induction es as [|e es IH]; intros s E; simpl in E; [by simplify_eq|].
  destruct (life_exec e s) as [[s1|f]|] eqn:He; [|done..].
  eapply rtc_l; [by exists e|by apply IH].
Qed.

Definition sample_name (i : bytes) : bytes := str "proxy-127.0.0.1:6666#" ++ i.
Definition sample_conn (i : bytes) : Conn := mkConn 1 (sample_name i) 9 default_callbacks.

(** Two connections; the second is established first; the first closes and is
    removed. *)
Definition sample_life : list (@life_event nat) :=
  [LfStart (λ i, ((10 + i)%nat, 0)) 100; LfAccept 9 105; LfAccept 9 106; LfRun 1; LfRun 0;
   LfClose (sample_conn (str "1")); LfRun 0].

Definition life_summary (s : Life nat) : list stage * list stage * nat :=
  (history (sample_name (str "1")) s, history (sample_name (str "2")) s, length (lf_calls s)).

Definition fresh_server : TcpServer nat :=
  mkTcpServer (str "127.0.0.1:6666") (str "proxy") (mkAcceptor false (-1) 3 true 0 false)
    (EventLoopThreadPool_new 1) ∅ 1 false 0 None None default_callbacks.

Lemma connection_lifecycle_witness :
  TcpServer_new 1 (str "127.0.0.1:6666") (str "proxy") 3 0 = Ret fresh_server ∧
  ∃ s, life_exec_all sample_life (Life_new fresh_server 0%nat) = Some s ∧
    life_summary s = ([Accepted; Established; Closed; Removed], [Accepted; Established], 1%nat) ∧
    connections_ (lf_server s) !! sample_name (str "1") = None ∧
    is_Some (connections_ (lf_server s) !! sample_name (str "2")) ∧
    ∃ s', rtc life_run s s' ∧ lf_calls s' = [].
Proof.
  assert (TcpServer_new 1 (str "127.0.0.1:6666") (str "proxy") 3 0 = Ret fresh_server) as Hnew
    by reflexivity.
  split; [exact Hnew|].
  assert (life_summary <$> life_exec_all sample_life (Life_new fresh_server 0%nat) =
    Some ([Accepted; Established; Closed; Removed], [Accepted; Established], 1%nat)) as Hs
    by (vm_compute; reflexivity).
  destruct (life_exec_all sample_life (Life_new fresh_server 0%nat)) as [s|] eqn:E; [|discriminate Hs].
  exists s. split; [done|]. apply (inj Some) in Hs.
  pose proof (f_equal (λ x, x.1.1) Hs) as H1. pose proof (f_equal (λ x, x.1.2) Hs) as H2.
  destruct (connection_lifecycle 1 _ _ 3 0 fresh_server 0%nat s Hnew ltac:(vm_compute; lia)
    (life_exec_all_steps _ _ _ E)) as (_ & Hfiled & _ & Hdrain & _).
  split; [exact Hs|]. unfold life_summary in H1, H2. cbn [fst snd] in H1, H2.
  split; [|split; [|exact Hdrain]].
  - apply eq_None_not_Some. rewrite Hfiled, H1. by apply (bool_decide_unpack _).
  - rewrite Hfiled, H2. by apply (bool_decide_unpack _).
Defined.
