(* ===== verification/Tunnel.v ===== *)
(** * [Tunnel]: one browser connection and its connection to the web server

    Models src/ProxyServer/Tunnel.h.  [serverConn_] is the connection accepted
    from the browser, [clientConn_] the one [client_] opens to the web server
    (null until it is up and again after [teardown]).  Of muduo's
    [TcpConnection] the model keeps what this code sets: whether it reads, its
    callbacks, its context, and what was passed to [send].  A message callback
    finds in the connection's input buffer everything nobody has retrieved. *)

From S2P Require Import Prelude CString HttpContext.
From Stdlib Require Import Lia.

#[local] Open Scope Z_scope.

Inductive ServerClient := kServer | kClient.

#[export] Instance ServerClient_eq_dec : EqDecision ServerClient.
Proof. solve_decision. Defined.

(** ** The connections *)

Record TcpConn := mkTcpConn {
  c_reading : bool;
  c_context : bool;                        (* [getContext()] is not empty *)
  c_highWater : option ServerClient;
  c_writeComplete : option ServerClient;
  c_shutdown : bool;
  c_input : bytes;                         (* not retrieved yet *)
  c_sent : list bytes;
}.

Definition TcpConn_new : TcpConn := mkTcpConn true false None None false [] [].

Definition setReading (b : bool) (c : TcpConn) : TcpConn :=
  mkTcpConn b (c_context c) (c_highWater c) (c_writeComplete c) (c_shutdown c) (c_input c) (c_sent c).
Definition setContext (b : bool) (c : TcpConn) : TcpConn :=
  mkTcpConn (c_reading c) b (c_highWater c) (c_writeComplete c) (c_shutdown c) (c_input c) (c_sent c).
Definition setHighWaterMarkCallback (w : ServerClient) (c : TcpConn) : TcpConn :=
  mkTcpConn (c_reading c) (c_context c) (Some w) (c_writeComplete c) (c_shutdown c) (c_input c) (c_sent c).
Definition setWriteCompleteCallback (w : option ServerClient) (c : TcpConn) : TcpConn :=
  mkTcpConn (c_reading c) (c_context c) (c_highWater c) w (c_shutdown c) (c_input c) (c_sent c).
Definition shutdown (c : TcpConn) : TcpConn :=
  mkTcpConn (c_reading c) (c_context c) (c_highWater c) (c_writeComplete c) true (c_input c) (c_sent c).
Definition set_input (b : bytes) (c : TcpConn) : TcpConn :=
  mkTcpConn (c_reading c) (c_context c) (c_highWater c) (c_writeComplete c) (c_shutdown c) b (c_sent c).
Definition send (b : bytes) (c : TcpConn) : TcpConn :=
  mkTcpConn (c_reading c) (c_context c) (c_highWater c) (c_writeComplete c) (c_shutdown c)
    (c_input c) (c_sent c ++ [b]).

(** ** [Tunnel] *)

(** What [client_] was last told. *)
Inductive client_call := ClNothing | ClConnect | ClDisconnect.

#[export] Instance client_call_eq_dec : EqDecision client_call.
Proof. solve_decision. Defined.

Record Tunnel := mkTunnel {
  serverConn_ : bool;                      (* not null *)
  clientConn_ : bool;                      (* not null *)
  cacheQueue_ : list (bytes * bool);
  client_ : client_call;
}.

(** The tunnel with the two connections it talks to, and the responses it has
    passed to [cache->writeCache]. *)
Record Link := mkLink {
  tunnel : Tunnel;
  server_side : TcpConn;
  client_side : TcpConn;
  cached : list (bytes * bytes);
}.

Definition Tunnel_new : Tunnel := mkTunnel true false [] ClNothing.

Definition set_tunnel (t : Tunnel) (k : Link) : Link :=
  mkLink t (server_side k) (client_side k) (cached k).
Definition set_server (c : TcpConn) (k : Link) : Link :=
  mkLink (tunnel k) c (client_side k) (cached k).
Definition set_client (c : TcpConn) (k : Link) : Link :=
  mkLink (tunnel k) (server_side k) c (cached k).

Definition Tunnel_setup (k : Link) : Link :=
  set_server (setHighWaterMarkCallback kServer (server_side k)) k.

Definition Tunnel_connect (t : Tunnel) : Tunnel :=
  mkTunnel (serverConn_ t) (clientConn_ t) (cacheQueue_ t) ClConnect.
Definition Tunnel_disconnect (t : Tunnel) : Tunnel :=
  mkTunnel (serverConn_ t) (clientConn_ t) (cacheQueue_ t)
    (match client_ t with ClNothing => ClNothing | _ => ClDisconnect end).

Definition pushCache (url : bytes) (canCache : bool) (t : Tunnel) : Tunnel :=
  mkTunnel (serverConn_ t) (clientConn_ t) (cacheQueue_ t ++ [(url, canCache)]) (client_ t).

Definition popCache (t : Tunnel) : Tunnel :=
  mkTunnel (serverConn_ t) (clientConn_ t)
    (match cacheQueue_ t with [] => [] | _ :: q => q end) (client_ t).

Definition set_clientConn (b : bool) (t : Tunnel) : Tunnel :=
  mkTunnel (serverConn_ t) b (cacheQueue_ t) (client_ t).

(** A member function called through [clientConn_] or [serverConn_]. *)
Definition non_null (p : bool) : outcome unit :=
  if p then Ret () else Fault UndefinedBehaviour.

Definition teardown (k : Link) : outcome Link :=
  _ ← non_null (clientConn_ (tunnel k));
  let k := if serverConn_ (tunnel k)
           then set_server (shutdown (setContext false (server_side k))) k else k in
  Ret (set_tunnel (set_clientConn false (tunnel k)) k).

(** [connected] is [conn->connected()]; [k]'s client side is [conn]. *)
Definition onClientConnection (connected : bool) (k : Link) : outcome Link :=
  if connected then
    _ ← non_null (serverConn_ (tunnel k));
    let k := set_client (setHighWaterMarkCallback kClient (client_side k)) k in
    let k := set_server (setContext true (server_side k)) k in
    Ret (set_tunnel (set_clientConn true (tunnel k)) k)
  else teardown k.

(** [send(buf, n)] with a [Buffer *]: the overload for raw memory, which sends
    [n] bytes from the [Buffer] object on; [object] is what can be read there. *)
Definition raw_bytes (object : bytes) (n : nat) : outcome bytes :=
  if (n <=? length object)%nat then Ret (take n object) else Fault UndefinedBehaviour.

Definition onClientMessage (object : bytes) (k : Link) : outcome Link :=
  let t := tunnel k in
  let buf := c_input (client_side k) in
  if serverConn_ t then
    res ← deref (head (cacheQueue_ t));
    if isResponseCompelete buf then
      k ← (if (res.2 : bool)
           then v ← c_string buf;
                Ret (mkLink t (server_side k) (client_side k) (cached k ++ [(res.1, v)]))
           else Ret k);
      sent ← raw_bytes object (length buf);
      Ret (set_tunnel (popCache t) (set_server (send sent (server_side k)) k))
    else Ret k
  else Fault Aborted.

(** [outputBytes] is [outputBuffer()->readableBytes()] of the connection. *)
Definition onHighWaterMark (which : ServerClient) (outputBytes : Z) (k : Link) : outcome Link :=
  match which with
  | kServer =>
      _ ← non_null (serverConn_ (tunnel k));
      if 0 <? outputBytes then
        _ ← non_null (clientConn_ (tunnel k));
        Ret (set_server (setWriteCompleteCallback (Some kServer) (server_side k))
               (set_client (setReading false (client_side k)) k))
      else Ret k
  | kClient =>
      _ ← non_null (clientConn_ (tunnel k));
      if 0 <? outputBytes then
        _ ← non_null (serverConn_ (tunnel k));
        Ret (set_client (setWriteCompleteCallback (Some kClient) (client_side k))
               (set_server (setReading false (server_side k)) k))
      else Ret k
  end.

Definition onWriteComplete (which : ServerClient) (k : Link) : outcome Link :=
  match which with
  | kServer =>
      _ ← non_null (clientConn_ (tunnel k));
      _ ← non_null (serverConn_ (tunnel k));
      Ret (set_server (setWriteCompleteCallback None (server_side k))
             (set_client (setReading true (client_side k)) k))
  | kClient =>
      _ ← non_null (serverConn_ (tunnel k));
      _ ← non_null (clientConn_ (tunnel k));
      Ret (set_client (setWriteCompleteCallback None (client_side k))
             (set_server (setReading true (server_side k)) k))
  end.

(** [alive]: the weak pointer still locks. *)
Definition onHighWaterMarkWeak (alive : bool) (which : ServerClient) (outputBytes : Z) (k : Link)
    : outcome Link :=
  if alive then onHighWaterMark which outputBytes k else Ret k.

Definition onWriteCompleteWeak (alive : bool) (which : ServerClient) (k : Link) : outcome Link :=
  if alive then onWriteComplete which k else Ret k.

(** ** Events *)

(** A connection event: the peer's side is up at most once, and may still come
    up after [client_.disconnect()], which does not stop a connection in progress. *)
Inductive tunnel_event :=
  | EvPush (url : bytes) (canCache : bool)
  | EvUp                                   (* the web server accepted *)
  | EvDown                                 (* the web server closed *)
  | EvData (b object : bytes)              (* bytes from the web server *)
  | EvHighWater (which : ServerClient) (outputBytes : Z)
  | EvWriteComplete (which : ServerClient).

(** What muduo does before the callback, and the callback.  A callback that is
    not installed is not called. *)
Definition tunnel_handle (e : tunnel_event) (k : Link) : option (outcome Link) :=
  match e with
  | EvPush url canCache => Some (Ret (set_tunnel (pushCache url canCache (tunnel k)) k))
  | EvUp => if bool_decide (client_ (tunnel k) ≠ ClNothing) && negb (clientConn_ (tunnel k))
               && bool_decide (c_highWater (client_side k) = None)
            then Some (onClientConnection true k) else None
  | EvDown => if clientConn_ (tunnel k) then Some (onClientConnection false k) else None
  | EvData b object =>
                if clientConn_ (tunnel k)
                then Some (onClientMessage object
                       (set_client (set_input (c_input (client_side k) ++ b) (client_side k)) k))
                else None
  | EvHighWater which n =>
      if decide (c_highWater (match which with kServer => server_side k
                                             | kClient => client_side k end) = Some which)
      then Some (onHighWaterMarkWeak true which n k) else None
  | EvWriteComplete which =>
      if decide (c_writeComplete (match which with kServer => server_side k
                                                 | kClient => client_side k end) = Some which)
      then Some (onWriteCompleteWeak true which k) else None
  end.

Definition tunnel_step (k k' : Link) : Prop :=
  ∃ e, tunnel_handle e k = Some (Ret k').

(** A tunnel as [ProxyServer] makes it. *)
Definition Link_start : Link :=
  let k := Tunnel_setup (mkLink Tunnel_new TcpConn_new TcpConn_new []) in
  set_tunnel (Tunnel_connect (tunnel k)) k.

(** ** Invariant *)

(** The side that callback [which] pauses and resumes, and the one whose output
    it waits for. *)
Definition paused (which : ServerClient) (k : Link) : bool :=
  negb (c_reading (match which with kServer => client_side k | kClient => server_side k end)).
Definition resumes (which : ServerClient) (k : Link) : option ServerClient :=
  c_writeComplete (match which with kServer => server_side k | kClient => client_side k end).

(** The web server has accepted the connection, at some time. *)
Definition accepted (k : Link) : Prop := c_highWater (client_side k) = Some kClient.
(** It has, and the connection is gone: [teardown] has run. *)
Definition torn_down (k : Link) : Prop := accepted k ∧ clientConn_ (tunnel k) = false.

(** Back-pressure: a side is paused exactly while the other has the callback
    that resumes it; before the web server has accepted neither is. *)
Record link_inv (k : Link) : Prop := {
  inv_server : serverConn_ (tunnel k) = true;
  inv_paused : ∀ which, resumes which k = if paused which k then Some which else None;
  inv_highWater : c_highWater (server_side k) = Some kServer;
  inv_accepted : accepted k ∨
    c_highWater (client_side k) = None ∧ clientConn_ (tunnel k) = false ∧
    ∀ which, paused which k = false;
  inv_silent : c_sent (server_side k) = [];
  inv_uncached : cached k = [];
}.

Lemma onClientMessage_spec object k :
  serverConn_ (tunnel k) = true →
  onClientMessage object k =
    if decide (cacheQueue_ (tunnel k) = []) then Fault UndefinedBehaviour else Ret k.
Proof.
  intros Hs. unfold onClientMessage. rewrite Hs.
  destruct (cacheQueue_ (tunnel k)); [by rewrite decide_True|by rewrite decide_False].
Qed.

(** Every event that is handled, on a link whose server side is there. *)
Lemma tunnel_handle_inv e k k' :
  link_inv k → tunnel_handle e k = Some (Ret k') →
  link_inv k' ∧ cacheQueue_ (tunnel k) `prefix_of` cacheQueue_ (tunnel k').
Proof.
  intros [Hs Hp Hh Hacc Hsent Hc] He. pose proof (Hp kServer) as Hps. pose proof (Hp kClient) as Hpc.
  unfold accepted, paused, resumes in *. clear Hp.
  destruct k as [[sc cc q cn] sv cl ca]. simpl in *. subst sc.
  destruct e as [url b| | |b ob|[] n|[]]; simpl in He.
  - simplify_eq/=. split; [|by eexists].
    split; unfold accepted, paused, resumes; simpl; [done|by intros []|done..].
  - destruct (_ && _) eqn:Hup; simplify_eq/=. apply andb_prop in Hup as [_ Hup].
    apply bool_decide_eq_true in Hup. split; [|done].
    split; unfold accepted, paused, resumes; simpl; [done|by intros []|done|by left|done..].
  - destruct cc; [|done]. unfold teardown in He. simplify_eq/=. split; [|done].
    split; unfold accepted, paused, resumes; simpl; [done|by intros []|done|naive_solver|done..].
  - destruct cc; [|done]. rewrite onClientMessage_spec in He by done.
    simpl in He. case_decide; simplify_eq/=. split; [|done].
    split; unfold accepted, paused, resumes; simpl; [done|by intros []|done|naive_solver|done..].
  - case_decide; [|done]. destruct (0 <? n), cc; simplify_eq/=; (split; [|done]);
      (split; unfold accepted, paused, resumes; simpl; [done|by intros []|done|naive_solver|done..]).
  - case_decide; [|done]. destruct (0 <? n), cc; simplify_eq/=; (split; [|done]);
      (split; unfold accepted, paused, resumes; simpl; [done|by intros []|done|naive_solver|done..]).
  - case_decide; [|done]. destruct cc; simplify_eq/=. split; [|done].
    split; unfold accepted, paused, resumes; simpl; [done|by intros []|done|naive_solver|done..].
  - case_decide; [|done]. destruct cc; simplify_eq/=. split; [|done].
    split; unfold accepted, paused, resumes; simpl; [done|by intros []|done|naive_solver|done..].
Qed.

(** No callback sends to the web server, or takes the browser's input. *)
Lemma tunnel_handle_frame e k k' :
  tunnel_handle e k = Some (Ret k') →
  c_sent (client_side k') = c_sent (client_side k) ∧
  c_input (server_side k') = c_input (server_side k).
Proof.
  intros He. destruct k as [[sc cc q cn] sv cl ca].
  destruct e as [url b| | |b ob|[] n|[]]; simpl in He.
  - by simplify_eq/=.
  - destruct (_ && _), sc; by simplify_eq/=.
  - destruct cc; [|done]. unfold teardown in He. destruct sc; by simplify_eq/=.
  - destruct cc; [|done]. destruct sc; [|done]. rewrite onClientMessage_spec in He by done.
    by case_decide; simplify_eq/=.
  - case_decide; [|done]. destruct sc, (0 <? n), cc; by simplify_eq/=.
  - case_decide; [|done]. destruct sc, (0 <? n), cc; by simplify_eq/=.
  - case_decide; [|done]. destruct sc, cc; by simplify_eq/=.
  - case_decide; [|done]. destruct sc, cc; by simplify_eq/=.
Qed.

Lemma tunnel_reachable_inv k : rtc tunnel_step Link_start k → link_inv k.
Proof.
  apply (rtc_ind_r link_inv); [split; [done|by intros []|done| |done..]|].
  { right. split_and!; [done..|by intros []]. }
  intros k1 k2 _ [e He] Hinv. by eapply tunnel_handle_inv.
Qed.

Lemma tunnel_steps_queue k k' :
  link_inv k → rtc tunnel_step k k' →
  cacheQueue_ (tunnel k) `prefix_of` cacheQueue_ (tunnel k').
Proof.
  intros Hinv Hsteps. induction Hsteps as [k|k k1 k2 [e He] _ IH]; [done|].
  destruct (tunnel_handle_inv e k k1 Hinv He) as [Hinv' Hq]. etrans; [done|by apply IH].
Qed.

(** The events whose callback fails. *)
Definition fails (k : Link) (e : tunnel_event) : Prop :=
  match e with
  | EvData _ _ => clientConn_ (tunnel k) = true ∧ cacheQueue_ (tunnel k) = []
  | EvHighWater kServer n => clientConn_ (tunnel k) = false ∧ 0 < n
  | EvHighWater kClient _ => torn_down k
  | EvWriteComplete which => torn_down k ∧ paused which k = true
  | _ => False
  end.

Lemma tunnel_handle_fails e k f :
  link_inv k → tunnel_handle e k = Some (Fault f) ↔ f = UndefinedBehaviour ∧ fails k e.
Proof.
  intros [Hs Hp Hh Hacc Hsent Hc]. pose proof (Hp kServer) as Hps. pose proof (Hp kClient) as Hpc.
  unfold torn_down, accepted in *.
  destruct k as [[sc cc q cn] sv cl ca]. unfold paused, resumes in *. simpl in *. subst sc.
  destruct e as [url b| | |b ob|[] n|[]]; unfold fails, torn_down, accepted, paused; simpl.
  - naive_solver.
  - destruct (_ && _); naive_solver.
  - destruct cc; naive_solver.
  - destruct cc; [|naive_solver]. rewrite onClientMessage_spec by done. simpl.
    case_decide; naive_solver.
  - rewrite decide_True by done. rewrite <- Z.ltb_lt. destruct (0 <? n), cc; naive_solver.
  - case_decide; [|split; [done|by intros (_ & ? & _)]].
    destruct cc; simpl; [destruct (0 <? n); simpl|]; split; (intros [=]||intros (-> & ? & ?)); done.
  - rewrite Hps. destruct (negb (c_reading cl)) eqn:E.
    + rewrite decide_True by done. destruct cc; simpl; [split; [done|by intros (_ & [_ ?] & _)]|].
      destruct Hacc as [?|(_ & _ & Hno)]; [split; [by intros [= <-]|by intros [-> _]]|].
      specialize (Hno kServer). simpl in Hno. congruence.
    + rewrite decide_False by done. split; [done|by intros (_ & _ & ?)].
  - rewrite Hpc. destruct (negb (c_reading sv)) eqn:E.
    + rewrite decide_True by done. destruct cc; simpl; [split; [done|by intros (_ & [_ ?] & _)]|].
      destruct Hacc as [?|(_ & _ & Hno)]; [split; [by intros [= <-]|by intros [-> _]]|].
      specialize (Hno kClient). simpl in Hno. congruence.
    + rewrite decide_False by done. split; [done|by intros (_ & _ & ?)].
Qed.

(** ** Properties *)

(** The proxy never answers.  However long the web server talks, nothing is
    sent to the browser and nothing is cached: a response is kept in the input
    buffer, whole, because [isResponseCompelete] denies every response, and the
    queue of requests awaiting their response only grows. *)
Theorem tunnel_never_responds (k k' : Link) :
  rtc tunnel_step Link_start k → rtc tunnel_step k k' →
  c_sent (server_side k') = [] ∧ cached k' = [] ∧
  cacheQueue_ (tunnel k) `prefix_of` cacheQueue_ (tunnel k') ∧
  (∀ b ob k'', tunnel_handle (EvData b ob) k' = Some (Ret k'') →
     k'' = set_client (set_input (c_input (client_side k') ++ b) (client_side k')) k').
Proof.
  intros Hk Hk'. pose proof (tunnel_reachable_inv k Hk) as Hinv.
  pose proof (tunnel_reachable_inv k' ltac:(by etrans)) as Hinv'.
  split; [apply Hinv'|]. split; [apply Hinv'|]. split; [by apply tunnel_steps_queue|].
  intros b ob k'' He. simpl in He. destruct (clientConn_ (tunnel k')); [|done].
  rewrite onClientMessage_spec in He by apply Hinv'. case_decide; by simplify_eq.
Qed.

(** C33. Back-pressure pauses and resumes both sides.  In every reachable state a
    side is paused exactly while the write-complete callback that resumes it is
    installed.  While the connection to the web server is up, the high-water
    callback of either side, with bytes pending, pauses the other side, and the
    write-complete callback resumes it, removes itself, and leaves the
    other direction as it was.  Before the web server has accepted neither side is
    paused; after [teardown] a side that is paused is not resumed: the callback
    that should do it is undefined behaviour. *)
Theorem tunnel_back_pressure (k : Link) :
  rtc tunnel_step Link_start k →
  (∀ which, paused which k = true ↔ resumes which k = Some which) ∧
  (clientConn_ (tunnel k) = true → ∀ which n, 0 < n →
     ∃ k', tunnel_handle (EvHighWater which n) k = Some (Ret k') ∧ paused which k' = true ∧
       ∀ other, other ≠ which → paused other k' = paused other k) ∧
  (clientConn_ (tunnel k) = true → ∀ which, paused which k = true →
     ∃ k', tunnel_handle (EvWriteComplete which) k = Some (Ret k') ∧
       paused which k' = false ∧ resumes which k' = None ∧
       ∀ other, other ≠ which → paused other k' = paused other k ∧ resumes other k' = resumes other k) ∧
  (clientConn_ (tunnel k) = false → ∀ which, paused which k = true →
     torn_down k ∧ tunnel_handle (EvWriteComplete which) k = Some (Fault UndefinedBehaviour)).
Proof.
  intros Hk. pose proof (tunnel_reachable_inv k Hk) as Hinv.
  pose proof (λ which, tunnel_handle_fails (EvWriteComplete which) k UndefinedBehaviour Hinv) as Hfails.
  destruct Hinv as [Hs Hp Hh Hacc _ _].
  split; [intros which; rewrite Hp; by destruct (paused which k)|]. split; [|split].
  - intros Hup which n Hn. assert (accepted k) as Hacc' by (destruct Hacc as [?|(_ & ? & _)]; congruence).
    unfold accepted in Hacc'. destruct k as [[sc cc q cn] sv cl ca]. simpl in *. subst sc cc.
    destruct which; (rewrite decide_True by done); simpl; rewrite (proj2 (Z.ltb_lt _ _) Hn); simpl;
      (eexists; split; [done|]; split; [done|]; by intros []).
  - intros Hup which Hw. pose proof (Hp which) as Hr. rewrite Hw in Hr.
    destruct k as [[sc cc q cn] sv cl ca]. simpl in *. subst sc cc.
    destruct which; unfold resumes in Hr; simpl in Hr; (rewrite decide_True by done); simpl;
      (eexists; split; [done|]; split; [done|]; split; [done|]; by intros []).
  - intros Hdown which Hw. assert (torn_down k) as Ht.
    { split; [|done]. destruct Hacc as [?|(_ & _ & Hno)]; [done|]. by rewrite Hno in Hw. }
    split; [done|]. by apply Hfails.
Qed.

(** C34. When the callbacks fail.  In a reachable state the only failures are
    these, each undefined behaviour: a message from the web server when no
    request is queued ([front] of an empty queue); the high-water callback of the
    browser's connection, with bytes pending, while there is no connection to
    the web server, that is before it has accepted or after [teardown]; the
    high-water callback of the web server's connection after [teardown]; and the
    callback that should resume a side that was paused when [teardown] ran.
    [teardown] has reset [clientConn_] but left the callbacks installed. *)
Theorem tunnel_failures (k : Link) (e : tunnel_event) (f : fault) :
  rtc tunnel_step Link_start k →
  tunnel_handle e k = Some (Fault f) ↔ f = UndefinedBehaviour ∧ fails k e.
Proof. intros Hk. by apply tunnel_handle_fails, tunnel_reachable_inv. Qed.

(** ** Witnesses *)

Definition tunnel_run (es : list tunnel_event) (k : Link) : Link :=
  foldl (λ k e, match tunnel_handle e k with Some (Ret k') => k' | _ => k end) k es.

Lemma tunnel_run_steps es k : rtc tunnel_step k (tunnel_run es k).
Proof.
  revert k. induction es as [|e es IH]; intros k; [done|]. simpl.
  etrans; [|apply IH]. destruct (tunnel_handle e k) as [[k'|]|] eqn:E; [|done..].
  apply rtc_once. by exists e.
Qed.

Definition sample_events : list tunnel_event :=
  [EvUp; EvPush (str "/a") false; EvData (str "HTTP/1.1 200 OK") []; EvHighWater kServer 2000000].
Definition sample_link : Link := tunnel_run sample_events Link_start.

Lemma tunnel_never_responds_witness :
  cacheQueue_ (tunnel sample_link) = [(str "/a", false)] ∧ c_sent (server_side sample_link) = [].
Proof.
  split; [vm_compute; reflexivity|].
  apply (tunnel_never_responds sample_link sample_link); [apply tunnel_run_steps|done].
Defined.

(** The browser's output drains. *)
Lemma tunnel_back_pressure_witness :
  paused kServer sample_link = true ∧
  ∃ k', tunnel_handle (EvWriteComplete kServer) sample_link = Some (Ret k') ∧
    paused kServer k' = false ∧ resumes kServer k' = None ∧
    ∀ other, other ≠ kServer →
      paused other k' = paused other sample_link ∧ resumes other k' = resumes other sample_link.
Proof.
  assert (paused kServer sample_link = true) as H by (vm_compute; reflexivity).
  split; [done|].
  apply (tunnel_back_pressure sample_link); [apply tunnel_run_steps|vm_compute; reflexivity|done].
Defined.

(** The web server closes while the browser's output is still draining. *)
Lemma tunnel_failures_witness :
  tunnel_handle (EvWriteComplete kServer) (tunnel_run [EvDown] sample_link)
    = Some (Fault UndefinedBehaviour).
Proof.
  apply (tunnel_failures (tunnel_run [EvDown] sample_link) (EvWriteComplete kServer)).
  - etrans; apply tunnel_run_steps.
  - split; [done|]. split; [split|]; vm_compute; reflexivity.
Defined.
