(* ===== verification/RedisCache.v ===== *)
(** * [RedisCache] and [Cache]: the shared cache behind the memory cache

    Models src/Cache/Redis.h and src/cache/cache.h.  hiredis and the Redis
    server are parameters: a state [R] of the server and what [redisConnect],
    [redisCommand] and [freeReplyObject(nullptr)] do.  [Cache] is stated over an
    interface, [ResponseStore], which [Lru] implements, and [MemoryCache] too
    (in [CacheStack]). *)

From S2P Require Import Prelude CString LruCache.
From Stdlib Require Import Lia.

#[local] Open Scope Z_scope.

Definition quote : bytes := [Ascii.ascii_of_nat 34].

Definition DEFAULT_EXPIRED_TIME : Z := 30.

Section redis.
Context {R : Type}.
(** [true]: the context is not null and has no error. *)
Context (redisConnect : R → R * bool).
(** [None]: a null reply; [Some str]: the reply and its [str], which is null
    for a reply that has no string. *)
Context (redisCommand : bytes → R → outcome (R * option (option bytes))).
Context (freeReplyObject_null : outcome unit).
Context (passwd_ : bytes).

(** [return true] whatever the server answered. *)
Definition getAuth (r : R) : outcome (R * bool) :=
  '(r, reply) ← redisCommand (c_str (str "auth " ++ passwd_)) r;
  Ret (r, if reply is Some _ then true else false).

Definition commandWrapper (command : bytes) (r : R) : outcome (R * bool) :=
  '(r, reply) ← redisCommand (c_str command) r;
  match reply with
  | None => _ ← freeReplyObject_null; Ret (r, false)
  | Some _ => Ret (r, true)
  end.

(** [&&]: a command is sent only if the ones before it had a reply. *)
Fixpoint commands (cs : list bytes) (r : R) : outcome (R * bool) :=
  match cs with
  | [] => Ret (r, true)
  | c :: cs' =>
      '(r, ok) ← commandWrapper c r;
      if (ok : bool) then commands cs' r else Ret (r, false)
  end.

Definition atomicUpdate (url response : bytes) (r : R) : outcome (R * bool) :=
  commands [str "multi";
            str "setnx " ++ url ++ str " " ++ quote ++ response ++ quote;
            str "expire " ++ url ++ str " " ++ to_string DEFAULT_EXPIRED_TIME;
            str "exec"] r.

Definition updateRedisCache (url response : bytes) (r : R) : outcome (R * bytes) :=
  let '(r, ok) := redisConnect r in
  if ok then
    '(r, auth) ← getAuth r;
    if (auth : bool) then
      '(r, done) ← atomicUpdate url response r;
      Ret (r, if (done : bool) then str "OK" else str "FAIL")
    else Ret (r, [])
  else Ret (r, []).

(** [std::string(res.begin() + 1, res.end() - 1)] *)
Definition strip (res : bytes) : outcome bytes :=
  match res with
  | [] | [_] => Fault UndefinedBehaviour
  | _ :: rest => Ret (removelast rest)
  end.

Definition readRedisCache (url : bytes) (r : R) : outcome (R * bytes) :=
  let '(r, ok) := redisConnect r in
  if ok then
    '(r, auth) ← getAuth r;
    if (auth : bool) then
      '(r, reply) ← redisCommand (c_str (str "get " ++ url)) r;
      match reply with
      | None => Ret (r, [])
      | Some None => Fault UndefinedBehaviour        (* [std::string(nullptr)] *)
      | Some (Some res) => s ← strip res; Ret (r, s)
      end
    else Ret (r, [])
  else Ret (r, []).
End redis.

(** ** The interface of the memory cache *)

Class ResponseStore (M : Type) := {
  store_ok : M → Prop;
  store_read : Z → bytes → M → outcome (M * bytes);
  store_write : Z → bytes → bytes → M → option (outcome M);
  (* what the cache holds for a URL at a time; [[]] is absence *)
  store_view : Z → bytes → M → bytes;
  store_read_spec now url m : store_ok m →
    ∃ m', store_read now url m = Ret (m', store_view now url m) ∧ store_ok m';
}.

(** What [get] would answer. *)
Definition Lru_view (now : Z) (url : bytes) (lru : Lru) : bytes :=
  if stale now url lru then [] else default [] (find_entry url (entries lru)).

Lemma Lru_read_spec now url lru :
  lru_wf lru → ∃ lru', Lru_get now url lru = Ret (lru', Lru_view now url lru) ∧ lru_wf lru'.
Proof.
  intros Hwf. destruct (Lru_get_spec now url lru Hwf) as (lru' & v & Hg & Hwf' & _ & Hv).
  exists lru'. split; [|done]. rewrite Hg. do 2 f_equal. unfold Lru_view.
  destruct (find_entry url (entries lru)) as [c|].
  - destruct (stale now url lru); by destruct Hv as [-> _].
  - destruct Hv as [-> _]. by destruct (stale now url lru).
Qed.

#[export] Instance Lru_store : ResponseStore Lru := {
  store_ok := lru_wf;
  store_read := Lru_get;
  store_write := Lru_put;
  store_view := Lru_view;
  store_read_spec := Lru_read_spec;
}.

(** ** [Cache] *)

Section cache.
Context {M : Type} `{ResponseStore M} {R : Type}.
Context (redisConnect : R → R * bool).
Context (redisCommand : bytes → R → outcome (R * option (option bytes))).
Context (freeReplyObject_null : outcome unit).

Record Cache := mkCache {
  memoryCache : M;
  redisCache_passwd : bytes;
}.

Definition Cache_readCache (now : Z) (url : bytes) (c : Cache) (r : R)
    : outcome (Cache * R * bytes) :=
  '(m, res) ← store_read now url (memoryCache c);
  let c := mkCache m (redisCache_passwd c) in
  match res with
  | [] =>
      '(r, res) ← readRedisCache redisConnect redisCommand (redisCache_passwd c) url r;
      Ret (c, r, res)
  | _ => Ret (c, r, res)
  end.

Definition Cache_writeCache (now : Z) (url response : bytes) (c : Cache) (r : R)
    : option (outcome (Cache * R)) :=
  put ← store_write now url response (memoryCache c);
  Some (m ← put;
        '(r, _) ← updateRedisCache redisConnect redisCommand freeReplyObject_null
                    (redisCache_passwd c) url response r;
        Ret (mkCache m (redisCache_passwd c), r)).
End cache.
Arguments Cache : clear implicits.

(** ** Facts *)

Lemma strip_quoted s : strip (quote ++ s ++ quote) = Ret s.
Proof.
  destruct s as [|c s]; [done|]. change (Ret (removelast ((c :: s) ++ quote)) = Ret (c :: s)).
  unfold quote. by rewrite removelast_last.
Qed.

Lemma strip_spec res :
  strip res = if (2 <=? length res)%nat then Ret (removelast (tail res)) else Fault UndefinedBehaviour.
Proof. by destruct res as [|c [|d res]]. Qed.

(** ** Properties *)

(** C35. A cache read asks Redis only when memory has nothing, and never copies
    what Redis answers into memory.  From Redis come: nothing, when it cannot
    be reached or gives no reply; the stored response without its quotes; and
    undefined behaviour when the reply carries no string (as for an absent
    key) or fewer than two characters. *)
Theorem Cache_readCache_levels {M R} `{ResponseStore M} (redisConnect : R → R * bool)
    (redisCommand : bytes → R → outcome (R * option (option bytes)))
    (now : Z) (url : bytes) (c : Cache M) (r : R) :
  store_ok (memoryCache c) →
  ∃ m', store_ok m' ∧
    let c' := mkCache m' (redisCache_passwd c) in
    let v := store_view now url (memoryCache c) in
    let run := Cache_readCache redisConnect redisCommand now url c r in
    (v ≠ [] → run = Ret (c', r, v)) ∧
    (v = [] → (redisConnect r).2 = false → run = Ret (c', (redisConnect r).1, [])) ∧
    (v = [] → (redisConnect r).2 = true → ∀ r1 a1 r2 reply,
       redisCommand (c_str (str "auth " ++ redisCache_passwd c)) (redisConnect r).1
         = Ret (r1, Some a1) →
       redisCommand (c_str (str "get " ++ url)) r1 = Ret (r2, reply) →
       (reply = None → run = Ret (c', r2, [])) ∧
       (reply = Some None → run = Fault UndefinedBehaviour) ∧
       (∀ s, reply = Some (Some (quote ++ s ++ quote)) → run = Ret (c', r2, s)) ∧
       (∀ s, reply = Some (Some s) → (length s < 2)%nat → run = Fault UndefinedBehaviour)).
Proof.
  intros Hok. destruct (store_read_spec now url (memoryCache c) Hok) as (m' & Hr & Hok').
  exists m'. split; [done|]. cbv zeta. unfold Cache_readCache. rewrite Hr.
  cbn [mbind outcome_bind].
  destruct (store_view now url (memoryCache c)) as [|x v]; [|by repeat split].
  split; [done|]. unfold readRedisCache. destruct (redisConnect r) as [r' []];
    cbn [fst snd redisCache_passwd];
    (split; [done|]); [|done].
  intros _ _ r1 a1 r2 reply Ha Hg. unfold getAuth. rewrite Ha.
  cbn [mbind outcome_bind]. rewrite Hg.
  split; [by intros ->|]. split; [by intros ->|]. split.
  - intros s ->. cbn [mbind outcome_bind]. by rewrite strip_quoted.
  - intros s -> Hs. cbn [mbind outcome_bind]. rewrite strip_spec.
    by destruct (Nat.leb_spec 2 (length s)); [lia|].
Qed.

(** ** Witnesses *)

(** A Redis that answers every [get] with the same reply. *)
Definition sample_redis (reply : option (option bytes)) (cmd : bytes) (r : unit)
    : outcome (unit * option (option bytes)) :=
  if decide (take 3 cmd = str "get") then Ret (r, reply) else Ret (r, Some (Some (str "OK"))).

Lemma Cache_readCache_levels_witness :
  Cache_readCache (λ r, (r, true)) (sample_redis (Some None)) 5 (str "/a")
    (mkCache (Lru_new 2) (str "pw")) () = Fault UndefinedBehaviour.
Proof.
  assert (store_ok (Lru_new 2)) as Hok by exact (Lru_new_wf 2).
  destruct (Cache_readCache_levels (λ r, (r, true)) (sample_redis (Some None)) 5 (str "/a")
    (mkCache (Lru_new 2) (str "pw")) () Hok) as (m' & _ & _ & _ & Hget).
  apply (Hget ltac:(vm_compute; reflexivity) eq_refl () (Some (str "OK")) () (Some None));
    [vm_compute; reflexivity|vm_compute; reflexivity|done].
Defined.
