(* ===== verification/CacheStack.v ===== *)
(** * The cache stack: [Cache] over [MemoryCache] over [Lru]

    One call of [readCache] or [writeCache] (src/cache/memoryCache.h), run by one
    thread from its lock to its return while the others stand still, and what it
    does to the shared [Lru]; with that, [MemoryCache] implements the
    interface [ResponseStore] that [Cache] (src/cache/cache.h) is stated over.
    Other threads may be anywhere outside the lock, holding references. *)

From S2P Require Import Prelude CString LruCache MemoryCache RedisCache.
From Stdlib Require Import Lia.

#[local] Open Scope Z_scope.

(** ** A call on its own *)

(** The object [lru_cache] points to. *)
Definition current (s : MemoryCache) : option Lru := heap s !! lru_cache s.

(** [k] steps of thread [i]. *)
Fixpoint go_on (k : nat) (now : Z) (clock : nat → Z) (i : nat) (s : MemoryCache)
    : option (outcome MemoryCache) :=
  match k with
  | O => Some (Ret s)
  | S k =>
      o ← mc_next now clock i s;
      match o with
      | Ret s => go_on k now clock i s
      | Fault f => Some (Fault f)
      end
  end.

(** Lock, copy, unlock, [get]: the thread is about to return [v]. *)
Definition MemoryCache_read (clock : nat → Z) (i : nat) (now : Z) (url : bytes) (s : MemoryCache)
    : outcome (MemoryCache * bytes) :=
  s ← deref (readCache i url s);
  s ← default (Fault UndefinedBehaviour) (go_on 3 now clock i s);
  match pcs s !! i with
  | Some (ReadDone _ v) => Ret (goto i McIdle s, v)
  | _ => Fault UndefinedBehaviour
  end.

(** Lock, detach, [put], unlock. *)
Definition MemoryCache_write (clock : nat → Z) (i : nat) (now : Z) (url respond : bytes)
    (s : MemoryCache) : option (outcome MemoryCache) :=
  s ← writeCache i url respond s;
  go_on 3 now clock i s.

(** [Cache]'s constructor: [expire_time] is not passed on. *)
Definition Cache_new (init_capacity expire_time : Z) (passwd : bytes) (nthreads : nat)
    : Cache MemoryCache :=
  mkCache (MemoryCache_new init_capacity nthreads) passwd.

(** Thread [i] may call: nobody holds the lock. *)
Record quiescent (size : Z) (i : nat) (s : MemoryCache) : Prop := {
  q_size : size < INT_MAX;
  q_inv : mc_inv size s;
  q_free : mx s = None;
  q_idle : pcs s !! i = Some McIdle;
}.

(** What a writer puts into: the object itself, or a copy nobody else sees. *)
Definition detached (clock : nat → Z) (lru : Lru) (s : MemoryCache) : MemoryCache * Lru :=
  if unique s then (s, lru) else (reset_ptr (Lru_copy clock lru) s, Lru_copy clock lru).

(** ** One thread moving *)

Section moves.
Context (i : nat) (s : MemoryCache) (Hi : pcs s !! i = Some McIdle).

Lemma goto_pc p x : pcs x = pcs s → pcs (goto i p x) !! i = Some p.
Proof. intros E. simpl. rewrite E. apply list_lookup_insert_eq. by eapply lookup_lt_Some. Qed.

Lemma goto_goto p q x : goto i q (goto i p x) = goto i q x.
Proof. unfold goto. simpl. by rewrite list_insert_insert_eq. Qed.

(** Back where it was. *)
Lemma goto_back x : mx x = None → pcs x = pcs s → goto i McIdle (set_mx None x) = x.
Proof.
  destruct x as [h l m ps]. simpl. intros -> ->. unfold goto. simpl. by rewrite list_insert_id.
Qed.

(** A thread without references counts like an idle one. *)
Lemma refs_goto p : pc_ref p = [] → <[i := p]> (pcs s) ≫= pc_ref = pcs s ≫= pc_ref.
Proof.
  intros Hp. rewrite insert_take_drop by by eapply lookup_lt_Some.
  rewrite <-(take_drop_middle (pcs s) i McIdle Hi) at 3. rewrite !bind_app. simpl. by rewrite Hp.
Qed.

Lemma unique_goto p m : pc_ref p = [] → unique (goto i p (set_mx m s)) = unique s.
Proof. intros Hp. unfold unique, use_count. simpl. by rewrite refs_goto. Qed.

Lemma mc_next_at now clock p x :
  pcs x = pcs s →
  mc_next now clock i (goto i p x) =
  match p with
  | McIdle => None
  | ReadLocked url => Some (Ret (read_copy i url (goto i p x)))
  | ReadCopied l url => Some (read_unlock i l url (goto i p x))
  | ReadGetting l url => Some (read_get now i l url (goto i p x))
  | ReadDone _ _ => Some (Ret (goto i McIdle (goto i p x)))
  | WriteLocked url r => Some (write_detach clock i url r (goto i p x))
  | WriteReady url r => write_put now i url r (goto i p x)
  | WriteDone => Some (Ret (goto i McIdle (set_mx None (goto i p x))))
  end.
Proof. intros E. unfold mc_next. by rewrite (goto_pc p x E). Qed.
End moves.

(** ** What a call does *)

Section calls.
Context (size now : Z) (clock : nat → Z) (i : nat) (s : MemoryCache) (lru : Lru).
Context (Hq : quiescent size i s) (Hl : current s = Some lru).

Lemma read_unlock_ok url :
  read_unlock i (lru_cache s) url (goto i (ReadCopied (lru_cache s) url) (set_mx (Some i) s)) =
    Ret (goto i (ReadGetting (lru_cache s) url) (set_mx None s)).
Proof.
  unfold read_unlock.
  destruct (unique _) eqn:Hu; [apply unique_spec in Hu; destruct Hu|].
  - apply (pc_ref_elem _ i (ReadCopied (lru_cache s) url)); [|by left].
    by apply (goto_pc i s (q_idle _ _ _ Hq)).
  - simpl. f_equal. apply (goto_goto i _ _ (set_mx None s)).
Qed.

Lemma MemoryCache_read_eq url lru' v :
  Lru_get now url lru = Ret (lru', v) →
  MemoryCache_read clock i now url s = Ret (set_object (lru_cache s) lru' s, v).
Proof.
  intros Hget. pose proof (q_idle _ _ _ Hq) as Hi. unfold MemoryCache_read, readCache, mc_call.
  rewrite Hi, (q_free _ _ _ Hq). cbn [deref mbind outcome_bind go_on].
  rewrite (mc_next_at i s Hi) by done. cbn [mbind option_bind].
  unfold read_copy at 1. rewrite goto_goto. change (lru_cache (goto _ _ _)) with (lru_cache s).
  rewrite (mc_next_at i s Hi) by done. cbn [mbind option_bind]. rewrite read_unlock_ok.
  rewrite (mc_next_at i s Hi) by done. cbn [mbind option_bind]. unfold read_get.
  change (heap (goto _ _ _)) with (heap s). unfold current in Hl. rewrite Hl.
  cbn [deref mbind outcome_bind]. rewrite Hget. cbn [mbind outcome_bind default from_option id].
  change (goto i (ReadDone _ _) _) with
    (goto i (ReadDone (lru_cache s) v) (goto i (ReadGetting (lru_cache s) url)
       (set_mx None (set_object (lru_cache s) lru' s)))).
  rewrite goto_goto, (goto_pc i s Hi) by done. rewrite goto_goto, (goto_back i s Hi); [done| |done].
  apply Hq.
Qed.

(** Past the [if]: nobody else refers to the object. *)
Lemma write_detach_ok url r :
  write_detach clock i url r (goto i (WriteLocked url r) (set_mx (Some i) s)) =
    Ret (goto i (WriteReady url r) (set_mx (Some i) (detached clock lru s).1)) ∧
  unique (goto i (WriteReady url r) (set_mx (Some i) (detached clock lru s).1)) = true ∧
  current (detached clock lru s).1 = Some (detached clock lru s).2 ∧
  pcs (detached clock lru s).1 = pcs s ∧ mx (detached clock lru s).1 = None.
Proof.
  pose proof (q_idle _ _ _ Hq) as Hi. unfold write_detach, detached. rewrite (unique_goto i s Hi) by done.
  destruct (unique s) eqn:Hu.
  - rewrite goto_goto. split; [done|]. split; [by rewrite (unique_goto i s Hi)|].
    split; [done|]. split; [done|apply Hq].
  - change (heap (goto _ _ _)) with (heap s). change (lru_cache (goto _ _ _)) with (lru_cache s).
    unfold current in Hl. rewrite Hl. simpl. split; [|split; [|split; [|split; [done|apply Hq]]]].
    + f_equal. apply (goto_goto i _ _ (set_mx (Some i) (reset_ptr (Lru_copy clock lru) s))).
    + apply unique_spec. simpl. rewrite (refs_goto i s Hi) by done.
      intros Hin%(mc_refs _ _ (q_inv _ _ _ Hq)). by apply is_fresh in Hin.
    + unfold current. simpl. apply lookup_insert_eq.
Qed.

Lemma MemoryCache_write_eq url r :
  MemoryCache_write clock i now url r s =
    (put ← Lru_put now url r (detached clock lru s).2;
     Some (lru' ← put;
           Ret (set_object (lru_cache (detached clock lru s).1) lru' (detached clock lru s).1))).
Proof.
  pose proof (q_idle _ _ _ Hq) as Hi. unfold MemoryCache_write, writeCache, mc_call.
  rewrite Hi, (q_free _ _ _ Hq). cbn [mbind option_bind go_on].
  rewrite (mc_next_at i s Hi) by done. cbn [mbind option_bind].
  destruct (write_detach_ok url r) as (-> & Hu & Hc & Hp & Hm).
  destruct (detached clock lru s) as [s1 lru1]. simpl in *.
  rewrite (mc_next_at i s Hi) by done. cbn [mbind option_bind]. unfold write_put. rewrite Hu.
  change (heap (goto _ _ _)) with (heap s1). change (lru_cache (goto _ _ _)) with (lru_cache s1).
  unfold current in Hc. rewrite Hc. cbn [cassert].
  destruct (Lru_put now url r lru1) as [[lru'|f]|]; [|done|done]. cbn [mbind option_bind outcome_bind].
  change (goto i WriteDone _) with (goto i WriteDone (goto i (WriteReady url r)
    (set_mx (Some i) (set_object (lru_cache s1) lru' s1)))).
  rewrite goto_goto, (mc_next_at i s Hi) by done. cbn [mbind option_bind].
  change (set_mx None (goto i WriteDone ?x)) with (goto i WriteDone (set_mx None x)).
  rewrite goto_goto. change (set_mx None (set_mx _ ?x)) with (set_mx None x).
  do 2 f_equal. by apply (goto_back i s Hi).
Qed.
End calls.

(** ** It keeps the invariant *)

Lemma set_object_inv size s lru lru' :
  mc_inv size s → current s = Some lru → lru_bounded size lru' →
  mc_inv size (set_object (lru_cache s) lru' s).
Proof.
  intros [Hlock Hcur Hrefs Hobj Hpcs] Hl Hb.
  assert (dom (<[lru_cache s := lru']> (heap s)) = dom (heap s)) as Hdom
    by (rewrite dom_insert_L; set_solver).
  split; simpl; [done|by rewrite Hdom|by rewrite Hdom| |done].
  by apply set_object_bounded.
Qed.

Lemma quiescent_object size i s lru lru' :
  quiescent size i s → current s = Some lru → lru_bounded size lru' →
  quiescent size i (set_object (lru_cache s) lru' s).
Proof.
  intros [Hsize Hinv Hm Hi] Hl Hb. split; [done| |done|done]. by eapply set_object_inv.
Qed.

(** With the lock free, the copy a writer makes is like any other object. *)
Lemma quiescent_reset size i s lru' :
  quiescent size i s → lru_bounded size lru' → quiescent size i (reset_ptr lru' s).
Proof.
  intros [Hsize [Hlock Hcur Hrefs Hobj Hpcs] Hm Hi] Hb. split; [done| |done|done].
  split; simpl; [done|rewrite dom_insert; set_solver| | |].
  - intros l Hr. rewrite dom_insert. apply elem_of_union_r. by apply Hrefs.
  - by apply set_object_bounded.
  - intros j p Hj. apply pc_ok_outside. destruct (in_lock p) eqn:Hp; [|done].
    specialize (Hlock j p Hj Hp). congruence.
Qed.

Lemma quiescent_current size i s :
  quiescent size i s → ∃ lru, current s = Some lru ∧ lru_bounded size lru.
Proof. intros Hq. apply inv_object; [apply Hq|]. apply (mc_cur size), Hq. Qed.

Lemma detached_quiescent size clock i s lru :
  quiescent size i s → current s = Some lru → lru_bounded size lru →
  quiescent size i (detached clock lru s).1 ∧ lru_bounded size (detached clock lru s).2 ∧
  entries (detached clock lru s).2 = entries lru.
Proof.
  intros Hq Hl Hb. unfold detached. destruct (unique s); [done|].
  pose proof (Lru_copy_bounded size clock lru Hb) as Hc. simpl.
  split; [by apply quiescent_reset|]. split; [done|apply entries_copy].
Qed.

Lemma MemoryCache_read_ok size clock i now url s :
  quiescent size i s →
  ∃ s', MemoryCache_read clock i now url s =
      Ret (s', default [] (Lru_view now url <$> current s)) ∧ quiescent size i s'.
Proof.
  intros Hq. destruct (quiescent_current size i s Hq) as (lru & Hl & Hb).
  destruct (Lru_read_spec now url lru) as (lru' & Hget & _); [apply Hb|].
  eexists. split; [|eapply quiescent_object; [done..|by eapply Lru_get_bounded]].
  rewrite Hl. by apply (MemoryCache_read_eq size _ _ _ _ lru).
Qed.

(** ** The implementation of the interface *)

#[local] Instance MemoryCache_store (size : Z) (i : nat) (clock : nat → Z)
    : ResponseStore MemoryCache := {
  store_ok := quiescent size i;
  store_read := MemoryCache_read clock i;
  store_write := MemoryCache_write clock i;
  store_view := λ now url s, default [] (Lru_view now url <$> current s);
  store_read_spec := λ now url s, MemoryCache_read_ok size clock i now url s;
}.

Lemma reachable_quiescent size nthreads i s :
  0 ≤ size < INT_MAX → rtc mc_step (MemoryCache_new size nthreads) s → mx s = None →
  pcs s !! i = Some McIdle → quiescent size i s.
Proof. intros Hs Hr Hm Hi. split; [lia|by eapply mc_reachable_inv|done|done]. Qed.

(** ** Properties *)

(** C6. A call that runs alone is a call of [Lru].  In a reachable state with the
    lock free, whatever other threads hold: [readCache] does to the very object
    [lru_cache] points to, which other readers may hold too, exactly what [get]
    does -- it moves the entry, or erases it when it has expired -- and returns
    its answer; [writeCache] does what [put] does, to that object when nobody else
    refers to it and otherwise to a copy with the same entries, so that a write,
    unlike a read, changes no object a reader holds. *)
Theorem memory_cache_implements (size now : Z) (clock : nat → Z) (nthreads i : nat)
    (s : MemoryCache) (url response : bytes) :
  0 ≤ size < INT_MAX → rtc mc_step (MemoryCache_new size nthreads) s →
  mx s = None → pcs s !! i = Some McIdle →
  ∃ lru, current s = Some lru ∧
    (∃ lru' v, Lru_get now url lru = Ret (lru', v) ∧
       MemoryCache_read clock i now url s = Ret (set_object (lru_cache s) lru' s, v)) ∧
    ∃ s1 lru1, detached clock lru s = (s1, lru1) ∧ entries lru1 = entries lru ∧
      MemoryCache_write clock i now url response s =
        (put ← Lru_put now url response lru1;
         Some (lru' ← put; Ret (set_object (lru_cache s1) lru' s1))) ∧
      ∀ l lru', l ∈ pcs s ≫= pc_ref →
        heap (set_object (lru_cache s1) lru' s1) !! l = heap s !! l.
Proof.
  intros Hsize Hreach Hm Hi. pose proof (reachable_quiescent _ _ _ _ Hsize Hreach Hm Hi) as Hq.
  destruct (quiescent_current size i s Hq) as (lru & Hl & Hb). exists lru. split; [done|]. split.
  - destruct (Lru_read_spec now url lru) as (lru' & Hget & _); [apply Hb|].
    eexists lru', _. split; [exact Hget|]. by apply (MemoryCache_read_eq size _ _ _ _ lru).
  - pose proof (MemoryCache_write_eq size now clock i s lru Hq Hl url response) as Hw.
    destruct (detached_quiescent size clock i s lru Hq Hl Hb) as (_ & _ & He).
    destruct (detached clock lru s) as [s1 lru1] eqn:Hd. simpl in *.
    exists s1, lru1. split; [done|]. split; [done|]. split; [done|].
    intros l lru' Href. unfold detached in Hd. simpl. destruct (unique s) eqn:Hu; simplify_eq.
    + rewrite lookup_insert_ne; [done|]. intros <-. by apply unique_spec in Hu.
    + simpl. pose proof (mc_refs _ _ (q_inv _ _ _ Hq) l Href) as Hdom.
      rewrite !lookup_insert_ne; [done|..]; intros E; apply (is_fresh (dom (heap s))); by rewrite E.
Qed.

(** C36. What [Cache] has written it reads back without asking Redis: after a
    [writeCache] that returned, whatever Redis answered to it, a [readCache] of
    the URL returns the response and leaves the connection to Redis alone,
    however many readers of other URLs are under way -- at any time in the next
    [INT_MAX] seconds, whatever [expire_time] the cache was constructed with. *)
Theorem cache_stack_roundtrip {R} (redisConnect : R → R * bool)
    (redisCommand : bytes → R → outcome (R * option (option bytes)))
    (freeReplyObject_null : outcome unit) (capacity expire_time now now' : Z) (clock : nat → Z)
    (passwd url response : bytes) (nthreads i : nat) (c c1 : Cache MemoryCache) (r r1 : R) :
  let store := MemoryCache_store capacity i clock in
  0 ≤ capacity < INT_MAX →
  rtc mc_step (memoryCache (Cache_new capacity expire_time passwd nthreads)) (memoryCache c) →
  mx (memoryCache c) = None → pcs (memoryCache c) !! i = Some McIdle →
  response ≠ [] → 0 ≤ now' - now ≤ INT_MAX →
  Cache_writeCache redisConnect redisCommand freeReplyObject_null now url response c r
    = Some (Ret (c1, r1)) →
  ∃ c2, Cache_readCache redisConnect redisCommand now' url c1 r1 = Ret (c2, r1, response).
Proof.
  intros store Hcap Hreach Hm Hi Hne Htime Hw.
  pose proof (reachable_quiescent _ _ _ _ Hcap Hreach Hm Hi) as Hq.
  destruct (quiescent_current _ _ _ Hq) as (lru & Hl & Hb).
  pose proof (mc_reachable_expiredTime _ _ _ _ _ Hreach Hl) as Hx.
  unfold Cache_writeCache in Hw.
  change (store_write now url) with (MemoryCache_write clock i now url) in Hw.
  rewrite (MemoryCache_write_eq capacity _ _ _ _ lru Hq Hl) in Hw.
  destruct (detached_quiescent capacity clock i _ lru Hq Hl Hb) as (Hq1 & Hb1 & _).
  pose proof (write_detach_ok capacity clock i _ lru Hq Hl [] []) as (_ & _ & Hc1 & _).
  assert (expiredTime_ (detached clock lru (memoryCache c)).2 = INT_MAX) as Hx1
    by (unfold detached; by destruct (unique _)).
  destruct (detached clock lru (memoryCache c)) as [s1 lru1]. simpl in *.
  destruct (Lru_put now url response lru1) as [[lru'|f]|] eqn:Hput; [|done|done]. simpl in Hw.
  injection Hw as Hw. apply bind_Ret_inv in Hw as ([r2 ok] & _ & Hw). injection Hw as <- <-.
  pose proof Hb1 as (Hwf & _ & Hlen).
  destruct (put_then_get now now' url response lru1 lru') as (lru'' & Hget);
    [done|lia|done|by rewrite Hx1|unfold INT_MAX in *; lia|].
  unfold Cache_readCache. change (store_read now' url) with (MemoryCache_read clock i now' url).
  cbn [memoryCache].
  rewrite (MemoryCache_read_eq capacity now' clock i (set_object (lru_cache s1) lru' s1) lru' )
    with (lru' := lru'') (v := response); [|eapply quiescent_object; [done..|]| |done].
  - destruct response; [done|]. simpl. by eexists.
  - eapply Lru_put_bounded; [|done..]. lia.
  - apply lookup_insert_eq.
Qed.

(** ** Witnesses *)

(** Thread 1 is inside [get]; thread 0 may call. *)
Definition reader_moves : list (nat * option mc_pc) :=
  [(1%nat, Some (ReadLocked (str "/a"))); (1%nat, None); (1%nat, None)].
Definition reader_state : MemoryCache := mc_after reader_moves (MemoryCache_new 2 2).

Lemma reader_state_reachable : rtc mc_step (MemoryCache_new 2 2) reader_state.
Proof. apply mc_after_reach. by repeat constructor. Qed.

(** The writer makes a copy; the reader's object stays empty. *)
Lemma memory_cache_implements_witness :
  ∃ s', MemoryCache_write (λ _, 7) 0 7 (str "/a") (str "A") reader_state = Some (Ret s') ∧
    heap s' !! 0%nat = heap reader_state !! 0%nat.
Proof.
  destruct (memory_cache_implements 2 7 (λ _, 7) 2 0 reader_state (str "/a") (str "A"))
    as (lru & Hl & _ & s1 & lru1 & Hd & _ & Hw & Hheap);
    [unfold INT_MAX; lia|exact reader_state_reachable|vm_compute; reflexivity
    |vm_compute; reflexivity|].
  assert (current reader_state = Some (Lru_new 2)) as E by (vm_compute; reflexivity).
  rewrite E in Hl. injection Hl as <-.
  assert ((detached (λ _, 7) (Lru_new 2) reader_state).2 = Lru_copy (λ _, 7) (Lru_new 2)) as E1
    by (vm_compute; reflexivity).
  rewrite Hd in E1. simpl in E1. subst lru1.
  destruct (Lru_put 7 (str "/a") (str "A") (Lru_copy (λ _, 7) (Lru_new 2))) as [[lru'|]|] eqn:Hput;
    [|vm_compute in Hput; discriminate Hput..].
  exists (set_object (lru_cache s1) lru' s1). split; [exact Hw|].
  apply (Hheap 0%nat lru'). apply (bool_decide_unpack _). vm_compute. exact I.
Defined.

Lemma cache_stack_roundtrip_witness :
  ∃ c1 r1 c2,
    Cache_readCache (λ r, (r, true)) (sample_redis None)
      (H := MemoryCache_store 2 0 (λ _, 7)) 1000000 (str "/a") c1 r1 = Ret (c2, r1, str "A").
Proof.
  destruct (Cache_writeCache (λ r, (r, true)) (sample_redis None) (Ret ())
    (H := MemoryCache_store 2 0 (λ _, 7)) 7 (str "/a") (str "A")
    (mkCache reader_state (str "pw")) ()) as [[[c1 r1]|f]|] eqn:Hw;
    [|vm_compute in Hw; discriminate Hw..].
  exists c1, r1.
  apply (cache_stack_roundtrip (λ r, (r, true)) (sample_redis None) (Ret ()) 2 20 7 1000000 (λ _, 7)
    (str "pw") (str "/a") (str "A") 2 0 (mkCache reader_state (str "pw")) c1 () r1);
    [unfold INT_MAX; lia|exact reader_state_reachable|vm_compute; reflexivity
    |vm_compute; reflexivity|discriminate|unfold INT_MAX; lia|exact Hw].
Defined.
