(* ===== verification/ProxyServer.v ===== *)
(** * [ProxyServer]: requests from the browser to the web server

    Models src/ProxyServer/ProxyServer.{h,cpp}.  [solveOnMessage] runs on a pool
    thread with a copy [buff] of the connection's input buffer, which the I/O
    thread goes on filling; it is modelled for one connection, as a loop whose
    iterations are numbered: [env t] lists what other threads did to the
    connection just before iteration [t].  The cache is any [cache_read], and
    [Buffer::retrieve] belongs to muduo: it is a parameter, known to drop the
    bytes it is given when there are that many. *)

From S2P Require Import Prelude HttpContext TaskQueue ProcLock EventLoops TcpServer Tunnel.
From Stdlib Require Import Lia.

#[local] Open Scope Z_scope.

(** ** The server *)

(** The job [onServerMessage] queues: connection and copied bytes. *)
Record Job := mkJob { job_conn : bytes; job_buff : bytes }.
Definition no_job : Job := mkJob [] [].     (* the empty [std::function] *)

(** What the callbacks of the server reach: the lock, the producers allocated
    so far, and what was written to the event descriptors. *)
Record World := mkWorld {
  w_shm : Z;
  w_owner : bool;
  w_producers : list Producer;
  w_events : list (Z * Z);
}.

(** The parameter [producer] is assigned, not what it was copied from. *)
Definition threadInitCallback : @ThreadInitWithProducerCallback World := λ producer loop w,
  mkWorld (w_shm w) (w_owner w) (w_producers w ++ [Producer_new]) (w_events w).

Record ProxyServer := mkProxyServer {
  isStart : bool;
  server : TcpServer World;
  threadpool : @MyThreadPool Job;
}.

Definition ProxyServer_new (loop : Loop) (ipPort : bytes) (idleFd indeterminate : Z)
    : outcome ProxyServer :=
  sv ← TcpServer_new loop ipPort (str "proxy") idleFd indeterminate;
  Ret (mkProxyServer false sv MyThreadPool_new).

Definition ProxyServer_setHandler (cb : World → outcome World) (ps : ProxyServer) : ProxyServer :=
  mkProxyServer (isStart ps) (setSchedulCallback cb (server ps)) (threadpool ps).

Definition setIOThreadNum (num : Z) (ps : ProxyServer) : outcome ProxyServer :=
  sv ← setThreadNum num (server ps);
  Ret (mkProxyServer (isStart ps) sv (threadpool ps)).

Definition enableListen (mem : nat → Loop * ProducerPtr) (now : Z) (ps : ProxyServer) (w : World)
    : outcome (ProxyServer * World) :=
  if isStart ps
  then Ret (mkProxyServer true (acceptorSchedulingHandler now (server ps)) (threadpool ps), w)
  else
    let sv := setThreadInitCallback threadInitCallback (server ps) in
    let sv := setMessageCallback "onServerMessage" sv in
    let sv := setConnectionCallback "onServerConnection" sv in
    '(sv, w) ← TcpServer_start mem now sv w;
    Ret (mkProxyServer true sv (threadpool ps), w).

Definition ProxyServer_start (mem : nat → Loop * ProducerPtr) (now : Z) (ps : ProxyServer)
    (w : World) : outcome (ProxyServer * World) :=
  let ps := mkProxyServer (isStart ps) (server ps) (MyThreadPool_start (threadpool ps)) in
  let '(shm, owner, locked) := tryLock (w_shm w) (w_owner w) in
  let w := mkWorld shm owner (w_producers w) (w_events w) in
  if (locked : bool) then enableListen mem now ps w else Ret (ps, w).

(** [objects]: the [Producer]s that exist, by address.  The result of
    [producer->write] is ignored. *)
Definition onServerMessage (objects : gmap ProducerPtr Producer) (conn : Conn) (buf : bytes)
    (ps : ProxyServer) : outcome (gmap ProducerPtr Producer * ProxyServer) :=
  let producer := pool_getProducer (threadPool_ (server ps)) (conn_loop conn) in
  if producer =? 0 then Ret (objects, ps)
  else
    p ← deref (objects !! producer);
    '(q, p, _) ← Producer_write (circleArray (threadpool ps)) p (mkJob (conn_name conn) buf);
    Ret (<[producer := p]> objects,
         mkProxyServer (isStart ps) (server ps)
           (mkMyThreadPool (running (threadpool ps)) q (threads (threadpool ps)))).

(** ** One connection *)

(** [s_tunnel]: [tunnels] has an entry for the connection; it is the tunnel of
    [s_link]. *)
Record Session := mkSession {
  s_connected : bool;
  s_tunnel : bool;
  s_link : Link;
}.

Definition s_conn (s : Session) : TcpConn := server_side (s_link s).
Definition set_conn (c : TcpConn) (s : Session) : Session :=
  mkSession (s_connected s) (s_tunnel s) (set_server c (s_link s)).

(** [tunnels[name]->disconnect(); tunnels.erase(name);] *)
Definition drop_tunnel (s : Session) : Session :=
  if s_tunnel s
  then mkSession (s_connected s) false
         (set_tunnel (Tunnel_disconnect (tunnel (s_link s))) (s_link s))
  else s.

(** [isUp] is [conn->connected()]; the other case of the [if] is never taken. *)
Definition onServerConnection (isUp : bool) (s : Session) : Session :=
  if isUp then mkSession true (s_tunnel s) (set_server (setReading true (s_conn s)) (s_link s))
  else drop_tunnel (mkSession false (s_tunnel s) (s_link s)).

(** [Tunnel(...)], [setup], [connect], and the entry in [tunnels]. *)
Definition create_tunnel (s : Session) : Session :=
  let k := Tunnel_setup (mkLink Tunnel_new (s_conn s) TcpConn_new (cached (s_link s))) in
  mkSession (s_connected s) true (set_tunnel (Tunnel_connect (tunnel k)) k).

(** What other threads do to it: bytes from the browser, the browser closing,
    and the callbacks of the tunnel.  What is not enabled does not happen. *)
Inductive session_event :=
  | SeData (b : bytes)
  | SeDown
  | SeTunnel (e : tunnel_event).


Definition session_handle (e : session_event) (s : Session) : outcome Session :=
  match e with
  | SeData b =>
      if s_connected s && c_reading (s_conn s)
      then Ret (set_conn (set_input (c_input (s_conn s) ++ b) (s_conn s)) s) else Ret s
  | SeDown => Ret (if s_connected s then onServerConnection false s else s)
  | SeTunnel e =>
      match tunnel_handle e (s_link s) with
      | Some o => k ← o; Ret (mkSession (s_connected s) (s_tunnel s) k)
      | None => Ret s
      end
  end.

Fixpoint session_events (es : list session_event) (s : Session) : outcome Session :=
  match es with
  | [] => Ret s
  | e :: es => s ← session_handle e s; session_events es s
  end.

(** [vec.erase(begin, begin + n)], and the range [begin, begin + n] itself. *)
Definition in_vector (n : Z) (b : bytes) : outcome unit :=
  if (0 <=? n) && (n <=? Z.of_nat (length b)) then Ret () else Fault UndefinedBehaviour.
Definition front (n : Z) (b : bytes) : bytes := take (Z.to_nat n) b.
Definition erase_front (n : Z) (b : bytes) : outcome bytes :=
  _ ← in_vector n b; Ret (drop (Z.to_nat n) b).

Section solve.
Context {CS : Type} (cache_read : nat → bytes → CS → outcome (CS * bytes)).
Context (Buffer_retrieve : Z → bytes → outcome bytes).
Context (env : nat → list session_event).

Record solve_state := mkSolve {
  isCheck : bool;
  context : HttpContext;
  info : bool * Z;
  buff : bytes;
  session : Session;
  cache_st : CS;
  iteration : nat;
}.

(** The loop condition: the context and [info] it leaves, and its value.
    [parseRequest] always returns, so the default is never used. *)
Definition solve_cond (st : solve_state) : outcome (HttpContext * (bool * Z) * bool) :=
  if isCheck st then Ret (context st, info st, true)
  else if s_connected (session st) then
    '(c, i) ← default (Fault UndefinedBehaviour) (parseRequest (context st) (buff st));
    Ret (c, i, i.1)
  else Ret (context st, info st, false).

(** The answer from the cache, when the method is [GetMethod]. *)
Definition cache_lookup (st : solve_state) : outcome (CS * bytes) :=
  if decide (getRequestMethod (context st) = GetMethod)
  then cache_read (iteration st) (getRequestUrl (context st)) (cache_st st)
  else Ret (cache_st st, []).

Definition answer_from_cache (st : solve_state) (content : bytes) : outcome solve_state :=
  let s := session st in
  let n := (info st).2 in
  let conn := send (createResponse content) (s_conn s) in
  rest ← Buffer_retrieve n (c_input conn);
  b ← erase_front n (buff st);
  Ret (mkSolve false (reset (context st)) (info st) b (set_conn (set_input rest conn) s)
         (cache_st st) (iteration st)).

(** [pushCache], [clientConn->send], [buf->retrieve] and the assertion that the
    whole input buffer was this request. *)
Definition forward (st : solve_state) : outcome solve_state :=
  let s := session st in
  let k := s_link s in
  let n := (info st).2 in
  _ ← non_null (s_tunnel s);
  let t := pushCache (getRequestUrl (context st)) (negb (hasCookie (context st))) (tunnel k) in
  _ ← in_vector n (buff st);
  let http := front n (buff st) in
  let http_ := c_input (s_conn s) in
  rest ← Buffer_retrieve n http_;
  let k := mkLink t (set_input rest (s_conn s)) (send http (client_side k)) (cached k) in
  b ← erase_front n (buff st);
  _ ← cassert (bool_decide (http_ = http));
  Ret (mkSolve false (reset (context st)) (info st) b
         (mkSession (s_connected s) (s_tunnel s) k) (cache_st st) (iteration st)).

Definition solve_branch (st : solve_state) : outcome solve_state :=
  let empty := negb (c_context (s_conn (session st))) in
  if negb (isCheck st) && empty then
    Ret (mkSolve true (context st) (info st) (buff st) (create_tunnel (session st))
           (cache_st st) (iteration st))
  else if negb empty then forward st
  else Ret st.

Definition next_iteration (st : solve_state) : solve_state :=
  mkSolve (isCheck st) (context st) (info st) (buff st) (session st) (cache_st st)
    (S (iteration st)).

(** One evaluation of the condition and, if it holds, of the body. *)
Definition solve_step (st : solve_state) : outcome (solve_state + solve_state) :=
  s ← session_events (env (iteration st)) (session st);
  let st := mkSolve (isCheck st) (context st) (info st) (buff st) s (cache_st st)
              (iteration st) in
  '(c, i, go) ← solve_cond st;
  let st := mkSolve (isCheck st) c i (buff st) (session st) (cache_st st) (iteration st) in
  if (go : bool) then
    '(cs, content) ← cache_lookup st;
    let st := mkSolve (isCheck st) c i (buff st) (session st) cs (iteration st) in
    st' ← (match content with [] => solve_branch st | _ => answer_from_cache st content end);
    Ret (inl (next_iteration st'))
  else Ret (inr st).

(** After the loop: close a connection with more than 10 MB unread. *)
Definition solve_end (st : solve_state) : solve_state :=
  let s := session st in
  if 1024 * 1024 * 10 <? Z.of_nat (length (c_input (s_conn s))) then
    let s := drop_tunnel s in
    mkSolve (isCheck st) (context st) (info st) (buff st) (set_conn (shutdown (s_conn s)) s)
      (cache_st st) (iteration st)
  else st.

Definition solve_start (b : bytes) (s : Session) (cs : CS) : solve_state :=
  mkSolve false HttpContext_new (false, 0) b s cs 0.

Definition solveOnMessage (fuel : nat) (b : bytes) (s : Session) (cs : CS)
    : option (outcome solve_state) :=
  fmap (M := outcome) solve_end <$> run_loop solve_step fuel (solve_start b s cs).
End solve.
Arguments solve_state : clear implicits.

(** ** One iteration *)

Section solve_facts.
Context {CS : Type} (cache_read : nat → bytes → CS → outcome (CS * bytes)).
Context (Buffer_retrieve : Z → bytes → outcome bytes).
Context (retrieve_spec : ∀ n b, 0 ≤ n ≤ Z.of_nat (length b) →
  Buffer_retrieve n b = Ret (drop (Z.to_nat n) b)).
Implicit Types (st : solve_state CS) (s : Session) (env : nat → list session_event).

Abbreviation step env := (solve_step cache_read Buffer_retrieve env).

(** The connection to the web server is up. *)
Definition session_up (s : Session) : Prop :=
  s_connected s = true ∧ s_tunnel s = true ∧ c_context (s_conn s) = true ∧
  clientConn_ (tunnel (s_link s)) = true.

(** What forwarding one request leaves. *)
Definition forwarded (url request rest : bytes) (s : Session) : Session :=
  mkSession (s_connected s) (s_tunnel s)
    (mkLink (pushCache url false (tunnel (s_link s))) (set_input rest (s_conn s))
       (send request (client_side (s_link s))) (cached (s_link s))).

Lemma parse_new_context b c i :
  parseRequest HttpContext_new b = Some (Ret (c, i)) →
  hasCookie c = true.
Proof.
  destruct i as [ok n]. intros (s' & Hrun & <- & _)%parseRequest_fuel_Ret.
  by apply parse_keeps_context in Hrun as [_ ?].
Qed.

Lemma in_vector_true n b : 0 ≤ n ≤ Z.of_nat (length b) → in_vector n b = Ret ().
Proof.
  intros [H1 H2]. unfold in_vector.
  by rewrite (proj2 (Z.leb_le _ _) H1), (proj2 (Z.leb_le _ _) H2).
Qed.

(** Forwarding: the copy holds a whole request, and so does the live buffer. *)
Lemma forward_spec st n :
  s_tunnel (session st) = true → (info st).2 = n →
  hasCookie (context st) = true →
  0 ≤ n ≤ Z.of_nat (length (buff st)) →
  0 ≤ n ≤ Z.of_nat (length (c_input (s_conn (session st)))) →
  forward Buffer_retrieve st =
    if decide (c_input (s_conn (session st)) = front n (buff st))
    then Ret (mkSolve false (reset (context st)) (info st) (drop (Z.to_nat n) (buff st))
           (forwarded (getRequestUrl (context st)) (front n (buff st))
              (drop (Z.to_nat n) (c_input (s_conn (session st)))) (session st))
           (cache_st st) (iteration st))
    else Fault AssertionFailed.
Proof.
  intros Ht Hn Hck Hb Hin. unfold forward, erase_front. rewrite Ht, Hn. simpl.
  rewrite in_vector_true by done. simpl. rewrite retrieve_spec by done. simpl.
  unfold forwarded. rewrite Hck, ?Ht. by case_decide; case_bool_decide.
Qed.

(** An iteration on an established connection, with a complete request that
    the cache is not asked for. *)
Lemma solve_step_established env b s cs t c n :
  env t = [] → session_up s → parseRequest HttpContext_new b = Some (Ret (c, (true, n))) →
  Z.of_nat (length b) ≤ INT_MAX → getRequestMethod c ≠ GetMethod →
  b `prefix_of` c_input (s_conn s) →
  step env (mkSolve false HttpContext_new (false, 0) b s cs t) =
    if decide (c_input (s_conn s) = front n b)
    then Ret (inl (mkSolve false (reset c) (true, n) (drop (Z.to_nat n) b)
           (forwarded (getRequestUrl c) (front n b) [] s) cs (S t)))
    else Fault AssertionFailed.
Proof.
  intros Henv Hest Hp Hlen Hm [more Hlive]. pose proof (parse_new_context b c _ Hp) as Hck.
  pose proof (parse_in_bounds _ _ _ _ Hlen Hp) as Hn.
  pose proof Hest as (Hc & Ht & Hctx & _).
  unfold solve_step. simpl. rewrite Henv. simpl.
  unfold solve_cond. simpl. rewrite Hc, Hp. simpl.
  unfold cache_lookup. simpl. rewrite decide_False by done. simpl.
  unfold solve_branch. simpl. rewrite Hctx. simpl.
  rewrite (forward_spec _ n); simpl; [|done..|lia|rewrite Hlive, length_app; lia].
  case_decide as E; [|done]. simpl. unfold next_iteration. simpl.
  rewrite (drop_ge (c_input _)); [done|]. rewrite E. unfold front. rewrite length_take. lia.
Qed.

(** With nothing left to parse the loop ends and the connection stays open. *)
Lemma reset_new c : hasCookie c = true → reset c = HttpContext_new.
Proof. intros H. unfold reset, HttpContext_new. unfold hasCookie in H. by rewrite H. Qed.

Lemma solve_step_exit env i s s' cs t :
  session_events (env t) s = Ret s' →
  step env (mkSolve false HttpContext_new i [] s cs t) =
    Ret (inr (mkSolve false HttpContext_new (if s_connected s' then (false, 0) else i) [] s' cs t)).
Proof.
  intros Henv. unfold solve_step. simpl. rewrite Henv. simpl. unfold solve_cond. simpl.
  destruct (s_connected s'); [|done].
  by replace (parseRequest HttpContext_new []) with (Some (Ret (HttpContext_new, (false, 0))))
    by (vm_compute; reflexivity).
Qed.

Lemma solve_end_small st : c_input (s_conn (session st)) = [] → solve_end st = st.
Proof. intros E. unfold solve_end. by rewrite E. Qed.


Lemma forwarded_established url b s : session_up s → session_up (forwarded url b [] s).
Proof. by intros (? & ? & ? & ?). Qed.

(** A live buffer that is the request is exactly the copy. *)
Lemma live_is_request (b live : bytes) n :
  0 ≤ n ≤ Z.of_nat (length b) → b `prefix_of` live → live = front n b →
  live = b ∧ front n b = b ∧ drop (Z.to_nat n) b = [].
Proof.
  intros Hn [more ->] E. unfold front in *.
  assert (length (b ++ more) = length (take (Z.to_nat n) b)) as Hlen by (by rewrite E).
  rewrite length_app, length_take in Hlen. destruct more; [|simpl in Hlen; lia].
  rewrite app_nil_r in *. rewrite <-E. split; [done|]. split; [done|]. apply drop_ge. simpl in *. lia.
Qed.

(** ** Waiting for the tunnel *)










(** The tunnel comes up. *)
Definition come_up (s : Session) : Session :=
  let k := s_link s in
  mkSession (s_connected s) (s_tunnel s)
    (mkLink (set_clientConn true (tunnel k)) (setContext true (server_side k))
       (setHighWaterMarkCallback kClient (client_side k)) (cached k)).




(** ** Whatever the other threads do *)

Lemma session_handle_frame e s s' :
  session_handle e s = Ret s' →
  c_sent (client_side (s_link s')) = c_sent (client_side (s_link s)) ∧
  c_input (s_conn s) `prefix_of` c_input (s_conn s').
Proof.
  destruct e as [b| |e]; simpl; intros E.
  - destruct (_ && _); simplify_eq; (split; [done|]); [by eexists|done].
  - destruct (s_connected s); simplify_eq; [|done]. unfold onServerConnection, drop_tunnel. simpl.
    by destruct (s_tunnel s).
  - destruct (tunnel_handle e (s_link s)) as [o|] eqn:Hh; [|by simplify_eq].
    apply bind_Ret_inv in E as (k & -> & E). simplify_eq.
    apply tunnel_handle_frame in Hh as [Hs Hi]. unfold s_conn. simpl. by rewrite Hs, Hi.
Qed.

Lemma session_events_frame es s s' :
  session_events es s = Ret s' →
  c_sent (client_side (s_link s')) = c_sent (client_side (s_link s)) ∧
  c_input (s_conn s) `prefix_of` c_input (s_conn s').
Proof.
  revert s. induction es as [|e es IH]; intros s E; simpl in E; [by simplify_eq|].
  apply bind_Ret_inv in E as (s1 & E1 & E). apply session_handle_frame in E1 as [H1 H2].
  apply IH in E as [H3 H4]. split; [congruence|by etrans].
Qed.

(** A whole request, as [parseRequest] sees it. *)
Definition framed (r : bytes) : Prop :=
  ∃ c more, parseRequest HttpContext_new (r ++ more) = Some (Ret (c, (true, Z.of_nat (length r)))).

(** The job [b] is the requests taken off so far and [rest]; of those, the
    connection to the web server has been sent a subsequence, after [sent]. *)
Definition accounted (b : bytes) (sent : list bytes) (rest : bytes) (s : Session) : Prop :=
  ∃ reqs, b = mjoin reqs ++ rest ∧ Forall framed reqs ∧
    c_sent (client_side (s_link s)) `sublist_of` sent ++ reqs ∧
    rest `prefix_of` c_input (s_conn s).

Lemma accounted_bounds b sent rest s c n :
  accounted b sent rest s → Z.of_nat (length b) ≤ INT_MAX →
  parseRequest HttpContext_new rest = Some (Ret (c, (true, n))) →
  0 ≤ n ≤ Z.of_nat (length rest) ∧ 0 ≤ n ≤ Z.of_nat (length (c_input (s_conn s))).
Proof.
  intros (reqs & -> & _ & _ & [more ->]) Hlen Hp. rewrite !length_app in *.
  assert (Z.of_nat (length rest) ≤ INT_MAX) as Hr by lia.
  pose proof (parse_in_bounds _ _ _ _ Hr Hp). lia.
Qed.

Lemma accounted_events b sent rest es s s' :
  accounted b sent rest s → session_events es s = Ret s' → accounted b sent rest s'.
Proof.
  intros (reqs & Hb & Hf & Hs & Hp) [E1 E2]%session_events_frame. exists reqs.
  split; [done|]. split; [done|]. rewrite E1. split; [done|by etrans].
Qed.

(** Taking the next request off the copy and off the live buffer. *)
Lemma accounted_take b sent rest s s' c n :
  accounted b sent rest s → Z.of_nat (length b) ≤ INT_MAX →
  parseRequest HttpContext_new rest = Some (Ret (c, (true, n))) →
  c_input (s_conn s') = drop (Z.to_nat n) (c_input (s_conn s)) →
  c_sent (client_side (s_link s')) = c_sent (client_side (s_link s)) ∨
  c_sent (client_side (s_link s')) = c_sent (client_side (s_link s)) ++ [front n rest] →
  accounted b sent (drop (Z.to_nat n) rest) s'.
Proof.
  intros Hacc Hlen Hp Hi Hs. destruct (accounted_bounds _ _ _ _ _ _ Hacc Hlen Hp) as [Hn _].
  destruct Hacc as (reqs & Hb & Hf & Hsub & [more Hpre]).
  exists (reqs ++ [front n rest]). unfold front in *. split; [|split; [|split]].
  - rewrite Hb, join_app. simpl. by rewrite app_nil_r, <-app_assoc, take_drop.
  - apply Forall_app. split; [done|]. apply Forall_singleton. exists c, (drop (Z.to_nat n) rest).
    rewrite take_drop, Hp, length_take. repeat f_equal. lia.
  - rewrite app_assoc. destruct Hs as [->| ->]; [by apply sublist_inserts_r|by apply sublist_app].
  - rewrite Hi, Hpre, drop_app_le by lia. by eexists.
Qed.

(** Between iterations: the context is new, or [isCheck] is set and context and
    [info] are those of the request at the front of the copy. *)
Definition solve_inv (b : bytes) (sent : list bytes) (st : solve_state CS) : Prop :=
  accounted b sent (buff st) (session st) ∧
  if isCheck st
  then parseRequest HttpContext_new (buff st) = Some (Ret (context st, info st)) ∧ (info st).1 = true
  else context st = HttpContext_new.

Lemma answer_from_cache_inv b sent st st' content :
  Z.of_nat (length b) ≤ INT_MAX → accounted b sent (buff st) (session st) →
  parseRequest HttpContext_new (buff st) = Some (Ret (context st, (true, (info st).2))) →
  answer_from_cache Buffer_retrieve st content = Ret st' → solve_inv b sent st'.
Proof.
  intros Hlen Hacc Hp E. destruct (accounted_bounds _ _ _ _ _ _ Hacc Hlen Hp) as [Hn Hn'].
  unfold answer_from_cache, erase_front in E. simpl in E. rewrite retrieve_spec in E by lia.
  simpl in E. rewrite in_vector_true in E by lia. simpl in E. injection E as <-.
  split; simpl; [by eapply accounted_take; [..|left]|].
  apply reset_new. by eapply parse_new_context.
Qed.

Lemma forward_inv b sent st st' :
  Z.of_nat (length b) ≤ INT_MAX → accounted b sent (buff st) (session st) →
  parseRequest HttpContext_new (buff st) = Some (Ret (context st, (true, (info st).2))) →
  forward Buffer_retrieve st = Ret st' → solve_inv b sent st'.
Proof.
  intros Hlen Hacc Hp E. destruct (accounted_bounds _ _ _ _ _ _ Hacc Hlen Hp) as [Hn Hn'].
  pose proof (parse_new_context _ _ _ Hp) as Hck.
  destruct (s_tunnel (session st)) eqn:Ht; [|by unfold forward in E; rewrite Ht in E].
  rewrite (forward_spec st (info st).2) in E by (done || lia).
  case_decide; [|done]. injection E as <-.
  split; simpl; [by eapply accounted_take; [..|right]|by apply reset_new].
Qed.

Lemma solve_step_inv env b sent st st' :
  Z.of_nat (length b) ≤ INT_MAX → solve_inv b sent st → loop_step (step env) st st' →
  solve_inv b sent st'.
Proof.
  intros Hlen [Hacc Hctx] E. unfold loop_step, solve_step in E.
  apply bind_Ret_inv in E as (s & Henv & E). apply (accounted_events _ _ _ _ _ _ Hacc) in Henv.
  clear Hacc. rename Henv into Hacc. simpl in E.
  apply bind_Ret_inv in E as ([[c i] go] & Hcond & E). destruct go; [|done].
  assert (parseRequest HttpContext_new (buff st) = Some (Ret (c, i)) ∧ i.1 = true) as [Hp Hi].
  { unfold solve_cond in Hcond. simpl in Hcond. destruct (isCheck st); [by simplify_eq|].
    rewrite Hctx in Hcond. destruct (s_connected s); [|done].
    destruct (parse_total HttpContext_new (buff st)) as (o & Ho & _). rewrite Ho in *.
    simpl in Hcond. apply bind_Ret_inv in Hcond as ([c' i'] & -> & Hc). by simplify_eq/=. }
  destruct i as [ok n]. simpl in Hi. subst ok.
  apply bind_Ret_inv in E as ([cs content] & _ & E). apply bind_Ret_inv in E as (st1 & Hst & E).
  injection E as <-. enough (solve_inv b sent st1) as Hinv by exact Hinv.
  destruct content as [|x content]; [|by eapply answer_from_cache_inv in Hst].
  unfold solve_branch in Hst. simpl in Hst.
  destruct (c_context (s_conn s)); simpl in Hst; rewrite ?andb_true_r, ?andb_false_r in Hst.
  { by eapply forward_inv in Hst. }
  destruct (isCheck st); injection Hst as <-; [done|]. split; [|done]. simpl.
  destruct Hacc as (reqs & Hb & Hf & _ & Hpre). exists reqs.
  split; [done|]. split; [done|]. split; [apply sublist_nil_l|done].
Qed.
End solve_facts.

(** ** Properties *)

(** An established connection forwards exactly one request per job.  When
    the live input buffer is the one request that was copied, [solveOnMessage]
    sends it to the web server, queues its URL as not cacheable, empties the
    buffer, leaves the cache alone and returns.  When anything else has
    arrived meanwhile -- a second request, or a byte of it -- the assertion
    [http_ == http] stops the process. *)
Theorem solve_established {CS} (cache_read : nat → bytes → CS → outcome (CS * bytes))
    (Buffer_retrieve : Z → bytes → outcome bytes) (env : nat → list session_event)
    (b : bytes) (s : Session) (cs : CS) (c : HttpContext) (n : Z) :
  (∀ n b, 0 ≤ n ≤ Z.of_nat (length b) → Buffer_retrieve n b = Ret (drop (Z.to_nat n) b)) →
  env 0%nat = [] → env 1%nat = [] →
  session_up s → parseRequest HttpContext_new b = Some (Ret (c, (true, n))) →
  Z.of_nat (length b) ≤ INT_MAX → getRequestMethod c ≠ GetMethod →
  b `prefix_of` c_input (s_conn s) →
  let solve fuel := solveOnMessage cache_read Buffer_retrieve env fuel b s cs in
  (c_input (s_conn s) = front n b →
     ∃ st, solve 2%nat = Some (Ret st) ∧
       session st = forwarded (getRequestUrl c) b [] s ∧ cache_st st = cs ∧ buff st = []) ∧
  (c_input (s_conn s) ≠ front n b → solve 1%nat = Some (Fault AssertionFailed)).
Proof.
  intros Hret Henv0 Henv1 Hest Hp Hlen Hm Hpre solve.
  pose proof (solve_step_established cache_read Buffer_retrieve Hret env b s cs 0 c n
    Henv0 Hest Hp Hlen Hm Hpre) as Hstep.
  pose proof (parse_in_bounds _ _ _ _ Hlen Hp) as Hn. pose proof (parse_new_context _ _ _ Hp) as Hck.
  unfold solve, solveOnMessage, solve_start. split.
  - intros E. destruct (live_is_request b _ n ltac:(lia) Hpre E) as (_ & Hf & Hd).
    cbn [run_loop]. rewrite Hstep, decide_True by done. rewrite reset_new, Hf, Hd by done.
    rewrite (solve_step_exit _ _ _ _ _ (forwarded (getRequestUrl c) b [] s)) by by rewrite Henv1.
    simpl. eexists. split; [done|]. by rewrite solve_end_small.
  - intros E. cbn [run_loop]. by rewrite Hstep, decide_False.
Qed.


(** C7. What reaches the web server is requests.  Whatever the other threads do
    between the iterations -- bytes arriving, the browser or the web server
    closing, the tunnel coming up -- and whatever the cache answers, the job is
    at every iteration the requests taken off it so far, each a whole one for
    [parseRequest], and the rest of the copy, which still starts the live
    buffer; and the connection to the web server has been sent a subsequence
    of those requests, in order and each at most once. *)
Theorem solve_sends_requests {CS} (cache_read : nat → bytes → CS → outcome (CS * bytes))
    (Buffer_retrieve : Z → bytes → outcome bytes) (env : nat → list session_event)
    (b : bytes) (s : Session) (cs : CS) (st : solve_state CS) :
  (∀ n b, 0 ≤ n ≤ Z.of_nat (length b) → Buffer_retrieve n b = Ret (drop (Z.to_nat n) b)) →
  Z.of_nat (length b) ≤ INT_MAX → b `prefix_of` c_input (s_conn s) →
  rtc (loop_step (solve_step cache_read Buffer_retrieve env)) (solve_start b s cs) st →
  ∃ reqs, b = mjoin reqs ++ buff st ∧ Forall framed reqs ∧
    c_sent (client_side (s_link (session st))) `sublist_of`
      c_sent (client_side (s_link s)) ++ reqs ∧
    buff st `prefix_of` c_input (s_conn (session st)).
Proof.
  intros Hret Hlen Hpre Hreach.
  enough (solve_inv b (c_sent (client_side (s_link s))) st) as [Hacc _] by exact Hacc.
  revert Hreach. apply (rtc_ind_r (solve_inv b (c_sent (client_side (s_link s))))).
  - split; [|done]. exists []. rewrite app_nil_r. by repeat split.
  - intros s1 s2 _ Hstep Hinv. by eapply (solve_step_inv cache_read Buffer_retrieve Hret env).
Qed.

(** C38. No request is ever queued.  [start] allocates a [Producer] for each I/O
    thread and hands none of them on: a message that arrives on an I/O thread
    is dropped when the thread object's uninitialised [producer_] happens to be
    null, and is undefined behaviour when it points to no [Producer]; on the
    main loop, when there are no I/O threads, it is dropped. *)
Theorem requests_never_queued (loop : Loop) (ipPort : bytes) (idleFd indeterminate n now : Z)
    (mem : nat → Loop * ProducerPtr) (ps0 ps1 ps : ProxyServer) (w w' : World) :
  ProxyServer_new loop ipPort idleFd indeterminate = Ret ps0 →
  setIOThreadNum n ps0 = Ret ps1 → w_shm w = 0 →
  ProxyServer_start mem now ps1 w = Ret (ps, w') →
  NoDup ((λ i, (mem i).1) <$> seq 0 (Z.to_nat n)) →
  ∀ objects conn buf,
    let receive := onServerMessage objects conn buf ps in
    (∀ i, (i < Z.to_nat n)%nat → conn_loop conn = (mem i).1 →
       ((mem i).2 = 0 → receive = Ret (objects, ps)) ∧
       ((mem i).2 ≠ 0 → objects !! (mem i).2 = None → receive = Fault UndefinedBehaviour)) ∧
    (n = 0 → receive = Ret (objects, ps)).
Proof.
  intros Hnew Hio Hfree Hstart Hnd objects conn buf receive.
  assert (∃ w1, pool_start (Some threadInitCallback) mem
    (pool_setThreadNum n (EventLoopThreadPool_new loop))
    (mkWorld 1 true (w_producers w) (w_events w)) = Ret (threadPool_ (server ps), w1)) as [w1 Hpool].
  { unfold ProxyServer_new, TcpServer_new in Hnew.
    apply bind_Ret_inv in Hnew as (sv & Hsv & Hnew). injection Hnew as <-.
    apply bind_Ret_inv in Hsv as (a & Ha & Hsv). injection Hsv as <-.
    unfold Acceptor_new in Ha. apply bind_Ret_inv in Ha as (_ & _ & Ha). injection Ha as <-.
    unfold setIOThreadNum, setThreadNum in Hio. apply bind_Ret_inv in Hio as (sv1 & Hio & E).
    injection E as <-. apply bind_Ret_inv in Hio as (_ & _ & E). injection E as <-.
    unfold ProxyServer_start, tryLock, compare_and_swap in Hstart. rewrite Hfree in Hstart.
    simpl in Hstart. unfold enableListen, TcpServer_start in Hstart. simpl in Hstart.
    apply bind_Ret_inv in Hstart as ([sv2 w2] & E & Hps). injection Hps as <- _.
    destruct (foldl _ _ (seq 0 (Z.to_nat n))) as [p w3] eqn:Hp. injection E as <- <-. exists w3.
    unfold pool_start. simpl. by rewrite Hp. }
  destruct (producers_indeterminate _ _ _ _ _ _ _ Hpool Hnd) as [Hin Hout]. split.
  - intros i Hi Hl. unfold receive, onServerMessage. rewrite Hl, (Hin i Hi). split.
    + intros ->. done.
    + intros Hne Hnone. rewrite (proj2 (Z.eqb_neq _ _) Hne), Hnone. done.
  - intros ->. unfold receive, onServerMessage. rewrite Hout; [done|]. apply not_elem_of_nil.
Qed.

(** ** Witnesses *)

(** [Buffer::retrieve] with its assertion. *)
Definition sample_retrieve (n : Z) (b : bytes) : outcome bytes :=
  _ ← cassert ((0 <=? n) && (n <=? Z.of_nat (length b))); Ret (drop (Z.to_nat n) b).
Definition no_cache (t : nat) (url : bytes) (cs : unit) : outcome (unit * bytes) := Ret (cs, []).

Lemma sample_retrieve_spec n b :
  0 ≤ n ≤ Z.of_nat (length b) → sample_retrieve n b = Ret (drop (Z.to_nat n) b).
Proof.
  intros [H1 H2]. unfold sample_retrieve.
  by rewrite (proj2 (Z.leb_le _ _) H1), (proj2 (Z.leb_le _ _) H2).
Qed.

(** A browser connection that has sent [live], before and after its tunnel. *)
Definition fresh_session (live : bytes) : Session :=
  mkSession true false (mkLink Tunnel_new (set_input live TcpConn_new) TcpConn_new []).
Definition open_session (live : bytes) : Session := come_up (create_tunnel (fresh_session live)).
Definition sample_job : bytes := str "GET /a HTTP/1.1" ++ CRLF ++ str "Host: h" ++ CRLF ++ CRLF.
Definition sample_ctx : HttpContext :=
  match parseRequest HttpContext_new sample_job with Some (Ret (c, _)) => c | _ => HttpContext_new end.

(** Two requests in a row: the assertion fails. *)
Lemma solve_established_witness :
  solveOnMessage no_cache sample_retrieve (λ _, []) 1 (sample_job ++ sample_job)
    (open_session (sample_job ++ sample_job)) () = Some (Fault AssertionFailed).
Proof.
  apply (solve_established no_cache sample_retrieve (λ _, []) (sample_job ++ sample_job)
    (open_session (sample_job ++ sample_job)) () sample_ctx 28 sample_retrieve_spec
    eq_refl eq_refl).
  - by repeat split.
  - vm_compute. reflexivity.
  - apply Z.leb_le. vm_compute. reflexivity.
  - apply (bool_decide_unpack _). vm_compute. exact I.
  - done.
  - apply (bool_decide_unpack _). vm_compute. exact I.
Defined.



(** A second request arrives after the first has been forwarded. *)
Lemma solve_sends_requests_witness :
  ∃ (st : solve_state unit) reqs, buff st = [] ∧ sample_job = mjoin reqs ++ [] ∧
    c_sent (client_side (s_link (session st))) `sublist_of` [] ++ reqs.
Proof.
  assert (∃ st, solve_step no_cache sample_retrieve (λ t, if decide (t = 1%nat)
      then [SeData sample_job] else []) (solve_start sample_job (open_session sample_job) ())
    = Ret (inl st) ∧ buff st = []) as (st & Hstep & Hbuff)
    by (eexists; split; [vm_compute; reflexivity|reflexivity]).
  destruct (solve_sends_requests no_cache sample_retrieve (λ t, if decide (t = 1%nat)
      then [SeData sample_job] else []) sample_job (open_session sample_job) () st
    sample_retrieve_spec) as (reqs & Hb & _ & Hsub & _).
  - apply Z.leb_le. vm_compute. reflexivity.
  - reflexivity.
  - by apply rtc_once.
  - exists st, reqs. split; [exact Hbuff|]. rewrite Hbuff in Hb. split; [exact Hb|exact Hsub].
Defined.

(** Two I/O threads: the first one's pointer is null, the second one's is not. *)
Definition sample_threads (i : nat) : Loop * ProducerPtr :=
  match i with O => (10%nat, 0) | _ => ((10 + i)%nat, 77) end.
Definition sample_conn (loop : Loop) : Conn := mkConn loop (str "proxy#1") 9 default_callbacks.

Lemma requests_never_queued_witness :
  ∃ ps, onServerMessage ∅ (sample_conn 10) sample_job ps = Ret (∅, ps) ∧
    onServerMessage ∅ (sample_conn 11) sample_job ps = Fault UndefinedBehaviour.
Proof.
  destruct (ProxyServer_new 1 (str "127.0.0.1:6666") 3 0) as [ps0|] eqn:E0; [|discriminate E0].
  destruct (setIOThreadNum 2 ps0) as [ps1|] eqn:E1;
    [|injection E0 as <-; discriminate E1].
  destruct (ProxyServer_start sample_threads 100 ps1 (mkWorld 0 false [] [])) as [[ps w]|] eqn:E2;
    [|injection E0 as <-; injection E1 as <-; discriminate E2].
  exists ps. pose proof (λ conn, requests_never_queued 1 _ 3 0 2 100 sample_threads ps0 ps1 ps
    (mkWorld 0 false [] []) w E0 E1 eq_refl E2 ltac:(apply (bool_decide_unpack _); vm_compute; reflexivity)
    ∅ conn sample_job) as H.
  split.
  - apply (proj1 (H (sample_conn 10)) 0%nat ltac:(vm_compute; lia) eq_refl). reflexivity.
  - apply (proj1 (H (sample_conn 11)) 1%nat ltac:(vm_compute; lia) eq_refl); done.
Defined.
