(* ===== verification/JobSteps.v ===== *)
(** * [solveOnMessage], one access at a time

    A finer model of the loop of src/ProxyServer/ProxyServer.cpp than
    [ProxyServer.solve_step]: a step is one access to what pool threads, I/O
    threads and the main loop share -- the browser's connection, its input
    buffer, [tunnels], the cache -- together with the computation on local
    variables that follows it.  Two jobs of one connection can each make a
    tunnel, so a [Connection] has any number of them, and remembers which one
    [getContext()] holds, which one [tunnels] has, and whose callbacks are
    installed on it.  A job that nobody disturbs computes what
    [ProxyServer.solveOnMessage] does. *)

From S2P Require Import Prelude HttpContext Tunnel ProxyServer.
From Stdlib Require Import Lia.

#[local] Open Scope Z_scope.

(** ** A connection and the tunnels made for it *)

(** [cn_holds], [cn_high] and [cn_write] say whose client connection and whose
    callbacks [cn_conn] holds, when it holds one.  A tunnel is kept alive by the
    callbacks of its own [client_], so it stays after [tunnels.erase]. *)
Record Connection := mkConnection {
  cn_connected : bool;
  cn_conn : TcpConn;
  cn_holds : nat;
  cn_high : nat;
  cn_write : nat;
  cn_tunnels : list (Tunnel * TcpConn);
  cn_entry : option nat;                   (* [tunnels[conn->name()]] *)
  cn_cached : list (bytes * bytes);
}.

Definition Connection_new : Connection :=
  mkConnection true TcpConn_new 0 0 0 [] None [].

Definition set_cn_conn (c : TcpConn) (cn : Connection) : Connection :=
  mkConnection (cn_connected cn) c (cn_holds cn) (cn_high cn) (cn_write cn) (cn_tunnels cn)
    (cn_entry cn) (cn_cached cn).
Definition set_tunnels (ts : list (Tunnel * TcpConn)) (cn : Connection) : Connection :=
  mkConnection (cn_connected cn) (cn_conn cn) (cn_holds cn) (cn_high cn) (cn_write cn) ts
    (cn_entry cn) (cn_cached cn).
Definition set_entry (e : option nat) (cn : Connection) : Connection :=
  mkConnection (cn_connected cn) (cn_conn cn) (cn_holds cn) (cn_high cn) (cn_write cn)
    (cn_tunnels cn) e (cn_cached cn).
Definition disconnected (cn : Connection) : Connection :=
  mkConnection false (cn_conn cn) (cn_holds cn) (cn_high cn) (cn_write cn) (cn_tunnels cn)
    (cn_entry cn) (cn_cached cn).

(** What tunnel [k] sees: itself, the browser's connection and its own. *)
Definition link_of (k : nat) (cn : Connection) : option Link :=
  '(t, cl) ← cn_tunnels cn !! k; Some (mkLink t (cn_conn cn) cl (cn_cached cn)).

Definition put_link (k : nat) (e : tunnel_event) (lk : Link) (cn : Connection) : Connection :=
  mkConnection (cn_connected cn) (server_side lk)
    (match e with EvUp => k | _ => cn_holds cn end)
    (cn_high cn)
    (match e with EvHighWater kServer n => if 0 <? n then k else cn_write cn | _ => cn_write cn end)
    (<[k := (tunnel lk, client_side lk)]> (cn_tunnels cn))
    (cn_entry cn) (cached lk).

(** A callback of the browser's connection goes to the tunnel that installed
    it; the pool threads, and nobody else, push requests. *)
Definition called (e : tunnel_event) (k : nat) (cn : Connection) : bool :=
  match e with
  | EvPush _ _ => false
  | EvHighWater kServer _ => bool_decide (cn_high cn = k)
  | EvWriteComplete kServer => bool_decide (cn_write cn = k)
  | _ => true
  end.

(** A callback of tunnel [k]; [None]: it cannot be called now. *)
Definition tunnel_callback (k : nat) (e : tunnel_event) (cn : Connection)
    : option (outcome Connection) :=
  if called e k cn then
    lk ← link_of k cn;
    o ← tunnel_handle e lk;
    Some (lk ← (o : outcome Link); Ret (put_link k e lk cn))
  else None.

Definition update_tunnel (g : Tunnel → Tunnel) (k : nat) (cn : Connection) : Connection :=
  set_tunnels (alter (λ x, (g x.1, x.2)) k (cn_tunnels cn)) cn.
Definition update_client (g : TcpConn → TcpConn) (k : nat) (cn : Connection) : Connection :=
  set_tunnels (alter (λ x, (x.1, g x.2)) k (cn_tunnels cn)) cn.

(** [tunnels.find], [tunnels[name]->disconnect()], [tunnels.erase(name)]. *)
Definition erase_entry (cn : Connection) : Connection :=
  match cn_entry cn with
  | Some k => set_entry None (update_tunnel Tunnel_disconnect k cn)
  | None => cn
  end.

(** [new Tunnel(...)] and [setup]. *)
Definition setup_tunnel (cn : Connection) : Connection :=
  let k := length (cn_tunnels cn) in
  let lk := Tunnel_setup (mkLink Tunnel_new (cn_conn cn) TcpConn_new (cn_cached cn)) in
  mkConnection (cn_connected cn) (server_side lk) (cn_holds cn) k (cn_write cn)
    (cn_tunnels cn ++ [(tunnel lk, client_side lk)]) (cn_entry cn) (cached lk).

(** ** The steps of a job *)

Record locals := mkLocals {
  l_isCheck : bool;
  l_context : HttpContext;
  l_info : bool * Z;
  l_buff : bytes;
}.

(** What comes next, with the variables of the branch. *)
Inductive job_pc :=
  | JCond                                  (* the condition of the loop *)
  | JCache                                 (* [cache->readCache] *)
  | JSend (content : bytes)                (* [conn->send] *)
  | JTake                                  (* [buf->retrieve] of an answered request *)
  | JEmpty                                 (* the first test of [getContext()] *)
  | JSetup                                 (* [new Tunnel], [setup] *)
  | JConnect (k : nat)
  | JRegister (k : nat)                    (* [tunnels[name] = tunnel] *)
  | JFull                                  (* the second test of [getContext()] *)
  | JClient                                (* [any_cast] *)
  | JPush (k : nat)                        (* [tunnels[name]->pushCache] *)
  | JForward (k : nat)                     (* [clientConn->send] *)
  | JCopy                                  (* [http_] *)
  | JRetrieve (http_ : bytes)              (* [buf->retrieve], the assertion *)
  | JDirty                                 (* after the loop *)
  | JErase
  | JShutdown.

Record Running := mkRunning { r_pc : job_pc; r_locals : locals }.

Definition job_start (b : bytes) : Running :=
  mkRunning JCond (mkLocals false HttpContext_new (false, 0) b).

Section job.
Context {CS : Type} (cache_read : nat → bytes → CS → outcome (CS * bytes)).
Context (Buffer_retrieve : Z → bytes → outcome bytes).

(** The end of an iteration that took a request off the copy. *)
Definition taken (l : locals) (b : bytes) : Running :=
  mkRunning JCond (mkLocals false (reset (l_context l)) (l_info l) b).

(** The next step of a job of [cn]; [None] when it has returned.  [clientConn] is
    a reference into [getContext()]: it dangles when that has changed. *)
Definition job_step (t : nat) (r : Running) (cn : Connection) (cs : CS)
    : outcome (option Running * Connection * CS) :=
  let l := r_locals r in
  let n := (l_info l).2 in
  let conn := cn_conn cn in
  let next pc := Ret (Some (mkRunning pc l), cn, cs) in
  match r_pc r with
  | JCond =>
      if l_isCheck l then next JCache
      else if cn_connected cn then
        '(c, i) ← default (Fault UndefinedBehaviour) (parseRequest (l_context l) (l_buff l));
        Ret (Some (mkRunning (if (i.1 : bool) then JCache else JDirty)
               (mkLocals (l_isCheck l) c i (l_buff l))), cn, cs)
      else next JDirty
  | JCache =>
      if decide (getRequestMethod (l_context l) = GetMethod) then
        '(cs, content) ← cache_read t (getRequestUrl (l_context l)) cs;
        Ret (Some (mkRunning (match content with [] => JEmpty | _ => JSend content end) l), cn, cs)
      else next JEmpty
  | JSend content =>
      Ret (Some (mkRunning JTake l), set_cn_conn (send (createResponse content) conn) cn, cs)
  | JTake =>
      rest ← Buffer_retrieve n (c_input conn);
      b ← erase_front n (l_buff l);
      Ret (Some (taken l b), set_cn_conn (set_input rest conn) cn, cs)
  | JEmpty => next (if negb (l_isCheck l) && negb (c_context conn) then JSetup else JFull)
  | JSetup => Ret (Some (mkRunning (JConnect (length (cn_tunnels cn))) l), setup_tunnel cn, cs)
  | JConnect k => Ret (Some (mkRunning (JRegister k) l), update_tunnel Tunnel_connect k cn, cs)
  | JRegister k =>
      Ret (Some (mkRunning JCond (mkLocals true (l_context l) (l_info l) (l_buff l))),
           set_entry (Some k) cn, cs)
  | JFull => next (if c_context conn then JClient else JCond)
  | JClient => if c_context conn then next (JPush (cn_holds cn)) else Fault BadAnyCast
  | JPush k =>
      e ← deref (cn_entry cn);
      Ret (Some (mkRunning (JForward k) l),
           update_tunnel (pushCache (getRequestUrl (l_context l)) (negb (hasCookie (l_context l))))
             e cn, cs)
  | JForward k =>
      _ ← non_null (c_context conn && bool_decide (cn_holds cn = k));
      _ ← in_vector n (l_buff l);
      Ret (Some (mkRunning JCopy l), update_client (send (front n (l_buff l))) k cn, cs)
  | JCopy => next (JRetrieve (c_input conn))
  | JRetrieve http_ =>
      rest ← Buffer_retrieve n (c_input conn);
      b ← erase_front n (l_buff l);
      _ ← cassert (bool_decide (http_ = front n (l_buff l)));
      Ret (Some (taken l b), set_cn_conn (set_input rest conn) cn, cs)
  | JDirty =>
      if 1024 * 1024 * 10 <? Z.of_nat (length (c_input conn)) then next JErase
      else Ret (None, cn, cs)
  | JErase => Ret (Some (mkRunning JShutdown l), erase_entry cn, cs)
  | JShutdown => Ret (None, set_cn_conn (shutdown conn) cn, cs)
  end.

(** ** A job that nobody disturbs *)

Definition at_top (pc : job_pc) : bool :=
  match pc with JCond | JDirty => true | _ => false end.

(** Up to the next evaluation of the condition, or the end of the loop. *)
Fixpoint one_iteration (k t : nat) (r : Running) (cn : Connection) (cs : CS)
    : option (outcome (Running * Connection * CS)) :=
  match k with
  | O => None
  | S k =>
      match job_step t r cn cs with
      | Fault f => Some (Fault f)
      | Ret (None, _, _) => None
      | Ret (Some r, cn, cs) =>
          if at_top (r_pc r) then Some (Ret (r, cn, cs)) else one_iteration k t r cn cs
      end
  end.

(** From [JDirty] to the return. *)
Fixpoint after_loop (k t : nat) (r : Running) (cn : Connection) (cs : CS)
    : option (outcome (Connection * CS)) :=
  match k with
  | O => None
  | S k =>
      match job_step t r cn cs with
      | Fault f => Some (Fault f)
      | Ret (None, cn, cs) => Some (Ret (cn, cs))
      | Ret (Some r, cn, cs) => after_loop k t r cn cs
      end
  end.

(** At most [fuel] iterations, numbered from [t]. *)
Fixpoint job_alone (fuel t : nat) (r : Running) (cn : Connection) (cs : CS)
    : option (outcome (Connection * CS)) :=
  match fuel with
  | O => None
  | S fuel =>
      o ← one_iteration 9 t r cn cs;
      match o with
      | Fault f => Some (Fault f)
      | Ret (r, cn, cs) =>
          match r_pc r with
          | JDirty => after_loop 3 t r cn cs
          | _ => job_alone fuel (S t) r cn cs
          end
      end
  end.
End job.

(** What [ProxyServer] knows of a connection: its last tunnel. *)
Definition last_link (cn : Connection) : Link :=
  match last (cn_tunnels cn) with
  | Some (t, cl) => mkLink t (cn_conn cn) cl (cn_cached cn)
  | None => mkLink Tunnel_new (cn_conn cn) TcpConn_new (cn_cached cn)
  end.
Definition session_of (cn : Connection) : Session :=
  mkSession (cn_connected cn) (bool_decide (is_Some (cn_entry cn))) (last_link cn).

(** Then [tunnels] and [getContext()], if they hold one, hold that tunnel. *)
Definition coherent (cn : Connection) : Prop :=
  (∀ k, cn_entry cn = Some k → length (cn_tunnels cn) = S k) ∧
  (c_context (cn_conn cn) = true → length (cn_tunnels cn) = S (cn_holds cn)).

Definition state_of {CS} (t : nat) (x : Running * Connection * CS) : solve_state CS :=
  let '(r, cn, cs) := x in
  let l := r_locals r in
  mkSolve (l_isCheck l) (l_context l) (l_info l) (l_buff l) (session_of cn) cs t.

Definition iteration_of {CS} (t : nat) (x : Running * Connection * CS)
    : solve_state CS + solve_state CS :=
  match r_pc x.1.1 with JDirty => inr (state_of t x) | _ => inl (state_of (S t) x) end.

(** ** The tunnels of a connection *)

Lemma coherent_last cn k :
  length (cn_tunnels cn) = S k → ∃ ts t cl, cn_tunnels cn = ts ++ [(t, cl)] ∧ length ts = k.
Proof.
  intros Hlen. destruct (exists_last (l := cn_tunnels cn)) as (ts & [t cl] & E);
    [by destruct (cn_tunnels cn)|].
  exists ts, t, cl. split; [done|]. rewrite E, length_app in Hlen. simpl in Hlen. lia.
Qed.

Lemma last_link_app cn ts t cl :
  cn_tunnels cn = ts ++ [(t, cl)] → last_link cn = mkLink t (cn_conn cn) cl (cn_cached cn).
Proof. intros E. unfold last_link. by rewrite E, last_snoc. Qed.

(** Changing the last tunnel. *)
Lemma alter_last {A} (g : A → A) (l : list A) x : alter g (length l) (l ++ [x]) = l ++ [g x].
Proof. induction l as [|y l IH]; simpl; [done|]. f_equal. apply IH. Qed.

Lemma update_last_tunnel g cn ts t cl k :
  cn_tunnels cn = ts ++ [(t, cl)] → length ts = k →
  update_tunnel g k cn = set_tunnels (ts ++ [(g t, cl)]) cn.
Proof. intros E <-. unfold update_tunnel. by rewrite E, alter_last. Qed.

Lemma update_last_client g cn ts t cl k :
  cn_tunnels cn = ts ++ [(t, cl)] → length ts = k →
  update_client g k cn = set_tunnels (ts ++ [(t, g cl)]) cn.
Proof. intros E <-. unfold update_client. by rewrite E, alter_last. Qed.

(** The session after changing the last tunnel. *)
Lemma session_set_last cn ts t cl :
  session_of (set_tunnels (ts ++ [(t, cl)]) cn) =
    mkSession (cn_connected cn) (bool_decide (is_Some (cn_entry cn)))
      (mkLink t (cn_conn cn) cl (cn_cached cn)).
Proof. unfold session_of, last_link. simpl. by rewrite last_snoc. Qed.

Section alone.
Context {CS : Type} (cache_read : nat → bytes → CS → outcome (CS * bytes)).
Context (Buffer_retrieve : Z → bytes → outcome bytes).
Implicit Types (cn : Connection) (cs : CS) (l : locals).

Abbreviation iterate := (one_iteration cache_read Buffer_retrieve).

(** A run of the micro-steps that ends as [m] says, with the tunnels in order. *)
Definition ends (t : nat) (r : option (outcome (Running * Connection * CS)))
    (m : outcome (solve_state CS + solve_state CS)) : Prop :=
  ∃ o, r = Some o ∧ iteration_of t <$> o = m ∧
    ∀ x, o = Ret x → at_top (r_pc x.1.1) = true ∧ coherent x.1.2.

Lemma ends_step k t r cn cs r' cn' cs' m :
  job_step cache_read Buffer_retrieve t r cn cs = Ret (Some r', cn', cs') →
  at_top (r_pc r') = false →
  ends t (iterate k t r' cn' cs') m → ends t (iterate (S k) t r cn cs) m.
Proof. intros E Htop. simpl. by rewrite E, Htop. Qed.

Lemma ends_top k t r cn cs r' cn' cs' m :
  job_step cache_read Buffer_retrieve t r cn cs = Ret (Some r', cn', cs') →
  at_top (r_pc r') = true → coherent cn' → Ret (iteration_of t (r', cn', cs')) = m →
  ends t (iterate (S k) t r cn cs) m.
Proof.
  intros E Htop Hc <-. simpl. rewrite E, Htop. eexists. split; [done|]. split; [done|].
  by intros ? [= <-].
Qed.

Lemma ends_fault k t r cn cs f :
  job_step cache_read Buffer_retrieve t r cn cs = Fault f →
  ends t (iterate (S k) t r cn cs) (Fault f).
Proof. intros E. simpl. rewrite E. by eexists. Qed.

#[local] Arguments one_iteration : simpl never.
Ltac run_step := unfold job_step; simpl.

Lemma session_conn cn : s_conn (session_of cn) = cn_conn cn.
Proof. unfold s_conn, session_of, last_link. simpl. by destruct (last (cn_tunnels cn)) as [[??]|]. Qed.

Lemma session_set_conn c cn : session_of (set_cn_conn c cn) = set_conn c (session_of cn).
Proof.
  unfold session_of, set_conn, set_server, last_link. simpl.
  by destruct (last (cn_tunnels cn)) as [[??]|].
Qed.

Lemma answer_ends t l cn cs content :
  coherent cn → ends t (iterate 7 t (mkRunning (JSend content) l) cn cs)
    (st ← answer_from_cache Buffer_retrieve (state_of t (mkRunning (JSend content) l, cn, cs)) content;
     Ret (inl (next_iteration st))).
Proof.
  intros Hc. eapply ends_step; [done..|]. unfold answer_from_cache. simpl. rewrite session_conn. simpl.
  destruct (Buffer_retrieve _ _) as [rest|f] eqn:Hr; simpl.
  2: { apply ends_fault. run_step. by rewrite Hr. }
  destruct (erase_front _ _) as [b|f] eqn:Hb; simpl.
  2: { apply ends_fault. run_step. by rewrite Hr, Hb. }
  eapply ends_top; [run_step; by rewrite Hr, Hb|done|done|]. unfold iteration_of. simpl.
  unfold next_iteration. simpl. by rewrite !session_set_conn.
Qed.

Lemma create_ends t l cn cs :
  coherent cn → l_isCheck l = false → c_context (cn_conn cn) = false →
  ends t (iterate 7 t (mkRunning JEmpty l) cn cs)
    (st ← solve_branch Buffer_retrieve (state_of t (mkRunning JEmpty l, cn, cs));
     Ret (inl (next_iteration st))).
Proof.
  intros Hc Hchk Hctx. unfold solve_branch. simpl. rewrite session_conn, Hctx, Hchk. simpl.
  eapply ends_step; [run_step; by rewrite Hchk, Hctx|done|]. do 2 (eapply ends_step; [done..|]).
  rewrite (update_last_tunnel _ _ (cn_tunnels cn) Tunnel_new TcpConn_new) by done.
  eapply ends_top; [done|done| |].
  - split; simpl; [intros k [= <-]; rewrite length_app; simpl; lia|by rewrite Hctx].
  - unfold iteration_of, state_of, next_iteration. simpl. do 3 f_equal. unfold create_tunnel.
    unfold session_of, last_link. simpl. rewrite last_snoc. by destruct (last (cn_tunnels cn)) as [[??]|].
Qed.

Lemma forward_ends t l cn cs :
  coherent cn → c_context (cn_conn cn) = true →
  ends t (iterate 7 t (mkRunning JEmpty l) cn cs)
    (st ← forward Buffer_retrieve (state_of t (mkRunning JEmpty l, cn, cs));
     Ret (inl (next_iteration st))).
Proof.
  intros [Hentry Hholds] Hctx. pose proof (Hholds Hctx) as Hlen.
  destruct (coherent_last cn _ Hlen) as (ts & tu & cl & E & Hts).
  unfold forward. simpl. rewrite session_conn, (last_link_app cn ts tu cl E). simpl.
  eapply ends_step; [run_step; by rewrite Hctx, andb_false_r|done|].
  eapply ends_step; [run_step; by rewrite Hctx|done|].
  eapply ends_step; [run_step; by rewrite Hctx|done|].
  destruct (cn_entry cn) as [e|] eqn:He; simpl.
  2: { apply ends_fault. run_step. by rewrite He. }
  rewrite (Hentry e eq_refl) in Hlen. injection Hlen as ->.
  eapply ends_step; [run_step; by rewrite He|done|]. rewrite (update_last_tunnel _ _ ts tu cl _ E Hts).
  destruct (in_vector _ _) as [[]|f] eqn:Hv; simpl.
  2: { apply ends_fault. run_step. by rewrite Hctx, bool_decide_eq_true_2, Hv by done. }
  eapply ends_step; [run_step; by rewrite Hctx, bool_decide_eq_true_2, Hv by done|done|].
  rewrite (update_last_client _ _ ts (pushCache (getRequestUrl (l_context l))
    (negb (hasCookie (l_context l))) tu) cl) by done.
  eapply ends_step; [done..|]. simpl.
  destruct (Buffer_retrieve _ _) as [rest|f] eqn:Hr; simpl.
  2: { apply ends_fault. run_step. by rewrite Hr. }
  destruct (erase_front _ _) as [b|f] eqn:Hb; simpl.
  2: { apply ends_fault. run_step. by rewrite Hr, Hb. }
  case_bool_decide as Hh; simpl.
  2: { apply ends_fault. run_step. rewrite Hr, Hb. simpl. by rewrite bool_decide_eq_false_2. }
  eapply ends_top; [run_step; rewrite Hr, Hb; simpl; by rewrite bool_decide_eq_true_2|done| |].
  - split; simpl; rewrite length_app; simpl; [|lia].
    intros k Hk. rewrite He in Hk. injection Hk as <-. lia.
  - unfold iteration_of, state_of, next_iteration. simpl. do 3 f_equal.
    unfold session_of, last_link. simpl. rewrite last_snoc. by rewrite He.
Qed.

Lemma branch_ends t l cn cs :
  coherent cn →
  ends t (iterate 7 t (mkRunning JEmpty l) cn cs)
    (st ← solve_branch Buffer_retrieve (state_of t (mkRunning JEmpty l, cn, cs));
     Ret (inl (next_iteration st))).
Proof.
  intros Hc. destruct (c_context (cn_conn cn)) eqn:Hctx, (l_isCheck l) eqn:Hchk;
    [| | |by apply create_ends].
  1-2: unfold solve_branch; simpl; rewrite session_conn, Hctx, andb_false_r; by apply forward_ends.
  unfold solve_branch. simpl. rewrite session_conn, Hctx, Hchk. simpl.
  eapply ends_step; [run_step; by rewrite Hchk, Hctx|done|].
  eapply ends_top; [run_step; by rewrite Hctx|done..|].
  unfold iteration_of, state_of, next_iteration. simpl. by rewrite Hchk.
Qed.

Lemma body_ends t l cn cs :
  coherent cn →
  let st := state_of t (mkRunning JCache l, cn, cs) in
  ends t (iterate 8 t (mkRunning JCache l) cn cs)
    ('(cs, content) ← cache_lookup cache_read st;
     let st := mkSolve (isCheck st) (context st) (info st) (buff st) (session st) cs (iteration st) in
     st' ← (match content with
            | [] => solve_branch Buffer_retrieve st
            | _ => answer_from_cache Buffer_retrieve st content
            end);
     Ret (inl (next_iteration st'))).
Proof.
  intros Hc st. unfold cache_lookup. simpl. case_decide as Hm; simpl.
  2: { eapply ends_step; [run_step; by rewrite decide_False|done|]. by apply branch_ends. }
  destruct (cache_read _ _ _) as [[cs' content]|f] eqn:Hr; simpl.
  2: { apply ends_fault. run_step. by rewrite decide_True, Hr by done. }
  destruct content; (eapply ends_step; [run_step; by rewrite decide_True, Hr by done|done|]).
  - by apply branch_ends.
  - by apply answer_ends.
Qed.

Lemma one_iteration_ends t l cn cs :
  coherent cn →
  ends t (iterate 9 t (mkRunning JCond l) cn cs)
    (solve_step cache_read Buffer_retrieve (λ _, []) (state_of t (mkRunning JCond l, cn, cs))).
Proof.
  intros Hc. unfold solve_step, solve_cond. simpl. destruct (l_isCheck l) eqn:Hchk; simpl.
  { eapply ends_step; [run_step; by rewrite Hchk|done|].
    pose proof (body_ends t l cn cs Hc) as Hb. simpl in Hb. by rewrite Hchk in Hb. }
  destruct (cn_connected cn) eqn:Hcn; simpl.
  2: { eapply ends_top; [run_step; by rewrite Hchk, Hcn|done|done|].
    unfold iteration_of, state_of. simpl. by rewrite Hchk. }
  destruct (default _ _) as [[c i]|f] eqn:Hp; simpl.
  2: { apply ends_fault. run_step. by rewrite Hchk, Hcn, Hp. }
  destruct i as [[] n]; simpl.
  - eapply ends_step; [run_step; by rewrite Hchk, Hcn, Hp|done|].
    pose proof (body_ends t (mkLocals false c (true, n) (l_buff l)) cn cs Hc) as Hb. by simpl in *.
  - by eapply ends_top; [run_step; by rewrite Hchk, Hcn, Hp|..].
Qed.

(** ** The whole job *)

Lemma session_erase cn : coherent cn → session_of (erase_entry cn) = drop_tunnel (session_of cn).
Proof.
  intros [He _]. unfold erase_entry, drop_tunnel. simpl. destruct (cn_entry cn) as [k|] eqn:Hk; [|done].
  destruct (coherent_last cn k (He k eq_refl)) as (ts & t & cl & E & Hlen). simpl.
  rewrite (update_last_tunnel _ _ ts t cl _ E Hlen), (last_link_app cn ts t cl E).
  unfold session_of, last_link. simpl. by rewrite last_snoc.
Qed.

Definition result_of (x : Connection * CS) : Session * CS := (session_of x.1, x.2).
Definition solved (st : solve_state CS) : Session * CS := (session st, cache_st st).

Lemma after_loop_end t l cn cs :
  coherent cn →
  ∃ x, after_loop cache_read Buffer_retrieve 3 t (mkRunning JDirty l) cn cs = Some (Ret x) ∧
    result_of x = solved (solve_end (state_of t (mkRunning JDirty l, cn, cs))).
Proof.
  intros Hc. unfold after_loop, job_step, solve_end, result_of, solved. simpl. rewrite session_conn.
  destruct (_ <? _); simpl; [|by eexists]. eexists. split; [done|]. simpl.
  rewrite session_set_conn, <-session_erase by done. by rewrite session_conn.
Qed.

Lemma job_alone_eq fuel t l cn cs :
  coherent cn →
  fmap (M := outcome) result_of <$>
    job_alone cache_read Buffer_retrieve fuel t (mkRunning JCond l) cn cs =
  fmap (M := outcome) (solved ∘ solve_end) <$>
    run_loop (solve_step cache_read Buffer_retrieve (λ _, [])) fuel
      (state_of t (mkRunning JCond l, cn, cs)).
Proof.
  revert t l cn cs. induction fuel as [|fuel IH]; intros t l cn cs Hc; [done|].
  cbn [job_alone run_loop].
  destruct (one_iteration_ends t l cn cs Hc) as (o & -> & <- & Ho). cbn [mbind option_bind].
  destruct o as [[[[pc l1] cn1] cs1]|f]; [|done].
  destruct (Ho _ eq_refl) as [Htop Hc1]. simpl in Htop, Hc1.
  destruct pc; try done; cbn [r_pc].
  - by apply IH.
  - destruct (after_loop_end t l1 cn1 cs1 Hc1) as (x & -> & Hx). simpl. by rewrite Hx.
Qed.
End alone.

(** The accesses of an undisturbed job, one by one, give what
    [ProxyServer.solveOnMessage] gives, for the same number of iterations: the same
    connection, tunnel and cache when it returns, the same failure when it fails,
    and no result while it is in its loop. *)
Lemma job_alone_solves {CS} (cache_read : nat → bytes → CS → outcome (CS * bytes))
    (Buffer_retrieve : Z → bytes → outcome bytes) (fuel : nat) (b : bytes) (cn : Connection) (cs : CS) :
  coherent cn →
  fmap (M := outcome) result_of <$> job_alone cache_read Buffer_retrieve fuel 0 (job_start b) cn cs =
  fmap (M := outcome) solved <$>
    solveOnMessage cache_read Buffer_retrieve (λ _, []) fuel b (session_of cn) cs.
Proof.
  intros Hc. unfold solveOnMessage, job_start. rewrite job_alone_eq by done.
  unfold solve_start, state_of. cbn [r_locals l_isCheck l_context l_info l_buff].
  destruct (run_loop _ _ _) as [[st|f]|]; done.
Qed.

(** ** Properties *)

(** C39. A job that nobody disturbs, on a connection whose tunnel is up.  The copy
    [b] starts with a whole request whose method is not "Get".  When the input
    buffer is exactly that request, running the accesses of the job one by one
    forwards it to the web server, whole and once, queues its URL as not cacheable,
    empties the input buffer, asks the cache nothing, leaves the connection and
    its tunnel in place and returns, after one iteration and one more evaluation
    of the condition.  When anything more is in the buffer, a second request or
    a byte of it, the job stops the process in its first iteration: the assertion
    [http_ == http] fails. *)
Theorem job_alone_forwards {CS} (cache_read : nat → bytes → CS → outcome (CS * bytes))
    (Buffer_retrieve : Z → bytes → outcome bytes) (b : bytes) (cn : Connection) (cs : CS)
    (c : HttpContext) (n : Z) :
  (∀ n b, 0 ≤ n ≤ Z.of_nat (length b) → Buffer_retrieve n b = Ret (drop (Z.to_nat n) b)) →
  coherent cn → session_up (session_of cn) →
  parseRequest HttpContext_new b = Some (Ret (c, (true, n))) →
  Z.of_nat (length b) ≤ INT_MAX → getRequestMethod c ≠ GetMethod →
  b `prefix_of` c_input (cn_conn cn) →
  let run fuel := job_alone cache_read Buffer_retrieve fuel 0 (job_start b) cn cs in
  (c_input (cn_conn cn) = front n b →
     ∃ cn', run 2%nat = Some (Ret (cn', cs)) ∧
       session_of cn' = forwarded (getRequestUrl c) b [] (session_of cn)) ∧
  (c_input (cn_conn cn) ≠ front n b → run 1%nat = Some (Fault AssertionFailed)).
Proof.
  intros Hret Hc Hup Hp Hlen Hm Hpre run. rewrite <-session_conn in Hpre. rewrite <-session_conn.
  pose proof (λ fuel, job_alone_solves cache_read Buffer_retrieve fuel b cn cs Hc) as Hrun.
  destruct (solve_established cache_read Buffer_retrieve (λ _, []) b (session_of cn) cs c n
    Hret eq_refl eq_refl Hup Hp Hlen Hm Hpre) as [Hone Hmore]. split.
  - intros E. destruct (Hone E) as (st & Hst & Hs & Hcs & _). specialize (Hrun 2%nat).
    rewrite Hst in Hrun. unfold run.
    destruct (job_alone _ _ _ _ _ _ _) as [[[cn' cs']|f]|]; [|done..].
    injection Hrun as E1 E2. exists cn'. rewrite E1, <-Hs. split; [|done]. by rewrite E2, Hcs.
  - intros E. specialize (Hrun 1%nat). rewrite (Hmore E) in Hrun. unfold run.
    destruct (job_alone _ _ _ _ _ _ _) as [[x|f]|]; [done| |done]. by injection Hrun as ->.
Qed.

(** ** Witness *)

(** A connection with [b] in its buffer and its tunnel up. *)
Definition open_connection (b : bytes) : Connection :=
  mkConnection true (setContext true (setHighWaterMarkCallback kServer (set_input b TcpConn_new)))
    0 0 0 [(mkTunnel true true [] ClConnect, setHighWaterMarkCallback kClient TcpConn_new)] (Some 0%nat) [].

Lemma job_alone_forwards_witness :
  ∃ cn', job_alone no_cache sample_retrieve 2 0 (job_start sample_job) (open_connection sample_job) ()
      = Some (Ret (cn', ())) ∧
    session_of cn' = forwarded (str "/a") sample_job [] (session_of (open_connection sample_job)).
Proof.
  apply (job_alone_forwards no_cache sample_retrieve sample_job (open_connection sample_job) ()
    sample_ctx 28 sample_retrieve_spec).
  - split; [by intros k [= <-]|done].
  - by repeat split.
  - vm_compute. reflexivity.
  - apply Z.leb_le. vm_compute. reflexivity.
  - apply (bool_decide_unpack _). vm_compute. exact I.
  - exists []. vm_compute. reflexivity.
  - vm_compute. reflexivity.
Defined.
