(* ===== verification/JobFacts.v ===== *)
(** * What one access of a job or one callback does

    Over [JobSteps]: the variables of a job agree with its copy of the input
    buffer, a step takes the same bytes off the buffer and off the copy and sends
    at most the request it has parsed, and a callback of a tunnel sends nothing. *)

From S2P Require Import Prelude HttpContext Tunnel ProxyServer JobSteps.
From Stdlib Require Import Lia.

#[local] Open Scope Z_scope.

(** ** Bytes of bytes *)

(** Consecutive bytes. *)
Definition part_of (r b : bytes) : Prop := ∃ before after, b = before ++ r ++ after.

Lemma part_of_prefix r b b' : part_of r b → b `prefix_of` b' → part_of r b'.
Proof. intros (x & y & ->) [z ->]. exists x, (y ++ z). by rewrite !app_assoc. Qed.
Lemma prefix_part_of r b : r `prefix_of` b → part_of r b.
Proof. intros [z ->]. by exists [], z. Qed.
Lemma suffix_part_of r b : r `suffix_of` b → part_of r b.
Proof. intros [z ->]. exists z, []. by rewrite app_nil_r. Qed.
Lemma part_of_trans r b b' : part_of r b → part_of b b' → part_of r b'.
Proof. intros (x & y & ->) (x' & y' & ->). exists (x' ++ x), (y ++ y'). by rewrite !app_assoc. Qed.
Lemma part_of_front n b : part_of (front n b) b.
Proof. apply prefix_part_of. exists (drop (Z.to_nat n) b). unfold front. by rewrite take_drop. Qed.
Lemma part_of_drop n b : part_of (drop n b) b.
Proof. apply suffix_part_of. exists (take n b). by rewrite take_drop. Qed.

(** ** The variables of a job *)

(** Everything sent over the tunnels of a connection. *)
Definition all_sent (cn : Connection) : list bytes := cn_tunnels cn ≫= (λ x, c_sent x.2).

(** [context] and [info] are what [parseRequest] makes of the copy; when the
    copy has been parsed again without [reset], method and URL are repeated. *)
Definition parsed (l : locals) : Prop :=
  ∃ ctx n k, parseRequest HttpContext_new (l_buff l) = Some (Ret (ctx, (true, n))) ∧
    l_info l = (true, n) ∧ hasCookie (l_context l) = true ∧
    getRequestMethod (l_context l) = mjoin (replicate (S k) (getRequestMethod ctx)) ∧
    getRequestUrl (l_context l) = mjoin (replicate (S k) (getRequestUrl ctx)).

Definition locals_ok (pc : job_pc) (l : locals) : Prop :=
  match pc with
  | JCond => if l_isCheck l then parsed l else l_context l = HttpContext_new ∨ parsed l
  | JSend _ | JTake => parsed l ∧ getRequestMethod (l_context l) = GetMethod
  | JDirty | JErase | JShutdown => True
  | _ => parsed l
  end.

(** The first request of a copy, whole. *)
Definition request_of (r b : bytes) : Prop :=
  ∃ ctx, parseRequest HttpContext_new b = Some (Ret (ctx, (true, Z.of_nat (length r)))) ∧
    r `prefix_of` b.

Lemma request_of_framed r b : request_of r b → framed r.
Proof. intros (ctx & Hp & [more ->]). by exists ctx, more. Qed.

(** ** One access of a job *)

Lemma all_sent_update_tunnel g k cn : all_sent (update_tunnel g k cn) = all_sent cn.
Proof.
  unfold all_sent, update_tunnel. simpl. revert k.
  induction (cn_tunnels cn) as [|[t cl] ts IH]; intros [|k]; simpl; [done..|]. f_equal. apply IH.
Qed.

Lemma all_sent_update_client r k cn x :
  x ∈ all_sent (update_client (send r) k cn) → x ∈ all_sent cn ∨ x = r.
Proof.
  unfold all_sent, update_client. simpl. revert k.
  induction (cn_tunnels cn) as [|[t cl] ts IH]; intros k; [by left|].
  destruct k as [|k]; simpl; rewrite !elem_of_app.
  - rewrite list_elem_of_singleton. naive_solver.
  - intros [H|H]; [auto|]. apply IH in H. naive_solver.
Qed.

Lemma all_sent_setup cn : all_sent (setup_tunnel cn) = all_sent cn.
Proof. unfold all_sent. simpl. rewrite bind_app. simpl. by rewrite !app_nil_r. Qed.

Lemma all_sent_erase cn : all_sent (erase_entry cn) = all_sent cn.
Proof. unfold erase_entry. destruct (cn_entry cn); [|done]. apply all_sent_update_tunnel. Qed.

Lemma erase_front_Ret n b b' :
  erase_front n b = Ret b' → 0 ≤ n ≤ Z.of_nat (length b) ∧ b' = drop (Z.to_nat n) b.
Proof.
  unfold erase_front, in_vector. intros E. apply bind_Ret_inv in E as (u & E1 & E2).
  destruct (_ && _) eqn:H; [|done]. apply andb_prop in H as [?%Z.leb_le ?%Z.leb_le].
  by injection E2 as <-.
Qed.

(** [Buffer::retrieve], of muduo: it asserts that there are as many bytes. *)
Definition retrieves (Buffer_retrieve : Z → bytes → outcome bytes) : Prop :=
  ∀ n b, Buffer_retrieve n b =
    (_ ← cassert ((0 <=? n) && (n <=? Z.of_nat (length b))); Ret (drop (Z.to_nat n) b)).

Lemma retrieves_inv Buffer_retrieve n b b' :
  retrieves Buffer_retrieve → Buffer_retrieve n b = Ret b' →
  0 ≤ n ≤ Z.of_nat (length b) ∧ b' = drop (Z.to_nat n) b.
Proof.
  intros -> E. apply bind_Ret_inv in E as (u & Hc%cassert_Ret_inv & E).
  apply andb_prop in Hc as [?%Z.leb_le ?%Z.leb_le]. by injection E as <-.
Qed.

Lemma retrieves_ok Buffer_retrieve n b :
  retrieves Buffer_retrieve → 0 ≤ n ≤ Z.of_nat (length b) →
  Buffer_retrieve n b = Ret (drop (Z.to_nat n) b).
Proof.
  intros -> [H1 H2]. by rewrite (proj2 (Z.leb_le _ _) H1), (proj2 (Z.leb_le _ _) H2).
Qed.

Section job_facts.
Context {CS : Type} (cache_read : nat → bytes → CS → outcome (CS * bytes)).
Context (Buffer_retrieve : Z → bytes → outcome bytes) (Hret : retrieves Buffer_retrieve).

(** What a step of a job [r] does: it takes the same bytes off the buffer and
    off the copy, sends at most the request it has parsed, and keeps its own
    variables in order. *)
Record job_effect (r : Running) (cn : Connection) (r' : option Running) (cn' : Connection) : Prop := {
  eff_take : ∃ m, (m ≤ length (c_input (cn_conn cn)))%nat ∧
    c_input (cn_conn cn') = drop m (c_input (cn_conn cn)) ∧
    ∀ r1, r' = Some r1 → l_buff (r_locals r1) = drop m (l_buff (r_locals r));
  eff_sent : ∀ x, x ∈ all_sent cn' → x ∈ all_sent cn ∨ request_of x (l_buff (r_locals r));
  eff_locals : ∀ r1, r' = Some r1 → locals_ok (r_pc r1) (r_locals r1);
}.

Lemma effect_same r cn r' cn' :
  cn_conn cn' = cn_conn cn ∨ c_input (cn_conn cn') = c_input (cn_conn cn) →
  all_sent cn' = all_sent cn →
  (∀ r1, r' = Some r1 →
     l_buff (r_locals r1) = l_buff (r_locals r) ∧ locals_ok (r_pc r1) (r_locals r1)) →
  job_effect r cn r' cn'.
Proof.
  intros Hin Hs Hr. assert (c_input (cn_conn cn') = c_input (cn_conn cn)) as E
    by (destruct Hin; congruence).
  split.
  - exists 0%nat. rewrite E, !drop_0. split; [lia|]. split; [done|]. intros r1 H1. by apply Hr.
  - rewrite Hs. auto.
  - intros r1 H1. by apply Hr.
Qed.

(** Taking the parsed request off both. *)
Lemma effect_take r l cn rest b :
  parsed l → r_locals r = l →
  Buffer_retrieve (l_info l).2 (c_input (cn_conn cn)) = Ret rest →
  erase_front (l_info l).2 (l_buff l) = Ret b →
  job_effect r cn (Some (taken l b)) (set_cn_conn (set_input rest (cn_conn cn)) cn).
Proof.
  intros (ctx & n & k & _ & _ & Hck & _) Hl [Hn ->]%(retrieves_inv _ _ _ _ Hret) [Hb ->]%erase_front_Ret.
  split; [|by auto|].
  - exists (Z.to_nat (l_info l).2). split; [lia|]. split; [done|]. intros ? [= <-]. by rewrite Hl.
  - intros ? [= <-]. simpl. left. by apply reset_new.
Qed.

Lemma parsed_request l :
  parsed l → 0 ≤ (l_info l).2 ≤ Z.of_nat (length (l_buff l)) →
  request_of (front (l_info l).2 (l_buff l)) (l_buff l).
Proof.
  intros (ctx & n & k & Hp & Ei & _) Hn. exists ctx. rewrite Ei in *. simpl in *.
  unfold front. rewrite length_take. split; [|by apply prefix_take].
  rewrite Hp. do 4 f_equal. lia.
Qed.

Lemma repeated_once_more k (m : bytes) :
  mjoin (replicate (S k) m) ++ m = mjoin (replicate (S (S k)) m).
Proof.
  induction k as [|k IH]; [simpl; by rewrite !app_nil_r|].
  change (mjoin (replicate (S (S ?k)) m)) with (m ++ mjoin (replicate (S k) m)).
  by rewrite <-app_assoc, IH.
Qed.

(** The condition of the loop leaves a parsed copy. *)
Lemma parse_parsed l hc n :
  l_context l = HttpContext_new ∨ parsed l →
  parseRequest (l_context l) (l_buff l) = Some (Ret (hc, (true, n))) →
  parsed (mkLocals false hc (true, n) (l_buff l)).
Proof.
  rewrite parse_carry. intros Hl Hp.
  destruct (parseRequest HttpContext_new (l_buff l)) as [[[c1 i1]|f]|] eqn:Hnew; simplify_eq/=.
  exists c1, n. destruct Hl as [->|(ctx & n' & k & Hp' & _ & Hck & Hk & Hu)].
  - exists 0%nat. simpl. by rewrite !app_nil_r.
  - exists (S k). rewrite Hnew in Hp'. simplify_eq. do 3 (split; [done|]).
    split; rewrite <-repeated_once_more; [by rewrite <-Hk|by rewrite <-Hu].
Qed.

(** No other method, repeated, is [GetMethod]. *)
Lemma repeated_get k m : mjoin (replicate (S k) m) = GetMethod → k = 0%nat.
Proof.
  destruct m as [|a [|b [|c m]]]; intros E; [exfalso|exfalso|exfalso|].
  - assert (mjoin (replicate (S k) ([] : bytes)) = []) as H by (induction k; naive_solver).
    by rewrite H in E.
  - destruct k as [|[|k]]; vm_compute in E; congruence.
  - destruct k as [|[|k]]; vm_compute in E; congruence.
  - destruct k as [|k]; [done|exfalso]. apply (f_equal length) in E. simpl in E.
    rewrite !length_app in E. simpl in E. lia.
Qed.

(** What a job looks up has been asked for by the first request of its copy. *)
Lemma parsed_get l :
  parsed l → getRequestMethod (l_context l) = GetMethod →
  ∃ ctx n, parseRequest HttpContext_new (l_buff l) = Some (Ret (ctx, (true, n))) ∧
    getRequestMethod ctx = GetMethod ∧ getRequestUrl ctx = getRequestUrl (l_context l).
Proof.
  intros (ctx & n & k & Hp & _ & _ & Hm & Hu) Hget. exists ctx, n. split; [done|].
  rewrite Hm in Hget. pose proof (repeated_get _ _ Hget) as ->.
  simpl in *. rewrite app_nil_r in *. by rewrite Hu.
Qed.

Lemma job_step_effect t r cn cs r' cn' cs' :
  locals_ok (r_pc r) (r_locals r) →
  job_step cache_read Buffer_retrieve t r cn cs = Ret (r', cn', cs') →
  job_effect r cn r' cn'.
Proof.
  intros Hok E. destruct r as [pc l]. unfold job_step in E.
  assert (∀ pc', locals_ok pc' l → job_effect (mkRunning pc l) cn (Some (mkRunning pc' l)) cn)
    as Hnext by (intros pc' Hpc; apply effect_same; [by left|done|by intros ? [= <-]]).
  destruct pc; cbn [r_pc r_locals locals_ok] in *;
    try (simplify_eq/=; apply effect_same; [by auto|done|by intros ? [= <-]]).
  - destruct (l_isCheck l) eqn:Hchk; [simplify_eq; by apply Hnext|].
    destruct (cn_connected cn); [|simplify_eq; by apply Hnext].
    apply bind_Ret_inv in E as ([c [ok n]] & Hp & E). simplify_eq.
    destruct (parseRequest _ _) as [o|] eqn:Hpr; simplify_eq/=.
    apply effect_same; [by left|done|]. intros ? [= <-]. simpl. split; [done|].
    destruct ok; [|done]. by apply parse_parsed.
  - case_decide as Hm; [|simplify_eq; by apply Hnext].
    apply bind_Ret_inv in E as ([cs1 content] & _ & E). simplify_eq. apply Hnext. by destruct content.
  - apply bind_Ret_inv in E as (rest & Hr & E). apply bind_Ret_inv in E as (b & Hb & E). simplify_eq.
    by apply effect_take; [apply Hok|..].
  - simplify_eq. apply Hnext. by case_match.
  - simplify_eq. apply effect_same; [by right|apply all_sent_setup|by intros ? [= <-]].
  - simplify_eq. apply effect_same; [by left|apply all_sent_update_tunnel|by intros ? [= <-]].
  - simplify_eq. apply Hnext. case_match; [done|]. simpl. destruct (l_isCheck l); auto.
  - case_match; [|done]. simplify_eq. by apply Hnext.
  - apply bind_Ret_inv in E as (e & _ & E). simplify_eq.
    apply effect_same; [by left|apply all_sent_update_tunnel|by intros ? [= <-]].
  - apply bind_Ret_inv in E as (u & _ & E). apply bind_Ret_inv in E as (v & Hv & E). simplify_eq.
    unfold in_vector in Hv. destruct (_ && _) eqn:Hn; [|done].
    apply andb_prop in Hn as [?%Z.leb_le ?%Z.leb_le].
    split; [exists 0%nat; by split; [lia|split; [done|intros ? [= <-]]]| |by intros ? [= <-]].
    intros x [Hx| ->]%all_sent_update_client; [by left|right]. by apply parsed_request.
  - apply bind_Ret_inv in E as (rest & Hr & E). apply bind_Ret_inv in E as (b & Hb & E).
    apply bind_Ret_inv in E as (u & _ & E). simplify_eq. by apply effect_take.
  - case_match; simplify_eq; [by apply Hnext|]. by apply effect_same; [left| |].
  - simplify_eq. apply effect_same; [|apply all_sent_erase|by intros ? [= <-]].
    left. unfold erase_entry. by destruct (cn_entry cn).
Qed.

End job_facts.

(** ** One callback *)

Lemma all_sent_insert k t cl t' cl' cn :
  cn_tunnels cn !! k = Some (t, cl) → c_sent cl' = c_sent cl →
  (<[k := (t', cl')]> (cn_tunnels cn)) ≫= (λ x, c_sent x.2) = all_sent cn.
Proof.
  unfold all_sent. revert k. induction (cn_tunnels cn) as [|[t1 cl1] ts IH]; intros [|k] Hk E;
    simpl in *; simplify_eq; [by rewrite E|]. f_equal. by apply IH.
Qed.

Lemma tunnel_callback_frame k e cn cn' :
  tunnel_callback k e cn = Some (Ret cn') →
  c_input (cn_conn cn') = c_input (cn_conn cn) ∧ all_sent cn' = all_sent cn ∧ cn_tunnels cn ≠ [].
Proof.
  unfold tunnel_callback, link_of. destruct (called e k cn); [|done].
  destruct (cn_tunnels cn !! k) as [[t cl]|] eqn:Hk; [|done]. cbn [mbind option_bind].
  destruct (tunnel_handle e _) as [[lk|f]|] eqn:He; intros; simplify_eq/=.
  apply tunnel_handle_frame in He as [Hs Hi]. simpl in *. split; [done|].
  split; [by eapply all_sent_insert|]. by intros E; rewrite E in Hk.
Qed.
