(* ===== verification/Pipeline.v ===== *)
(** * From the browser to the web server: I/O threads, the task ring, the pool

    Composes [TaskQueue], [ProxyServer] and [JobSteps]: the I/O threads of a
    worker, each with the [Producer] that [ProxyServer::threadInitCallback]
    means to give it, put a job into the ring for every message, and the
    threads of [MyThreadPool] take jobs out and run [solveOnMessage].  A step is
    one access of one thread to what they share; any number of connections,
    I/O threads and jobs of one connection interleave. *)

From S2P Require Import Prelude HttpContext TaskQueue Tunnel ProxyServer JobSteps.
From Stdlib Require Import Lia.

#[local] Open Scope Z_scope.

(** ** State *)

(** A browser's connection, the I/O thread that serves it, and all it has sent. *)
Record Client := mkClient {
  cl_io : nat;
  cl_conn : Connection;
  cl_received : bytes;                     (* ghost *)
}.

(** What an I/O thread is doing: nothing, about to call [onServerMessage], in
    [producer->write] with its copy, or in [onServerConnection] for a
    connection that is down. *)
Inductive io_pc :=
  | IoIdle
  | IoRead (name : bytes)
  | IoWrite (name b : bytes)
  | IoDown (name : bytes).

Record IoThread := mkIoThread {
  io_at : io_pc;
  io_messages : nat;                       (* ghost: messages so far *)
}.

(** I/O thread [i] writes through producer [i], pool thread [j] reads through
    consumer [j]; an entry of the ring is a [std::function], [None] the empty one. *)
Record Pipeline (CS : Type) := mkPipeline {
  pl_clients : gmap bytes Client;
  pl_pool : @Pool (option Job);
  pl_io : list IoThread;
  pl_jobs : list (option (bytes * Running));
  pl_cache : CS;
}.
Arguments mkPipeline {CS}.
Arguments pl_clients {CS}.
Arguments pl_pool {CS}.
Arguments pl_io {CS}.
Arguments pl_jobs {CS}.
Arguments pl_cache {CS}.

Section pipeline.
Context {CS : Type} (cache_read : nat → bytes → CS → outcome (CS * bytes)).
Context (Buffer_retrieve : Z → bytes → outcome bytes).
Abbreviation Pipe := (Pipeline CS).
Implicit Types s : Pipe.

Definition put_client (name : bytes) (c : Client) (s : Pipe) : Pipe :=
  mkPipeline (<[name := c]> (pl_clients s)) (pl_pool s) (pl_io s) (pl_jobs s) (pl_cache s).
Definition set_conn_of (name : bytes) (c : Client) (cn : Connection) (s : Pipe) : Pipe :=
  put_client name (mkClient (cl_io c) cn (cl_received c)) s.
Definition set_io (i : nat) (pc : io_pc) (n : nat) (s : Pipe) : Pipe :=
  mkPipeline (pl_clients s) (pl_pool s) (<[i := mkIoThread pc n]> (pl_io s)) (pl_jobs s) (pl_cache s).
Definition put_pool (p : @Pool (option Job)) (s : Pipe) : Pipe :=
  mkPipeline (pl_clients s) p (pl_io s) (pl_jobs s) (pl_cache s).
Definition set_job (j : nat) (r : option (bytes * Running)) (s : Pipe) : Pipe :=
  mkPipeline (pl_clients s) (pl_pool s) (pl_io s) (<[j := r]> (pl_jobs s)) (pl_cache s).
Definition set_cache (cs : CS) (s : Pipe) : Pipe :=
  mkPipeline (pl_clients s) (pl_pool s) (pl_io s) (pl_jobs s) cs.

(** The parts of the ring's state. *)
Definition on_ring (q : @CircleQueue (option Job)) (s : Pipe) : Pipe :=
  let x := pl_pool s in put_pool (mkPool q (producers x) (consumers x) (stored x) (delivered x)) s.
Definition on_producer (i : nat) (p : Producer) (s : Pipe) : Pipe :=
  let x := pl_pool s in
  put_pool (mkPool (ring x) (<[i := p]> (producers x)) (consumers x) (stored x) (delivered x)) s.
Definition on_consumer (j : nat) (c : Consumer) (s : Pipe) : Pipe :=
  let x := pl_pool s in
  put_pool (mkPool (ring x) (producers x) (<[j := c]> (consumers x)) (stored x) (delivered x)) s.
Definition on_stored (id : Z) (job : option Job) (s : Pipe) : Pipe :=
  let x := pl_pool s in
  put_pool (mkPool (ring x) (producers x) (consumers x) (<[id := job]> (stored x)) (delivered x)) s.
Definition on_delivered (id : Z) (job : option Job) (s : Pipe) : Pipe :=
  let x := pl_pool s in
  put_pool (mkPool (ring x) (producers x) (consumers x) (stored x) (delivered x ++ [(id, job)])) s.

(** A worker that has started [m] and [nio] I/O threads. *)
Definition Pipeline_new (m : @MyThreadPool (option Job)) (nio : nat) (cs : CS) : Pipe :=
  mkPipeline ∅ (mkPool (circleArray m) (replicate nio Producer_new) (threads m) ∅ [])
    (replicate nio (mkIoThread IoIdle 0)) ((λ _, None) <$> threads m) cs.

(** ** I/O threads *)

(** A new connection, served by I/O thread [i]. *)
Definition on_connect (name : bytes) (i : nat) (s : Pipe) : option Pipe :=
  match pl_clients s !! name, pl_io s !! i with
  | None, Some _ =>
      Some (put_client name (mkClient i Connection_new []) s)
  | _, _ => None
  end.

(** The thread of a connection, when it waits for events. *)
Definition idle_thread (c : Client) (s : Pipe) : option IoThread :=
  io ← pl_io s !! cl_io c;
  match io_at io with IoIdle => Some io | _ => None end.

(** [readFd] has appended [b] to the input buffer. *)
Definition on_bytes (name b : bytes) (s : Pipe) : option Pipe :=
  c ← pl_clients s !! name;
  io ← idle_thread c s;
  let cn := cl_conn c in
  if cn_connected cn && c_reading (cn_conn cn) && bool_decide (b ≠ []) then
    let cn := set_cn_conn (set_input (c_input (cn_conn cn) ++ b) (cn_conn cn)) cn in
    Some (set_io (cl_io c) (IoRead name) (S (io_messages io))
            (put_client name (mkClient (cl_io c) cn (cl_received c ++ b)) s))
  else None.

(** The browser has closed. *)
Definition on_down (name : bytes) (s : Pipe) : option Pipe :=
  c ← pl_clients s !! name;
  io ← idle_thread c s;
  if cn_connected (cl_conn c)
  then Some (set_io (cl_io c) (IoDown name) (io_messages io)
               (set_conn_of name c (disconnected (cl_conn c)) s))
  else None.

(** The next step of I/O thread [i]: the copy of [onServerMessage], the two
    halves of [Producer::write], or [onServerConnection]. *)
Definition io_step (i : nat) (s : Pipe) : option (outcome Pipe) :=
  io ← pl_io s !! i;
  let goto pc s := set_io i pc (io_messages io) s in
  match io_at io with
  | IoIdle => None
  | IoRead name =>
      c ← pl_clients s !! name;
      Some (Ret (goto (IoWrite name (c_input (cn_conn (cl_conn c)))) s))
  | IoWrite name b =>
      p ← producers (pl_pool s) !! i;
      if p_writableId p <=? p_curWriteId p then
        Some ('(q, p, ok) ← Producer_refill (ring (pl_pool s)) p;
              let s := on_producer i p (on_ring q s) in
              Ret (if (ok : bool) then s else goto IoIdle s))
      else
        let job := Some (mkJob name b) in
        let '(q, p') := Producer_store (ring (pl_pool s)) p job in
        Some (Ret (goto IoIdle (on_stored (p_curWriteId p) job (on_producer i p' (on_ring q s)))))
  | IoDown name =>
      c ← pl_clients s !! name;
      Some (Ret (goto IoIdle (set_conn_of name c (erase_entry (cl_conn c)) s)))
  end.

(** ** Pool threads *)

(** The next step of pool thread [j]: of the job it runs, or of
    [Consumer::read].  [None] while it waits for a block. *)
Definition pool_thread (j t : nat) (s : Pipe) : option (outcome Pipe) :=
  job ← pl_jobs s !! j;
  match job with
  | Some (name, r) =>
      c ← pl_clients s !! name;
      Some ('(r, cn, cs) ← job_step cache_read Buffer_retrieve t r (cl_conn c) (pl_cache s);
            Ret (set_job j ((name,.) <$> r) (set_cache cs (set_conn_of name c cn s))))
  | None =>
      c ← consumers (pl_pool s) !! j;
      if c_readableId c <=? c_readId c then
        '(q, c, _) ← Consumer_claim (ring (pl_pool s)) c;
        Some (Ret (on_consumer j c (on_ring q s)))
      else
        let '(c', v) := Consumer_fetch None (ring (pl_pool s)) c in
        Some (job ← (match v with Some job => Ret job | None => Fault BadFunctionCall end);
              Ret (set_job j (Some (job_conn job, job_start (job_buff job)))
                (on_delivered (c_readId c) (Some job) (on_consumer j c' s))))
  end.

(** ** Runs *)

Inductive pl_event :=
  | PlConnect (name : bytes) (i : nat)
  | PlBytes (name b : bytes)
  | PlDown (name : bytes)
  | PlTunnel (name : bytes) (k : nat) (e : tunnel_event)
  | PlIo (i : nat)
  | PlThread (j t : nat).

(** [None]: it cannot happen now; [Fault]: it stops the process. *)
Definition pl_exec (e : pl_event) (s : Pipe) : option (outcome Pipe) :=
  match e with
  | PlConnect name i => Ret <$> on_connect name i s
  | PlBytes name b => Ret <$> on_bytes name b s
  | PlDown name => Ret <$> on_down name s
  | PlTunnel name k e =>
      c ← pl_clients s !! name;
      o ← tunnel_callback k e (cl_conn c);
      Some (cn ← (o : outcome Connection); Ret (set_conn_of name c cn s))
  | PlIo i => io_step i s
  | PlThread j t => pool_thread j t s
  end.

Definition pl_step (s s' : Pipe) : Prop := ∃ e, pl_exec e s = Some (Ret s').

(** ** The steps, one by one *)

Inductive pl_view (s : Pipe) : pl_event → Pipe → Prop :=
  | view_connect name i io :
      pl_clients s !! name = None → pl_io s !! i = Some io →
      pl_view s (PlConnect name i) (put_client name (mkClient i Connection_new []) s)
  | view_bytes name b c io :
      pl_clients s !! name = Some c → pl_io s !! cl_io c = Some io → io_at io = IoIdle →
      pl_view s (PlBytes name b) (set_io (cl_io c) (IoRead name) (S (io_messages io))
        (put_client name (mkClient (cl_io c)
           (set_cn_conn (set_input (c_input (cn_conn (cl_conn c)) ++ b) (cn_conn (cl_conn c)))
              (cl_conn c)) (cl_received c ++ b)) s))
  | view_down name c io :
      pl_clients s !! name = Some c → pl_io s !! cl_io c = Some io → io_at io = IoIdle →
      pl_view s (PlDown name) (set_io (cl_io c) (IoDown name) (io_messages io)
        (set_conn_of name c (disconnected (cl_conn c)) s))
  | view_tunnel name k e c cn :
      pl_clients s !! name = Some c → tunnel_callback k e (cl_conn c) = Some (Ret cn) →
      pl_view s (PlTunnel name k e) (set_conn_of name c cn s)
  | view_copy i io name c :
      pl_io s !! i = Some io → io_at io = IoRead name → pl_clients s !! name = Some c →
      pl_view s (PlIo i) (set_io i (IoWrite name (c_input (cn_conn (cl_conn c)))) (io_messages io) s)
  | view_refill i io name b p q p' (ok : bool) :
      pl_io s !! i = Some io → io_at io = IoWrite name b →
      producers (pl_pool s) !! i = Some p → p_writableId p ≤ p_curWriteId p →
      Producer_refill (ring (pl_pool s)) p = Ret (q, p', ok) →
      let s' := on_producer i p' (on_ring q s) in
      pl_view s (PlIo i) (if ok then s' else set_io i IoIdle (io_messages io) s')
  | view_store i io name b p q p' :
      pl_io s !! i = Some io → io_at io = IoWrite name b →
      producers (pl_pool s) !! i = Some p → p_curWriteId p < p_writableId p →
      let job := Some (mkJob name b) in
      Producer_store (ring (pl_pool s)) p job = (q, p') →
      pl_view s (PlIo i) (set_io i IoIdle (io_messages io)
        (on_stored (p_curWriteId p) job (on_producer i p' (on_ring q s))))
  | view_erase i io name c :
      pl_io s !! i = Some io → io_at io = IoDown name → pl_clients s !! name = Some c →
      pl_view s (PlIo i) (set_io i IoIdle (io_messages io)
        (set_conn_of name c (erase_entry (cl_conn c)) s))
  | view_job j t name r c r' cn cs :
      pl_jobs s !! j = Some (Some (name, r)) → pl_clients s !! name = Some c →
      job_step cache_read Buffer_retrieve t r (cl_conn c) (pl_cache s) = Ret (r', cn, cs) →
      pl_view s (PlThread j t) (set_job j ((name,.) <$> r') (set_cache cs (set_conn_of name c cn s)))
  | view_claim j t c q c' ok :
      pl_jobs s !! j = Some None → consumers (pl_pool s) !! j = Some c →
      c_readableId c ≤ c_readId c → Consumer_claim (ring (pl_pool s)) c = Some (q, c', ok) →
      pl_view s (PlThread j t) (on_consumer j c' (on_ring q s))
  | view_fetch j t c c' job :
      pl_jobs s !! j = Some None → consumers (pl_pool s) !! j = Some c →
      c_readId c < c_readableId c → Consumer_fetch None (ring (pl_pool s)) c = (c', Some job) →
      pl_view s (PlThread j t) (set_job j (Some (job_conn job, job_start (job_buff job)))
        (on_delivered (c_readId c) (Some job) (on_consumer j c' s))).

Lemma idle_thread_at c s io :
  idle_thread c s = Some io → pl_io s !! cl_io c = Some io ∧ io_at io = IoIdle.
Proof.
  unfold idle_thread. destruct (pl_io s !! cl_io c) as [io0|]; [simpl|done].
  destruct (io_at io0) eqn:E; intros; by simplify_eq.
Qed.

Lemma io_step_view i s s' : io_step i s = Some (Ret s') → pl_view s (PlIo i) s'.
Proof.
  unfold io_step. intros E.
  destruct (pl_io s !! i) as [io|] eqn:Hi; [cbn [mbind option_bind] in E|done].
  destruct (io_at io) as [|name|name b|name] eqn:Hat; [done| | |].
  - destruct (pl_clients s !! name) as [c|] eqn:Hc; simplify_eq/=. by eapply view_copy.
  - destruct (producers (pl_pool s) !! i) as [p|] eqn:Hpi; [cbn [mbind option_bind] in E|done].
    destruct (Z.leb_spec (p_writableId p) (p_curWriteId p)) as [Hle|Hlt].
    + destruct (Producer_refill (ring (pl_pool s)) p) as [[[q1 p1] ok]|] eqn:Hr; [|done].
      injection E as <-. by eapply view_refill.
    + injection E as <-. by eapply view_store.
  - destruct (pl_clients s !! name) as [c|] eqn:Hc; simplify_eq/=. by eapply view_erase.
Qed.

Lemma pool_thread_view j t s s' : pool_thread j t s = Some (Ret s') → pl_view s (PlThread j t) s'.
Proof.
  unfold pool_thread. intros E.
  destruct (pl_jobs s !! j) as [[[name r]|]|] eqn:Hj; [| |done]; cbn [mbind option_bind] in E.
  - destruct (pl_clients s !! name) as [c|] eqn:Hc; [simpl in E|done]. injection E as E.
    apply bind_Ret_inv in E as ([[r' cn] cs] & E & E2). injection E2 as <-. by eapply view_job.
  - destruct (consumers (pl_pool s) !! j) as [c|] eqn:Hcj; [cbn [mbind option_bind] in E|done].
    destruct (Z.leb_spec (c_readableId c) (c_readId c)) as [Hle|Hlt].
    + destruct (Consumer_claim (ring (pl_pool s)) c) as [[[q1 c1] ok]|] eqn:Hcl; [|done].
      injection E as <-. by eapply view_claim.
    + simpl in E. destruct (CircleQueue_read None _ (c_readId c)) as [job|] eqn:Hv; [|done].
      injection E as <-. eapply view_fetch; [done..|]. unfold Consumer_fetch. by rewrite Hv.
Qed.

Lemma pl_exec_view e s s' : pl_exec e s = Some (Ret s') → pl_view s e s'.
Proof.
  intros E. destruct e as [name i|name b|name|name k e|i|j t]; simpl in E.
  - unfold on_connect in E. destruct (pl_clients s !! name) eqn:Hc; [done|].
    destruct (pl_io s !! i) eqn:Hi; simplify_eq/=. by eapply view_connect.
  - unfold on_bytes in E. destruct (pl_clients s !! name) as [c|] eqn:Hc; [simpl in E|done].
    destruct (idle_thread c s) as [io|] eqn:Hid; [simpl in E|done].
    apply idle_thread_at in Hid as [Hi Hat]. destruct (_ && _); simplify_eq/=. by eapply view_bytes.
  - unfold on_down in E. destruct (pl_clients s !! name) as [c|] eqn:Hc; [simpl in E|done].
    destruct (idle_thread c s) as [io|] eqn:Hid; [simpl in E|done].
    apply idle_thread_at in Hid as [Hi Hat].
    destruct (cn_connected _); simplify_eq/=. by eapply view_down.
  - destruct (pl_clients s !! name) as [c|] eqn:Hc; [simpl in E|done].
    destruct (tunnel_callback _ _ _) as [[cn|f]|] eqn:Ht; simplify_eq/=. by eapply view_tunnel.
  - by eapply io_step_view.
  - by eapply pool_thread_view.
Qed.
Lemma pl_step_view s s' : pl_step s s' → ∃ e, pl_view s e s'.
Proof. intros [e E]. exists e. by apply pl_exec_view. Qed.
End pipeline.
