(* ===== verification/Isolation.v ===== *)
(** * Requests stay with their connection

    Over [Pipeline]: the invariant of every reachable state -- who holds which
    bytes -- and the ring of the pipeline as a run of [TaskQueue]'s [Pool]. *)

From S2P Require Import Prelude HttpContext TaskQueue Tunnel ProxyServer JobSteps JobFacts Pipeline.
From Stdlib Require Import Lia.

#[local] Open Scope Z_scope.

(** ** What belongs to whom *)

Definition cl_input (c : Client) : bytes := c_input (cn_conn (cl_conn c)).
(** Nothing has been taken off its input buffer. *)
Definition untouched (c : Client) : Prop := cl_input c = cl_received c.

(** A job's copy of the buffer. *)
Definition copy_ok (c : Client) (b : bytes) : Prop :=
  part_of b (cl_received c) ∧ (untouched c → b `prefix_of` cl_received c).

Definition running_ok (c : Client) (r : Running) : Prop :=
  copy_ok c (l_buff (r_locals r)) ∧ locals_ok (r_pc r) (r_locals r).

(** A request sent for a connection: the first of some copy. *)
Definition sent_ok (c : Client) (r : bytes) : Prop :=
  ∃ b, request_of r b ∧ copy_ok c b.

Definition client_ok (c : Client) : Prop :=
  cl_input c `suffix_of` cl_received c ∧ Forall (sent_ok c) (all_sent (cl_conn c)).

(** What happens to a connection: it receives, and bytes are taken off it. *)
Definition evolves (c c' : Client) : Prop :=
  cl_io c' = cl_io c ∧ cl_received c `prefix_of` cl_received c' ∧ (untouched c' → untouched c).

#[export] Instance evolves_preorder : PreOrder evolves.
Proof.
  split; [by intros c|]. intros c1 c2 c3 (E1 & P1 & U1) (E2 & P2 & U2).
  split; [congruence|]. split; [by etrans|auto].
Qed.

Lemma copy_ok_evolves c c' b : evolves c c' → copy_ok c b → copy_ok c' b.
Proof.
  intros (_ & Hp & Hu) [H1 H2]. split; [by eapply part_of_prefix|]. intros H. etrans; [|done]. auto.
Qed.

Lemma sent_ok_evolves c c' r : evolves c c' → sent_ok c r → sent_ok c' r.
Proof. intros Hev (b & Hr & Hb). exists b. split; [done|by eapply copy_ok_evolves]. Qed.

Lemma running_ok_evolves c c' r : evolves c c' → running_ok c r → running_ok c' r.
Proof. intros Hev [H1 H2]. split; [by eapply copy_ok_evolves|done]. Qed.

Lemma sent_ok_part c r : sent_ok c r → framed r ∧ part_of r (cl_received c).
Proof.
  intros (b & Hr & [Hb _]). split; [by eapply request_of_framed|].
  destruct Hr as (_ & _ & Hr). eapply part_of_trans; [|done]. by apply prefix_part_of.
Qed.

(** ** One access of a job *)

Section client_facts.
Context {CS : Type} (cache_read : nat → bytes → CS → outcome (CS * bytes)).
Context (Buffer_retrieve : Z → bytes → outcome bytes) (Hret : retrieves Buffer_retrieve).

Lemma job_step_client t r c cs r' cn' cs' :
  running_ok c r → client_ok c →
  job_step cache_read Buffer_retrieve t r (cl_conn c) cs = Ret (r', cn', cs') →
  let c' := mkClient (cl_io c) cn' (cl_received c) in
  evolves c c' ∧ client_ok c' ∧ ∀ r1, r' = Some r1 → running_ok c' r1.
Proof.
  intros [Hcopy Hloc] [Hin Hsent] E c'.
  destruct (job_step_effect _ _ Hret _ _ _ _ _ _ _ Hloc E) as [(m & Hm & Hm' & Hbuff) Hs Hl].
  assert (untouched c' → m = 0%nat) as Hm0.
  { unfold untouched, cl_input. simpl. rewrite Hm'. intros Hu.
    apply suffix_length in Hin. unfold cl_input in Hin. rewrite <-Hu, length_drop in Hin. lia. }
  assert (evolves c c') as Hev.
  { split; [done|]. split; [done|]. intros Hu. pose proof (Hm0 Hu) as ->.
    unfold untouched, cl_input in *. simpl in Hu. by rewrite <-Hu, Hm'. }
  split; [done|]. split; [split|].
  - unfold cl_input. simpl. rewrite Hm'. etrans; [|exact Hin]. apply suffix_drop.
  - apply Forall_forall. intros x [Hx|Hx]%Hs.
    + eapply sent_ok_evolves; [done|]. by apply (proj1 (Forall_forall _ _) Hsent).
    + exists (l_buff (r_locals r)). split; [done|by eapply copy_ok_evolves].
  - intros r1 H1. split; [|by apply Hl]. rewrite (Hbuff r1 H1). destruct Hcopy as [Hpart Hpre]. split.
    + eapply part_of_trans; [apply part_of_drop|done].
    + intros Hu. rewrite (Hm0 Hu), drop_0. apply Hpre. by apply Hev.
Qed.
End client_facts.

(** ** The invariant of the whole *)

Section pipeline_facts.
Context {CS : Type} (cache_read : nat → bytes → CS → outcome (CS * bytes)).
Context (Buffer_retrieve : Z → bytes → outcome bytes) (Hret : retrieves Buffer_retrieve).
Implicit Types (c : Client) (s : Pipeline CS).

Abbreviation exec := (pl_exec cache_read Buffer_retrieve).
Abbreviation step := (pl_step cache_read Buffer_retrieve).

(** The connection [name] exists and satisfies [P]. *)
Definition with_client s (name : bytes) (P : Client → Prop) : Prop :=
  ∃ c, pl_clients s !! name = Some c ∧ P c.

(** A job of the connection has been taken out of the ring. *)
Definition served s (name : bytes) : Prop :=
  ∃ id job, (id, Some job) ∈ delivered (pl_pool s) ∧ job_conn job = name.

Definition io_ok s (i : nat) (pc : io_pc) : Prop :=
  match pc with
  | IoIdle => True
  | IoRead name | IoDown name => with_client s name (λ c, cl_io c = i)
  | IoWrite name b => with_client s name (λ c, cl_io c = i ∧ copy_ok c b)
  end.

Record pl_inv s : Prop := {
  inv_clients : ∀ name c, pl_clients s !! name = Some c →
    client_ok c ∧ (served s name ∨ cn_tunnels (cl_conn c) = [] ∧ untouched c);
  inv_slots : ∀ k job, circle_array (ring (pl_pool s)) !! k = Some (Some job) →
    with_client s (job_conn job) (λ c, copy_ok c (job_buff job));
  inv_io : ∀ i io, pl_io s !! i = Some io → io_ok s i (io_at io);
  inv_jobs : ∀ j name r, pl_jobs s !! j = Some (Some (name, r)) →
    with_client s name (λ c, running_ok c r) ∧ served s name;
}.

(** What a step leaves of the connections and of what was delivered. *)
Record extends s s' : Prop := {
  ext_clients : ∀ name c, pl_clients s !! name = Some c →
    with_client s' name (evolves c);
  ext_served : delivered (pl_pool s) `prefix_of` delivered (pl_pool s');
}.

#[export] Instance extends_preorder : PreOrder extends.
Proof.
  split.
  - intros s. split; [|done]. intros name c Hc. by exists c.
  - intros s1 s2 s3 [C1 D1] [C2 D2]. split; [|by etrans]. intros name c Hc.
    destruct (C1 name c Hc) as (c2 & H2 & E2). destruct (C2 name c2 H2) as (c3 & H3 & E3).
    exists c3. split; [done|]. by etrans.
Qed.

Lemma with_client_extends s s' name (P Q : Client → Prop) :
  extends s s' → (∀ c c', evolves c c' → P c → Q c') → with_client s name P → with_client s' name Q.
Proof.
  intros [Hc _] HPQ (c & H & HP). destruct (Hc name c H) as (c' & H' & Hev). exists c'. eauto.
Qed.

Lemma served_extends s s' name : extends s s' → served s name → served s' name.
Proof.
  intros [_ [k Hk]] (id & job & Hin & Hj). exists id, job. split; [|done]. rewrite Hk.
  apply elem_of_app. by left.
Qed.

Lemma copied_extends s s' name b :
  extends s s' → with_client s name (λ c, copy_ok c b) → with_client s' name (λ c, copy_ok c b).
Proof. intros He. apply with_client_extends; [done|]. intros c c'. apply copy_ok_evolves. Qed.

Lemma running_extends s s' name r :
  extends s s' → with_client s name (λ c, running_ok c r) → with_client s' name (λ c, running_ok c r).
Proof. intros He. apply with_client_extends; [done|]. intros c c'. apply running_ok_evolves. Qed.

Lemma io_ok_extends s s' i pc : extends s s' → io_ok s i pc → io_ok s' i pc.
Proof.
  intros He. destruct pc; simpl; [done|..]; (apply with_client_extends; [done|]);
    intros c c' Hev; pose proof Hev as (Hio & _); rewrite Hio; try done.
  intros [? ?]. split; [done|by eapply copy_ok_evolves].
Qed.

(** A step that changes one connection. *)
Lemma extends_client s s' name c c' :
  pl_clients s !! name = Some c → evolves c c' →
  pl_clients s' = <[name := c']> (pl_clients s) → pl_pool s' = pl_pool s → extends s s'.
Proof.
  intros Hc Hev Ec Ep. split; [|by rewrite Ep]. intros name1 c1 H1. unfold with_client. rewrite Ec.
  destruct (decide (name1 = name)) as [->|Hne].
  - exists c'. rewrite lookup_insert_eq. by simplify_eq.
  - exists c1. by rewrite lookup_insert_ne.
Qed.

Lemma extends_same s s' :
  pl_clients s' = pl_clients s → delivered (pl_pool s) `prefix_of` delivered (pl_pool s') → extends s s'.
Proof. intros Ec Hd. split; [|done]. intros name c Hc. exists c. by rewrite Ec. Qed.

(** What is the same as before is still in order. *)
Lemma pl_inv_extends s s' :
  pl_inv s → extends s s' →
  (∀ name c, pl_clients s' !! name = Some c → pl_clients s !! name = Some c ∨
     client_ok c ∧ (served s' name ∨ cn_tunnels (cl_conn c) = [] ∧ untouched c)) →
  (∀ k job, circle_array (ring (pl_pool s')) !! k = Some (Some job) →
     circle_array (ring (pl_pool s)) !! k = Some (Some job) ∨
     with_client s' (job_conn job) (λ c, copy_ok c (job_buff job))) →
  (∀ i io, pl_io s' !! i = Some io →
     pl_io s !! i = Some io ∨ io_ok s' i (io_at io)) →
  (∀ j name r, pl_jobs s' !! j = Some (Some (name, r)) →
     pl_jobs s !! j = Some (Some (name, r)) ∨
     with_client s' name (λ c, running_ok c r) ∧ served s' name) →
  pl_inv s'.
Proof.
  intros [Hc Hs Hi Hj] He Hc' Hs' Hi' Hj'. split.
  - intros name c [H|H]%Hc'; [|done]. destruct (Hc name c H) as [? [?|?]]; [|by auto].
    split; [done|]. left. by eapply served_extends.
  - intros k job [H|H]%Hs'; [|done]. eapply copied_extends; [done|by eapply Hs].
  - intros i io [H|H]%Hi'; [|done]. eapply io_ok_extends; [done|by apply Hi].
  - intros j name r [H|H]%Hj'; [|done]. destruct (Hj j name r H).
    split; [by eapply running_extends|by eapply served_extends].
Qed.

(** One connection changes, and perhaps the thread that serves it. *)
Lemma inv_put_client s s' name c c' :
  pl_inv s → pl_clients s !! name = Some c → evolves c c' → client_ok c' →
  (served s name ∨ cn_tunnels (cl_conn c') = [] ∧ untouched c') →
  pl_clients s' = <[name := c']> (pl_clients s) → pl_pool s' = pl_pool s →
  (∀ i io, pl_io s' !! i = Some io →
     pl_io s !! i = Some io ∨ io_ok s' i (io_at io)) →
  (∀ j name r, pl_jobs s' !! j = Some (Some (name, r)) →
     pl_jobs s !! j = Some (Some (name, r)) ∨
     with_client s' name (λ c, running_ok c r) ∧ served s' name) →
  pl_inv s'.
Proof.
  intros Hinv Hc Hev Hok Hserv Ec Ep Hio Hjobs.
  pose proof (extends_client s s' name c c' Hc Hev Ec Ep) as He.
  apply (pl_inv_extends s s'); [done|done| | |done|done].
  - intros name1 c1. rewrite Ec. intros [[<- <-]|[Hne H]]%lookup_insert_Some; [right|by left].
    split; [done|]. destruct Hserv as [Hserv|?]; [left; by eapply served_extends|by right].
  - rewrite Ep. by left.
Qed.

(** Only the threads or the ring change. *)
Lemma inv_same_clients s s' :
  pl_inv s → pl_clients s' = pl_clients s →
  delivered (pl_pool s) `prefix_of` delivered (pl_pool s') →
  (∀ k job, circle_array (ring (pl_pool s')) !! k = Some (Some job) →
     circle_array (ring (pl_pool s)) !! k = Some (Some job) ∨
     with_client s' (job_conn job) (λ c, copy_ok c (job_buff job))) →
  (∀ i io, pl_io s' !! i = Some io →
     pl_io s !! i = Some io ∨ io_ok s' i (io_at io)) →
  (∀ j name r, pl_jobs s' !! j = Some (Some (name, r)) →
     pl_jobs s !! j = Some (Some (name, r)) ∨
     with_client s' name (λ c, running_ok c r) ∧ served s' name) →
  pl_inv s'.
Proof.
  intros Hinv Ec Hd Hr Hio Hjobs. apply (pl_inv_extends s s'); try done.
  - by apply extends_same.
  - intros name c. rewrite Ec. by left.
Qed.

(** An I/O thread goes on. *)
Lemma io_insert (l : list IoThread) i pc n j io (P : Prop) :
  <[i := mkIoThread pc n]> l !! j = Some io →
  (j = i → io_at io = pc → P) → l !! j = Some io ∨ P.
Proof. intros [(-> & <- & _)|[_ H]]%list_lookup_insert_Some HP; [right; by apply HP|by left]. Qed.

Lemma job_insert {A} (l : list (option A)) j r k x (P : Prop) :
  <[j := r]> l !! k = Some (Some x) → (r = Some x → P) → (l !! k = Some (Some x)) ∨ P.
Proof. intros [(_ & H & _)|[_ H]]%list_lookup_insert_Some HP; [right; by apply HP|by left]. Qed.

Lemma evolves_same c cn :
  c_input (cn_conn cn) = cl_input c → evolves c (mkClient (cl_io c) cn (cl_received c)).
Proof.
  intros E. split; [done|]. split; [done|]. unfold untouched, cl_input in *. simpl. by rewrite E.
Qed.

Lemma client_ok_same c cn :
  c_input (cn_conn cn) = cl_input c → all_sent cn = all_sent (cl_conn c) →
  client_ok c → client_ok (mkClient (cl_io c) cn (cl_received c)).
Proof.
  intros Hi Hs [Hin Hsent]. pose proof (evolves_same c cn Hi) as Hev. split.
  - unfold cl_input in *. simpl. by rewrite Hi.
  - simpl. rewrite Hs. eapply Forall_impl; [exact Hsent|]. intros x. by apply sent_ok_evolves.
Qed.

(** ** Every event preserves it *)

Lemma connect_inv name i s :
  pl_inv s → pl_clients s !! name = None → pl_inv (put_client name (mkClient i Connection_new []) s).
Proof.
  intros Hinv Hn. apply (pl_inv_extends s); [done| | |by left..].
  - split; [|done]. intros name1 c1 H1. exists c1. simpl. by rewrite lookup_insert_ne by congruence.
  - simpl. intros name1 c1 [[<- <-]|[_ H]]%lookup_insert_Some; [right|by left].
    split; [by split; [done|constructor]|by right].
Qed.

Lemma bytes_inv name b c n s :
  pl_inv s → pl_clients s !! name = Some c →
  let cn := set_cn_conn (set_input (c_input (cn_conn (cl_conn c)) ++ b) (cn_conn (cl_conn c)))
              (cl_conn c) in
  pl_inv (set_io (cl_io c) (IoRead name) n
            (put_client name (mkClient (cl_io c) cn (cl_received c ++ b)) s)).
Proof.
  intros Hinv Hc cn. destruct (inv_clients _ Hinv name c Hc) as [[Hin Hsent] Hserv].
  set (c' := mkClient (cl_io c) cn (cl_received c ++ b)).
  assert (evolves c c') as Hev.
  { split; [done|]. split; [by eexists|]. unfold untouched, cl_input. simpl. by apply app_inj_2. }
  apply (inv_put_client s _ name c c'); [done..| | |done|done| |by left].
  - split; [|eapply Forall_impl; [exact Hsent|]; intros x; by apply sent_ok_evolves].
    destruct Hin as [tk Hin]. exists tk. unfold cl_input in *. simpl. by rewrite Hin, app_assoc.
  - destruct Hserv as [?|[Ht Hu]]; [by left|right]. split; [done|].
    unfold untouched, cl_input in *. simpl. by rewrite Hu.
  - intros i io1 H. eapply io_insert; [exact H|]. intros -> ->. exists c'.
    split; [apply lookup_insert_eq|done].
Qed.

Lemma set_conn_inv name c cn s :
  pl_inv s → pl_clients s !! name = Some c →
  c_input (cn_conn cn) = cl_input c → all_sent cn = all_sent (cl_conn c) →
  (cn_tunnels (cl_conn c) = [] → cn_tunnels cn = []) →
  pl_inv (set_conn_of name c cn s).
Proof.
  intros Hinv Hc Hi Hs Ht. destruct (inv_clients _ Hinv name c Hc) as [Hok Hserv].
  pose proof (evolves_same c cn Hi) as Hev.
  apply (inv_put_client s _ name c (mkClient (cl_io c) cn (cl_received c))); try by auto.
  - by apply client_ok_same.
  - destruct Hserv as [?|[? Hu]]; [by left|right]. split; [by apply Ht|].
    unfold untouched, cl_input in *. simpl. by rewrite Hi.
Qed.

Lemma set_io_inv i pc n s : pl_inv s → io_ok s i pc → pl_inv (set_io i pc n s).
Proof.
  intros Hinv Hok. apply (inv_same_clients s); [done..|by left| |by left].
  intros k io H. eapply io_insert; [exact H|]. by intros -> ->.
Qed.

Lemma erase_inv name c s :
  pl_inv s → pl_clients s !! name = Some c → pl_inv (set_conn_of name c (erase_entry (cl_conn c)) s).
Proof.
  intros Hinv Hc. apply set_conn_inv; [done|done| |apply all_sent_erase|];
    unfold erase_entry, cl_input; destruct (cn_entry _); try done.
  simpl. by intros ->.
Qed.

(** A step of an I/O thread in the ring: the slots hold old entries and its own. *)
Lemma ring_inv i name b s s' :
  pl_inv s → pl_clients s' = pl_clients s → pl_io s' = pl_io s → pl_jobs s' = pl_jobs s →
  delivered (pl_pool s') = delivered (pl_pool s) →
  (∀ k job, circle_array (ring (pl_pool s')) !! k = Some (Some job) →
     circle_array (ring (pl_pool s)) !! k = Some (Some job) ∨ job = mkJob name b) →
  io_ok s i (IoWrite name b) → pl_inv s'.
Proof.
  intros Hinv Ec Ei Ej Hd Hr Hio. apply (inv_same_clients s); [done|done|by rewrite Hd| |..].
  - intros k job [H| ->]%Hr; [by left|right]. destruct Hio as (c & Hc & _ & Hb). exists c.
    by rewrite Ec.
  - rewrite Ei. by left.
  - rewrite Ej. by left.
Qed.

Lemma job_inv j name r c r' cn cs t s :
  pl_inv s → pl_jobs s !! j = Some (Some (name, r)) → pl_clients s !! name = Some c →
  job_step cache_read Buffer_retrieve t r (cl_conn c) (pl_cache s) = Ret (r', cn, cs) →
  pl_inv (set_job j ((name,.) <$> r') (set_cache cs (set_conn_of name c cn s))).
Proof.
  intros Hinv Hj Hc E. destruct (inv_jobs _ Hinv j name r Hj) as [(c0 & Hc0 & Hrun) Hserv].
  simplify_eq. destruct (inv_clients _ Hinv name c Hc) as [Hok _].
  eapply job_step_client in E as (Hev & Hok' & Hrun'); [|done..].
  eapply (inv_put_client s _ name c); [done|done|exact Hev|done|by left|done|done|by left|].
  intros k name1 r1 H. eapply job_insert; [exact H|]. intros Hr.
  destruct r' as [r2|]; simplify_eq/=. split; [|exact Hserv].
  eexists. split; [apply lookup_insert_eq|]. by apply Hrun'.
Qed.

Lemma read_slot (q : @CircleQueue (option Job)) id job :
  CircleQueue_read None q id = Some job → circle_array q !! slot q id = Some (Some job).
Proof. unfold CircleQueue_read. destruct (_ !! _); simpl; [by intros ->|done]. Qed.

Lemma fetch_inv j rd rd' job s :
  pl_inv s → Consumer_fetch None (ring (pl_pool s)) rd = (rd', Some job) →
  pl_inv (set_job j (Some (job_conn job, job_start (job_buff job)))
    (on_delivered (c_readId rd) (Some job) (on_consumer j rd' s))).
Proof.
  intros Hinv E. unfold Consumer_fetch in E. injection E as _ Hv.
  destruct (inv_slots _ Hinv _ job (read_slot _ _ _ Hv)) as (cl & Hcl & Hcopy).
  unfold on_delivered, on_consumer. destruct (pl_pool s) as [q ps cs w d] eqn:Hp.
  apply (inv_same_clients s); simpl; rewrite ?Hp; [done|done|by eexists|by left|by left|].
  intros k name1 r1 H. eapply job_insert; [exact H|]. intros [= <- <-]. split.
  - exists cl. split; [done|]. split; [done|]. by left.
  - exists (c_readId rd), job. split; [|done]. simpl. apply elem_of_app. right. by left.
Qed.

Lemma pl_step_inv s s' : pl_inv s → step s s' → pl_inv s'.
Proof.
  intros Hinv Hstep. apply pl_step_view in Hstep as [ev Hstep]. destruct Hstep as
    [name i io Hn _|name b c io Hc _ _|name c io Hc _ _|name k e c cn Hc Ht|i io name c Hi Hat Hc
    |i io name b p q p' ok Hi Hat _ _ Hr s'|i io name b p q p' Hi Hat _ _ job Hst
    |i io name c Hi Hat Hc|j t name r c r' cn cs Hj Hc E|j t c q c' ok _ _ _ Hcl|j t c c' job _ _ _ Hf].
  - by apply connect_inv.
  - by apply bytes_inv.
  - apply set_io_inv; [by apply set_conn_inv|]. eexists. split; [apply lookup_insert_eq|done].
  - apply tunnel_callback_frame in Ht as (Hi & Hs & Hne). by apply set_conn_inv.
  - pose proof (inv_io _ Hinv i io Hi) as Hio. rewrite Hat in Hio. destruct Hio as (c0 & Hc0 & Hcl).
    simplify_eq. apply set_io_inv; [done|]. exists c. split; [done|]. split; [done|].
    destruct (inv_clients _ Hinv name c Hc) as [[Hin _] _]. split; [by apply suffix_part_of|].
    intros Hu. by rewrite <-Hu.
  - pose proof (inv_io _ Hinv i io Hi) as Hio. rewrite Hat in Hio. apply Producer_refill_array in Hr.
    assert (pl_inv s') as Hinv'; [|destruct ok; [done|by apply set_io_inv]].
    apply (ring_inv i name b s); [done..| |done]. simpl. rewrite Hr. by left.
  - pose proof (inv_io _ Hinv i io Hi) as Hio. rewrite Hat in Hio. injection Hst as <- <-.
    apply set_io_inv; [|done]. apply (ring_inv i name b s); [done..| |done].
    simpl. intros k job1 [[_ [= <-]]|[_ H]]%lookup_insert_Some; [by right|by left].
  - apply set_io_inv; [|done]. by apply erase_inv.
  - by eapply job_inv.
  - apply Consumer_claim_array in Hcl.
    apply (inv_same_clients s); simpl; [done..| |by left|by left]. rewrite Hcl. by left.
  - by apply fetch_inv.
Qed.

Lemma Pipeline_new_inv m nio cs :
  circle_array (circleArray m) = ∅ → pl_inv (Pipeline_new m nio cs).
Proof.
  intros Hm. split; simpl.
  - intros name c Hc. by rewrite lookup_empty in Hc.
  - intros k job Hk. by rewrite Hm in Hk.
  - by intros i io (-> & _)%lookup_replicate.
  - intros j name r. rewrite list_lookup_fmap. by destruct (threads m !! j).
Qed.

Lemma pl_reachable_inv m nio cs s :
  circle_array (circleArray m) = ∅ → rtc step (Pipeline_new m nio cs) s → pl_inv s.
Proof.
  intros Hm. apply (rtc_ind_r pl_inv); [by apply Pipeline_new_inv|].
  intros s1 s2 _ Hstep Hinv. by eapply pl_step_inv.
Qed.

(** ** The ring of the pipeline is a [Pool] *)

Lemma pl_step_pool s s' :
  step s s' → pl_pool s' = pl_pool s ∨ pool_step None (pl_pool s) (pl_pool s').
Proof.
  intros Hstep. apply pl_step_view in Hstep as [ev Hstep]. destruct Hstep as
    [| | | | |i io name b p q p' ok Hi Hat Hp Hle Hr s'|i io name b p q p' Hi Hat Hp Hlt job Hst
    | | |j t c q c' ok _ Hc Hle Hcl|j t c c' job _ Hc Hlt Hf]; try by left.
  all: right; unfold on_producer, on_ring, on_stored, on_consumer, on_delivered in *;
    destruct (pl_pool s) as [q0 ps cs w d] eqn:Hpool; simpl in *.
  - replace (pl_pool _) with (mkPool q (<[i := p']> ps) cs w d) by by destruct ok.
    by eapply pool_refill.
  - by eapply pool_store.
  - by eapply pool_claim.
  - by eapply pool_fetch.
Qed.
End pipeline_facts.

(** The pool as [MyThreadPool::start] makes it: nothing written, every thread
    with a fresh consumer. *)
Record fresh_pool (m : @MyThreadPool (option Job)) : Prop := {
  fresh_wf : queue_wf (circleArray m);
  fresh_writeId : writeId (circleArray m) = 0;
  fresh_readable : readable_queue (circleArray m) = [];
  fresh_array : circle_array (circleArray m) = ∅;
  fresh_threads : threads m = replicate (length (threads m)) Consumer_new;
}.

Lemma fresh_start : fresh_pool (MyThreadPool_start MyThreadPool_new).
Proof. split; [apply CircleQueue_new_wf|done..]. Qed.

Lemma Pool_new_producers {T} (dflt : T) q n :
  rtc (pool_step dflt) (Pool_new q) (mkPool q (replicate n Producer_new) [] ∅ []).
Proof.
  induction n as [|n IH]; [done|]. eapply rtc_r; [exact IH|].
  rewrite replicate_S_end. constructor.
Qed.

Lemma Pool_new_consumers {T} (dflt : T) q n k :
  rtc (pool_step dflt) (Pool_new q)
    (mkPool q (replicate n Producer_new) (replicate k Consumer_new) ∅ []).
Proof.
  induction k as [|k IH]; [apply Pool_new_producers|]. eapply rtc_r; [exact IH|].
  rewrite (replicate_S_end k). constructor.
Qed.

Section pipeline_runs.
Context {CS : Type} (cache_read : nat → bytes → CS → outcome (CS * bytes)).
Context (Buffer_retrieve : Z → bytes → outcome bytes).
Context (m : @MyThreadPool (option Job)) (nio : nat) (cs : CS) (Hm : fresh_pool m).
Implicit Types s : Pipeline CS.

Lemma pl_reachable_pool s :
  rtc (pl_step cache_read Buffer_retrieve) (Pipeline_new m nio cs) s →
  rtc (pool_step None) (Pool_new (circleArray m)) (pl_pool s).
Proof.
  apply (rtc_ind_r (λ s, rtc (pool_step None) (Pool_new (circleArray m)) (pl_pool s))).
  - simpl. rewrite (fresh_threads _ Hm). apply Pool_new_consumers.
  - intros s1 s2 _ [->|Hstep]%pl_step_pool IH; [done|]. by eapply rtc_r.
Qed.

(** On the first lap the ring keeps its invariant. *)
Lemma pl_reachable_ring s :
  rtc (pl_step cache_read Buffer_retrieve) (Pipeline_new m nio cs) s →
  try_size (ring (pl_pool s)) = try_size (circleArray m) ∧
  (first_lap (ring (pl_pool s)) → pool_inv None (pl_pool s)).
Proof.
  intros Hr%pl_reachable_pool. by apply (pool_reachable_inv None (circleArray m)); try apply Hm.
Qed.
End pipeline_runs.

(** ** Properties *)

(** C1. Requests are not mixed up.  Any number of connections, I/O threads and
    jobs of one connection may interleave, access by access, and the cache may
    answer what it likes: whatever is sent to the web server over a tunnel of a
    connection is one whole request for [parseRequest], made of consecutive bytes
    that this connection's browser has sent; a job works on such bytes of its own
    connection; and what is left in the connection's input buffer is the end of
    what was received. (Each I/O thread has the producer [threadInitCallback] is
    meant to give it; as the program is, none has one, [requests_never_queued].) *)
Theorem requests_not_mixed {CS} (cache_read : nat → bytes → CS → outcome (CS * bytes))
    (Buffer_retrieve : Z → bytes → outcome bytes) (m : @MyThreadPool (option Job)) (nio : nat)
    (cs : CS) (s : Pipeline CS) (name : bytes) (c : Client) :
  retrieves Buffer_retrieve →
  fresh_pool m → rtc (pl_step cache_read Buffer_retrieve) (Pipeline_new m nio cs) s →
  pl_clients s !! name = Some c →
  (∀ k t cl r, cn_tunnels (cl_conn c) !! k = Some (t, cl) → r ∈ c_sent cl →
     framed r ∧ part_of r (cl_received c)) ∧
  (∀ j r, pl_jobs s !! j = Some (Some (name, r)) → part_of (l_buff (r_locals r)) (cl_received c)) ∧
  cl_input c `suffix_of` cl_received c.
Proof.
  intros Hret Hm Hreach Hc.
  assert (pl_inv s) as Hinv by (eapply pl_reachable_inv; [done|apply (fresh_array _ Hm)|done]).
  destruct (inv_clients _ Hinv name c Hc) as [[Hin Hsent] _]. split; [|split; [|done]].
  - intros k t cl r Hk Hr. apply sent_ok_part. apply (proj1 (Forall_forall _ _) Hsent).
    apply list_elem_of_bind. exists (t, cl). split; [done|]. by eapply list_elem_of_lookup_2.
  - intros j r Hj. destruct (inv_jobs _ Hinv j name r Hj) as [(c1 & Hc1 & [Hcopy _] & _) _].
    by simplify_eq.
Qed.

(** ** Witness *)

Fixpoint pl_run {CS} (cache_read : nat → bytes → CS → outcome (CS * bytes))
    (Buffer_retrieve : Z → bytes → outcome bytes) (es : list pl_event) (s : Pipeline CS)
    : option (Pipeline CS) :=
  match es with
  | [] => Some s
  | e :: es =>
      match pl_exec cache_read Buffer_retrieve e s with
      | Some (Ret s) => pl_run cache_read Buffer_retrieve es s
      | _ => None
      end
  end.

Lemma pl_run_steps {CS} (cache_read : nat → bytes → CS → outcome (CS * bytes)) Buffer_retrieve es s s' :
  pl_run cache_read Buffer_retrieve es s = Some s' →
  rtc (pl_step cache_read Buffer_retrieve) s s'.
Proof.
  revert s. induction es as [|e es IH]; intros s E; simpl in E; [by simplify_eq|].
  destruct (pl_exec _ _ e s) as [[s1|f]|] eqn:He; [|done..].
  eapply rtc_l; [by exists e|by apply IH].
Qed.

Lemma sample_retrieves : retrieves sample_retrieve.
Proof. done. Qed.

(** A ring of eight slots granted two at a time, and four threads. *)
Definition small_pool : @MyThreadPool (option Job) :=
  mkMyThreadPool true (mkCircleQueue 8 ∅ [] 2 0) (replicate 4 Consumer_new).

Lemma small_pool_fresh : fresh_pool small_pool.
Proof. by split; [split; vm_compute|..]. Qed.

(** A new connection of I/O thread 0 that sends one request; [n] steps to queue it. *)
Definition one_message (name : bytes) (n : nat) : list pl_event :=
  [PlConnect name 0; PlBytes name sample_job] ++ replicate n (PlIo 0).
(** Three of them, so that the first two can be taken out. *)
Definition three_messages : list pl_event :=
  one_message (str "a") 3 ++ one_message (str "b") 2 ++ one_message (str "c") 3.
(** Thread 0 makes a tunnel for the first, and forwards when it is up. *)
Definition first_forwarded : list pl_event :=
  three_messages ++ replicate 8 (PlThread 0 0) ++ [PlTunnel (str "a") 0 EvUp]
    ++ replicate 7 (PlThread 0 0).

Definition small_start : Pipeline unit := Pipeline_new small_pool 1 ().
Definition is_forwarded (s : Pipeline unit) : bool :=
  match pl_clients s !! str "a" with
  | Some c => bool_decide (all_sent (cl_conn c) = [sample_job])
  | None => false
  end.

Lemma requests_not_mixed_witness :
  ∃ s c, rtc (pl_step no_cache sample_retrieve) small_start s ∧
    pl_clients s !! str "a" = Some c ∧ sample_job ∈ all_sent (cl_conn c) ∧
    framed sample_job ∧ part_of sample_job (cl_received c).
Proof.
  destruct (pl_run no_cache sample_retrieve first_forwarded small_start) as [s|] eqn:E.
  2: { exfalso. revert E. vm_compute. discriminate. }
  assert (is_forwarded s = true) as Hs.
  { assert (is_forwarded <$> pl_run no_cache sample_retrieve first_forwarded small_start = Some true)
      as H by (vm_compute; reflexivity). rewrite E in H. by injection H. }
  unfold is_forwarded in Hs. destruct (pl_clients s !! str "a") as [c|] eqn:Hc; [|discriminate Hs].
  apply bool_decide_eq_true in Hs. pose proof (pl_run_steps _ _ _ _ _ E) as Hreach.
  assert (sample_job ∈ all_sent (cl_conn c)) as Hin by (rewrite Hs; by left).
  exists s, c. split; [exact Hreach|]. split; [exact Hc|]. split; [exact Hin|].
  apply list_elem_of_bind in Hin as ([t cl] & Hr & (k & Hk)%list_elem_of_lookup).
  apply (proj1 (requests_not_mixed no_cache sample_retrieve small_pool 1 () s (str "a") c
    sample_retrieves small_pool_fresh Hreach Hc) k t cl sample_job Hk Hr).
Defined.
