(* ===== verification/Answers.v ===== *)
(** * What a browser hears

    Over [Pipeline]: the invariant of every reachable state that says where each
    byte sent to a browser comes from -- a lookup in the cache for the URL of a
    request of the same browser -- and that nothing is ever cached. *)

From S2P Require Import Prelude HttpContext TaskQueue Tunnel ProxyServer.
From S2P Require Import JobSteps JobFacts Pipeline Isolation.

#[local] Open Scope Z_scope.

Section answers.
Context {CS : Type} (cache_read : nat → bytes → CS → outcome (CS * bytes)).
Context (Buffer_retrieve : Z → bytes → outcome bytes) (Hret : retrieves Buffer_retrieve).
Context (cs0 : CS).
Implicit Types (c : Client) (s : Pipeline CS).

Abbreviation step := (pl_step cache_read Buffer_retrieve).

(** One lookup, and what it leaves of the cache. *)
Definition looks_up (cs cs' : CS) : Prop := ∃ t url content, cache_read t url cs = Ret (cs', content).

(** A cache that nobody writes had [content] for [url]. *)
Definition found (url content : bytes) : Prop :=
  content ≠ [] ∧ ∃ t cs cs', rtc looks_up cs0 cs ∧ cache_read t url cs = Ret (cs', content).

(** Consecutive bytes of the browser begin with a request to get [url]. *)
Definition asked_for c (url : bytes) : Prop :=
  ∃ b ctx n, part_of b (cl_received c) ∧
    parseRequest HttpContext_new b = Some (Ret (ctx, (true, n))) ∧
    getRequestMethod ctx = GetMethod ∧ getRequestUrl ctx = url.

Definition answer_for c (x : bytes) : Prop :=
  ∃ url content, asked_for c url ∧ found url content ∧ x = createResponse content.

Definition heard_ok c : Prop :=
  Forall (answer_for c) (c_sent (cn_conn (cl_conn c))) ∧ cn_cached (cl_conn c) = [].

(** A job that is about to answer has looked it up. *)
Definition holds_answer (r : Running) : Prop :=
  ∀ content, r_pc r = JSend content → found (getRequestUrl (l_context (r_locals r))) content.

Record answers_inv s : Prop := {
  inv_heard : ∀ name c, pl_clients s !! name = Some c → heard_ok c;
  inv_answers : ∀ j name r, pl_jobs s !! j = Some (Some (name, r)) → holds_answer r;
  inv_cache : rtc looks_up cs0 (pl_cache s);
}.

(** ** One access, one callback *)

(** An access that sends nothing and looks nothing up. *)
#[local] Ltac stays :=
  simplify_eq/=; split; [by left|]; split; [done|]; split; [done|];
  intros ? [= <-] ?; simpl; try done; by case_match.

(** What one access of a job does to the browser's connection and to the cache. *)
Lemma job_step_answers t r cn cs r' cn' cs' :
  rtc looks_up cs0 cs →
  job_step cache_read Buffer_retrieve t r cn cs = Ret (r', cn', cs') →
  (c_sent (cn_conn cn') = c_sent (cn_conn cn) ∨ ∃ content, r_pc r = JSend content ∧
     c_sent (cn_conn cn') = c_sent (cn_conn cn) ++ [createResponse content]) ∧
  cn_cached cn' = cn_cached cn ∧ rtc looks_up cs0 cs' ∧ (∀ r1, r' = Some r1 → holds_answer r1).
Proof.
  intros Hcs E. destruct r as [pc l]. unfold job_step in E. cbn [r_pc r_locals] in E.
  destruct pc.
  - destruct (l_isCheck l); [by stays|]. destruct (cn_connected cn); [|by stays].
    apply bind_Ret_inv in E as ([c1 [[] n]] & _ & E); by stays.
  - case_decide; [|by stays].
    apply bind_Ret_inv in E as ([cs1 content] & Hread & E).
    assert (rtc looks_up cs0 cs1) as Hcs1 by (eapply rtc_r; [done|by eexists _, _, _]).
    destruct content as [|a content]; [by stays|]. simplify_eq.
    split; [by left|]. do 2 (split; [done|]). intros r1 [= <-] content' [= <-].
    split; [done|]. eauto 6.
  - simplify_eq. split; [right; by eexists|]. do 2 (split; [done|]). by intros r1 [= <-] ?.
  - do 2 apply bind_Ret_inv in E as (? & _ & E). by stays.
  - by destruct (negb _ && _); stays.
  - by stays.
  - by stays.
  - by stays.
  - by destruct (c_context _); stays.
  - destruct (c_context _); [by stays|done].
  - apply bind_Ret_inv in E as (? & _ & E). by stays.
  - do 2 apply bind_Ret_inv in E as (? & _ & E). by stays.
  - by stays.
  - do 3 apply bind_Ret_inv in E as (? & _ & E). by stays.
  - case_match; [by stays|]. by simplify_eq; split; [left|].
  - unfold erase_entry in E. destruct (cn_entry _); by stays.
  - by simplify_eq; split; [left|].
Qed.

Lemma tunnel_handle_silent e k k' :
  tunnel_handle e k = Some (Ret k') →
  c_sent (server_side k') = c_sent (server_side k) ∧ cached k' = cached k.
Proof.
  intros He. destruct k as [[sc cc q cn] sv cl ca].
  destruct e as [url b| | |b ob|[] n|[]]; simpl in He.
  - by simplify_eq/=.
  - destruct (_ && _), sc; by simplify_eq/=.
  - destruct cc; [|done]. unfold teardown in He. destruct sc; by simplify_eq/=.
  - destruct cc; [|done]. destruct sc; [|done]. rewrite onClientMessage_spec in He by done.
    by case_decide; simplify_eq/=.
  - case_decide; [|done]. destruct sc, (0 <? n), cc; by simplify_eq/=.
  - case_decide; [|done]. destruct sc, (0 <? n), cc; by simplify_eq/=.
  - case_decide; [|done]. destruct sc, cc; by simplify_eq/=.
  - case_decide; [|done]. destruct sc, cc; by simplify_eq/=.
Qed.

Lemma tunnel_callback_silent k e cn cn' :
  tunnel_callback k e cn = Some (Ret cn') →
  c_sent (cn_conn cn') = c_sent (cn_conn cn) ∧ cn_cached cn' = cn_cached cn.
Proof.
  unfold tunnel_callback, link_of. destruct (called e k cn); [|done].
  destruct (cn_tunnels cn !! k) as [[t cl]|]; [|done]. cbn [mbind option_bind].
  destruct (tunnel_handle e _) as [[lk|f]|] eqn:He; intros; simplify_eq/=.
  by apply tunnel_handle_silent in He.
Qed.

(** ** The invariant *)

Lemma asked_for_more c cn more url :
  asked_for c url → asked_for (mkClient (cl_io c) cn (cl_received c ++ more)) url.
Proof.
  intros (b & ctx & n & Hb & Hp). exists b, ctx, n. split; [|done].
  eapply part_of_prefix; [done|]. by eexists.
Qed.

(** Nothing new is sent to the browser or cached. *)
Lemma heard_ok_silent c cn more :
  c_sent (cn_conn cn) = c_sent (cn_conn (cl_conn c)) → cn_cached cn = cn_cached (cl_conn c) →
  heard_ok c → heard_ok (mkClient (cl_io c) cn (cl_received c ++ more)).
Proof.
  intros Es Ec [Hs Hc]. split; [|by simpl; rewrite Ec]. simpl. rewrite Es.
  eapply Forall_impl; [exact Hs|]. intros x (url & content & Ha & Hx).
  exists url, content. split; [by apply asked_for_more|done].
Qed.

(** One connection changes. *)
Lemma answers_put s s' name c' :
  answers_inv s → heard_ok c' → pl_clients s' = <[name := c']> (pl_clients s) →
  pl_jobs s' = pl_jobs s → pl_cache s' = pl_cache s → answers_inv s'.
Proof.
  intros [Hc Hj Hcs] Hok Ec Ej Ecs. split; [|by rewrite Ej|by rewrite Ecs].
  intros name1 c1. rewrite Ec. intros [[_ <-]|[_ H]]%lookup_insert_Some; [done|by eapply Hc].
Qed.

Lemma answers_same s s' :
  answers_inv s → pl_clients s' = pl_clients s → pl_jobs s' = pl_jobs s →
  pl_cache s' = pl_cache s → answers_inv s'.
Proof. intros [Hc Hj Hcs] Ec Ej Ecs. by split; [rewrite Ec|rewrite Ej|rewrite Ecs]. Qed.

Lemma answers_set_conn s s' name c cn :
  answers_inv s → pl_clients s !! name = Some c →
  c_sent (cn_conn cn) = c_sent (cn_conn (cl_conn c)) → cn_cached cn = cn_cached (cl_conn c) →
  pl_clients s' = <[name := mkClient (cl_io c) cn (cl_received c)]> (pl_clients s) →
  pl_jobs s' = pl_jobs s → pl_cache s' = pl_cache s → answers_inv s'.
Proof.
  intros Hinv Hc Es Ec. apply answers_put; [done|].
  rewrite <-(app_nil_r (cl_received c)). apply heard_ok_silent; [done..|]. by eapply inv_heard.
Qed.

(** An access of a job: it may answer what it holds. *)
Lemma job_answers s j name r c r' cn cs t :
  pl_inv s → answers_inv s → pl_jobs s !! j = Some (Some (name, r)) →
  pl_clients s !! name = Some c →
  job_step cache_read Buffer_retrieve t r (cl_conn c) (pl_cache s) = Ret (r', cn, cs) →
  answers_inv (set_job j ((name,.) <$> r') (set_cache cs (set_conn_of name c cn s))).
Proof.
  intros Hpl [Hc Hj Hcs] Hjob Hcl E.
  destruct (job_step_answers _ _ _ _ _ _ _ Hcs E) as (Hsent & Hcached & Hcs' & Hnext).
  split; [| |done]; simpl.
  - intros name1 c1 [[_ <-]|[_ H]]%lookup_insert_Some; [|by eapply Hc].
    destruct (Hc name c Hcl) as [Hs Hca]. split; [simpl|by simpl; rewrite Hcached].
    destruct Hsent as [->|(content & Hpc & ->)]; [done|]. apply Forall_app. split; [done|].
    apply Forall_singleton.
    destruct (inv_jobs _ Hpl j name r Hjob) as [(c1 & Hc1 & [Hpart _] & Hloc) _]. simplify_eq.
    rewrite Hpc in Hloc. destruct Hloc as [Hparsed Hget].
    destruct (parsed_get _ Hparsed Hget) as (ctx & n & Hp & Hm & Hu).
    exists (getRequestUrl (l_context (r_locals r))), content.
    split; [|split; [by eapply Hj|done]]. by exists (l_buff (r_locals r)), ctx, n.
  - intros k name1 r1 H. eapply job_insert in H as [H|H]; [by eapply Hj|exact H|].
    intros E1. destruct r' as [r2|]; simplify_eq/=. by apply Hnext.
Qed.

Lemma answers_step s s' : pl_inv s → answers_inv s → step s s' → answers_inv s'.
Proof.
  intros Hpl Hinv Hstep. apply pl_step_view in Hstep as [ev Hstep]. destruct Hstep as
    [name i io Hn _|name b c io Hc _ _|name c io Hc _ _|name k e c cn Hc Ht|i io name c Hi Hat Hc
    |i io name b p q p' ok Hi Hat _ _ Hr s'|i io name b p q p' Hi Hat _ _ job Hst
    |i io name c Hi Hat Hc|j t name r c r' cn cs Hj Hc E|j t c q c' ok _ _ _ Hcl|j t c c' job _ _ _ Hf].
  - by apply (answers_put s _ name (mkClient i Connection_new [])).
  - eapply answers_put; [done| |done..]. apply heard_ok_silent; [done..|by eapply inv_heard].
  - by apply (answers_set_conn s _ name c (disconnected (cl_conn c))).
  - apply tunnel_callback_silent in Ht as [? ?]. by apply (answers_set_conn s _ name c cn).
  - by apply (answers_same s).
  - by destruct ok; apply (answers_same s).
  - by apply (answers_same s).
  - apply (answers_set_conn s _ name c (erase_entry (cl_conn c))); [done|done| | |done..];
      unfold erase_entry; by destruct (cn_entry _).
  - by eapply job_answers.
  - by apply (answers_same s).
  - destruct Hinv as [H1 H2 H3]. split; [done| |done]. simpl.
    intros k name1 r1 H. eapply job_insert in H as [H|H]; [by eapply H2|exact H|].
    intros [= <- <-] content [=].
Qed.

Lemma answers_reachable m nio s :
  circle_array (circleArray m) = ∅ → rtc step (Pipeline_new m nio cs0) s → answers_inv s.
Proof.
  intros Hm Hreach.
  assert (pl_inv s ∧ answers_inv s) as [_ H]; [|done]. revert Hreach.
  apply (rtc_ind_r (λ s, pl_inv s ∧ answers_inv s)).
  - split; [by apply Pipeline_new_inv|]. split; simpl; [| |done].
    + intros name c H. by rewrite lookup_empty in H.
    + intros j name r. rewrite list_lookup_fmap. by destruct (threads m !! j).
  - intros s1 s2 _ Hstep [Hpl Hinv]. split; [by eapply pl_step_inv|by eapply answers_step].
Qed.
End answers.

(** ** Properties *)

(** What a browser hears.  Any number of connections, I/O threads and jobs may
    interleave, access by access, and web servers may say what they like: all
    that is ever sent to a browser is [createResponse] of a non-empty content
    that the cache had for the URL of a request with the method [GetMethod],
    which this very browser has sent; and the cache had it from the start or
    from elsewhere, for the proxy itself caches nothing.  No byte of a web
    server's response reaches a browser, and no answer goes to another browser
    than the one that asked. *)
Theorem browser_hears_only_cache {CS} (cache_read : nat → bytes → CS → outcome (CS * bytes))
    (Buffer_retrieve : Z → bytes → outcome bytes) (m : @MyThreadPool (option Job)) (nio : nat)
    (cs : CS) (s : Pipeline CS) (name : bytes) (c : Client) :
  retrieves Buffer_retrieve →
  fresh_pool m → rtc (pl_step cache_read Buffer_retrieve) (Pipeline_new m nio cs) s →
  pl_clients s !! name = Some c →
  (∀ x, x ∈ c_sent (cn_conn (cl_conn c)) → ∃ url content,
     asked_for c url ∧ found cache_read cs url content ∧ x = createResponse content) ∧
  cn_cached (cl_conn c) = [].
Proof.
  intros Hret Hm Hreach Hc.
  assert (answers_inv cache_read cs s) as Hinv
    by (eapply answers_reachable; [done|apply (fresh_array _ Hm)|done]).
  destruct (inv_heard _ _ _ Hinv name c Hc) as [Hs Hca]. split; [|done].
  by apply Forall_forall.
Qed.

(** ** Witness *)

(** A cache that has one page. *)
Definition one_page (t : nat) (url : bytes) (cs : unit) : outcome (unit * bytes) :=
  Ret (cs, if decide (url = str "/a") then str "page" else []).

Definition get_job : bytes := str "Get /a HTTP/1.1" ++ CRLF ++ CRLF.

(** Three connections; pool thread 0 takes out the first one's message and
    answers it from the cache. *)
Definition first_answered : list pl_event :=
  [PlConnect (str "a") 0; PlBytes (str "a") get_job] ++ replicate 3 (PlIo 0)
    ++ one_message (str "b") 2 ++ one_message (str "c") 3 ++ replicate 5 (PlThread 0 0).

Definition is_answered {CS} (s : Pipeline CS) : bool :=
  match pl_clients s !! str "a" with
  | Some c => bool_decide (c_sent (cn_conn (cl_conn c)) = [str "page"])
  | None => false
  end.

Lemma browser_hears_only_cache_witness :
  ∃ s c, rtc (pl_step one_page sample_retrieve) small_start s ∧
    pl_clients s !! str "a" = Some c ∧ str "page" ∈ c_sent (cn_conn (cl_conn c)) ∧
    ∃ url content, asked_for c url ∧ found one_page () url content ∧
      str "page" = createResponse content.
Proof.
  destruct (pl_run one_page sample_retrieve first_answered small_start) as [s|] eqn:E.
  2: { exfalso. revert E. vm_compute. discriminate. }
  assert (is_answered s = true) as Hs.
  { assert (is_answered <$> pl_run one_page sample_retrieve first_answered small_start = Some true)
      as H by (vm_compute; reflexivity). rewrite E in H. by injection H. }
  unfold is_answered in Hs. destruct (pl_clients s !! str "a") as [c|] eqn:Hc; [|discriminate Hs].
  apply bool_decide_eq_true in Hs. pose proof (pl_run_steps _ _ _ _ _ E) as Hreach.
  assert (str "page" ∈ c_sent (cn_conn (cl_conn c))) as Hin by (rewrite Hs; by left).
  exists s, c. split; [exact Hreach|]. split; [exact Hc|]. split; [exact Hin|].
  apply (proj1 (browser_hears_only_cache one_page sample_retrieve small_pool 1 () s (str "a") c
    sample_retrieves small_pool_fresh Hreach Hc) _ Hin).
Defined.
