(* ===== verification/Served.v ===== *)
(** * The pipeline with the cache of the code

    [Pipeline] takes any cache; here it runs with the one that the constructor of
    [ProxyServer] makes (src/ProxyServer/ProxyServer.h): [Cache] over
    [MemoryCache] over [Lru], and Redis behind them as in [RedisCache]. *)

From S2P Require Import Prelude CString HttpContext LruCache MemoryCache RedisCache CacheStack.
From S2P Require Import TaskQueue Tunnel ProxyServer JobSteps JobFacts Pipeline Isolation Answers.
From Stdlib Require Import Lia.

#[local] Open Scope Z_scope.

Definition DEFAULT_CACHE_CAPACITY : Z := 128.
Definition DEFAULT_CACHE_EXPIRED_TIME : Z := 20.
Definition DEFAULT_REDIS_PASSWD : bytes := str "Q85610034q".

(** [new Cache(...)], for the four threads of the pool. *)
Definition proxy_cache : Cache MemoryCache :=
  Cache_new DEFAULT_CACHE_CAPACITY DEFAULT_CACHE_EXPIRED_TIME DEFAULT_REDIS_PASSWD 4.

Section served.
Context {R : Type}.
Context (redisConnect : R → R * bool).
Context (redisCommand : bytes → R → outcome (R * option (option bytes))).
Context (now : nat → Z) (clock : nat → Z).
Context (Buffer_retrieve : Z → bytes → outcome bytes) (Hret : retrieves Buffer_retrieve).

(** [cache->readCache(url)] as one access; [now t] is the time of the call. *)
Definition proxy_readCache (t : nat) (url : bytes) (x : Cache MemoryCache * R)
    : outcome ((Cache MemoryCache * R) * bytes) :=
  Cache_readCache (H := MemoryCache_store DEFAULT_CACHE_CAPACITY 0 clock)
    redisConnect redisCommand (now t) url x.1 x.2.

Abbreviation read_redis := (readRedisCache redisConnect redisCommand DEFAULT_REDIS_PASSWD).

(** Redis after some reads. *)
Definition reads (r r' : R) : Prop := ∃ url v, read_redis url r = Ret (r', v).

(** Redis is reached and replies to [get url], with quotes around [content]. *)
Definition redis_holds (r0 : R) (url content : bytes) : Prop :=
  ∃ r r1 a r2 r3 q q', rtc reads r0 r ∧ redisConnect r = (r1, true) ∧
    redisCommand (c_str (str "auth " ++ DEFAULT_REDIS_PASSWD)) r1 = Ret (r2, Some a) ∧
    redisCommand (c_str (str "get " ++ url)) r2 = Ret (r3, Some (Some (q :: content ++ [q']))).

(** ** The memory level stays empty *)

Lemma proxy_cache_current : current (memoryCache proxy_cache) = Some (Lru_new DEFAULT_CACHE_CAPACITY).
Proof. apply lookup_singleton_eq. Qed.

Lemma proxy_cache_quiescent : quiescent DEFAULT_CACHE_CAPACITY 0 (memoryCache proxy_cache).
Proof.
  split; [by vm_compute| |done|done]. apply mc_new_inv. by split; vm_compute.
Qed.

(** It has nothing, and a lookup leaves it as it was. *)
Lemma proxy_readCache_redis t url r :
  proxy_readCache t url (proxy_cache, r) =
    ('(r', v) ← read_redis url r; Ret ((proxy_cache, r'), v)).
Proof.
  unfold proxy_readCache, Cache_readCache. cbn [fst snd].
  change (store_read (now t) url) with (MemoryCache_read clock 0 (now t) url).
  rewrite (MemoryCache_read_eq DEFAULT_CACHE_CAPACITY (now t) clock 0 (memoryCache proxy_cache)
    (Lru_new DEFAULT_CACHE_CAPACITY) proxy_cache_quiescent proxy_cache_current url
    (Lru_new DEFAULT_CACHE_CAPACITY) []) by done.
  cbn [mbind outcome_bind].
  assert (set_object (lru_cache (memoryCache proxy_cache)) (Lru_new DEFAULT_CACHE_CAPACITY)
    (memoryCache proxy_cache) = memoryCache proxy_cache) as ->.
  { unfold set_object. by rewrite insert_id by apply proxy_cache_current. }
  by destruct (readRedisCache _ _ _ _ _) as [[r' v]|f].
Qed.

Lemma looks_up_reads x x' :
  rtc (looks_up proxy_readCache) x x' → x.1 = proxy_cache → x'.1 = proxy_cache ∧ rtc reads x.2 x'.2.
Proof.
  intros Hr. induction Hr as [x|x y z (t & url & v & E) _ IH]; intros Hx; [done|].
  destruct x as [c r]. simpl in Hx. subst c. rewrite proxy_readCache_redis in E.
  apply bind_Ret_inv in E as ([r' v'] & E & E'). injection E' as <- <-.
  destruct (IH eq_refl) as [? ?]. split; [done|]. eapply rtc_l; [|done]. by eexists _, _.
Qed.

(** ** What Redis gives *)

Lemma strip_inv res v : strip res = Ret v → ∃ q q', res = q :: v ++ [q'].
Proof.
  destruct res as [|q [|a res]]; [done|done|]. intros [= <-].
  exists q, (List.last (a :: res) q). f_equal. apply app_removelast_last. done.
Qed.

Lemma read_redis_content url r r' content :
  read_redis url r = Ret (r', content) → content ≠ [] →
  ∃ r1 a r2 q q', redisConnect r = (r1, true) ∧
    redisCommand (c_str (str "auth " ++ DEFAULT_REDIS_PASSWD)) r1 = Ret (r2, Some a) ∧
    redisCommand (c_str (str "get " ++ url)) r2 = Ret (r', Some (Some (q :: content ++ [q']))).
Proof.
  unfold readRedisCache, getAuth. intros E Hne. destruct (redisConnect r) as [r1 []]; [|by simplify_eq].
  apply bind_Ret_inv in E as ([r2 auth] & Ha & E). apply bind_Ret_inv in Ha as ([r2' a] & Ha & Ha').
  injection Ha' as -> <-. destruct a as [a|]; [|by simplify_eq].
  apply bind_Ret_inv in E as ([r3 [[res|]|]] & Hg & E); [|done|by simplify_eq].
  apply bind_Ret_inv in E as (v & (q & q' & ->)%strip_inv & E). simplify_eq.
  by exists r1, a, r2, q, q'.
Qed.

Lemma found_redis r0 url content :
  found proxy_readCache (proxy_cache, r0) url content → redis_holds r0 url content.
Proof.
  intros (Hne & t & [c r] & x' & Hreach & E).
  apply looks_up_reads in Hreach as [Hc Hr]; [|done]. simpl in Hc, Hr. subst c.
  rewrite proxy_readCache_redis in E. apply bind_Ret_inv in E as ([r' v] & E & E'). simplify_eq.
  destruct (read_redis_content _ _ _ _ E Hne) as (r1 & a & r2 & q & q' & H).
  exists r, r1, a, r2, r', q, q'. by split; [|exact H].
Qed.

(** A key that Redis does not have. *)
Lemma read_redis_absent url r r1 a r2 r3 :
  redisConnect r = (r1, true) →
  redisCommand (c_str (str "auth " ++ DEFAULT_REDIS_PASSWD)) r1 = Ret (r2, Some a) →
  redisCommand (c_str (str "get " ++ url)) r2 = Ret (r3, Some None) →
  read_redis url r = Fault UndefinedBehaviour.
Proof.
  intros Hc Ha Hg. unfold readRedisCache, getAuth. rewrite Hc, Ha. cbn [mbind outcome_bind].
  by rewrite Hg.
Qed.
End served.

(** ** Properties *)

(** C4. What a browser hears from a worker.  However the threads of the pipeline
    interleave, and whatever web servers send: all that is ever sent to a browser
    is [createResponse] of what Redis holds, within its quotes, for the URL of a
    request with the method [GetMethod] that this very browser has sent.  No byte
    of a web server's response reaches a browser, none is cached, and the memory
    level stays as the constructor made it, empty.  And if Redis has no such key,
    the lookup reads a null string and stops the process. (Each I/O thread has the
    producer [threadInitCallback] is meant to give it; as the program is, none has
    one, [requests_never_queued].) *)
Theorem browser_hears_redis {R} (redisConnect : R → R * bool)
    (redisCommand : bytes → R → outcome (R * option (option bytes))) (now clock : nat → Z)
    (Buffer_retrieve : Z → bytes → outcome bytes) (m : @MyThreadPool (option Job)) (nio : nat)
    (r0 : R) (s : Pipeline (Cache MemoryCache * R)) (name : bytes) (c : Client) :
  let cache_read := proxy_readCache redisConnect redisCommand now clock in
  retrieves Buffer_retrieve → fresh_pool m →
  rtc (pl_step cache_read Buffer_retrieve) (Pipeline_new m nio (proxy_cache, r0)) s →
  pl_clients s !! name = Some c →
  (∀ x, x ∈ c_sent (cn_conn (cl_conn c)) → ∃ url content,
     asked_for c url ∧ redis_holds redisConnect redisCommand r0 url content ∧
     x = createResponse content) ∧
  cn_cached (cl_conn c) = [] ∧ (pl_cache s).1 = proxy_cache ∧
  (∀ j t r r1 a r2 r3,
     pl_jobs s !! j = Some (Some (name, r)) → r_pc r = JCache →
     getRequestMethod (l_context (r_locals r)) = GetMethod →
     redisConnect (pl_cache s).2 = (r1, true) →
     redisCommand (c_str (str "auth " ++ DEFAULT_REDIS_PASSWD)) r1 = Ret (r2, Some a) →
     redisCommand (c_str (str "get " ++ getRequestUrl (l_context (r_locals r)))) r2
       = Ret (r3, Some None) →
     pl_exec cache_read Buffer_retrieve (PlThread j t) s = Some (Fault UndefinedBehaviour)).
Proof.
  intros cache_read Hret Hm Hreach Hc.
  destruct (browser_hears_only_cache cache_read Buffer_retrieve m nio _ s name c Hret Hm Hreach Hc)
    as [Hsent Hcached].
  assert ((pl_cache s).1 = proxy_cache) as Hmem.
  { eapply (looks_up_reads redisConnect redisCommand now clock (proxy_cache, r0)); [|done].
    by eapply inv_cache, answers_reachable; [|apply (fresh_array _ Hm)|]. }
  split; [|split; [done|split; [done|]]].
  - intros x (url & content & Ha & Hf & ->)%Hsent. exists url, content.
    split; [done|]. split; [by eapply found_redis|done].
  - intros j t r r1 a r2 r3 Hj Hpc Hget Hconn Hauth Habs. simpl. unfold pool_thread. rewrite Hj.
    cbn [mbind option_bind]. rewrite Hc. cbn [mbind option_bind]. unfold job_step.
    rewrite Hpc, decide_True by done. destruct (pl_cache s) as [c0 r']. simpl in Hmem, Hconn. subst c0.
    unfold cache_read. rewrite proxy_readCache_redis.
    by rewrite (read_redis_absent redisConnect redisCommand _ _ _ _ _ _ Hconn Hauth Habs).
Qed.

(** ** Witness *)

(** A Redis that holds [page] for every URL. *)
Definition page_redis : bytes → unit → outcome (unit * option (option bytes)) :=
  sample_redis (Some (Some (quote ++ str "page" ++ quote))).
Definition page_read : nat → bytes → Cache MemoryCache * unit →
    outcome (Cache MemoryCache * unit * bytes) :=
  proxy_readCache (λ r, (r, true)) page_redis (λ _, 100) (λ _, 100).
Definition page_start : Pipeline (Cache MemoryCache * unit) :=
  Pipeline_new small_pool 1 (proxy_cache, ()).

Lemma browser_hears_redis_witness :
  ∃ s c, rtc (pl_step page_read sample_retrieve) page_start s ∧
    pl_clients s !! str "a" = Some c ∧ str "page" ∈ c_sent (cn_conn (cl_conn c)) ∧
    (∃ url content, asked_for c url ∧ redis_holds (λ r, (r, true)) page_redis () url content ∧
      str "page" = createResponse content) ∧ (pl_cache s).1 = proxy_cache.
Proof.
  destruct (pl_run page_read sample_retrieve first_answered page_start) as [s|] eqn:E.
  2: { exfalso. revert E. vm_compute. discriminate. }
  assert (is_answered s = true) as Hs.
  { assert (is_answered <$> pl_run page_read sample_retrieve first_answered page_start = Some true)
      as H by (vm_compute; reflexivity). rewrite E in H. by injection H. }
  unfold is_answered in Hs. destruct (pl_clients s !! str "a") as [c|] eqn:Hc; [|discriminate Hs].
  apply bool_decide_eq_true in Hs. pose proof (pl_run_steps _ _ _ _ _ E) as Hreach.
  assert (str "page" ∈ c_sent (cn_conn (cl_conn c))) as Hin by (rewrite Hs; by left).
  destruct (browser_hears_redis (λ r, (r, true)) page_redis (λ _, 100) (λ _, 100) sample_retrieve
    small_pool 1 () s (str "a") c sample_retrieves small_pool_fresh Hreach Hc)
    as (Hheard & _ & Hmem & _).
  exists s, c. split; [exact Hreach|]. split; [exact Hc|]. split; [exact Hin|].
  split; [exact (Hheard _ Hin)|exact Hmem].
Defined.
