(* ===== verification/Throughput.v ===== *)
(** * What the pipeline never gets done

    Over [Pipeline]: the first block of an I/O thread's requests waits in the
    ring for a request that may never come; a pool whose threads all wait for
    web servers runs nothing else; and a connection on which more than its first
    request has arrived is never served. *)

From S2P Require Import Prelude HttpContext TaskQueue Tunnel ProxyServer JobSteps JobFacts.
From S2P Require Import Pipeline Isolation.
From Stdlib Require Import Lia.

#[local] Open Scope Z_scope.

(** ** What a step does to the I/O threads and their producers *)

Definition busy (pc : io_pc) : Z :=
  match pc with IoRead _ | IoWrite _ _ => 1 | _ => 0 end.

Section steps.
Context {CS : Type} (cache_read : nat → bytes → CS → outcome (CS * bytes)).
Context (Buffer_retrieve : Z → bytes → outcome bytes).
Implicit Types s : Pipeline CS.

Abbreviation exec := (pl_exec cache_read Buffer_retrieve).
Abbreviation step := (pl_step cache_read Buffer_retrieve).

(** The threads go on without losing count of their messages. *)
Definition io_goes_on (l l' : list IoThread) : Prop :=
  length l' = length l ∧
  ∀ i io', l' !! i = Some io' → ∃ io, l !! i = Some io ∧
    (io_messages io ≤ io_messages io')%nat ∧
    busy (io_at io') - Z.of_nat (io_messages io') ≤ busy (io_at io) - Z.of_nat (io_messages io).

Inductive io_effect s s' : Prop :=
  | io_quiet :
      producers (pl_pool s') = producers (pl_pool s) → stored (pl_pool s') = stored (pl_pool s) →
      io_goes_on (pl_io s) (pl_io s') → io_effect s s'
  | io_refill i io p q' p' ok :
      pl_io s !! i = Some io → busy (io_at io) = 1 → producers (pl_pool s) !! i = Some p →
      p_writableId p ≤ p_curWriteId p → Producer_refill (ring (pl_pool s)) p = Ret (q', p', ok) →
      producers (pl_pool s') = <[i := p']> (producers (pl_pool s)) →
      stored (pl_pool s') = stored (pl_pool s) → io_goes_on (pl_io s) (pl_io s') → io_effect s s'
  | io_store i io p name b :
      pl_io s !! i = Some io → io_at io = IoWrite name b → producers (pl_pool s) !! i = Some p →
      p_curWriteId p < p_writableId p →
      producers (pl_pool s') = <[i := mkProducer (p_writeId p) (p_curWriteId p + 1) (p_writableId p)]>
                                 (producers (pl_pool s)) →
      stored (pl_pool s') = <[p_curWriteId p := Some (mkJob name b)]> (stored (pl_pool s)) →
      pl_io s' = <[i := mkIoThread IoIdle (io_messages io)]> (pl_io s) → io_effect s s'.

Lemma io_goes_on_refl l : io_goes_on l l.
Proof. split; [done|]. intros i io Hi. exists io. split; [done|lia]. Qed.

Lemma io_goes_on_insert l i io pc n :
  l !! i = Some io → (io_messages io ≤ n)%nat →
  busy pc - Z.of_nat n ≤ busy (io_at io) - Z.of_nat (io_messages io) →
  io_goes_on l (<[i := mkIoThread pc n]> l).
Proof.
  intros Hi Hn Hb. split; [apply length_insert|].
  intros j io' [(-> & <- & _)|[_ Hj]]%list_lookup_insert_Some; [by exists io|].
  exists io'. split; [done|lia].
Qed.

Lemma pl_step_io s s' : step s s' → io_effect s s'.
Proof.
  intros Hstep. apply pl_step_view in Hstep as [ev Hstep]. destruct Hstep as
    [name i io _ _|name b c io _ Hi Hat|name c io _ Hi Hat|name k e c cn _ _|i io name c Hi Hat _
    |i io name b p q p' ok Hi Hat Hp Hle Hr s'|i io name b p q p' Hi Hat Hp Hlt job Hst
    |i io name c Hi Hat _|j t name r c r' cn cs _ _ _|j t c q c' ok _ _ _ _|j t c c' job _ _ _ _].
  1, 4, 9: by apply io_quiet; [..|apply io_goes_on_refl].
  1-3: apply io_quiet; [done..|]; simpl; eapply io_goes_on_insert; [done|lia|rewrite Hat; simpl; lia].
  3: apply io_quiet; [done..|]; simpl; eapply io_goes_on_insert; [done|lia|rewrite Hat; simpl; lia].
  all: unfold on_producer, on_ring, on_stored, on_consumer, on_delivered in *;
    destruct (pl_pool s) as [q0 ps cs0 w d] eqn:Hpool; simpl in *.
  - eapply (io_refill _ _ i io p q p' ok); rewrite ?Hpool, ?Hat; try done; try by destruct ok.
    destruct ok; simpl; [apply io_goes_on_refl|].
    eapply io_goes_on_insert; [done|lia|rewrite Hat; simpl; lia].
  - injection Hst as <- <-. by eapply (io_store _ _ i io p name b); rewrite ?Hpool.
  - by apply io_quiet; rewrite ?Hpool; [..|apply io_goes_on_refl].
  - by apply io_quiet; rewrite ?Hpool; [..|apply io_goes_on_refl].
Qed.

(** A connection stays with its I/O thread. *)
Lemma pl_step_client s s' name c :
  step s s' → pl_clients s !! name = Some c →
  ∃ c', pl_clients s' !! name = Some c' ∧ cl_io c' = cl_io c ∧
    cl_received c `prefix_of` cl_received c'.
Proof.
  intros Hstep Hc. apply pl_step_view in Hstep as [ev Hstep].
  assert (∀ name1 c1 (c1' : Client), pl_clients s !! name1 = Some c1 → cl_io c1' = cl_io c1 →
    cl_received c1 `prefix_of` cl_received c1' →
    ∃ c', <[name1 := c1']> (pl_clients s) !! name = Some c' ∧ cl_io c' = cl_io c ∧
      cl_received c `prefix_of` cl_received c') as Hins.
  { intros name1 c1 c1' H1 Hio Hr. destruct (decide (name1 = name)) as [->|Hne].
    - exists c1'. rewrite lookup_insert_eq. by simplify_eq.
    - exists c. by rewrite lookup_insert_ne. }
  destruct Hstep as
    [name1 i io Hn _|name1 b c1 io H1 _ _|name1 c1 io H1 _ _|name1 k e c1 cn H1 _| 
    |i io name1 b p q p' ok _ _ _ _ _ s'| |i io name1 c1 _ _ H1|j t name1 r c1 r' cn cs _ H1 _| |];
    try (by eapply Hins); try by exists c.
  - exists c. simpl. by rewrite lookup_insert_ne by congruence.
  - eapply Hins; [done|done|by eexists].
  - exists c. by destruct ok.
Qed.
End steps.

(** ** The first block of an I/O thread *)

Section first_block.
Context {CS : Type} (cache_read : nat → bytes → CS → outcome (CS * bytes)).
Context (Buffer_retrieve : Z → bytes → outcome bytes).
Implicit Types s : Pipeline CS.

Abbreviation step := (pl_step cache_read Buffer_retrieve).

(** The entry is for a connection of I/O thread [i]. *)
Definition of_thread s (i : nat) (job : Job) : Prop :=
  with_client s (job_conn job) (λ c, cl_io c = i).

(** As long as it has had at most a block's worth of messages, everything
    thread [i] has stored is in the block its producer still holds. *)
Definition first_block s (i : nat) (io : IoThread) (p : Producer) : Prop :=
  (p = Producer_new ∨ p_writableId p = p_writeId p + try_size (ring (pl_pool s))) ∧
  p_curWriteId p - p_writeId p + busy (io_at io) ≤ Z.of_nat (io_messages io) ∧
  ∀ id job, stored (pl_pool s) !! id = Some (Some job) → of_thread s i job →
    p_writeId p ≤ id < p_curWriteId p.

Record delay_inv s : Prop := {
  delay_threads : length (producers (pl_pool s)) = length (pl_io s);
  delay_known : ∀ id job, stored (pl_pool s) !! id = Some (Some job) →
    is_Some (pl_clients s !! job_conn job);
  delay_block : ∀ i io p, pl_io s !! i = Some io → producers (pl_pool s) !! i = Some p →
    Z.of_nat (io_messages io) ≤ try_size (ring (pl_pool s)) → first_block s i io p;
}.

(** A known connection was of the same thread before. *)
Lemma of_thread_step s s' i job :
  step s s' → is_Some (pl_clients s !! job_conn job) → of_thread s' i job → of_thread s i job.
Proof.
  intros Hstep [c Hc] (c' & Hc' & <-).
  destruct (pl_step_client _ _ s s' _ c Hstep Hc) as (c1 & H1 & Hio & _).
  exists c. split; [done|]. by simplify_eq.
Qed.

Lemma of_thread_unique s i j job : of_thread s i job → of_thread s j job → i = j.
Proof. intros (c & Hc & <-) (c' & Hc' & <-). by simplify_eq. Qed.

Lemma pl_step_try s s' :
  0 ≤ try_size (ring (pl_pool s)) → step s s' →
  try_size (ring (pl_pool s')) = try_size (ring (pl_pool s)) ∧
  (first_lap (ring (pl_pool s')) → first_lap (ring (pl_pool s))).
Proof.
  intros Hts [->|Hp]%pl_step_pool; [done|].
  destruct (pool_step_mono _ _ _ Hts Hp) as (H1 & H2 & H3). unfold first_lap. split; [done|lia].
Qed.

(** The block of a thread does not care about other threads' entries. *)
Lemma first_block_keep s s' i io io' p :
  step s s' → (∀ id job, stored (pl_pool s) !! id = Some (Some job) →
    is_Some (pl_clients s !! job_conn job)) →
  try_size (ring (pl_pool s')) = try_size (ring (pl_pool s)) →
  (∀ id job, stored (pl_pool s') !! id = Some (Some job) → of_thread s' i job →
     stored (pl_pool s) !! id = Some (Some job)) →
  busy (io_at io') - Z.of_nat (io_messages io') ≤ busy (io_at io) - Z.of_nat (io_messages io) →
  first_block s i io p → first_block s' i io' p.
Proof.
  intros Hstep Hknown Ht Hst Hb (H1 & H2 & H3). split; [by rewrite Ht|]. split; [lia|].
  intros id job Hj Hof. pose proof (Hst id job Hj Hof) as Hj'.
  eapply H3; [done|]. by eapply of_thread_step; [|apply (Hknown id)|].
Qed.

Lemma delay_quiet s s' :
  step s s' → try_size (ring (pl_pool s')) = try_size (ring (pl_pool s)) →
  producers (pl_pool s') = producers (pl_pool s) → stored (pl_pool s') = stored (pl_pool s) →
  io_goes_on (pl_io s) (pl_io s') → delay_inv s → delay_inv s'.
Proof.
  intros Hstep Ht Hp Hs [Hlen Hgo] [Hth Hkn Hbl]. split.
  - congruence.
  - intros id job. rewrite Hs. intros Hj. destruct (Hkn id job Hj) as [c Hc].
    destruct (pl_step_client _ _ s s' _ c Hstep Hc) as (c1 & H1 & _). by exists c1.
  - intros i io' p Hi. rewrite Hp, Ht. intros Hpi Hn. destruct (Hgo i io' Hi) as (io & Hio & Hm & Hb).
    eapply first_block_keep; [done|done|done|by rewrite Hs|exact Hb|]. apply Hbl; [done..|lia].
Qed.

(** A thread that asks for another block has had more messages than one holds. *)
Lemma delay_refill s s' i io p q' p' ok :
  step s s' → first_lap (ring (pl_pool s)) → queue_wf (ring (pl_pool s)) → producer_wf p →
  try_size (ring (pl_pool s')) = try_size (ring (pl_pool s)) →
  pl_io s !! i = Some io → busy (io_at io) = 1 → producers (pl_pool s) !! i = Some p →
  p_writableId p ≤ p_curWriteId p → Producer_refill (ring (pl_pool s)) p = Ret (q', p', ok) →
  producers (pl_pool s') = <[i := p']> (producers (pl_pool s)) →
  stored (pl_pool s') = stored (pl_pool s) → io_goes_on (pl_io s) (pl_io s') →
  delay_inv s → delay_inv s'.
Proof.
  intros Hstep Hlap Hwf Hpwf Ht Hi Hbusy Hp Hle Hr Hps Hs [Hlen Hgo] [Hth Hkn Hbl].
  rewrite Producer_refill_first_lap in Hr by done. injection Hr as _ <- _.
  set (p' := mkProducer _ _ _) in *. split.
  - rewrite Hps, length_insert. congruence.
  - intros id job. rewrite Hs. intros Hj. destruct (Hkn id job Hj) as [c Hc].
    destruct (pl_step_client _ _ s s' _ c Hstep Hc) as (c1 & H1 & _). by exists c1.
  - intros k io' p1 Hk. rewrite Hps, Ht. intros Hpk Hn. destruct (Hgo k io' Hk) as (io1 & Hio1 & Hm & Hb).
    assert (first_block s k io1 p1 ∨ k = i ∧ p1 = p') as [Hf|[-> ->]].
    { apply list_lookup_insert_Some in Hpk as [(-> & -> & _)|[_ Hpk]]; [by right|left].
      apply Hbl; [done..|lia]. }
    { eapply first_block_keep; [done|done|done|by rewrite Hs|exact Hb|done]. }
    simplify_eq. destruct (Hbl i io p Hi Hp ltac:(lia)) as (Hp0 & Hcnt & Hids).
    destruct Hpwf as (Hw1 & Hw2 & _). pose proof (wf_try _ Hwf).
    assert (p = Producer_new) as -> by (destruct Hp0 as [?|Hp0]; [done|lia]).
    split; [right; by rewrite Ht|]. split; [simpl in *; lia|].
    intros id job. rewrite Hs. intros Hj Hof. exfalso.
    pose proof (Hids id job Hj) as Hrange. simpl in Hrange.
    assert (0 ≤ id < 0) by (apply Hrange; by eapply of_thread_step; [|apply (Hkn id)|]). lia.
Qed.

(** Storing the entry of a message. *)
Lemma delay_store s s' i io p name b :
  step s s' → io_ok s i (IoWrite name b) →
  try_size (ring (pl_pool s')) = try_size (ring (pl_pool s)) →
  pl_io s !! i = Some io → io_at io = IoWrite name b → producers (pl_pool s) !! i = Some p →
  p_writeId p ≤ p_curWriteId p < p_writableId p →
  producers (pl_pool s') = <[i := mkProducer (p_writeId p) (p_curWriteId p + 1) (p_writableId p)]>
                             (producers (pl_pool s)) →
  stored (pl_pool s') = <[p_curWriteId p := Some (mkJob name b)]> (stored (pl_pool s)) →
  pl_io s' = <[i := mkIoThread IoIdle (io_messages io)]> (pl_io s) →
  delay_inv s → delay_inv s'.
Proof.
  intros Hstep (c & Hc & Hcl & _) Ht Hi Hat Hp Hcur Hps Hs Hio [Hth Hkn Hbl].
  destruct (pl_step_client _ _ s s' name c Hstep Hc) as (c1 & Hc1 & Hcl1 & _).
  assert (of_thread s' i (mkJob name b)) as Hof by (exists c1; split; [done|congruence]).
  assert (∀ id job, stored (pl_pool s') !! id = Some (Some job) →
    job = mkJob name b ∧ id = p_curWriteId p ∨ stored (pl_pool s) !! id = Some (Some job)) as Hstored.
  { intros id job. rewrite Hs. intros [[<- [= <-]]|[_ H]]%lookup_insert_Some; auto. }
  split.
  - by rewrite Hps, Hio, !length_insert.
  - intros id job [[-> _]|Hj]%Hstored; [by exists c1|]. destruct (Hkn id job Hj) as [c2 Hc2].
    destruct (pl_step_client _ _ s s' _ c2 Hstep Hc2) as (c3 & H3 & _). by exists c3.
  - intros k io' p1 Hk Hpk. rewrite Ht. intros Hn. rewrite Hio in Hk. rewrite Hps in Hpk.
    destruct (decide (k = i)) as [->|Hne].
    + rewrite list_lookup_insert_eq in Hk by by eapply lookup_lt_Some.
      rewrite list_lookup_insert_eq in Hpk by by eapply lookup_lt_Some. simplify_eq/=.
      destruct (Hbl _ _ _ Hi Hp Hn) as (Hp0 & Hcnt & Hids). rewrite Hat in Hcnt. simpl in Hcnt.
      split; [|split; [simpl; lia|]].
      * right. rewrite Ht. simpl. destruct Hp0 as [->|Hp0]; [simpl in Hcur; lia|done].
      * intros id job [[-> ->]|Hj]%Hstored Hofj; [simpl; lia|].
        assert (p_writeId p ≤ id < p_curWriteId p); [|simpl; lia].
        eapply Hids; [done|]. by eapply of_thread_step; [|apply (Hkn id)|].
    + rewrite list_lookup_insert_ne in Hk by done. rewrite list_lookup_insert_ne in Hpk by done.
      eapply (first_block_keep s s' k io' io' p1); [done|done|done| |lia|by apply Hbl].
      intros id job [[-> ->]|Hj]%Hstored Hofk; [|done]. destruct Hne. by eapply of_thread_unique.
Qed.

Context (m : @MyThreadPool (option Job)) (nio : nat) (cs : CS) (Hm : fresh_pool m).
Context (Hret : retrieves Buffer_retrieve).

Lemma delay_reachable s :
  rtc step (Pipeline_new m nio cs) s → first_lap (ring (pl_pool s)) → delay_inv s.
Proof.
  apply (rtc_ind_r (λ s, first_lap (ring (pl_pool s)) → delay_inv s)).
  - intros _. split; simpl.
    + by rewrite !length_replicate.
    + intros id job Hj. by rewrite lookup_empty in Hj.
    + intros i io p [-> _]%lookup_replicate [-> _]%lookup_replicate _. split; [by left|].
      split; [simpl; lia|]. intros id job Hj. simpl in Hj. by rewrite lookup_empty in Hj.
  - intros s1 s2 Hreach Hstep IH Hlap2.
    destruct (pl_reachable_ring _ _ m nio cs Hm s1 Hreach) as [Htry Hring].
    pose proof (wf_try _ (fresh_wf _ Hm)) as Hpos.
    destruct (pl_step_try s1 s2) as [Ht Hlap]; [lia|done|]. specialize (Hlap Hlap2).
    specialize (IH Hlap). specialize (Hring Hlap).
    destruct (pl_step_io _ _ s1 s2 Hstep) as [|i io p q' p' ok Hi Hb Hp Hle Hr|i io p name b Hi Hat Hp Hlt].
    + by eapply delay_quiet.
    + pose proof (Forall_lookup_1 _ _ _ _ (inv_producers _ _ Hring) Hp).
      eapply delay_refill; try done. apply (inv_queue _ _ Hring).
    + pose proof (Forall_lookup_1 _ _ _ _ (inv_producers _ _ Hring) Hp) as (? & ? & _).
      eapply delay_store; try done; [|lia]. rewrite <-Hat.
      eapply inv_io; [|done]. eapply pl_reachable_inv; [done|apply (fresh_array _ Hm)|done].
Qed.

(** Its jobs have not been delivered. *)
Lemma first_block_unserved s i io p name c :
  pool_inv None (pl_pool s) → first_block s i io p → producers (pl_pool s) !! i = Some p →
  pl_clients s !! name = Some c → cl_io c = i → ¬ served s name.
Proof.
  intros Hring (_ & _ & Hids) Hp Hc Hcl (id & job & Hin & Hname).
  assert (of_thread s i job) as Hof by (exists c; by rewrite Hname).
  pose proof (Hids id job (inv_delivered _ _ Hring _ _ Hin) Hof) as Hid.
  pose proof (pool_inv_NoDup _ _ Hring) as Hnd. apply NoDup_app in Hnd as (_ & Hdisj & _).
  apply (Hdisj id).
  - unfold pending_ids. apply elem_of_app. left. apply list_elem_of_bind. exists p.
    split; [|by eapply list_elem_of_lookup_2]. unfold written_ids, block_ids. apply elem_of_seqZ.
    simpl. lia.
  - apply elem_of_app. left. by apply (list_elem_of_fmap_2 fst) in Hin.
Qed.
End first_block.

(** ** Threads that wait for a web server *)

Section waiting.
Context {CS : Type} (cache_read : nat → bytes → CS → outcome (CS * bytes)).
Context (Buffer_retrieve : Z → bytes → outcome bytes).
Implicit Types s : Pipeline CS.

Abbreviation exec := (pl_exec cache_read Buffer_retrieve).

(** In the loop, after the tunnel was made and before [getContext()] is set. *)
Definition spins (r : Running) : Prop :=
  l_isCheck (r_locals r) = true ∧ getRequestMethod (l_context (r_locals r)) ≠ GetMethod ∧
  match r_pc r with JCond | JCache | JEmpty | JFull => True | _ => False end.

Definition no_context (c : Client) : Prop := c_context (cn_conn (cl_conn c)) = false.

(** Thread [j] runs such a job. *)
Definition waits s (j : nat) : Prop :=
  ∃ name r, pl_jobs s !! j = Some (Some (name, r)) ∧ spins r ∧ with_client s name no_context.

(** No web server accepts. *)
Definition silent (e : pl_event) : Prop :=
  match e with PlTunnel _ _ EvUp => False | _ => True end.
Definition silent_step s s' : Prop := ∃ e, silent e ∧ exec e s = Some (Ret s').

Lemma job_step_context t r cn cs r' cn' cs' :
  job_step cache_read Buffer_retrieve t r cn cs = Ret (r', cn', cs') →
  c_context (cn_conn cn') = c_context (cn_conn cn).
Proof.
  intros E. destruct r as [pc l].
  destruct pc; unfold job_step in E; cbn [r_pc r_locals] in E;
    repeat (case_match; simplify_eq/=); simplify_outcome;
    repeat (case_match; simplify_outcome); try done.
  unfold erase_entry. by destruct (cn_entry cn).
Qed.

Lemma tunnel_handle_context e k k' :
  e ≠ EvUp → tunnel_handle e k = Some (Ret k') →
  c_context (server_side k) = false → c_context (server_side k') = false.
Proof.
  intros Hne He Hc. destruct k as [[sc cc q cn] sv cl ca].
  destruct e as [url b| | |b ob|[] n|[]]; simpl in *; [by simplify_eq/=|done|..].
  - destruct cc; [|done]. unfold teardown in He. simpl in He. by destruct sc; simplify_eq/=.
  - destruct cc; [|done]. unfold onClientMessage in He. simpl in He.
    destruct sc; [|done]. destruct q as [|[url can] q]; [done|]. by simplify_eq/=.
  - case_decide; [|done]. destruct sc, (0 <? n), cc; by simplify_eq/=.
  - case_decide; [|done]. destruct sc, (0 <? n), cc; by simplify_eq/=.
  - case_decide; [|done]. destruct sc, cc; by simplify_eq/=.
  - case_decide; [|done]. destruct sc, cc; by simplify_eq/=.
Qed.

Lemma tunnel_callback_context k e cn cn' :
  e ≠ EvUp → tunnel_callback k e cn = Some (Ret cn') →
  c_context (cn_conn cn) = false → c_context (cn_conn cn') = false.
Proof.
  intros Hne. unfold tunnel_callback, link_of. destruct (called e k cn); [|done].
  destruct (cn_tunnels cn !! k) as [[t cl]|]; [|done]. cbn [mbind option_bind].
  destruct (tunnel_handle e _) as [[lk|f]|] eqn:He; intros; simplify_eq/=.
  by eapply (tunnel_handle_context e _ lk Hne He).
Qed.

(** Only a web server that accepts sets a context. *)
Lemma silent_context s s' name :
  silent_step s s' → with_client s name no_context → with_client s' name no_context.
Proof.
  intros (e & Hsil & E%pl_exec_view) (c & Hc & Hno).
  assert (∀ name1 (c1' : Client), (name1 = name → no_context c1') →
    ∃ c', <[name1 := c1']> (pl_clients s) !! name = Some c' ∧ no_context c') as Hins.
  { intros name1 c1' H1. destruct (decide (name1 = name)) as [->|Hne].
    - exists c1'. rewrite lookup_insert_eq. auto.
    - exists c. by rewrite lookup_insert_ne. }
  destruct E as
    [name1 i io Hn _|name1 b c1 io H1 _ _|name1 c1 io H1 _ _|name1 k e c1 cn H1 Ht| 
    |i io name1 b p q p' ok _ _ _ _ _ s'| |i io name1 c1 _ _ H1|j t name1 r c1 r' cn cs H0 H1 Hj| |];
    try (by exists c); try (apply Hins; intros ->; simplify_eq/=; try done).
  - eapply tunnel_callback_context; [|done..]. by intros ->.
  - exists c. by destruct ok.
  - unfold no_context, erase_entry. simpl. by destruct (cn_entry _).
  - unfold no_context in *. simpl. by rewrite (job_step_context _ _ _ _ _ _ _ Hj).
Qed.

(** A waiting thread goes round its loop. *)
Lemma spins_step t r cn cs :
  spins r → c_context (cn_conn cn) = false →
  ∃ r', job_step cache_read Buffer_retrieve t r cn cs = Ret (Some r', cn, cs) ∧ spins r'.
Proof.
  destruct r as [pc l]. unfold spins. simpl. intros (Hchk & Hm & Hpc) Hctx.
  destruct pc; try done; unfold job_step; cbn [r_pc r_locals].
  - rewrite Hchk. by eexists.
  - rewrite decide_False by done. by eexists.
  - rewrite Hchk. by eexists.
  - rewrite Hctx. by eexists.
Qed.

Lemma waits_runs s j t : waits s j → ∃ s', exec (PlThread j t) s = Some (Ret s').
Proof.
  intros (name & r & Hj & Hr & c & Hc & Hno). simpl. unfold pool_thread. rewrite Hj.
  cbn [mbind option_bind]. rewrite Hc. cbn [mbind option_bind].
  destruct (spins_step t r (cl_conn c) (pl_cache s) Hr Hno) as (r' & -> & _). by eexists.
Qed.

Lemma waits_step s s' j : silent_step s s' → waits s j → waits s' j.
Proof.
  intros Hstep (name & r & Hj & Hr & Hw). pose proof (silent_context s s' name Hstep Hw) as Hw'.
  destruct Hstep as (e & _ & E%pl_exec_view). destruct E as
    [| | | | |i io name1 b p q p' ok _ _ _ _ _ s'| | |k t name1 r1 c1 r1' cn cs Hk H1 E
    |k t c q c' ok Hk _ _ _|k t c c' job Hk _ _ _]; try (by exists name, r).
  - exists name, r. by destruct ok.
  - destruct (decide (k = j)) as [->|Hne].
    + rewrite Hj in Hk. injection Hk as <- <-. destruct Hw as (c & Hc & Hno).
      rewrite Hc in H1. injection H1 as <-.
      destruct (spins_step t r (cl_conn c) (pl_cache s) Hr Hno) as (r' & E' & Hr').
      rewrite E' in E. injection E as <- <- <-.
      exists name, r'. split; [|done]. simpl. apply list_lookup_insert_eq. by eapply lookup_lt_Some.
    + exists name, r. split; [|done]. simpl. by rewrite list_lookup_insert_ne.
  - exists name, r. split; [|done]. simpl. rewrite list_lookup_insert_ne; [done|]. intros ->. congruence.
Qed.

(** If all do, nothing is taken out of the ring. *)
Lemma all_wait_step s s' :
  silent_step s s' → (∀ j, (j < length (pl_jobs s))%nat → waits s j) →
  length (pl_jobs s') = length (pl_jobs s) ∧ delivered (pl_pool s') = delivered (pl_pool s).
Proof.
  intros (e & _ & E%pl_exec_view) Hall. destruct E as
    [| | | | |i io name1 b p q p' ok _ _ _ _ _ s'| | |k t name1 r1 c1 r1' cn cs Hk H1 E
    |k t c q c' ok Hk _ _ _|k t c c' job Hk _ _ _]; try done.
  - by destruct ok.
  - simpl. by rewrite length_insert.
  - destruct (Hall k) as (name & r & Hj & _); [by eapply lookup_lt_Some|congruence].
Qed.
End waiting.

(** ** A connection that has sent more than its first request *)

Section overrun.
Context {CS : Type} (cache_read : nat → bytes → CS → outcome (CS * bytes)).
Context (Buffer_retrieve : Z → bytes → outcome bytes) (Hret : retrieves Buffer_retrieve).
Context (name : bytes).
Implicit Types s : Pipeline CS.

Abbreviation exec := (pl_exec cache_read Buffer_retrieve).
Abbreviation step := (pl_step cache_read Buffer_retrieve).

















End overrun.

(** ** Properties *)

(** C40. The first requests of an I/O thread wait.  A block of the ring reaches
    the pool only when its producer asks for the next one: as long as an I/O
    thread has had at most a block's worth of messages (1024, with the ring
    [MyThreadPool] makes), no thread runs a job of any of its connections, no
    tunnel is made for one, and nothing is taken off their input buffers, whatever
    the other threads do on the ring's first lap. (Each I/O thread has the
    producer [threadInitCallback] is meant to give it; as the program is, none has
    one, [requests_never_queued].) *)
Theorem first_requests_wait {CS} (cache_read : nat → bytes → CS → outcome (CS * bytes))
    (Buffer_retrieve : Z → bytes → outcome bytes) (m : @MyThreadPool (option Job)) (nio : nat)
    (cs : CS) (s : Pipeline CS) (name : bytes) (c : Client) (io : IoThread) :
  retrieves Buffer_retrieve →
  fresh_pool m → rtc (pl_step cache_read Buffer_retrieve) (Pipeline_new m nio cs) s →
  first_lap (ring (pl_pool s)) → pl_clients s !! name = Some c → pl_io s !! cl_io c = Some io →
  Z.of_nat (io_messages io) ≤ try_size (circleArray m) →
  (∀ j r, pl_jobs s !! j ≠ Some (Some (name, r))) ∧ cn_tunnels (cl_conn c) = [] ∧ untouched c.
Proof.
  intros Hret Hm Hreach Hlap Hc Hio Hn.
  assert (pl_inv s) as Hinv by (eapply pl_reachable_inv; [done|apply (fresh_array _ Hm)|done]).
  assert (delay_inv s) as Hdelay by by eapply delay_reachable.
  destruct (pl_reachable_ring _ _ m nio cs Hm s Hreach) as [Ht Hring]. specialize (Hring Hlap).
  destruct (lookup_lt_is_Some_2 (producers (pl_pool s)) (cl_io c)) as [p Hp].
  { rewrite (delay_threads _ Hdelay). by eapply lookup_lt_Some. }
  assert (¬ served s name) as Hserv.
  { eapply first_block_unserved; [done| |done..]. eapply delay_block; [done..|]. by rewrite Ht. }
  split.
  - intros j r Hj. by destruct (inv_jobs _ Hinv j name r Hj).
  - by destruct (inv_clients _ Hinv name c Hc) as [_ [?|?]].
Qed.

(** C10. Web servers that do not accept stop the pool.  When every thread of the
    pool waits, with a job whose request's method is not "Get", whose tunnel is
    made and whose connection has no context yet, then as long as no tunnel of any
    connection comes up, whatever else happens on any connection, no thread ever
    finishes or takes another job out of the ring, and each of them can always go
    on: they spin. (Each I/O thread has the producer [threadInitCallback] is meant
    to give it; as the program is, none has one, [requests_never_queued].) *)
Theorem pool_starves {CS} (cache_read : nat → bytes → CS → outcome (CS * bytes))
    (Buffer_retrieve : Z → bytes → outcome bytes) (s s' : Pipeline CS) :
  (∀ j, (j < length (pl_jobs s))%nat → waits s j) →
  rtc (silent_step cache_read Buffer_retrieve) s s' →
  delivered (pl_pool s') = delivered (pl_pool s) ∧
  ∀ j, (j < length (pl_jobs s))%nat →
    waits s' j ∧ ∀ t, ∃ s'', pl_exec cache_read Buffer_retrieve (PlThread j t) s' = Some (Ret s'').
Proof.
  intros Hall Hreach.
  assert (length (pl_jobs s') = length (pl_jobs s) ∧
    delivered (pl_pool s') = delivered (pl_pool s) ∧
    ∀ j, (j < length (pl_jobs s))%nat → waits s' j) as (_ & Hd & Hw).
  { revert Hreach. apply (rtc_ind_r (λ s', length (pl_jobs s') = length (pl_jobs s) ∧
      delivered (pl_pool s') = delivered (pl_pool s) ∧
      ∀ j, (j < length (pl_jobs s))%nat → waits s' j)); [done|].
    intros s1 s2 _ Hstep (Hl & Hd & Hw). destruct (all_wait_step _ _ s1 s2 Hstep) as [Hl2 Hd2].
    { intros j. rewrite Hl. apply Hw. }
    split; [congruence|]. split; [congruence|]. intros j Hj. eapply waits_step; [done|by apply Hw]. }
  split; [done|]. intros j Hj. split; [by apply Hw|]. intros t. apply waits_runs. by apply Hw.
Qed.


(** ** Witnesses *)

(** Runs that end in a state with a given property. *)
Definition runs_to (es : list pl_event) (s : Pipeline unit) (P : Pipeline unit → bool) : bool :=
  match pl_run no_cache sample_retrieve es s with Some s' => P s' | None => false end.

Lemma runs_to_steps es s P :
  runs_to es s P = true → ∃ s', rtc (pl_step no_cache sample_retrieve) s s' ∧ P s' = true.
Proof.
  unfold runs_to. destruct (pl_run _ _ es s) as [s'|] eqn:E; [|done]. intros HP. exists s'.
  split; [by eapply pl_run_steps|done].
Qed.

(** One message, on a ring whose blocks have two slots. *)
Definition message_waits (s : Pipeline unit) : bool :=
  match pl_clients s !! str "a" with
  | Some c => bool_decide (cl_received c = sample_job) && (cl_io c =? 0)%nat
  | None => false
  end && match pl_io s !! 0%nat with Some io => (io_messages io =? 1)%nat | None => false end
  && (writeId (ring (pl_pool s)) =? 2) && (queue_size (ring (pl_pool s)) =? 8)
  && (try_size (ring (pl_pool s)) =? 2).

Lemma first_requests_wait_witness :
  ∃ s c, rtc (pl_step no_cache sample_retrieve) small_start s ∧ pl_clients s !! str "a" = Some c ∧
    cl_received c = sample_job ∧ cl_input c = sample_job ∧ cn_tunnels (cl_conn c) = [].
Proof.
  destruct (runs_to_steps (one_message (str "a") 3) small_start message_waits) as (s & Hreach & Hs);
    [vm_compute; reflexivity|].
  unfold message_waits in Hs.
  apply andb_prop in Hs as [[[[Hc Hio]%andb_prop Hw%Z.eqb_eq]%andb_prop Hq%Z.eqb_eq]%andb_prop Ht%Z.eqb_eq].
  destruct (pl_clients s !! str "a") as [c|] eqn:Ec; [|discriminate Hc].
  apply andb_prop in Hc as [Hr%bool_decide_eq_true Hcl%Nat.eqb_eq].
  destruct (pl_io s !! 0%nat) as [io|] eqn:Eio; [|discriminate Hio]. apply Nat.eqb_eq in Hio.
  destruct (first_requests_wait no_cache sample_retrieve small_pool 1 () s (str "a") c io
    sample_retrieves small_pool_fresh Hreach) as (_ & Htun & Hu).
  - unfold first_lap. lia.
  - exact Ec.
  - by rewrite Hcl.
  - rewrite Hio. vm_compute. discriminate.
  - exists s, c. split; [exact Hreach|]. split; [exact Ec|]. split; [exact Hr|].
    split; [unfold untouched in Hu; congruence|exact Htun].
Defined.

(** Two threads, each with the job of a connection whose server is silent. *)
Definition two_threads : @MyThreadPool (option Job) :=
  mkMyThreadPool true (mkCircleQueue 8 ∅ [] 2 0) (replicate 2 Consumer_new).
Definition both_wait_events : list pl_event :=
  three_messages ++ one_message (str "d") 2 ++ one_message (str "e") 3
    ++ replicate 8 (PlThread 0 0) ++ replicate 8 (PlThread 1 0).

Definition waits_at (s : Pipeline unit) (j : nat) : bool :=
  match pl_jobs s !! j with
  | Some (Some (name, r)) =>
      l_isCheck (r_locals r) && bool_decide (getRequestMethod (l_context (r_locals r)) ≠ GetMethod)
      && match r_pc r with JCond | JCache | JEmpty | JFull => true | _ => false end
      && match pl_clients s !! name with
         | Some c => negb (c_context (cn_conn (cl_conn c)))
         | None => false
         end
  | _ => false
  end.
Definition both_wait (s : Pipeline unit) : bool :=
  waits_at s 0 && waits_at s 1 && (length (pl_jobs s) =? 2)%nat.

Lemma waits_at_spec s j : waits_at s j = true → waits s j.
Proof.
  unfold waits_at. destruct (pl_jobs s !! j) as [[[name r]|]|] eqn:Hj; [|done..].
  intros [[[Hchk Hm%bool_decide_eq_true]%andb_prop Hpc]%andb_prop Hc]%andb_prop.
  exists name, r. split; [done|]. split; [split; [done|split; [done|by destruct (r_pc r)]]|].
  destruct (pl_clients s !! name) as [c|] eqn:Ec; [|done]. exists c.
  split; [done|]. unfold no_context. by destruct (c_context _).
Qed.

Lemma pool_starves_witness :
  ∃ s, rtc (pl_step no_cache sample_retrieve) (Pipeline_new two_threads 1 ()) s ∧
    waits s 0 ∧ waits s 1 ∧
    ∀ s', rtc (silent_step no_cache sample_retrieve) s s' →
      delivered (pl_pool s') = delivered (pl_pool s) ∧ waits s' 0 ∧ waits s' 1.
Proof.
  destruct (runs_to_steps both_wait_events (Pipeline_new two_threads 1 ()) both_wait)
    as (s & Hreach & Hs); [vm_compute; reflexivity|].
  apply andb_prop in Hs as [[H0%waits_at_spec H1%waits_at_spec]%andb_prop Hl%Nat.eqb_eq].
  exists s. split; [exact Hreach|]. split; [exact H0|]. split; [exact H1|]. intros s' Hsil.
  destruct (pool_starves no_cache sample_retrieve s s') as [Hd Hw].
  - intros [|[|j]] Hj; [exact H0|exact H1|lia].
  - exact Hsil.
  - split; [exact Hd|]. split; apply Hw; lia.
Defined.



