(* ===== verification/Races.v ===== *)
(** * How a job can fail

    Over [Pipeline]: exactly which accesses of a job stop the process, in any
    reachable state, and runs in which the browser or the web server closes
    between two accesses of a job. *)

From S2P Require Import Prelude HttpContext TaskQueue Tunnel ProxyServer JobSteps JobFacts.
From S2P Require Import Pipeline Isolation.
From Stdlib Require Import Lia.

#[local] Open Scope Z_scope.

Section faults.
Context {CS : Type} (cache_read : nat → bytes → CS → outcome (CS * bytes)).
Context (Buffer_retrieve : Z → bytes → outcome bytes) (Hret : retrieves Buffer_retrieve).
Implicit Types s : Pipeline CS.

(** The step of a job [r] of [cn] fails with [f]. *)
Definition job_fails (t : nat) (r : Running) (cn : Connection) (cs : CS) (f : fault) : Prop :=
  let l := r_locals r in
  let n := (l_info l).2 in
  let live := c_input (cn_conn cn) in
  match r_pc r with
  | JCond => l_isCheck l = false ∧ cn_connected cn = true ∧
             parseRequest HttpContext_new (l_buff l) = Some (Fault f)
  | JCache => getRequestMethod (l_context l) = GetMethod ∧
              cache_read t (getRequestUrl (l_context l)) cs = Fault f
  | JTake => Z.of_nat (length live) < n ∧ f = AssertionFailed
  | JClient => c_context (cn_conn cn) = false ∧ f = BadAnyCast
  | JPush _ => cn_entry cn = None ∧ f = UndefinedBehaviour
  | JForward k => (c_context (cn_conn cn) = false ∨ cn_holds cn ≠ k) ∧ f = UndefinedBehaviour
  | JRetrieve http_ =>
      (Z.of_nat (length live) < n ∨ http_ ≠ front n (l_buff l)) ∧ f = AssertionFailed
  | _ => False
  end.

Lemma parse_fault_new c b f :
  parseRequest c b = Some (Fault f) ↔ parseRequest HttpContext_new b = Some (Fault f).
Proof.
  rewrite parse_carry.
  destruct (parseRequest HttpContext_new b) as [[x|g]|]; simpl; naive_solver.
Qed.

Lemma retrieve_cases n b : 0 ≤ n →
  Buffer_retrieve n b = if decide (Z.of_nat (length b) < n) then Fault AssertionFailed
                        else Ret (drop (Z.to_nat n) b).
Proof.
  intros Hn. rewrite Hret, (proj2 (Z.leb_le _ _) Hn). simpl.
  case_decide; [by rewrite (proj2 (Z.leb_gt _ _))|by rewrite (proj2 (Z.leb_le _ _)) by lia].
Qed.

Lemma erase_front_ok n b : 0 ≤ n ≤ Z.of_nat (length b) → erase_front n b = Ret (drop (Z.to_nat n) b).
Proof. intros Hn. unfold erase_front. by rewrite in_vector_true. Qed.

(** A parsed copy holds the request. *)
Lemma parsed_bounds l :
  parsed l → Z.of_nat (length (l_buff l)) ≤ INT_MAX →
  0 ≤ (l_info l).2 ≤ Z.of_nat (length (l_buff l)).
Proof.
  intros (ctx & n & k & Hp & -> & _) Hlen. pose proof (parse_in_bounds _ _ _ _ Hlen Hp). simpl. lia.
Qed.

Lemma job_step_fails t r cn cs f :
  locals_ok (r_pc r) (r_locals r) → Z.of_nat (length (l_buff (r_locals r))) ≤ INT_MAX →
  job_step cache_read Buffer_retrieve t r cn cs = Fault f ↔ job_fails t r cn cs f.
Proof.
  intros Hok Hlen. destruct r as [pc l]. unfold job_fails, job_step.
  destruct pc; cbn [r_pc r_locals locals_ok] in *; try naive_solver.
  - destruct (l_isCheck l); [naive_solver|]. destruct (cn_connected cn); [|naive_solver].
    rewrite <-(parse_fault_new (l_context l)).
    destruct (parse_total (l_context l) (l_buff l)) as ([[c i]|g] & -> & _); simpl; naive_solver.
  - case_decide; [|naive_solver]. destruct (cache_read _ _ _) as [[cs' content]|g]; naive_solver.
  - destruct Hok as [Hp _]. pose proof (parsed_bounds l Hp Hlen) as Hn.
    rewrite retrieve_cases, erase_front_ok by lia. case_decide; naive_solver.
  - destruct (c_context _); naive_solver.
  - destruct (cn_entry cn); naive_solver.
  - pose proof (parsed_bounds l Hok Hlen) as Hn. rewrite in_vector_true by done.
    destruct (c_context _); simpl; [|naive_solver]. case_bool_decide; naive_solver.
  - pose proof (parsed_bounds l Hok Hlen) as Hn. rewrite retrieve_cases, erase_front_ok by lia.
    case_decide; simpl; [naive_solver|]. case_bool_decide; simpl; naive_solver.
  - case_match; naive_solver.
Qed.
End faults.

(** ** Properties *)

(** C9. How a pool thread fails in a job.  In any reachable state the next access
    of a job stops the process in these cases only, and then as stated: an integer
    that [atoi] cannot hold; a cache that fails; [retrieve] or the comparison
    [http_ == http] finding other bytes than the job copied; the web server having
    closed since the context was tested, or since [clientConn] was taken from it;
    and the browser having closed since, so that [tunnels] has no entry to push
    to.  No other access can fail. (Each I/O thread has the producer
    [threadInitCallback] is meant to give it; as the program is, none has one,
    [requests_never_queued].) *)
Theorem job_failures {CS} (cache_read : nat → bytes → CS → outcome (CS * bytes))
    (Buffer_retrieve : Z → bytes → outcome bytes) (m : @MyThreadPool (option Job)) (nio : nat)
    (cs : CS) (s : Pipeline CS) (j t : nat) (name : bytes) (r : Running) (c : Client) (f : fault) :
  retrieves Buffer_retrieve →
  fresh_pool m → rtc (pl_step cache_read Buffer_retrieve) (Pipeline_new m nio cs) s →
  pl_jobs s !! j = Some (Some (name, r)) → pl_clients s !! name = Some c →
  Z.of_nat (length (cl_received c)) ≤ INT_MAX →
  pl_exec cache_read Buffer_retrieve (PlThread j t) s = Some (Fault f) ↔
  job_fails cache_read t r (cl_conn c) (pl_cache s) f.
Proof.
  intros Hret Hm Hreach Hj Hc Hlen.
  assert (pl_inv s) as Hinv
    by (eapply pl_reachable_inv; [done|apply (fresh_array _ Hm)|done]).
  destruct (inv_jobs _ Hinv j name r Hj) as [(c1 & Hc1 & [[Hpart _] Hloc]) _].
  rewrite Hc in Hc1. injection Hc1 as <-.
  assert (Z.of_nat (length (l_buff (r_locals r))) ≤ INT_MAX) as Hb.
  { destruct Hpart as (x & y & E). rewrite E, !length_app in Hlen. lia. }
  rewrite <-(job_step_fails cache_read Buffer_retrieve Hret t r (cl_conn c) (pl_cache s) f Hloc Hb).
  simpl. unfold pool_thread. rewrite Hj. cbn [mbind option_bind]. rewrite Hc. cbn [mbind option_bind].
  destruct (job_step _ _ _ _ _ _) as [[[r' cn] cs']|g]; simpl; naive_solver.
Qed.

(** ** Witness *)

(** Thread 0 has made the tunnel of "a", which comes up; [n] accesses later, [es]. *)
Definition between (n : nat) (es : list pl_event) : list pl_event :=
  three_messages ++ replicate 8 (PlThread 0 0) ++ [PlTunnel (str "a") 0 EvUp]
    ++ replicate n (PlThread 0 0) ++ es.
Definition browser_closes : list pl_event := [PlDown (str "a"); PlIo 0].
Definition server_closes : list pl_event := [PlTunnel (str "a") 0 EvDown].

(** Thread 0 runs the job of "a" and satisfies [P]. *)
Definition job_of_a (P : Running → Connection → bool) (s : Pipeline unit) : bool :=
  match pl_jobs s !! 0%nat, pl_clients s !! str "a" with
  | Some (Some (name, r)), Some c =>
      bool_decide (name = str "a") && bool_decide (cl_received c = sample_job) && P r (cl_conn c)
  | _, _ => false
  end.

Lemma run_job_of_a es P :
  match pl_run no_cache sample_retrieve es small_start with
  | Some s => job_of_a P s
  | None => false
  end = true →
  ∃ s r c, rtc (pl_step no_cache sample_retrieve) small_start s ∧
    pl_jobs s !! 0%nat = Some (Some (str "a", r)) ∧ pl_clients s !! str "a" = Some c ∧
    cl_received c = sample_job ∧ P r (cl_conn c) = true.
Proof.
  destruct (pl_run _ _ es small_start) as [s|] eqn:E; [|done]. unfold job_of_a.
  destruct (pl_jobs s !! 0%nat) as [[[name r]|]|] eqn:Hj; [|done..].
  destruct (pl_clients s !! str "a") as [c|] eqn:Hc; [|done].
  intros [[->%bool_decide_eq_true Hr%bool_decide_eq_true]%andb_prop HP]%andb_prop.
  exists s, r, c. split; [by eapply pl_run_steps|done].
Qed.

Definition push_without_entry (r : Running) (cn : Connection) : bool :=
  match r_pc r, cn_entry cn with JPush _, None => true | _, _ => false end.
Definition cast_without_context (r : Running) (cn : Connection) : bool :=
  match r_pc r with JClient => negb (c_context (cn_conn cn)) | _ => false end.

(** The browser closes before [tunnels[name]->pushCache]; the web server closes
    before [any_cast]. *)
Lemma job_failures_witness :
  (∃ s, rtc (pl_step no_cache sample_retrieve) small_start s ∧
     pl_exec no_cache sample_retrieve (PlThread 0 0) s = Some (Fault UndefinedBehaviour)) ∧
  (∃ s, rtc (pl_step no_cache sample_retrieve) small_start s ∧
     pl_exec no_cache sample_retrieve (PlThread 0 0) s = Some (Fault BadAnyCast)).
Proof.
  split.
  - destruct (run_job_of_a (between 5 browser_closes) push_without_entry)
      as (s & r & c & Hreach & Hj & Hc & Hr & HP); [vm_compute; reflexivity|].
    exists s. split; [exact Hreach|].
    apply (job_failures no_cache sample_retrieve small_pool 1 () s 0 0 (str "a") r c
      UndefinedBehaviour sample_retrieves small_pool_fresh Hreach Hj Hc).
    { rewrite Hr. vm_compute. discriminate. }
    unfold push_without_entry, job_fails in *. destruct (r_pc r); try discriminate HP.
    by destruct (cn_entry _).
  - destruct (run_job_of_a (between 4 server_closes) cast_without_context)
      as (s & r & c & Hreach & Hj & Hc & Hr & HP); [vm_compute; reflexivity|].
    exists s. split; [exact Hreach|].
    apply (job_failures no_cache sample_retrieve small_pool 1 () s 0 0 (str "a") r c
      BadAnyCast sample_retrieves small_pool_fresh Hreach Hj Hc).
    { rewrite Hr. vm_compute. discriminate. }
    unfold cast_without_context, job_fails in *. destruct (r_pc r); try discriminate HP.
    by destruct (c_context _).
Defined.

(** The first request of "a" is served; the job of its second is about to test
    [getContext()] again, on thread 1, when the web server closes.  The condition
    of the loop parses again, into a context that was not reset. *)
Definition closed_between_tests : list pl_event :=
  between 11 [PlBytes (str "a") sample_job; PlIo 0; PlIo 0] ++ one_message (str "d") 3
    ++ [PlDown (str "c"); PlIo 0] ++ replicate 8 (PlThread 1 0) ++ server_closes.

Example reparsed_without_reset :
  match pl_run no_cache sample_retrieve (closed_between_tests ++ replicate 2 (PlThread 1 0))
      small_start with
  | Some s => match pl_jobs s !! 1%nat with
              | Some (Some (name, r)) =>
                  bool_decide (name = str "a")
                  && bool_decide (getRequestUrl (l_context (r_locals r)) = str "/a/a")
              | _ => false
              end
  | None => false
  end = true.
Proof. vm_compute. reflexivity. Qed.
