(* ===== verification/Workers.v ===== *)
(** * Master and worker processes

    Models src/Process/MasterProcess.{h,cpp} and WorkerProcess.{h,cpp}.  The
    array of event descriptors in shared memory has [processNum - 1] entries,
    one per worker.  What [fork], [wait], [eventfd], [signalfd] and [read]
    return are arguments; the event descriptors written to are a list of
    (descriptor, value) pairs.  [sup_step] is the family of processes that run
    [checkWorkerExit]; [System] puts the workers together. *)

From S2P Require Import Prelude CString ProcLock TaskQueue EventLoops TcpServer ProxyServer.
From Stdlib Require Import Lia.

#[local] Open Scope Z_scope.

(** [*(shmAddr + i)]: nothing outside the mapped array may be accessed. *)
Definition shm_read (shmAddr : list Z) (i : Z) : outcome Z :=
  if 0 <=? i then deref (shmAddr !! Z.to_nat i) else Fault UndefinedBehaviour.

(** ** [WorkerProcess] *)

Record WorkerProcess := mkWorkerProcess {
  shmId : Z;
  processNum : Z;                (* int *)
  w_server : ProxyServer;
}.

(** [idleFd] and [indeterminate] are what [open] returns and what the server's
    uninitialised member holds. *)
Definition WorkerProcess_new (shm_id process_num : Z) (loop : Loop) (idleFd indeterminate : Z)
    : outcome WorkerProcess :=
  ps ← ProxyServer_new loop (str "127.0.0.1:6666") idleFd indeterminate;
  Ret (mkWorkerProcess shm_id process_num ps).

(** Unlock, then tell the next worker: the value written is [shmId]. *)
Definition acceptorScheduling (shmId eventFd : Z) (w : World) : outcome World :=
  let one := u64 shmId in
  '(shm, owner) ← unlock (w_shm w) (w_owner w);
  Ret (mkWorld shm owner (w_producers w) (w_events w ++ [(eventFd, one)])).

(** The channel it watches is the descriptor returned first. *)
Definition WorkerProcess_start (shmAddr : list Z) (mem : nat → Loop * ProducerPtr) (now : Z)
    (wp : WorkerProcess) (w : World) : outcome (Z * WorkerProcess * World) :=
  fd ← shm_read shmAddr (shmId wp);
  ps ← setIOThreadNum 2 (w_server wp);
  '(ps, w) ← ProxyServer_start mem now ps w;
  Ret (fd, mkWorkerProcess (shmId wp) (processNum wp) ps, w).

(** [res] is what [read] of the worker's own descriptor returned. *)
Definition EventHandler (shmAddr : list Z) (res : Z) (mem : nat → Loop * ProducerPtr) (now : Z)
    (wp : WorkerProcess) (w : World) : outcome (WorkerProcess * World) :=
  _ ← shm_read shmAddr (shmId wp);
  _ ← cassert (negb (res =? -1));
  next ← shm_read shmAddr (Z.rem (shmId wp + 1) (processNum wp));
  let ps := ProxyServer_setHandler (acceptorScheduling (shmId wp) next) (w_server wp) in
  '(ps, w) ← ProxyServer_start mem now ps w;
  Ret (mkWorkerProcess (shmId wp) (processNum wp) ps, w).

(** ** [MasterProcess] *)

Record MasterProcess := mkMasterProcess {
  shmAddr : list Z;              (* int[processNum - 1], shared *)
  notifyId : Z;                  (* int *)
  eventfds : list (Z * nat);     (* pid, index in [shmAddr] *)
  m_eventLoop : option Loop;     (* in no initialiser list *)
  handlers : gset Z;             (* the signals that have one *)
  eventFdQueue : list Z;
  processShmIdMap : gmap Z Z;
  m_processNum : Z;              (* uint16_t *)
  checkInterval : Z;             (* uint64_t *)
}.

Definition DEFAULT_CHECK_INTERVAL : Z := 2.

(** [mmap] of no bytes fails, and so does an [ftruncate] to [(size_t)-4]. *)
Definition MasterProcess_new (n : Z) (map : gset Z) : outcome MasterProcess :=
  _ ← cassert (1 <? u16 n);
  Ret (mkMasterProcess (replicate (Z.to_nat (u16 n - 1)) 0) 0 [] None map [] ∅ (u16 n)
         DEFAULT_CHECK_INTERVAL).

Definition set_shm (shm : list Z) (m : MasterProcess) : MasterProcess :=
  mkMasterProcess shm (notifyId m) (eventfds m) (m_eventLoop m) (handlers m) (eventFdQueue m)
    (processShmIdMap m) (m_processNum m) (checkInterval m).
Definition set_queue (q : list Z) (m : MasterProcess) : MasterProcess :=
  mkMasterProcess (shmAddr m) (notifyId m) (eventfds m) (m_eventLoop m) (handlers m) q
    (processShmIdMap m) (m_processNum m) (checkInterval m).
Definition set_children (es : list (Z * nat)) (ids : gmap Z Z) (m : MasterProcess) : MasterProcess :=
  mkMasterProcess (shmAddr m) (notifyId m) es (m_eventLoop m) (handlers m) (eventFdQueue m)
    ids (m_processNum m) (checkInterval m).
Definition set_eventLoop (l : option Loop) (m : MasterProcess) : MasterProcess :=
  mkMasterProcess (shmAddr m) (notifyId m) (eventfds m) l (handlers m) (eventFdQueue m)
    (processShmIdMap m) (m_processNum m) (checkInterval m).
Definition setCheckInterval (seconds : Z) (m : MasterProcess) : MasterProcess :=
  mkMasterProcess (shmAddr m) (notifyId m) (eventfds m) (m_eventLoop m) (handlers m)
    (eventFdQueue m) (processShmIdMap m) (m_processNum m) (u64 seconds).

(** [signalfd] returned [sfd]; the result is the channel's loop and descriptor,
    and the mask. *)
Definition signalProcessInit (sfd : Z) (m : MasterProcess) : outcome (Loop * Z * gset Z) :=
  _ ← cassert (negb (sfd =? -1));
  loop ← deref (m_eventLoop m);
  Ret (loop, sfd, handlers m).

Definition signalHandlers (m : MasterProcess) : MasterProcess := m.

(** The spare descriptors: ten attempts, [eventfd] may fail. *)
Definition backup_fds (eventfd : nat → Z) : list Z :=
  filter (λ fd, 0 < fd) (eventfd <$> seq 0 10).

(** What a process is after the forking loop of [start]: the master, or a
    worker, with the arguments of its constructor. *)
Inductive role :=
  | IsMaster (m : MasterProcess)
  | IsWorker (shmId processNum : Z) (shm : list Z).

(** Iterations [i ..] of the loop, [k] of them; [None]: the loop has not run,
    and [pid] is still uninitialised. *)
Fixpoint fork_loop (eventfd fork : nat → Z) (k i : nat) (m : MasterProcess) (pid : option Z)
    : outcome role :=
  match k with
  | O => match pid with None => Fault UndefinedBehaviour | Some _ => Ret (IsMaster m) end
  | S k =>
      let shm := <[i := eventfd i]> (shmAddr m) in
      let m := set_shm shm m in
      if fork i =? 0 then Ret (IsWorker (Z.of_nat i) (m_processNum m) shm)
      else
        fork_loop eventfd fork k (S i)
          (set_children (eventfds m ++ [(fork i, i)])
             (<[fork i := Z.of_nat i]> (processShmIdMap m)) m) (Some (fork i))
  end.

(** The master's own event loop is at [loop]; [start] then runs it. *)
Definition MasterProcess_start (loop : Loop) (backup eventfd fork : nat → Z) (m : MasterProcess)
    : outcome role :=
  r ← fork_loop eventfd fork (Z.to_nat (m_processNum m - 1)) 0
        (set_queue (eventFdQueue m ++ backup_fds backup) m) None;
  Ret (match r with IsMaster m => IsMaster (set_eventLoop (Some loop) m) | _ => r end).

(** [notify]: the descriptor and the value written to it. *)
Definition notify (m : MasterProcess) : outcome (MasterProcess * (Z * Z)) :=
  if m_processNum m - 1 =? 0 then Fault UndefinedBehaviour
  else
    fd ← shm_read (shmAddr m) (Z.rem (notifyId m) (m_processNum m - 1));
    if INT_MAX <=? notifyId m then Fault UndefinedBehaviour
    else Ret (mkMasterProcess (shmAddr m) (notifyId m + 1) (eventfds m) (m_eventLoop m)
                (handlers m) (eventFdQueue m) (processShmIdMap m) (m_processNum m)
                (checkInterval m), (fd, 1)).

Definition processIsAlive (pid : Z) : bool := true.

(** [fork i] is what [fork] returns for entry [i]. *)
Definition checkWorkerStatus (fork : nat → Z) (m : MasterProcess) : MasterProcess :=
  set_children
    (imap (λ i e, if processIsAlive e.1 then e
                  else if fork i =? 0 then e else (fork i, e.2)) (eventfds m))
    (processShmIdMap m) m.

(** The loop of [checkWorkerExit] in one process: the master's state, the
    number of [wait]s made so far, and the workers it constructed.  The [fork]
    of iteration [i] duplicates the process; its result [pid_] is not tested. *)
Record exit_state := mkExitState {
  x_master : MasterProcess;
  x_waits : nat;
  x_spawned : list (Z * Z);      (* evfd, shmId *)
}.

Definition checkWorkerExit_step (wait : nat → Z) (s : exit_state)
    : outcome (exit_state + exit_state) :=
  let m := x_master s in
  match eventFdQueue m with
  | [] => Ret (inr s)
  | evfd :: rest =>
      let pid := wait (x_waits s) in
      (* [processShmIdMap[pid]] inserts 0 for an unknown pid *)
      let id := default 0 (processShmIdMap m !! pid) in
      let ids := <[pid := id]> (processShmIdMap m) in
      let m := set_children (eventfds m) ids m in
      if -1 <? pid then
        if pid =? 0 then
          Ret (inl (mkExitState
            (set_shm (<[Z.to_nat id := evfd]> (shmAddr m)) (set_queue rest m)) (S (x_waits s))
            (x_spawned s ++ [(evfd, id)])))
        else Ret (inl (mkExitState m (S (x_waits s)) (x_spawned s)))
      else Ret (inl (mkExitState m (S (x_waits s)) (x_spawned s)))
  end.

Definition checkWorkerExit (wait : nat → Z) (fuel : nat) (m : MasterProcess)
    : option (outcome exit_state) :=
  run_loop (checkWorkerExit_step wait) fuel (mkExitState m 0 []).

(** ** The processes that supervise

    The [fork] of [checkWorkerExit] copies the process with the thread that
    runs its loop; the copy has no children and goes on with the loop.  *)

Record supervisor := mkSupervisor {
  sup_pid : Z;
  sup_state : exit_state;
  sup_live : list Z;             (* children that run *)
  sup_dead : list Z;             (* children that [wait] has not returned yet *)
}.

Definition all_pids (ss : list supervisor) : list Z :=
  ss ≫= λ p, sup_pid p :: sup_live p ++ sup_dead p.

(** All of them, and how many of their [fork]s have failed. *)
Record family := mkFamily {
  fam : list supervisor;
  fam_failed : nat;              (* ghost *)
}.

(** The process after [wait] has returned one of its dead children, [fork] has
    returned [pid_], and the iteration has left [st]. *)
Definition reaped (st : exit_state) (pid_ : Z) (dead : list Z) (p : supervisor) : supervisor :=
  mkSupervisor (sup_pid p) st (if 0 <? pid_ then sup_live p ++ [pid_] else sup_live p) dead.

(** One of them makes one iteration, or a worker exits.  [wait] returns any
    child that has exited, and blocks while there are children and all of them
    run.  [fork] makes a copy that goes on from the same state, or fails and
    returns -1, which nothing tests. *)
Inductive sup_step : family → family → Prop :=
  | sup_exit ss n i p l1 pid l2 :
      ss !! i = Some p → sup_live p = l1 ++ pid :: l2 → pid ∉ sup_pid <$> ss →
      sup_step (mkFamily ss n)
        (mkFamily
           (<[i := mkSupervisor (sup_pid p) (sup_state p) (l1 ++ l2) (sup_dead p ++ [pid])]> ss) n)
  | sup_reap ss n i p d1 pid d2 st pid_ :
      ss !! i = Some p → sup_dead p = d1 ++ pid :: d2 →
      checkWorkerExit_step (λ _, pid) (sup_state p) = Ret (inl st) →
      0 < pid_ → pid_ ∉ all_pids ss →
      sup_step (mkFamily ss n)
        (mkFamily (<[i := reaped st pid_ (d1 ++ d2) p]> ss ++ [mkSupervisor pid_ st [] []]) n)
  | sup_fork_fails ss n i p d1 pid d2 st :
      ss !! i = Some p → sup_dead p = d1 ++ pid :: d2 →
      checkWorkerExit_step (λ _, pid) (sup_state p) = Ret (inl st) →
      sup_step (mkFamily ss n) (mkFamily (<[i := reaped st (-1) (d1 ++ d2) p]> ss) (S n))
  | sup_spin ss n i p st :
      ss !! i = Some p → sup_live p = [] → sup_dead p = [] →
      checkWorkerExit_step (λ _, -1) (sup_state p) = Ret (inl st) →
      sup_step (mkFamily ss n) (mkFamily (<[i := mkSupervisor (sup_pid p) st [] []]> ss) n).

(** The master, whose children are the workers. *)
Definition sup_init (master : Z) (m : MasterProcess) (workers : list Z) : family :=
  mkFamily [mkSupervisor master (mkExitState m 0 []) workers []] 0.

(** ** What the master's [start] leaves *)

Lemma fork_loop_master eventfd fork k i m pid m' :
  fork_loop eventfd fork k i m pid = Ret (IsMaster m') →
  (i + k ≤ length (shmAddr m))%nat →
  (∀ j, (i ≤ j < i + k)%nat → shmAddr m' !! j = Some (eventfd j) ∧ fork j ≠ 0) ∧
  (∀ j, (j < i ∨ i + k ≤ j)%nat → shmAddr m' !! j = shmAddr m !! j) ∧
  eventfds m' = eventfds m ++ ((λ j, (fork j, j)) <$> seq i k).
Proof.
  revert i m pid. induction k as [|k IH]; intros i m pid Hrun Hlen; simpl in Hrun.
  { destruct pid; simplify_eq. split; [lia|]. split; [done|]. simpl. by rewrite app_nil_r. }
  destruct (Z.eqb_spec (fork i) 0) as [|Hf]; [done|].
  apply IH in Hrun as (Hin & Hout & Hev); simpl in *; [|rewrite length_insert; lia].
  split; [|split].
  - intros j Hj. destruct (decide (j = i)) as [->|]; [|apply Hin; lia].
    rewrite Hout by lia. rewrite list_lookup_insert_eq by lia. done.
  - intros j Hj. rewrite Hout by lia. by rewrite list_lookup_insert_ne by lia.
  - by rewrite Hev, <-app_assoc.
Qed.

Lemma fork_loop_length eventfd fork k i m pid m' :
  fork_loop eventfd fork k i m pid = Ret (IsMaster m') → length (shmAddr m') = length (shmAddr m).
Proof.
  revert i m pid. induction k as [|k IH]; intros i m pid Hrun; simpl in Hrun.
  { by destruct pid; simplify_eq. }
  destruct (fork i =? 0); [done|]. apply IH in Hrun. rewrite Hrun. simpl. apply length_insert.
Qed.

Lemma shm_read_lookup shm i fd : 0 ≤ i → shm !! Z.to_nat i = Some fd → shm_read shm i = Ret fd.
Proof. intros Hi Hl. unfold shm_read. by rewrite (proj2 (Z.leb_le _ _) Hi), Hl. Qed.

Lemma shm_read_outside shm i :
  Z.of_nat (length shm) ≤ i → shm_read shm i = Fault UndefinedBehaviour.
Proof.
  intros Hi. unfold shm_read. destruct (0 <=? i); [|done].
  by rewrite lookup_ge_None_2 by lia.
Qed.

(** ** Supervision *)

(** No worker constructed, no spare descriptor taken, no slot changed. *)
Definition idle_exit (m : MasterProcess) (s : exit_state) : Prop :=
  x_spawned s = [] ∧ eventFdQueue (x_master s) = eventFdQueue m ∧
  shmAddr (x_master s) = shmAddr m.

Lemma checkWorkerExit_step_idle wait m s :
  wait (x_waits s) ≠ 0 → eventFdQueue m ≠ [] → idle_exit m s →
  ∃ s', checkWorkerExit_step wait s = Ret (inl s') ∧ idle_exit m s'.
Proof.
  intros Hwait Hq (Hs & Hf & Ha). unfold checkWorkerExit_step, idle_exit.
  destruct (eventFdQueue (x_master s)) as [|fd q] eqn:Eq; [by destruct Hq|].
  rewrite (proj2 (Z.eqb_neq _ _) Hwait).
  destruct (-1 <? _); eexists; (split; [done|]); simpl; (split; [done|split; [congruence|done]]).
Qed.

Lemma checkWorkerExit_idle_Ret wait m s r :
  wait (x_waits s) ≠ 0 → eventFdQueue m ≠ [] → idle_exit m s →
  checkWorkerExit_step wait s = Ret r → ∃ s', r = inl s' ∧ idle_exit m s'.
Proof.
  intros Hwait Hq Hi E. destruct (checkWorkerExit_step_idle wait m s Hwait Hq Hi) as (s' & E' & ?).
  rewrite E' in E. simplify_eq. by exists s'.
Qed.

(** The first process has the children: [left] workers, and a copy for each
    worker that is gone and whose [fork] did not fail.  The copies have none. *)
Definition childless (p : supervisor) : Prop := sup_live p = [] ∧ sup_dead p = [].
Definition sup_family (workers : list Z) (failed : nat) (ss : list supervisor) : Prop :=
  ∃ p copies left, ss = p :: copies ∧ Forall childless copies ∧
    sup_live p ++ sup_dead p ≡ₚ left ++ (sup_pid <$> copies) ∧
    left ⊆+ workers ∧ (length left + length copies + failed = length workers)%nat ∧
    Forall (λ pid, pid ∉ sup_pid <$> copies) (sup_dead p).

Lemma childless_lookup copies j p :
  Forall childless copies → copies !! j = Some p → sup_live p = [] ∧ sup_dead p = [].
Proof. intros Hall Hj. by apply (Forall_lookup_1 _ _ _ _ Hall Hj). Qed.

(** A dead child is a worker. *)
Lemma dead_is_worker workers n ss i p pid :
  sup_family workers n ss → ss !! i = Some p → pid ∈ sup_dead p → pid ∈ workers.
Proof.
  intros (m & copies & left & -> & Hc & Hperm & Hsub & _ & Hd) Hi Hin.
  destruct i as [|j]; simpl in Hi.
  - injection Hi as ->. rewrite Forall_forall in Hd. specialize (Hd pid Hin).
    apply (elem_of_submseteq left); [|done].
    assert (pid ∈ left ++ (sup_pid <$> copies)) as [?|?]%elem_of_app; [|done..].
    rewrite <-Hperm. apply elem_of_app. by right.
  - apply (childless_lookup _ _ _ Hc) in Hi as [_ Hi]. rewrite Hi in Hin. by apply elem_of_nil in Hin.
Qed.

Lemma sup_exit_family workers n ss i p l1 pid l2 :
  sup_family workers n ss → ss !! i = Some p → sup_live p = l1 ++ pid :: l2 →
  pid ∉ sup_pid <$> ss →
  sup_family workers n
    (<[i := mkSupervisor (sup_pid p) (sup_state p) (l1 ++ l2) (sup_dead p ++ [pid])]> ss).
Proof.
  intros (m & copies & left & -> & Hc & Hperm & Hsub & Hlen & Hd) Hi Hl Hpid.
  destruct i as [|j]; simpl in *; [injection Hi as ->|].
  - eexists _, copies, left. split; [done|]. split; [done|]. simpl. split; [|split; [done|]].
    + rewrite <-Hperm, Hl. solve_Permutation.
    + split; [done|]. apply Forall_app. split; [done|]. apply Forall_singleton.
      by apply not_elem_of_cons in Hpid as [_ ?].
  - apply (childless_lookup _ _ _ Hc) in Hi as [Hi _]. rewrite Hi in Hl. by destruct l1.
Qed.

(** A dead child of the first process is gone. *)
Lemma dead_gone left copies (live d1 d2 : list Z) pid :
  live ++ (d1 ++ pid :: d2) ≡ₚ left ++ (sup_pid <$> copies) → pid ∉ sup_pid <$> copies →
  ∃ left', left ≡ₚ pid :: left' ∧ live ++ (d1 ++ d2) ≡ₚ left' ++ (sup_pid <$> copies).
Proof.
  intros Hperm Hpid. assert (pid ∈ left) as (left' & Hleft)%elem_of_Permutation.
  { assert (pid ∈ left ++ (sup_pid <$> copies)) as [?|?]%elem_of_app; [|done..].
    rewrite <-Hperm. apply elem_of_app. right. apply elem_of_app. right. by left. }
  exists left'. split; [done|]. apply (Permutation_cons_inv (a := pid)). rewrite Hleft in Hperm.
  simpl in Hperm. rewrite <-Hperm. solve_Permutation.
Qed.

Lemma sup_reap_family workers n ss i p d1 pid d2 st pid_ :
  sup_family workers n ss → ss !! i = Some p → sup_dead p = d1 ++ pid :: d2 →
  0 < pid_ → pid_ ∉ all_pids ss →
  sup_family workers n (<[i := reaped st pid_ (d1 ++ d2) p]> ss ++ [mkSupervisor pid_ st [] []]).
Proof.
  intros (m & copies & left & -> & Hc & Hperm & Hsub & Hlen & Hd) Hi Hl Hpos Hnew.
  destruct i as [|j]; simpl in *; [injection Hi as ->|].
  - rewrite Hl in *. apply Forall_app in Hd as [Hd1 [Hpid Hd2]%Forall_cons].
    destruct (dead_gone _ _ _ _ _ _ Hperm Hpid) as (left' & Hleft & Hperm').
    unfold reaped. rewrite (proj2 (Z.ltb_lt _ _) Hpos).
    eexists _, (copies ++ [mkSupervisor pid_ st [] []]), left'. split; [done|]. simpl.
    split; [by apply Forall_app; split; [|apply Forall_singleton]|]. rewrite fmap_app. simpl.
    split; [|split; [|split]].
    + trans ((sup_live p ++ (d1 ++ d2)) ++ [pid_]); [solve_Permutation|].
      rewrite Hperm'. solve_Permutation.
    + etrans; [|done]. rewrite Hleft. by apply submseteq_cons.
    + rewrite length_app. apply Permutation_length in Hleft. simpl in *. lia.
    + apply Forall_forall. intros x Hx. apply not_elem_of_app. split.
      * rewrite Forall_forall in Hd1, Hd2. apply elem_of_app in Hx as [?|?]; auto.
      * rewrite list_elem_of_singleton. intros ->. apply Hnew. unfold all_pids. simpl. right.
        apply elem_of_app. left. apply elem_of_app. right.
        rewrite ?Hl. apply elem_of_app. apply elem_of_app in Hx as [?|?]; [by left|right; by right].
  - apply (childless_lookup _ _ _ Hc) in Hi as [_ Hi]. rewrite Hi in Hl. by destruct d1.
Qed.

(** Without a copy. *)
Lemma sup_fork_fails_family workers n ss i p d1 pid d2 st :
  sup_family workers n ss → ss !! i = Some p → sup_dead p = d1 ++ pid :: d2 →
  sup_family workers (S n) (<[i := reaped st (-1) (d1 ++ d2) p]> ss).
Proof.
  intros (m & copies & left & -> & Hc & Hperm & Hsub & Hlen & Hd) Hi Hl.
  destruct i as [|j]; simpl in *; [injection Hi as ->|].
  - rewrite Hl in *. apply Forall_app in Hd as [Hd1 [Hpid Hd2]%Forall_cons].
    destruct (dead_gone _ _ _ _ _ _ Hperm Hpid) as (left' & Hleft & Hperm').
    eexists _, copies, left'. split; [done|]. split; [done|]. split; [done|].
    split; [etrans; [|done]; rewrite Hleft; by apply submseteq_cons|].
    split; [apply Permutation_length in Hleft; simpl in *; lia|]. by apply Forall_app.
  - apply (childless_lookup _ _ _ Hc) in Hi as [_ Hi]. rewrite Hi in Hl. by destruct d1.
Qed.

Lemma sup_spin_family workers n ss i p st :
  sup_family workers n ss → ss !! i = Some p → childless p →
  sup_family workers n (<[i := mkSupervisor (sup_pid p) st [] []]> ss).
Proof.
  intros (m & copies & left & -> & Hc & Hperm & Hsub & Hlen & Hd) Hi [Hl0 Hd0].
  destruct i as [|j]; simpl in *; [injection Hi as ->|].
  - rewrite Hl0, Hd0 in *. by eexists _, copies, left.
  - exists m, (<[j := mkSupervisor (sup_pid p) st [] []]> copies), left.
    assert (sup_pid <$> <[j := mkSupervisor (sup_pid p) st [] []]> copies = sup_pid <$> copies)
      as ->.
    { rewrite list_fmap_insert. apply list_insert_id. simpl. by rewrite list_lookup_fmap, Hi. }
    rewrite length_insert. split; [done|]. split; [by apply Forall_insert|done].
Qed.

Definition sup_inv (m : MasterProcess) (workers : list Z) (f : family) : Prop :=
  sup_family workers (fam_failed f) (fam f) ∧ Forall (λ p, idle_exit m (sup_state p)) (fam f).

(** An iteration that reaps a worker leaves an idle state. *)
Lemma reap_idle m workers n ss i p pid st :
  eventFdQueue m ≠ [] → Forall (λ pid, 0 < pid) workers →
  sup_family workers n ss → Forall (λ p, idle_exit m (sup_state p)) ss →
  ss !! i = Some p → pid ∈ sup_dead p →
  checkWorkerExit_step (λ _, pid) (sup_state p) = Ret (inl st) → idle_exit m st.
Proof.
  intros Hq Hpos Hfam Hidle Hi Hd E. assert (0 < pid).
  { rewrite Forall_forall in Hpos. apply Hpos. by eapply dead_is_worker. }
  apply (checkWorkerExit_idle_Ret _ m) in E as (s' & Hs' & Hst);
    [by simplify_eq|lia|done|by apply (Forall_lookup_1 _ _ _ _ Hidle Hi)].
Qed.

Lemma sup_step_inv m workers f f' :
  eventFdQueue m ≠ [] → Forall (λ pid, 0 < pid) workers →
  sup_inv m workers f → sup_step f f' → sup_inv m workers f'.
Proof.
  intros Hq Hpos [Hfam Hidle] Hstep.
  destruct Hstep as [ss n i p l1 pid l2 Hi Hl Hpid|ss n i p d1 pid d2 st pid_ Hi Hd E Hc Hfresh
                    |ss n i p d1 pid d2 st Hi Hd E|ss n i p st Hi Hl Hd E]; simpl in *.
  - split; [by apply sup_exit_family|]. apply Forall_insert; [done|].
    by apply (Forall_lookup_1 _ _ _ _ Hidle Hi).
  - assert (idle_exit m st)
      by (eapply reap_idle; [..|exact E]; [done..|rewrite Hd; apply elem_of_app; right; by left]).
    split; [by eapply sup_reap_family|].
    apply Forall_app. split; [by apply Forall_insert|by apply Forall_singleton].
  - assert (idle_exit m st)
      by (eapply reap_idle; [..|exact E]; [done..|rewrite Hd; apply elem_of_app; right; by left]).
    split; [by eapply sup_fork_fails_family|by apply Forall_insert].
  - split; [by apply sup_spin_family|].
    apply (checkWorkerExit_idle_Ret _ m) in E as (s' & Hs' & Hst);
      [|done|done|by apply (Forall_lookup_1 _ _ _ _ Hidle Hi)].
    injection Hs' as <-. by apply Forall_insert.
Qed.

Lemma sup_init_inv master m workers : sup_inv m workers (sup_init master m workers).
Proof.
  split; [|by apply Forall_singleton].
  eexists _, [], workers. split; [done|]. split; [done|]. simpl. rewrite !app_nil_r.
  split; [done|]. split; [done|]. split; [lia|done].
Qed.

(** ** Properties *)

(** The ring of workers.  After [start] every worker [i] has its own
    descriptor in slot [i].  A worker that is woken up passes the acceptor on
    to the descriptor of worker [i + 1] -- and the last one computes the
    index [processNum - 1], one past the end of the array, because it divides by
    the number of processes and not of workers.  Handing over frees the lock
    and adds [i] to the next worker's descriptor: worker 0 adds nothing, so the
    worker it hands over to is not woken. *)
Theorem worker_hand_over (backup eventfd fork : nat → Z) (n : Z) (m0 m : MasterProcess)
    (mem : nat → Loop * ProducerPtr) (now res : Z) (wp : WorkerProcess) (w : World)
    (map : gset Z) (loop : Loop) :
  MasterProcess_new n map = Ret m0 → MasterProcess_start loop backup eventfd fork m0 = Ret (IsMaster m) →
  processNum wp = u16 n → 0 ≤ shmId wp < u16 n - 1 → res ≠ -1 →
  let i := shmId wp in
  let run := EventHandler (shmAddr m) res mem now wp w in
  shm_read (shmAddr m) i = Ret (eventfd (Z.to_nat i)) ∧
  (i = u16 n - 2 → run = Fault UndefinedBehaviour) ∧
  (i < u16 n - 2 →
     let next := eventfd (Z.to_nat (i + 1)) in
     run = ('(ps, w) ← ProxyServer_start mem now
              (ProxyServer_setHandler (acceptorScheduling i next) (w_server wp)) w;
            Ret (mkWorkerProcess i (u16 n) ps, w)) ∧
     ∀ ps es, acceptorScheduling i next (mkWorld 1 true ps es)
       = Ret (mkWorld 0 false ps (es ++ [(next, i)]))).
Proof.
  intros Hnew Hstart Hnum Hi Hres i run. subst i run.
  unfold MasterProcess_new in Hnew. apply bind_Ret_inv in Hnew as (_ & _ & E). injection E as <-.
  unfold MasterProcess_start in Hstart. simpl in Hstart.
  apply bind_Ret_inv in Hstart as ([m1|] & Hstart & E); [|done].
  assert (shmAddr m = shmAddr m1) as Em by (by injection E as <-).
  rewrite Em. clear E Em m. rename m1 into m.
  pose proof (fork_loop_master _ _ _ _ _ _ _ Hstart) as Hm. simpl in Hm.
  rewrite length_replicate in Hm. destruct (Hm ltac:(lia)) as (Hin & Hout & _).
  assert (length (shmAddr m) = Z.to_nat (u16 n - 1)) as Hlen.
  { apply (fork_loop_length _ _ _ _ _ _ _) in Hstart. rewrite Hstart. apply length_replicate. }
  assert (∀ j, 0 ≤ j < u16 n - 1 → shm_read (shmAddr m) j = Ret (eventfd (Z.to_nat j))) as Hread
    by (intros j Hj; apply shm_read_lookup; [lia|apply Hin; lia]).
  unfold EventHandler. rewrite Hnum, Hread by done.
  rewrite (proj2 (Z.eqb_neq _ _) Hres), Z.rem_small by lia. simpl.
  split; [done|]. split.
  - intros Hlast. by rewrite shm_read_outside by lia.
  - intros Hnext. rewrite Hread by lia. split; [done|]. intros ps es.
    unfold acceptorScheduling. unfold u16 in *.
    pose proof (Z.mod_pos_bound n (2 ^ 16)). rewrite u64_small by lia. done.
Qed.

(** C17. A worker that dies is replaced by another supervisor.  [checkWorkerExit]
    tests the pid [wait] returned where it means the result of [fork].  As long
    as the master has a spare descriptor, which it then keeps: each worker
    reaped leaves one more copy of the supervising process, in the loop, without
    children, where [wait] fails at once and the loop spins -- or no copy, when
    [fork] fails.  However the processes interleave, and whichever child [wait]
    returns first, the workers left, the copies and the forks that failed add up
    to the workers started, and in no process is a worker constructed, a spare
    descriptor taken, or the loop ever left. *)
Theorem supervisors_multiply (master : Z) (m : MasterProcess) (workers : list Z) (f : family) :
  eventFdQueue m ≠ [] → Forall (λ pid, 0 < pid) workers →
  rtc sup_step (sup_init master m workers) f →
  (∃ p copies left, fam f = p :: copies ∧ Forall childless copies ∧
     sup_live p ++ sup_dead p ≡ₚ left ++ (sup_pid <$> copies) ∧
     left ⊆+ workers ∧ (length left + length copies + fam_failed f = length workers)%nat) ∧
  Forall (λ p, x_spawned (sup_state p) = [] ∧
     eventFdQueue (x_master (sup_state p)) = eventFdQueue m ∧
     shmAddr (x_master (sup_state p)) = shmAddr m ∧
     (childless p → ∀ fuel, run_loop (checkWorkerExit_step (λ _, -1)) fuel (sup_state p) = None))
    (fam f).
Proof.
  intros Hq Hpos Hreach.
  assert (sup_inv m workers f) as [(p & copies & left & ? & ? & ? & ? & ? & _) Hidle].
  { revert Hreach. apply (rtc_ind_r (sup_inv m workers)); [apply sup_init_inv|].
    intros s1 s2 _ Hstep Hinv. by eapply sup_step_inv. }
  split; [by exists p, copies, left|].
  eapply Forall_impl; [exact Hidle|]. intros q Hi. do 3 (split; [apply Hi|]).
  intros _ fuel. apply (run_loop_diverges _ (idle_exit m)); [|done].
  intros s Hs. by apply checkWorkerExit_step_idle.
Qed.

(** The same in one process: it replaces no worker, whatever [wait] returns,
    and never leaves its loop. *)
Lemma workers_never_replaced (wait : nat → Z) (m : MasterProcess) (s : exit_state) :
  (∀ i, wait i ≠ 0) → eventFdQueue m ≠ [] →
  rtc (loop_step (checkWorkerExit_step wait)) (mkExitState m 0 []) s →
  idle_exit m s ∧ ∀ fuel, checkWorkerExit wait fuel m = None.
Proof.
  intros Hwait Hq Hreach. split.
  - revert Hreach. apply (rtc_ind_r (idle_exit m)); [done|]. intros s1 s2 _ H1 HJ.
    apply (checkWorkerExit_idle_Ret _ m) in H1 as (s' & E & ?); [|done..]. by injection E as <-.
  - intros fuel. unfold checkWorkerExit. apply (run_loop_diverges _ (idle_exit m)); [|done].
    intros s' Hs'. by apply checkWorkerExit_step_idle.
Qed.

(** ** Witnesses *)

Definition sample_worker (i : Z) : WorkerProcess :=
  match WorkerProcess_new i 3 1 3 0 with
  | Ret wp => wp
  | Fault _ => mkWorkerProcess i 3 (mkProxyServer false (mkTcpServer [] []
      (mkAcceptor false 0 0 false 0 false) (EventLoopThreadPool_new 0) ∅ 1 false 0 None None
      default_callbacks)
      MyThreadPool_new)
  end.
Definition sample_master : MasterProcess :=
  match MasterProcess_new 3 ∅ with
  | Ret m =>
      match MasterProcess_start 1 (λ i, Z.of_nat i + 3) (λ i, Z.of_nat i + 20)
              (λ i, Z.of_nat i + 100) m with
      | Ret (IsMaster m) => m | _ => m end
  | Fault _ => mkMasterProcess [] 0 [] None ∅ [] ∅ 0 2
  end.

(** Two workers: worker 1 is the last. *)
Lemma worker_hand_over_witness :
  EventHandler (shmAddr sample_master) 8 (λ i, (i, 0)) 100 (sample_worker 1)
    (mkWorld 0 false [] []) = Fault UndefinedBehaviour ∧
  acceptorScheduling 0 21 (mkWorld 1 true [] []) = Ret (mkWorld 0 false [] [(21, 0)]).
Proof.
  pose proof (λ i, worker_hand_over (λ i, Z.of_nat i + 3) (λ i, Z.of_nat i + 20)
    (λ i, Z.of_nat i + 100) 3 _ sample_master (λ i, (i, 0)) 100 8 (sample_worker i)
    (mkWorld 0 false [] []) ∅ 1%nat eq_refl ltac:(vm_compute; reflexivity) eq_refl) as H.
  split.
  - apply (H 1); [vm_compute; by split|done|reflexivity].
  - apply (H 0); [vm_compute; by split|done|reflexivity].
Defined.

(** Both workers exit; [wait] returns the second one first, whose [fork] makes
    a copy, and the [fork] after the first one fails. *)
Definition sample_family (st st' : exit_state) : family :=
  mkFamily [mkSupervisor 50 st' [200] []; mkSupervisor 200 st [] []] 1.

Lemma sample_family_reachable :
  ∃ st st', rtc sup_step (sup_init 50 sample_master [100; 101]) (sample_family st st').
Proof.
  set (s0 := mkExitState sample_master 0 []).
  assert (∃ st, checkWorkerExit_step (λ _, 101) s0 = Ret (inl st) ∧
    ∃ st', checkWorkerExit_step (λ _, 100) st = Ret (inl st')) as (st & E & st' & E')
    by (eexists; split; [vm_compute; reflexivity|eexists; vm_compute; reflexivity]).
  assert (100 ∉ [50]) as H1 by (apply (bool_decide_unpack _); vm_compute; exact I).
  assert (101 ∉ [50]) as H2 by (apply (bool_decide_unpack _); vm_compute; exact I).
  assert (200 ∉ all_pids [mkSupervisor 50 s0 [] [100; 101]]) as H3
    by (apply (bool_decide_unpack _); vm_compute; exact I).
  exists st, st'. apply (rtc_l _ _ (mkFamily [mkSupervisor 50 s0 [101] [100]] 0)).
  { exact (sup_exit [mkSupervisor 50 s0 [100; 101] []] 0 0 _ [] 100 [101] eq_refl eq_refl H1). }
  apply (rtc_l _ _ (mkFamily [mkSupervisor 50 s0 [] [100; 101]] 0)).
  { exact (sup_exit [mkSupervisor 50 s0 [101] [100]] 0 0 _ [] 101 [] eq_refl eq_refl H2). }
  apply (rtc_l _ _ (mkFamily [mkSupervisor 50 st [200] [100]; mkSupervisor 200 st [] []] 0)).
  { exact (sup_reap [mkSupervisor 50 s0 [] [100; 101]] 0 0 _ [100] 101 [] st 200 eq_refl eq_refl E
      eq_refl H3). }
  apply rtc_once.
  exact (sup_fork_fails [mkSupervisor 50 st [200] [100]; mkSupervisor 200 st [] []] 0 0 _ [] 100 []
    st' eq_refl eq_refl E').
Qed.

Lemma supervisors_multiply_witness :
  ∃ st st', rtc sup_step (sup_init 50 sample_master [100; 101]) (sample_family st st') ∧
    x_spawned st = [] ∧ checkWorkerExit_step (λ _, -1) st ≠ Ret (inr st) ∧
    run_loop (checkWorkerExit_step (λ _, -1)) 50 st = None.
Proof.
  destruct sample_family_reachable as (st & st' & Hr). exists st, st'. split; [exact Hr|].
  destruct (supervisors_multiply 50 sample_master [100; 101] (sample_family st st')) as [_ H].
  - intros E. assert (length (eventFdQueue sample_master) = 10%nat) as El
      by (vm_compute; reflexivity). rewrite E in El. discriminate El.
  - repeat constructor.
  - exact Hr.
  - simpl in H. apply Forall_cons in H as [_ [(Hs & _ & _ & Hl) _]%Forall_cons].
    specialize (Hl (conj eq_refl eq_refl)). split; [exact Hs|]. split; [|exact (Hl 50%nat)].
    intros E. specialize (Hl 1%nat). simpl in Hl, E. rewrite E in Hl. discriminate Hl.
Defined.
