(* ===== verification/MemoryChecker.v ===== *)
(** * [MemoryChecker]

    Models src/Process/SystemChecker.h: the worker's timer calls [checkMemory],
    whose body is commented out; [getMemoryToInt] reads the number out of the
    [VmRSS] line of [/proc/<pid>/status]. *)

From S2P Require Import Prelude CString.
From Stdlib Require Import Lia.

#[local] Open Scope Z_scope.

(** [MemoryUsed] is in no initialiser list. *)
Record MemoryChecker := mkMemoryChecker {
  pid : Z;
  checkFileName : bytes;
  is_open : bool;                (* of [checkFile] *)
  MemoryUsed : Z;                (* int *)
  vmRSSLine : Z;
}.

Definition MemoryChecker_new (getpid indeterminate : Z) : MemoryChecker :=
  mkMemoryChecker getpid (str "/proc/" ++ to_string getpid ++ str "/status") false indeterminate 21.

Definition checkMemory (c : MemoryChecker) : MemoryChecker := c.


Definition COLON_CHAR : ascii := ":"%char.
Definition SPACE_CHAR : ascii := " "%char.

(** [std::find] over reverse iterators from [last]; [r] is the reversed string
    from there on.  The result is what lies from the space found, reversed. *)
Fixpoint find_space (r : bytes) : option bytes :=
  match r with
  | [] => None
  | c :: r' => if decide (c = SPACE_CHAR) then Some r else find_space r'
  end.

(** [&*it] of a reverse iterator at [rend] is undefined, and so is moving it. *)
Definition getMemoryToInt (memoryUsed : bytes) : outcome Z :=
  if decide (take (find_char COLON_CHAR memoryUsed) memoryUsed = str "VmRSS") then
    last1 ← deref (find_space (rev memoryUsed));
    last2 ← deref (find_space (tail last1));
    n ← atoi (drop (length last2 - 1) (rev (tail last1)));
    Ret (u32 n)
  else Fault Aborted.

Example getMemoryToInt_sample : getMemoryToInt (str "VmRSS:   1234 kB") = Ret 1234.
Proof. vm_compute. reflexivity. Qed.

(** ** Facts *)

Lemma in_rev_elem {A} (x : A) l : x ∈ l ↔ x ∈ rev l.
Proof. rewrite !list_elem_of_In. apply in_rev. Qed.

Lemma find_space_app ds t : SPACE_CHAR ∉ ds → find_space (ds ++ SPACE_CHAR :: t) = Some (SPACE_CHAR :: t).
Proof.
  induction ds as [|c ds IH]; intros Hds; simpl; [done|].
  apply not_elem_of_cons in Hds as [Hc Hds]. rewrite decide_False by done. by apply IH.
Qed.

(** Round trip: of a line as the kernel prints it -- the key, padding, a number,
    a space and a unit -- the number is returned, when it is an [int]. *)
Lemma getMemoryToInt_line (pad unit : bytes) (n : Z) :
  0 ≤ n ≤ INT_MAX → SPACE_CHAR ∉ unit →
  getMemoryToInt (str "VmRSS:" ++ pad ++ [SPACE_CHAR] ++ to_string n ++ [SPACE_CHAR] ++ unit) = Ret n.
Proof.
  intros Hn Hunit. unfold getMemoryToInt.
  rewrite decide_True by reflexivity.
  assert (SPACE_CHAR ∉ to_string n) as Hds.
  { intros Hin. pose proof (to_string_digits n ltac:(lia)) as Hd. rewrite Forall_forall in Hd.
    apply Hd in Hin. by apply (digit_char_ne _ SPACE_CHAR) in Hin. }
  set (before := str "VmRSS:" ++ pad).
  replace (str "VmRSS:" ++ pad ++ _)
    with ((before ++ SPACE_CHAR :: to_string n) ++ SPACE_CHAR :: unit)
    by (unfold before; by rewrite <-!app_assoc).
  clearbody before.
  rewrite !rev_app_distr. simpl. rewrite <-!app_assoc. simpl.
  rewrite find_space_app by (by rewrite <-in_rev_elem). simpl.
  rewrite find_space_app by (by rewrite <-in_rev_elem). simpl.
  rewrite length_rev, Nat.sub_0_r, rev_app_distr. simpl. rewrite !rev_involutive, <-app_assoc.
  rewrite drop_app_length. pose proof (atoi_to_string [SPACE_CHAR] n []) as E.
  rewrite app_nil_r in E. simpl in *. rewrite E; [|by repeat constructor|done|done].
  simpl. rewrite u32_small; [done|]. unfold INT_MAX in *. lia.
Qed.
