(* ===== verification/System.v ===== *)
(** * The workers together: who accepts

    Composes [WorkerProcess], [ProxyServer], [TcpServer] and [ProcessMutex]: the
    workers share the lock byte, the array of event descriptors and their
    counters.  A step is one callback of one worker's loop, run to its end
    ([Interleaving] cuts it at every access to what is shared), or a write to an
    event descriptor from outside, such as [MasterProcess::notify] would make.
    A callback that fails stops its process; the lock byte stays as it is.

    [token_step] is the specification: one accept token, which is free or held
    by one worker. *)

From S2P Require Import Prelude CString ProcLock TaskQueue EventLoops TcpServer ProxyServer Workers.
From Stdlib Require Import Lia.

#[local] Open Scope Z_scope.

(** ** State *)

Record worker := mkWorker {
  wk_proc : WorkerProcess;
  wk_owner : bool;                  (* [pMutex.owner] *)
  wk_producers : list Producer;
  wk_started : bool;                (* [start()] has run: it is in its loop *)
  wk_dead : option fault;
}.

Record System := mkSystem {
  sys_shm : Z;                      (* the lock byte *)
  sys_array : list Z;               (* the event descriptors *)
  sys_counters : gmap Z Z;          (* of the eventfds; absent: 0 *)
  sys_workers : list worker;
}.

Definition wk_server (w : worker) : TcpServer World := server (w_server (wk_proc w)).
Definition wk_listening (w : worker) : bool :=
  match wk_dead w with None => listenning_ (acceptor_ (wk_server w)) | Some _ => false end.

(** [write] adds to an eventfd's counter. *)
Definition counter (s : System) (fd : Z) : Z := default 0 (sys_counters s !! fd).
Definition write_events (es : list (Z * Z)) (m : gmap Z Z) : gmap Z Z :=
  foldl (λ m e, <[e.1 := default 0 (m !! e.1) + e.2]> m) m es.

(** ** The callbacks of a worker *)

Definition handler : Type := WorkerProcess → World → outcome (WorkerProcess * World).

Definition with_server (wp : WorkerProcess) (sv : TcpServer World) : WorkerProcess :=
  mkWorkerProcess (shmId wp) (processNum wp)
    (mkProxyServer (isStart (w_server wp)) sv (threadpool (w_server wp))).

Definition on_start (array : list Z) (mem : nat → Loop * ProducerPtr) (now : Z) : handler :=
  λ wp w, '(_, wp, w) ← WorkerProcess_start array mem now wp w; Ret (wp, w).

(** A connection was accepted: [Acceptor::handleRead] calls [newConnection]. *)
Definition on_accept (sockfd now : Z) : handler := λ wp w,
  '(sv, w, _) ← newConnection sockfd now (server (w_server wp)) w;
  Ret (with_server wp sv, w).

Definition on_close (conn : Conn) : handler := λ wp w,
  '(sv, _) ← removeConnectionInLoop conn (server (w_server wp));
  Ret (with_server wp sv, w).

(** The eventfd is readable; [read] returns its eight bytes. *)
Definition on_wake (array : list Z) (mem : nat → Loop * ProducerPtr) (now : Z) : handler :=
  EventHandler array 8 mem now.

(** Worker [i] runs a callback. *)
Definition run_worker (i : nat) (f : handler) (s : System) : option System :=
  w ← sys_workers s !! i;
  if wk_dead w is Some _ then None
  else
    Some (match f (wk_proc w) (mkWorld (sys_shm s) (wk_owner w) (wk_producers w) []) with
    | Ret (wp, w') =>
        mkSystem (w_shm w') (sys_array s) (write_events (w_events w') (sys_counters s))
          (<[i := mkWorker wp (w_owner w') (w_producers w') true None]> (sys_workers s))
    | Fault e =>
        mkSystem (sys_shm s) (sys_array s) (sys_counters s)
          (<[i := mkWorker (wk_proc w) (wk_owner w) (wk_producers w) true (Some e)]> (sys_workers s))
    end).

Definition set_counter (fd v : Z) (s : System) : System :=
  mkSystem (sys_shm s) (sys_array s) (<[fd := v]> (sys_counters s)) (sys_workers s).

Inductive sys_event :=
  | SysStart (i : nat) (mem : nat → Loop * ProducerPtr) (now : Z)
  | SysAccept (i : nat) (sockfd now : Z)
  | SysClose (i : nat) (name : bytes)
  | SysWake (i : nat) (mem : nat → Loop * ProducerPtr) (now : Z)
  | SysPoke (fd v : Z).

(** [None]: the event cannot happen in this state. *)
Definition sys_exec (e : sys_event) (s : System) : option System :=
  match e with
  | SysStart i mem now =>
      w ← sys_workers s !! i;
      if wk_started w then None else run_worker i (on_start (sys_array s) mem now) s
  | SysAccept i sockfd now =>
      w ← sys_workers s !! i;
      if reading (acceptor_ (wk_server w)) then run_worker i (on_accept sockfd now) s else None
  | SysClose i name =>
      w ← sys_workers s !! i;
      conn ← connections_ (wk_server w) !! name;
      run_worker i (on_close conn) s
  | SysWake i mem now =>
      w ← sys_workers s !! i;
      fd ← sys_array s !! i;
      if wk_started w && (0 <? counter s fd)
      then run_worker i (on_wake (sys_array s) mem now) (set_counter fd 0 s)
      else None
  | SysPoke fd v => if 0 <? v then Some (set_counter fd (counter s fd + v) s) else None
  end.

Definition is_poke (e : sys_event) : bool :=
  match e with SysPoke _ _ => true | _ => false end.

Definition sys_step (s s' : System) : Prop := ∃ e, sys_exec e s = Some s'.
(** The program on its own: nothing outside it writes to a descriptor. *)
Definition own_step (s s' : System) : Prop := ∃ e, is_poke e = false ∧ sys_exec e s = Some s'.

(** The workers as the master forks them, one for each slot of the array, with
    [owner] false: the constructor leaves it indeterminate, but a worker calls only
    [tryLock] and [unlock], and [unlock] only after a [tryLock] that succeeded has
    written it.  ([lock] would read it: [indeterminate_owner_breaks_exclusion].) *)
Definition worker_new (array : list Z) (i : nat) (loop : Loop) (idleFd indeterminate : Z)
    : outcome worker :=
  wp ← WorkerProcess_new (Z.of_nat i) (Z.of_nat (length array) + 1) loop idleFd indeterminate;
  Ret (mkWorker wp (ProcessMutex_worker false) [] false None).

(** [params]: loop, idle descriptor and uninitialised member of each worker. *)
Definition sys_init (array : list Z) (params : list (Loop * Z * Z)) (s : System) : Prop :=
  sys_shm s = ProcessMutex_master.1 ∧ sys_array s = array ∧ sys_counters s = ∅ ∧
  length (sys_workers s) = length array ∧
  ∀ i w, sys_workers s !! i = Some w →
    ∃ p, params !! i = Some p ∧ worker_new array i p.1.1 p.1.2 p.2 = Ret w.

(** ** The specification *)

Inductive token_step : option nat → option nat → Prop :=
  | token_acquire i : token_step None (Some i)
  | token_release i : token_step (Some i) None.

(** The holder: the first worker that owns the lock. *)
Definition token (s : System) : option nat :=
  fst <$> list_find (λ w, wk_owner w = true) (sys_workers s).

(** ** One worker *)

(** It listens exactly while it owns the lock. *)
Record server_ok (ps : ProxyServer) (owner : bool) : Prop := {
  ok_listening : listenning_ (acceptor_ (server ps)) = owner;
  ok_reading : reading (acceptor_ (server ps)) = owner;
  ok_started : started_ (server ps) = isStart ps;
  ok_pool : pool_started (threadPool_ (server ps)) = isStart ps;
  ok_idle : isStart ps = false → owner = false;
}.

(** A worker's callback is unset, or is the one [EventHandler] sets. *)
Definition callback_ok (wp : WorkerProcess) : Prop :=
  notifyOtherWorkerToListen (server (w_server wp)) = None ∨
  ∃ next, notifyOtherWorkerToListen (server (w_server wp)) = Some (acceptorScheduling (shmId wp) next).

(** What a callback does to the lock: nothing, take it, or give it back. *)
Inductive lock_move (w w' : World) : Prop :=
  | lock_same : w_shm w' = w_shm w → w_owner w' = w_owner w → lock_move w w'
  | lock_taken : w_shm w = 0 → w_shm w' = 1 → w_owner w' = true → lock_move w w'
  | lock_freed : w_shm w = 1 → w_owner w = true → w_shm w' = 0 → w_owner w' = false →
      lock_move w w'.

(** The byte and the flag of one worker agree. *)
Definition lock_ok (w : World) : Prop :=
  (w_shm w = 0 ∨ w_shm w = 1) ∧ (w_owner w = true → w_shm w = 1).

(** The callback of [start] touches the list of producers and nothing else. *)
Definition same_lock (w w' : World) : Prop :=
  w_shm w' = w_shm w ∧ w_owner w' = w_owner w ∧ w_events w' = w_events w.

Lemma TcpServer_start_ok mem now (sv : TcpServer World) w :
  started_ sv = false → pool_started (threadPool_ sv) = false →
  listenning_ (acceptor_ sv) = false →
  threadInitWithProducerCallback_ sv = Some threadInitCallback →
  ∃ sv' w', TcpServer_start mem now sv w = Ret (sv', w') ∧ same_lock w w' ∧
    listenning_ (acceptor_ sv') = true ∧ reading (acceptor_ sv') = true ∧
    started_ sv' = true ∧ pool_started (threadPool_ sv') = true ∧
    notifyOtherWorkerToListen sv' = notifyOtherWorkerToListen sv.
Proof.
  intros Hs Hp Hl Hcb. unfold TcpServer_start. rewrite Hs.
  destruct (pool_start_total (threadInitWithProducerCallback_ sv) mem (threadPool_ sv) w
    (same_lock w)) as (p' & w' & -> & Hst & Hw); [done| |done|].
  - intros f q l v Hf Hv. rewrite Hcb in Hf. by injection Hf as <-.
  - simpl. rewrite Hl. simpl. by exists (set_acceptor (Acceptor_listen now (acceptor_ sv))
      (set_pool true p' sv)), w'.
Qed.

Lemma enableListen_ok mem now ps w :
  server_ok ps false →
  ∃ ps' w', enableListen mem now ps w = Ret (ps', w') ∧ server_ok ps' true ∧ same_lock w w' ∧
    notifyOtherWorkerToListen (server ps') = notifyOtherWorkerToListen (server ps).
Proof.
  intros [Hl Hr Hs Hp Hi]. unfold enableListen. destruct (isStart ps) eqn:Est.
  - do 2 eexists. split; [done|]. unfold acceptorSchedulingHandler. simpl. rewrite Hl.
    split; [by split|done].
  - destruct (TcpServer_start_ok mem now
      (setConnectionCallback "onServerConnection" (setMessageCallback "onServerMessage"
         (setThreadInitCallback threadInitCallback (server ps)))) w)
      as (sv' & w' & -> & Hw & ?&?&?&?&?); [done..|]. simpl in *.
    do 2 eexists. split; [done|]. split; [by split|done].
Qed.

Lemma ProxyServer_start_ok mem now ps w :
  server_ok ps (w_owner w) → lock_ok w →
  ∃ ps' w', ProxyServer_start mem now ps w = Ret (ps', w') ∧ server_ok ps' (w_owner w') ∧
    lock_move w w' ∧ w_shm w' = 1 ∧ w_events w' = w_events w ∧
    notifyOtherWorkerToListen (server ps') = notifyOtherWorkerToListen (server ps).
Proof.
  intros Hok [Hshm Hown]. unfold ProxyServer_start, tryLock, compare_and_swap.
  destruct (decide (w_shm w = 0)) as [E|Hne].
  - assert (w_owner w = false) as Ho by (destruct (w_owner w); [lia|done]). rewrite Ho in *.
    destruct (enableListen_ok mem now
      (mkProxyServer (isStart ps) (server ps) (MyThreadPool_start (threadpool ps)))
      (mkWorld 1 true (w_producers w) (w_events w)))
      as (ps' & w' & -> & Hok' & (Hw1 & Hw2 & Hw3) & Hn); [by destruct Hok; split|]. simpl in *.
    do 2 eexists. split; [done|]. rewrite Hw2. split; [done|].
    split; [by apply lock_taken|done].
  - assert (w_shm w = 1) as E by lia. rewrite E in *. simpl.
    do 2 eexists. split; [done|]. split; [by destruct Hok; split|]. split; [by apply lock_same|done].
Qed.

(** ** The callbacks preserve it *)

Lemma getNextLoop_started p p' l : getNextLoop p = Ret (p', l) → pool_started p' = pool_started p.
Proof.
  unfold getNextLoop. intros E. apply bind_Ret_inv in E as (_ & _ & E).
  case_decide; [by simplify_eq|]. apply bind_Ret_inv in E as (? & _ & E). by simplify_eq.
Qed.

Lemma unlock_Ret shm o shm' o' :
  unlock shm o = Ret (shm', o') → shm = 1 ∧ o = true ∧ shm' = 0 ∧ o' = false.
Proof.
  unfold unlock, unlock_begin. intros E. apply bind_Ret_inv in E as (o1 & E1 & E).
  apply bind_Ret_inv in E1 as (u & Hc & E1). apply cassert_Ret_inv, andb_prop in Hc as [-> Hs].
  apply Z.eqb_eq in Hs as ->. by simplify_eq.
Qed.

(** Without a callback, handing over throws or is not due. *)
Lemma hand_off_unset now (sv sv' : TcpServer World) w w' :
  hand_off now sv w = Ret (sv', w') → notifyOtherWorkerToListen sv = None → sv' = sv ∧ w' = w.
Proof.
  unfold hand_off. intros E Hn. apply bind_Ret_inv in E as ([] & _ & E); [|by simplify_eq].
  unfold acceptorSchedulingHandler in E. by destruct (listenning_ _); simpl in E; rewrite Hn in E.
Qed.

(** Handing over: nothing, or listening stops and the lock is freed. *)
Lemma hand_off_ok now (sv sv' : TcpServer World) w w' id :
  hand_off now sv w = Ret (sv', w') → listenning_ (acceptor_ sv) = true →
  notifyOtherWorkerToListen sv = None ∨
    (∃ next, notifyOtherWorkerToListen sv = Some (acceptorScheduling id next)) →
  (sv' = sv ∧ w' = w) ∨
  (w_shm w = 1 ∧ w_owner w = true ∧ w_shm w' = 0 ∧ w_owner w' = false ∧
   notifyOtherWorkerToListen sv ≠ None ∧
   sv' = set_acceptor (Acceptor_disableListen (acceptor_ sv)) sv).
Proof.
  unfold hand_off. intros E Hl Hcb. apply bind_Ret_inv in E as ([] & _ & E);
    [right|left; by simplify_eq].
  unfold acceptorSchedulingHandler in E. rewrite Hl in E. simpl in E.
  destruct Hcb as [Hn|[next Hn]]; rewrite Hn in E; [done|].
  apply bind_Ret_inv in E as (w1 & Hw1 & E). injection E as <- <-.
  unfold acceptorScheduling in Hw1. apply bind_Ret_inv in Hw1 as ([shm o] & Hu & Hw1).
  injection Hw1 as <-. apply unlock_Ret in Hu as (? & ? & -> & ->).
  by rewrite Hn.
Qed.

(** What every callback keeps, from the worker that runs it. *)
Definition good (wp : WorkerProcess) (w : World) (wp' : WorkerProcess) (w' : World) : Prop :=
  server_ok (w_server wp') (w_owner w') ∧ callback_ok wp' ∧ shmId wp' = shmId wp ∧ lock_move w w'.

Lemma on_accept_ok sockfd now wp w wp' w' :
  server_ok (w_server wp) (w_owner w) → callback_ok wp → w_owner w = true →
  on_accept sockfd now wp w = Ret (wp', w') → good wp w wp' w'.
Proof.
  intros [Hl Hr Hs Hp Hi] Hcb Ho E. unfold on_accept in E.
  apply bind_Ret_inv in E as ([[sv2 w2] calls] & E & E2). injection E2 as <- <-.
  unfold newConnection in E. apply bind_Ret_inv in E as ([sv1 conn] & Hadd & E).
  apply bind_Ret_inv in E as ([sv3 w3] & Hoff & E). injection E as <- <- _.
  apply addConnection_spec in Hadd as (p & l & Hnext & _ & _ & ->).
  apply getNextLoop_started in Hnext.
  apply (hand_off_ok _ _ _ _ _ (shmId wp)) in Hoff as [[-> ->]|(?&?&?&Ho'&_&->)];
    [| |simpl; congruence|done]; unfold good, callback_ok.
  - split; [split; simpl; [done..|congruence|done]|]. split; [done|]. split; [done|].
    by apply lock_same.
  - rewrite Ho'. split; [split; simpl; [done..|congruence|by auto]|].
    split; [done|]. split; [done|]. by apply lock_freed.
Qed.

Lemma on_close_ok conn wp w wp' w' :
  server_ok (w_server wp) (w_owner w) → callback_ok wp →
  on_close conn wp w = Ret (wp', w') → good wp w wp' w' ∧ w' = w.
Proof.
  intros [Hl Hr Hs Hp Hi] Hcb E. unfold on_close in E.
  apply bind_Ret_inv in E as ([sv calls] & E & E2). injection E2 as <- <-.
  unfold removeConnectionInLoop in E. apply bind_Ret_inv in E as (_ & _ & E). injection E as <- _.
  split; [|done]. split; [by split|]. split; [done|]. split; [done|]. by apply lock_same.
Qed.

Lemma on_start_ok array mem now wp w wp' w' :
  server_ok (w_server wp) (w_owner w) → callback_ok wp → lock_ok w →
  on_start array mem now wp w = Ret (wp', w') →
  good wp w wp' w' ∧ w_shm w' = 1 ∧ w_events w' = w_events w ∧
  notifyOtherWorkerToListen (server (w_server wp')) = notifyOtherWorkerToListen (server (w_server wp)).
Proof.
  intros [Hl Hr Hs Hp Hi] Hcb Hlock E. unfold on_start, WorkerProcess_start in E.
  apply bind_Ret_inv in E as ([[fd wp1] w1] & E & E2). injection E2 as <- <-.
  apply bind_Ret_inv in E as (fd1 & _ & E).
  apply bind_Ret_inv in E as (ps1 & Hio & E). unfold setIOThreadNum, setThreadNum in Hio. simpl in Hio.
  injection Hio as <-. apply bind_Ret_inv in E as ([ps2 w2] & E & E2). injection E2 as _ <- <-.
  edestruct (ProxyServer_start_ok mem now) as (ps3 & w3 & E3 & Hok & Hmove & H1 & Hev & Hn);
    [|exact Hlock|]; [|rewrite E3 in E; injection E as <- <-].
  { split; simpl; [exact Hl|exact Hr|exact Hs|exact Hp|exact Hi]. }
  split; [|done]. split; [done|]. split; [|done].
  unfold callback_ok. simpl. by rewrite Hn.
Qed.

Lemma on_wake_ok array mem now wp w wp' w' :
  server_ok (w_server wp) (w_owner w) → lock_ok w →
  on_wake array mem now wp w = Ret (wp', w') → good wp w wp' w'.
Proof.
  intros [Hl Hr Hs Hp Hi] Hlock E. unfold on_wake, EventHandler in E.
  apply bind_Ret_inv in E as (fd & _ & E). apply bind_Ret_inv in E as (_ & _ & E).
  apply bind_Ret_inv in E as (next & _ & E).
  apply bind_Ret_inv in E as ([ps2 w2] & E & E2). injection E2 as <- <-.
  edestruct (ProxyServer_start_ok mem now) as (ps3 & w3 & E3 & Hok & Hmove & H1 & Hev & Hn);
    [|exact Hlock|]; [|rewrite E3 in E; injection E as <- <-].
  { split; simpl; [exact Hl|exact Hr|exact Hs|exact Hp|exact Hi]. }
  split; [done|]. split; [|done]. right. exists next.
  simpl. by rewrite Hn.
Qed.

(** With no callback set, accepting a connection changes no lock. *)
Lemma on_accept_own sockfd now wp w wp' w' :
  notifyOtherWorkerToListen (server (w_server wp)) = None →
  on_accept sockfd now wp w = Ret (wp', w') →
  w' = w ∧ notifyOtherWorkerToListen (server (w_server wp')) = None.
Proof.
  intros Hn E. unfold on_accept in E.
  apply bind_Ret_inv in E as ([[sv2 w2] calls] & E & E2). injection E2 as <- <-.
  unfold newConnection in E. apply bind_Ret_inv in E as ([sv1 conn] & Hadd & E).
  apply bind_Ret_inv in E as ([sv3 w3] & Hoff & E). injection E as <- <- _.
  apply addConnection_spec in Hadd as (p & l & _ & _ & _ & ->).
  apply hand_off_unset in Hoff as [-> ->]; done.
Qed.

Lemma on_close_callback conn wp w wp' w' :
  on_close conn wp w = Ret (wp', w') →
  notifyOtherWorkerToListen (server (w_server wp')) =
  notifyOtherWorkerToListen (server (w_server wp)).
Proof.
  unfold on_close, removeConnectionInLoop. intros E.
  apply bind_Ret_inv in E as ([sv calls] & E & E2). injection E2 as <- <-.
  apply bind_Ret_inv in E as (_ & _ & E). by injection E as <- _.
Qed.

(** ** The system *)

Definition worker_ok (i : nat) (w : worker) : Prop :=
  server_ok (w_server (wk_proc w)) (wk_owner w) ∧ callback_ok (wk_proc w) ∧
  shmId (wk_proc w) = Z.of_nat i.

Record sys_inv (s : System) : Prop := {
  sinv_workers : ∀ i w, sys_workers s !! i = Some w → worker_ok i w;
  sinv_count : sys_shm s = Z.of_nat (tally wk_owner (sys_workers s));
  sinv_one : sys_shm s ≤ 1;
  sinv_slots : length (sys_workers s) = length (sys_array s);
}.

Lemma sys_inv_lock_ok s i w ps :
  sys_inv s → sys_workers s !! i = Some w → lock_ok (mkWorld (sys_shm s) (wk_owner w) ps []).
Proof.
  intros Hinv Hi. pose proof (sinv_count _ Hinv). pose proof (sinv_one _ Hinv).
  pose proof (tally_ge wk_owner _ _ _ Hi) as Hge. split; simpl; [lia|].
  intros Ho. rewrite Ho in Hge. lia.
Qed.

(** Replacing worker [i], whose lock moved. *)
Lemma sys_inv_update s i w w' shm m :
  sys_inv s → sys_workers s !! i = Some w → worker_ok i w' →
  lock_move (mkWorld (sys_shm s) (wk_owner w) [] []) (mkWorld shm (wk_owner w') [] []) →
  sys_inv (mkSystem shm (sys_array s) m (<[i := w']> (sys_workers s))).
Proof.
  intros Hinv Hi Hok Hmove.
  pose proof (sinv_count _ Hinv) as Hc. pose proof (sinv_one _ Hinv).
  pose proof (tally_insert wk_owner _ _ _ w' Hi) as Ht.
  pose proof (tally_ge wk_owner _ _ _ Hi) as Hge.
  assert (shm = Z.of_nat (tally wk_owner (<[i := w']> (sys_workers s))) ∧ shm ≤ 1) as [? ?].
  { destruct Hmove as [Hs Ho|Hs Hs' Ho|Hs Ho Hs' Ho']; simpl in *;
      [rewrite Ho in Ht|rewrite Ho in Ht|rewrite Ho' in Ht; rewrite Ho in Ht, Hge].
    - destruct (wk_owner w); lia.
    - destruct (wk_owner w); lia.
    - lia. }
  split; simpl; [|done|done|by rewrite length_insert, (sinv_slots _ Hinv)].
  intros j x Hj. apply list_lookup_insert_Some in Hj as [(<- & <- & _)|[_ Hj]]; [done|].
  by apply (sinv_workers _ Hinv).
Qed.

Lemma run_worker_inv s s' i f w0 :
  sys_inv s → sys_workers s !! i = Some w0 →
  (∀ wp' w', f (wk_proc w0) (mkWorld (sys_shm s) (wk_owner w0) (wk_producers w0) []) = Ret (wp', w') →
     good (wk_proc w0) (mkWorld (sys_shm s) (wk_owner w0) (wk_producers w0) []) wp' w') →
  run_worker i f s = Some s' → sys_inv s'.
Proof.
  intros Hinv Hi Hgood Hrun. unfold run_worker in Hrun. rewrite Hi in Hrun. simpl in Hrun.
  destruct (wk_dead w0); [done|]. injection Hrun as <-.
  destruct (sinv_workers _ Hinv i w0 Hi) as (Hok & Hcb & Hid).
  destruct (f _ _) as [[wp w']|e] eqn:E.
  - destruct (Hgood wp w' eq_refl) as (Hok' & Hcb' & Hid' & Hmove).
    apply (sys_inv_update s i w0); [done|done|split; [done|split; [done|simpl; congruence]]|].
    by destruct Hmove; [apply lock_same|apply lock_taken|apply lock_freed].
  - apply (sys_inv_update s i w0); [done|done|by split|]. by apply lock_same.
Qed.

Lemma set_counter_inv fd v s : sys_inv s → sys_inv (set_counter fd v s).
Proof. intros [? ? ? ?]. by split. Qed.

Lemma sys_step_inv s s' : sys_inv s → sys_step s s' → sys_inv s'.
Proof.
  intros Hinv [e He]. destruct e as [i mem now|i sockfd now|i name|i mem now|fd v]; simpl in He.
  5: { case_match; [|done]. injection He as <-. by apply set_counter_inv. }
  all: destruct (sys_workers s !! i) as [w|] eqn:Hi; [simpl in He|done];
    destruct (sinv_workers _ Hinv i w Hi) as (Hok & Hcb & Hid);
    pose proof (sys_inv_lock_ok s i w (wk_producers w) Hinv Hi) as Hlock.
  - destruct (wk_started w); [done|]. eapply run_worker_inv; [done|done| |done].
    intros wp' w' E. by eapply on_start_ok in E as [? _].
  - destruct (reading _) eqn:Hr; [|done]. eapply run_worker_inv; [done|done| |done].
    intros wp' w' E. eapply on_accept_ok; [done|done| |done]. simpl.
    by rewrite <-(ok_reading _ _ Hok).
  - destruct (connections_ _ !! name) as [conn|]; [|done]. simpl in He.
    eapply run_worker_inv; [done|done| |done]. intros wp' w' E.
    by eapply on_close_ok in E as [? _].
  - destruct (sys_array s !! i) as [fd|]; [|done]. simpl in He. destruct (_ && _); [|done].
    eapply run_worker_inv; [by apply set_counter_inv|done| |done].
    intros wp' w' E. by eapply on_wake_ok in E.
Qed.

Lemma worker_new_ok array i loop idleFd ind w :
  worker_new array i loop idleFd ind = Ret w →
  worker_ok i w ∧ wk_owner w = false ∧ wk_dead w = None ∧ wk_started w = false ∧
  notifyOtherWorkerToListen (wk_server w) = None.
Proof.
  unfold worker_new, WorkerProcess_new, ProxyServer_new, TcpServer_new, Acceptor_new.
  destruct (0 <=? idleFd); [|done]. simpl. intros E. injection E as <-.
  split; [|done]. split; [by split|]. split; [by left|done].
Qed.

Lemma tally_zero {A} (f : A → bool) l :
  (∀ i x, l !! i = Some x → f x = false) → tally f l = 0%nat.
Proof.
  induction l as [|x l IH]; intros Hl; [done|]. rewrite tally_cons, (Hl 0%nat x) by done.
  apply IH. intros i y Hi. by apply (Hl (S i)).
Qed.

Lemma sys_init_inv array params s : sys_init array params s → sys_inv s.
Proof.
  intros (Hs & Ha & Hc & Hlen & Hw).
  assert (∀ i w, sys_workers s !! i = Some w → worker_ok i w ∧ wk_owner w = false) as Hok.
  { intros i w Hi. destruct (Hw i w Hi) as (p & _ & Hnew). by apply worker_new_ok in Hnew as (? & ? & _). }
  split; [by intros i w Hi; apply Hok| |rewrite Hs; done|by rewrite Ha].
  rewrite Hs, tally_zero; [done|]. intros i w Hi. by apply (Hok i).
Qed.

Lemma sys_reachable_inv array params s s' :
  sys_init array params s → rtc sys_step s s' → sys_inv s'.
Proof.
  intros Hinit. apply (rtc_ind_r sys_inv); [by eapply sys_init_inv|].
  intros s1 s2 _ Hstep Hinv. by eapply sys_step_inv.
Qed.

(** ** The token *)

Lemma token_Some s i :
  sys_inv s → token s = Some i ↔ ∃ w, sys_workers s !! i = Some w ∧ wk_owner w = true.
Proof.
  intros Hinv. unfold token. split.
  - intros ([j w] & Hf & ->)%fmap_Some. simpl. apply list_find_Some in Hf as (? & ? & _). eauto.
  - intros (w & Hi & Ho).
    destruct (list_find _ _) as [[j x]|] eqn:Hf; simpl.
    + apply list_find_Some in Hf as (Hj & Hx & _). f_equal.
      destruct (decide (j = i)) as [|Hne]; [done|].
      pose proof (tally_two wk_owner _ j i x w Hj Hi Hx Ho Hne).
      pose proof (sinv_count _ Hinv). pose proof (sinv_one _ Hinv). lia.
    + apply list_find_None in Hf. by apply (Forall_lookup_1 _ _ _ _ Hf) in Hi.
Qed.

Lemma token_None s :
  sys_inv s → token s = None ↔ ∀ i w, sys_workers s !! i = Some w → wk_owner w = false.
Proof.
  intros Hinv. split.
  - intros Ht i w Hi. destruct (wk_owner w) eqn:Ho; [|done].
    assert (token s = Some i) by (apply token_Some; eauto). congruence.
  - intros Hall. destruct (token s) as [i|] eqn:Ht; [|done].
    apply token_Some in Ht as (w & Hi & Ho); [|done]. by rewrite (Hall i w Hi) in Ho.
Qed.

(** One worker at a time. *)
Lemma run_worker_shape i f s s' :
  run_worker i f s = Some s' →
  ∃ w w', sys_workers s !! i = Some w ∧ wk_dead w = None ∧
    sys_workers s' = <[i := w']> (sys_workers s).
Proof.
  unfold run_worker. destruct (sys_workers s !! i) as [w|]; [simpl|done].
  destruct (wk_dead w) eqn:Hd; [done|]. intros E. injection E as <-. exists w.
  destruct (f _ _) as [[wp w']|e]; by eexists.
Qed.

Lemma sys_exec_shape e s s' :
  sys_exec e s = Some s' →
  sys_workers s' = sys_workers s ∨
  ∃ i w w', sys_workers s !! i = Some w ∧ wk_dead w = None ∧
    sys_workers s' = <[i := w']> (sys_workers s).
Proof.
  intros He. destruct e as [i mem now|i sockfd now|i name|i mem now|fd v]; simpl in He.
  5: { case_match; [|done]. injection He as <-. by left. }
  all: right; destruct (sys_workers s !! i) as [w|] eqn:Hi; [simpl in He|done].
  - destruct (wk_started w); [done|]. apply run_worker_shape in He. by exists i.
  - destruct (reading _); [|done]. apply run_worker_shape in He. by exists i.
  - destruct (connections_ _ !! name); [|done]. simpl in He. apply run_worker_shape in He. by exists i.
  - destruct (sys_array s !! i); [|done]. simpl in He. destruct (_ && _); [|done].
    apply run_worker_shape in He. by exists i.
Qed.

Lemma token_update s s' :
  sys_inv s → sys_step s s' → token s' = token s ∨ token_step (token s) (token s').
Proof.
  intros Hinv Hstep. pose proof (sys_step_inv _ _ Hinv Hstep) as Hinv'.
  destruct Hstep as [e He].
  apply sys_exec_shape in He as [Hsame|(i & w & w' & Hi & _ & E)];
    [left; unfold token; by rewrite Hsame|].
  assert (sys_workers s' !! i = Some w') as Hi'
    by (rewrite E; apply list_lookup_insert_eq; by eapply lookup_lt_Some).
  assert (∀ j x, j ≠ i → sys_workers s !! j = Some x → sys_workers s' !! j = Some x) as Hkeep
    by (intros; by rewrite E, list_lookup_insert_ne).
  destruct (token s) as [j|] eqn:Ht.
  - pose proof Ht as (x & Hj & Hx)%token_Some; [|done].
    destruct (decide (j = i)) as [->|Hne].
    + destruct (wk_owner w') eqn:Ho; [left; apply token_Some; eauto|right].
      assert (token s' = None) as ->; [|constructor]. apply token_None; [done|].
      intros k y Hk. destruct (decide (k = i)) as [->|Hki]; [by simplify_eq|].
      destruct (wk_owner y) eqn:Hy; [|done].
      rewrite E, list_lookup_insert_ne in Hk by done.
      assert (token s = Some k) by (apply token_Some; eauto). congruence.
    + left. apply token_Some; [done|]. exists x. split; [by apply Hkeep|done].
  - destruct (wk_owner w') eqn:Ho.
    + right. assert (token s' = Some i) as ->; [|constructor]. apply token_Some; eauto.
    + left. apply token_None; [done|]. intros k y Hk. rewrite E in Hk.
      apply list_lookup_insert_Some in Hk as [(_ & <- & _)|[_ Hk]]; [done|].
      by apply (proj1 (token_None s Hinv) Ht k).
Qed.

Lemma listening_token s i w :
  sys_inv s → sys_workers s !! i = Some w → wk_dead w = None →
  wk_listening w = true ↔ token s = Some i.
Proof.
  intros Hinv Hi Hd. destruct (sinv_workers _ Hinv i w Hi) as (Hok & _).
  unfold wk_listening, wk_server. rewrite Hd, (ok_listening _ _ Hok), token_Some by done. split.
  - intros. eauto.
  - intros (x & Hx & ?). congruence.
Qed.

(** ** The program on its own *)

(** Nobody has been handed anything. *)
Record own_inv (s : System) : Prop := {
  oinv_sys : sys_inv s;
  oinv_counters : sys_counters s = ∅;
  oinv_callbacks : ∀ i w, sys_workers s !! i = Some w →
    notifyOtherWorkerToListen (wk_server w) = None;
}.

(** A callback that runs on its own: no event is written, no callback is set,
    and the lock is not given back. *)
Definition quiet (wp : WorkerProcess) (w : World) (wp' : WorkerProcess) (w' : World) : Prop :=
  w_events w' = w_events w ∧
  notifyOtherWorkerToListen (server (w_server wp')) = None ∧
  (w_owner w = true → w_owner w' = true).

Lemma run_worker_own s s' i f w0 :
  own_inv s → sys_inv s' → sys_workers s !! i = Some w0 →
  (∀ wp' w', f (wk_proc w0) (mkWorld (sys_shm s) (wk_owner w0) (wk_producers w0) []) = Ret (wp', w') →
     quiet (wk_proc w0) (mkWorld (sys_shm s) (wk_owner w0) (wk_producers w0) []) wp' w') →
  run_worker i f s = Some s' →
  own_inv s' ∧ ∀ k, token s = Some k → token s' = Some k.
Proof.
  intros Hinv Hinv' Hi Hq Hrun. pose proof (oinv_sys _ Hinv) as Hsys.
  unfold run_worker in Hrun. rewrite Hi in Hrun. simpl in Hrun.
  destruct (wk_dead w0); [done|]. injection Hrun as <-.
  destruct (f _ _) as [[wp w']|e] eqn:E.
  - destruct (Hq wp w' eq_refl) as (Hev & Hn & Ho). split.
    + split; [done|simpl; rewrite Hev; apply (oinv_counters _ Hinv)|]. simpl.
      intros j x [(<- & <- & _)|[_ Hj]]%list_lookup_insert_Some; [done|].
      by apply (oinv_callbacks _ Hinv j).
    + intros k (x & Hk & Hx)%token_Some; [|done]. apply token_Some; [done|]. simpl.
      destruct (decide (k = i)) as [->|Hne]; [|exists x; by rewrite list_lookup_insert_ne].
      simplify_eq. eexists. split; [apply list_lookup_insert_eq; by eapply lookup_lt_Some|].
      by apply Ho.
  - split.
    + split; [done|apply (oinv_counters _ Hinv)|]. simpl.
      intros j x [(<- & <- & _)|[_ Hj]]%list_lookup_insert_Some;
        [by apply (oinv_callbacks _ Hinv i w0)|]. by apply (oinv_callbacks _ Hinv j).
    + intros k (x & Hk & Hx)%token_Some; [|done]. apply token_Some; [done|]. simpl.
      destruct (decide (k = i)) as [->|Hne]; [|exists x; by rewrite list_lookup_insert_ne].
      simplify_eq. eexists. by split; [apply list_lookup_insert_eq; eapply lookup_lt_Some|].
Qed.

Lemma own_step_own s s' :
  own_inv s → own_step s s' → own_inv s' ∧ ∀ k, token s = Some k → token s' = Some k.
Proof.
  intros Hinv (e & Hp & He). pose proof (oinv_sys _ Hinv) as Hsys.
  assert (sys_inv s') as Hsys' by (eapply sys_step_inv; [done|by exists e]).
  destruct e as [i mem now|i sockfd now|i name|i mem now|fd v]; simpl in He; [..|done].
  all: destruct (sys_workers s !! i) as [w|] eqn:Hi; [simpl in He|done];
    destruct (sinv_workers _ Hsys i w Hi) as (Hok & Hcb & _);
    pose proof (oinv_callbacks _ Hinv i w Hi) as Hn.
  - destruct (wk_started w); [done|].
    apply (run_worker_own s s' i _ w) in He; [done..|]. intros wp' w' E.
    eapply on_start_ok in E as ((Hok' & _ & _ & Hmove) & H1 & Hev & Hn'); [|done|done|].
    2: by apply (sys_inv_lock_ok s i).
    split; [done|]. split; [by rewrite Hn'|]. simpl in *. intros Ho.
    destruct Hmove as [? ?|? ? ?|? ? H0 ?]; simpl in *; [congruence|done|congruence].
  - destruct (reading _) eqn:Hr; [|done].
    apply (run_worker_own s s' i _ w) in He; [done..|]. intros wp' w' E.
    by apply on_accept_own in E as [-> ?].
  - destruct (connections_ _ !! name) as [conn|]; [|done]. simpl in He.
    apply (run_worker_own s s' i _ w) in He; [done..|]. intros wp' w' E.
    pose proof (on_close_callback _ _ _ _ _ E) as Hn'.
    eapply on_close_ok in E as [_ ->]; [|done..]. split; [done|]. by rewrite Hn'.
  - destruct (sys_array s !! i) as [fd|]; [|done]. simpl in He.
    unfold counter in He. rewrite (oinv_counters _ Hinv), lookup_empty in He. simpl in He.
    by rewrite andb_false_r in He.
Qed.

Lemma sys_init_own array params s : sys_init array params s → own_inv s.
Proof.
  intros Hinit. split; [by eapply sys_init_inv|by destruct Hinit as (_ & _ & ? & _)|].
  intros i w Hi. destruct Hinit as (_ & _ & _ & _ & Hw).
  destruct (Hw i w Hi) as (p & _ & Hnew). by apply worker_new_ok in Hnew as (_ & _ & _ & _ & ?).
Qed.

Lemma own_reachable s s' :
  own_inv s → rtc own_step s s' → own_inv s' ∧ ∀ k, token s = Some k → token s' = Some k.
Proof.
  intros Hinv. apply (rtc_ind_r (λ s', own_inv s' ∧ ∀ k, token s = Some k → token s' = Some k));
    [by split|].
  intros s1 s2 _ Hstep [Hinv1 Ht]. destruct (own_step_own s1 s2 Hinv1 Hstep) as [? Ht2].
  split; [done|]. intros k Hk. by apply Ht2, Ht.
Qed.

(** A process that has stopped stays stopped. *)
Lemma dead_forever s s' i w :
  sys_workers s !! i = Some w → wk_dead w ≠ None → rtc own_step s s' → sys_workers s' !! i = Some w.
Proof.
  intros Hi Hd. apply (rtc_ind_r (λ s', sys_workers s' !! i = Some w)); [done|].
  intros s1 s2 _ (e & _ & He) Hi1.
  apply sys_exec_shape in He as [->|(j & x & x' & Hj & Hx & ->)]; [done|].
  rewrite list_lookup_insert_ne; [done|]. intros ->. simplify_eq.
Qed.

(** The first worker to start while nobody accepts takes the token. *)
Lemma start_takes_token s s' i mem now :
  sys_inv s → token s = None → sys_exec (SysStart i mem now) s = Some s' → token s' = Some i.
Proof.
  intros Hinv Ht He. pose proof (sys_step_inv _ s' Hinv ltac:(by exists (SysStart i mem now))) as Hinv'.
  simpl in He. destruct (sys_workers s !! i) as [w|] eqn:Hi; [simpl in He|done].
  destruct (wk_started w); [done|]. pose proof (lookup_lt_Some _ _ _ Hi) as Hlt.
  destruct (sinv_workers _ Hinv i w Hi) as ([Hl Hr Hs Hp Hidle] & _ & Hid).
  assert (wk_owner w = false) as Ho by by apply (proj1 (token_None s Hinv) Ht i).
  destruct (lookup_lt_is_Some_2 (sys_array s) i) as [fd Hfd]; [by rewrite <-(sinv_slots _ Hinv)|].
  unfold run_worker in He. rewrite Hi in He. simpl in He. destruct (wk_dead w); [done|].
  injection He as <-. revert Hinv'. unfold on_start, WorkerProcess_start, shm_read.
  rewrite Hid, (proj2 (Z.leb_le _ _)), Nat2Z.id, Hfd by lia. simpl.
  edestruct (ProxyServer_start_ok mem now) as (ps' & w' & E & Hok' & Hmove & H1 & Hev & Hn);
    [| |rewrite E; simpl].
  { split; simpl; [exact Hl|exact Hr|exact Hs|exact Hp|exact Hidle]. }
  { by apply (sys_inv_lock_ok s i). }
  intros Hinv'. apply token_Some; [done|]. eexists. simpl.
  split; [by apply list_lookup_insert_eq|]. simpl. pose proof (sinv_count _ Hinv) as Hc.
  rewrite tally_zero in Hc by by apply token_None.
  destruct Hmove as [Heq _|? ? ?|Heq ? ? ?]; simpl in *; [lia|done|lia].
Qed.

(** Handing over from a worker nobody has woken stops its process. *)
Lemma accept_throws s i w sockfd now sv conn :
  own_inv s → token s = Some i → sys_workers s !! i = Some w → wk_dead w = None →
  addConnection sockfd (wk_server w) = Ret (sv, conn) →
  MAX_CONNECTIONS_NUM < Z.of_nat (size (connections_ sv)) →
  10 < now - startListenTime (wk_server w) ≤ LONG_MAX →
  sys_exec (SysAccept i sockfd now) s =
    Some (mkSystem (sys_shm s) (sys_array s) (sys_counters s)
      (<[i := mkWorker (wk_proc w) (wk_owner w) (wk_producers w) true (Some BadFunctionCall)]>
         (sys_workers s))).
Proof.
  intros Hinv Ht Hi Hd Hadd Hmax Htime. pose proof (oinv_sys _ Hinv) as Hsys.
  apply token_Some in Ht as (w0 & Hi0 & Ho); [|done]. rewrite Hi in Hi0. injection Hi0 as <-.
  destruct (sinv_workers _ Hsys i w Hi) as (Hok & _). unfold sys_exec. rewrite Hi. simpl.
  replace (reading _) with true by (unfold wk_server; by rewrite (ok_reading _ _ Hok)).
  unfold run_worker. rewrite Hi. simpl. rewrite Hd.
  unfold on_accept, newConnection. fold (wk_server w). rewrite Hadd. simpl.
  pose proof Hadd as (p & l & _ & _ & _ & Hsv)%addConnection_spec.
  unfold hand_off. rewrite scheduling_due_true; [|done|by rewrite Hsv]. simpl.
  unfold acceptorSchedulingHandler. pose proof (oinv_callbacks _ Hinv i w Hi) as Hn.
  assert (notifyOtherWorkerToListen sv = None) as Hn' by by rewrite Hsv.
  by destruct (listenning_ (acceptor_ sv)); simpl; rewrite Hn'.
Qed.

(** ** Properties *)

(** C2. The workers share one accept token.  Whatever the workers' loops run, in
    any order, and whoever writes to the event descriptors, each step of the
    system leaves the token where it is, takes it while it is free, or frees it;
    the lock byte is 0 exactly while it is free; a live worker listens exactly
    while it holds it, so never two of them; and the first worker that starts
    while it is free gets it.  (The workers' [owner] flag, which the constructor
    leaves indeterminate, starts false; only [unlock] reads it, after a [tryLock]
    that succeeded has written it.) *)
Theorem accept_token (array : list Z) (params : list (Loop * Z * Z)) (s0 s : System) :
  sys_init array params s0 → rtc sys_step s0 s →
  (∀ s', sys_step s s' → token s' = token s ∨ token_step (token s) (token s')) ∧
  (sys_shm s = 0 ↔ token s = None) ∧
  (∀ i w, sys_workers s !! i = Some w → wk_dead w = None →
     wk_listening w = true ↔ token s = Some i) ∧
  (∀ i mem now s', token s = None → sys_exec (SysStart i mem now) s = Some s' →
     token s' = Some i).
Proof.
  intros Hinit Hreach. pose proof (sys_reachable_inv _ _ _ _ Hinit Hreach) as Hinv.
  split; [intros s'; by apply token_update|]. split; [|split].
  - pose proof (sinv_count _ Hinv) as Hc. rewrite token_None by done. split.
    + intros H0 i w Hi. pose proof (tally_ge wk_owner _ _ _ Hi). destruct (wk_owner w); [lia|done].
    + intros Hall. rewrite Hc, tally_zero; done.
  - intros i w. by apply listening_token.
  - intros i mem now s'. by apply start_takes_token.
Qed.

(** C8. The ring of workers never turns.  No part of the program writes to an
    event descriptor before a worker has been woken through one, so in every state
    the program reaches on its own nobody has been woken, the first worker to take
    the token keeps it, and nobody else listens.  When that worker has more than
    512 connections, ten seconds after it has started, its next hand-over throws
    an exception that stops it, with the lock byte left set: no worker ever
    listens again.  ([owner] starts false in every worker, as in [accept_token].) *)
Theorem ring_never_turns (array : list Z) (params : list (Loop * Z * Z)) (s0 s : System) :
  sys_init array params s0 → rtc own_step s0 s →
  sys_counters s = ∅ ∧
  (∀ i s', token s = Some i → rtc own_step s s' → token s' = Some i) ∧
  (∀ i w sockfd now sv conn,
     token s = Some i → sys_workers s !! i = Some w → wk_dead w = None →
     addConnection sockfd (wk_server w) = Ret (sv, conn) →
     MAX_CONNECTIONS_NUM < Z.of_nat (size (connections_ sv)) →
     10 < now - startListenTime (wk_server w) ≤ LONG_MAX →
     ∃ s1, sys_exec (SysAccept i sockfd now) s = Some s1 ∧
       ∀ s2 j w2, rtc own_step s1 s2 → sys_workers s2 !! j = Some w2 →
         wk_listening w2 = false ∧ (j = i → wk_dead w2 = Some BadFunctionCall)).
Proof.
  intros Hinit Hreach.
  destruct (own_reachable s0 s (sys_init_own _ _ _ Hinit) Hreach) as [Hinv _].
  split; [apply (oinv_counters _ Hinv)|]. split; [intros i s' Ht Hr; by apply (own_reachable s s')|].
  intros i w sockfd now sv conn Ht Hi Hd Hadd Hmax Htime. eexists.
  pose proof (accept_throws s i w sockfd now sv conn Hinv Ht Hi Hd Hadd Hmax Htime) as He.
  split; [exact He|]. intros s2 j w2 Hr Hj.
  assert (own_step s _) as Hstep by (eexists; split; [|exact He]; done).
  destruct (own_step_own _ _ Hinv Hstep) as [Hinv1 Ht1].
  destruct (own_reachable _ s2 Hinv1 Hr) as [Hinv2 Ht2].
  pose proof (Ht2 i (Ht1 i Ht)) as Hi2.
  pose proof (lookup_lt_Some _ _ _ Hi) as Hlt.
  assert (sys_workers s2 !! i = Some (mkWorker (wk_proc w) (wk_owner w) (wk_producers w) true
    (Some BadFunctionCall))) as Hdead
    by (revert Hr; apply dead_forever; [by apply list_lookup_insert_eq|done]).
  destruct (decide (j = i)) as [->|Hne].
  - rewrite Hdead in Hj. by injection Hj as <-.
  - split; [|done]. destruct (wk_dead w2) eqn:Hd2; [by unfold wk_listening; rewrite Hd2|].
    destruct (wk_listening w2) eqn:Hl; [|done].
    apply (listening_token s2 j w2 (oinv_sys _ Hinv2) Hj Hd2) in Hl. congruence.
Qed.

(** ** Witnesses *)

(** A run of the program, as a list of events. *)
Fixpoint sys_run (es : list sys_event) (s : System) : option System :=
  match es with
  | [] => Some s
  | e :: es => s' ← sys_exec e s; sys_run es s'
  end.

(** Every event could happen, none came from outside, and [P] holds after. *)
Definition runs (es : list sys_event) (s : System) (P : System → bool) : bool :=
  match sys_run es s with
  | Some s' => forallb (λ e, negb (is_poke e)) es && P s'
  | None => false
  end.

Lemma runs_own es s P : runs es s P = true → ∃ s', rtc own_step s s' ∧ P s' = true.
Proof.
  unfold runs. revert s. induction es as [|e es IH]; intros s Hr; simpl in *; [eauto using rtc_refl|].
  destruct (sys_exec e s) as [s1|] eqn:He; [simpl in *|done]. specialize (IH s1).
  destruct (sys_run es s1) as [s2|]; [simpl in *|done].
  apply andb_prop in Hr as [[Hp Hes]%andb_prop HP].
  destruct IH as (s' & Hs' & ?); [by rewrite Hes|]. exists s'. split; [|done].
  eapply rtc_l; [|done]. exists e. split; [by destruct (is_poke e)|done].
Qed.

Lemma own_sys_step s s' : rtc own_step s s' → rtc sys_step s s'.
Proof. apply rtc_subrel. intros x y (e & _ & He). by exists e. Qed.

(** Two workers, forked and not yet started. *)
Definition sample_array : list Z := [20; 21].
Definition sample_system : System :=
  mkSystem 0 sample_array ∅
    (omap (λ i, match worker_new sample_array i i 3 0 with Ret w => Some w | Fault _ => None end)
       [0%nat; 1%nat]).
Definition sample_mem (i : nat) : Loop * ProducerPtr := ((10 + i)%nat, 0).

Lemma sample_init : sys_init sample_array [(0%nat, 3, 0); (1%nat, 3, 0)] sample_system.
Proof.
  repeat (split; [reflexivity|]). intros [|[|i]] w Hi; simpl in Hi; simplify_eq;
    (eexists; split; [reflexivity|reflexivity]).
Qed.

(** Worker 1 starts first, then worker 0, which does not listen. *)
Definition started_at (s : System) : bool :=
  bool_decide (token s = Some 1%nat) &&
  bool_decide (wk_dead <$> sys_workers s !! 0%nat = Some None).
Definition started_events : list sys_event := [SysStart 1 sample_mem 100; SysStart 0 sample_mem 100].

Lemma accept_token_witness :
  ∃ s w, rtc sys_step sample_system s ∧ token s = Some 1%nat ∧
    sys_workers s !! 0%nat = Some w ∧ wk_dead w = None ∧ wk_listening w = false.
Proof.
  destruct (runs_own started_events sample_system started_at) as (s & Hreach%own_sys_step & H);
    [vm_compute; reflexivity|].
  apply andb_prop in H as [Ht%bool_decide_eq_true Hd%bool_decide_eq_true].
  apply fmap_Some in Hd as (w & Hw & Hd).
  destruct (accept_token _ _ sample_system s sample_init Hreach) as (_ & _ & H & _).
  exists s, w. split; [exact Hreach|]. split; [exact Ht|]. split; [exact Hw|].
  split; [congruence|]. destruct (wk_listening w) eqn:Hl; [|reflexivity].
  apply (H 0%nat w Hw ltac:(congruence)) in Hl. congruence.
Defined.

(** Worker 1 gets 512 connections; the next one stops it. *)
Lemma crowd_step n (sv : TcpServer World) :
  (size (connections_ (crowd n sv)) ≤ n + size (connections_ sv))%nat.
Proof.
  induction n as [|n IH]; [done|]. simpl. fold (crowd n sv).
  destruct (addConnection 9 (crowd n sv)) as [[sv' conn]|] eqn:E; [|lia].
  apply addConnection_spec in E as (p & l & _ & _ & -> & ->). simpl.
  destruct (connections_ (crowd n sv) !! connName (crowd n sv) (nextConnId_ (crowd n sv))) eqn:Hc.
  - rewrite map_size_insert_Some; [lia|by eexists].
  - rewrite map_size_insert_None by done. lia.
Qed.

Lemma crowd_reachable s w i n :
  own_inv s → token s = Some i → sys_workers s !! i = Some w → wk_dead w = None →
  size (connections_ (wk_server w)) = 0%nat → Z.of_nat n ≤ MAX_CONNECTIONS_NUM →
  ∃ s' w', rtc own_step s s' ∧ sys_workers s' !! i = Some w' ∧ wk_dead w' = None ∧
    wk_server w' = crowd n (wk_server w).
Proof.
  intros Hinv Ht Hi Hd Hsize. induction n as [|n IH]; intros Hn; [by exists s, w|].
  destruct IH as (s1 & w1 & Hr & Hi1 & Hd1 & Hsv); [lia|].
  destruct (own_reachable s s1 Hinv Hr) as [Hinv1 Ht1]. specialize (Ht1 i Ht).
  simpl. fold (crowd n (wk_server w)). pose proof (crowd_step (S n) (wk_server w)) as Hs.
  simpl in Hs. fold (crowd n (wk_server w)) in Hs. rewrite <-Hsv in *.
  destruct (addConnection 9 (wk_server w1)) as [[sv conn]|] eqn:E; [|by exists s1, w1].
  apply token_Some in Ht1 as (w2 & Hi2 & Ho); [|apply Hinv1]. rewrite Hi1 in Hi2. injection Hi2 as <-.
  destruct (sinv_workers _ (oinv_sys _ Hinv1) i w1 Hi1) as (Hok & _).
  eexists. eexists. split.
  { eapply rtc_r; [exact Hr|]. exists (SysAccept i 9 105). split; [done|]. unfold sys_exec.
    rewrite Hi1. simpl. unfold wk_server at 1. rewrite (ok_reading _ _ Hok), Ho.
    unfold run_worker. rewrite Hi1. simpl. rewrite Hd1. unfold on_accept, newConnection.
    fold (wk_server w1). rewrite E. simpl. unfold hand_off, scheduling_due.
    rewrite (proj2 (Z.ltb_ge _ _)) by lia. done. }
  simpl. split; [by eapply list_lookup_insert_eq, lookup_lt_Some|]. done.
Qed.

(** A connection more than 512 would be due for a hand-over. *)
Definition overfull (sv : TcpServer World) : bool :=
  match addConnection 9 sv with
  | Ret (sv', _) => (MAX_CONNECTIONS_NUM <? Z.of_nat (size (connections_ sv')))
                    && (startListenTime sv =? 0)
  | Fault _ => false
  end.
Definition overfull_at (s : System) : bool :=
  bool_decide (token s = Some 1%nat) &&
  match sys_workers s !! 1%nat with
  | Some w => bool_decide (wk_dead w = None) && (size (connections_ (wk_server w)) =? 0)%nat
              && overfull (crowd 512 (wk_server w))
  | None => false
  end.

Lemma crowded_reachable :
  ∃ s w, rtc own_step sample_system s ∧ token s = Some 1%nat ∧
    sys_workers s !! 1%nat = Some w ∧ wk_dead w = None ∧ overfull (wk_server w) = true.
Proof.
  destruct (runs_own started_events sample_system overfull_at) as (s & Hreach & H);
    [vm_compute; reflexivity|].
  apply andb_prop in H as [Ht%bool_decide_eq_true H].
  destruct (sys_workers s !! 1%nat) as [w|] eqn:Hw; [|done].
  apply andb_prop in H as [[Hd%bool_decide_eq_true Hsize%Nat.eqb_eq]%andb_prop H].
  destruct (own_reachable _ s (sys_init_own _ _ _ sample_init) Hreach) as [Hinv _].
  destruct (crowd_reachable s w 1 512 Hinv Ht Hw Hd Hsize) as (s' & w' & Hr & Hw' & Hd' & Hsv);
    [done|].
  exists s', w'. split; [by etrans|]. split; [by apply (own_reachable s s')|].
  split; [done|]. split; [done|]. by rewrite Hsv.
Qed.

Lemma ring_never_turns_witness :
  ∃ s s1, rtc own_step sample_system s ∧ sys_exec (SysAccept 1 9 111) s = Some s1 ∧
    ∀ s2 w0, rtc own_step s1 s2 → sys_workers s2 !! 0%nat = Some w0 → wk_listening w0 = false.
Proof.
  destruct crowded_reachable as (s & w & Hreach & Ht & Hw & Hd & Hc). unfold overfull in Hc.
  destruct (addConnection 9 (wk_server w)) as [[sv conn]|] eqn:E; [|discriminate Hc].
  apply andb_prop in Hc as [Hmax%Z.ltb_lt Htime%Z.eqb_eq].
  destruct (ring_never_turns _ _ _ _ sample_init Hreach) as (_ & _ & H).
  destruct (H 1%nat w 9 111 sv conn Ht Hw Hd E Hmax) as (s1 & Hs1 & Hafter);
    [rewrite Htime; unfold LONG_MAX; lia|].
  exists s, s1. split; [exact Hreach|]. split; [exact Hs1|].
  intros s2 w0 Hr Hw0. apply (Hafter s2 0%nat w0 Hr Hw0).
Defined.
