(* ===== verification/Interleaving.v ===== *)
(** * The workers, one access at a time

    [System] runs a callback of a worker to its end before another worker moves.
    Here a callback is cut at every access to what the processes share: the
    [read] of the eventfd, the compare-and-swap of [tryLock], the two accesses of
    [unlock] and the [write] to the next worker's descriptor.  Every run of these
    steps is matched by a run of [System] ([callbacks_linearize]), each callback
    taking its effect at the compare-and-swap, so that what [System] shows of
    whole callbacks holds of the workers as they run.

    The array of descriptors is written before any worker is forked; reading it
    is not a step. *)

From S2P Require Import Prelude ProcLock TaskQueue EventLoops TcpServer ProxyServer Workers System.
From Stdlib Require Import Lia.

#[local] Open Scope Z_scope.

(** ** State *)

(** Where a worker is: in its loop, or inside a callback, before the access or
    the call named.  [woken] is the eventfd and what [read] found in it. *)
Inductive call_pc :=
  | InLoop
  | AtTryLock (woken : option (Z * Z)) (mem : nat → Loop * ProducerPtr) (now : Z)
  | AtEnableListen (mem : nat → Loop * ProducerPtr) (now : Z)
  | AtUnlock (eventFd : Z)
  | AtSwap (eventFd : Z)
  | AtWrite (eventFd : Z).

(** [fw_next]: the descriptor bound in the callback [setHandler] was given. *)
Record fworker := mkFworker {
  fw_worker : worker;
  fw_next : option Z;
  fw_pc : call_pc;
}.

Record Fine := mkFine {
  f_shm : Z;
  f_array : list Z;
  f_counters : gmap Z Z;
  f_workers : list fworker;
}.

Definition fine_of (s : System) : Fine :=
  mkFine (sys_shm s) (sys_array s) (sys_counters s)
    ((λ w, mkFworker w None InLoop) <$> sys_workers s).

Definition f_counter (s : Fine) (fd : Z) : Z := default 0 (f_counters s !! fd).

(** ** The parts of the callbacks *)

Definition with_proxy (wp : WorkerProcess) (ps : ProxyServer) : WorkerProcess :=
  mkWorkerProcess (shmId wp) (processNum wp) ps.

(** [threadpool.start()], the first call of [ProxyServer::start]. *)
Definition start_threadpool (ps : ProxyServer) : ProxyServer :=
  mkProxyServer (isStart ps) (server ps) (MyThreadPool_start (threadpool ps)).

(** [WorkerProcess::start] up to [tryLock]. *)
Definition start_begin (array : list Z) (wp : WorkerProcess) : outcome WorkerProcess :=
  _ ← shm_read array (shmId wp);
  ps ← setIOThreadNum 2 (w_server wp);
  Ret (with_proxy wp (start_threadpool ps)).

(** [WorkerProcess::EventHandler], after the [read], up to [tryLock], and the
    descriptor it binds. *)
Definition wake_begin (array : list Z) (wp : WorkerProcess) : outcome (WorkerProcess * Z) :=
  _ ← shm_read array (shmId wp);
  next ← shm_read array (Z.rem (shmId wp + 1) (processNum wp));
  Ret (with_proxy wp (start_threadpool
         (ProxyServer_setHandler (acceptorScheduling (shmId wp) next) (w_server wp))), next).

(** [newConnection], up to the callback it calls when it hands over: listening
    is already disabled then. *)
Definition accept_begin (sockfd now : Z) (next : option Z) (wp : WorkerProcess)
    : outcome (WorkerProcess * option Z) :=
  '(sv, _) ← addConnection sockfd (server (w_server wp));
  due ← scheduling_due now sv;
  if (due : bool) then
    match next with
    | Some fd => Ret (with_server wp (acceptorSchedulingHandler now sv), Some fd)
    | None => Fault BadFunctionCall
    end
  else Ret (with_server wp sv, None).

(** ** Steps *)

Definition f_put (i : nat) (fw : fworker) (shm : Z) (counters : gmap Z Z) (s : Fine) : Fine :=
  mkFine shm (f_array s) counters (<[i := fw]> (f_workers s)).

(** The worker after a local computation, or stopped by it. *)
Definition f_local (i : nat) (fw : fworker) (o : outcome fworker) (counters : gmap Z Z) (s : Fine)
    : Fine :=
  f_put i (match o with
           | Ret fw => fw
           | Fault e => let w := fw_worker fw in
               mkFworker (mkWorker (wk_proc w) (wk_owner w) (wk_producers w) true (Some e))
                 (fw_next fw) InLoop
           end) (f_shm s) counters s.

(** A live worker that runs [wp] next. *)
Definition alive (wp : WorkerProcess) (owner : bool) (w : worker) : worker :=
  mkWorker wp owner (wk_producers w) true None.

(** The next access of a worker that is inside a callback. *)
Definition fine_go (i : nat) (fw : fworker) (s : Fine) : option Fine :=
  let w := fw_worker fw in
  let wp := wk_proc w in
  let goto owner pc := mkFworker (alive wp owner w) (fw_next fw) pc in
  match fw_pc fw with
  | InLoop => None
  | AtTryLock _ mem now =>
      let '(shm, owner, locked) := tryLock (f_shm s) (wk_owner w) in
      Some (f_put i (goto owner (if (locked : bool) then AtEnableListen mem now else InLoop))
              shm (f_counters s) s)
  | AtEnableListen mem now =>
      Some (f_local i fw
        ('(ps, w') ← enableListen mem now (w_server wp)
                       (mkWorld (f_shm s) (wk_owner w) (wk_producers w) []);
         Ret (mkFworker (mkWorker (with_proxy wp ps) (wk_owner w) (w_producers w') true None)
                (fw_next fw) InLoop)) (f_counters s) s)
  | AtUnlock fd =>
      Some (f_local i fw (owner ← unlock_begin (f_shm s) (wk_owner w); Ret (goto owner (AtSwap fd)))
              (f_counters s) s)
  | AtSwap fd => Some (f_put i (goto (wk_owner w) (AtWrite fd)) (unlock_end (f_shm s)) (f_counters s) s)
  | AtWrite fd =>
      Some (f_put i (goto (wk_owner w) InLoop) (f_shm s)
              (write_events [(fd, u64 (shmId wp))] (f_counters s)) s)
  end.

(** A worker that waits in its loop. *)
Definition waiting (i : nat) (s : Fine) : option fworker :=
  fw ← f_workers s !! i;
  match fw_pc fw, wk_dead (fw_worker fw) with InLoop, None => Some fw | _, _ => None end.

Inductive fine_event :=
  | FStart (i : nat) (mem : nat → Loop * ProducerPtr) (now : Z)
  | FAccept (i : nat) (sockfd now : Z)
  | FClose (i : nat) (name : bytes)
  | FWake (i : nat) (mem : nat → Loop * ProducerPtr) (now : Z)
  | FGo (i : nat)
  | FPoke (fd v : Z).

(** [None]: it cannot happen in this state. *)
Definition fine_exec (e : fine_event) (s : Fine) : option Fine :=
  match e with
  | FStart i mem now =>
      fw ← waiting i s;
      let w := fw_worker fw in
      if wk_started w then None
      else Some (f_local i fw
             (wp ← start_begin (f_array s) (wk_proc w);
              Ret (mkFworker (alive wp (wk_owner w) w) (fw_next fw) (AtTryLock None mem now)))
             (f_counters s) s)
  | FAccept i sockfd now =>
      fw ← waiting i s;
      let w := fw_worker fw in
      if reading (acceptor_ (wk_server w)) then
        Some (f_local i fw
          ('(wp, due) ← accept_begin sockfd now (fw_next fw) (wk_proc w);
           Ret (mkFworker (alive wp (wk_owner w) w) (fw_next fw)
                  (match due with Some fd => AtUnlock fd | None => InLoop end)))
          (f_counters s) s)
      else None
  | FClose i name =>
      fw ← waiting i s;
      let w := fw_worker fw in
      conn ← connections_ (wk_server w) !! name;
      Some (f_local i fw
        ('(sv, _) ← removeConnectionInLoop conn (wk_server w);
         Ret (mkFworker (alive (with_server (wk_proc w) sv) (wk_owner w) w) (fw_next fw) InLoop))
        (f_counters s) s)
  | FWake i mem now =>
      fw ← waiting i s;
      fd ← f_array s !! i;
      let w := fw_worker fw in
      if wk_started w && (0 <? f_counter s fd) then
        Some (f_local i fw
          ('(wp, next) ← wake_begin (f_array s) (wk_proc w);
           Ret (mkFworker (alive wp (wk_owner w) w) (Some next)
                  (AtTryLock (Some (fd, f_counter s fd)) mem now)))
          (<[fd := 0]> (f_counters s)) s)
      else None
  | FGo i =>
      fw ← f_workers s !! i;
      match wk_dead (fw_worker fw) with None => fine_go i fw s | Some _ => None end
  | FPoke fd v =>
      if 0 <? v
      then Some (mkFine (f_shm s) (f_array s) (<[fd := f_counter s fd + v]> (f_counters s))
                   (f_workers s))
      else None
  end.

Definition fine_step (s s' : Fine) : Prop := ∃ e, fine_exec e s = Some s'.

(** ** What [System] sees of a worker *)

Section seen.
Context (array : list Z).

(** A worker that has listening disabled and not yet released the lock: in
    [System] its callback has not begun. *)
Record handing_over (fd : Z) (w aw : worker) : Prop := {
  ho_owner : wk_owner aw = true;
  ho_reading : reading (acceptor_ (wk_server aw)) = true;
  ho_producers : wk_producers w = wk_producers aw;
  ho_shmId : shmId (wk_proc w) = shmId (wk_proc aw);
  ho_silent : listenning_ (acceptor_ (wk_server w)) = false;
  ho_callback : notifyOtherWorkerToListen (wk_server aw) =
    Some (acceptorScheduling (shmId (wk_proc aw)) fd);
  ho_begin : ∃ sockfd now, accept_begin sockfd now (Some fd) (wk_proc aw) = Ret (wk_proc w, Some fd);
}.

(** A worker that is about to try the lock: nor has it begun there. *)
Record trying (i : nat) (woken : option (Z * Z)) (w aw : worker) : Prop := {
  try_owner : wk_owner w = wk_owner aw;
  try_producers : wk_producers w = wk_producers aw;
  try_shmId : shmId (wk_proc w) = shmId (wk_proc aw);
  try_server : server_ok (w_server (wk_proc w)) (wk_owner aw);
  try_begin : match woken with
    | None => wk_started aw = false ∧ start_begin array (wk_proc aw) = Ret (wk_proc w)
    | Some (fd, v) => array !! i = Some fd ∧ 0 < v ∧ wk_started aw = true ∧
        ∃ next, wake_begin array (wk_proc aw) = Ret (wk_proc w, next)
    end;
}.

(** A worker that has the lock and does not listen yet: there it has finished. *)
Record enabling (mem : nat → Loop * ProducerPtr) (now : Z) (w aw : worker) : Prop := {
  en_owner : wk_owner w = true;
  en_silent : listenning_ (acceptor_ (wk_server w)) = false;
  en_end : ∃ ps w', enableListen mem now (w_server (wk_proc w)) (mkWorld 1 true (wk_producers w) [])
      = Ret (ps, w') ∧
    notifyOtherWorkerToListen (server ps) = notifyOtherWorkerToListen (wk_server w) ∧
    aw = mkWorker (with_proxy (wk_proc w) ps) true (w_producers w') true None;
}.

Definition inside (w aw : worker) : Prop :=
  wk_dead w = None ∧ wk_started w = true ∧ wk_dead aw = None.

Definition seen (i : nat) (fw : fworker) (aw : worker) : Prop :=
  let w := fw_worker fw in
  match fw_pc fw with
  | InLoop => aw = w
  | AtTryLock woken mem now => inside w aw ∧ trying i woken w aw
  | AtEnableListen mem now => inside w aw ∧ enabling mem now w aw
  | AtUnlock fd => inside w aw ∧ wk_owner w = true ∧ handing_over fd w aw
  | AtSwap fd => inside w aw ∧ wk_owner w = false ∧ handing_over fd w aw
  | AtWrite fd =>
      inside w aw ∧ wk_owner w = false ∧ listenning_ (acceptor_ (wk_server w)) = false ∧ aw = w
  end.

(** The callback of its server is the one [fw_next] says. *)
Definition bound (fw : fworker) : Prop :=
  let wp := wk_proc (fw_worker fw) in
  notifyOtherWorkerToListen (server (w_server wp)) = acceptorScheduling (shmId wp) <$> fw_next fw.
End seen.

(** What [System]'s counter of [fd] has and the real one has not: a value that
    was read by a callback that has not begun there, one that is still to be
    written by a callback that has finished there. *)
Definition owed (fd : Z) (fw : fworker) : Z :=
  match fw_pc fw with
  | AtTryLock (Some (fd', v)) _ _ => if decide (fd' = fd) then v else 0
  | AtWrite fd' => if decide (fd' = fd) then u64 (shmId (wk_proc (fw_worker fw))) else 0
  | _ => 0
  end.
Definition total (fd : Z) (l : list fworker) : Z := foldr (λ fw n, owed fd fw + n) 0 l.

Record represents (s : Fine) (a : System) : Prop := {
  rep_shm : sys_shm a = f_shm s;
  rep_array : sys_array a = f_array s;
  rep_counters : ∀ fd, counter a fd = f_counter s fd + total fd (f_workers s);
  rep_positive : ∀ fd, 0 ≤ f_counter s fd;
  rep_length : length (sys_workers a) = length (f_workers s);
  rep_workers : ∀ i fw, f_workers s !! i = Some fw →
    bound fw ∧ ∃ aw, sys_workers a !! i = Some aw ∧ seen (f_array s) i fw aw;
}.

Lemma total_insert fd l i fw fw' :
  l !! i = Some fw → total fd (<[i := fw']> l) = total fd l - owed fd fw + owed fd fw'.
Proof.
  revert i. induction l as [|x l IH]; intros [|i] Hi; simpl in *; simplify_eq; [lia|].
  rewrite (IH i Hi). lia.
Qed.

Lemma owed_seen array i fw aw fd : seen array i fw aw → 0 ≤ owed fd fw.
Proof.
  unfold seen, owed. destruct (fw_pc fw) as [|[[fd' v]|] mem now| | | |fd']; intros Hs; try done.
  - destruct Hs as [_ [_ _ _ _ (_ & Hv & _)]]. case_decide; lia.
  - case_decide; [|done]. apply u64_range.
Qed.

Lemma total_ge array l fd :
  (∀ i fw, l !! i = Some fw → ∃ aw, seen array i fw aw) →
  0 ≤ total fd l ∧ ∀ i fw, l !! i = Some fw → owed fd fw ≤ total fd l.
Proof.
  intros Hl. assert (∀ i fw, l !! i = Some fw → 0 ≤ owed fd fw) as Ho.
  { intros i fw (aw & Hs)%Hl. by eapply owed_seen. }
  clear Hl. induction l as [|x l IH]; [done|]. simpl.
  destruct IH as [H1 H2]; [intros i fw Hi; by apply (Ho (S i))|].
  pose proof (Ho 0%nat x eq_refl). split; [lia|]. intros [|i] fw Hi; simpl in Hi; simplify_eq; [lia|].
  pose proof (H2 i fw Hi). lia.
Qed.

(** ** The parts make up the callbacks *)

(** [ProxyServer::start] from [tryLock] on. *)
Definition start_end (mem : nat → Loop * ProducerPtr) (now : Z) : handler := λ wp w,
  let '(shm, owner, locked) := tryLock (w_shm w) (w_owner w) in
  let w := mkWorld shm owner (w_producers w) (w_events w) in
  if (locked : bool) then
    '(ps, w) ← enableListen mem now (w_server wp) w; Ret (with_proxy wp ps, w)
  else Ret (wp, w).

Lemma on_start_parts array mem now wp w :
  on_start array mem now wp w = wp ← start_begin array wp; start_end mem now wp w.
Proof.
  unfold on_start, WorkerProcess_start, start_begin, start_end, ProxyServer_start.
  destruct (shm_read array (shmId wp)) as [fd|e]; [simpl|done].
  destruct (tryLock (w_shm w) (w_owner w)) as [[shm o] [|]]; [simpl|done].
  by destruct (enableListen _ _ _ _) as [[ps w']|e].
Qed.

Lemma on_wake_parts array mem now wp w :
  on_wake array mem now wp w = '(wp, _) ← wake_begin array wp; start_end mem now wp w.
Proof.
  unfold on_wake, EventHandler, wake_begin, start_end, ProxyServer_start.
  destruct (shm_read array (shmId wp)) as [fd|e]; [simpl|done].
  destruct (shm_read array _) as [next|e]; [simpl|done].
  destruct (tryLock (w_shm w) (w_owner w)) as [[shm o] [|]]; [simpl|done].
  by destruct (enableListen _ _ _ _) as [[ps w']|e].
Qed.

Lemma on_accept_parts sockfd now next wp w :
  notifyOtherWorkerToListen (server (w_server wp)) = acceptorScheduling (shmId wp) <$> next →
  on_accept sockfd now wp w =
    '(wp', due) ← accept_begin sockfd now next wp;
    match due with
    | Some fd => w ← acceptorScheduling (shmId wp) fd w; Ret (wp', w)
    | None => Ret (wp', w)
    end.
Proof.
  intros Hn. unfold on_accept, newConnection, accept_begin, hand_off.
  destruct (addConnection sockfd _) as [[sv conn]|e] eqn:E; [simpl|done].
  apply addConnection_spec in E as (p & l & _ & _ & _ & Hsv).
  assert (notifyOtherWorkerToListen (acceptorSchedulingHandler now sv) =
    acceptorScheduling (shmId wp) <$> next) as Hn'
    by (rewrite <-Hn, Hsv; unfold acceptorSchedulingHandler; by case_match).
  destruct (scheduling_due now sv) as [[|]|e]; [simpl|done|done].
  rewrite Hn'. destruct next as [fd|]; [simpl|done].
  by destruct (acceptorScheduling _ _ _).
Qed.

Lemma start_begin_ok array wp wp' o :
  start_begin array wp = Ret wp' → server_ok (w_server wp) o →
  server_ok (w_server wp') o ∧ shmId wp' = shmId wp ∧
  notifyOtherWorkerToListen (server (w_server wp')) = notifyOtherWorkerToListen (server (w_server wp)).
Proof.
  unfold start_begin. intros E [Hl Hr Hs Hp Hi]. apply bind_Ret_inv in E as (fd & _ & E).
  apply bind_Ret_inv in E as (ps & Hps & E). unfold setIOThreadNum, setThreadNum in Hps.
  simpl in Hps. injection Hps as <-. injection E as <-.
  split; [split; simpl; [exact Hl|exact Hr|exact Hs|exact Hp|exact Hi]|done].
Qed.

Lemma wake_begin_ok array wp wp' next o :
  wake_begin array wp = Ret (wp', next) → server_ok (w_server wp) o →
  server_ok (w_server wp') o ∧ shmId wp' = shmId wp ∧
  notifyOtherWorkerToListen (server (w_server wp')) = Some (acceptorScheduling (shmId wp) next).
Proof.
  unfold wake_begin. intros E [Hl Hr Hs Hp Hi]. apply bind_Ret_inv in E as (fd & _ & E).
  apply bind_Ret_inv in E as (next' & _ & E). injection E as <- <-. by split.
Qed.

Lemma accept_begin_ok sockfd now next wp wp' due :
  accept_begin sockfd now next wp = Ret (wp', due) →
  listenning_ (acceptor_ (server (w_server wp))) = true →
  shmId wp' = shmId wp ∧
  notifyOtherWorkerToListen (server (w_server wp')) = notifyOtherWorkerToListen (server (w_server wp)) ∧
  (due = None ∨ due = next ∧ listenning_ (acceptor_ (server (w_server wp'))) = false).
Proof.
  unfold accept_begin. intros E Hl. apply bind_Ret_inv in E as ([sv conn] & Ha & E).
  apply addConnection_spec in Ha as (p & l & _ & _ & _ & ->).
  apply bind_Ret_inv in E as ([] & _ & E); [|by simplify_eq; auto].
  destruct next as [fd|]; [|done]. injection E as <- <-. simpl.
  unfold acceptorSchedulingHandler. simpl. rewrite Hl. auto.
Qed.

(** ** Moving one worker *)

Lemma rep_update s a i fw fw' aw' shm m a' :
  represents s a → f_workers s !! i = Some fw → bound fw' → seen (f_array s) i fw' aw' →
  sys_shm a' = shm → sys_array a' = sys_array a → sys_workers a' = <[i := aw']> (sys_workers a) →
  (∀ fd, 0 ≤ default 0 (m !! fd)) →
  (∀ fd, counter a' fd =
     default 0 (m !! fd) + (total fd (f_workers s) - owed fd fw + owed fd fw')) →
  represents (f_put i fw' shm m s) a'.
Proof.
  intros [Hs Ha Hc Hp Hl Hw] Hi Hb Hseen Es Ea Ew Hm Hcount. split; simpl; [done|congruence| |done| |].
  - intros fd. rewrite Hcount. unfold f_counter. simpl. by rewrite (total_insert fd _ _ _ _ Hi).
  - by rewrite Ew, !length_insert.
  - intros j x Hj. rewrite Ew. apply list_lookup_insert_Some in Hj as [(<- & <- & _)|[Hne Hj]].
    + split; [done|]. exists aw'. split; [|done].
      apply list_lookup_insert_eq. rewrite Hl. by eapply lookup_lt_Some.
    + rewrite list_lookup_insert_ne by done. by apply Hw.
Qed.

(** A step that [System] does not see. *)
Lemma rep_stutter s a i fw aw fw' shm m :
  represents s a → f_workers s !! i = Some fw → sys_workers a !! i = Some aw →
  bound fw' → seen (f_array s) i fw' aw → shm = f_shm s → (∀ fd, 0 ≤ default 0 (m !! fd)) →
  (∀ fd, default 0 (m !! fd) + owed fd fw' = f_counter s fd + owed fd fw) →
  represents (f_put i fw' shm m s) a.
Proof.
  intros Hrep Hi Hia Hb Hseen -> Hm Hcount. eapply rep_update; try done.
  - apply (rep_shm _ _ Hrep).
  - by rewrite list_insert_id.
  - intros fd. rewrite (rep_counters _ _ Hrep). pose proof (Hcount fd). lia.
Qed.

(** A callback that [System] runs now. *)
Lemma run_worker_Ret i f a aw wp w' :
  sys_workers a !! i = Some aw → wk_dead aw = None →
  f (wk_proc aw) (mkWorld (sys_shm a) (wk_owner aw) (wk_producers aw) []) = Ret (wp, w') →
  run_worker i f a =
    Some (mkSystem (w_shm w') (sys_array a) (write_events (w_events w') (sys_counters a))
      (<[i := mkWorker wp (w_owner w') (w_producers w') true None]> (sys_workers a))).
Proof. intros Hi Hd E. unfold run_worker. rewrite Hi. simpl. by rewrite Hd, E. Qed.

Lemma run_worker_Fault i f a aw e :
  sys_workers a !! i = Some aw → wk_dead aw = None →
  f (wk_proc aw) (mkWorld (sys_shm a) (wk_owner aw) (wk_producers aw) []) = Fault e →
  run_worker i f a =
    Some (mkSystem (sys_shm a) (sys_array a) (sys_counters a)
      (<[i := mkWorker (wk_proc aw) (wk_owner aw) (wk_producers aw) true (Some e)]> (sys_workers a))).
Proof. intros Hi Hd E. unfold run_worker. rewrite Hi. simpl. by rewrite Hd, E. Qed.

(** What [System] owes a counter it can be given from outside. *)
Lemma repay a fd v :
  0 ≤ v → counter a fd = 0 →
  ∃ a', rtc sys_step a a' ∧ sys_shm a' = sys_shm a ∧ sys_array a' = sys_array a ∧
    sys_workers a' = sys_workers a ∧
    ∀ fd', counter a' fd' = if decide (fd = fd') then v else counter a fd'.
Proof.
  intros Hv H0. destruct (decide (v = 0)) as [->|Hne].
  - exists a. do 4 (split; [done|]). intros fd'. by case_decide; subst.
  - exists (set_counter fd (counter a fd + v) a). split.
    { apply rtc_once. exists (SysPoke fd v). simpl. by rewrite (proj2 (Z.ltb_lt 0 v)) by lia. }
    do 3 (split; [done|]). intros fd'. unfold counter at 1. simpl. case_decide as Hd.
    + subst. rewrite lookup_insert_eq. simpl. lia.
    + by rewrite lookup_insert_ne.
Qed.

(** ** The simulation *)

Definition matched (s' : Fine) (a : System) : Prop := ∃ a', rtc sys_step a a' ∧ represents s' a'.

Lemma matched_same s' a : represents s' a → matched s' a.
Proof. intros H. by exists a. Qed.

Lemma matched_step s' a a' e : sys_exec e a = Some a' → represents s' a' → matched s' a.
Proof. intros He H. exists a'. split; [apply rtc_once; by exists e|done]. Qed.

Lemma waiting_Some s a i fw :
  represents s a → waiting i s = Some fw →
  f_workers s !! i = Some fw ∧ bound fw ∧ sys_workers a !! i = Some (fw_worker fw) ∧
  wk_dead (fw_worker fw) = None ∧ ∀ fd, owed fd fw = 0.
Proof.
  intros Hrep. unfold waiting. destruct (f_workers s !! i) as [fw1|] eqn:Hi; [simpl|done].
  destruct (fw_pc fw1) eqn:Hpc; try done. destruct (wk_dead _) eqn:Hd; [done|]. intros [= ->].
  destruct (rep_workers _ _ Hrep i fw Hi) as (Hb & aw & Ha & Hs). unfold seen in Hs. rewrite Hpc in Hs.
  subst aw. repeat (split; [done|]). intros fd. unfold owed. by rewrite Hpc.
Qed.

(** A worker that ends its callback as [System]'s does, the lock left alone. *)
Lemma rep_done s a i fw w a' :
  represents s a → f_workers s !! i = Some fw → (∀ fd, owed fd fw = 0) →
  bound (mkFworker w (fw_next fw) InLoop) →
  sys_shm a' = sys_shm a → sys_array a' = sys_array a →
  (∀ fd, counter a' fd = counter a fd) → sys_workers a' = <[i := w]> (sys_workers a) →
  represents (f_put i (mkFworker w (fw_next fw) InLoop) (f_shm s) (f_counters s) s) a'.
Proof.
  intros Hrep Hi Ho Hb Es Ea Ec Ew. eapply rep_update; try done.
  - by rewrite Es, (rep_shm _ _ Hrep).
  - apply (rep_positive _ _ Hrep).
  - intros fd. rewrite Ec, (rep_counters _ _ Hrep), Ho. unfold owed. simpl. unfold f_counter. lia.
Qed.

Lemma sim_close s a i name s' :
  represents s a → fine_exec (FClose i name) s = Some s' → matched s' a.
Proof.
  intros Hrep E. simpl in E. destruct (waiting i s) as [fw|] eqn:Hwt; [simpl in E|done].
  destruct (waiting_Some _ _ _ _ Hrep Hwt) as (Hi & Hb & Ha & Hd & Ho).
  destruct (connections_ _ !! name) as [conn|] eqn:Hc; [simpl in E|done]. injection E as <-.
  assert (sys_exec (SysClose i name) a = run_worker i (on_close conn) a) as He
    by (simpl; rewrite Ha; simpl; by rewrite Hc).
  unfold f_local.
  destruct (removeConnectionInLoop conn (wk_server (fw_worker fw))) as [[sv calls]|e] eqn:Hr.
  - eapply matched_step; [rewrite He; eapply run_worker_Ret; [exact Ha|exact Hd|]|].
    { unfold on_close. unfold wk_server in Hr. by rewrite Hr. }
    simpl. apply (rep_done s a); try done.
    unfold bound in *. simpl. unfold removeConnectionInLoop in Hr.
    apply bind_Ret_inv in Hr as (_ & _ & Hr). by injection Hr as <- _.
  - eapply matched_step; [rewrite He; eapply run_worker_Fault; [exact Ha|exact Hd|]|].
    { unfold on_close. unfold wk_server in Hr. by rewrite Hr. }
    simpl. by apply (rep_done s a).
Qed.

Lemma sim_poke s a fd v s' : represents s a → fine_exec (FPoke fd v) s = Some s' → matched s' a.
Proof.
  intros Hrep E. simpl in E. destruct (0 <? v) eqn:Hv; [|done]. injection E as <-.
  eapply (matched_step _ _ _ (SysPoke fd v)); [simpl; by rewrite Hv|]. apply Z.ltb_lt in Hv.
  assert (∀ fd', counter (set_counter fd (counter a fd + v) a) fd' =
    if decide (fd = fd') then counter a fd + v else counter a fd') as Ec.
  { intros fd'. unfold counter at 1. simpl. case_decide; subst.
    - by rewrite lookup_insert_eq.
    - by rewrite lookup_insert_ne. }
  assert (∀ fd', f_counter (mkFine (f_shm s) (f_array s) (<[fd:=f_counter s fd + v]> (f_counters s))
    (f_workers s)) fd' = if decide (fd = fd') then f_counter s fd + v else f_counter s fd') as Ef.
  { intros fd'. unfold f_counter at 1. simpl. case_decide; subst.
    - by rewrite lookup_insert_eq.
    - by rewrite lookup_insert_ne. }
  pose proof (rep_positive _ _ Hrep) as Hp. pose proof (rep_counters _ _ Hrep) as Hc.
  split; try apply Hrep.
  - intros fd'. rewrite Ec, Ef. simpl. pose proof (Hc fd'). case_decide; subst; lia.
  - intros fd'. rewrite Ef. pose proof (Hp fd'). case_decide; subst; lia.
Qed.

Lemma sim_start s a i mem now s' :
  represents s a → sys_inv a → fine_exec (FStart i mem now) s = Some s' → matched s' a.
Proof.
  intros Hrep Hinv E. simpl in E. destruct (waiting i s) as [fw|] eqn:Hwt; [simpl in E|done].
  destruct (waiting_Some _ _ _ _ Hrep Hwt) as (Hi & Hb & Ha & Hd & Ho).
  destruct (wk_started (fw_worker fw)) eqn:Hst; [done|]. injection E as <-.
  unfold f_local. destruct (start_begin (f_array s) (wk_proc (fw_worker fw))) as [wp|e] eqn:Hbg; simpl.
  - apply matched_same. destruct (sinv_workers _ Hinv i _ Ha) as (Hok & _).
    destruct (start_begin_ok _ _ _ _ Hbg Hok) as (Hok' & Hid & Hn).
    eapply (rep_stutter s a); try done.
    + unfold bound in *. simpl. by rewrite Hn, Hid.
    + apply (rep_positive _ _ Hrep).
    + intros fd. by rewrite Ho.
  - eapply (matched_step _ _ _ (SysStart i mem now)).
    + simpl. rewrite Ha. simpl. rewrite Hst. eapply run_worker_Fault; [exact Ha|exact Hd|].
      by rewrite on_start_parts, (rep_array _ _ Hrep), Hbg.
    + by apply (rep_done s a).
Qed.

Lemma sim_accept s a i sockfd now s' :
  represents s a → sys_inv a → fine_exec (FAccept i sockfd now) s = Some s' → matched s' a.
Proof.
  intros Hrep Hinv E. simpl in E. destruct (waiting i s) as [fw|] eqn:Hwt; [simpl in E|done].
  destruct (waiting_Some _ _ _ _ Hrep Hwt) as (Hi & Hb & Ha & Hd & Ho).
  destruct (reading _) eqn:Hr; [|done]. injection E as <-.
  assert (sys_exec (SysAccept i sockfd now) a = run_worker i (on_accept sockfd now) a) as He
    by (simpl; rewrite Ha; simpl; by rewrite Hr).
  pose proof (on_accept_parts sockfd now (fw_next fw) (wk_proc (fw_worker fw))
    (mkWorld (sys_shm a) (wk_owner (fw_worker fw)) (wk_producers (fw_worker fw)) []) Hb) as Hparts.
  destruct (sinv_workers _ Hinv i _ Ha) as ([Hl Hrd _ _ _] & _). unfold wk_server in Hr.
  rewrite Hr in Hrd.
  unfold f_local. destruct (accept_begin _ _ _ _) as [[wp due]|e] eqn:Hbg; simpl.
  - destruct (accept_begin_ok _ _ _ _ _ _ Hbg) as (Hid & Hn & [->|[-> Hoff]]); [congruence| |].
    + eapply matched_step; [rewrite He; eapply run_worker_Ret; [exact Ha|exact Hd|exact Hparts]|].
      apply (rep_done s a); try done. unfold bound in *. simpl. by rewrite Hn, Hid.
    + destruct (fw_next fw) as [fd|] eqn:Hnx; [|].
      * apply matched_same. eapply (rep_stutter s a); try done.
        -- unfold bound in *. simpl. by rewrite Hn, Hid, Hb, Hnx.
        -- split; [done|]. split; [done|]. split; try done.
           ++ unfold bound in Hb. by rewrite Hnx in Hb.
           ++ by exists sockfd, now.
        -- apply (rep_positive _ _ Hrep).
        -- intros fd'. by rewrite Ho.
      * eapply matched_step; [rewrite He; eapply run_worker_Ret; [exact Ha|exact Hd|exact Hparts]|].
        rewrite <-Hnx. apply (rep_done s a); try done. unfold bound in *. simpl. by rewrite Hn, Hid, Hb.
  - eapply matched_step; [rewrite He; eapply run_worker_Fault; [exact Ha|exact Hd|exact Hparts]|].
    by apply (rep_done s a).
Qed.

Lemma total_seen s a fd :
  represents s a →
  0 ≤ total fd (f_workers s) ∧ ∀ i fw, f_workers s !! i = Some fw → owed fd fw ≤ total fd (f_workers s).
Proof.
  intros Hrep. apply (total_ge (f_array s)). intros i fw Hi.
  destruct (rep_workers _ _ Hrep i fw Hi) as (_ & aw & _ & Hs). by exists aw.
Qed.

Lemma counter_set fd v a fd' :
  counter (set_counter fd v a) fd' = if decide (fd = fd') then v else counter a fd'.
Proof.
  unfold counter at 1. simpl. case_decide; subst;
    [by rewrite lookup_insert_eq|by rewrite lookup_insert_ne].
Qed.

Lemma zeroed (m : gmap Z Z) fd fd' :
  default 0 (<[fd := 0]> m !! fd') = if decide (fd = fd') then 0 else default 0 (m !! fd').
Proof. case_decide; subst; [by rewrite lookup_insert_eq|by rewrite lookup_insert_ne]. Qed.

Lemma sim_wake s a i mem now s' :
  represents s a → sys_inv a → fine_exec (FWake i mem now) s = Some s' → matched s' a.
Proof.
  intros Hrep Hinv E. simpl in E. destruct (waiting i s) as [fw|] eqn:Hwt; [simpl in E|done].
  destruct (waiting_Some _ _ _ _ Hrep Hwt) as (Hi & Hb & Ha & Hd & Ho).
  destruct (f_array s !! i) as [fd|] eqn:Hfd; [simpl in E|done].
  destruct (wk_started (fw_worker fw)) eqn:Hst; [simpl in E|done].
  destruct (Z.ltb_spec 0 (f_counter s fd)) as [Hpos|]; [|done]. injection E as <-.
  pose proof (rep_positive _ _ Hrep) as Hp.
  assert (∀ fd', 0 ≤ default 0 (<[fd := 0]> (f_counters s) !! fd')) as Hm.
  { intros fd'. rewrite zeroed. case_decide; [done|apply Hp]. }
  unfold f_local. destruct (wake_begin (f_array s) _) as [[wp next]|e] eqn:Hbg; simpl.
  - apply matched_same. destruct (sinv_workers _ Hinv i _ Ha) as (Hok & _).
    destruct (wake_begin_ok _ _ _ _ _ Hbg Hok) as (Hok' & Hid & Hn).
    eapply (rep_stutter s a); try done.
    + unfold bound in *. simpl. by rewrite Hn, Hid.
    + split; [done|]. split; [done..|]. split; [done|]. split; [done|]. split; [done|].
      exists next. exact Hbg.
    + intros fd'. rewrite zeroed, Ho. unfold owed. simpl.
      case_decide as Hf; [subst fd'; lia|unfold f_counter; lia].
  - destruct (total_seen s a fd Hrep) as [Ht _].
    set (a1 := mkSystem (sys_shm a) (sys_array a) (<[fd := 0]> (sys_counters a))
      (<[i := mkWorker (wk_proc (fw_worker fw)) (wk_owner (fw_worker fw)) (wk_producers (fw_worker fw))
               true (Some e)]> (sys_workers a))).
    assert (sys_exec (SysWake i mem now) a = Some a1) as He.
    { simpl. rewrite Ha, (rep_array _ _ Hrep). simpl. rewrite Hfd. simpl.
      rewrite Hst, (rep_counters _ _ Hrep), (proj2 (Z.ltb_lt 0 _)) by lia. simpl.
      erewrite (run_worker_Fault i _ (set_counter fd 0 a) _ e Ha Hd); [done|].
      by rewrite on_wake_parts, Hbg. }
    assert (∀ fd', counter a1 fd' = if decide (fd = fd') then 0 else counter a fd') as Hc1
      by apply (counter_set fd 0 a).
    destruct (repay a1 fd (total fd (f_workers s))) as (a' & Hr & Es & Ea & Ew & Ec);
      [done|by rewrite Hc1, decide_True|].
    exists a'. split; [eapply rtc_l; [by exists (SysWake i mem now)|done]|].
    eapply rep_update; try done.
    + by rewrite Es; apply (rep_shm _ _ Hrep).
    + intros fd'. rewrite Ec, Hc1, zeroed, Ho. unfold owed. simpl.
      pose proof (rep_counters _ _ Hrep fd') as Hc. unfold f_counter in Hc. case_decide; subst; lia.
Qed.

(** Trying the lock is where a callback takes effect. *)
Lemma start_end_commit mem now wp w shm owner next :
  server_ok (w_server wp) owner → lock_ok (mkWorld shm owner (wk_producers w) []) →
  let '(shm', owner', locked) := tryLock shm owner in
  ∃ wp' w', start_end mem now wp (mkWorld shm owner (wk_producers w) []) = Ret (wp', w') ∧
    w_shm w' = shm' ∧ w_events w' = [] ∧
    let fw := mkFworker (alive wp owner' w) next
                (if (locked : bool) then AtEnableListen mem now else InLoop) in
    ∀ array i, seen array i fw (mkWorker wp' (w_owner w') (w_producers w') true None).
Proof.
  intros Hok [Hshm Hown]. unfold start_end, tryLock, compare_and_swap. simpl in *.
  destruct (decide (shm = 0)) as [->|Hne].
  - assert (owner = false) as -> by (destruct owner; [specialize (Hown eq_refl); lia|done]).
    destruct (enableListen_ok mem now (w_server wp) (mkWorld 1 true (wk_producers w) []) Hok)
      as (ps & w' & E & Hok' & (Es & Eo & Ee) & Hn). rewrite E. simpl in *.
    do 2 eexists. split; [done|]. split; [done|]. split; [done|]. intros array i.
    split; [done|]. rewrite Eo. split; [done|apply (ok_listening _ _ Hok)|].
    by exists ps, w'.
  - do 2 eexists. split; [done|]. split; [done|]. by split.
Qed.

Lemma sim_try s a i fw woken mem now s' :
  represents s a → sys_inv a → f_workers s !! i = Some fw → fw_pc fw = AtTryLock woken mem now →
  fine_go i fw s = Some s' → matched s' a.
Proof.
  intros Hrep Hinv Hi Hpc E. unfold fine_go in E. rewrite Hpc in E.
  destruct (rep_workers _ _ Hrep i fw Hi) as (Hb & aw & Ha & Hs). unfold seen in Hs. rewrite Hpc in Hs.
  destruct Hs as [(Hd & Hst & Hda) [Eo Ep Eid Hok Hbg]].
  pose proof (sys_inv_lock_ok a i aw (wk_producers (fw_worker fw)) Hinv Ha) as Hlock.
  pose proof (start_end_commit mem now (wk_proc (fw_worker fw)) (fw_worker fw) (sys_shm a) (wk_owner aw)
    (fw_next fw) Hok Hlock) as Hend.
  rewrite <-(rep_shm _ _ Hrep), Eo in E. destruct (tryLock _ _) as [[shm o] locked].
  destruct Hend as (wp' & w' & Hend & <- & Hev & Hseen). injection E as <-.
  set (aw' := mkWorker wp' (w_owner w') (w_producers w') true None) in *.
  rewrite Ep in Hend.
  destruct woken as [[fd v]|].
  - destruct Hbg as (Hfd & Hv & Hsta & next & Hbg).
    destruct (total_seen s a fd Hrep) as [_ Ht]. specialize (Ht i fw Hi).
    unfold owed in Ht. rewrite Hpc, decide_True in Ht by done. pose proof (rep_positive _ _ Hrep fd).
    set (a1 := mkSystem (w_shm w') (sys_array a) (<[fd := 0]> (sys_counters a))
      (<[i := aw']> (sys_workers a))).
    assert (sys_exec (SysWake i mem now) a = Some a1) as He.
    { simpl. rewrite Ha, (rep_array _ _ Hrep). simpl. rewrite Hfd. simpl.
      rewrite Hsta, (rep_counters _ _ Hrep), (proj2 (Z.ltb_lt 0 _)) by lia. simpl.
      erewrite (run_worker_Ret i _ (set_counter fd 0 a) _ _ _ Ha Hda); [by rewrite Hev|].
      by rewrite on_wake_parts, Hbg. }
    assert (∀ fd', counter a1 fd' = if decide (fd = fd') then 0 else counter a fd') as Hc1
      by apply (counter_set fd 0 a).
    destruct (repay a1 fd (f_counter s fd + (total fd (f_workers s) - v)))
      as (a' & Hr & Es & Ea & Ew & Ec);
      [lia|by rewrite Hc1, decide_True|].
    exists a'. split; [eapply rtc_l; [by exists (SysWake i mem now)|done]|].
    eapply rep_update; try done.
    + apply (rep_positive _ _ Hrep).
    + intros fd'. rewrite Ec, Hc1. unfold owed at 1. rewrite Hpc.
      replace (owed fd' _) with 0 by (unfold owed; simpl; by destruct locked).
      pose proof (rep_counters _ _ Hrep fd') as Hc. unfold f_counter in *. case_decide; subst; lia.
  - destruct Hbg as (Hsta & Hbg).
    eapply (matched_step _ _ _ (SysStart i mem now)).
    { simpl. rewrite Ha. simpl. rewrite Hsta. eapply run_worker_Ret; [exact Ha|exact Hda|].
      by rewrite on_start_parts, (rep_array _ _ Hrep), Hbg. }
    eapply rep_update; try done.
    + apply (rep_positive _ _ Hrep).
    + intros fd'. rewrite Hev. unfold owed at 1. rewrite Hpc.
      replace (owed fd' _) with 0 by (unfold owed; simpl; by destruct locked).
      pose proof (rep_counters _ _ Hrep fd') as Hc. unfold f_counter, counter in *. simpl. lia.
Qed.

(** While [System]'s worker owns the lock the byte is set. *)
Lemma rep_locked s a i aw :
  represents s a → sys_inv a → sys_workers a !! i = Some aw → wk_owner aw = true → f_shm s = 1.
Proof.
  intros Hrep Hinv Ha Ho. rewrite <-(rep_shm _ _ Hrep).
  by destruct (sys_inv_lock_ok a i aw [] Hinv Ha) as [_ H]; apply H.
Qed.

Lemma inside_eta w aw :
  inside w aw → mkWorker (wk_proc w) (wk_owner w) (wk_producers w) true None = w.
Proof. intros (Hd & Hst & _). destruct w. simpl in *. by subst. Qed.

Lemma sim_enable s a i fw mem now s' :
  represents s a → sys_inv a → f_workers s !! i = Some fw → fw_pc fw = AtEnableListen mem now →
  fine_go i fw s = Some s' → matched s' a.
Proof.
  intros Hrep Hinv Hi Hpc E. unfold fine_go in E. rewrite Hpc in E.
  destruct (rep_workers _ _ Hrep i fw Hi) as (Hb & aw & Ha & Hs). unfold seen in Hs. rewrite Hpc in Hs.
  destruct Hs as [Hin [Ho _ (ps & w' & Hend & Hn & ->)]].
  rewrite (rep_locked s a i _ Hrep Hinv Ha eq_refl), Ho, Hend in E. simpl in E. injection E as <-.
  apply matched_same. eapply (rep_stutter s a); try done.
  - unfold bound in *. simpl. by rewrite Hn.
  - apply (rep_positive _ _ Hrep).
  - intros fd. unfold owed. by rewrite Hpc.
Qed.

Lemma sim_unlock s a i fw fd s' :
  represents s a → sys_inv a → f_workers s !! i = Some fw → fw_pc fw = AtUnlock fd →
  fine_go i fw s = Some s' → matched s' a.
Proof.
  intros Hrep Hinv Hi Hpc E. unfold fine_go in E. rewrite Hpc in E.
  destruct (rep_workers _ _ Hrep i fw Hi) as (Hb & aw & Ha & Hs). unfold seen in Hs. rewrite Hpc in Hs.
  destruct Hs as (Hin & Ho & Hho).
  rewrite (rep_locked s a i _ Hrep Hinv Ha (ho_owner _ _ _ Hho)), Ho in E. simpl in E. injection E as <-.
  apply matched_same. eapply (rep_stutter s a); try done.
  - split; [by destruct Hin as (? & ? & ?)|]. split; [done|]. by destruct Hho; split.
  - apply (rep_positive _ _ Hrep).
  - intros fd'. unfold owed. by rewrite Hpc.
Qed.

(** The compare-and-swap of [unlock] is where a hand-over takes effect. *)
Lemma sim_swap s a i fw fd s' :
  represents s a → sys_inv a → f_workers s !! i = Some fw → fw_pc fw = AtSwap fd →
  fine_go i fw s = Some s' → matched s' a.
Proof.
  intros Hrep Hinv Hi Hpc E. unfold fine_go in E. rewrite Hpc in E. injection E as <-.
  destruct (rep_workers _ _ Hrep i fw Hi) as (Hb & aw & Ha & Hs). unfold seen in Hs. rewrite Hpc in Hs.
  destruct Hs as ((Hd & Hst & Hda) & Ho & [Hao Hr Hp Hid Hoff Hcb (sockfd & now & Hbg)]).
  pose proof (rep_locked s a i _ Hrep Hinv Ha Hao) as H1. rewrite H1, Ho.
  eapply (matched_step _ _ _ (SysAccept i sockfd now)).
  { simpl. rewrite Ha. simpl. rewrite Hr. eapply run_worker_Ret; [exact Ha|exact Hda|].
    rewrite (on_accept_parts sockfd now (Some fd)), Hbg by exact Hcb. simpl.
    by rewrite (rep_shm _ _ Hrep), H1, Hao. }
  eapply rep_update; try done.
  - split; [done|]. simpl. split; [done|]. split; [done|]. by rewrite <-Hp.
  - apply (rep_positive _ _ Hrep).
  - intros fd'. unfold owed. rewrite Hpc. cbn [fw_pc fw_worker alive wk_proc w_events].
    pose proof (rep_counters _ _ Hrep fd') as Hc. unfold f_counter, counter in *. simpl.
    rewrite Hid. case_decide; [subst; rewrite lookup_insert_eq; simpl; lia|].
    rewrite lookup_insert_ne by done. lia.
Qed.

Lemma sim_write s a i fw fd s' :
  represents s a → f_workers s !! i = Some fw → fw_pc fw = AtWrite fd →
  fine_go i fw s = Some s' → matched s' a.
Proof.
  intros Hrep Hi Hpc E. unfold fine_go in E. rewrite Hpc in E. injection E as <-.
  destruct (rep_workers _ _ Hrep i fw Hi) as (Hb & aw & Ha & Hs). unfold seen in Hs. rewrite Hpc in Hs.
  destruct Hs as (Hin & Ho & Hoff & ->).
  assert (∀ fd',
    default 0 (write_events [(fd, u64 (shmId (wk_proc (fw_worker fw))))] (f_counters s) !! fd')
    = f_counter s fd' + owed fd' fw) as Hm.
  { intros fd'. unfold owed. rewrite Hpc. simpl. unfold f_counter. case_decide; subst.
    - by rewrite lookup_insert_eq.
    - rewrite lookup_insert_ne by done. lia. }
  apply matched_same. eapply (rep_stutter s a); try done.
  - symmetry. by eapply inside_eta.
  - intros fd'. rewrite Hm. pose proof (rep_positive _ _ Hrep fd').
    destruct (total_seen s a fd' Hrep) as [_ _].
    assert (0 ≤ owed fd' fw); [|lia].
    unfold owed. rewrite Hpc. case_decide; [apply u64_range|done].
  - intros fd'. rewrite Hm. unfold owed at 2. simpl. lia.
Qed.

Lemma fine_exec_matched e s a s' :
  represents s a → sys_inv a → fine_exec e s = Some s' → matched s' a.
Proof.
  intros Hrep Hinv E. destruct e as [i mem now|i sockfd now|i name|i mem now|i|fd v].
  - by eapply sim_start.
  - by eapply sim_accept.
  - by eapply sim_close.
  - by eapply sim_wake.
  - simpl in E. destruct (f_workers s !! i) as [fw|] eqn:Hi; [simpl in E|done].
    destruct (wk_dead _); [done|]. destruct (fw_pc fw) as [|woken mem now|mem now|fd|fd|fd] eqn:Hpc.
    + unfold fine_go in E. by rewrite Hpc in E.
    + by eapply sim_try.
    + by eapply sim_enable.
    + by eapply sim_unlock.
    + by eapply sim_swap.
    + by eapply sim_write.
  - by eapply sim_poke.
Qed.

Lemma total_fine_of fd (l : list worker) : total fd ((λ w, mkFworker w None InLoop) <$> l) = 0.
Proof. induction l as [|w l IH]; [done|exact IH]. Qed.

Lemma fine_of_represents array params s0 :
  sys_init array params s0 → represents (fine_of s0) s0.
Proof.
  intros (Hs & Ha & Hc & Hl & Hw). split; try done.
  - intros fd. unfold counter, f_counter. simpl. rewrite total_fine_of. lia.
  - intros fd. unfold f_counter. simpl. by rewrite Hc.
  - simpl. by rewrite length_fmap.
  - simpl. intros i fw Hi. apply list_lookup_fmap_Some in Hi as (w & -> & Hi).
    destruct (Hw i w Hi) as (p & _ & Hnew). apply worker_new_ok in Hnew as (_ & _ & _ & _ & Hn).
    split; [done|]. by exists w.
Qed.

Lemma fine_reachable array params s0 s :
  sys_init array params s0 → rtc fine_step (fine_of s0) s →
  ∃ a, rtc sys_step s0 a ∧ represents s a.
Proof.
  intros Hinit. apply (rtc_ind_r (λ s, ∃ a, rtc sys_step s0 a ∧ represents s a)).
  - exists s0. split; [done|]. by eapply fine_of_represents.
  - intros s1 s2 _ [e He] (a & Hr & Hrep).
    destruct (fine_exec_matched e s1 a s2 Hrep) as (a' & Hr' & Hrep'); [|done|].
    + by eapply sys_reachable_inv.
    + exists a'. split; [by etrans|done].
Qed.

(** ** Who listens *)

Lemma listening_owner s a i fw :
  represents s a → sys_inv a → f_workers s !! i = Some fw → wk_listening (fw_worker fw) = true →
  wk_owner (fw_worker fw) = true ∧ ∃ aw, sys_workers a !! i = Some aw ∧ wk_owner aw = true.
Proof.
  intros Hrep Hinv Hi Hlis. unfold wk_listening in Hlis. destruct (wk_dead _); [done|].
  destruct (rep_workers _ _ Hrep i fw Hi) as (_ & aw & Ha & Hs). unfold seen in Hs.
  destruct (fw_pc fw) as [|woken mem now|mem now|fd|fd|fd].
  - subst aw. destruct (sinv_workers _ Hinv i _ Ha) as (Hok & _). unfold wk_server in Hlis.
    rewrite (ok_listening _ _ Hok) in Hlis. split; [done|]. by eexists.
  - destruct Hs as [_ [Eo _ _ Hok _]]. unfold wk_server in Hlis.
    rewrite (ok_listening _ _ Hok) in Hlis. split; [congruence|]. by exists aw.
  - destruct Hs as [_ [_ Hoff _]]. congruence.
  - destruct Hs as (_ & _ & Hho). pose proof (ho_silent _ _ _ Hho). congruence.
  - destruct Hs as (_ & _ & Hho). pose proof (ho_silent _ _ _ Hho). congruence.
  - destruct Hs as (_ & _ & Hoff & _). congruence.
Qed.

(** Inside a callback nothing fails. *)
Lemma inside_goes_on s a i fw :
  represents s a → sys_inv a → f_workers s !! i = Some fw → wk_dead (fw_worker fw) = None →
  fw_pc fw ≠ InLoop →
  ∃ s' fw', fine_exec (FGo i) s = Some s' ∧ f_workers s' !! i = Some fw' ∧
    wk_dead (fw_worker fw') = None.
Proof.
  intros Hrep Hinv Hi Hd Hpc. simpl. rewrite Hi. simpl. rewrite Hd.
  destruct (rep_workers _ _ Hrep i fw Hi) as (_ & aw & Ha & Hs). unfold seen in Hs.
  pose proof (lookup_lt_Some _ _ _ Hi) as Hlt. unfold fine_go, f_local.
  destruct (fw_pc fw) as [|woken mem now|mem now|fd|fd|fd]; [done|..].
  - destruct (tryLock _ _) as [[shm o] locked]. do 2 eexists. split; [done|].
    split; [by apply list_lookup_insert_eq|done].
  - destruct Hs as [_ [Ho _ (ps & w' & Hend & _ & ->)]].
    rewrite (rep_locked s a i _ Hrep Hinv Ha eq_refl), Ho, Hend. simpl.
    do 2 eexists. split; [done|]. split; [by apply list_lookup_insert_eq|done].
  - destruct Hs as (_ & Ho & Hho). rewrite (rep_locked s a i _ Hrep Hinv Ha (ho_owner _ _ _ Hho)), Ho.
    simpl. do 2 eexists. split; [done|]. split; [by apply list_lookup_insert_eq|done].
  - do 2 eexists. split; [done|]. split; [by apply list_lookup_insert_eq|done].
  - do 2 eexists. split; [done|]. split; [by apply list_lookup_insert_eq|done].
Qed.

(** ** Properties *)

(** C3. Callbacks may be taken as atomic.  Whatever the interleaving of the
    workers' accesses to the lock byte and the event descriptors, there is a run
    of [System], in which a callback is one step, that ends with the same lock
    byte and the same state of every worker that is in its loop; when all of them
    are, it ends in the same state, counters included.  That run may hold writes
    to the descriptors by others, as [System] allows at any time ([SysPoke]): they
    make up for what was written between two accesses of one callback.  ([owner]
    starts false in every worker, as in [accept_token].) *)
Theorem callbacks_linearize (array : list Z) (params : list (Loop * Z * Z)) (s0 : System) (s : Fine) :
  sys_init array params s0 → rtc fine_step (fine_of s0) s →
  ∃ a, rtc sys_step s0 a ∧ sys_shm a = f_shm s ∧
    (∀ i fw, f_workers s !! i = Some fw → fw_pc fw = InLoop →
       sys_workers a !! i = Some (fw_worker fw)) ∧
    ((∀ i fw, f_workers s !! i = Some fw → fw_pc fw = InLoop) →
       sys_workers a = fw_worker <$> f_workers s ∧ ∀ fd, counter a fd = f_counter s fd).
Proof.
  intros Hinit Hreach. destruct (fine_reachable _ _ _ _ Hinit Hreach) as (a & Hr & Hrep).
  assert (∀ i fw, f_workers s !! i = Some fw → fw_pc fw = InLoop →
    sys_workers a !! i = Some (fw_worker fw)) as Hloop.
  { intros i fw Hi Hpc. destruct (rep_workers _ _ Hrep i fw Hi) as (_ & aw & Ha & Hs).
    unfold seen in Hs. rewrite Hpc in Hs. by subst. }
  exists a. split; [done|]. split; [apply Hrep|]. split; [done|]. intros Hall. split.
  - apply list_eq_same_length with (length (f_workers s));
      [by rewrite length_fmap|apply Hrep|].
    intros i x y Hi Hx. rewrite list_lookup_fmap. intros (fw & Hfw & ->)%fmap_Some.
    rewrite (Hloop i fw Hfw (Hall i fw Hfw)) in Hx. congruence.
  - intros fd. rewrite (rep_counters _ _ Hrep).
    assert (total fd (f_workers s) = 0) as ->; [|lia]. clear - Hall.
    induction (f_workers s) as [|fw l IH]; [done|]. simpl.
    rewrite IH by (intros i x Hx; by apply (Hall (S i))).
    unfold owed. by rewrite (Hall 0%nat fw).
Qed.

(** C11. One listener at any instant.  Between any two accesses of the workers,
    and not only between callbacks, a worker that listens owns the lock and the
    byte is set, since a worker takes the lock before it listens and stops
    listening before it releases the lock; so no two workers listen at the same
    time.  And a worker that is inside a callback can always go on, and no access
    there stops it: the assertion of [unlock] holds.  ([owner] starts false in
    every worker, as in [accept_token].) *)
Theorem one_listener (array : list Z) (params : list (Loop * Z * Z)) (s0 : System) (s : Fine) :
  sys_init array params s0 → rtc fine_step (fine_of s0) s →
  (∀ i fw, f_workers s !! i = Some fw → wk_listening (fw_worker fw) = true →
     wk_owner (fw_worker fw) = true ∧ f_shm s = 1) ∧
  (∀ i j fi fj, f_workers s !! i = Some fi → f_workers s !! j = Some fj →
     wk_listening (fw_worker fi) = true → wk_listening (fw_worker fj) = true → i = j) ∧
  (∀ i fw, f_workers s !! i = Some fw → wk_dead (fw_worker fw) = None → fw_pc fw ≠ InLoop →
     ∃ s' fw', fine_exec (FGo i) s = Some s' ∧ f_workers s' !! i = Some fw' ∧
       wk_dead (fw_worker fw') = None).
Proof.
  intros Hinit Hreach. destruct (fine_reachable _ _ _ _ Hinit Hreach) as (a & Hr & Hrep).
  pose proof (sys_reachable_inv _ _ _ _ Hinit Hr) as Hinv. split; [|split].
  - intros i fw Hi Hl. destruct (listening_owner s a i fw Hrep Hinv Hi Hl) as (Ho & aw & Ha & Hao).
    split; [done|]. by eapply rep_locked.
  - intros i j fi fj Hi Hj Hli Hlj.
    destruct (listening_owner s a i fi Hrep Hinv Hi Hli) as (_ & wi & Hai & Hoi).
    destruct (listening_owner s a j fj Hrep Hinv Hj Hlj) as (_ & wj & Haj & Hoj).
    assert (token a = Some i) as Hti by (apply token_Some; eauto).
    assert (token a = Some j) as Htj by (apply token_Some; eauto). congruence.
  - intros i fw. by apply (inside_goes_on s a).
Qed.

(** ** Witnesses *)

Fixpoint fine_run (es : list fine_event) (s : Fine) : option Fine :=
  match es with
  | [] => Some s
  | e :: es => s' ← fine_exec e s; fine_run es s'
  end.

Lemma fine_run_steps es s s' : fine_run es s = Some s' → rtc fine_step s s'.
Proof.
  revert s. induction es as [|e es IH]; intros s E; simpl in E; [by simplify_eq|].
  destruct (fine_exec e s) as [s1|] eqn:He; [simpl in E|done].
  eapply rtc_l; [by exists e|by apply IH].
Qed.

(** Both workers are about to try the lock; worker 1 gets it, worker 0 does not,
    and worker 1 has still to begin to listen. *)
Definition overlapping : list fine_event :=
  [FStart 0 sample_mem 100; FStart 1 sample_mem 100; FGo 1; FGo 0].
Definition all_in_loop (s : Fine) : bool :=
  forallb (λ fw, match fw_pc fw with InLoop => true | _ => false end) (f_workers s).
Definition listens (s : Fine) (i : nat) : bool :=
  match f_workers s !! i with Some fw => wk_listening (fw_worker fw) | None => false end.

Lemma overlapping_ends :
  ∃ s, rtc fine_step (fine_of sample_system) s ∧ all_in_loop s = true ∧ f_shm s = 1 ∧
    listens s 1 = true.
Proof.
  destruct (fine_run (overlapping ++ [FGo 1]) (fine_of sample_system)) as [s|] eqn:E.
  2: { exfalso. revert E. vm_compute. discriminate. }
  assert ((λ s, all_in_loop s && (f_shm s =? 1) && listens s 1) <$>
    fine_run (overlapping ++ [FGo 1]) (fine_of sample_system) = Some true) as H by (vm_compute; done).
  rewrite E in H. injection H as H. apply andb_prop in H as [[H1 H2%Z.eqb_eq]%andb_prop H3].
  exists s. split; [by eapply fine_run_steps|done].
Qed.

Lemma callbacks_linearize_witness :
  ∃ s a, rtc fine_step (fine_of sample_system) s ∧ rtc sys_step sample_system a ∧
    sys_shm a = 1 ∧ sys_workers a = fw_worker <$> f_workers s.
Proof.
  destruct overlapping_ends as (s & Hreach & Hall & Hshm & _).
  destruct (callbacks_linearize _ _ sample_system s sample_init Hreach) as (a & Hr & Hs & _ & H).
  exists s, a. split; [exact Hreach|]. split; [exact Hr|]. split; [congruence|].
  apply H. intros i fw Hi. apply Is_true_true_2, forallb_True in Hall.
  pose proof (Forall_lookup_1 _ _ _ _ Hall Hi) as Hpc. simpl in Hpc. by destruct (fw_pc fw).
Defined.

Lemma one_listener_witness :
  ∃ s fw, rtc fine_step (fine_of sample_system) s ∧ f_workers s !! 1%nat = Some fw ∧
    wk_listening (fw_worker fw) = true ∧ wk_owner (fw_worker fw) = true ∧ listens s 0 = false.
Proof.
  destruct overlapping_ends as (s & Hreach & _ & _ & Hl).
  destruct (one_listener _ _ sample_system s sample_init Hreach) as (H1 & H2 & _).
  unfold listens in *. destruct (f_workers s !! 1%nat) as [fw|] eqn:Hfw; [|discriminate Hl].
  exists s, fw. split; [exact Hreach|]. split; [exact Hfw|]. split; [exact Hl|].
  split; [apply (H1 1%nat fw Hfw Hl)|].
  destruct (f_workers s !! 0%nat) as [f0|] eqn:Hf0; [|reflexivity].
  destruct (wk_listening (fw_worker f0)) eqn:H0; [|reflexivity].
  discriminate (H2 0%nat 1%nat f0 fw Hf0 Hfw H0 Hl).
Defined.
